(* ===== verification/_CoqProject ===== *)
-Q . S2P
Prelude.v
Double.v
Rounding.v
Maps.v
Order.v
OrderBook.v
BookLevels.v
BookMatch.v
BookInv.v
BookSpec.v
BookFacts.v
BookIds.v
BookQueues.v
BookProps.v
Events.v
PublisherThreads.v
MatchingEngine.v
EngineProps.v
RiskEngine.v
RiskProps.v
Bytes.v
Crc.v
Fifo.v
RingBuffer.v
JournalRing.v
JournalSpsc.v
OrderPool.v
OrderQueue.v
SlotBook.v
SlotRep.v
SlotRefine.v
SymbolTable.v
ConcurrentEngine.v
ShardedEngine.v
Journal.v
JournalIO.v
JournalProps.v
FlushProtocol.v
Recovery.v
RecoveryProps.v
Untimed.v
ReplayFills.v
Resumed.v
Rebuild.v
ShardedJournal.v
TradeLog.v
TradeLogger.v
Typed.v
JournaledEngine.v
Console.v
RiskBook.v
TickPrices.v
