(* ===== verification/Prelude.v ===== *)
(** * A verification library for the low-latency trading engine

    The program is a C++ library: a price-time priority order book and the engine around it, a
    risk gate, a binary journal of the engine's events with its replay, a trade log, and the
    threads and shards that run many engines side by side. The development models the program
    file by file and proves what each part promises to the next.

    ** The parts and how they meet

    An [Order] (include/Order.h) enters through [ShardedMatchingEngine::submitOrder], which asks
    the [SymbolTable] for its shard and hands it to that shard's [ConcurrentMatchingEngine]: a
    [RingBuffer] of orders and a consumer thread that calls [MatchingEngine::processOrder]. The
    engine numbers the order, matches it against its [OrderBook], whose levels are [OrderQueue]s
    of slots of one [OrderPool], and publishes the outcome through a [MarketDataPublisher].
    A [Journal] subscribes: it serializes events into a [JournalRingBuffer], from which its writer
    thread appends them to a file. [Recovery::replay] reads such a file into a fresh engine;
    [ShardedJournalManager] does so per shard and restarts the sequence counters. [RiskEngine]
    validates orders before they are sent and follows fills; [TradeLogger] writes trades to a log.

    ** The files

    - Prelude, Double, Maps: machine integers as [Z] with their wrap-around written out ([u64],
      [u32], [to_i64]), C++ exceptions as the values of [result], the hint and rewrite database
      [trading], binary64 arithmetic, sums over finite maps. Rounding: the error of one operation.
    - Order, OrderBook: include/Order.h, Trade.h, OrderBook.h, src/OrderBook.cpp. BookLevels,
      BookMatch, BookInv, BookSpec, BookFacts, BookIds, BookQueues hold the lemmas (sorted levels,
      the loop rule, the invariant, the scans, distinct ids, predicates on queues), BookProps the
      theorems.
    - OrderPool, OrderQueue: include/OrderPool.h, OrderQueue.h, pointers as slot indices.
    - SlotBook, SlotRep, SlotRefine: src/OrderBook.cpp again, over those queues and their pool, in a
      monad; what a stored book represents; that it is OrderBook.v.
    - Events, MatchingEngine, EngineProps: include/MarketDataTypes.h, MarketDataPublisher.h,
      MatchingEngine.h and their .cpp files; [engine_op] and [engine_step] collect the operations.
      PublisherThreads: the publisher's accesses by any number of threads.
    - RiskEngine, RiskProps: include/RiskEngine.h, src/RiskEngine.cpp. RiskBook: a client that drives
      a risk engine beside a book as include/RiskEngine.h documents; the client is not code of src/.
    - Bytes, Crc, Fifo, RingBuffer, JournalRing: the codecs and the checksum of src/Journal.cpp and
      src/Recovery.cpp; the class [BoundedFifo], the contract of a bounded queue; its two
      implementations, src/RingBuffer.cpp and src/JournalRingBuffer.cpp. JournalSpsc: the accesses of
      the two threads of the latter, in every interleaving, amount to whole operations.
    - Journal, JournalIO, JournalProps, FlushProtocol: src/Journal.cpp, against [BoundedFifo]: the
      operations, the loops around the system calls, the threads, and who wakes whom in [flush].
    - Recovery, RecoveryProps: src/Recovery.cpp. Untimed, ReplayFills, Resumed, Rebuild: that a replay
      rebuilds the book the journal was written from, and an engine that can go on with it.
    - SymbolTable, ConcurrentEngine, ShardedEngine, ShardedJournal: include/SymbolId.h,
      src/ConcurrentMatchingEngine.cpp, src/ShardedEngine.cpp, src/ShardedJournalManager.cpp.
    - TradeLog, TradeLogger: src/TradeLogger.cpp, the bytes of a record; the buffered stream and the
      threads.
    - Typed: that what the engine hands to journal and log fits the types of their formats.
    - JournaledEngine: an engine, its journal with the writer thread, and a replay of the file found
      after a crash, as one system.
    - Console: the text of [to_string] and [printBook], and src/main.cpp as a program over the engine
      and standard output. TickPrices: a price as a double, as ticks and as text.

    ** State, operations, threads

    The object of a class is a [Record] with the fields of the class under their names; a method is
    a function of the object that returns the new object, the value or the exception, and the events
    published. What the code cannot choose is an argument: clock readings, what a system call
    answers, the tick value of a price too large for 64 bits (undefined in C++). Where several
    threads meet, their atomic accesses or critical sections are the steps of a relation ([spsc_step],
    [cstep], [sharded_step], [pstep], [jstep], [fstep], [tstep], [dstep]), and the theorems quantify over
    [rtc] of it: every interleaving. The atomics of the code release and acquire in pairs, one writer each,
    which is what makes interleavings adequate.

    ** What the theorems show

    - The book: [matchOrder] is greedy price-time filling (matchOrder_price_time); the invariant
      of reachable books (reachable_book_sound); conservation, all-or-nothing, self-trade prevention,
      exact cancellation and replacement; the matching loop terminates.
    - Storage: any number of queues over one pool are lists that share its capacity
      (queues_refine_lists); the book over them answers every sequence of calls as OrderBook.v does,
      and never misuses the pool (slot_book_refines), so what is proved of OrderBook.v holds of it.
    - The engine: priorities agree with places in the queues as long as no order is replaced by its own
      price and quantity (engine_price_time_priority); which events are published, and that an
      acceptance says what rests unless self-trade prevention or a full pool is in the way
      (processOrder_publishes, processOrder_acceptance_sound); halting is final; everything published
      fits its type (engine_speaks_typed). Subscriptions and publications are atomic
      (publisher_linearizable).
    - Risk: counters are the sums of the reservations (risk_counters_exact), and positions stay
      within the limit when nothing but fills and cancellations comes between an order's validation
      and its reservation (validated_positions_bounded, validateReplace_sound); checkInvariant decides
      what it says; a refused transition changes nothing. Used as documented, the risk engine agrees
      with the book until it refuses a reservation, which it does exactly when working quantity alone
      passes the limit (lifecycle_consistent).
    - Journal: the file is whole accepted records in order (journal_file_prefix), [flush] means written
      (flush_durable), stopping drains, a flusher is woken (flush_no_lost_wakeup), short writes and
      interruptions do not matter (writeSerialized_io_refines).
    - Recovery: exactly which files replay and to what (replay_succeeds_iff), torn tails, damaged
      records, the order of what was seen, and the round trip of a record; over a whole run of
      operations that a journal can express ([op_journaled]: among others no amendment in place, no
      self-trade policy, prices of whole ticks), replay rebuilds the book up to timestamps
      (recovery_rebuilds_book); a recovered shard goes on counting where its journal ends
      (recovered_shard_continues). A crash at any moment of such a run, of the process or of
      the machine, costs only operations that no [flush] (or [sync]) has confirmed (crash_recovers), a
      clean shutdown nothing (shutdown_recovers).
    - Concurrency: the threaded engine is the sequential engine on the accepted orders
      (concurrent_refines_sequential), stopping drains it, shards do not interfere
      (shards_independent), the rings are queues.
    - The trade log holds the accepted trades in order, from the beginning (trade_log_prefix), all of
      them after a stop whose flush succeeds (trade_log_complete), which stop does not report
      (stop_hides_flush_failure).
    - A price of whole ticks is the same price in the engine, the journal, after recovery and in print
      (whole_ticks_faithful), which is what recovery_rebuilds_book asks of prices.
    - A printed book says exactly what it displays (printBook_displays); main_output is the whole output
      of the demonstration.

    Theorems at the end of a file under "Where the code and its documentation differ", and a few
    more in Rebuild, ConcurrentEngine, ShardedJournal, FlushProtocol and TradeLogger, show by
    a concrete run what the code does where it seems to mean something else; so do those at the end of
    RiskBook, JournaledEngine and PublisherThreads.

    ** Fuel and bounds

    Three recursions carry fuel. [match_loop] starts with one more than [match_measure] (orders and levels
    ahead), and match_loop_terminates shows that more changes nothing. [replay_loop] starts with one more
    than the bytes of the file and every record takes at least one; replay_terminates shows that it
    answers. [parse_log], a reader of the trade log the source does not have, takes one more than the
    number of records. Hypotheses of theorems that bound a counter (trade ids, sequence numbers below
    2^64) say how far a run may go before 64 bits wrap around.

    ** Not modelled

    tests/ and benchmarks/; the branches for Windows; what closing the trade log's stream does after its
    last flush has failed (the C++ standard leaves it open); failing allocations other than an exhausted
    [OrderPool]; [reservePositions], which only sizes hash tables; the include guards, declarations and
    comments of the headers. The engine runs on the book of lists; in JournalProps and JournaledEngine
    the threads of the journal ring take turns by whole operations (adequate by
    journal_ring_linearizable). No class of the source gives a [ConcurrentMatchingEngine] a publisher, a
    journal or a risk engine, so the engine of JournaledEngine and the shard of RiskBook are driven by
    one thread of their own, as the tests drive them. Memory orders weaker than interleaving are not
    modelled.

    ** Plan

    Next: replacements in the live lifecycle of [RiskEngine] (validateReplace, the cancellation, the
    new reservation), and its recovery lifecycle ([restoreAccepted], [restoreFill],
    [restoreCancelled]) along a replay, so that the risk engine of a recovered shard passes
    [checkInvariant] against the recovered book. *)

From Stdlib Require Import ZArith Lia String.
From stdpp Require Import base tactics numbers list option.

Local Open Scope Z_scope.

(** ** Machine integers

    A [uint64_t], [uint32_t] or [size_t] is a [Z] in its range; where the code
    adds or subtracts, the wrap-around is written out with [u64] and [u32]. *)

Definition UINT64_MAX : Z := 18446744073709551615.
Definition UINT32_MAX : Z := 4294967295.
Definition INT64_MAX : Z := 9223372036854775807.
Definition INT64_MIN : Z := -9223372036854775808.

Definition u64 (z : Z) : Z := z mod 18446744073709551616.
Definition u32 (z : Z) : Z := z mod 4294967296.
Definition u8 (z : Z) : Z := z mod 256.

(** [static_cast<int64_t>] of an unsigned 64-bit value: two's complement. *)
Definition to_i64 (z : Z) : Z :=
  let w := u64 z in if w <=? INT64_MAX then w else w - 18446744073709551616.

Definition in_u64 (z : Z) : Prop := 0 <= z <= UINT64_MAX.
Definition in_u32 (z : Z) : Prop := 0 <= z <= UINT32_MAX.
Definition in_i64 (z : Z) : Prop := INT64_MIN <= z <= INT64_MAX.

(** ** C++ exceptions as values *)

Inductive exn : Type :=
| InvalidArgument (what : string)
| RuntimeError (what : string)
| OutOfRange (what : string).

Inductive result (A : Type) : Type :=
| Ok (a : A)
| Throw (e : exn).
Arguments Ok {A} a.
Arguments Throw {A} e.

#[export] Instance result_ret : MRet result := fun A a => Ok a.
#[export] Instance result_bind : MBind result :=
  fun A B f r => match r with Ok a => f a | Throw e => Throw e end.

(** ** Sums over lists *)

Definition sum_by {A : Type} (f : A -> Z) (l : list A) : Z :=
  foldr (fun x acc => f x + acc) 0 l.

(** ** Lemmas on machine integers *)

Create HintDb trading discriminated.
Create Rewrite HintDb machine.
Create Rewrite HintDb trading.

Ltac unfold_int :=
  unfold in_u64, in_u32, in_i64, UINT64_MAX, UINT32_MAX, INT64_MAX, INT64_MIN in *.

(** Turns every boolean integer test of the context into the proposition it decides. *)
Ltac bool_to_prop :=
  repeat match goal with
  | H : (_ && _)%bool = true |- _ => apply andb_true_iff in H; destruct H
  | H : (_ || _)%bool = false |- _ => apply orb_false_iff in H; destruct H
  | H : (_ && _)%bool = false |- _ => apply andb_false_iff in H
  | H : (_ || _)%bool = true |- _ => apply orb_true_iff in H
  | H : negb _ = true |- _ => apply negb_true_iff in H
  | H : negb _ = false |- _ => apply negb_false_iff in H
  | H : (_ =? _) = true |- _ => apply Z.eqb_eq in H
  | H : (_ =? _) = false |- _ => apply Z.eqb_neq in H
  | H : (_ <? _) = true |- _ => apply Z.ltb_lt in H
  | H : (_ <? _) = false |- _ => apply Z.ltb_ge in H
  | H : (_ <=? _) = true |- _ => apply Z.leb_le in H
  | H : (_ <=? _) = false |- _ => apply Z.leb_gt in H
  | H : (_ >? _) = true |- _ => rewrite Z.gtb_ltb in H
  | H : (_ >? _) = false |- _ => rewrite Z.gtb_ltb in H
  | H : (_ >=? _) = true |- _ => rewrite Z.geb_leb in H
  | H : (_ >=? _) = false |- _ => rewrite Z.geb_leb in H
  end.

(** Closes arithmetic goals, and goals whose hypotheses contradict each other. *)
Ltac zsolve := first [done | lia | intros; exfalso; lia].

(** Splits on the scrutinee of the first [match] or [if] of a hypothesis. *)
Ltac case_in H :=
  match type of H with
  | context [match ?x with _ => _ end] => destruct x eqn:?
  end.

Lemma u64_small z : in_u64 z -> u64 z = z.
Proof. unfold u64; unfold_int; intros; apply Z.mod_small; lia. Qed.

Lemma u32_small z : in_u32 z -> u32 z = z.
Proof. unfold u32; unfold_int; intros; apply Z.mod_small; lia. Qed.

Lemma u64_range z : in_u64 (u64 z).
Proof. unfold u64; unfold_int; pose proof (Z.mod_pos_bound z 18446744073709551616); lia. Qed.

Lemma u32_range z : in_u32 (u32 z).
Proof. unfold u32; unfold_int; pose proof (Z.mod_pos_bound z 4294967296); lia. Qed.

Lemma u64_add_l a b : u64 (u64 a + b) = u64 (a + b).
Proof. unfold u64. by rewrite Zplus_mod_idemp_l. Qed.

Lemma u32_add_l a b : u32 (u32 a + b) = u32 (a + b).
Proof. unfold u32. by rewrite Zplus_mod_idemp_l. Qed.

Lemma to_i64_small z : 0 <= z <= INT64_MAX -> to_i64 z = z.
Proof.
  intros Hz. unfold to_i64. rewrite u64_small by (unfold_int; lia).
  destruct (Z.leb_spec z INT64_MAX); lia.
Qed.

Lemma to_i64_u64 z : in_i64 z -> to_i64 (u64 z) = z.
Proof.
  intros Hz. unfold to_i64, u64. rewrite Zmod_mod. unfold_int.
  destruct (Z.leb_spec (z mod 18446744073709551616) 9223372036854775807) as [Hle|Hgt].
  - destruct (Z.lt_ge_cases z 0); [|by rewrite Z.mod_small by lia].
    rewrite <- (Z_mod_plus_full z 1), Z.mod_small in Hle by lia. lia.
  - destruct (Z.lt_ge_cases z 0).
    + rewrite <- (Z_mod_plus_full z 1), Z.mod_small by lia. lia.
    + rewrite Z.mod_small in Hgt by lia. lia.
Qed.

Lemma to_i64_range z : in_i64 (to_i64 z).
Proof.
  unfold to_i64. pose proof (u64_range z).
  destruct (Z.leb_spec (u64 z) INT64_MAX); unfold_int; lia.
Qed.

#[export] Hint Rewrite u64_small u32_small to_i64_small using (unfold_int; lia) : machine.
#[export] Hint Resolve u64_range u32_range to_i64_range : trading.

(** ** Lemmas on sums *)

Section Sums.
Context {A : Type} (f : A -> Z).
Implicit Types (l : list A) (x : A).

Lemma sum_by_nil : sum_by f [] = 0.
Proof. reflexivity. Qed.

Lemma sum_by_cons x l : sum_by f (x :: l) = f x + sum_by f l.
Proof. reflexivity. Qed.

Lemma sum_by_app l1 l2 : sum_by f (l1 ++ l2) = sum_by f l1 + sum_by f l2.
Proof. induction l1 as [|x l1 IH]; simpl; [reflexivity|]. rewrite IH; lia. Qed.

Lemma sum_by_nonneg l : Forall (fun x => 0 <= f x) l -> 0 <= sum_by f l.
Proof. induction 1; simpl; lia. Qed.

Lemma sum_by_delete l i x :
  l !! i = Some x -> sum_by f l = f x + sum_by f (delete i l).
Proof.
  revert i; induction l as [|y l IH]; intros [|i] Hi; simplify_eq/=; [reflexivity|].
  rewrite (IH _ Hi); lia.
Qed.

Lemma sum_by_insert l i x y :
  l !! i = Some x -> sum_by f (<[i := y]> l) = sum_by f l - f x + f y.
Proof.
  revert i; induction l as [|z l IH]; intros [|i] Hi; simplify_eq/=; [lia|].
  rewrite (IH _ Hi); lia.
Qed.
End Sums.

#[export] Hint Rewrite @sum_by_nil @sum_by_cons @sum_by_app : trading.
