(* ===== verification/Double.v ===== *)
(** * Double: the IEEE 754 binary64 operations the engine uses on prices

    A C++ [double] is a [spec_float] of the Standard Library read with precision 53 and
    maximal exponent 1024: the arithmetic rounds to nearest even, the comparisons are the
    IEEE ones (false on NaN, +0 and -0 equal). *)

From Stdlib Require Import ZArith Lia.
From Stdlib Require Import SpecFloat.
From stdpp Require Import base tactics.
From S2P Require Import Prelude.

Local Open Scope Z_scope.

Definition double : Type := spec_float.

Definition d_zero : double := S754_zero false.

(** ** Classification: [std::isnan], [std::isinf], [std::isfinite] *)

Definition isnan (x : double) : bool :=
  match x with S754_nan => true | _ => false end.

Definition isinf (x : double) : bool :=
  match x with S754_infinity _ => true | _ => false end.

Definition isfinite (x : double) : bool := negb (isnan x) && negb (isinf x).

(** ** Comparison: [a < b], [a <= b], [a == b] *)

Definition dlt (a b : double) : bool := SFltb a b.
Definition dle (a b : double) : bool := SFleb a b.
Definition deq (a b : double) : bool := SFeqb a b.

(** ** Arithmetic *)

Definition dadd : double -> double -> double := SFadd 53 1024.
Definition dsub : double -> double -> double := SFsub 53 1024.
Definition dmul : double -> double -> double := SFmul 53 1024.
Definition ddiv : double -> double -> double := SFdiv 53 1024.

(** [static_cast<double>] of an integer: rounds to nearest even. *)
Definition d_of_Z (z : Z) : double := binary_normalize 53 1024 z 0 false.

(** [static_cast<int64_t>] of a double: truncation toward zero. The conversion is undefined
    behaviour in C++ when the truncated value does not fit, which is [None]. *)
Definition d_trunc (x : double) : option Z :=
  match x with
  | S754_zero _ => Some 0
  | S754_finite s m e =>
      let a := if 0 <=? e then Z.shiftl (Z.pos m) e else Z.shiftr (Z.pos m) (- e) in
      Some (if s then - a else a)
  | _ => None
  end.

Definition d_to_int64 (x : double) : option Z :=
  match d_trunc x with
  | Some z => if (INT64_MIN <=? z) && (z <=? INT64_MAX) then Some z else None
  | None => None
  end.

(** A literal [n / 10^k] of the source, correctly rounded by one division (exact for the
    operands used here). *)
Definition d_frac (n d : Z) : double := ddiv (d_of_Z n) (d_of_Z d).

(** ** Positive finite prices *)

(** What [price > 0 && std::isfinite(price)] accepts. *)
Definition valid_price (p : double) : bool := isfinite p && dlt d_zero p.

Example d_100_5 : dlt (d_of_Z 100) (d_frac 1005 10) = true.
Proof. reflexivity. Qed.

Lemma valid_price_inv p :
  valid_price p = true <-> exists m e, p = S754_finite false m e.
Proof.
  split.
  - destruct p as [[]|[]| |[] m e]; try discriminate; eauto.
  - intros (m & e & ->); reflexivity.
Qed.

Lemma dlt_finite m1 e1 m2 e2 :
  dlt (S754_finite false m1 e1) (S754_finite false m2 e2) = true <->
  e1 < e2 \/ (e1 = e2 /\ (m1 < m2)%positive).
Proof.
  unfold dlt, SFltb; simpl.
  change (Pos.compare_cont Eq m1 m2) with (Pos.compare m1 m2).
  destruct (Z.compare_spec e1 e2) as [->|?|?].
  - destruct (Pos.compare_spec m1 m2); split; intros; try lia; try discriminate; auto.
  - split; auto.
  - split; intros; [discriminate|lia].
Qed.

Lemma deq_finite m1 e1 m2 e2 :
  deq (S754_finite false m1 e1) (S754_finite false m2 e2) = true <-> e1 = e2 /\ m1 = m2.
Proof.
  unfold deq, SFeqb; simpl.
  change (Pos.compare_cont Eq m1 m2) with (Pos.compare m1 m2).
  destruct (Z.compare_spec e1 e2) as [->|?|?].
  - destruct (Pos.compare_spec m1 m2); subst; split; intros; try lia; try discriminate; auto.
  - split; [discriminate|lia].
  - split; [discriminate|lia].
Qed.

Ltac price_inv :=
  repeat match goal with
  | H : valid_price _ = true |- _ => apply valid_price_inv in H as (? & ? & ->)
  end.

Lemma dlt_irrefl p : dlt p p = false.
Proof.
  destruct p as [s|[]| |[] m e]; try reflexivity; unfold dlt, SFltb; simpl;
    rewrite Z.compare_refl; change (Pos.compare_cont Eq m m) with (Pos.compare m m);
    rewrite Pos.compare_refl; reflexivity.
Qed.

Lemma dlt_trans a b c :
  valid_price a = true -> valid_price b = true -> valid_price c = true ->
  dlt a b = true -> dlt b c = true -> dlt a c = true.
Proof.
  intros; price_inv. rewrite dlt_finite in *. lia.
Qed.

Lemma dlt_asym a b :
  valid_price a = true -> valid_price b = true -> dlt a b = true -> dlt b a = false.
Proof.
  intros Ha Hb Hab. apply not_true_is_false; intros Hba.
  pose proof (dlt_trans a b a Ha Hb Ha Hab Hba) as H.
  rewrite dlt_irrefl in H; discriminate.
Qed.

Lemma deq_eq a b :
  valid_price a = true -> valid_price b = true -> deq a b = true <-> a = b.
Proof.
  intros; price_inv. rewrite deq_finite. split; [intros []; congruence|].
  intros [= -> ->]; auto.
Qed.

Lemma deq_refl a : valid_price a = true -> deq a a = true.
Proof. intros Ha. apply deq_eq; auto. Qed.

(** Trichotomy, in the form the binary search and the price tests need it. *)
Lemma dlt_false a b :
  valid_price a = true -> valid_price b = true ->
  dlt a b = false <-> a = b \/ dlt b a = true.
Proof.
  intros; price_inv.
  match goal with |- dlt (S754_finite _ ?m1 ?e1) (S754_finite _ ?m2 ?e2) = _ <-> _ =>
    pose proof (dlt_finite m1 e1 m2 e2) as H1; pose proof (dlt_finite m2 e2 m1 e1) as H2;
    destruct (dlt (S754_finite false m1 e1) (S754_finite false m2 e2)) eqn:E
  end.
  - split; [discriminate|]. intros [[= -> ->]|H]; [lia|].
    destruct (proj1 H1 eq_refl), (proj1 H2 H); lia.
  - split; [intros _|reflexivity].
    match goal with |- S754_finite _ ?m1 ?e1 = S754_finite _ ?m2 ?e2 \/ _ =>
      destruct (Z.lt_trichotomy e1 e2) as [?|[->|?]];
      [|destruct (Pos.lt_total m1 m2) as [?|[->|?]]|] end; auto;
      try (right; apply H2; lia);
      exfalso; assert (false = true) by (apply H1; lia); discriminate.
Qed.

Lemma dlt_le_trans a b c :
  valid_price a = true -> valid_price b = true -> valid_price c = true ->
  dlt a b = true -> dlt c b = false -> dlt a c = true.
Proof.
  intros Ha Hb Hc Hab Hcb. apply dlt_false in Hcb as [->|Hbc]; auto.
  eauto using dlt_trans.
Qed.

Lemma dle_lt_trans a b c :
  valid_price a = true -> valid_price b = true -> valid_price c = true ->
  dlt b a = false -> dlt b c = true -> dlt a c = true.
Proof.
  intros Ha Hb Hc Hba Hbc. apply dlt_false in Hba as [->|Hab]; auto.
  eauto using dlt_trans.
Qed.

#[export] Hint Resolve dlt_irrefl deq_refl : trading.
