(* ===== verification/Rounding.v ===== *)
(** * Rounding: how far one rounding of binary64 arithmetic can be off

    [binary_round_aux] of the Standard Library, at precision 53, on mantissas of at least 53 bits in
    the normal range: the result is a normal number, off by at most one part in 2^52. Values are
    compared as integers, in units of 2^-2000, below every exponent. *)

From Stdlib Require Import ZArith Lia Bool.
From Stdlib Require Import SpecFloat.
From stdpp Require Import base tactics numbers.
From S2P Require Import Prelude.
From S2P Require Import Double.

Local Open Scope Z_scope.

(** ** Digits *)

Lemma digits2_bounds (m : positive) :
  2 ^ (Z.pos (digits2_pos m) - 1) <= Z.pos m < 2 ^ Z.pos (digits2_pos m).
Proof.
  induction m as [m IH|m IH|]; [| |by split].
  all: cbn [digits2_pos]; rewrite Pos2Z.inj_succ; unfold Z.succ; rewrite Z.add_simpl_r, Z.pow_add_r by lia;
    replace (Z.pos (digits2_pos m)) with (Z.pos (digits2_pos m) - 1 + 1) at 1 by lia; rewrite Z.pow_add_r by lia; lia.
Qed.

Lemma Zdigits2_unique z d : 0 < z -> 2 ^ (d - 1) <= z < 2 ^ d -> 0 < d -> Zdigits2 z = d.
Proof.
  intros Hz [Hlo Hhi] Hd. destruct z as [|m|m]; [lia| |lia]. pose proof (digits2_bounds m) as [H1 H2]. cbn [Zdigits2].
  assert (Z.pos (digits2_pos m) - 1 < d) by (apply (Z.pow_lt_mono_r_iff 2); lia).
  assert (d - 1 < Z.pos (digits2_pos m)) by (apply (Z.pow_lt_mono_r_iff 2); lia). lia.
Qed.

Lemma Zdigits2_bounds z : 0 < z -> 2 ^ (Zdigits2 z - 1) <= z < 2 ^ Zdigits2 z /\ 0 < Zdigits2 z.
Proof. intros Hz. destruct z as [|m|m]; [lia| |lia]. split; [apply digits2_bounds|cbn; lia]. Qed.

Lemma Zdigits2_ge z k : 0 < k -> 2 ^ (k - 1) <= z -> k <= Zdigits2 z.
Proof.
  intros Hk Hz. assert (0 < z) as H0 by (pose proof (Z.pow_pos_nonneg 2 (k - 1)); lia).
  destruct (Zdigits2_bounds z H0) as [[_ Hhi] Hd]. assert (k - 1 < Zdigits2 z); [|lia].
  apply (Z.pow_lt_mono_r_iff 2); lia.
Qed.

(** ** Shifting right *)

Lemma shr_1_m mrs : 0 <= shr_m mrs -> shr_m (shr_1 mrs) = shr_m mrs / 2.
Proof.
  destruct mrs as [m r s]. cbn [shr_m]. intros Hm. destruct m as [|[p|p|]|p]; try done; try lia; cbn [shr_m shr_1 orb].
  - apply (Z.div_unique_pos _ _ _ 1); lia.
  - apply (Z.div_unique_pos _ _ _ 0); lia.
Qed.

Lemma iter_shr_m p mrs : 0 <= shr_m mrs -> shr_m (SpecFloat.iter_pos shr_1 p mrs) = shr_m mrs / 2 ^ Z.pos p.
Proof.
  revert mrs. induction p as [p IH|p IH|]; intros mrs Hm; cbn [SpecFloat.iter_pos].
  - assert (0 <= shr_m (shr_1 mrs)) by (rewrite shr_1_m by done; by apply Z.div_pos).
    rewrite IH, IH by (try done; rewrite IH by done; by apply Z.div_pos; [|apply Z.pow_pos_nonneg]).
    replace (Z.pos p~1) with (1 + Z.pos p + Z.pos p) by lia. rewrite !Z.pow_add_r by lia.
    rewrite shr_1_m, !Z.div_div by (try done; lia). by rewrite Z.mul_assoc.
  - rewrite IH, IH by (try done; rewrite IH by done; by apply Z.div_pos; [|apply Z.pow_pos_nonneg]).
    replace (Z.pos p~0) with (Z.pos p + Z.pos p) by lia. rewrite Z.pow_add_r, Z.div_div by lia. done.
  - by rewrite shr_1_m.
Qed.

Lemma shr_record_m m l : shr_m (shr_record_of_loc m l) = m.
Proof. by destruct l as [|[]]. Qed.

Lemma shr_m_spec mrs e n : 0 <= n -> 0 <= shr_m mrs -> shr_m (shr mrs e n).1 = shr_m mrs / 2 ^ n /\ (shr mrs e n).2 = e + n.
Proof.
  intros Hn Hm. destruct n as [|p|p]; [| |lia]; cbn [shr fst snd].
  - by rewrite Z.pow_0_r, Z.div_1_r, Z.add_0_r.
  - by rewrite iter_shr_m.
Qed.

Lemma round_nearest_even_cases m l : round_nearest_even m l = m \/ round_nearest_even m l = m + 1.
Proof. destruct l as [|[]]; cbn; auto. destruct (Z.even m); auto. Qed.

(** ** One rounding *)

Lemma fexp_normal e : -1021 <= e -> fexp 53 1024 e = e - 53.
Proof. unfold fexp, emin. lia. Qed.

(** The mantissa is cut to 53 bits, and one may be added. *)
Lemma cut_to_53 m : 2 ^ 52 <= m ->
  let n := Zdigits2 m - 53 in
  0 <= n /\ 2 ^ 52 <= m / 2 ^ n < 2 ^ 53 /\ 2 ^ n * (m / 2 ^ n) <= m < 2 ^ n * (m / 2 ^ n) + 2 ^ n.
Proof.
  intros Hm n. assert (0 < m) as H0 by lia. destruct (Zdigits2_bounds m H0) as [[Hlo Hhi] _].
  pose proof (Zdigits2_ge m 53 ltac:(lia) Hm) as Hd. assert (0 <= n) as Hn by (unfold n; lia).
  assert (0 < 2 ^ n) as Hp by (by apply Z.pow_pos_nonneg). split; [done|].
  replace (Zdigits2 m - 1) with (52 + n) in Hlo by (unfold n; lia).
  replace (Zdigits2 m) with (53 + n) in Hhi by (unfold n; lia). rewrite Z.pow_add_r in Hlo, Hhi by lia.
  split; [split; [apply Z.div_le_lower_bound|apply Z.div_lt_upper_bound]; lia|].
  pose proof (Z.div_mod m (2 ^ n)). pose proof (Z.mod_pos_bound m (2 ^ n)). lia.
Qed.

Lemma round_once m e l :
  2 ^ 52 <= m -> -1021 <= Zdigits2 m + e -> Zdigits2 m + e <= 1000 ->
  exists (M : positive) E lo n,
    binary_round_aux 53 1024 false m e l = S754_finite false M E /\
    2 ^ 52 <= Z.pos M < 2 ^ 53 /\ e <= E /\ E <= Zdigits2 m + e - 52 /\
    0 <= n /\ 2 ^ 52 * 2 ^ n <= lo /\ lo <= m < lo + 2 ^ n /\
    lo <= Z.pos M * 2 ^ (E - e) <= lo + 2 ^ n.
Proof.
  intros Hm Hlo Hhi. destruct (cut_to_53 m Hm) as (Hn & Hcut & Hrest). set (n := Zdigits2 m - 53) in *.
  set (c := m / 2 ^ n) in *. assert (0 < 2 ^ n) as Hp by (by apply Z.pow_pos_nonneg).
  unfold binary_round_aux, shr_fexp. rewrite fexp_normal by lia.
  replace (Zdigits2 m + e - 53 - e) with n by (unfold n; lia).
  destruct (shr (shr_record_of_loc m l) e n) as [mrs e1] eqn:Hs.
  destruct (shr_m_spec (shr_record_of_loc m l) e n Hn) as [Hm1 He1]; [rewrite shr_record_m; lia|].
  rewrite Hs, shr_record_m in Hm1. rewrite Hs in He1. cbn [fst snd] in Hm1, He1. fold c in Hm1. subst e1. rewrite Hm1.
  set (r := round_nearest_even c _).
  assert (c <= r <= c + 1) as Hr by (unfold r; destruct (round_nearest_even_cases c (loc_of_shr_record mrs)); lia).
  destruct (Z.eq_dec r (2 ^ 53)) as [Hbig|Hbig].
  - assert (Zdigits2 r = 54) as -> by (apply Zdigits2_unique; lia). rewrite fexp_normal by lia.
    replace (54 + (e + n) - 53 - (e + n)) with 1 by lia. rewrite Hbig. cbn [shr shr_record_of_loc SpecFloat.iter_pos].
    change (shr_1 {| shr_m := 2 ^ 53; shr_r := false; shr_s := false |})
      with {| shr_m := 2 ^ 52; shr_r := false; shr_s := false |}. cbn [shr_m].
    change (2 ^ 52) with (Z.pos 4503599627370496). rewrite (proj2 (Z.leb_le _ _)) by lia.
    exists 4503599627370496%positive, (e + n + 1), (2 ^ n * c), n. split; [done|].
    replace (e + n + 1 - e) with (n + 1) by lia. rewrite Z.pow_add_r by lia.
    assert (c = 2 ^ 53 - 1) as Hc by lia. rewrite Hc in *. lia.
  - assert (Zdigits2 r = 53) as -> by (apply Zdigits2_unique; lia). rewrite fexp_normal by lia.
    replace (53 + (e + n) - 53 - (e + n)) with 0 by lia. cbn [shr shr_record_of_loc shr_m].
    destruct r as [|M|M] eqn:HM; [lia| |lia]. rewrite (proj2 (Z.leb_le _ _)) by lia.
    exists M, (e + n), (2 ^ n * c), n. split; [done|]. replace (e + n - e) with n by lia. nia.
Qed.

(** ** Values *)

(** [m * 2^e] in units of 2^-2000. *)
Definition units (m e : Z) : Z := m * 2 ^ (e + 2000).

(** A positive normal number within comfortable exponents. *)
Definition normal (x : double) (m e : Z) : Prop :=
  exists M, x = S754_finite false M e /\ m = Z.pos M /\ 2 ^ 52 <= m < 2 ^ 53.

Lemma units_pos m e : -2000 <= e -> 0 < m -> 0 < units m e.
Proof. intros He Hm. unfold units. apply Z.mul_pos_pos; [done|]. apply Z.pow_pos_nonneg; lia. Qed.

Lemma units_shift m e k : -2000 <= e -> 0 <= k -> units m (e + k) = units (m * 2 ^ k) e.
Proof.
  intros He Hk. unfold units. replace (e + k + 2000) with (k + (e + 2000)) by lia.
  rewrite Z.pow_add_r by lia. ring.
Qed.

(** [v] is within one part in 2^52 of [x / d]. *)
Definition close (v x d : Z) : Prop := 2 ^ 52 * Z.abs (v * d - x) <= x.

(** Rounding [m * 2^e], when the number meant is [y / d] between [m * 2^e] and [(m + 1) * 2^e]. *)
Lemma round_close m e l y d :
  2 ^ 52 <= m -> -1021 <= Zdigits2 m + e <= 1000 -> -2000 <= e -> 0 < d -> m * d <= y <= (m + 1) * d ->
  exists M E, normal (binary_round_aux 53 1024 false m e l) M E /\ e <= E <= Zdigits2 m + e - 52 /\
    close (units M E) (units y e) d.
Proof.
  intros Hm He Hunit Hd Hy. destruct (round_once m e l Hm) as (M & E & lo & n & Hr & HM & HE1 & HE2 & Hn & Hlo & Hlm & HR); [lia..|].
  exists (Z.pos M), E. split; [by exists M|]. split; [done|]. unfold close.
  replace E with (e + (E - e)) by lia. rewrite units_shift by lia. set (R := Z.pos M * 2 ^ (E - e)) in *.
  unfold units. replace (R * 2 ^ (e + 2000) * d - y * 2 ^ (e + 2000)) with ((R * d - y) * 2 ^ (e + 2000)) by ring.
  assert (0 < 2 ^ (e + 2000)) as HV by (apply Z.pow_pos_nonneg; lia).
  rewrite Z.abs_mul, (Z.abs_eq (2 ^ (e + 2000))), Z.mul_assoc by lia. apply Z.mul_le_mono_nonneg_r; [lia|].
  assert (Z.abs (R * d - y) <= 2 ^ n * d) as Habs by nia. assert (2 ^ 52 * (2 ^ n * d) <= lo * d) by nia. nia.
Qed.

(** ** The operations *)

Lemma product_digits a b : 2 ^ 52 <= a < 2 ^ 53 -> 2 ^ 52 <= b < 2 ^ 53 -> 105 <= Zdigits2 (a * b) <= 106 /\ 2 ^ 52 <= a * b.
Proof.
  intros Ha Hb. assert (2 ^ 104 <= a * b < 2 ^ 106) as Hab.
  { change (2 ^ 104) with (2 ^ 52 * 2 ^ 52). change (2 ^ 106) with (2 ^ 53 * 2 ^ 53). nia. }
  split; [|lia]. split; [apply Zdigits2_ge; [lia|exact (proj1 Hab)]|].
  destruct (Zdigits2_bounds (a * b)) as [[Hlo _] _]; [lia|].
  assert (Zdigits2 (a * b) - 1 < 106); [|lia]. apply (Z.pow_lt_mono_r_iff 2); lia.
Qed.

Lemma dmul_close x y m1 e1 m2 e2 :
  normal x m1 e1 -> normal y m2 e2 -> -500 <= e1 <= 400 -> -500 <= e2 <= 400 ->
  exists M E, normal (dmul x y) M E /\ e1 + e2 <= E <= e1 + e2 + 54 /\ close (units M E) (units (m1 * m2) (e1 + e2)) 1.
Proof.
  intros (M1 & -> & -> & H1) (M2 & -> & -> & H2) He1 He2. destruct (product_digits _ _ H1 H2) as [Hd Hp].
  destruct (round_close (Z.pos M1 * Z.pos M2) (e1 + e2) loc_Exact (Z.pos M1 * Z.pos M2) 1)
    as (M & E & Hr & HE & Hc); try lia.
  exists M, E. split; [exact Hr|]. split; [lia|done].
Qed.

Lemma ddiv_close x y m1 e1 m2 e2 :
  normal x m1 e1 -> normal y m2 e2 -> -400 <= e1 <= 300 -> -400 <= e2 <= 300 ->
  exists M E, normal (ddiv x y) M E /\ e1 - e2 - 53 <= E <= e1 - e2 - 50 /\
    close (units M E) (units m1 (e1 - e2)) m2.
Proof.
  intros (M1 & -> & -> & H1) (M2 & -> & -> & H2) He1 He2.
  assert (forall m, 2 ^ 52 <= m < 2 ^ 53 -> Zdigits2 m = 53) as Hdig by (intros m Hm; apply Zdigits2_unique; lia).
  unfold ddiv, SFdiv, SFdiv_core_binary. rewrite !Hdig by done. rewrite fexp_normal by lia.
  replace (Z.min (53 + e1 - (53 + e2) - 53) (e1 - e2)) with (e1 - e2 - 53) by lia.
  replace (e1 - e2 - (e1 - e2 - 53)) with 53 by lia. cbv zeta. rewrite Z.shiftl_mul_pow2 by lia.
  pose proof (Z.div_eucl_eq (Z.pos M1 * 2 ^ 53) (Z.pos M2) ltac:(lia)) as Heq.
  pose proof (Z.mod_pos_bound (Z.pos M1 * 2 ^ 53) (Z.pos M2) ltac:(lia)) as Hmod.
  unfold Z.modulo in Hmod. destruct (Z.div_eucl (Z.pos M1 * 2 ^ 53) (Z.pos M2)) as [q r].
  assert (2 ^ 52 <= q < 2 ^ 54) as Hq by nia. pose proof (Zdigits2_ge q 53 ltac:(lia) (proj1 Hq)) as Hdq.
  destruct (Zdigits2_bounds q) as [[Hlo _] _]; [lia|].
  assert (Zdigits2 q - 1 < 54) by (apply (Z.pow_lt_mono_r_iff 2); lia).
  destruct (round_close q (e1 - e2 - 53) (new_location (Z.pos M2) r) (Z.pos M1 * 2 ^ 53) (Z.pos M2))
    as (M & E & Hr & HE & Hc); try lia.
  exists M, E. split; [exact Hr|]. split; [lia|].
  rewrite <- (units_shift (Z.pos M1) (e1 - e2 - 53) 53) in Hc by lia. by replace (e1 - e2 - 53 + 53) with (e1 - e2) in Hc by lia.
Qed.

Lemma pos_iter_xO m d : Z.pos (Pos.iter xO m d) = Z.pos m * 2 ^ Z.pos d.
Proof.
  revert m. induction d as [|d IH] using Pos.peano_ind; intros m; [cbn; lia|].
  rewrite Pos.iter_succ. change (Z.pos (Pos.iter xO m d)~0) with (2 * Z.pos (Pos.iter xO m d)).
  rewrite IH, Pos2Z.inj_succ, Z.pow_succ_r by lia. ring.
Qed.

(** An aligned mantissa has the value it had. *)
Lemma shl_align_units (m : positive) e e' :
  -2000 <= e' -> let '(m', e'') := shl_align m e e' in e'' = Z.min e e' /\ Z.pos m' = Z.pos m * 2 ^ (e - e'').
Proof.
  intros He. unfold shl_align. destruct (e' - e) as [|d|d] eqn:Hd.
  - split; [lia|]. rewrite Z.sub_diag. lia.
  - split; [lia|]. rewrite Z.sub_diag. lia.
  - split; [lia|]. rewrite pos_iter_xO. do 2 f_equal. lia.
Qed.

Lemma round_exact (m : positive) e :
  2 ^ 52 <= Z.pos m < 2 ^ 53 -> -1021 <= 53 + e <= 1000 ->
  binary_round_aux 53 1024 false (Z.pos m) e loc_Exact = S754_finite false m e.
Proof.
  intros Hm He. assert (Zdigits2 (Z.pos m) = 53) as Hd by (apply Zdigits2_unique; lia).
  unfold binary_round_aux, shr_fexp. rewrite Hd, fexp_normal by lia. replace (53 + e - 53 - e) with 0 by lia.
  cbn [shr shr_record_of_loc shr_m loc_of_shr_record round_nearest_even].
  rewrite Hd, fexp_normal by lia. replace (53 + e - 53 - e) with 0 by lia. cbn [shr shr_record_of_loc shr_m].
  by rewrite (proj2 (Z.leb_le _ _)) by lia.
Qed.

(** An integer of at most 53 bits is a double. *)
Lemma d_of_Z_normal z :
  0 < z < 2 ^ 53 -> exists k, 0 <= k <= 52 /\ normal (d_of_Z z) (z * 2 ^ k) (- k).
Proof.
  intros Hz. destruct z as [|m|m]; [lia| |lia]. destruct (Zdigits2_bounds (Z.pos m)) as [[Hlo Hhi] _]; [lia|].
  cbn [Zdigits2] in *. set (D := Z.pos (digits2_pos m)) in *.
  assert (1 <= D <= 53) as HD by (split; [lia|]; assert (D - 1 < 53); [apply (Z.pow_lt_mono_r_iff 2); lia|lia]).
  unfold d_of_Z, binary_normalize, binary_round. fold D. rewrite Z.add_0_r, fexp_normal by lia.
  pose proof (shl_align_units m 0 (D - 53) ltac:(lia)) as Hal. destruct (shl_align m 0 (D - 53)) as [m' e'].
  destruct Hal as [-> Hm']. replace (Z.min 0 (D - 53)) with (D - 53) in * by lia.
  replace (0 - (D - 53)) with (53 - D) in Hm' by lia.
  assert (2 ^ 52 <= Z.pos m' < 2 ^ 53) as Hnorm.
  { rewrite Hm'. assert (0 < 2 ^ (53 - D)) as HP by (apply Z.pow_pos_nonneg; lia).
    assert (2 ^ 52 = 2 ^ (D - 1) * 2 ^ (53 - D)) as -> by (rewrite <- Z.pow_add_r by lia; f_equal; lia).
    assert (2 ^ 53 = 2 ^ D * 2 ^ (53 - D)) as Hpow by (rewrite <- Z.pow_add_r by lia; f_equal; lia).
    rewrite Hpow. split; [apply Z.mul_le_mono_nonneg_r|apply Z.mul_lt_mono_pos_r]; lia. }
  rewrite round_exact by lia. exists (53 - D). split; [lia|]. exists m'. split; [f_equal; lia|]. by rewrite <- Hm'.
Qed.

Lemma dadd_close x y m1 e1 m2 e2 :
  normal x m1 e1 -> normal y m2 e2 -> -1000 <= e1 <= 400 -> -1000 <= e2 <= 400 ->
  (exists b, e1 - e2 <= b <= 400 /\ e2 - e1 <= b) ->
  exists M E, normal (dadd x y) M E /\ Z.min e1 e2 <= E /\ close (units M E) (units m1 e1 + units m2 e2) 1.
Proof.
  intros (M1 & -> & -> & H1) (M2 & -> & -> & H2) He1 He2 (bd & Hb1 & Hb2). unfold dadd, SFadd. cbv zeta.
  set (ez := Z.min e1 e2) in *.
  pose proof (shl_align_units M1 e1 ez ltac:(lia)) as Ha1. pose proof (shl_align_units M2 e2 ez ltac:(lia)) as Ha2.
  destruct (shl_align M1 e1 ez) as [a1 x1], (shl_align M2 e2 ez) as [a2 x2]. cbn [fst cond_Zopp].
  destruct Ha1 as [-> Ha1], Ha2 as [-> Ha2]. replace (Z.min e1 ez) with ez in Ha1 by lia.
  replace (Z.min e2 ez) with ez in Ha2 by lia.
  assert (units (Z.pos M1) e1 + units (Z.pos M2) e2 = units (Z.pos a1 + Z.pos a2) ez) as ->.
  { replace e1 with (ez + (e1 - ez)) at 1 by lia. replace e2 with (ez + (e2 - ez)) at 1 by lia.
    rewrite !units_shift, <- Ha1, <- Ha2 by lia. unfold units. ring. }
  assert (2 ^ 52 <= Z.pos a1 /\ 2 ^ 52 <= Z.pos a2) as [Hg1 Hg2].
  { assert (0 < 2 ^ (e1 - ez) /\ 0 < 2 ^ (e2 - ez)) by (split; apply Z.pow_pos_nonneg; lia). nia. }
  change (Z.pos a1 + Z.pos a2) with (Z.pos (a1 + a2)). set (a := (a1 + a2)%positive).
  assert (2 ^ 52 <= Z.pos a) as Hg by (unfold a; lia). pose proof (Zdigits2_ge (Z.pos a) 53 ltac:(lia) Hg) as Hd.
  assert (Zdigits2 (Z.pos a) <= 54 + bd) as Hd2.
  { assert (Z.pos a < 2 ^ (54 + bd)) as Hlt.
    { replace (54 + bd) with (53 + bd + 1) by lia. rewrite !Z.pow_add_r by lia.
      assert (2 ^ (e1 - ez) <= 2 ^ bd /\ 2 ^ (e2 - ez) <= 2 ^ bd) by (split; apply Z.pow_le_mono_r; lia). nia. }
    destruct (Zdigits2_bounds (Z.pos a)) as [[Hlo _] _]; [lia|].
    assert (Zdigits2 (Z.pos a) - 1 < 54 + bd); [apply (Z.pow_lt_mono_r_iff 2); lia|lia]. }
  unfold binary_normalize, binary_round. cbn [Zdigits2] in *. set (D := Z.pos (digits2_pos a)) in *.
  rewrite fexp_normal by lia. unfold shl_align.
  destruct (round_close (Z.pos a) ez loc_Exact (Z.pos a) 1) as (M & E & Hr & HE & Hc); try lia; [cbn [Zdigits2]; fold D; lia|].
  exists M, E. destruct (D + ez - 53 - ez) eqn:Hz; [| |lia]; (split; [exact Hr|]; split; [lia|exact Hc]).
Qed.

(** ** Comparison *)

Lemma normal_dlt x y m1 e1 m2 e2 :
  normal x m1 e1 -> normal y m2 e2 -> -2000 <= e1 -> -2000 <= e2 -> units m1 e1 < units m2 e2 -> dlt x y = true.
Proof.
  intros (M1 & -> & -> & H1) (M2 & -> & -> & H2) He1 He2 Hlt. apply dlt_finite.
  destruct (Z.lt_trichotomy e1 e2) as [?|[<-|Hgt]]; [by left|right; split; [done|]|exfalso].
  - unfold units in Hlt. apply Z.mul_lt_mono_pos_r in Hlt; [lia|]. apply Z.pow_pos_nonneg; lia.
  - replace e1 with (e2 + (e1 - e2)) in Hlt by lia. rewrite units_shift in Hlt by lia. unfold units in Hlt.
    apply Z.mul_lt_mono_pos_r in Hlt; [|apply Z.pow_pos_nonneg; lia].
    assert (2 ^ 1 <= 2 ^ (e1 - e2)) by (apply Z.pow_le_mono_r; lia). nia.
Qed.
