(* ===== verification/Maps.v ===== *)
(** * Maps: sums over finite maps

    The sum of a measure over the values of a map, used for the aggregates that the code keeps
    next to its tables. *)

From Stdlib Require Import ZArith Lia.
From stdpp Require Import base tactics numbers list gmap fin_maps.
From S2P Require Import Prelude.

Local Open Scope Z_scope.

Lemma sum_by_perm {A} (f : A -> Z) l1 l2 : l1 ≡ₚ l2 -> sum_by f l1 = sum_by f l2.
Proof. induction 1; simpl; lia. Qed.

Lemma sum_by_ext {A} (f g : A -> Z) l : (forall x, x ∈ l -> f x = g x) -> sum_by f l = sum_by g l.
Proof.
  induction l as [|x l IH]; intros H; simpl; [done|].
  rewrite H by (by left). rewrite IH; [done|]. intros. apply H. by right.
Qed.

Section MapSum.
Context {K : Type} `{Countable K} {V : Type} (f : V -> Z).
Implicit Types (m : gmap K V) (k : K) (v : V).

Definition map_sum (m : gmap K V) : Z := sum_by (fun kv => f kv.2) (map_to_list m).

Lemma map_sum_empty : map_sum ∅ = 0.
Proof. unfold map_sum. by rewrite map_to_list_empty. Qed.

Lemma map_sum_insert_new m k v : m !! k = None -> map_sum (<[k := v]> m) = f v + map_sum m.
Proof. intros Hk. unfold map_sum. by rewrite (sum_by_perm _ _ _ (map_to_list_insert m k v Hk)). Qed.

Lemma map_sum_delete m k v : m !! k = Some v -> map_sum (delete k m) = map_sum m - f v.
Proof.
  intros Hk. rewrite <- (insert_delete_id m k v Hk) at 2.
  rewrite map_sum_insert_new by (by rewrite lookup_delete_eq). lia.
Qed.

Lemma map_sum_insert m k v w :
  m !! k = Some v -> map_sum (<[k := w]> m) = map_sum m - f v + f w.
Proof.
  intros Hk. rewrite <- (insert_delete_eq m). rewrite map_sum_insert_new by (by rewrite lookup_delete_eq).
  rewrite (map_sum_delete m k v Hk). lia.
Qed.

Lemma map_sum_nonneg m : (forall k v, m !! k = Some v -> 0 <= f v) -> 0 <= map_sum m.
Proof.
  intros Hm. apply sum_by_nonneg. apply Forall_forall. intros [k v] Hin.
  apply elem_of_map_to_list in Hin. eauto.
Qed.

Lemma map_sum_ge m k v :
  m !! k = Some v -> (forall k v, m !! k = Some v -> 0 <= f v) -> f v <= map_sum m.
Proof.
  intros Hk Hm. pose proof (map_sum_nonneg (delete k m)) as Hd.
  rewrite (map_sum_delete m k v Hk) in Hd.
  enough (0 <= map_sum m - f v) by lia. apply Hd.
  intros k' v' Hk'. apply lookup_delete_Some in Hk' as [_ Hk']. eauto.
Qed.

Lemma map_sum_zero m : (forall k v, m !! k = Some v -> f v = 0) -> map_sum m = 0.
Proof.
  intros Hm. unfold map_sum.
  rewrite (sum_by_ext _ (fun _ => 0)).
  - induction (map_to_list m); simpl; lia.
  - intros [k v] Hin. apply elem_of_map_to_list in Hin. eauto.
Qed.
End MapSum.
