(* ===== verification/Order.v ===== *)
(** * Order: orders and trades

    [Order] and its constructor (include/Order.h), [Trade] and its constructor
    (include/Trade.h). Clock readings ([system_clock], [steady_clock]) are arguments. *)

From Stdlib Require Import ZArith Lia String.
From stdpp Require Import base tactics decidable list option.
From S2P Require Import Prelude.
From S2P Require Import Double.

Local Open Scope Z_scope.

(** ** Enumerations *)

Inductive OrderSide : Type := BUY | SELL.

Inductive OrderType : Type := MARKET | LIMIT | IOC | FOK.

#[export] Instance OrderSide_eq_dec : EqDecision OrderSide.
Proof. solve_decision. Defined.

#[export] Instance OrderType_eq_dec : EqDecision OrderType.
Proof. solve_decision. Defined.

(** ** Order *)

Record Order : Type := Build_Order {
  order_id : Z;
  trader_id : Z;
  symbol_id : Z;
  side : OrderSide;
  type : OrderType;
  price : double;
  quantity : Z;
  remaining_quantity : Z;
  timestamp : Z;
  received_time : Z;
  priority_seq : Z
}.

(** The default constructor, at the clock reading [now]. *)
Definition Order_default (now : Z) : Order :=
  Build_Order 0 0 0 BUY MARKET d_zero 0 0 now now 0.

(** [Order(oid, tid, s, t, p, qty, sym)], at the clock reading [now]. *)
Definition Order_new (oid tid : Z) (s : OrderSide) (t : OrderType) (p : double)
    (qty sym now : Z) : result Order :=
  if qty =? 0 then Throw (InvalidArgument "Order quantity must be positive")
  else if oid =? 0 then Throw (InvalidArgument "Order ID must be non-zero")
  else if tid =? 0 then Throw (InvalidArgument "Trader ID must be non-zero")
  else if bool_decide (t = MARKET) then
    Ok (Build_Order oid tid sym s t d_zero qty qty now now 0)
  else if dle p d_zero || isnan p || isinf p then
    Throw (InvalidArgument "Limit/IOC/FOK order price must be positive and finite")
  else Ok (Build_Order oid tid sym s t p qty qty now now 0).

Definition setTimestamp (o : Order) (ts : Z) : Order :=
  Build_Order (order_id o) (trader_id o) (symbol_id o) (side o) (type o) (price o)
    (quantity o) (remaining_quantity o) ts ts (priority_seq o).

Definition is_filled (o : Order) : bool := remaining_quantity o =? 0.

(** Field assignments the code makes on an [Order] object. *)
Definition set_remaining (o : Order) (r : Z) : Order :=
  Build_Order (order_id o) (trader_id o) (symbol_id o) (side o) (type o) (price o)
    (quantity o) r (timestamp o) (received_time o) (priority_seq o).

Definition set_priority (o : Order) (p : Z) : Order :=
  Build_Order (order_id o) (trader_id o) (symbol_id o) (side o) (type o) (price o)
    (quantity o) (remaining_quantity o) (timestamp o) (received_time o) p.

(** ** Trade *)

Record Trade : Type := Build_Trade {
  trade_id : Z;
  buy_order_id : Z;
  sell_order_id : Z;
  buy_trader_id : Z;
  sell_trader_id : Z;
  trade_price : double;
  trade_quantity : Z;
  trade_timestamp : Z
}.

(** [Trade(tid, bid, sid, btrader, strader, p, qty)], at the steady-clock reading [now]. *)
Definition Trade_new (tid bid sid btrader strader : Z) (p : double) (qty now : Z)
    : result Trade :=
  if tid =? 0 then Throw (InvalidArgument "Trade ID must be non-zero")
  else if bid =? sid then
    Throw (InvalidArgument "Trade cannot match an order against itself")
  else if qty =? 0 then Throw (InvalidArgument "Trade quantity must be positive")
  else if dle p d_zero || isnan p || isinf p then
    Throw (InvalidArgument "Trade price must be positive and finite")
  else Ok (Build_Trade tid bid sid btrader strader p qty now).

(** ** Well-formed orders *)

(** What the fields of an order satisfy by their C++ types, and what an order that rests in
    the book satisfies. The remaining quantity may be 0: an in-place amendment down to the
    filled quantity leaves such an order in its level. *)
Definition order_wf (o : Order) : Prop :=
  valid_price (price o) = true /\ in_u32 (quantity o) /\
  0 <= remaining_quantity o <= quantity o.

(** ** Facts *)

Lemma dle_zero_valid p :
  dle p d_zero || isnan p || isinf p = negb (valid_price p).
Proof. destruct p as [[]|[]| |[] m e]; reflexivity. Qed.

Lemma Trade_new_Ok tid bid sid bt st p qty now :
  tid <> 0 -> bid <> sid -> qty <> 0 -> valid_price p = true ->
  Trade_new tid bid sid bt st p qty now = Ok (Build_Trade tid bid sid bt st p qty now).
Proof.
  intros Ht Hb Hq Hp. unfold Trade_new.
  rewrite (proj2 (Z.eqb_neq _ _) Ht), (proj2 (Z.eqb_neq _ _) Hb), (proj2 (Z.eqb_neq _ _) Hq).
  by rewrite dle_zero_valid, Hp.
Qed.

Lemma Trade_new_inv tid bid sid bt st p qty now t :
  Trade_new tid bid sid bt st p qty now = Ok t ->
  t = Build_Trade tid bid sid bt st p qty now /\
  tid <> 0 /\ bid <> sid /\ qty <> 0 /\ valid_price p = true.
Proof.
  unfold Trade_new. rewrite dle_zero_valid.
  repeat case_match; intros [= <-]; bool_to_prop; auto.
Qed.

Lemma Order_new_inv oid tid s t p qty sym now o :
  Order_new oid tid s t p qty sym now = Ok o ->
  oid <> 0 /\ tid <> 0 /\ qty <> 0 /\
  o = Build_Order oid tid sym s t (if bool_decide (t = MARKET) then d_zero else p)
        qty qty now now 0 /\
  (t <> MARKET -> valid_price p = true).
Proof.
  unfold Order_new. rewrite dle_zero_valid.
  destruct (qty =? 0) eqn:?, (oid =? 0) eqn:?, (tid =? 0) eqn:?; try discriminate.
  case_bool_decide; [|case_match; [discriminate|]];
    intros [= <-]; bool_to_prop; repeat split; auto; congruence.
Qed.

Lemma set_remaining_id o : set_remaining o (remaining_quantity o) = o.
Proof. by destruct o. Qed.

Lemma set_remaining_twice o r1 r2 : set_remaining (set_remaining o r1) r2 = set_remaining o r2.
Proof. reflexivity. Qed.

#[export] Hint Rewrite set_remaining_id set_remaining_twice : trading.
