(* ===== verification/OrderBook.v ===== *)
(** * OrderBook: the price-time priority book

    The class [OrderBook] of include/OrderBook.h and src/OrderBook.cpp. A price level holds
    the list of orders its [OrderQueue] represents, front first; the [OrderPool] is seen
    through the number of its free slots, which is all that [OrderQueue::push_back] can
    observe of it. Levels are indexed as in the code: best price first on both sides. *)

From Stdlib Require Import ZArith Lia Bool.
From stdpp Require Import base tactics decidable numbers option list sorting.
From S2P Require Import Prelude.
From S2P Require Import Double.
From S2P Require Import Order.

Local Open Scope Z_scope.

(** ** Data *)

Inductive STPPolicy : Type := NONE | CANCEL_NEWEST | CANCEL_OLDEST | CANCEL_BOTH.

#[export] Instance STPPolicy_eq_dec : EqDecision STPPolicy.
Proof. solve_decision. Defined.

Record PriceLevel : Type := Build_PriceLevel {
  lprice : double;
  orders : list Order
}.

Record OrderBook : Type := Build_OrderBook {
  bids_ : list PriceLevel;
  asks_ : list PriceLevel;
  next_trade_id_ : Z;
  stp_policy_ : STPPolicy;
  pool_capacity_ : Z;
  pool_available_ : Z
}.

Record ReplaceResult : Type := Build_ReplaceResult {
  success : bool;
  trades : list Trade;
  final_remaining_quantity : Z
}.

(** [OrderBook(pool_capacity)]. *)
Definition OrderBook_new (pool_capacity : Z) : OrderBook :=
  Build_OrderBook [] [] 1 NONE pool_capacity pool_capacity.

Definition setSTPPolicy (b : OrderBook) (policy : STPPolicy) : OrderBook :=
  Build_OrderBook (bids_ b) (asks_ b) (next_trade_id_ b) policy
    (pool_capacity_ b) (pool_available_ b).

Definition getSTPPolicy (b : OrderBook) : STPPolicy := stp_policy_ b.

(** ** The two sides *)

Definition opposite (s : OrderSide) : OrderSide :=
  match s with BUY => SELL | SELL => BUY end.

Definition levels_of (s : OrderSide) (b : OrderBook) : list PriceLevel :=
  match s with BUY => bids_ b | SELL => asks_ b end.

(** The book with the levels of one side replaced and [freed] slots given back. *)
Definition set_levels (s : OrderSide) (b : OrderBook) (ls : list PriceLevel) (freed : Z)
    : OrderBook :=
  match s with
  | BUY => Build_OrderBook ls (asks_ b) (next_trade_id_ b) (stp_policy_ b)
             (pool_capacity_ b) (pool_available_ b + freed)
  | SELL => Build_OrderBook (bids_ b) ls (next_trade_id_ b) (stp_policy_ b)
              (pool_capacity_ b) (pool_available_ b + freed)
  end.

(** The orders of some levels, in priority order. *)
Definition flat (ls : list PriceLevel) : list Order := concat (orders <$> ls).

(** ** Level search (findBidLevel, findAskLevel) *)

(** The shared loop [while (low < high)]; [right lp] is the test that moves [low]. Each turn
    shrinks [high - low], so [fuel > high - low] is enough. *)
Fixpoint level_search (fuel : nat) (right : double -> bool) (ls : list PriceLevel)
    (low high : nat) : nat :=
  match fuel with
  | O => low
  | S fuel =>
      if decide (low < high)%nat then
        let mid := (low + (high - low) / 2)%nat in
        match ls !! mid with
        | Some l => if right (lprice l) then level_search fuel right ls (S mid) high
                    else level_search fuel right ls low mid
        | None => low
        end
      else low
  end.

Definition findBidLevel (b : OrderBook) (p : double) : nat :=
  level_search (S (length (bids_ b))) (fun lp => dlt p lp) (bids_ b) 0 (length (bids_ b)).

Definition findAskLevel (b : OrderBook) (p : double) : nat :=
  level_search (S (length (asks_ b))) (fun lp => dlt lp p) (asks_ b) 0 (length (asks_ b)).

Definition findLevel (s : OrderSide) (b : OrderBook) (p : double) : nat :=
  match s with BUY => findBidLevel b p | SELL => findAskLevel b p end.

(** ** addOrder *)

Definition insert_at {A : Type} (i : nat) (x : A) (l : list A) : list A :=
  take i l ++ x :: drop i l.

(** Appends to the level at [idx] when its price is the order's, else inserts a new level. *)
Definition push_order (ls : list PriceLevel) (idx : nat) (o : Order) : list PriceLevel :=
  match ls !! idx with
  | Some l =>
      if deq (lprice l) (price o)
      then <[idx := Build_PriceLevel (lprice l) (orders l ++ [o])]> ls
      else insert_at idx (Build_PriceLevel (price o) [o]) ls
  | None => insert_at idx (Build_PriceLevel (price o) [o]) ls
  end.

(** [addOrder]: an exhausted pool throws inside the [try] block, which answers [false]. *)
Definition addOrder (b : OrderBook) (o : Order) : OrderBook * bool :=
  if (quantity o =? 0) || (remaining_quantity o =? 0) then (b, false)
  else if pool_available_ b <=? 0 then (b, false)
  else
    let s := side o in
    (set_levels s b (push_order (levels_of s b) (findLevel s b (price o)) o) (-1), true).

(** ** Scanning for an order id *)

(** The nested loops over levels and queue positions: the first match, as (level, position). *)
Fixpoint find_order (id : Z) (ls : list PriceLevel) : option (nat * nat) :=
  match ls with
  | [] => None
  | l :: ls =>
      match list_find (fun o => order_id o = id) (orders l) with
      | Some (j, _) => Some (0%nat, j)
      | None => prod_map S (fun j => j) <$> find_order id ls
      end
  end.

Definition order_at (ls : list PriceLevel) (i j : nat) : option Order :=
  l ← ls !! i; orders l !! j.

(** [level.orders.erase_at(j)], then the level itself when it is left empty. *)
Definition erase_order (ls : list PriceLevel) (i j : nat) : list PriceLevel :=
  match ls !! i with
  | Some l =>
      match delete j (orders l) with
      | [] => delete i ls
      | os => <[i := Build_PriceLevel (lprice l) os]> ls
      end
  | None => ls
  end.

(** Assignment through the reference [level.orders.at(j)]. *)
Definition update_order (ls : list PriceLevel) (i j : nat) (o : Order) : list PriceLevel :=
  match ls !! i with
  | Some l => <[i := Build_PriceLevel (lprice l) (<[j := o]> (orders l))]> ls
  | None => ls
  end.

(** First in the bids, then in the asks: the side, level and position of an id. *)
Definition locate (b : OrderBook) (id : Z) : option (OrderSide * nat * nat) :=
  match find_order id (bids_ b) with
  | Some (i, j) => Some (BUY, i, j)
  | None =>
      match find_order id (asks_ b) with
      | Some (i, j) => Some (SELL, i, j)
      | None => None
      end
  end.

Definition cancelOrder (b : OrderBook) (id : Z) : OrderBook * bool :=
  match locate b id with
  | Some (s, i, j) => (set_levels s b (erase_order (levels_of s b) i j) 1, true)
  | None => (b, false)
  end.

Definition getOrderById (b : OrderBook) (id : Z) : option Order :=
  '(s, i, j) ← locate b id; order_at (levels_of s b) i j.

Definition applyFill (b : OrderBook) (id fill_qty : Z) : OrderBook * bool :=
  if fill_qty =? 0 then (b, false)
  else
    match locate b id with
    | Some (s, i, j) =>
        match order_at (levels_of s b) i j with
        | Some o =>
            if remaining_quantity o <? fill_qty then (b, false)
            else
              let r := remaining_quantity o - fill_qty in
              if r =? 0 then (set_levels s b (erase_order (levels_of s b) i j) 1, true)
              else (set_levels s b (update_order (levels_of s b) i j (set_remaining o r)) 0, true)
        | None => (b, false)
        end
    | None => (b, false)
    end.

(** ** Queries *)

Definition getBestBid (b : OrderBook) : double :=
  match bids_ b with [] => d_zero | l :: _ => lprice l end.

Definition getBestAsk (b : OrderBook) : double :=
  match asks_ b with [] => d_zero | l :: _ => lprice l end.

Definition getOrderCount (b : OrderBook) : nat :=
  sum_list_with (fun l => length (orders l)) (bids_ b) +
  sum_list_with (fun l => length (orders l)) (asks_ b).

(** ** Pre-match scans *)

(** The test that ends every walk over the opposite side: the level's price is worse than
    the limit (a MARKET order has none). *)
Definition beyond (inc : Order) (lp : double) : bool :=
  negb (bool_decide (type inc = MARKET)) &&
  match side inc with BUY => dlt (price inc) lp | SELL => dlt lp (price inc) end.

(** One queue of [canFullyFill]: [inl] is the early [return true], [inr] the running sum. *)
Fixpoint fill_scan (needed available : Z) (os : list Order) : () + Z :=
  match os with
  | [] => inr available
  | o :: os =>
      let available := u64 (available + remaining_quantity o) in
      if needed <=? available then inl () else fill_scan needed available os
  end.

Fixpoint fill_scan_levels (inc : Order) (needed available : Z) (ls : list PriceLevel) : bool :=
  match ls with
  | [] => false
  | l :: ls =>
      if beyond inc (lprice l) then false
      else
        match fill_scan needed available (orders l) with
        | inl _ => true
        | inr available => fill_scan_levels inc needed available ls
        end
  end.

Definition canFullyFill (b : OrderBook) (inc : Order) : bool :=
  fill_scan_levels inc (remaining_quantity inc) 0 (levels_of (opposite (side inc)) b).

(** One queue of [wouldSelfTrade]: [inl] is an early return, [inr] the quantity left. *)
Fixpoint self_scan (trader remaining : Z) (os : list Order) : bool + Z :=
  match os with
  | [] => inr remaining
  | o :: os =>
      if remaining_quantity o =? 0 then self_scan trader remaining os
      else if trader_id o =? trader then inl true
      else
        let remaining := remaining - Z.min remaining (remaining_quantity o) in
        if remaining =? 0 then inl false else self_scan trader remaining os
  end.

Fixpoint self_scan_levels (inc : Order) (remaining : Z) (ls : list PriceLevel) : bool :=
  match ls with
  | [] => false
  | l :: ls =>
      if beyond inc (lprice l) then false
      else
        match self_scan (trader_id inc) remaining (orders l) with
        | inl answer => answer
        | inr remaining => self_scan_levels inc remaining ls
        end
  end.

Definition wouldSelfTrade (b : OrderBook) (inc : Order) : bool :=
  self_scan_levels inc (remaining_quantity inc) (levels_of (opposite (side inc)) b).

(** ** Self-trade removal (CANCEL_OLDEST, CANCEL_BOTH) *)

(** The inner loop over one queue: the orders kept and the number erased. CANCEL_OLDEST
    leaves the loop after the first erasure. *)
Fixpoint stp_orders (oldest : bool) (trader : Z) (os : list Order) : list Order * Z :=
  match os with
  | [] => ([], 0)
  | o :: os =>
      if (trader_id o =? trader) && (0 <? remaining_quantity o) then
        if oldest then (os, 1)
        else let '(kept, n) := stp_orders oldest trader os in (kept, n + 1)
      else let '(kept, n) := stp_orders oldest trader os in (o :: kept, n)
  end.

(** The outer loop; [removed] is the flag the code sets at the first erasure. *)
Fixpoint stp_levels (oldest : bool) (inc : Order) (removed : bool) (ls : list PriceLevel)
    : list PriceLevel * Z :=
  match ls with
  | [] => ([], 0)
  | l :: rest =>
      if beyond inc (lprice l) then (l :: rest, 0)
      else
        let '(kept, n) := stp_orders oldest (trader_id inc) (orders l) in
        let removed := removed || (0 <? n) in
        let '(rest, m) :=
          if oldest && removed then (rest, 0) else stp_levels oldest inc removed rest in
        (match kept with [] => rest | _ => Build_PriceLevel (lprice l) kept :: rest end, n + m)
  end.

(** The block [if (stp_policy_ != NONE && wouldSelfTrade(incoming))]: the book it leaves and
    whether [matchOrder] returns there. *)
Definition stp_phase (b : OrderBook) (inc : Order) : OrderBook * bool :=
  let s := opposite (side inc) in
  if negb (bool_decide (stp_policy_ b = NONE)) && wouldSelfTrade b inc then
    match stp_policy_ b with
    | CANCEL_NEWEST => (b, true)
    | CANCEL_OLDEST =>
        let '(ls, n) := stp_levels true inc false (levels_of s b) in (set_levels s b ls n, false)
    | CANCEL_BOTH =>
        let '(ls, n) := stp_levels false inc false (levels_of s b) in (set_levels s b ls n, true)
    | NONE => (b, false)
    end
  else (b, false).

(** ** The matching loop *)

Record MatchState : Type := Build_MatchState {
  ms_levels : list PriceLevel;
  ms_incoming : Order;
  ms_next_trade_id : Z;
  ms_trades : list Trade;
  ms_freed : Z
}.

Inductive loop_step : Type :=
| Continue (st : MatchState)
| Break (st : MatchState)
| Raise (st : MatchState) (e : exn).

Inductive loop_result : Type :=
| Finished (st : MatchState)
| Raised (st : MatchState) (e : exn).

(** [while (!orders.empty() && orders.front().remaining_quantity == 0) pop_front()]. *)
Fixpoint pop_filled (os : list Order) : list Order * Z :=
  match os with
  | [] => ([], 0)
  | o :: os' =>
      if remaining_quantity o =? 0
      then let '(kept, n) := pop_filled os' in (kept, n + 1)
      else (os, 0)
  end.

(** The trade between the incoming order and a resting one: the buyer's ids come first. *)
Definition make_trade (inc resting : Order) (tid : Z) (lp : double) (qty now : Z)
    : result Trade :=
  match side inc with
  | BUY => Trade_new tid (order_id inc) (order_id resting) (trader_id inc) (trader_id resting)
             lp qty now
  | SELL => Trade_new tid (order_id resting) (order_id inc) (trader_id resting) (trader_id inc)
              lp qty now
  end.

(** One turn of the loop. [clock tid] is the steady-clock reading when trade [tid] is built.
    The quantities and the trade counter are updated before the [Trade] constructor runs, so
    they stay updated when it throws. *)
Definition match_iter (clock : Z -> Z) (st : MatchState) : loop_step :=
  let inc := ms_incoming st in
  if remaining_quantity inc <=? 0 then Break st
  else
    match ms_levels st with
    | [] => Break st
    | l :: ls =>
        if beyond inc (lprice l) then Break st
        else
          let '(os, popped) := pop_filled (orders l) in
          match os with
          | [] => Continue (Build_MatchState ls inc (ms_next_trade_id st) (ms_trades st)
                              (ms_freed st + popped))
          | r :: os =>
              let qty := Z.min (remaining_quantity inc) (remaining_quantity r) in
              let inc' := set_remaining inc (remaining_quantity inc - qty) in
              let r' := set_remaining r (remaining_quantity r - qty) in
              let tid := ms_next_trade_id st in
              let next := u64 (tid + 1) in
              match make_trade inc r tid (lprice l) qty (clock tid) with
              | Throw e =>
                  Raise (Build_MatchState (Build_PriceLevel (lprice l) (r' :: os) :: ls) inc' next
                           (ms_trades st) (ms_freed st + popped)) e
              | Ok t =>
                  let trades := ms_trades st ++ [t] in
                  if remaining_quantity r' =? 0 then
                    Continue (Build_MatchState
                      match os with [] => ls | _ => Build_PriceLevel (lprice l) os :: ls end
                      inc' next trades (ms_freed st + popped + 1))
                  else
                    Continue (Build_MatchState (Build_PriceLevel (lprice l) (r' :: os) :: ls)
                      inc' next trades (ms_freed st + popped))
              end
          end
    end.

(** Every turn that continues erases a level, erases an order or exhausts the incoming one. *)
Definition match_measure (st : MatchState) : nat :=
  length (ms_levels st) + length (flat (ms_levels st)) +
  (if 0 <? remaining_quantity (ms_incoming st) then 1 else 0).

Fixpoint match_loop (fuel : nat) (clock : Z -> Z) (st : MatchState) : loop_result :=
  match fuel with
  | O => Finished st
  | S fuel =>
      match match_iter clock st with
      | Continue st' => match_loop fuel clock st'
      | Break st' => Finished st'
      | Raise st' e => Raised st' e
      end
  end.

(** ** matchOrder *)

(** What a call leaves: the book, the order passed by reference, and the vector returned or
    the exception thrown. *)
Record MatchOutcome : Type := Build_MatchOutcome {
  mo_book : OrderBook;
  mo_incoming : Order;
  mo_result : result (list Trade)
}.

Definition with_next_trade_id (b : OrderBook) (n : Z) : OrderBook :=
  Build_OrderBook (bids_ b) (asks_ b) n (stp_policy_ b) (pool_capacity_ b) (pool_available_ b).

(** The state in which the loop starts. *)
Definition match_start (b : OrderBook) (inc : Order) : MatchState :=
  Build_MatchState (levels_of (opposite (side inc)) b) inc (next_trade_id_ b) [] 0.

(** The book that a loop state describes. *)
Definition match_book (b : OrderBook) (inc : Order) (st : MatchState) : OrderBook :=
  with_next_trade_id
    (set_levels (opposite (side inc)) b (ms_levels st) (ms_freed st)) (ms_next_trade_id st).

(** Only LIMIT orders rest. *)
Definition rests (o : Order) : bool :=
  (0 <? remaining_quantity o) && negb (bool_decide (type o = MARKET)) &&
  negb (bool_decide (type o = IOC)) && negb (bool_decide (type o = FOK)).

(** The loop and what follows it; the answer of [addOrder] is ignored by the code. *)
Definition match_phase (clock : Z -> Z) (b : OrderBook) (inc : Order) : MatchOutcome :=
  let start := match_start b inc in
  match match_loop (S (match_measure start)) clock start with
  | Finished st =>
      let b' := match_book b inc st in
      let inc' := ms_incoming st in
      Build_MatchOutcome (if rests inc' then (addOrder b' inc').1 else b') inc' (Ok (ms_trades st))
  | Raised st e => Build_MatchOutcome (match_book b inc st) (ms_incoming st) (Throw e)
  end.

Definition matchOrder (clock : Z -> Z) (b : OrderBook) (inc : Order) : MatchOutcome :=
  if bool_decide (type inc = FOK) && negb (canFullyFill b inc)
  then Build_MatchOutcome b inc (Ok [])
  else
    let '(b', stop) := stp_phase b inc in
    if stop then Build_MatchOutcome b' inc (Ok []) else match_phase clock b' inc.

(** ** replaceOrder *)

Definition replace_failed : ReplaceResult := Build_ReplaceResult false [] 0.

(** The in-place amendment: smaller quantity at the same price. *)
Definition amend_order (o : Order) (new_qty already_filled now : Z) : Order :=
  Build_Order (order_id o) (trader_id o) (symbol_id o) (side o) (type o) (price o)
    new_qty (u32 (new_qty - already_filled)) now (received_time o) (priority_seq o).

(** The order that re-enters the book. *)
Definition reentry_order (o : Order) (id : Z) (p : double) (new_qty already_filled prio now : Z)
    : Order :=
  Build_Order id (trader_id o) (symbol_id o) (side o) (type o) p
    new_qty (u32 (new_qty - already_filled)) now (received_time o) prio.

(** The lambda [replaceInLevel], on the order [old] found at ([s], [i], [j]). *)
Definition replaceInLevel (clock : Z -> Z) (now : Z) (b : OrderBook) (s : OrderSide) (i j : nat)
    (old : Order) (id : Z) (new_price : double) (new_qty prio : Z)
    : OrderBook * result ReplaceResult :=
  let already_filled := u32 (quantity old - remaining_quantity old) in
  if (0 <? new_qty) && (new_qty <? already_filled) then (b, Ok replace_failed)
  else if new_qty =? 0 then
    (set_levels s b (erase_order (levels_of s b) i j) 1, Ok (Build_ReplaceResult true [] 0))
  else if deq new_price (price old) && (new_qty <? quantity old) then
    let o := amend_order old new_qty already_filled now in
    (set_levels s b (update_order (levels_of s b) i j o) 0,
     Ok (Build_ReplaceResult true [] (remaining_quantity o)))
  else
    let b' := set_levels s b (erase_order (levels_of s b) i j) 1 in
    let o := reentry_order old id new_price new_qty already_filled prio now in
    if remaining_quantity o =? 0 then (b', Ok (Build_ReplaceResult true [] 0))
    else
      let out := matchOrder clock b' o in
      (mo_book out,
       ts ← mo_result out;
       Ok (Build_ReplaceResult true ts (remaining_quantity (mo_incoming out)))).

(** [replaceOrder(order_id, new_price, new_qty, new_priority_seq)]; [now] is the system-clock
    reading. *)
Definition replaceOrder (clock : Z -> Z) (now : Z) (b : OrderBook) (id : Z) (new_price : double)
    (new_qty prio : Z) : OrderBook * result ReplaceResult :=
  if (0 <? new_qty) && (negb (isfinite new_price) || dle new_price d_zero)
  then (b, Ok replace_failed)
  else
    match locate b id with
    | Some (s, i, j) =>
        match order_at (levels_of s b) i j with
        | Some old => replaceInLevel clock now b s i j old id new_price new_qty prio
        | None => (b, Ok replace_failed)
        end
    | None => (b, Ok replace_failed)
    end.
