(* ===== verification/BookLevels.v ===== *)
(** * BookLevels: sorted price levels

    The representation invariant of one side of the book and the effect of the level
    operations of [OrderBook] on it: the binary search, the insertion of an order, and the
    erasure or update of an order through its (level, position) pair. *)

From Stdlib Require Import ZArith Lia Bool Sorted.
From stdpp Require Import base tactics decidable numbers option list sorting.
From S2P Require Import Prelude.
From S2P Require Import Double.
From S2P Require Import Order.
From S2P Require Import OrderBook.

Local Open Scope Z_scope.

(** ** The representation invariant *)

(** [better s a b]: on side [s] price [a] is served strictly before price [b]. *)
Definition better (s : OrderSide) (a b : double) : bool :=
  match s with BUY => dlt b a | SELL => dlt a b end.

(** An order resting on side [s] at price [lp]. *)
Definition resting_wf (s : OrderSide) (lp : double) (o : Order) : Prop :=
  price o = lp /\ side o = s /\ order_wf o.

Definition level_wf (s : OrderSide) (l : PriceLevel) : Prop :=
  orders l <> [] /\ valid_price (lprice l) = true /\ Forall (resting_wf s (lprice l)) (orders l).

Definition level_before (s : OrderSide) (a b : PriceLevel) : Prop :=
  better s (lprice a) (lprice b) = true.

Definition levels_wf (s : OrderSide) (ls : list PriceLevel) : Prop :=
  Forall (level_wf s) ls /\ StronglySorted (level_before s) ls.

(** The level [lp] with the orders [os] in front of [ls], left out when it is empty. *)
Definition shrink (lp : double) (os : list Order) (ls : list PriceLevel) : list PriceLevel :=
  match os with [] => ls | _ => Build_PriceLevel lp os :: ls end.

#[global] Arguments flat ls : simpl never.

(** ** The price order *)

Section Better.
Variable s : OrderSide.
Implicit Types a b c : double.

Lemma better_trans a b c :
  valid_price a = true -> valid_price b = true -> valid_price c = true ->
  better s a b = true -> better s b c = true -> better s a c = true.
Proof. destruct s; simpl; intros; eauto using dlt_trans. Qed.

Lemma better_irrefl a : better s a a = false.
Proof. destruct s; apply dlt_irrefl. Qed.

Lemma better_asym a b :
  valid_price a = true -> valid_price b = true -> better s a b = true -> better s b a = false.
Proof. destruct s; simpl; intros; eauto using dlt_asym. Qed.

Lemma not_better a b :
  valid_price a = true -> valid_price b = true ->
  better s a b = false <-> a = b \/ better s b a = true.
Proof.
  destruct s; simpl; intros Ha Hb; rewrite dlt_false by done; [|reflexivity].
  split; intros [?|?]; auto.
Qed.

Lemma better_weak_trans a b c :
  valid_price a = true -> valid_price b = true -> valid_price c = true ->
  better s b a = false -> better s b c = true -> better s a c = true.
Proof.
  intros Ha Hb Hc Hba Hbc. apply not_better in Hba as [->|Hab]; auto.
  eauto using better_trans.
Qed.
End Better.

(** ** Flattening *)

Lemma flat_cons l ls : flat (l :: ls) = orders l ++ flat ls.
Proof. reflexivity. Qed.

Lemma flat_app ls1 ls2 : flat (ls1 ++ ls2) = flat ls1 ++ flat ls2.
Proof. unfold flat. by rewrite fmap_app, concat_app. Qed.

Lemma flat_shrink lp os ls : flat (shrink lp os ls) = os ++ flat ls.
Proof. by destruct os. Qed.

Lemma order_count_flat ls : sum_list_with (fun l => length (orders l)) ls = length (flat ls).
Proof. induction ls as [|l ls IH]; simpl; [done|]. by rewrite flat_cons, length_app, IH. Qed.

#[export] Hint Rewrite flat_cons flat_app flat_shrink : trading.

(** ** Decomposition of the invariant *)

Section Levels.
Variable s : OrderSide.
Implicit Types (l : PriceLevel) (ls : list PriceLevel).

Lemma levels_wf_nil : levels_wf s [].
Proof. split; constructor. Qed.

Lemma levels_wf_cons l ls :
  levels_wf s (l :: ls) <-> level_wf s l /\ Forall (level_before s l) ls /\ levels_wf s ls.
Proof.
  unfold levels_wf. rewrite Forall_cons_iff. split.
  - intros [[? ?] HS]. apply StronglySorted_inv in HS as [??]. auto.
  - intros (? & ? & ? & ?). split; [done|]. by constructor.
Qed.

Lemma levels_wf_app ls1 ls2 :
  levels_wf s (ls1 ++ ls2) <->
  levels_wf s ls1 /\ levels_wf s ls2 /\ Forall (fun a => Forall (level_before s a) ls2) ls1.
Proof.
  unfold levels_wf. rewrite Forall_app, StronglySorted_app, !Forall_forall.
  setoid_rewrite Forall_forall. split; [intros ([??] & ? & ? & ?)|intros ([??] & [??] & ?)]; auto 6.
Qed.

(** Any order held at a level's price keeps the invariant when the level shrinks or changes. *)
Lemma levels_wf_shrink ls1 lp os os' ls2 :
  levels_wf s (ls1 ++ Build_PriceLevel lp os :: ls2) ->
  (Forall (resting_wf s lp) os -> Forall (resting_wf s lp) os') ->
  levels_wf s (ls1 ++ shrink lp os' ls2).
Proof.
  rewrite levels_wf_app, levels_wf_cons. intros (H1 & ((Hne & Hv & Hos) & Hb & H2) & H12) Himp.
  apply levels_wf_app. split; [done|].
  destruct os' as [|o' os']; simpl.
  - split; [done|]. eapply Forall_impl; [exact H12|]. simpl. intros a Ha.
    by apply Forall_cons_1 in Ha as [_ ?].
  - split.
    + apply levels_wf_cons. split_and!; [|exact Hb|done].
      split_and!; [done|done|]. by apply Himp.
    + eapply Forall_impl; [exact H12|]. simpl. intros a Ha.
      apply Forall_cons_1 in Ha as [Ha ?]. by constructor.
Qed.

Lemma levels_wf_flat ls o :
  levels_wf s ls -> o ∈ flat ls -> resting_wf s (price o) o /\ valid_price (price o) = true.
Proof.
  intros [HF _]. induction HF as [|l ls (Hne & Hv & Hos) HF IH].
  - intros Ho. unfold flat in Ho. simpl in Ho. by apply not_elem_of_nil in Ho.
  - rewrite flat_cons, elem_of_app. intros [Ho|Ho]; [|auto].
    pose proof (proj1 (Forall_forall _ _) Hos o Ho) as Hw.
    pose proof Hw as [Hp _]. by rewrite Hp.
Qed.
End Levels.

#[export] Hint Resolve levels_wf_nil : trading.

(** ** Zippers: an order of a side with its surroundings *)

Lemma order_at_zip ls i j o :
  order_at ls i j = Some o ->
  exists ls1 lp os1 os2 ls2,
    ls = ls1 ++ Build_PriceLevel lp (os1 ++ o :: os2) :: ls2 /\
    i = length ls1 /\ j = length os1.
Proof.
  unfold order_at. destruct (ls !! i) as [l|] eqn:Hi; simpl; [|done]. intros Hj.
  exists (take i ls), (lprice l), (take j (orders l)), (drop (S j) (orders l)), (drop (S i) ls).
  split_and!.
  - rewrite (take_drop_middle (orders l)) by done.
    destruct l as [lp os]. simpl. by rewrite take_drop_middle.
  - rewrite length_take. apply lookup_lt_Some in Hi. lia.
  - rewrite length_take. apply lookup_lt_Some in Hj. lia.
Qed.

Lemma lookup_middle_level ls1 (l : PriceLevel) ls2 : (ls1 ++ l :: ls2) !! length ls1 = Some l.
Proof. by apply list_lookup_middle. Qed.

Lemma erase_order_zip ls1 lp os1 o os2 ls2 :
  erase_order (ls1 ++ Build_PriceLevel lp (os1 ++ o :: os2) :: ls2) (length ls1) (length os1) =
  ls1 ++ shrink lp (os1 ++ os2) ls2.
Proof.
  unfold erase_order. rewrite lookup_middle_level. simpl. rewrite delete_middle.
  destruct (os1 ++ os2) as [|o' os']; simpl.
  - by rewrite delete_middle.
  - by rewrite <- (Nat.add_0_r (length ls1)), insert_app_r.
Qed.

Lemma update_order_zip ls1 lp os1 o o' os2 ls2 :
  update_order (ls1 ++ Build_PriceLevel lp (os1 ++ o :: os2) :: ls2) (length ls1) (length os1) o' =
  ls1 ++ shrink lp (os1 ++ o' :: os2) ls2.
Proof.
  unfold update_order. rewrite lookup_middle_level. simpl.
  rewrite <- (Nat.add_0_r (length os1)), insert_app_r. simpl.
  rewrite <- (Nat.add_0_r (length ls1)), insert_app_r. simpl.
  by destruct os1.
Qed.

Lemma order_at_mid ls1 lp os1 o os2 ls2 :
  order_at (ls1 ++ Build_PriceLevel lp (os1 ++ o :: os2) :: ls2) (length ls1) (length os1) = Some o.
Proof.
  unfold order_at. rewrite lookup_middle_level. simpl. by apply list_lookup_middle.
Qed.

(** ** find_order *)

Lemma find_order_Some id ls i j :
  find_order id ls = Some (i, j) ->
  exists ls1 lp os1 o os2 ls2,
    ls = ls1 ++ Build_PriceLevel lp (os1 ++ o :: os2) :: ls2 /\
    i = length ls1 /\ j = length os1 /\ order_id o = id /\
    Forall (fun o' => order_id o' <> id) (flat ls1 ++ os1).
Proof.
  revert i j. induction ls as [|l ls IH]; simpl; [done|]. intros i j.
  destruct (list_find _ (orders l)) as [[j' o]|] eqn:Hf.
  - intros [= <- <-]. apply list_find_Some in Hf as (Hj & Hid & Hfirst).
    exists [], (lprice l), (take j' (orders l)), o, (drop (S j') (orders l)), ls.
    split_and!; auto.
    + rewrite take_drop_middle by done. by destruct l.
    + rewrite length_take. apply lookup_lt_Some in Hj. lia.
    + simpl. apply Forall_lookup. intros k o' Hk.
      apply lookup_take_Some in Hk as [Hk ?]. eauto.
  - apply list_find_None in Hf.
    destruct (find_order id ls) as [[i' j']|] eqn:Hr; [|done].
    intros [= <- <-]. simpl.
    destruct (IH _ _ eq_refl) as (ls1 & lp & os1 & o & os2 & ls2 & -> & -> & -> & Hid & Hfirst).
    exists (l :: ls1), lp, os1, o, os2, ls2. split_and!; auto.
    rewrite flat_cons, <- app_assoc. by apply Forall_app.
Qed.

Lemma find_order_None id ls :
  find_order id ls = None <-> Forall (fun o => order_id o <> id) (flat ls).
Proof.
  induction ls as [|l ls IH]; [by split; [constructor|]|].
  simpl find_order. rewrite flat_cons, Forall_app.
  destruct (list_find _ (orders l)) as [[j' o]|] eqn:Hf.
  - apply list_find_Some in Hf as (Hj & Hid & _). split; [done|]. intros [HF _].
    exfalso. eapply Forall_lookup_1 in HF; eauto.
  - apply list_find_None in Hf. rewrite <- IH.
    destruct (find_order id ls) as [[]|]; simpl; [|by split].
    by split; [|intros [_ ?]].
Qed.

(** ** The binary search *)

Lemma level_search_spec (right : double -> bool) (ls : list PriceLevel) :
  (forall i j li lj, (i < j)%nat -> ls !! i = Some li -> ls !! j = Some lj ->
     right (lprice lj) = true -> right (lprice li) = true) ->
  forall fuel low high, (low <= high <= length ls)%nat -> (high - low < fuel)%nat ->
  (forall k l, (k < low)%nat -> ls !! k = Some l -> right (lprice l) = true) ->
  (forall k l, (high <= k)%nat -> ls !! k = Some l -> right (lprice l) = false) ->
  let r := level_search fuel right ls low high in
  (r <= length ls)%nat /\
  (forall k l, (k < r)%nat -> ls !! k = Some l -> right (lprice l) = true) /\
  (forall k l, (r <= k)%nat -> ls !! k = Some l -> right (lprice l) = false).
Proof.
  intros Hmono fuel. induction fuel as [|fuel IH]; intros low high Hle Hf Hlow Hhigh; [lia|].
  cbn -[Nat.div]. case_decide as Hlt.
  - set (mid := (low + (high - low) / 2)%nat).
    assert (low <= mid < high)%nat.
    { subst mid. pose proof (Nat.div_lt (high - low) 2). lia. }
    destruct (ls !! mid) as [l|] eqn:Hmid; [|apply lookup_ge_None in Hmid; lia].
    destruct (right (lprice l)) eqn:Hr; apply IH; try lia; auto.
    + intros k lk Hk Hlk. destruct (decide (k = mid)) as [->|]; [congruence|].
      eapply (Hmono k mid); eauto; lia.
    + intros k lk Hk Hlk. destruct (decide (k = mid)) as [->|]; [congruence|].
      apply not_true_is_false. intros Hc. rewrite (Hmono mid k l lk) in Hr; auto; lia.
  - assert (low = high) as -> by lia. split_and!; auto; lia.
Qed.

Section Search.
Variables (s : OrderSide) (b : OrderBook).
Hypothesis Hwf : levels_wf s (levels_of s b).

(** The sorted sides make the search test antitone. *)
Lemma better_antitone p i j li lj :
  valid_price p = true -> (i < j)%nat ->
  levels_of s b !! i = Some li -> levels_of s b !! j = Some lj ->
  better s (lprice lj) p = true -> better s (lprice li) p = true.
Proof.
  intros Hp Hij Hi Hj Hb. destruct Hwf as [HF HS].
  pose proof (Forall_lookup_1 _ _ _ _ HF Hi) as (_ & Hvi & _).
  pose proof (Forall_lookup_1 _ _ _ _ HF Hj) as (_ & Hvj & _).
  apply (better_trans s _ (lprice lj)); auto.
  rewrite <- (take_drop_middle _ _ _ Hi) in HS.
  apply StronglySorted_app_1_r, StronglySorted_inv in HS as [_ HB].
  rewrite Forall_forall in HB. apply HB.
  apply list_elem_of_lookup. exists (j - S i)%nat.
  rewrite lookup_drop. rewrite <- Hj. f_equal. lia.
Qed.

Lemma findLevel_spec p :
  valid_price p = true ->
  let r := findLevel s b p in
  (r <= length (levels_of s b))%nat /\
  (forall k l, (k < r)%nat -> levels_of s b !! k = Some l -> better s (lprice l) p = true) /\
  (forall k l, (r <= k)%nat -> levels_of s b !! k = Some l -> better s (lprice l) p = false).
Proof.
  intros Hp. pose proof better_antitone as Hanti.
  assert (forall k l, (length (levels_of s b) <= k)%nat ->
    levels_of s b !! k = Some l -> better s (lprice l) p = false) as Hge.
  { intros k l Hk Hl. apply lookup_lt_Some in Hl. lia. }
  unfold findLevel, findBidLevel, findAskLevel.
  destruct s; simpl levels_of in *;
    [apply (level_search_spec (fun lp => dlt p lp)) | apply (level_search_spec (fun lp => dlt lp p))];
    eauto with lia.
Qed.
End Search.

(** ** push_order *)

Lemma levels_wf_lookup s ls i j l l' :
  levels_wf s ls -> (i < j)%nat -> ls !! i = Some l -> ls !! j = Some l' ->
  better s (lprice l) (lprice l') = true.
Proof.
  intros [_ HS] Hij Hl Hl'. rewrite <- (take_drop_middle _ _ _ Hl) in HS.
  apply StronglySorted_app_1_r, StronglySorted_inv in HS as [_ HB].
  rewrite Forall_forall in HB. apply HB, list_elem_of_lookup.
  exists (j - S i)%nat. rewrite lookup_drop, <- Hl'. f_equal. lia.
Qed.

(** From the place found on, the levels are worse than a price that is not theirs. *)
Lemma findLevel_after s b p i l :
  levels_wf s (levels_of s b) -> valid_price p = true ->
  (findLevel s b p <= i)%nat -> levels_of s b !! i = Some l -> p <> lprice l -> better s p (lprice l) = true.
Proof.
  intros Hwf Hp Hi Hl Hne. pose proof (findLevel_spec s b Hwf _ Hp) as (_ & _ & Habove).
  destruct Hwf as [HF _]. pose proof (Forall_lookup_1 _ _ _ _ HF Hl) as (_ & Hv & _).
  pose proof (Habove i l Hi Hl) as Hb. apply not_better in Hb as [Hb|Hb]; [congruence|done|done|done].
Qed.

(** Either the level of the order's price exists and takes the order at its back, or a new
    level is put between the better and the worse ones. *)
Lemma push_order_split s b o :
  levels_wf s (levels_of s b) -> valid_price (price o) = true ->
  exists ls1 os ls2,
    push_order (levels_of s b) (findLevel s b (price o)) o =
      ls1 ++ Build_PriceLevel (price o) (os ++ [o]) :: ls2 /\
    levels_of s b = ls1 ++ shrink (price o) os ls2 /\
    Forall (fun l => better s (lprice l) (price o) = true) ls1 /\
    Forall (fun l => better s (price o) (lprice l) = true) ls2.
Proof.
  intros Hwf Hp. pose proof (findLevel_spec s b Hwf _ Hp) as (Hr & Hbelow & Habove).
  set (r := findLevel s b (price o)) in *. set (ls := levels_of s b) in *.
  assert (Forall (fun l => better s (lprice l) (price o) = true) (take r ls)) as H1.
  { apply Forall_lookup. intros k l Hk. apply lookup_take_Some in Hk as [??]. eauto. }
  pose proof (fun i l => findLevel_after s b (price o) i l Hwf Hp) as Hafter. fold r ls in Hafter.
  unfold push_order. destruct (ls !! r) as [l|] eqn:Hl.
  - pose proof (fun i l' Hi => levels_wf_lookup s ls r i l l' Hwf Hi Hl) as Hrest.
    destruct Hwf as [HF _]. pose proof (Forall_lookup_1 _ _ _ _ HF Hl) as (Hne & Hv & _).
    destruct (deq (lprice l) (price o)) eqn:Heq.
    + apply deq_eq in Heq; [|done|done].
      exists (take r ls), (orders l), (drop (S r) ls). split_and!; auto.
      * rewrite insert_take_drop by (by eapply lookup_lt_Some). by rewrite Heq.
      * rewrite <- Heq. destruct (orders l) as [|o' os'] eqn:Ho; [done|]. simpl.
        rewrite <- Ho. destruct l; simpl. by rewrite take_drop_middle.
      * apply Forall_lookup. intros k l' Hk. rewrite lookup_drop in Hk.
        rewrite <- Heq. eapply Hrest; [|exact Hk]. lia.
    + exists (take r ls), [], (drop r ls). split_and!; auto.
      * simpl. by rewrite take_drop.
      * apply Forall_lookup. intros k l' Hk. rewrite lookup_drop in Hk.
        eapply Hafter; [|exact Hk|]; [lia|]. intros Hpe.
        destruct k as [|k].
        -- rewrite Nat.add_0_r in Hk. simplify_eq. rewrite <- Hpe, deq_refl in Heq; done.
        -- assert (better s (lprice l) (lprice l') = true) as Hb
             by (eapply Hrest; [|exact Hk]; lia).
           rewrite <- Hpe in Hb. pose proof (Habove r l ltac:(lia) Hl). congruence.
  - apply lookup_ge_None in Hl.
    exists (take r ls), [], []. split_and!; auto.
    + unfold insert_at. by rewrite drop_ge.
    + simpl. rewrite take_ge by done. by rewrite app_nil_r.
Qed.
