(* ===== verification/BookMatch.v ===== *)
(** * BookMatch: what the matching loop computes

    The greedy specification of price-time matching on a plain list of orders, the loop rule
    for [match_loop], its termination, and the refinement: the loop of [matchOrder] computes
    exactly the greedy fills of the marketable orders. *)

From Stdlib Require Import ZArith Lia Bool Sorted.
From stdpp Require Import base tactics decidable numbers option list sorting.
From S2P Require Import Prelude.
From S2P Require Import Double.
From S2P Require Import Order.
From S2P Require Import OrderBook.
From S2P Require Import BookLevels.

Local Open Scope Z_scope.

(** ** Specification *)

(** The levels an incoming order may trade with, and those behind its limit. *)
Fixpoint marketable (inc : Order) (ls : list PriceLevel) : list PriceLevel :=
  match ls with
  | [] => []
  | l :: ls => if beyond inc (lprice l) then [] else l :: marketable inc ls
  end.

Fixpoint unmarketable (inc : Order) (ls : list PriceLevel) : list PriceLevel :=
  match ls with
  | [] => []
  | l :: ls' => if beyond inc (lprice l) then l :: ls' else unmarketable inc ls'
  end.

(** Greedy filling of a quantity from orders in priority order: the fills, what remains of
    the orders, and the quantity left. *)
Fixpoint greedy (rem : Z) (os : list Order) : list (Order * Z) * list Order * Z :=
  match os with
  | [] => ([], [], rem)
  | o :: os' =>
      if rem <=? 0 then ([], os, rem)
      else if remaining_quantity o =? 0 then greedy rem os'
      else if remaining_quantity o <=? rem then
        let '(fs, rest, r) := greedy (rem - remaining_quantity o) os' in
        ((o, remaining_quantity o) :: fs, rest, r)
      else ([(o, rem)], set_remaining o (remaining_quantity o - rem) :: os', 0)
  end.

(** The trade record of one fill, at the resting order's price. *)
Definition fill_trade (clock : Z -> Z) (inc : Order) (tid : Z) (f : Order * Z) : Trade :=
  let '(r, qty) := f in
  match side inc with
  | BUY => Build_Trade tid (order_id inc) (order_id r) (trader_id inc) (trader_id r)
             (price r) qty (clock tid)
  | SELL => Build_Trade tid (order_id r) (order_id inc) (trader_id r) (trader_id inc)
              (price r) qty (clock tid)
  end.

(** The trades of a list of fills, numbered consecutively from [tid]. *)
Fixpoint fill_trades (clock : Z -> Z) (inc : Order) (tid : Z) (fs : list (Order * Z))
    : list Trade :=
  match fs with
  | [] => []
  | f :: fs => fill_trade clock inc tid f :: fill_trades clock inc (tid + 1) fs
  end.

(** Nothing makes a [Trade] constructor throw: distinct ids, and trade ids that neither start
    at 0 nor wrap around. *)
Definition no_throw (inc : Order) (tid : Z) (os : list Order) : Prop :=
  Forall (fun o => order_id o <> order_id inc) os /\
  1 <= tid /\ tid + Z.of_nat (length os) <= UINT64_MAX.

(** ** One turn of the loop, by cases *)

Definition after_trade (lp : double) (r : Order) (os : list Order) (ls : list PriceLevel)
    : list PriceLevel :=
  shrink lp (if remaining_quantity r =? 0 then os else r :: os) ls.

Definition trade_qty (inc r : Order) : Z :=
  Z.min (remaining_quantity inc) (remaining_quantity r).

Definition take_qty (o : Order) (q : Z) : Order := set_remaining o (remaining_quantity o - q).

Variant iter_case (clock : Z -> Z) (st : MatchState) : loop_step -> Prop :=
| IterBreak :
    remaining_quantity (ms_incoming st) <= 0 \/
    (forall l ls, ms_levels st = l :: ls -> beyond (ms_incoming st) (lprice l) = true) ->
    iter_case clock st (Break st)
| IterSkip l ls n :
    ms_levels st = l :: ls -> 0 < remaining_quantity (ms_incoming st) ->
    beyond (ms_incoming st) (lprice l) = false -> pop_filled (orders l) = ([], n) ->
    iter_case clock st (Continue (Build_MatchState ls (ms_incoming st) (ms_next_trade_id st)
                                    (ms_trades st) (ms_freed st + n)))
| IterTrade l ls r os n t :
    ms_levels st = l :: ls -> 0 < remaining_quantity (ms_incoming st) ->
    beyond (ms_incoming st) (lprice l) = false -> pop_filled (orders l) = (r :: os, n) ->
    make_trade (ms_incoming st) r (ms_next_trade_id st) (lprice l) (trade_qty (ms_incoming st) r)
      (clock (ms_next_trade_id st)) = Ok t ->
    let q := trade_qty (ms_incoming st) r in
    iter_case clock st (Continue (Build_MatchState
      (after_trade (lprice l) (take_qty r q) os ls) (take_qty (ms_incoming st) q)
      (u64 (ms_next_trade_id st + 1)) (ms_trades st ++ [t])
      (ms_freed st + n + (if remaining_quantity (take_qty r q) =? 0 then 1 else 0))))
| IterRaise l ls r os n e :
    ms_levels st = l :: ls -> 0 < remaining_quantity (ms_incoming st) ->
    beyond (ms_incoming st) (lprice l) = false -> pop_filled (orders l) = (r :: os, n) ->
    make_trade (ms_incoming st) r (ms_next_trade_id st) (lprice l) (trade_qty (ms_incoming st) r)
      (clock (ms_next_trade_id st)) = Throw e ->
    let q := trade_qty (ms_incoming st) r in
    iter_case clock st (Raise (Build_MatchState
      (Build_PriceLevel (lprice l) (take_qty r q :: os) :: ls) (take_qty (ms_incoming st) q)
      (u64 (ms_next_trade_id st + 1)) (ms_trades st) (ms_freed st + n)) e).

Lemma match_iter_case clock st : iter_case clock st (match_iter clock st).
Proof.
  unfold match_iter.
  destruct (Z.leb_spec (remaining_quantity (ms_incoming st)) 0) as [Hr|Hr].
  { apply IterBreak; auto. }
  destruct (ms_levels st) as [|l ls] eqn:Hls.
  { apply IterBreak. right. congruence. }
  destruct (beyond (ms_incoming st) (lprice l)) eqn:Hb.
  { apply IterBreak. right. intros l' ls'. rewrite Hls. by intros [= <- <-]. }
  destruct (pop_filled (orders l)) as [[|r os] n] eqn:Hp.
  { eapply IterSkip; eauto. }
  fold (trade_qty (ms_incoming st) r).
  destruct (make_trade _ _ _ _ _ _) as [t|e] eqn:Ht.
  - pose proof (IterTrade clock st l ls r os n t Hls Hr Hb Hp Ht) as H. simpl in H.
    unfold after_trade in H. simpl in H |- *.
    destruct (remaining_quantity r - trade_qty (ms_incoming st) r =? 0) eqn:E; simpl in H.
    + destruct os; exact H.
    + rewrite Z.add_0_r in H. exact H.
  - eapply (IterRaise clock st l ls r os n e); eauto.
Qed.

Lemma pop_filled_spec os os' n :
  pop_filled os = (os', n) ->
  exists zs, os = zs ++ os' /\ Forall (fun o => remaining_quantity o = 0) zs /\
    n = Z.of_nat (length zs) /\ (forall o os'', os' = o :: os'' -> remaining_quantity o <> 0).
Proof.
  revert os' n. induction os as [|o os IH]; simpl; intros os' n.
  - intros [= <- <-]. by exists [].
  - destruct (Z.eqb_spec (remaining_quantity o) 0) as [Hz|Hz].
    + destruct (pop_filled os) as [kept m]. intros [= <- <-].
      destruct (IH _ _ eq_refl) as (zs & -> & Hzs & -> & Hh).
      exists (o :: zs). split_and!; auto. simpl. lia.
    + intros [= <- <-]. exists []. split_and!; auto. by intros ? ? [= <- <-].
Qed.

Lemma pop_filled_sublist os os' n : pop_filled os = (os', n) -> sublist os' os.
Proof. intros (zs & -> & _)%pop_filled_spec. by apply sublist_inserts_l. Qed.

(** ** The loop rule and termination *)

Lemma match_loop_inv clock (P : MatchState -> Prop) :
  (forall st st', P st -> match_iter clock st = Continue st' -> P st') ->
  (forall st st' e, P st -> match_iter clock st = Raise st' e -> P st') ->
  forall fuel st, P st ->
  match match_loop fuel clock st with Finished st' => P st' | Raised st' _ => P st' end.
Proof.
  intros HC HR fuel. induction fuel as [|fuel IH]; intros st HP; simpl; [done|].
  pose proof (match_iter_case clock st) as Hcase.
  destruct (match_iter clock st) as [st'|st'|st' e] eqn:Hit.
  - apply IH. eauto.
  - by inversion Hcase; subst.
  - eauto.
Qed.

(** The loop rule for what only the normal exit guarantees. *)
Lemma match_loop_finished clock (P : MatchState -> Prop) :
  (forall st st', P st -> match_iter clock st = Continue st' -> P st') ->
  forall fuel st st', P st -> match_loop fuel clock st = Finished st' -> P st'.
Proof.
  intros HC fuel. induction fuel as [|fuel IH]; intros st st' HP; simpl; [by intros [= <-]|].
  pose proof (match_iter_case clock st) as Hcase.
  destruct (match_iter clock st) as [st1|st1|st1 e] eqn:Hit; [|intros [= <-]|done].
  - apply IH. eauto.
  - by inversion Hcase; subst.
Qed.

Lemma match_loop_id clock fuel st st' :
  match_loop fuel clock st = Finished st' -> exists r, ms_incoming st' = set_remaining (ms_incoming st) r.
Proof.
  apply (match_loop_finished clock (fun st1 => exists r, ms_incoming st1 = set_remaining (ms_incoming st) r));
    [|exists (remaining_quantity (ms_incoming st)); by rewrite set_remaining_id].
  intros st1 st2 [r Hr] Hit. pose proof (match_iter_case clock st1) as Hcase. rewrite Hit in Hcase.
  inversion Hcase; subst; simpl; [eauto|]. unfold take_qty. rewrite Hr. eauto.
Qed.

Lemma length_shrink lp os ls : (length (shrink lp os ls) <= S (length ls))%nat.
Proof. destruct os; simpl; lia. Qed.

Lemma match_iter_decreases clock st st' :
  match_iter clock st = Continue st' -> (match_measure st' < match_measure st)%nat.
Proof.
  intros Hit. pose proof (match_iter_case clock st) as Hcase. rewrite Hit in Hcase.
  unfold match_measure.
  inversion Hcase as [|l ls n Hls Hrem Hb Hp|l ls r os n t Hls Hrem Hb Hp Ht q|]; subst; simpl.
  - rewrite Hls, flat_cons, length_app. simpl. lia.
  - rewrite Hls, flat_cons, length_app. simpl.
    apply pop_filled_spec in Hp as (zs & Hos & _ & _ & Hne). rewrite Hos, length_app. simpl.
    unfold after_trade. rewrite flat_shrink, length_app.
    specialize (Hne r os eq_refl).
    subst q. unfold take_qty, trade_qty in *. simpl in *.
    destruct (Z.ltb_spec 0 (remaining_quantity (ms_incoming st))); [|lia].
    match goal with |- context [shrink ?lp ?o ls] => pose proof (length_shrink lp o ls) end.
    destruct (Z.eqb_spec (remaining_quantity r - Z.min (remaining_quantity (ms_incoming st))
      (remaining_quantity r)) 0); simpl length in *;
    destruct (Z.ltb_spec 0 (remaining_quantity (ms_incoming st) -
      Z.min (remaining_quantity (ms_incoming st)) (remaining_quantity r))); lia.
Qed.

(** With [fuel] above the measure the loop stops where the code's loop stops. *)
Lemma match_loop_breaks clock fuel st st' :
  (match_measure st < fuel)%nat -> match_loop fuel clock st = Finished st' ->
  match_iter clock st' = Break st'.
Proof.
  revert st. induction fuel as [|fuel IH]; intros st Hm; [lia|]. simpl.
  pose proof (match_iter_case clock st) as Hcase.
  destruct (match_iter clock st) as [st1|st1|st1 e] eqn:Hit.
  - apply match_iter_decreases in Hit. apply IH. lia.
  - inversion Hcase; subst. intros [= <-]. done.
  - done.
Qed.

Lemma match_loop_fuel clock fuel1 fuel2 st :
  (match_measure st < fuel1)%nat -> (match_measure st < fuel2)%nat ->
  match_loop fuel1 clock st = match_loop fuel2 clock st.
Proof.
  revert fuel2 st. induction fuel1 as [|fuel1 IH]; intros fuel2 st H1 H2; [lia|].
  destruct fuel2 as [|fuel2]; [lia|]. simpl.
  destruct (match_iter clock st) as [st1|st1|st1 e] eqn:Hit; auto.
  apply match_iter_decreases in Hit. apply IH; lia.
Qed.

(** ** Invariants of a turn *)

Lemma beyond_set_remaining inc r lp : beyond (set_remaining inc r) lp = beyond inc lp.
Proof. reflexivity. Qed.

Lemma resting_wf_take s lp o q :
  resting_wf s lp o -> 0 <= q <= remaining_quantity o -> resting_wf s lp (take_qty o q).
Proof.
  unfold resting_wf, order_wf, take_qty. simpl. intros (? & ? & ? & ? & ?) ?. split_and!; auto; lia.
Qed.

Lemma trade_qty_bounds inc r :
  0 < remaining_quantity inc -> 0 <= remaining_quantity r ->
  0 <= trade_qty inc r /\ trade_qty inc r <= remaining_quantity inc /\
  trade_qty inc r <= remaining_quantity r.
Proof. unfold trade_qty. lia. Qed.

Section Turn.
Variables (clock : Z -> Z) (s : OrderSide).

Lemma level_popped ls l os n :
  levels_wf s (l :: ls) -> pop_filled (orders l) = (os, n) ->
  Forall (resting_wf s (lprice l)) os.
Proof.
  intros Hwf Hp. apply levels_wf_cons in Hwf as [(_ & _ & HF) _].
  apply pop_filled_spec in Hp as (zs & Hos & _). rewrite Hos in HF.
  by apply Forall_app in HF as [_ ?].
Qed.

(** The levels left by a turn, on the [Continue] and on the [Raise] path. *)
Lemma turn_levels_wf st st' :
  levels_wf s (ms_levels st) ->
  match_iter clock st = Continue st' \/ (exists e, match_iter clock st = Raise st' e) ->
  levels_wf s (ms_levels st').
Proof.
  intros Hwf Hit. pose proof (match_iter_case clock st) as Hcase.
  assert (Hnew : forall l ls r os n, ms_levels st = l :: ls ->
    0 < remaining_quantity (ms_incoming st) -> pop_filled (orders l) = (r :: os, n) ->
    forall os', os' = os \/ os' = take_qty r (trade_qty (ms_incoming st) r) :: os ->
    levels_wf s (shrink (lprice l) os' ls)).
  { intros l ls r os n Hls Hrem Hp os' Hos'. rewrite Hls in Hwf.
    pose proof (level_popped _ _ _ _ Hwf Hp) as HF. apply Forall_cons_1 in HF as [Hr HF].
    destruct l as [lp os0]. apply (levels_wf_shrink s [] lp os0 os' ls Hwf). intros _.
    destruct Hos' as [->| ->]; [done|]. constructor; [|done].
    apply resting_wf_take; [done|]. destruct Hr as (_ & _ & _ & _ & ?).
    pose proof (trade_qty_bounds (ms_incoming st) r). lia. }
  destruct Hit as [Hit|[e Hit]]; rewrite Hit in Hcase; inversion Hcase; subst; simpl.
  - match goal with H : ms_levels st = _ |- _ => rewrite H in Hwf end.
    by apply levels_wf_cons in Hwf as (_ & _ & ?).
  - eapply Hnew; eauto. destruct (_ =? _); auto.
  - apply (Hnew l ls r os n) with (os' := take_qty r q :: os); auto.
Qed.
End Turn.

(** ** The refinement *)

Lemma marketable_remaining inc r ls : marketable (set_remaining inc r) ls = marketable inc ls.
Proof. induction ls as [|l ls IH]; simpl; [done|]. by rewrite beyond_set_remaining, IH. Qed.

Lemma unmarketable_remaining inc r ls :
  unmarketable (set_remaining inc r) ls = unmarketable inc ls.
Proof. induction ls as [|l ls IH]; simpl; [done|]. by rewrite beyond_set_remaining, IH. Qed.

Lemma fill_trades_remaining clock inc r tid fs :
  fill_trades clock (set_remaining inc r) tid fs = fill_trades clock inc tid fs.
Proof. revert tid. induction fs as [|f fs IH]; intros tid; simpl; [done|]. by rewrite IH. Qed.

Lemma marketable_split inc ls : ls = marketable inc ls ++ unmarketable inc ls.
Proof. induction ls as [|l ls IH]; simpl; [done|]. destruct (beyond _ _); simpl; congruence. Qed.

Lemma marketable_shrink inc lp os ls :
  beyond inc lp = false ->
  flat (marketable inc (shrink lp os ls)) = os ++ flat (marketable inc ls) /\
  unmarketable inc (shrink lp os ls) = unmarketable inc ls.
Proof. intros Hb. destruct os; simpl; [done|]. by rewrite Hb. Qed.

Lemma greedy_zero os : greedy 0 os = ([], os, 0).
Proof. by destruct os. Qed.

Lemma greedy_skip rem zs os :
  0 < rem -> Forall (fun o => remaining_quantity o = 0) zs -> greedy rem (zs ++ os) = greedy rem os.
Proof.
  intros Hr. induction 1 as [|z zs Hz Hzs IH]; [done|]. simpl.
  rewrite (proj2 (Z.leb_gt rem 0)), Hz by lia. done.
Qed.

Lemma make_trade_Ok clock inc r tid q lp :
  order_id r <> order_id inc -> tid <> 0 -> q <> 0 -> valid_price lp = true -> price r = lp ->
  make_trade inc r tid lp q (clock tid) = Ok (fill_trade clock inc tid (r, q)).
Proof.
  intros Hid Ht Hq Hlp Hp. unfold make_trade, fill_trade. rewrite Hp.
  destruct (side inc); apply Trade_new_Ok; auto.
Qed.

Lemma make_trade_inv clock inc r tid q lp t :
  make_trade inc r tid lp q (clock tid) = Ok t -> price r = lp ->
  t = fill_trade clock inc tid (r, q).
Proof.
  intros Ht Hp. unfold make_trade, fill_trade in *. rewrite Hp.
  destruct (side inc); by apply Trade_new_inv in Ht as [-> _].
Qed.

Definition loop_refines clock (st : MatchState) (res : loop_result) : Prop :=
  let inc := ms_incoming st in
  let '(fs, rest, r) := greedy (remaining_quantity inc) (flat (marketable inc (ms_levels st))) in
  exists st', res = Finished st' /\
    ms_incoming st' = set_remaining inc r /\
    ms_trades st' = ms_trades st ++ fill_trades clock inc (ms_next_trade_id st) fs /\
    flat (ms_levels st') = rest ++ flat (unmarketable inc (ms_levels st)) /\
    ms_next_trade_id st' = ms_next_trade_id st + Z.of_nat (length fs).

(** What a turn finds at the head of the levels it matches against. *)
Lemma turn_head s inc l ls r os n :
  levels_wf s (l :: ls) -> beyond inc (lprice l) = false -> pop_filled (orders l) = (r :: os, n) ->
  valid_price (lprice l) = true /\ price r = lprice l /\ 0 < remaining_quantity r /\
  exists zs, Forall (fun o => remaining_quantity o = 0) zs /\
    flat (marketable inc (l :: ls)) = zs ++ r :: os ++ flat (marketable inc ls) /\
    unmarketable inc (l :: ls) = unmarketable inc ls.
Proof.
  intros Hwf Hb Hp. pose proof (level_popped s ls l _ _ Hwf Hp) as HF.
  apply Forall_cons_1 in HF as [(Hpr & _ & _ & _ & Hr) _].
  pose proof (pop_filled_spec _ _ _ Hp) as (zs & Hos & Hzs & _ & Hne). specialize (Hne r os eq_refl).
  apply levels_wf_cons in Hwf as [(_ & Hv & _) _]. split; [done|]. split; [done|]. split; [lia|].
  exists zs. split; [done|]. cbn [marketable unmarketable]. rewrite Hb, flat_cons, Hos, <- app_assoc. done.
Qed.

Lemma no_throw_tail inc inc' tid zs r os :
  order_id inc' = order_id inc -> no_throw inc tid (zs ++ r :: os) ->
  no_throw inc' (tid + 1) os /\ no_throw inc' (tid + 1) [] /\ order_id r <> order_id inc /\
  1 <= tid /\ tid + 1 <= UINT64_MAX.
Proof.
  intros Hid (Hids & Htid & Hmax). apply Forall_app in Hids as [_ Hids]. apply Forall_cons_1 in Hids as [Hr Hids].
  rewrite length_app in Hmax. cbn [length] in Hmax.
  split; [|split; [|split; [done|lia]]]; unfold no_throw; rewrite Hid; cbn [length]; (split; [done|lia]).
Qed.

Section OneTurn.
Variables (clock : Z -> Z) (s : OrderSide) (st : MatchState).
Hypothesis Hwf : levels_wf s (ms_levels st).

Lemma refines_break :
  0 <= remaining_quantity (ms_incoming st) ->
  remaining_quantity (ms_incoming st) <= 0 \/
  (forall l ls, ms_levels st = l :: ls -> beyond (ms_incoming st) (lprice l) = true) ->
  loop_refines clock st (Finished st).
Proof.
  intros Hrem Hbr. unfold loop_refines.
  assert (greedy (remaining_quantity (ms_incoming st)) (flat (marketable (ms_incoming st) (ms_levels st))) =
    ([], flat (marketable (ms_incoming st) (ms_levels st)), remaining_quantity (ms_incoming st))) as ->.
  { destruct Hbr as [Hz|Hb].
    - assert (remaining_quantity (ms_incoming st) = 0) as -> by lia. apply greedy_zero.
    - destruct (ms_levels st) as [|l ls]; [done|]. cbn [marketable]. by rewrite (Hb l ls eq_refl). }
  exists st. rewrite set_remaining_id, app_nil_r, <- flat_app, <- marketable_split. split_and!; auto. simpl. lia.
Qed.

Lemma refines_skip l ls n res :
  ms_levels st = l :: ls -> 0 < remaining_quantity (ms_incoming st) ->
  beyond (ms_incoming st) (lprice l) = false -> pop_filled (orders l) = ([], n) ->
  loop_refines clock (Build_MatchState ls (ms_incoming st) (ms_next_trade_id st) (ms_trades st)
    (ms_freed st + n)) res ->
  loop_refines clock st res.
Proof.
  intros Hls Hpos Hb Hp. pose proof (pop_filled_spec _ _ _ Hp) as (zs & Hos & Hzs & _).
  rewrite app_nil_r in Hos. unfold loop_refines. rewrite Hls. cbn [marketable unmarketable].
  rewrite Hb, flat_cons, Hos, greedy_skip by done. done.
Qed.

(** A turn that trades takes one step of [greedy]. *)
Lemma refines_trade l ls r os n t res :
  ms_levels st = l :: ls -> 0 < remaining_quantity (ms_incoming st) ->
  beyond (ms_incoming st) (lprice l) = false -> pop_filled (orders l) = (r :: os, n) ->
  let q := trade_qty (ms_incoming st) r in
  make_trade (ms_incoming st) r (ms_next_trade_id st) (lprice l) q (clock (ms_next_trade_id st)) = Ok t ->
  1 <= ms_next_trade_id st < UINT64_MAX ->
  loop_refines clock (Build_MatchState (after_trade (lprice l) (take_qty r q) os ls)
    (take_qty (ms_incoming st) q) (u64 (ms_next_trade_id st + 1)) (ms_trades st ++ [t])
    (ms_freed st + n + (if remaining_quantity (take_qty r q) =? 0 then 1 else 0))) res ->
  loop_refines clock st res.
Proof.
  intros Hls Hpos Hb Hp q Ht Htid. rewrite Hls in Hwf.
  destruct (turn_head _ _ _ _ _ _ _ Hwf Hb Hp) as (_ & Hpr & Hr & zs & Hzs & Hm & Hu).
  apply make_trade_inv in Ht; [|done]. subst t. unfold loop_refines. rewrite Hls, Hm, Hu, greedy_skip by done.
  cbn [ms_incoming ms_levels ms_next_trade_id ms_trades]. unfold after_trade, take_qty.
  rewrite marketable_remaining, unmarketable_remaining, u64_small by (unfold_int; lia).
  cbn [greedy remaining_quantity set_remaining].
  rewrite (proj2 (Z.leb_gt _ 0)), (proj2 (Z.eqb_neq (remaining_quantity r) 0)) by lia.
  subst q. unfold trade_qty. destruct (Z.leb_spec (remaining_quantity r) (remaining_quantity (ms_incoming st))).
  - rewrite Z.min_r, Z.sub_diag by done. cbn [Z.eqb].
    destruct (marketable_shrink (ms_incoming st) (lprice l) os ls Hb) as [-> ->].
    destruct (greedy _ (os ++ _)) as [[fs rest] rr]. intros (st2 & Hl2 & Hi2 & Ht2 & Hf2 & Hn2).
    exists st2. split_and!; auto; [by rewrite Ht2, fill_trades_remaining, <- app_assoc|rewrite Hn2; simpl; lia].
  - rewrite Z.min_l, Z.sub_diag, (proj2 (Z.eqb_neq (remaining_quantity r - _) 0)) by lia.
    destruct (marketable_shrink (ms_incoming st) (lprice l)
      (set_remaining r (remaining_quantity r - remaining_quantity (ms_incoming st)) :: os) ls Hb) as [-> ->].
    rewrite greedy_zero. intros (st2 & Hl2 & Hi2 & Ht2 & Hf2 & Hn2).
    exists st2. split_and!; auto; [by rewrite Ht2, <- app_assoc|rewrite Hn2; simpl; lia].
Qed.
End OneTurn.

(** A turn that continues may still not throw. *)
Lemma no_throw_turn clock s st st' :
  levels_wf s (ms_levels st) -> 0 <= remaining_quantity (ms_incoming st) -> match_iter clock st = Continue st' ->
  no_throw (ms_incoming st) (ms_next_trade_id st) (flat (marketable (ms_incoming st) (ms_levels st))) ->
  0 <= remaining_quantity (ms_incoming st') /\
  (0 < remaining_quantity (ms_incoming st') ->
   no_throw (ms_incoming st') (ms_next_trade_id st') (flat (marketable (ms_incoming st') (ms_levels st')))).
Proof.
  intros Hwf Hrem Hit Hno. pose proof (match_iter_case clock st) as Hcase. rewrite Hit in Hcase.
  inversion Hcase as [|l ls n Hls Hpos Hb Hp|l ls r os n t Hls Hpos Hb Hp Ht q|]; subst st'; cbn; rewrite Hls in *.
  - split; [done|]. intros _. pose proof (pop_filled_spec _ _ _ Hp) as (zs & Hos & _).
    rewrite app_nil_r in Hos. cbn [marketable] in Hno. rewrite Hb, flat_cons, Hos in Hno.
    destruct Hno as (Hids & Htid & Hmax). apply Forall_app in Hids as [_ Hids]. rewrite length_app in Hmax.
    split; [done|lia].
  - destruct (turn_head _ _ _ _ _ _ _ Hwf Hb Hp) as (_ & _ & Hr & zs & _ & Hm & _). rewrite Hm in Hno.
    destruct (no_throw_tail (ms_incoming st) (take_qty (ms_incoming st) q) _ _ _ _ eq_refl Hno)
      as (Htl & _ & _ & H1 & Hmax).
    pose proof (trade_qty_bounds (ms_incoming st) r Hpos ltac:(lia)) as Hq. fold q in Hq.
    split; [lia|]. intros Hpos'. rewrite u64_small by (unfold_int; lia). unfold after_trade, take_qty in *.
    rewrite marketable_remaining. cbn [remaining_quantity set_remaining] in *.
    assert (remaining_quantity r - q = 0) as -> by (subst q; unfold trade_qty in *; lia). cbn [Z.eqb].
    destruct (marketable_shrink (ms_incoming st) (lprice l) os ls Hb) as [-> _]. done.
Qed.

Lemma no_throw_raise clock s st st' e :
  levels_wf s (ms_levels st) -> match_iter clock st = Raise st' e ->
  ~ (0 < remaining_quantity (ms_incoming st) ->
     no_throw (ms_incoming st) (ms_next_trade_id st) (flat (marketable (ms_incoming st) (ms_levels st)))).
Proof.
  intros Hwf Hit Hno. pose proof (match_iter_case clock st) as Hcase. rewrite Hit in Hcase.
  inversion Hcase as [| | |l ls r os n e' Hls Hpos Hb Hp Ht q]; subst. rewrite Hls in *.
  destruct (turn_head _ _ _ _ _ _ _ Hwf Hb Hp) as (Hv & Hpr & Hr & zs & _ & Hm & _).
  specialize (Hno Hpos). rewrite Hm in Hno.
  destruct (no_throw_tail (ms_incoming st) (ms_incoming st) _ _ _ _ eq_refl Hno) as (_ & _ & Hid & H1 & _).
  rewrite make_trade_Ok in Ht; [done|done|lia|unfold trade_qty; lia|done|done].
Qed.

Lemma match_loop_greedy clock s fuel st :
  (match_measure st < fuel)%nat -> levels_wf s (ms_levels st) ->
  0 <= remaining_quantity (ms_incoming st) ->
  (0 < remaining_quantity (ms_incoming st) ->
   no_throw (ms_incoming st) (ms_next_trade_id st)
     (flat (marketable (ms_incoming st) (ms_levels st)))) ->
  loop_refines clock st (match_loop fuel clock st).
Proof.
  revert st. induction fuel as [|fuel IH]; intros st Hm Hwf Hrem Hno; [lia|].
  simpl. pose proof (match_iter_case clock st) as Hcase.
  destruct (match_iter clock st) as [st1|st1|st1 e] eqn:Hit.
  - assert (0 < remaining_quantity (ms_incoming st)) as Hpos by (by inversion Hcase).
    destruct (no_throw_turn _ _ _ _ Hwf Hrem Hit (Hno Hpos)) as [Hrem1 Hno1].
    pose proof (match_iter_decreases _ _ _ Hit) as Hdec.
    specialize (IH st1 ltac:(lia) (turn_levels_wf clock s st st1 Hwf (or_introl Hit)) Hrem1 Hno1).
    inversion Hcase as [|l ls n Hls _ Hb Hp|l ls r os n t Hls _ Hb Hp Ht q|]; subst st1.
    + by eapply refines_skip.
    + eapply refines_trade; eauto. destruct (Hno Hpos) as (_ & H1 & Hmax). rewrite Hls in *.
      destruct (turn_head _ _ _ _ _ _ _ Hwf Hb Hp) as (_ & _ & _ & zs & _ & Hmk & _).
      rewrite Hmk, length_app in Hmax. simpl in Hmax. lia.
  - inversion Hcase as [Hbr| | |]; subst st1. by eapply refines_break.
  - exfalso. by apply (no_throw_raise clock s st st1 e Hwf Hit).
Qed.
