(* ===== verification/BookInv.v ===== *)
(** * BookInv: the invariant of the order book

    [book_wf] (sorted non-empty levels, well-formed orders at their level's price, no order
    slot lost or duplicated) and [uncrossed] (every bid strictly below every ask), and their
    preservation by each operation of [OrderBook], on every path including the ones where a
    [Trade] constructor throws. *)

From Stdlib Require Import ZArith Lia Bool Sorted.
From stdpp Require Import base tactics decidable numbers option list sorting.
From S2P Require Import Prelude.
From S2P Require Import Double.
From S2P Require Import Order.
From S2P Require Import OrderBook.
From S2P Require Import BookLevels.
From S2P Require Import BookMatch.

Local Open Scope Z_scope.

(** ** Definitions *)

(** The resting orders, as a number of pool slots. *)
Definition order_slots (b : OrderBook) : Z :=
  Z.of_nat (length (flat (bids_ b)) + length (flat (asks_ b))).

Definition book_wf (b : OrderBook) : Prop :=
  levels_wf BUY (bids_ b) /\ levels_wf SELL (asks_ b) /\
  pool_available_ b + order_slots b = pool_capacity_ b /\ 0 <= pool_available_ b.

Definition uncrossed (b : OrderBook) : Prop :=
  Forall (fun lb => Forall (fun la => dlt (lprice lb) (lprice la) = true) (asks_ b)) (bids_ b).

(** What an order handed to [matchOrder] satisfies: what [Order]'s constructor establishes. *)
Definition incoming_wf (o : Order) : Prop :=
  (type o = MARKET \/ valid_price (price o) = true) /\
  in_u32 (quantity o) /\ 0 <= remaining_quantity o <= quantity o.

(** The states of a book that has only been driven through [matchOrder], [cancelOrder],
    [replaceOrder], [applyFill] and [setSTPPolicy]. *)
Inductive reachable (clock : Z -> Z) (capacity : Z) : OrderBook -> Prop :=
| reachable_new : reachable clock capacity (OrderBook_new capacity)
| reachable_match b inc :
    reachable clock capacity b -> incoming_wf inc ->
    reachable clock capacity (mo_book (matchOrder clock b inc))
| reachable_cancel b id :
    reachable clock capacity b -> reachable clock capacity (cancelOrder b id).1
| reachable_replace b now id p qty prio :
    reachable clock capacity b -> in_u32 qty ->
    reachable clock capacity (replaceOrder clock now b id p qty prio).1
| reachable_fill b id qty :
    reachable clock capacity b -> 0 <= qty ->
    reachable clock capacity (applyFill b id qty).1
| reachable_policy b p :
    reachable clock capacity b -> reachable clock capacity (setSTPPolicy b p).

(** ** Sides of a book *)

Definition side_wf (s : OrderSide) (b : OrderBook) : Prop := levels_wf s (levels_of s b).

Definition slots_of (s : OrderSide) (b : OrderBook) : Z :=
  Z.of_nat (length (flat (levels_of s b))).

Lemma book_wf_side s b :
  book_wf b <->
  side_wf s b /\ side_wf (opposite s) b /\
  pool_available_ b + slots_of s b + slots_of (opposite s) b = pool_capacity_ b /\
  0 <= pool_available_ b.
Proof.
  unfold book_wf, side_wf, slots_of, order_slots. destruct s; simpl; split;
    intros (? & ? & ? & ?); split_and!; auto; lia.
Qed.

Lemma levels_of_set s b ls n : levels_of s (set_levels s b ls n) = ls.
Proof. by destruct s. Qed.

Lemma levels_of_set_opp s b ls n :
  levels_of (opposite s) (set_levels s b ls n) = levels_of (opposite s) b.
Proof. by destruct s. Qed.

Lemma levels_of_opp_set s b ls n :
  levels_of s (set_levels (opposite s) b ls n) = levels_of s b.
Proof. by destruct s. Qed.

Lemma pool_set s b ls n :
  pool_available_ (set_levels s b ls n) = pool_available_ b + n /\
  pool_capacity_ (set_levels s b ls n) = pool_capacity_ b.
Proof. by destruct s. Qed.

Lemma opposite_involutive s : opposite (opposite s) = s.
Proof. by destruct s. Qed.

#[export] Hint Rewrite levels_of_set levels_of_set_opp levels_of_opp_set opposite_involutive
  : trading.

(** Replacing one side keeps the invariant when the slots add up. *)
Lemma book_wf_set s b ls n :
  book_wf b -> levels_wf s ls ->
  Z.of_nat (length (flat ls)) + n = slots_of s b -> 0 <= pool_available_ b + n ->
  book_wf (set_levels s b ls n).
Proof.
  rewrite !(book_wf_side s). unfold side_wf, slots_of.
  destruct (pool_set s b ls n) as [-> ->]. autorewrite with trading.
  intros (? & ? & ? & ?) ???. split_and!; auto; lia.
Qed.

Lemma uncrossed_set s b ls n :
  uncrossed b ->
  (forall l, l ∈ ls -> exists l0, l0 ∈ levels_of s b /\ lprice l = lprice l0) ->
  uncrossed (set_levels s b ls n).
Proof.
  unfold uncrossed. destruct s; simpl; rewrite !Forall_forall; setoid_rewrite Forall_forall.
  - intros H Hin lb Hlb la Hla. destruct (Hin lb Hlb) as (l0 & Hl0 & ->). auto.
  - intros H Hin lb Hlb la Hla. destruct (Hin la Hla) as (l0 & Hl0 & ->). auto.
Qed.

(** ** addOrder *)

Lemma levels_wf_push s b o :
  side_wf s b -> order_wf o -> side o = s ->
  levels_wf s (push_order (levels_of s b) (findLevel s b (price o)) o) /\
  length (flat (push_order (levels_of s b) (findLevel s b (price o)) o)) =
    S (length (flat (levels_of s b))).
Proof.
  intros Hwf Ho Hs. unfold side_wf in Hwf. pose proof Ho as [Hp _].
  destruct (push_order_split s b o Hwf Hp) as (ls1 & os & ls2 & Hpush & Hls & H1 & H2).
  rewrite Hpush, Hls. rewrite Hls in Hwf. split.
  - rewrite levels_wf_app in Hwf. destruct Hwf as (Hw1 & Hw2 & H12).
    assert (levels_wf s ls2) as Hw2'.
    { destruct os; simpl in Hw2; [done|]. by apply levels_wf_cons in Hw2 as (_ & _ & ?). }
    assert (Forall (resting_wf s (price o)) os) as Hos.
    { destruct os; simpl in Hw2; [constructor|]. by apply levels_wf_cons in Hw2 as ((_ & _ & ?) & _). }
    apply levels_wf_app. split_and!; [done| |].
    + apply levels_wf_cons. split; [|by split].
      split; [by destruct os|]. split; [done|]. simpl. apply Forall_app. split; [done|].
      apply Forall_singleton. by split.
    + rewrite Forall_forall in *. intros a Ha. constructor; [by apply H1|].
      specialize (H12 a Ha). destruct os; simpl in H12; [done|]. by apply Forall_cons_1 in H12 as [_ ?].
  - rewrite !flat_app, flat_cons, flat_shrink. simpl. rewrite !length_app. simpl. lia.
Qed.

Lemma addOrder_wf b o : book_wf b -> order_wf o -> book_wf (addOrder b o).1.
Proof.
  intros Hwf Ho. unfold addOrder.
  destruct (_ || _); [done|]. destruct (Z.leb_spec (pool_available_ b) 0); [done|]. simpl.
  pose proof (proj1 (book_wf_side (side o) b) Hwf) as (Hs & _).
  destruct (levels_wf_push _ _ _ Hs Ho eq_refl) as [Hpush Hlen].
  apply book_wf_set; [done|done| |lia]. rewrite Hlen. unfold slots_of. lia.
Qed.

Lemma addOrder_opposite b o :
  levels_of (opposite (side o)) (addOrder b o).1 = levels_of (opposite (side o)) b /\
  next_trade_id_ (addOrder b o).1 = next_trade_id_ b /\
  stp_policy_ (addOrder b o).1 = stp_policy_ b.
Proof.
  unfold addOrder. destruct (_ || _); [done|]. destruct (_ <=? _); [done|].
  by destruct (side o).
Qed.

(** A new level at a price that crosses no level of the other side. *)
Lemma addOrder_uncrossed b o :
  book_wf b -> uncrossed b -> order_wf o ->
  Forall (fun l => match side o with BUY => dlt (price o) (lprice l) | SELL => dlt (lprice l) (price o) end
     = true) (levels_of (opposite (side o)) b) ->
  uncrossed (addOrder b o).1.
Proof.
  intros Hwf Hun Ho Hopp. unfold addOrder.
  destruct (_ || _); [done|]. destruct (_ <=? _); [done|]. simpl.
  pose proof (proj1 (book_wf_side (side o) b) Hwf) as (Hs & _). pose proof Ho as [Hp _].
  destruct (push_order_split _ _ _ Hs Hp) as (ls1 & os & ls2 & Hpush & Hls & _ & _).
  assert (Hin : forall l, l ∈ push_order (levels_of (side o) b) (findLevel (side o) b (price o)) o ->
    lprice l = price o \/ l ∈ levels_of (side o) b).
  { intros l. rewrite Hpush, Hls, !elem_of_app, elem_of_cons.
    intros [?|[->|?]]; auto. right. right. destruct os; simpl; [done|]. by apply elem_of_cons; right. }
  unfold uncrossed in *. rewrite Forall_forall in *. setoid_rewrite Forall_forall in Hun.
  setoid_rewrite Forall_forall.
  destruct (side o); simpl in *; intros lb Hlb la Hla.
  - destruct (Hin _ Hlb) as [->|?]; auto.
  - destruct (Hin _ Hla) as [->|?]; auto.
Qed.

(** ** Erasing or updating a located order *)

Lemma locate_Some b id s i j :
  locate b id = Some (s, i, j) -> find_order id (levels_of s b) = Some (i, j).
Proof.
  unfold locate. destruct (find_order id (bids_ b)) as [[]|] eqn:Hb; [by intros [= <- <- <-]|].
  destruct (find_order id (asks_ b)) as [[]|] eqn:Ha; [by intros [= <- <- <-]|done].
Qed.

(** A located order splits its side; its own id is the first match there. *)
Lemma locate_zip b id s i j :
  locate b id = Some (s, i, j) ->
  exists ls1 lp os1 o os2 ls2,
    levels_of s b = ls1 ++ Build_PriceLevel lp (os1 ++ o :: os2) :: ls2 /\
    i = length ls1 /\ j = length os1 /\ order_id o = id /\
    order_at (levels_of s b) i j = Some o /\
    erase_order (levels_of s b) i j = ls1 ++ shrink lp (os1 ++ os2) ls2 /\
    (forall o', update_order (levels_of s b) i j o' = ls1 ++ shrink lp (os1 ++ o' :: os2) ls2) /\
    Forall (fun o' => order_id o' <> id) (flat ls1 ++ os1).
Proof.
  intros Hl. apply locate_Some, find_order_Some in Hl
    as (ls1 & lp & os1 & o & os2 & ls2 & Hls & -> & -> & Hid & Hfirst).
  exists ls1, lp, os1, o, os2, ls2. rewrite Hls, order_at_mid, erase_order_zip.
  split_and!; auto. intros o'. apply update_order_zip.
Qed.

Lemma prices_shrink ls1 lp os os' ls2 l :
  l ∈ ls1 ++ shrink lp os' ls2 ->
  exists l0, l0 ∈ ls1 ++ Build_PriceLevel lp os :: ls2 /\ lprice l = lprice l0.
Proof.
  rewrite elem_of_app. intros [Hl|Hl].
  - exists l. rewrite elem_of_app. auto.
  - destruct os' as [|o' os']; simpl in Hl.
    + exists l. rewrite elem_of_app, elem_of_cons. auto.
    + apply elem_of_cons in Hl as [->|Hl].
      * exists (Build_PriceLevel lp os). rewrite elem_of_app, elem_of_cons. auto.
      * exists l. rewrite elem_of_app, elem_of_cons. auto.
Qed.

Definition keeps_book (b b' : OrderBook) : Prop :=
  (book_wf b -> book_wf b') /\ (uncrossed b -> uncrossed b').

Lemma keeps_refl b : keeps_book b b.
Proof. by split. Qed.

Lemma keeps_trans b1 b2 b3 : keeps_book b1 b2 -> keeps_book b2 b3 -> keeps_book b1 b3.
Proof. unfold keeps_book. tauto. Qed.

Lemma erase_keeps b id s i j :
  locate b id = Some (s, i, j) ->
  keeps_book b (set_levels s b (erase_order (levels_of s b) i j) 1).
Proof.
  intros Hl. destruct (locate_zip _ _ _ _ _ Hl)
    as (ls1 & lp & os1 & o & os2 & ls2 & Hls & _ & _ & _ & _ & Her & _ & _).
  rewrite Her. split.
  - intros Hwf. pose proof (proj1 (book_wf_side s b) Hwf) as (Hs & _ & ? & ?).
    unfold side_wf in Hs. rewrite Hls in Hs. apply book_wf_set; [done| | |lia].
    + eapply levels_wf_shrink; [exact Hs|].
      rewrite !Forall_app, Forall_cons. tauto.
    + unfold slots_of. rewrite Hls, !flat_app, flat_cons, flat_shrink. simpl.
      rewrite !length_app. simpl. lia.
  - intros Hun. apply uncrossed_set; [done|]. rewrite Hls. apply prices_shrink.
Qed.

Lemma update_keeps b id s i j o o' :
  locate b id = Some (s, i, j) -> order_at (levels_of s b) i j = Some o ->
  (forall lp, resting_wf s lp o -> resting_wf s lp o') ->
  keeps_book b (set_levels s b (update_order (levels_of s b) i j o') 0).
Proof.
  intros Hl Hat Ho. destruct (locate_zip _ _ _ _ _ Hl)
    as (ls1 & lp & os1 & o1 & os2 & ls2 & Hls & _ & _ & _ & Hat' & _ & Hup & _).
  rewrite Hat in Hat'. injection Hat' as <-. rewrite Hup. split.
  - intros Hwf. pose proof (proj1 (book_wf_side s b) Hwf) as (Hs & _ & ? & ?).
    unfold side_wf in Hs. rewrite Hls in Hs. apply book_wf_set; [done| | |lia].
    + eapply levels_wf_shrink; [exact Hs|]. rewrite !Forall_app, !Forall_cons.
      intros (? & ? & ?). auto.
    + unfold slots_of. rewrite Hls, !flat_app, flat_cons, flat_shrink. simpl.
      rewrite !length_app. simpl. lia.
  - intros Hun. apply uncrossed_set; [done|]. rewrite Hls. apply prices_shrink.
Qed.

Lemma cancelOrder_keeps b id : keeps_book b (cancelOrder b id).1.
Proof.
  unfold cancelOrder. destruct (locate b id) as [[[s i] j]|] eqn:Hl; [|apply keeps_refl].
  by eapply erase_keeps.
Qed.

Lemma applyFill_keeps b id qty : 0 <= qty -> keeps_book b (applyFill b id qty).1.
Proof.
  intros Hq. unfold applyFill. destruct (_ =? 0); [apply keeps_refl|].
  destruct (locate b id) as [[[s i] j]|] eqn:Hl; [|apply keeps_refl].
  destruct (order_at _ i j) as [o|] eqn:Ho; [|apply keeps_refl].
  destruct (Z.ltb_spec (remaining_quantity o) qty); [apply keeps_refl|].
  destruct (_ =? 0); [by eapply erase_keeps|].
  eapply update_keeps; [done|done|]. intros lp Hr.
  by apply (resting_wf_take s lp o qty).
Qed.

(** ** matchOrder *)

Definition loop_inv (s : OrderSide) (st0 st : MatchState) : Prop :=
  levels_wf s (ms_levels st) /\
  (exists r, ms_incoming st = set_remaining (ms_incoming st0) r /\
             0 <= r <= remaining_quantity (ms_incoming st0)) /\
  ms_freed st + Z.of_nat (length (flat (ms_levels st))) =
    ms_freed st0 + Z.of_nat (length (flat (ms_levels st0))) /\
  ms_freed st0 <= ms_freed st /\
  (forall l, l ∈ ms_levels st -> exists l0, l0 ∈ ms_levels st0 /\ lprice l = lprice l0).

Lemma loop_inv_start s st :
  levels_wf s (ms_levels st) -> 0 <= remaining_quantity (ms_incoming st) -> loop_inv s st st.
Proof.
  intros Hwf Hr. split_and!; [done| |lia|lia|eauto].
  exists (remaining_quantity (ms_incoming st)). rewrite set_remaining_id. split; [done|lia].
Qed.

(** What a turn does to prices, to the incoming quantity and to the number of orders. *)
Lemma shrink_in lp os ls l :
  l ∈ shrink lp os ls -> lprice l = lp \/ l ∈ ls.
Proof. destruct os; simpl; [auto|]. rewrite elem_of_cons. intros [->|?]; auto. Qed.

Lemma turn_quantity s st l ls r os n inc0 r0 :
  levels_wf s (ms_levels st) -> ms_incoming st = set_remaining inc0 r0 ->
  r0 <= remaining_quantity inc0 -> ms_levels st = l :: ls ->
  0 < remaining_quantity (ms_incoming st) -> pop_filled (orders l) = (r :: os, n) ->
  exists r1, take_qty (ms_incoming st) (trade_qty (ms_incoming st) r) = set_remaining inc0 r1 /\
    0 <= r1 <= remaining_quantity inc0.
Proof.
  intros Hwf Hinc Hr0 Hls Hpos Hp. rewrite Hls in Hwf.
  pose proof (level_popped _ _ _ _ _ Hwf Hp) as HF. apply Forall_cons in HF as [(_ & _ & _ & _ & Hr) _].
  pose proof (trade_qty_bounds (ms_incoming st) r Hpos ltac:(lia)) as Hq.
  exists (remaining_quantity (ms_incoming st) - trade_qty (ms_incoming st) r).
  unfold take_qty. rewrite Hinc at 1. rewrite set_remaining_twice. split; [done|].
  rewrite Hinc in Hq |- *. simpl in Hq |- *. lia.
Qed.

Lemma popped_slots l ls os n :
  pop_filled (orders l) = (os, n) ->
  Z.of_nat (length (flat (l :: ls))) = n + Z.of_nat (length os + length (flat ls)) /\ 0 <= n.
Proof.
  intros Hp. apply pop_filled_spec in Hp as (zs & Hos & _ & -> & _).
  rewrite flat_cons, Hos, !length_app. lia.
Qed.

Lemma loop_inv_turn clock s st0 st st' :
  loop_inv s st0 st ->
  match_iter clock st = Continue st' \/ (exists e, match_iter clock st = Raise st' e) ->
  loop_inv s st0 st'.
Proof.
  intros (Hwf & (r0 & Hinc & Hr0) & Hfreed & Hmono & Hin) Hit.
  pose proof (turn_levels_wf clock s st st' Hwf Hit) as Hwf'.
  pose proof (match_iter_case clock st) as Hcase.
  destruct Hit as [Hit|[e Hit]]; rewrite Hit in Hcase;
    inversion Hcase as [|l ls n Hls Hpos Hb Hp|l ls r os n t Hls Hpos Hb Hp Ht q
                        |l ls r os n e' Hls Hpos Hb Hp Ht q]; subst; clear Hcase Hit; simpl in *;
    destruct (popped_slots l ls _ _ Hp) as [Hl Hn]; simpl in Hl; rewrite Hls in Hin, Hfreed;
    (assert (Hrest : forall l' os', l' ∈ shrink (lprice l) os' ls ->
       exists l0, l0 ∈ ms_levels st0 /\ lprice l' = lprice l0)
     by (intros l' os' Hl'; apply shrink_in in Hl' as [->|Hl']; apply Hin; rewrite elem_of_cons; auto)).
  - split_and!; [done|eauto|simpl; lia|simpl; lia|].
    intros l' Hl'. by apply (Hrest l' []).
  - split_and!; [done|eapply turn_quantity; eauto; lia| | |intros l'; by apply Hrest];
      simpl; unfold after_trade; rewrite ?flat_shrink;
      destruct (_ =? 0); simpl; rewrite ?length_app; simpl; lia.
  - split_and!; [done|eapply turn_quantity; eauto; lia| |simpl; lia|].
    + cbn [ms_levels ms_freed]. rewrite flat_cons. simpl. rewrite length_app. lia.
    + intros l' Hl'. by apply (Hrest l' (take_qty r q :: os)).
Qed.

Lemma match_loop_loop_inv clock s fuel st0 :
  loop_inv s st0 st0 ->
  match match_loop fuel clock st0 with
  | Finished st' => loop_inv s st0 st'
  | Raised st' _ => loop_inv s st0 st'
  end.
Proof.
  apply (match_loop_inv clock (loop_inv s st0)); intros; eapply loop_inv_turn; eauto.
Qed.

(** ** Self-trade removal *)

Lemma stp_orders_spec oldest trader os kept n :
  stp_orders oldest trader os = (kept, n) ->
  (forall o, o ∈ kept -> o ∈ os) /\ Z.of_nat (length kept) + n = Z.of_nat (length os) /\ 0 <= n.
Proof.
  revert kept n. induction os as [|o os IH]; simpl; intros kept n.
  { intros [= <- <-]. by split_and!. }
  destruct (_ && _).
  - destruct oldest.
    + intros [= <- <-]. split_and!; [|lia|lia]. intros. rewrite elem_of_cons. auto.
    + destruct (stp_orders false trader os) as [kept' m]. intros [= <- <-].
      destruct (IH _ _ eq_refl) as (? & ? & ?). split_and!; [|lia|lia].
      intros. rewrite elem_of_cons. auto.
  - destruct (stp_orders oldest trader os) as [kept' m]. intros [= <- <-].
    destruct (IH _ _ eq_refl) as (Hin & ? & ?). split_and!; [|simpl; lia|lia].
    intros o'. rewrite !elem_of_cons. intros [?|?]; auto.
Qed.

Lemma stp_orders_sublist oldest trader os : sublist (stp_orders oldest trader os).1 os.
Proof.
  induction os as [|o os IH]; simpl; [done|].
  destruct (stp_orders oldest trader os) as [kept n].
  destruct (_ && _); [destruct oldest|]; simpl in *;
    [by apply sublist_cons|by apply sublist_cons|by apply sublist_skip].
Qed.

Lemma stp_levels_spec s oldest inc removed ls ls' n :
  levels_wf s ls -> stp_levels oldest inc removed ls = (ls', n) ->
  levels_wf s ls' /\ Z.of_nat (length (flat ls')) + n = Z.of_nat (length (flat ls)) /\ 0 <= n /\
  (forall l, l ∈ ls' -> exists l0, l0 ∈ ls /\ lprice l = lprice l0).
Proof.
  revert removed ls' n. induction ls as [|l rest IH]; intros removed ls' n Hwf; simpl.
  { intros [= <- <-]. split_and!; eauto; lia. }
  destruct (beyond inc (lprice l)).
  { intros [= <- <-]. split_and!; eauto; lia. }
  pose proof (proj1 (levels_wf_cons _ _ _) Hwf) as ((Hne & Hv & HF) & Hbef & Hrest).
  destruct (stp_orders _ _ (orders l)) as [kept m] eqn:Hs.
  apply stp_orders_spec in Hs as (Hin & Hm & Hm0).
  set (removed' := removed || (0 <? m)).
  assert (exists rest' k, (if oldest && removed' then (rest, 0)
      else stp_levels oldest inc removed' rest) = (rest', k) /\
    levels_wf s rest' /\ Z.of_nat (length (flat rest')) + k = Z.of_nat (length (flat rest)) /\
    0 <= k /\ (forall l, l ∈ rest' -> exists l0, l0 ∈ rest /\ lprice l = lprice l0))
    as (rest' & k & -> & Hw' & Hk & Hk0 & Hp').
  { destruct (oldest && removed'); [exists rest, 0; split_and!; eauto; lia|].
    destruct (stp_levels oldest inc removed' rest) as [rest' k] eqn:E.
    exists rest', k. split; [done|]. eauto. }
  fold (shrink (lprice l) kept rest'). intros [= <- <-]. split_and!.
  - destruct kept as [|o kept]; [done|]. apply levels_wf_cons. split; [|split].
    + split; [done|]. split; [done|]. rewrite Forall_forall in *. simpl. auto.
    + rewrite Forall_forall in *. intros l' Hl'. destruct (Hp' _ Hl') as (l0 & Hl0 & Heq).
      specialize (Hbef l0 Hl0). unfold level_before in *. simpl. by rewrite Heq.
    + done.
  - rewrite flat_shrink, flat_cons, !length_app. lia.
  - lia.
  - intros l' Hl'. apply shrink_in in Hl' as [->|Hl'].
    + exists l. by rewrite elem_of_cons; auto.
    + destruct (Hp' _ Hl') as (l0 & ? & ?). exists l0. rewrite elem_of_cons. auto.
Qed.

Lemma stp_levels_keeps b inc oldest ls n :
  stp_levels oldest inc false (levels_of (opposite (side inc)) b) = (ls, n) ->
  book_wf b ->
  book_wf (set_levels (opposite (side inc)) b ls n) /\
  (uncrossed b -> uncrossed (set_levels (opposite (side inc)) b ls n)).
Proof.
  intros Hst Hwf. set (s := opposite (side inc)) in *.
  pose proof (proj1 (book_wf_side s b) Hwf) as (Hs & _ & _ & Hav).
  destruct (stp_levels_spec s _ _ _ _ _ _ Hs Hst) as (Hw & Hn & Hn0 & Hp). split.
  - apply book_wf_set; [done|done| |lia]. unfold slots_of. lia.
  - intros Hun. by apply uncrossed_set.
Qed.

Lemma stp_phase_keeps b inc :
  book_wf b ->
  book_wf (stp_phase b inc).1 /\ (uncrossed b -> uncrossed (stp_phase b inc).1).
Proof.
  intros Hwf. unfold stp_phase. destruct (_ && _); [|done].
  destruct (stp_policy_ b); [done|done| |];
    destruct (stp_levels _ _ _ _) as [ls n] eqn:Hst; by eapply stp_levels_keeps.
Qed.

(** ** The book after the loop *)

Lemma match_start_inv s b inc :
  book_wf b -> incoming_wf inc -> s = opposite (side inc) ->
  loop_inv s (match_start b inc) (match_start b inc).
Proof.
  intros Hwf (_ & _ & Hr) ->. apply loop_inv_start; simpl; [|lia].
  by apply (book_wf_side (opposite (side inc)) b) in Hwf as (? & _).
Qed.

Lemma with_next_trade_id_keeps b n : keeps_book b (with_next_trade_id b n).
Proof. by split. Qed.

Lemma match_book_keeps b inc st :
  book_wf b -> loop_inv (opposite (side inc)) (match_start b inc) st ->
  book_wf (match_book b inc st) /\ (uncrossed b -> uncrossed (match_book b inc st)).
Proof.
  intros Hwf (Hl & _ & Hfr & Hmono & Hp). unfold match_book. simpl in *.
  pose proof (proj1 (book_wf_side (opposite (side inc)) b) Hwf) as (_ & _ & _ & ?). split.
  - apply with_next_trade_id_keeps. apply book_wf_set; [done|done| |lia].
    unfold slots_of. lia.
  - intros Hun. apply with_next_trade_id_keeps. by apply uncrossed_set.
Qed.


(** When the first level is behind the limit, every level is. *)
Lemma beyond_all inc ls :
  levels_wf (opposite (side inc)) ls -> valid_price (price inc) = true -> type inc <> MARKET ->
  (forall l ls', ls = l :: ls' -> beyond inc (lprice l) = true) ->
  Forall (fun l => match side inc with
                   | BUY => dlt (price inc) (lprice l)
                   | SELL => dlt (lprice l) (price inc)
                   end = true) ls.
Proof.
  intros Hwf Hp Ht Hb. destruct ls as [|l ls]; [constructor|].
  specialize (Hb l ls eq_refl). unfold beyond in Hb.
  rewrite bool_decide_false in Hb by done. simpl in Hb.
  apply levels_wf_cons in Hwf as ((_ & Hv & _) & Hbef & [Hwf _]).
  constructor; [done|]. rewrite Forall_forall in *. intros l' Hl'.
  specialize (Hbef l' Hl'). destruct (Hwf l' Hl') as (_ & Hv' & _).
  unfold level_before in Hbef. destruct (side inc); simpl in *; eauto using dlt_trans.
Qed.

Lemma rests_inv o : rests o = true -> 0 < remaining_quantity o /\ type o = LIMIT.
Proof.
  unfold rests. intros H. destruct (type o); repeat case_bool_decide; simpl in H;
    bool_to_prop; try discriminate; try congruence; auto.
Qed.

Lemma incoming_wf_resting inc r :
  incoming_wf inc -> 0 <= r <= remaining_quantity inc -> rests (set_remaining inc r) = true ->
  order_wf (set_remaining inc r) /\ type inc = LIMIT.
Proof.
  intros (Hp & Hq & Hr) Hr' Hrests. apply rests_inv in Hrests as [_ Ht]. simpl in Ht.
  split; [|done]. split; simpl; [|split; [done|lia]]. destruct Hp as [Hp|Hp]; congruence.
Qed.

Lemma match_phase_keeps clock b inc :
  book_wf b -> incoming_wf inc ->
  book_wf (mo_book (match_phase clock b inc)) /\
  (uncrossed b -> uncrossed (mo_book (match_phase clock b inc))).
Proof.
  intros Hwf Hinc. set (s := opposite (side inc)).
  pose proof (match_start_inv s b inc Hwf Hinc eq_refl) as Hstart.
  pose proof (match_loop_loop_inv clock s (S (match_measure (match_start b inc))) _ Hstart) as Hloop.
  pose proof (match_loop_breaks clock (S (match_measure (match_start b inc))) (match_start b inc))
    as Hbreak.
  unfold match_phase.
  destruct (match_loop _ clock (match_start b inc)) as [st|st e]; simpl;
    [|by apply match_book_keeps].
  destruct (match_book_keeps b inc st Hwf Hloop) as [Hwf' Hun'].
  destruct Hloop as (Hlv & (r & Hi & Hr) & _). simpl in Hi, Hr.
  destruct (rests (ms_incoming st)) eqn:Hrests; [|done].
  rewrite Hi in *. destruct (incoming_wf_resting inc r Hinc Hr Hrests) as [Ho Ht].
  split; [by apply addOrder_wf|]. intros Hun. apply addOrder_uncrossed; auto.
  change (side (set_remaining inc r)) with (side inc).
  change (price (set_remaining inc r)) with (price inc). fold s.
  apply rests_inv in Hrests as [Hpos _].
  assert (levels_of s (match_book b inc st) = ms_levels st) as ->.
  { unfold match_book. subst s. destruct (side inc); done. }
  apply beyond_all; [done|apply Ho|congruence|].
  pose proof (match_iter_case clock st) as Hcase.
  rewrite (Hbreak st ltac:(lia) eq_refl) in Hcase.
  inversion Hcase as [[Hle|Hbd]| | |]; rewrite Hi in *; [simpl in *; lia|].
  intros l ls Hls. by rewrite <- (beyond_set_remaining inc r), (Hbd l ls Hls).
Qed.

Lemma matchOrder_keeps clock b inc :
  book_wf b -> incoming_wf inc ->
  book_wf (mo_book (matchOrder clock b inc)) /\
  (uncrossed b -> uncrossed (mo_book (matchOrder clock b inc))).
Proof.
  intros Hwf Hinc. unfold matchOrder. destruct (_ && _); [done|].
  pose proof (stp_phase_keeps b inc Hwf) as [Hwf' Hun'].
  destruct (stp_phase b inc) as [b' [|]]; simpl in *; [done|].
  destruct (match_phase_keeps clock b' inc Hwf' Hinc). auto.
Qed.

(** ** replaceOrder *)

Lemma located_wf b s i j o :
  book_wf b -> order_at (levels_of s b) i j = Some o -> order_wf o.
Proof.
  intros Hwf Hat. apply (book_wf_side s b) in Hwf as (Hs & _). unfold side_wf in Hs.
  apply order_at_zip in Hat as (ls1 & lp & os1 & os2 & ls2 & Hls & _ & _).
  destruct (levels_wf_flat s (levels_of s b) o Hs) as [(_ & _ & ?) _]; [|done].
  rewrite Hls, flat_app, flat_cons. simpl. rewrite !elem_of_app, elem_of_cons. auto.
Qed.

(** The quantities of the amended or re-entering order. *)
Lemma replaced_quantity o new_qty :
  order_wf o -> in_u32 new_qty -> u32 (quantity o - remaining_quantity o) <= new_qty ->
  u32 (quantity o - remaining_quantity o) = quantity o - remaining_quantity o /\
  u32 (new_qty - u32 (quantity o - remaining_quantity o)) =
    new_qty - (quantity o - remaining_quantity o) /\
  0 <= new_qty - (quantity o - remaining_quantity o) <= new_qty.
Proof.
  intros (_ & Hq & Hr) Hn. rewrite (u32_small (quantity o - _)) by (unfold_int; lia).
  intros Hle. rewrite u32_small by (unfold_int; lia). lia.
Qed.

Lemma valid_price_guard p new_qty :
  0 < new_qty -> (0 <? new_qty) && (negb (isfinite p) || dle p d_zero) = false ->
  valid_price p = true.
Proof.
  intros Hn. rewrite (proj2 (Z.ltb_lt 0 new_qty)) by done.
  destruct p as [[]|[]| |[] m e]; simpl; auto.
Qed.

(** The order a replacement puts in comes in well formed. *)
Lemma reentry_wf old id p qty prio now :
  order_wf old -> in_u32 qty -> 0 < qty -> valid_price p = true ->
  u32 (quantity old - remaining_quantity old) <= qty ->
  incoming_wf (reentry_order old id p qty (u32 (quantity old - remaining_quantity old)) prio now).
Proof.
  intros Ho Hq Hpos Hp Hle. destruct (replaced_quantity old qty Ho Hq) as (_ & Hr & Hb); [lia|].
  unfold reentry_order. split; simpl; [by right|]. split; [done|]. rewrite Hr. lia.
Qed.

Lemma replaceOrder_keeps clock now b id p qty prio :
  in_u32 qty -> book_wf b ->
  book_wf (replaceOrder clock now b id p qty prio).1 /\
  (uncrossed b -> uncrossed (replaceOrder clock now b id p qty prio).1).
Proof.
  intros Hq Hwf. unfold replaceOrder.
  destruct ((0 <? qty) && (negb (isfinite p) || dle p d_zero)) eqn:Hguard; [done|].
  destruct (locate b id) as [[[s i] j]|] eqn:Hl; [|done].
  destruct (order_at _ i j) as [o|] eqn:Hat; [|done].
  pose proof (located_wf b s i j o Hwf Hat) as Ho.
  unfold replaceInLevel. cbv zeta.
  destruct ((0 <? qty) && (qty <? u32 (quantity o - remaining_quantity o))) eqn:Hfilled; [done|].
  pose proof (erase_keeps b id s i j Hl) as [Hew Heu].
  destruct (Z.eqb_spec qty 0) as [|Hne]; [split; auto|].
  assert (0 < qty) as Hpos by (unfold_int; lia).
  rewrite (proj2 (Z.ltb_lt 0 qty) Hpos) in Hfilled. simpl in Hfilled. apply Z.ltb_ge in Hfilled.
  destruct (replaced_quantity o qty Ho Hq) as (Hf & Hr & Hb); [lia|].
  destruct (deq p (price o) && (qty <? quantity o)).
  - destruct (update_keeps b id s i j o (amend_order o qty (u32 (quantity o - remaining_quantity o)) now)
      Hl Hat); [|split; auto].
    intros lp (Hp & Hs & Hv & _). unfold amend_order. split; [done|]. split; [done|].
    split; [done|]. simpl. rewrite Hr. split; [done|lia].
  - match goal with |- context [if ?c then _ else _] => destruct c end; [split; auto|]. simpl.
    pose proof (reentry_wf o id p qty prio now Ho Hq Hpos (valid_price_guard _ _ Hpos Hguard) Hfilled) as Ho'.
    destruct (matchOrder_keeps clock _ _ (Hew Hwf) Ho'). auto.
Qed.

(** ** Reachable books *)

Lemma OrderBook_new_wf capacity : 0 <= capacity -> book_wf (OrderBook_new capacity).
Proof. intros. split_and!; simpl; auto with trading. unfold order_slots. simpl. lia. Qed.

Lemma reachable_inv clock capacity b :
  0 <= capacity -> reachable clock capacity b -> book_wf b /\ uncrossed b.
Proof.
  intros Hc. induction 1 as [|b inc H IH Hi|b id H IH|b now id p qty prio H IH Hq|b id qty H IH Hq|b p H IH].
  - split; [by apply OrderBook_new_wf|constructor].
  - destruct IH as [Hw Hu]. destruct (matchOrder_keeps clock b inc Hw Hi). auto.
  - destruct IH as [Hw Hu]. destruct (cancelOrder_keeps b id). auto.
  - destruct IH as [Hw Hu]. destruct (replaceOrder_keeps clock now b id p qty prio Hq Hw). auto.
  - destruct IH as [Hw Hu]. destruct (applyFill_keeps b id qty Hq). auto.
  - done.
Qed.
