(* ===== verification/BookSpec.v ===== *)
(** * BookSpec: the scans and the phases of matchOrder against the greedy specification

    The pre-match scans ([canFullyFill], [wouldSelfTrade]) as statements about the greedy fills
    of the marketable orders, and [matchOrder] as a whole. *)

From Stdlib Require Import ZArith Lia Bool Sorted.
From stdpp Require Import base tactics decidable numbers option list sorting.
From S2P Require Import Prelude.
From S2P Require Import Double.
From S2P Require Import Order.
From S2P Require Import OrderBook.
From S2P Require Import BookLevels.
From S2P Require Import BookMatch.
From S2P Require Import BookInv.

Local Open Scope Z_scope.

(** ** Definitions *)

(** The orders an incoming order may trade with, in priority order. *)
Definition candidates (b : OrderBook) (inc : Order) : list Order :=
  flat (marketable inc (levels_of (opposite (side inc)) b)).

Definition fills_of (b : OrderBook) (inc : Order) : list (Order * Z) :=
  (greedy (remaining_quantity inc) (candidates b inc)).1.1.

Definition same_trader (inc : Order) (f : Order * Z) : Prop := trader_id f.1 = trader_id inc.

Definition quantities_ok (os : list Order) : Prop :=
  Forall (fun o => 0 <= remaining_quantity o <= UINT32_MAX) os.

(** ** Greedy filling *)

Section Greedy.
Implicit Types (os rest : list Order) (fs : list (Order * Z)).

Lemma greedy_sums rem os fs rest r :
  0 <= rem -> Forall (fun o => 0 <= remaining_quantity o) os -> greedy rem os = (fs, rest, r) ->
  sum_by snd fs + r = rem /\ 0 <= r /\
  sum_by remaining_quantity rest + sum_by snd fs = sum_by remaining_quantity os /\
  (0 < r -> rest = []).
Proof.
  intros Hrem Hos. revert rem fs rest r Hrem.
  induction Hos as [|o os Ho Hos IH]; intros rem fs rest r Hrem; simpl.
  { intros [= <- <- <-]. simpl. split_and!; auto; zsolve. }
  destruct (Z.leb_spec rem 0).
  { intros [= <- <- <-]. simpl. split_and!; auto; zsolve. }
  destruct (Z.eqb_spec (remaining_quantity o) 0) as [Hz|Hz].
  { intros Hg. destruct (IH _ _ _ _ Hrem Hg) as (? & ? & ? & ?). split_and!; auto; zsolve. }
  destruct (Z.leb_spec (remaining_quantity o) rem).
  - destruct (greedy (rem - remaining_quantity o) os) as [[fs' rest'] r'] eqn:Hg.
    intros [= <- <- <-]. destruct (IH (rem - remaining_quantity o) _ _ _ ltac:(lia) Hg) as (? & ? & ? & ?).
    simpl. split_and!; auto; zsolve.
  - intros [= <- <- <-]. simpl. split_and!; auto; zsolve.
Qed.

Lemma greedy_fill_in rem os fs rest r :
  greedy rem os = (fs, rest, r) -> Forall (fun o => 0 <= remaining_quantity o) os ->
  Forall (fun f => f.1 ∈ os /\ 0 < f.2 <= remaining_quantity f.1) fs.
Proof.
  revert rem fs rest r. induction os as [|o os IH]; intros rem fs rest r; simpl.
  { by intros [= <- <- <-]. }
  intros Hg Hos. apply Forall_cons in Hos as [Ho Hos]. revert Hg.
  assert (Hmono : forall fs', Forall (fun f => f.1 ∈ os /\ 0 < f.2 <= remaining_quantity f.1) fs' ->
    Forall (fun f => f.1 ∈ o :: os /\ 0 < f.2 <= remaining_quantity f.1) fs').
  { intros fs' HF. eapply Forall_impl; [exact HF|]. simpl. intros f [? ?].
    rewrite elem_of_cons. auto. }
  destruct (Z.leb_spec rem 0); [by intros [= <- <- <-]|].
  destruct (Z.eqb_spec (remaining_quantity o) 0); [eauto|].
  destruct (Z.leb_spec (remaining_quantity o) rem).
  - destruct (greedy _ os) as [[fs' rest'] r'] eqn:Hg. intros [= <- <- <-].
    constructor; [|eauto]. simpl. rewrite elem_of_cons. split; [auto|lia].
  - intros [= <- <- <-]. constructor; [|constructor]. simpl. rewrite elem_of_cons.
    split; [auto|lia].
Qed.

Lemma greedy_ids rem os fs rest r :
  greedy rem os = (fs, rest, r) -> sublist (order_id <$> rest) (order_id <$> os).
Proof.
  revert rem fs rest r. induction os as [|o os IH]; intros rem fs rest r; simpl.
  { by intros [= <- <- <-]. }
  destruct (rem <=? 0); [by intros [= <- <- <-]|].
  destruct (_ =? 0); [intros Hg; apply sublist_cons; eauto|].
  destruct (_ <=? rem); [|by intros [= <- <- <-]].
  destruct (greedy _ os) as [[fs' rest'] r'] eqn:Hg. intros [= <- <- <-].
  apply sublist_cons. eauto.
Qed.

Lemma greedy_remaining rem os :
  0 <= rem -> Forall (fun o => 0 <= remaining_quantity o) os ->
  (greedy rem os).2 = Z.max 0 (rem - sum_by remaining_quantity os).
Proof.
  intros Hrem Hos. revert rem Hrem.
  induction Hos as [|o os Ho Hos IH]; intros rem Hrem; simpl; [lia|].
  pose proof (sum_by_nonneg remaining_quantity os Hos).
  destruct (Z.leb_spec rem 0); [simpl; lia|].
  destruct (Z.eqb_spec (remaining_quantity o) 0); [rewrite IH by done; lia|].
  destruct (Z.leb_spec (remaining_quantity o) rem) as [Hle|]; [|simpl; lia].
  specialize (IH (rem - remaining_quantity o) ltac:(lia)).
  destruct (greedy _ os) as [[fs rest] r]. simpl in *. lia.
Qed.
End Greedy.

(** ** The scans *)

Lemma fill_scan_app needed available os1 os2 :
  fill_scan needed available (os1 ++ os2) =
  match fill_scan needed available os1 with
  | inl u => inl u
  | inr available => fill_scan needed available os2
  end.
Proof.
  revert available. induction os1 as [|o os1 IH]; intros available; simpl; [done|].
  destruct (_ <=? _); auto.
Qed.

Lemma fill_scan_levels_flat inc needed available ls :
  fill_scan_levels inc needed available ls =
  match fill_scan needed available (flat (marketable inc ls)) with
  | inl _ => true
  | inr _ => false
  end.
Proof.
  revert available. induction ls as [|l ls IH]; intros available; simpl; [done|].
  destruct (beyond inc (lprice l)); [done|].
  rewrite flat_cons, fill_scan_app. destruct (fill_scan _ _ (orders l)); auto.
Qed.

(** No wrap-around: the running sum is the sum. *)
Lemma fill_scan_sum needed available os :
  Forall (fun o => 0 <= remaining_quantity o) os -> 0 <= available < needed ->
  available + sum_by remaining_quantity os <= UINT64_MAX ->
  fill_scan needed available os =
    if needed <=? available + sum_by remaining_quantity os then inl ()
    else inr (available + sum_by remaining_quantity os).
Proof.
  intros Hos. revert available. induction Hos as [|o os Ho Hos IH]; intros available Hav Hmax; simpl in *.
  { rewrite Z.add_0_r. destruct (Z.leb_spec needed available); [lia|done]. }
  pose proof (sum_by_nonneg remaining_quantity os Hos).
  rewrite u64_small by (unfold in_u64; lia).
  destruct (Z.leb_spec needed (available + remaining_quantity o)).
  - rewrite (proj2 (Z.leb_le needed _)) by lia. done.
  - rewrite IH by lia. by rewrite Z.add_assoc.
Qed.

Lemma self_scan_app trader r os1 os2 :
  self_scan trader r (os1 ++ os2) =
  match self_scan trader r os1 with inl a => inl a | inr r => self_scan trader r os2 end.
Proof.
  revert r. induction os1 as [|o os1 IH]; intros r; simpl; [done|].
  destruct (remaining_quantity o =? 0); [done|]. destruct (_ =? trader); [done|].
  destruct (_ =? 0); auto.
Qed.

Lemma self_scan_levels_flat inc r ls :
  self_scan_levels inc r ls =
  match self_scan (trader_id inc) r (flat (marketable inc ls)) with inl a => a | inr _ => false end.
Proof.
  revert r. induction ls as [|l ls IH]; intros r; simpl; [done|].
  destruct (beyond inc (lprice l)); [done|].
  rewrite flat_cons, self_scan_app. destruct (self_scan _ _ (orders l)); auto.
Qed.

(** The scan predicts a trade of a trader with himself exactly. *)
Lemma self_scan_greedy trader r os :
  0 < r -> Forall (fun o => 0 <= remaining_quantity o) os ->
  match self_scan trader r os with inl a => a | inr _ => false end = true <->
  Exists (fun f => trader_id f.1 = trader) (greedy r os).1.1.
Proof.
  intros Hr Hos. revert r Hr. induction Hos as [|o os Ho Hos IH]; intros r Hr; simpl.
  { by rewrite Exists_nil. }
  rewrite (proj2 (Z.leb_gt r 0)) by lia.
  destruct (Z.eqb_spec (remaining_quantity o) 0); [auto|].
  destruct (Z.eqb_spec (trader_id o) trader) as [Ht|Ht].
  - split; [intros _|done]. destruct (remaining_quantity o <=? r).
    + destruct (greedy _ os) as [[fs rest] r']. by constructor.
    + by constructor.
  - destruct (Z.leb_spec (remaining_quantity o) r).
    + rewrite Z.min_r by done.
      assert (Hcons : forall fs, Exists (fun f : Order * Z => trader_id f.1 = trader)
        ((o, remaining_quantity o) :: fs) <-> Exists (fun f => trader_id f.1 = trader) fs).
      { intros fs. rewrite Exists_cons. simpl. tauto. }
      destruct (Z.eqb_spec (r - remaining_quantity o) 0) as [Hz|Hz].
      * rewrite Hz, greedy_zero. simpl. rewrite Hcons, Exists_nil. by split.
      * rewrite IH by lia. destruct (greedy _ os) as [[fs rest] r']. simpl. by rewrite Hcons.
    + rewrite Z.min_l, Z.sub_diag by lia. simpl. rewrite Exists_cons, Exists_nil. simpl.
      split; [done|tauto].
Qed.

(** ** Candidates of a well-formed book *)

Lemma candidates_wf b inc :
  book_wf b -> Forall (fun o => 0 <= remaining_quantity o <= UINT32_MAX) (candidates b inc).
Proof.
  intros Hwf. apply (book_wf_side (opposite (side inc))) in Hwf as (Hs & _).
  unfold side_wf in Hs. rewrite Forall_forall. intros o Ho.
  destruct (levels_wf_flat _ (levels_of (opposite (side inc)) b) o Hs) as [(_ & _ & _ & Hq & Hr) _];
    [|unfold_int; lia].
  rewrite (marketable_split inc (levels_of (opposite (side inc)) b)), flat_app, elem_of_app. auto.
Qed.

Lemma candidates_nonneg b inc :
  book_wf b -> Forall (fun o => 0 <= remaining_quantity o) (candidates b inc).
Proof. intros Hwf. eapply Forall_impl; [by apply candidates_wf|]. simpl. lia. Qed.

Lemma candidates_length b inc :
  book_wf b -> Z.of_nat (length (candidates b inc)) <= pool_capacity_ b.
Proof.
  intros Hwf. apply (book_wf_side (opposite (side inc))) in Hwf as (_ & _ & Hp & Hav).
  unfold slots_of in Hp. unfold candidates.
  rewrite (marketable_split inc (levels_of (opposite (side inc)) b)), flat_app, length_app in Hp. lia.
Qed.
