(* ===== verification/BookFacts.v ===== *)
(** * BookFacts: matchOrder as a whole

    Conservation and price limits through the loop, the phases before the loop, and
    [matchOrder] against the greedy specification. *)

From Stdlib Require Import ZArith Lia Bool Sorted.
From stdpp Require Import base tactics decidable numbers option list sorting.
From S2P Require Import Prelude.
From S2P Require Import Double.
From S2P Require Import Order.
From S2P Require Import OrderBook.
From S2P Require Import BookLevels.
From S2P Require Import BookMatch.
From S2P Require Import BookInv.
From S2P Require Import BookSpec.

Local Open Scope Z_scope.

(** ** Trades *)

(** A trade an incoming order may make: positive quantity, at the price of a level of the
    other side that its limit accepts, with the incoming order on its own side. *)
Definition trade_within (b : OrderBook) (inc : Order) (t : Trade) : Prop :=
  0 < trade_quantity t /\
  beyond inc (trade_price t) = false /\
  (exists l, l ∈ levels_of (opposite (side inc)) b /\ lprice l = trade_price t) /\
  match side inc with
  | BUY => buy_order_id t = order_id inc /\ buy_trader_id t = trader_id inc
  | SELL => sell_order_id t = order_id inc /\ sell_trader_id t = trader_id inc
  end.

Definition self_trade (t : Trade) : Prop := buy_trader_id t = sell_trader_id t.

Lemma trade_within_weaken b b' inc inc' r t :
  (forall l, l ∈ levels_of (opposite (side inc)) b' ->
     exists l0, l0 ∈ levels_of (opposite (side inc)) b /\ lprice l = lprice l0) ->
  inc' = set_remaining inc r -> trade_within b' inc' t -> trade_within b inc t.
Proof.
  intros Hin -> (Hq & Hb & (l & Hl & Hp) & Hs). simpl in *. split_and!; auto.
  destruct (Hin l Hl) as (l0 & Hl0 & Heq). exists l0. split; congruence.
Qed.

Lemma fill_trades_sum clock inc tid fs :
  sum_by trade_quantity (fill_trades clock inc tid fs) = sum_by snd fs.
Proof.
  revert tid. induction fs as [|[r q] fs IH]; intros tid; simpl; [done|].
  rewrite IH. by destruct (side inc).
Qed.

Lemma fill_trades_self clock inc tid fs :
  Forall (fun f => ~ same_trader inc f) fs ->
  Forall (fun t => ~ self_trade t) (fill_trades clock inc tid fs).
Proof.
  unfold same_trader, self_trade. intros HF. revert tid.
  induction HF as [|[r q] fs Hf HF IH]; intros tid; simpl; constructor; auto.
  simpl in Hf. destruct (side inc); simpl; congruence.
Qed.

Definition conserved (b : OrderBook) (inc : Order) (st : MatchState) : Prop :=
  loop_inv (opposite (side inc)) (match_start b inc) st /\
  sum_by trade_quantity (ms_trades st) + remaining_quantity (ms_incoming st) =
    remaining_quantity inc /\
  Forall (trade_within b inc) (ms_trades st).

Lemma make_trade_within b inc r tid lp q now t :
  make_trade inc r tid lp q now = Ok t -> 0 < q -> beyond inc lp = false ->
  (exists l, l ∈ levels_of (opposite (side inc)) b /\ lprice l = lp) ->
  trade_quantity t = q /\ trade_within b inc t.
Proof.
  intros Ht Hq Hb Hl. unfold make_trade, trade_within in *.
  destruct (side inc); apply Trade_new_inv in Ht as [-> _]; simpl; split_and!; auto.
Qed.

Lemma conserved_turn clock b inc st st' :
  conserved b inc st -> match_iter clock st = Continue st' -> conserved b inc st'.
Proof.
  intros (Hinv & Hsum & HF) Hit.
  split; [eapply loop_inv_turn; eauto|].
  destruct Hinv as (Hwf & (r0 & Hinc & Hr0) & _ & _ & Hin). simpl in Hinc.
  pose proof (match_iter_case clock st) as Hcase. rewrite Hit in Hcase.
  inversion Hcase as [|l ls n Hls Hpos Hb Hp|l ls r os n t Hls Hpos Hb Hp Ht q|];
    subst st'; simpl; [done|].
  destruct (Hin l) as (l0 & Hl0 & Hlp); [rewrite Hls, elem_of_cons; auto|].
  rewrite Hls in Hwf. pose proof (level_popped _ _ _ _ _ Hwf Hp) as HF'.
  apply Forall_cons in HF' as [(_ & _ & _ & _ & Hr) _].
  apply pop_filled_spec in Hp as (_ & _ & _ & _ & Hne). specialize (Hne r os eq_refl).
  assert (0 < q) by (subst q; unfold trade_qty; lia).
  destruct (make_trade_within b _ _ _ _ _ _ _ Ht ltac:(done) Hb) as [Hq Hw].
  { rewrite Hinc. simpl. exists l0. split; [exact Hl0|congruence]. }
  rewrite sum_by_app, Forall_app. simpl. split; [fold q in Hq; lia|]. split; [done|].
  constructor; [|done]. eapply trade_within_weaken; [|exact Hinc|exact Hw]. eauto.
Qed.

Lemma match_phase_conserved clock b inc ts :
  book_wf b -> incoming_wf inc -> mo_result (match_phase clock b inc) = Ok ts ->
  sum_by trade_quantity ts + remaining_quantity (mo_incoming (match_phase clock b inc)) =
    remaining_quantity inc /\
  Forall (trade_within b inc) ts.
Proof.
  intros Hwf Hinc. unfold match_phase.
  pose proof (match_start_inv _ b inc Hwf Hinc eq_refl) as Hstart.
  destruct (match_loop _ clock (match_start b inc)) as [st|st e] eqn:Hl; simpl; [|done].
  intros [= <-].
  eapply (match_loop_finished clock (conserved b inc)) in Hl as (_ & ? & ?); [auto| |].
  - intros. eapply conserved_turn; eauto.
  - split_and!; [done|simpl; lia|constructor].
Qed.

(** ** The phases before the loop *)

Lemma stp_phase_levels b inc l :
  book_wf b -> l ∈ levels_of (opposite (side inc)) (stp_phase b inc).1 ->
  exists l0, l0 ∈ levels_of (opposite (side inc)) b /\ lprice l = lprice l0.
Proof.
  intros Hwf. apply (book_wf_side (opposite (side inc))) in Hwf as (Hs & _).
  unfold stp_phase. destruct (_ && _); [|simpl; eauto].
  destruct (stp_policy_ b); [simpl; eauto|simpl; eauto| |];
    destruct (stp_levels _ _ _ _) as [ls n] eqn:Hst; simpl; autorewrite with trading;
    apply (stp_levels_spec _ _ _ _ _ _ _ Hs) in Hst as (_ & _ & _ & Hin); apply Hin.
Qed.

(** Without the block for self-trades [matchOrder] is the loop on the book itself. *)
Lemma stp_phase_skip b inc :
  stp_policy_ b = NONE \/ wouldSelfTrade b inc = false -> stp_phase b inc = (b, false).
Proof.
  unfold stp_phase. intros [->| ->]; [by rewrite bool_decide_true|by rewrite andb_false_r].
Qed.

Lemma stp_phase_stops b inc :
  stp_policy_ b = CANCEL_NEWEST \/ stp_policy_ b = CANCEL_BOTH ->
  (stp_phase b inc).2 = true \/ (stp_phase b inc = (b, false) /\ wouldSelfTrade b inc = false).
Proof.
  unfold stp_phase. destruct (wouldSelfTrade b inc) eqn:Hw.
  - intros [->| ->]; rewrite bool_decide_false by done; simpl; [by left|].
    left. by destruct (stp_levels _ _ _ _).
  - rewrite andb_false_r. auto.
Qed.

Lemma matchOrder_loop clock b inc :
  (type inc = FOK -> canFullyFill b inc = true) -> stp_phase b inc = (b, false) ->
  matchOrder clock b inc = match_phase clock b inc.
Proof.
  intros Hf Hs. unfold matchOrder. rewrite Hs. case_bool_decide; simpl; [|done].
  by rewrite Hf.
Qed.

(** The loop on a well-formed book is the greedy filling of its candidates. *)
Lemma match_phase_greedy clock b inc :
  book_wf b -> incoming_wf inc -> no_throw inc (next_trade_id_ b) (candidates b inc) ->
  exists st,
    match_loop (S (match_measure (match_start b inc))) clock (match_start b inc) = Finished st /\
    let '(fs, rest, r) := greedy (remaining_quantity inc) (candidates b inc) in
    ms_incoming st = set_remaining inc r /\
    ms_trades st = fill_trades clock inc (next_trade_id_ b) fs /\
    flat (ms_levels st) = rest ++ flat (unmarketable inc (levels_of (opposite (side inc)) b)) /\
    ms_next_trade_id st = next_trade_id_ b + Z.of_nat (length fs) /\
    ms_freed st = Z.of_nat (length (candidates b inc)) - Z.of_nat (length rest).
Proof.
  intros Hwf Hinc Hno. pose proof (match_start_inv _ b inc Hwf Hinc eq_refl) as Hstart.
  pose proof (match_loop_greedy clock (opposite (side inc)) (S (match_measure (match_start b inc)))
    (match_start b inc)) as Hg. unfold loop_refines in Hg. simpl in Hg.
  pose proof (match_loop_loop_inv clock _ (S (match_measure (match_start b inc))) _ Hstart) as Hinv.
  fold (candidates b inc) in Hg.
  destruct (greedy _ (candidates b inc)) as [[fs rest] r].
  destruct Hg as (st & Hl & Hi & Ht & Hf & Hn); [lia| | |auto|].
  { by destruct Hstart. }
  { destruct Hinc as (_ & _ & ?). lia. }
  exists st. simpl in Hl, Hinv. rewrite Hl in Hinv.
  destruct Hinv as (_ & _ & Hfr & _). simpl in Hfr.
  split_and!; auto.
  rewrite (marketable_split inc (levels_of (opposite (side inc)) b)) in Hfr.
  rewrite Hf, flat_app, !length_app in Hfr. unfold candidates. lia.
Qed.

(** ** The sides of the book after the loop *)

Lemma match_book_sides b inc st :
  levels_of (side inc) (match_book b inc st) = levels_of (side inc) b /\
  levels_of (opposite (side inc)) (match_book b inc st) = ms_levels st /\
  pool_available_ (match_book b inc st) = pool_available_ b + ms_freed st /\
  next_trade_id_ (match_book b inc st) = ms_next_trade_id st.
Proof. unfold match_book. by destruct (side inc). Qed.

Lemma findLevel_levels s b b' p : levels_of s b = levels_of s b' -> findLevel s b p = findLevel s b' p.
Proof. destruct s; simpl; unfold findBidLevel, findAskLevel; by intros ->. Qed.

Lemma addOrder_levels b o :
  quantity o <> 0 -> remaining_quantity o <> 0 ->
  levels_of (side o) (addOrder b o).1 =
    if 0 <? pool_available_ b then push_order (levels_of (side o) b) (findLevel (side o) b (price o)) o
    else levels_of (side o) b.
Proof.
  intros Hq Hr. unfold addOrder.
  rewrite (proj2 (Z.eqb_neq _ _) Hq), (proj2 (Z.eqb_neq _ _) Hr), Z.leb_antisym. simpl.
  destruct (0 <? pool_available_ b); simpl; [|done]. by autorewrite with trading.
Qed.

(** ** The scan for a full fill *)

Lemma stp_phase_fok b inc :
  stp_policy_ b <> CANCEL_OLDEST -> (stp_phase b inc).2 = true \/ stp_phase b inc = (b, false).
Proof.
  intros Hp. destruct (decide (stp_policy_ b = NONE)) as [Hn|Hn].
  { right. apply stp_phase_skip. by left. }
  destruct (stp_phase_stops b inc) as [?|[? _]]; auto. destruct (stp_policy_ b); auto; done.
Qed.

Lemma sum_by_bound {A} (f : A -> Z) m l :
  Forall (fun x => 0 <= f x <= m) l -> 0 <= sum_by f l <= m * Z.of_nat (length l).
Proof. induction 1; simpl sum_by; simpl length; [lia|]. nia. Qed.

Lemma canFullyFill_sum b inc :
  book_wf b -> pool_capacity_ b <= UINT32_MAX -> 0 <= remaining_quantity inc ->
  canFullyFill b inc = true ->
  remaining_quantity inc <= sum_by remaining_quantity (candidates b inc).
Proof.
  intros Hwf Hcap Hr. unfold canFullyFill. rewrite fill_scan_levels_flat.
  fold (candidates b inc). pose proof (candidates_nonneg b inc Hwf) as Hnn.
  pose proof (sum_by_bound _ _ _ (candidates_wf b inc Hwf)) as Hb.
  pose proof (candidates_length b inc Hwf) as Hlen.
  destruct (Z.eq_dec (remaining_quantity inc) 0) as [->|Hne]; [lia|].
  rewrite fill_scan_sum; [|done|lia|unfold_int; nia].
  destruct (Z.leb_spec (remaining_quantity inc) (0 + sum_by remaining_quantity (candidates b inc)));
    [lia|done].
Qed.

Lemma match_loop_raised clock fuel st st' e :
  match_loop fuel clock st = Raised st' e -> exists st0, match_iter clock st0 = Raise st' e.
Proof.
  revert st. induction fuel as [|fuel IH]; intros st; simpl; [done|].
  destruct (match_iter clock st) as [st1|st1|st1 e1] eqn:Hit; [apply IH|done|].
  intros [= <- <-]. eauto.
Qed.

(** ** The scan for a self-trade, and the lookups *)

Lemma wouldSelfTrade_greedy b inc :
  book_wf b -> incoming_wf inc ->
  Exists (same_trader inc) (fills_of b inc) -> wouldSelfTrade b inc = true.
Proof.
  intros Hwf (_ & _ & Hr & _) Hex. pose proof (candidates_nonneg b inc Hwf) as Hnn.
  unfold wouldSelfTrade. rewrite self_scan_levels_flat. fold (candidates b inc).
  destruct (Z.eq_dec (remaining_quantity inc) 0) as [Hz|Hz].
  - unfold fills_of in Hex. rewrite Hz, greedy_zero in Hex. by inversion Hex.
  - by apply self_scan_greedy; [lia| |].
Qed.

Lemma locate_None b id :
  locate b id = None -> Forall (fun o => order_id o <> id) (flat (bids_ b) ++ flat (asks_ b)).
Proof.
  unfold locate. destruct (find_order id (bids_ b)) as [[]|] eqn:Hb; [done|].
  destruct (find_order id (asks_ b)) as [[]|] eqn:Ha; [done|]. intros _.
  apply find_order_None in Hb, Ha. by apply Forall_app.
Qed.

Lemma locate_bids_first b id i j :
  locate b id = Some (SELL, i, j) -> Forall (fun o => order_id o <> id) (flat (bids_ b)).
Proof.
  unfold locate. destruct (find_order id (bids_ b)) as [[]|] eqn:Hb; [done|]. intros _.
  by apply find_order_None.
Qed.

Lemma valid_price_accepted p qty :
  valid_price p = true -> (0 <? qty) && (negb (isfinite p) || dle p d_zero) = false.
Proof. intros Hp. price_inv. by rewrite andb_false_r. Qed.

Lemma invalid_price_rejected p qty :
  (0 <? qty) && (negb (isfinite p) || dle p d_zero) = true -> 0 < qty /\ valid_price p = false.
Proof.
  intros H. apply andb_true_iff in H as [Hq Hp]. split; [by apply Z.ltb_lt|].
  destruct (valid_price p) eqn:Hv; [|done]. price_inv. done.
Qed.

(** ** Prices of a side *)

Lemma levels_wf_shrink_tail s lp os ls : levels_wf s (shrink lp os ls) -> levels_wf s ls.
Proof. destruct os; simpl; [done|]. by intros (_ & _ & ?)%levels_wf_cons. Qed.

Lemma shrink_same_price s ls1 lp os ls2 :
  levels_wf s (ls1 ++ shrink lp os ls2) ->
  Forall (fun o => better s lp (price o) = false) os.
Proof.
  intros (_ & Hs & _)%levels_wf_app. destruct os as [|o os]; [constructor|].
  apply levels_wf_cons in Hs as ((_ & _ & HF) & _). eapply Forall_impl; [exact HF|].
  simpl. intros x (Hx & _). rewrite Hx. apply better_irrefl.
Qed.

(** A test on the prices of the levels is one on the prices of their orders. *)
Lemma flat_prices s ls (P Q : double -> Prop) :
  levels_wf s ls -> Forall (fun l => P (lprice l)) ls ->
  (forall x, valid_price x = true -> P x -> Q x) ->
  Forall (fun o => Q (price o)) (flat ls).
Proof.
  intros Hwf HP Himp. rewrite Forall_forall. intros o Ho.
  induction ls as [|l ls IH]; [by apply not_elem_of_nil in Ho|].
  apply levels_wf_cons in Hwf as ((_ & Hv & HF) & _ & Hwf).
  apply Forall_cons in HP as [HP1 HP]. rewrite flat_cons, elem_of_app in Ho.
  destruct Ho as [Ho|Ho]; [|auto].
  rewrite Forall_forall in HF. destruct (HF o Ho) as (-> & _). auto.
Qed.

(** ** What the phases leave alone *)

Lemma stp_phase_same_side b inc : levels_of (side inc) (stp_phase b inc).1 = levels_of (side inc) b.
Proof.
  unfold stp_phase. destruct (_ && _); [|done].
  destruct (stp_policy_ b); [done|done| |]; destruct (stp_levels _ _ _ _); by destruct (side inc).
Qed.

Lemma match_loop_type clock fuel st st' :
  match_loop fuel clock st = Finished st' -> type (ms_incoming st) = type (ms_incoming st').
Proof.
  intros Hl. symmetry. revert Hl.
  apply (match_loop_finished clock (fun st1 => type (ms_incoming st1) = type (ms_incoming st)));
    [|done].
  intros st1 st2 H Hit. pose proof (match_iter_case clock st1) as Hcase. rewrite Hit in Hcase.
  by inversion Hcase; subst.
Qed.

(** ** matchOrder as a whole *)

Lemma matchOrder_sums clock b inc ts :
  book_wf b -> incoming_wf inc -> mo_result (matchOrder clock b inc) = Ok ts ->
  sum_by trade_quantity ts + remaining_quantity (mo_incoming (matchOrder clock b inc)) =
    remaining_quantity inc /\
  Forall (trade_within b inc) ts.
Proof.
  intros Hwf Hinc. unfold matchOrder.
  destruct (_ && _); [intros [= <-]; simpl; split; [lia|constructor]|].
  destruct (stp_phase_keeps b inc Hwf) as [Hwf' _].
  pose proof (fun l => stp_phase_levels b inc l Hwf) as Hlv.
  destruct (stp_phase b inc) as [b' [|]]; simpl in *;
    [intros [= <-]; simpl; split; [lia|constructor]|].
  intros Hr. destruct (match_phase_conserved clock b' inc ts Hwf' Hinc Hr) as [Hsum HF].
  split; [done|]. eapply Forall_impl; [exact HF|]. intros t.
  apply (trade_within_weaken b b' inc inc (remaining_quantity inc)); [exact Hlv|].
  by rewrite set_remaining_id.
Qed.

Lemma matchOrder_greedy clock b inc :
  book_wf b -> incoming_wf inc ->
  stp_policy_ b = NONE \/ wouldSelfTrade b inc = false ->
  (type inc = FOK -> canFullyFill b inc = true) ->
  no_throw inc (next_trade_id_ b) (candidates b inc) ->
  let '(fs, rest, r) := greedy (remaining_quantity inc) (candidates b inc) in
  let out := matchOrder clock b inc in
  mo_result out = Ok (fill_trades clock inc (next_trade_id_ b) fs) /\
  mo_incoming out = set_remaining inc r /\
  flat (levels_of (opposite (side inc)) (mo_book out)) =
    rest ++ flat (unmarketable inc (levels_of (opposite (side inc)) b)) /\
  levels_of (side inc) (mo_book out) =
    (if rests (set_remaining inc r) &&
        (0 <? pool_available_ b + Z.of_nat (length (candidates b inc)))
     then push_order (levels_of (side inc) b) (findLevel (side inc) b (price inc))
            (set_remaining inc r)
     else levels_of (side inc) b) /\
  next_trade_id_ (mo_book out) = next_trade_id_ b + Z.of_nat (length fs).
Proof.
  intros Hwf Hinc Hstp Hfok Hno. pose proof (candidates_nonneg b inc Hwf) as Hnn.
  destruct (match_phase_greedy clock b inc Hwf Hinc Hno) as (st & Hl & Hst).
  rewrite (matchOrder_loop clock b inc Hfok (stp_phase_skip _ _ Hstp)).
  destruct (greedy _ (candidates b inc)) as [[fs rest] r] eqn:Hg.
  destruct Hst as (Hi & Ht & Hf & Hn & Hfr).
  destruct Hinc as (_ & Hq & Hr).
  destruct (greedy_sums _ _ _ _ _ (proj1 Hr) Hnn Hg) as (_ & _ & _ & Hrest).
  destruct (match_book_sides b inc st) as (Hsame & Hopp & Hpool & Hnext).
  unfold match_phase. rewrite Hl. cbn [mo_book mo_incoming mo_result]. rewrite Hi, Ht.
  destruct (rests (set_remaining inc r)) eqn:Hrs; cbn [andb].
  - apply rests_inv in Hrs as [Hpos _]. simpl in Hpos.
    rewrite Hrest in * by done. rewrite Z.sub_0_r in Hfr.
    destruct (addOrder_opposite (match_book b inc st) (set_remaining inc r)) as (Ho & Hnt & _).
    simpl in Ho, Hnt. rewrite Ho, Hnt, Hopp, Hf.
    change (side inc) with (side (set_remaining inc r)). rewrite addOrder_levels; cbn [quantity remaining_quantity side price set_remaining].
    + rewrite Hpool, Hfr, Hsame. split_and!; auto.
      by rewrite (findLevel_levels (side inc) (match_book b inc st) b) by done.
    + pose proof (greedy_remaining (remaining_quantity inc) _ ltac:(lia) Hnn) as Hrem.
      rewrite Hg in Hrem. simpl in Hrem. pose proof (sum_by_nonneg _ _ Hnn). lia.
    + lia.
  - rewrite Hopp, Hsame. auto.
Qed.
