(* ===== verification/BookIds.v ===== *)
(** * BookIds: the order ids of a book

    A book whose ids are distinct keeps them distinct under every operation that brings in no
    id already present; in such a book a lookup by id finds the order that carries it. *)

From Stdlib Require Import ZArith Lia Bool.
From stdpp Require Import base tactics decidable numbers option list sorting.
From S2P Require Import Prelude.
From S2P Require Import Double.
From S2P Require Import Order.
From S2P Require Import OrderBook.
From S2P Require Import BookLevels.
From S2P Require Import BookMatch.
From S2P Require Import BookInv.
From S2P Require Import BookSpec.

Local Open Scope Z_scope.

Definition ids (os : list Order) : list Z := order_id <$> os.

Definition side_ids (s : OrderSide) (b : OrderBook) : list Z := ids (flat (levels_of s b)).

Definition book_ids (b : OrderBook) : list Z := side_ids BUY b ++ side_ids SELL b.

Definition unique_ids (b : OrderBook) : Prop := NoDup (book_ids b).

Lemma ids_app os1 os2 : ids (os1 ++ os2) = ids os1 ++ ids os2.
Proof. apply fmap_app. Qed.

Lemma unique_ids_side s b : unique_ids b <-> NoDup (side_ids s b ++ side_ids (opposite s) b).
Proof. unfold unique_ids, book_ids. destruct s; simpl; [done|]. by rewrite Permutation_app_comm. Qed.

Lemma elem_of_book_ids s b id : id ∈ book_ids b <-> id ∈ side_ids s b \/ id ∈ side_ids (opposite s) b.
Proof. unfold book_ids. rewrite elem_of_app. destruct s; simpl; tauto. Qed.

Lemma not_in_ids id os : id ∉ ids os <-> Forall (fun o => order_id o <> id) os.
Proof.
  unfold ids. rewrite list_elem_of_fmap, Forall_forall. split.
  - intros H o Ho Heq. apply H. eauto.
  - intros H (o & -> & Ho). by apply (H o Ho).
Qed.

(** ** Lookups *)

Lemma getOrderById_None b id : getOrderById b id = None <-> id ∉ book_ids b.
Proof.
  unfold getOrderById. destruct (locate b id) as [[[s i] j]|] eqn:Hl.
  - destruct (locate_zip _ _ _ _ _ Hl)
      as (ls1 & lp & os1 & o & os2 & ls2 & Hls & _ & _ & Hid & Hat & _).
    cbn [mbind option_bind]. rewrite Hat. split; [done|]. intros Hnot. exfalso. apply Hnot.
    rewrite (elem_of_book_ids s). left. unfold side_ids. rewrite Hls, flat_app, flat_cons.
    unfold ids. rewrite list_elem_of_fmap. exists o. split; [done|]. simpl.
    rewrite !elem_of_app, elem_of_cons. auto.
  - split; [intros _|done]. unfold book_ids, side_ids. rewrite <- ids_app, not_in_ids.
    unfold locate in Hl. destruct (find_order id (bids_ b)) as [[]|] eqn:Hb; [done|].
    destruct (find_order id (asks_ b)) as [[]|] eqn:Ha; [done|].
    apply find_order_None in Hb, Ha. by apply Forall_app.
Qed.

Lemma getOrderById_inv b id o :
  getOrderById b id = Some o -> order_id o = id /\ exists s, o ∈ flat (levels_of s b).
Proof.
  unfold getOrderById. destruct (locate b id) as [[[s i] j]|] eqn:Hl; [|done].
  destruct (locate_zip _ _ _ _ _ Hl)
    as (ls1 & lp & os1 & o' & os2 & ls2 & Hls & _ & _ & Hid & Hat & _).
  cbn [mbind option_bind]. rewrite Hat. intros [= <-]. split; [done|]. exists s.
  rewrite Hls, flat_app, flat_cons. simpl. rewrite !elem_of_app, elem_of_cons. auto.
Qed.

Lemma NoDup_fmap_inj {A} (f : A -> Z) (l : list A) x y :
  NoDup (f <$> l) -> x ∈ l -> y ∈ l -> f x = f y -> x = y.
Proof.
  intros Hnd Hx Hy Hf. apply list_elem_of_lookup in Hx as [i Hi], Hy as [j Hj].
  assert (i = j) as ->; [|congruence].
  apply (NoDup_lookup (f <$> l) i j (f x)); [done|by rewrite list_lookup_fmap, Hi|].
  rewrite list_lookup_fmap, Hj. simpl. by rewrite Hf.
Qed.

Lemma getOrderById_unique b s o :
  unique_ids b -> o ∈ flat (levels_of s b) -> getOrderById b (order_id o) = Some o.
Proof.
  intros Hu Ho. destruct (getOrderById b (order_id o)) as [o'|] eqn:Hg.
  - apply getOrderById_inv in Hg as (Hid & s' & Ho'). f_equal.
    apply (NoDup_fmap_inj order_id (flat (levels_of s b) ++ flat (levels_of (opposite s) b)));
      [|rewrite elem_of_app; destruct s, s'; auto|rewrite elem_of_app; auto|done].
    apply (unique_ids_side s) in Hu. by rewrite fmap_app.
  - apply getOrderById_None in Hg. exfalso. apply Hg. rewrite (elem_of_book_ids s). left.
    unfold side_ids, ids. rewrite list_elem_of_fmap. eauto.
Qed.

(** ** The operations that only lose or keep ids *)

(** The ids of [b'] are a part of those of [b]. *)
Definition fewer_ids (b b' : OrderBook) : Prop :=
  (unique_ids b -> unique_ids b') /\ (forall id, id ∈ book_ids b' -> id ∈ book_ids b).

Lemma fewer_refl b : fewer_ids b b.
Proof. by split. Qed.

Lemma fewer_trans b1 b2 b3 : fewer_ids b1 b2 -> fewer_ids b2 b3 -> fewer_ids b1 b3.
Proof. unfold fewer_ids. intuition auto. Qed.

Lemma fewer_ids_side s b b' :
  sublist (side_ids s b') (side_ids s b) -> side_ids (opposite s) b' = side_ids (opposite s) b ->
  fewer_ids b b'.
Proof.
  intros Hs Ho. split.
  - rewrite !(unique_ids_side s), Ho. intros Hu. eapply sublist_NoDup; [exact Hu|].
    by apply sublist_app.
  - intros id. rewrite !(elem_of_book_ids s), Ho. intros [Hid|]; [|by right]. left.
    by eapply elem_of_sublist.
Qed.

Lemma set_levels_fewer s b ls n :
  sublist (ids (flat ls)) (side_ids s b) -> fewer_ids b (set_levels s b ls n).
Proof.
  intros Hs. apply (fewer_ids_side s); unfold side_ids; by autorewrite with trading.
Qed.

Lemma sublist_ids os1 os2 : sublist os1 os2 -> sublist (ids os1) (ids os2).
Proof. unfold ids. induction 1; simpl; by constructor. Qed.

Lemma cancelOrder_fewer b id : fewer_ids b (cancelOrder b id).1.
Proof.
  unfold cancelOrder. destruct (locate b id) as [[[s i] j]|] eqn:Hl; [|apply fewer_refl].
  destruct (locate_zip _ _ _ _ _ Hl)
    as (ls1 & lp & os1 & o & os2 & ls2 & Hls & _ & _ & _ & _ & Her & _).
  cbn [fst]. rewrite Her. apply set_levels_fewer. unfold side_ids. rewrite Hls.
  apply sublist_ids. autorewrite with trading. cbn [orders]. rewrite <- !app_assoc.
  do 2 (apply sublist_app; [done|]). simpl. by apply sublist_cons.
Qed.

Lemma update_order_fewer b id s i j o o' :
  locate b id = Some (s, i, j) -> order_at (levels_of s b) i j = Some o ->
  order_id o' = order_id o -> fewer_ids b (set_levels s b (update_order (levels_of s b) i j o') 0).
Proof.
  intros Hl Hat Hid. destruct (locate_zip _ _ _ _ _ Hl)
    as (ls1 & lp & os1 & o1 & os2 & ls2 & Hls & _ & _ & _ & Hat' & _ & Hup & _).
  rewrite Hat in Hat'. injection Hat' as <-. rewrite Hup. apply set_levels_fewer.
  unfold side_ids. rewrite Hls. autorewrite with trading. cbn [orders].
  unfold ids. by rewrite !fmap_app, !fmap_cons, Hid.
Qed.

Lemma erase_order_fewer b id s i j :
  locate b id = Some (s, i, j) ->
  fewer_ids b (set_levels s b (erase_order (levels_of s b) i j) 1).
Proof.
  intros Hl. pose proof (cancelOrder_fewer b id) as H. unfold cancelOrder in H.
  by rewrite Hl in H.
Qed.

(** An erased order is gone when the ids are distinct. *)
Lemma erased_id_gone b id s i j :
  unique_ids b -> locate b id = Some (s, i, j) ->
  id ∉ book_ids (set_levels s b (erase_order (levels_of s b) i j) 1).
Proof.
  intros Hu Hl. destruct (locate_zip _ _ _ _ _ Hl)
    as (ls1 & lp & os1 & o & os2 & ls2 & Hls & _ & _ & Hid & _ & Her & _).
  rewrite Her, (elem_of_book_ids s). unfold side_ids. autorewrite with trading.
  rewrite (unique_ids_side s) in Hu. unfold side_ids in Hu. rewrite Hls in Hu.
  autorewrite with trading in *. cbn [orders] in *.
  rewrite !ids_app in *. simpl in Hu. rewrite Hid in Hu.
  assert ((ids (flat ls1) ++ (ids os1 ++ id :: ids os2) ++ ids (flat ls2)) ++
    ids (flat (levels_of (opposite s) b)) ≡ₚ
    id :: (ids (flat ls1) ++ (ids os1 ++ ids os2) ++ ids (flat ls2)) ++
    ids (flat (levels_of (opposite s) b))) as Hperm by solve_Permutation.
  rewrite Hperm in Hu. apply NoDup_cons in Hu as [Hu _]. by rewrite elem_of_app in Hu.
Qed.

Lemma applyFill_fewer b id qty : fewer_ids b (applyFill b id qty).1.
Proof.
  unfold applyFill. destruct (_ =? 0); [apply fewer_refl|].
  destruct (locate b id) as [[[s i] j]|] eqn:Hl; [|apply fewer_refl].
  destruct (order_at _ i j) as [o|] eqn:Ho; [|apply fewer_refl].
  destruct (_ <? qty); [apply fewer_refl|]. cbv zeta.
  destruct (_ =? 0); [by eapply erase_order_fewer|by eapply update_order_fewer].
Qed.

(** ** Matching *)

Lemma turn_sublist clock st st' :
  match_iter clock st = Continue st' \/ (exists e, match_iter clock st = Raise st' e) ->
  sublist (ids (flat (ms_levels st'))) (ids (flat (ms_levels st))).
Proof.
  intros Hit. pose proof (match_iter_case clock st) as Hcase.
  destruct Hit as [Hit|[e Hit]]; rewrite Hit in Hcase;
    inversion Hcase as [|l ls n Hls Hpos Hb Hp|l ls r os n t Hls Hpos Hb Hp Ht q
                        |l ls r os n e' Hls Hpos Hb Hp Ht q]; subst; simpl;
    rewrite Hls, ?flat_cons; apply pop_filled_sublist, sublist_ids in Hp;
    rewrite ?ids_app; cbn [orders].
  - by apply sublist_inserts_l.
  - unfold after_trade. rewrite flat_shrink, ids_app. apply sublist_app; [|done].
    etransitivity; [|exact Hp]. destruct (_ =? 0); simpl; [by apply sublist_cons|done].
  - by apply (sublist_app (ids (r :: os)) (ids (orders l)) (ids (flat ls))).
Qed.

Lemma match_loop_sublist clock fuel st :
  match match_loop fuel clock st with
  | Finished st' => sublist (ids (flat (ms_levels st'))) (ids (flat (ms_levels st)))
  | Raised st' _ => sublist (ids (flat (ms_levels st'))) (ids (flat (ms_levels st)))
  end.
Proof.
  apply (match_loop_inv clock (fun st' => sublist (ids (flat (ms_levels st'))) (ids (flat (ms_levels st)))));
    [| |done]; intros st1 st2; intros; (etransitivity; [eapply turn_sublist|]; eauto).
Qed.

Lemma match_book_fewer b inc st :
  sublist (ids (flat (ms_levels st))) (side_ids (opposite (side inc)) b) ->
  fewer_ids b (match_book b inc st).
Proof. apply set_levels_fewer. Qed.

Lemma stp_levels_sublist oldest inc removed ls :
  sublist (flat (stp_levels oldest inc removed ls).1) (flat ls).
Proof.
  revert removed. induction ls as [|l ls IH]; intros removed; simpl; [done|].
  destruct (beyond inc (lprice l)); [done|].
  pose proof (stp_orders_sublist oldest (trader_id inc) (orders l)) as Ho.
  destruct (stp_orders oldest (trader_id inc) (orders l)) as [kept n]. simpl in Ho.
  specialize (IH (removed || (0 <? n))).
  assert (Hrest : sublist (flat (if oldest && (removed || (0 <? n)) then (ls, 0)
    else stp_levels oldest inc (removed || (0 <? n)) ls).1) (flat ls))
    by (destruct (oldest && _); [done|exact IH]).
  destruct (if oldest && _ then _ else _) as [rest m]. simpl in *.
  change (sublist (flat (shrink (lprice l) kept rest)) (flat (l :: ls))).
  rewrite flat_shrink, flat_cons. by apply sublist_app.
Qed.

Lemma stp_phase_fewer b inc : fewer_ids b (stp_phase b inc).1.
Proof.
  unfold stp_phase. destruct (_ && _); [|apply fewer_refl].
  destruct (stp_policy_ b); [apply fewer_refl|apply fewer_refl| |].
  - pose proof (stp_levels_sublist true inc false (levels_of (opposite (side inc)) b)) as Hs.
    destruct (stp_levels true inc false _) as [ls n]. by apply set_levels_fewer, sublist_ids.
  - pose proof (stp_levels_sublist false inc false (levels_of (opposite (side inc)) b)) as Hs.
    destruct (stp_levels false inc false _) as [ls n]. by apply set_levels_fewer, sublist_ids.
Qed.

(** ** Adding an order *)

Lemma push_order_perm ls idx o : flat (push_order ls idx o) ≡ₚ o :: flat ls.
Proof.
  assert (Hins : flat (insert_at idx (Build_PriceLevel (price o) [o]) ls) ≡ₚ o :: flat ls).
  { unfold insert_at. rewrite flat_app, flat_cons. simpl.
    rewrite <- Permutation_middle, <- flat_app. by rewrite take_drop. }
  unfold push_order. destruct (ls !! idx) as [l|] eqn:Hl; [|done].
  destruct (deq (lprice l) (price o)); [|done].
  rewrite insert_take_drop by (by eapply lookup_lt_Some).
  rewrite <- (take_drop_middle _ _ _ Hl) at 3. autorewrite with trading. cbn [orders].
  rewrite <- app_assoc. simpl. by rewrite <- Permutation_middle, <- Permutation_middle.
Qed.

(** At most one id more. *)
Definition one_more_id (id : Z) (b b' : OrderBook) : Prop :=
  (id ∉ book_ids b -> unique_ids b -> unique_ids b') /\
  (forall x, x ∈ book_ids b' -> x ∈ book_ids b \/ x = id).

Lemma one_more_fewer id b1 b2 b3 : fewer_ids b1 b2 -> one_more_id id b2 b3 -> one_more_id id b1 b3.
Proof.
  intros [Hu Hf] [Hu' Hm]. split; [intros; apply Hu'; auto|].
  intros x [Hx| ->]%Hm; auto.
Qed.

Lemma fewer_one_more id b b' : fewer_ids b b' -> one_more_id id b b'.
Proof. intros [Hu Hf]. split; auto. Qed.

Lemma addOrder_one_more b o : one_more_id (order_id o) b (addOrder b o).1.
Proof.
  unfold addOrder. destruct (_ || _); [by apply fewer_one_more, fewer_refl|].
  destruct (_ <=? _); [by apply fewer_one_more, fewer_refl|]. simpl.
  set (ls := push_order _ _ o).
  assert (side_ids (side o) (set_levels (side o) b ls (-1)) ≡ₚ order_id o :: side_ids (side o) b)
    as Hs.
  { unfold side_ids. autorewrite with trading. unfold ids. subst ls. by rewrite push_order_perm. }
  assert (side_ids (opposite (side o)) (set_levels (side o) b ls (-1)) =
    side_ids (opposite (side o)) b) as Ho by (unfold side_ids; by autorewrite with trading).
  split.
  - rewrite !(unique_ids_side (side o)), Hs, Ho, (elem_of_book_ids (side o)).
    intros Hn Hu. simpl. constructor; [|done]. by rewrite elem_of_app.
  - intros x. rewrite !(elem_of_book_ids (side o)), Hs, Ho, elem_of_cons. tauto.
Qed.

Lemma match_phase_ids clock b inc :
  one_more_id (order_id inc) b (mo_book (match_phase clock b inc)).
Proof.
  unfold match_phase.
  pose proof (match_loop_sublist clock (S (match_measure (match_start b inc))) (match_start b inc)) as Hs.
  destruct (match_loop _ clock (match_start b inc)) as [st|st e] eqn:Hl; cbn [mo_book].
  - apply match_book_fewer in Hs. destruct (rests _); [|by apply fewer_one_more].
    eapply one_more_fewer; [exact Hs|].
    apply match_loop_id in Hl as [r Hr]. simpl in Hr. rewrite Hr.
    apply (addOrder_one_more _ (set_remaining inc r)).
  - by apply fewer_one_more, match_book_fewer.
Qed.

Lemma matchOrder_ids clock b inc :
  one_more_id (order_id inc) b (mo_book (matchOrder clock b inc)).
Proof.
  unfold matchOrder. destruct (_ && _); [by apply fewer_one_more, fewer_refl|].
  pose proof (stp_phase_fewer b inc) as Hs.
  destruct (stp_phase b inc) as [b' [|]]; [by apply fewer_one_more|].
  eapply one_more_fewer; [exact Hs|]. apply match_phase_ids.
Qed.

(** A replacement keeps the ids distinct: the re-entering order has the erased one's id. *)
Lemma replaceOrder_unique clock now b id p qty prio :
  unique_ids b -> unique_ids (replaceOrder clock now b id p qty prio).1.
Proof.
  intros Hu. unfold replaceOrder. destruct (_ && _); [done|].
  destruct (locate b id) as [[[s i] j]|] eqn:Hl; [|done].
  destruct (order_at _ i j) as [o|] eqn:Hat; [|done].
  pose proof (erase_order_fewer b id s i j Hl) as [He _].
  unfold replaceInLevel. cbv zeta. destruct (_ && _); [done|].
  destruct (qty =? 0); [by apply He|].
  destruct (deq p (price o) && _); [by apply (update_order_fewer b id s i j o)|].
  destruct (_ =? 0); [by apply He|]. cbn [fst].
  apply (matchOrder_ids clock); [|by apply He]. simpl. by eapply erased_id_gone.
Qed.

(** What [no_throw] asks for, in a book that does not contain the incoming id. *)
Lemma fresh_no_throw b inc :
  book_wf b -> order_id inc ∉ book_ids b ->
  1 <= next_trade_id_ b -> next_trade_id_ b + pool_capacity_ b <= UINT64_MAX ->
  no_throw inc (next_trade_id_ b) (candidates b inc).
Proof.
  intros Hwf Hid H1 Hmax. pose proof (candidates_length b inc Hwf) as Hlen.
  split; [|lia]. apply not_in_ids. intros Hin. apply Hid.
  rewrite (elem_of_book_ids (opposite (side inc))). left. unfold side_ids.
  rewrite (marketable_split inc (levels_of (opposite (side inc)) b)), flat_app, ids_app, elem_of_app.
  by left.
Qed.

Lemma getOrderCount_ids b : getOrderCount b = length (book_ids b).
Proof.
  unfold getOrderCount, book_ids, side_ids, ids. rewrite !order_count_flat, length_app, !length_fmap.
  done.
Qed.
