(* ===== verification/BookQueues.v ===== *)
(** * BookQueues: invariants of the queues of a book

    A predicate on queues that survives the loss of orders and changes of their remaining
    quantity holds of every level of a book through matching, cancellation and fills. Its
    instance is the agreement of the queues with the priority sequence: in every level the
    orders stand in the order of their [priority_seq]. *)

From Stdlib Require Import ZArith Lia Bool.
From stdpp Require Import base tactics decidable numbers option list sorting.
From S2P Require Import Prelude.
From S2P Require Import Double.
From S2P Require Import Order.
From S2P Require Import OrderBook.
From S2P Require Import BookLevels.
From S2P Require Import BookMatch.
From S2P Require Import BookInv.
From S2P Require Import BookFacts.

Local Open Scope Z_scope.

(** Queues related by loss of orders and changes of remaining quantities: what [f] observes
    does not depend on the remaining quantity. *)
Section Observed.
Context {A : Type} (f : Order -> A).
Hypothesis f_remaining : forall o r, f (set_remaining o r) = f o.

Definition levels_all (P : list A -> Prop) (ls : list PriceLevel) : Prop :=
  Forall (fun l => P (f <$> orders l)) ls.

Definition book_all (P : list A -> Prop) (b : OrderBook) : Prop :=
  levels_all P (bids_ b) /\ levels_all P (asks_ b).

Lemma book_all_side P s b :
  book_all P b <-> levels_all P (levels_of s b) /\ levels_all P (levels_of (opposite s) b).
Proof. unfold book_all. destruct s; simpl; tauto. Qed.

Variable P : list A -> Prop.
Hypothesis P_sub : forall q q', sublist q' q -> P q -> P q'.

Lemma book_all_set s b ls n :
  book_all P b -> levels_all P ls -> book_all P (set_levels s b ls n).
Proof. rewrite !(book_all_side P s). autorewrite with trading. tauto. Qed.

Lemma levels_all_shrink lp os ls : P (f <$> os) -> levels_all P ls -> levels_all P (shrink lp os ls).
Proof. destruct os; simpl; [done|]. by constructor. Qed.

Lemma P_sublist os os' : sublist os' os -> P (f <$> os) -> P (f <$> os').
Proof. intros Hs. apply P_sub. induction Hs; simpl; by constructor. Qed.

Lemma levels_all_middle ls1 l ls2 :
  levels_all P (ls1 ++ l :: ls2) <-> levels_all P ls1 /\ P (f <$> orders l) /\ levels_all P ls2.
Proof. unfold levels_all. rewrite Forall_app, Forall_cons. tauto. Qed.

(** ** Erasure and update *)

Lemma erase_all b id s i j :
  locate b id = Some (s, i, j) -> book_all P b ->
  book_all P (set_levels s b (erase_order (levels_of s b) i j) 1).
Proof.
  intros Hl Hb. destruct (locate_zip _ _ _ _ _ Hl)
    as (ls1 & lp & os1 & o & os2 & ls2 & Hls & _ & _ & _ & _ & Her & _).
  apply book_all_set; [done|]. rewrite Her. apply (book_all_side P s) in Hb as [Hb _].
  rewrite Hls in Hb. apply levels_all_middle in Hb as (H1 & H & H2).
  apply Forall_app. split; [done|]. apply levels_all_shrink; [|done].
  eapply P_sublist; [|exact H]. simpl. apply sublist_app; [done|]. by apply sublist_cons.
Qed.

Lemma update_all b id s i j o o' :
  locate b id = Some (s, i, j) -> order_at (levels_of s b) i j = Some o -> f o' = f o ->
  book_all P b -> book_all P (set_levels s b (update_order (levels_of s b) i j o') 0).
Proof.
  intros Hl Hat Hf Hb. destruct (locate_zip _ _ _ _ _ Hl)
    as (ls1 & lp & os1 & o1 & os2 & ls2 & Hls & _ & _ & _ & Hat' & _ & Hup & _).
  rewrite Hat in Hat'. injection Hat' as <-.
  apply book_all_set; [done|]. rewrite Hup. apply (book_all_side P s) in Hb as [Hb _].
  rewrite Hls in Hb. apply levels_all_middle in Hb as (H1 & H & H2).
  apply Forall_app. split; [done|]. apply levels_all_shrink; [|done]. simpl in H.
  by rewrite fmap_app, fmap_cons, Hf, <- fmap_cons, <- fmap_app.
Qed.

Lemma cancelOrder_all b id : book_all P b -> book_all P (cancelOrder b id).1.
Proof.
  intros Hb. unfold cancelOrder. destruct (locate b id) as [[[s i] j]|] eqn:Hl; [|done].
  by eapply erase_all.
Qed.

Lemma applyFill_all b id qty : book_all P b -> book_all P (applyFill b id qty).1.
Proof.
  intros Hb. unfold applyFill. destruct (_ =? 0); [done|].
  destruct (locate b id) as [[[s i] j]|] eqn:Hl; [|done].
  destruct (order_at _ i j) as [o|] eqn:Ho; [|done]. destruct (_ <? qty); [done|]. cbv zeta.
  destruct (_ =? 0); [by eapply erase_all|]. by eapply update_all.
Qed.

(** ** Matching *)

Lemma turn_all clock st st' :
  levels_all P (ms_levels st) ->
  match_iter clock st = Continue st' \/ (exists e, match_iter clock st = Raise st' e) ->
  levels_all P (ms_levels st').
Proof.
  intros HP Hit. pose proof (match_iter_case clock st) as Hcase.
  destruct Hit as [Hit|[e Hit]]; rewrite Hit in Hcase;
    inversion Hcase as [|l ls n Hls Hpos Hb Hp|l ls r os n t Hls Hpos Hb Hp Ht q
                        |l ls r os n e' Hls Hpos Hb Hp Ht q]; subst; cbn [ms_levels];
    rewrite Hls in HP; apply Forall_cons in HP as [HP1 HP]; [done| |];
    apply pop_filled_sublist in Hp; apply (P_sublist _ _ Hp) in HP1.
  - apply levels_all_shrink; [|done]. destruct (_ =? 0).
    + by apply (P_sublist (r :: os)); [apply sublist_cons|].
    + unfold take_qty. by rewrite fmap_cons, f_remaining, <- fmap_cons.
  - constructor; [|done]. cbn [orders]. unfold take_qty.
    by rewrite fmap_cons, f_remaining, <- fmap_cons.
Qed.

Lemma match_loop_all clock fuel st :
  levels_all P (ms_levels st) ->
  match match_loop fuel clock st with
  | Finished st' => levels_all P (ms_levels st')
  | Raised st' _ => levels_all P (ms_levels st')
  end.
Proof.
  apply (match_loop_inv clock (fun st => levels_all P (ms_levels st))); intros; eapply turn_all; eauto.
Qed.

Lemma stp_levels_all oldest inc removed ls :
  levels_all P ls -> levels_all P (stp_levels oldest inc removed ls).1.
Proof.
  revert removed. induction ls as [|l ls IH]; intros removed HP; simpl; [done|].
  destruct (beyond inc (lprice l)); [done|]. apply Forall_cons in HP as [HP1 HP].
  pose proof (stp_orders_sublist oldest (trader_id inc) (orders l)) as Ho.
  destruct (stp_orders oldest (trader_id inc) (orders l)) as [kept n]. simpl in Ho.
  specialize (IH (removed || (0 <? n)) HP).
  destruct (oldest && (removed || (0 <? n))); [|destruct (stp_levels oldest inc _ ls)];
    cbn [fst] in *;
    match goal with |- levels_all P (match kept with [] => ?rest | _ => _ end) =>
      change (levels_all P (shrink (lprice l) kept rest)) end;
    (apply levels_all_shrink; [by eapply P_sublist|done]).
Qed.

Lemma stp_phase_all b inc : book_all P b -> book_all P (stp_phase b inc).1.
Proof.
  intros Hb. unfold stp_phase. destruct (_ && _); [|done].
  pose proof (proj1 (book_all_side P (opposite (side inc)) b) Hb) as [Ho _].
  destruct (stp_policy_ b); [done|done| |].
  - pose proof (stp_levels_all true inc false _ Ho) as Hs.
    destruct (stp_levels true inc false _) as [ls n]. by apply book_all_set.
  - pose proof (stp_levels_all false inc false _ Ho) as Hs.
    destruct (stp_levels false inc false _) as [ls n]. by apply book_all_set.
Qed.

(** An incoming order put at the back of one queue: [P'] is what holds of the queues then. *)
Section Incoming.
Variables (P' : list A -> Prop) (x : A).
Hypothesis P_weaken : forall q, P q -> P' q.
Hypothesis P_back : forall q, P q -> P' (q ++ [x]).
Hypothesis P_nil : P [].

Lemma levels_all_weaken ls : levels_all P ls -> levels_all P' ls.
Proof. intros H. eapply Forall_impl; [exact H|]. simpl. auto. Qed.

Lemma book_all_weaken b : book_all P b -> book_all P' b.
Proof. intros [H1 H2]. split; by apply levels_all_weaken. Qed.

Lemma push_order_all ls idx o : f o = x -> levels_all P ls -> levels_all P' (push_order ls idx o).
Proof.
  intros Hx Hb.
  assert (levels_all P' (insert_at idx (Build_PriceLevel (price o) [o]) ls)) as Hins.
  { apply Forall_app. split; [by apply levels_all_weaken, Forall_take|].
    constructor; [|by apply levels_all_weaken, Forall_drop]. simpl. rewrite Hx. by apply (P_back []). }
  unfold push_order. destruct (ls !! idx) as [l|] eqn:Hl; [|done].
  destruct (deq _ _); [|done]. apply Forall_insert; [by apply levels_all_weaken|]. cbn [orders].
  rewrite fmap_app. simpl. rewrite Hx. apply P_back. by eapply (Forall_lookup_1 _ _ _ _ Hb) in Hl.
Qed.

Lemma addOrder_all b o : f o = x -> book_all P b -> book_all P' (addOrder b o).1.
Proof.
  intros Hx Hb. pose proof (book_all_weaken b Hb) as Hb'. unfold addOrder.
  destruct (_ || _); [done|]. destruct (_ <=? _); [done|].
  apply (book_all_side P' (side o)). cbn [fst]. autorewrite with trading.
  split; [|by apply (book_all_side P' (side o)) in Hb' as [_ ?]].
  apply push_order_all; [done|]. by apply (book_all_side P (side o)) in Hb as [? _].
Qed.

Lemma matchOrder_all clock b inc :
  f inc = x -> book_all P b -> book_all P' (mo_book (matchOrder clock b inc)).
Proof.
  intros Hx Hb. pose proof (book_all_weaken b Hb) as Hb'.
  unfold matchOrder. destruct (_ && _); [done|].
  pose proof (stp_phase_all b inc Hb) as Hs.
  destruct (stp_phase b inc) as [b' [|]]; [by apply book_all_weaken|].
  cbn [fst] in Hs. unfold match_phase.
  pose proof (match_loop_all clock (S (match_measure (match_start b' inc))) (match_start b' inc)
    (proj1 (proj1 (book_all_side P (opposite (side inc)) b') Hs))) as Hloop.
  assert (Hbook : forall st, levels_all P (ms_levels st) -> book_all P (match_book b' inc st))
    by (intros; by apply book_all_set).
  destruct (match_loop _ clock (match_start b' inc)) as [st|st e] eqn:Hl; cbn [mo_book];
    [|by apply book_all_weaken, Hbook].
  destruct (rests _); [|by apply book_all_weaken, Hbook].
  apply addOrder_all; [|by apply Hbook].
  apply match_loop_id in Hl as [r Hr]. by rewrite Hr, f_remaining.
Qed.
End Incoming.
End Observed.

(** ** Priority order *)

(** Strictly increasing priorities, all below [bound]. *)
Definition prio_sorted (bound : Z) (q : list Z) : Prop :=
  StronglySorted Z.lt q /\ Forall (fun p => p < bound) q.

Definition queues_by_priority (bound : Z) (b : OrderBook) : Prop :=
  book_all priority_seq (prio_sorted bound) b.

Lemma prio_sorted_sub bound q q' : sublist q' q -> prio_sorted bound q -> prio_sorted bound q'.
Proof.
  intros Hs [HS HF]. induction Hs as [|x q' q Hs IH|x q' q Hs IH]; [by split; constructor| |];
    apply StronglySorted_inv in HS as [HS Hx]; apply Forall_cons in HF as [Hb HF];
    destruct (IH HS HF) as [HS' HF']; [|done].
  split; constructor; auto. rewrite Forall_forall in *. intros y Hy. apply Hx.
  by eapply elem_of_sublist.
Qed.

Lemma prio_sorted_back bound q p : bound <= p -> prio_sorted bound q -> prio_sorted (p + 1) (q ++ [p]).
Proof.
  intros Hp [HS HF]. split.
  - apply StronglySorted_app. split_and!; [|done|by repeat constructor].
    intros x y Hx ->%list_elem_of_singleton. rewrite Forall_forall in HF. specialize (HF x Hx). simpl in *. lia.
  - apply Forall_app. split; [|constructor; [lia|constructor]].
    eapply Forall_impl; [exact HF|]. simpl. lia.
Qed.

Lemma queues_by_priority_mono n m b : n <= m -> queues_by_priority n b -> queues_by_priority m b.
Proof.
  intros Hnm [H1 H2]. split; (eapply Forall_impl; [eassumption|]); intros l [HS HF];
    (split; [done|]); (eapply Forall_impl; [exact HF|]); simpl; lia.
Qed.

(** A replacement either keeps the order's place or puts it at the back with [prio]. *)
Lemma replaceOrder_queues clock now b id p qty prio n m old :
  getOrderById b id = Some old -> n <= m ->
  (deq p (price old) && (qty <? quantity old) = false -> qty <> 0 -> n <= prio /\ prio + 1 = m) ->
  queues_by_priority n b -> queues_by_priority m (replaceOrder clock now b id p qty prio).1.
Proof.
  intros Hget Hnm Hback Hb. pose proof (queues_by_priority_mono n m b Hnm Hb) as Hb'.
  unfold replaceOrder. destruct ((0 <? qty) && (negb _ || _)); [exact Hb'|]. unfold getOrderById in Hget.
  destruct (locate b id) as [[[s i] j]|] eqn:Hl; [|discriminate Hget]. cbn [mbind option_bind] in Hget.
  rewrite Hget. unfold replaceInLevel. cbv zeta. destruct ((0 <? qty) && (qty <? _)); [exact Hb'|].
  pose proof (erase_all priority_seq _ (prio_sorted_sub n) b id s i j Hl Hb) as He.
  pose proof (queues_by_priority_mono n m _ Hnm He) as He'.
  destruct (Z.eqb_spec qty 0) as [|Hq]; [exact He'|].
  destruct (deq p (price old) && (qty <? quantity old)).
  { by apply (update_all priority_seq (prio_sorted m) b id s i j old). }
  destruct (Hback eq_refl Hq) as [Hn <-].
  destruct (_ =? 0); [exact He'|]. cbn [fst].
  apply (matchOrder_all priority_seq (fun _ _ => eq_refl) _ (prio_sorted_sub n)
    (prio_sorted (prio + 1)) prio); [| |by split; constructor|done|done].
  - intros q [HS HF]. split; [done|]. eapply Forall_impl; [exact HF|]. simpl. lia.
  - intros q. by apply prio_sorted_back.
Qed.

Lemma matchOrder_queues clock b inc n :
  priority_seq inc = n -> queues_by_priority n b ->
  queues_by_priority (n + 1) (mo_book (matchOrder clock b inc)).
Proof.
  intros Hn Hb. apply (matchOrder_all priority_seq (fun _ _ => eq_refl) _ (prio_sorted_sub n)
    (prio_sorted (n + 1)) n); [| |by split; constructor|done|done].
  - intros q [HS HF]. split; [done|]. eapply Forall_impl; [exact HF|]. simpl. lia.
  - intros q. apply prio_sorted_back. lia.
Qed.
