(* ===== verification/BookProps.v ===== *)
(** * BookProps: the properties of the order book

    The theorems about [OrderBook] that its users rely on, each with an instance at a concrete
    book, and the divergences between the code and its documentation. *)

From Stdlib Require Import ZArith Lia Bool Sorted.
From stdpp Require Import base tactics decidable numbers option list sorting.
From S2P Require Import Prelude.
From S2P Require Import Double.
From S2P Require Import Order.
From S2P Require Import OrderBook.
From S2P Require Import BookLevels.
From S2P Require Import BookMatch.
From S2P Require Import BookInv.
From S2P Require Import BookSpec.
From S2P Require Import BookFacts.

Local Open Scope Z_scope.

(** ** A concrete book *)

(** Asks 7 @ 100 (trader 2), 4 @ 100 (trader 3), 9 @ 101 (trader 2); bid 5 @ 99 (trader 4). *)
Definition sample_order (id trader : Z) (s : OrderSide) (t : OrderType) (p qty : Z) : Order :=
  Build_Order id trader 1 s t (d_of_Z p) qty qty 0 0 id.

Definition sample_clock (tid : Z) : Z := tid.

Definition sample_orders : list Order :=
  [sample_order 1 2 SELL LIMIT 100 7; sample_order 2 3 SELL LIMIT 100 4;
   sample_order 3 2 SELL LIMIT 101 9; sample_order 4 4 BUY LIMIT 99 5].

Definition run_orders (b : OrderBook) (os : list Order) : OrderBook :=
  foldl (fun b o => mo_book (matchOrder sample_clock b o)) b os.

Definition sample_book : OrderBook := run_orders (OrderBook_new 16) sample_orders.

Lemma run_orders_reachable capacity b os :
  reachable sample_clock capacity b -> Forall incoming_wf os ->
  reachable sample_clock capacity (run_orders b os).
Proof.
  intros Hb HF. revert b Hb. induction HF as [|o os Ho HF IH]; intros b Hb; [done|].
  apply IH. by constructor.
Qed.

Ltac incoming_ok :=
  split; [right; reflexivity|split; [unfold_int; simpl; lia|simpl; lia]].

Lemma sample_book_reachable : reachable sample_clock 16 sample_book.
Proof. apply run_orders_reachable; [constructor|]. repeat (constructor; [incoming_ok|]). constructor. Qed.

Lemma sample_book_wf : book_wf sample_book.
Proof. eapply reachable_inv; [|exact sample_book_reachable]. lia. Qed.

Definition sample_buy (t : OrderType) (p qty : Z) : Order := sample_order 9 5 BUY t p qty.

Ltac no_throw_ok :=
  split; [vm_compute; repeat (constructor; [discriminate|]); constructor
         |vm_compute; split; discriminate].

(** ** Properties *)

(** C2: an order book that has only been driven through its operations keeps its
    representation invariant (sorted levels without empty ones, well-formed orders at their
    level's price, as many used pool slots as resting orders), and its best bid stays
    strictly below its best ask: the book never stays crossed. *)
Theorem reachable_book_sound clock capacity b :
  0 <= capacity -> reachable clock capacity b ->
  book_wf b /\ uncrossed b /\
  (bids_ b <> [] -> asks_ b <> [] -> dlt (getBestBid b) (getBestAsk b) = true).
Proof.
  intros Hc Hb. destruct (reachable_inv clock capacity b Hc Hb) as [Hwf Hun].
  split_and!; [done|done|]. unfold getBestBid, getBestAsk, uncrossed in *.
  destruct (bids_ b) as [|lb ?], (asks_ b) as [|la ?]; try done. intros _ _.
  apply Forall_cons in Hun as [Hun _]. by apply Forall_cons in Hun as [? _].
Qed.

Lemma reachable_book_sound_witness :
  book_wf sample_book /\ uncrossed sample_book /\
  (bids_ sample_book <> [] -> asks_ sample_book <> [] ->
   dlt (getBestBid sample_book) (getBestAsk sample_book) = true).
Proof.
  apply (reachable_book_sound sample_clock 16); [lia|exact sample_book_reachable].
Defined.

(** C1: price-time priority. When no self-trade policy intervenes, [matchOrder] executes
    exactly the greedy filling of the resting orders its limit accepts, best price first and
    oldest first, at the resting prices and with consecutive trade ids; what is left of the
    other side keeps its order; what is left of a LIMIT order rests when a slot is free. *)
Theorem matchOrder_price_time clock b inc :
  book_wf b -> incoming_wf inc ->
  stp_policy_ b = NONE \/ wouldSelfTrade b inc = false ->
  (type inc = FOK -> canFullyFill b inc = true) ->
  no_throw inc (next_trade_id_ b) (candidates b inc) ->
  let '(fs, rest, r) := greedy (remaining_quantity inc) (candidates b inc) in
  let out := matchOrder clock b inc in
  mo_result out = Ok (fill_trades clock inc (next_trade_id_ b) fs) /\
  mo_incoming out = set_remaining inc r /\
  flat (levels_of (opposite (side inc)) (mo_book out)) =
    rest ++ flat (unmarketable inc (levels_of (opposite (side inc)) b)) /\
  levels_of (side inc) (mo_book out) =
    (if rests (set_remaining inc r) &&
        (0 <? pool_available_ b + Z.of_nat (length (candidates b inc)))
     then push_order (levels_of (side inc) b) (findLevel (side inc) b (price inc))
            (set_remaining inc r)
     else levels_of (side inc) b) /\
  next_trade_id_ (mo_book out) = next_trade_id_ b + Z.of_nat (length fs).
Proof. apply matchOrder_greedy. Qed.

Lemma matchOrder_price_time_witness :
  let inc := sample_buy LIMIT 101 15 in
  let out := matchOrder sample_clock sample_book inc in
  mo_result out =
    Ok [Build_Trade 1 9 1 5 2 (d_of_Z 100) 7 1; Build_Trade 2 9 2 5 3 (d_of_Z 100) 4 2;
        Build_Trade 3 9 3 5 2 (d_of_Z 101) 4 3] /\
  flat (asks_ (mo_book out)) = [set_remaining (sample_order 3 2 SELL LIMIT 101 9) 5].
Proof.
  destruct (matchOrder_price_time sample_clock sample_book (sample_buy LIMIT 101 15))
    as (Hr & _ & Hf & _).
  - exact sample_book_wf.
  - incoming_ok.
  - left. reflexivity.
  - discriminate.
  - no_throw_ok.
  - split; [rewrite Hr; vm_compute; reflexivity|]. etransitivity; [exact Hf|]. vm_compute. reflexivity.
Defined.

(** C3: conservation, under every self-trade policy: when [matchOrder] returns, the traded
    quantities and what remains of the incoming order add up to what it came with, and every
    trade has a positive quantity and the price of a level of the other side that the
    incoming order's limit accepts. *)
Theorem matchOrder_conserves clock b inc ts :
  book_wf b -> incoming_wf inc -> mo_result (matchOrder clock b inc) = Ok ts ->
  sum_by trade_quantity ts + remaining_quantity (mo_incoming (matchOrder clock b inc)) =
    remaining_quantity inc /\
  Forall (trade_within b inc) ts.
Proof. apply matchOrder_sums. Qed.

Lemma matchOrder_conserves_witness :
  let out := matchOrder sample_clock (setSTPPolicy sample_book CANCEL_OLDEST)
    (sample_order 9 2 BUY IOC 101 6) in
  exists ts, mo_result out = Ok ts /\ length ts = 2%nat /\
    sum_by trade_quantity ts + remaining_quantity (mo_incoming out) = 6.
Proof.
  eexists. split; [vm_compute; reflexivity|]. split; [reflexivity|].
  refine (proj1 (matchOrder_conserves sample_clock (setSTPPolicy sample_book CANCEL_OLDEST)
    (sample_order 9 2 BUY IOC 101 6) _ _ _ _)).
  - exact sample_book_wf.
  - incoming_ok.
  - vm_compute. reflexivity.
Defined.

(** C25: the matching loop terminates. With the fuel [matchOrder] gives it, the loop leaves only
    through its [break] conditions (the incoming order exhausted, or no level its limit
    accepts) or through an exception; more fuel changes nothing. *)
Theorem match_loop_terminates clock b inc extra :
  let start := match_start b inc in
  let fuel := S (match_measure start) in
  match_loop (fuel + extra) clock start = match_loop fuel clock start /\
  match match_loop fuel clock start with
  | Finished st =>
      remaining_quantity (ms_incoming st) <= 0 \/
      (forall l ls, ms_levels st = l :: ls -> beyond (ms_incoming st) (lprice l) = true)
  | Raised st e => exists st0, match_iter clock st0 = Raise st e
  end.
Proof.
  intros start fuel. split; [apply match_loop_fuel; lia|].
  destruct (match_loop fuel clock start) as [st|st e] eqn:Hl.
  - apply match_loop_breaks in Hl; [|lia].
    pose proof (match_iter_case clock st) as Hcase. rewrite Hl in Hcase.
    by inversion Hcase; subst.
  - by eapply match_loop_raised.
Qed.

(** C23: a FOK order fills completely or does nothing, under every policy but CANCEL_OLDEST:
    either no trade happens and its quantity is unchanged, or it is filled to zero. *)
Theorem fok_all_or_nothing clock b inc :
  book_wf b -> incoming_wf inc -> pool_capacity_ b <= UINT32_MAX ->
  no_throw inc (next_trade_id_ b) (candidates b inc) ->
  type inc = FOK -> stp_policy_ b <> CANCEL_OLDEST ->
  let out := matchOrder clock b inc in
  exists ts, mo_result out = Ok ts /\
    (ts = [] /\ mo_incoming out = inc \/
     remaining_quantity (mo_incoming out) = 0 /\
     sum_by trade_quantity ts = remaining_quantity inc).
Proof.
  intros Hwf Hinc Hcap Hno Hfok Hpol. unfold matchOrder.
  rewrite bool_decide_true by done. simpl.
  destruct (canFullyFill b inc) eqn:Hfill; simpl; [|exists []; auto].
  destruct (stp_phase_fok b inc Hpol) as [Hstop|Hskip].
  { destruct (stp_phase b inc) as [b' []]; simpl in *; [exists []; auto|done]. }
  rewrite Hskip.
  destruct (match_phase_greedy clock b inc Hwf Hinc Hno) as (st & Hl & Hst).
  pose proof (candidates_nonneg b inc Hwf) as Hnn. destruct Hinc as (_ & Hq & Hr).
  apply canFullyFill_sum in Hfill; [|done|lia|lia].
  pose proof (greedy_remaining (remaining_quantity inc) _ (proj1 Hr) Hnn) as Hrem.
  destruct (greedy _ (candidates b inc)) as [[fs rest] r] eqn:Hg.
  destruct Hst as (Hi & Ht & _).
  destruct (greedy_sums _ _ _ _ _ (proj1 Hr) Hnn Hg) as (Hs & _).
  simpl in Hrem. unfold match_phase. rewrite Hl. cbn [mo_result mo_incoming]. rewrite Hi, Ht.
  eexists. split; [reflexivity|]. right. rewrite fill_trades_sum. simpl. lia.
Qed.

Lemma fok_all_or_nothing_witness :
  let out := matchOrder sample_clock sample_book (sample_buy FOK 100 10) in
  exists ts, mo_result out = Ok ts /\
    (ts = [] /\ mo_incoming out = sample_buy FOK 100 10 \/
     remaining_quantity (mo_incoming out) = 0 /\ sum_by trade_quantity ts = 10).
Proof.
  apply (fok_all_or_nothing sample_clock sample_book (sample_buy FOK 100 10)).
  - exact sample_book_wf.
  - incoming_ok.
  - vm_compute. discriminate.
  - no_throw_ok.
  - reflexivity.
  - discriminate.
Defined.

(** C24: self-trade prevention. Under CANCEL_NEWEST and CANCEL_BOTH no trade of [matchOrder] has
    the same trader on both sides. *)
Theorem stp_no_self_trade clock b inc ts :
  book_wf b -> incoming_wf inc -> no_throw inc (next_trade_id_ b) (candidates b inc) ->
  stp_policy_ b = CANCEL_NEWEST \/ stp_policy_ b = CANCEL_BOTH ->
  mo_result (matchOrder clock b inc) = Ok ts ->
  Forall (fun t => ~ self_trade t) ts.
Proof.
  intros Hwf Hinc Hno Hpol. unfold matchOrder.
  destruct (_ && _); [intros [= <-]; constructor|].
  destruct (stp_phase_stops b inc Hpol) as [Hstop|[Hskip Hw]].
  { destruct (stp_phase b inc) as [b' []]; simpl in *; [intros [= <-]; constructor|done]. }
  rewrite Hskip. destruct (match_phase_greedy clock b inc Hwf Hinc Hno) as (st & Hl & Hst).
  pose proof (wouldSelfTrade_greedy b inc Hwf Hinc) as Hself. unfold fills_of in Hself.
  destruct (greedy _ (candidates b inc)) as [[fs rest] r]. destruct Hst as (_ & Ht & _).
  unfold match_phase. rewrite Hl. cbn [mo_result]. rewrite Ht. intros [= <-].
  apply fill_trades_self, Forall_Exists_neg. intros Hex. apply Hself in Hex. congruence.
Qed.

Lemma stp_no_self_trade_witness :
  let out := matchOrder sample_clock (setSTPPolicy sample_book CANCEL_NEWEST)
    (sample_order 9 3 BUY LIMIT 100 5) in
  exists ts, mo_result out = Ok ts /\ length ts = 1%nat /\ Forall (fun t => ~ self_trade t) ts.
Proof.
  eexists. split; [vm_compute; reflexivity|]. split; [reflexivity|].
  apply (stp_no_self_trade sample_clock (setSTPPolicy sample_book CANCEL_NEWEST)
    (sample_order 9 3 BUY LIMIT 100 5)).
  - exact sample_book_wf.
  - incoming_ok.
  - no_throw_ok.
  - left. reflexivity.
  - vm_compute. reflexivity.
Defined.

(** C26: [cancelOrder] removes exactly the first order with the given id (bids before asks, in
    priority order), keeps every other order in its place and gives its slot back; it answers
    [false], and changes nothing, exactly when no order has the id. *)
Theorem cancelOrder_exact b id :
  let '(b', found) := cancelOrder b id in
  if found then
    exists s before o after,
      flat (levels_of s b) = before ++ o :: after /\
      flat (levels_of s b') = before ++ after /\
      order_id o = id /\ Forall (fun o' => order_id o' <> id) before /\
      (s = SELL -> Forall (fun o' => order_id o' <> id) (flat (bids_ b))) /\
      levels_of (opposite s) b' = levels_of (opposite s) b /\
      pool_available_ b' = pool_available_ b + 1 /\ getOrderById b id = Some o
  else b' = b /\ getOrderById b id = None /\
       Forall (fun o => order_id o <> id) (flat (bids_ b) ++ flat (asks_ b)).
Proof.
  unfold cancelOrder. destruct (locate b id) as [[[s i] j]|] eqn:Hl.
  - destruct (locate_zip _ _ _ _ _ Hl)
      as (ls1 & lp & os1 & o & os2 & ls2 & Hls & _ & _ & Hid & Hat & Her & _ & Hfirst).
    exists s, (flat ls1 ++ os1), o, (os2 ++ flat ls2).
    assert (getOrderById b id = Some o) by (unfold getOrderById; by rewrite Hl).
    rewrite Her, Hls. autorewrite with trading. simpl.
    rewrite <- !app_assoc. split_and!; auto.
    + intros ->. by eapply locate_bids_first.
    + by destruct s.
  - split_and!; [done|unfold getOrderById; by rewrite Hl|]. by apply locate_None.
Qed.

(** An amendment to a smaller quantity at the same price keeps the order's place in the
    queue, its id, owner, price and priority; only its quantities and time stamp change, and
    no trade happens. *)
Theorem replaceOrder_amends_in_place clock now b id p qty prio s i j old :
  locate b id = Some (s, i, j) -> order_at (levels_of s b) i j = Some old ->
  book_wf b -> valid_price p = true -> p = price old ->
  quantity old - remaining_quantity old <= qty -> 0 < qty < quantity old ->
  let '(b', r) := replaceOrder clock now b id p qty prio in
  let o' := amend_order old qty (quantity old - remaining_quantity old) now in
  r = Ok (Build_ReplaceResult true [] (qty - (quantity old - remaining_quantity old))) /\
  (exists before after,
     flat (levels_of s b) = before ++ old :: after /\
     flat (levels_of s b') = before ++ o' :: after) /\
  levels_of (opposite s) b' = levels_of (opposite s) b /\
  remaining_quantity o' = qty - (quantity old - remaining_quantity old).
Proof.
  intros Hl Hat Hwf Hp -> Hfilled Hqty.
  pose proof (located_wf b s i j old Hwf Hat) as Ho.
  pose proof Ho as (_ & Hq & Hr). unfold_int.
  destruct (replaced_quantity old qty Ho) as (Hf & Hrem & Hb);
    [unfold_int; lia|rewrite u32_small by (unfold_int; lia); lia|].
  unfold replaceOrder. rewrite valid_price_accepted by done. rewrite Hl, Hat.
  unfold replaceInLevel. rewrite Hf. rewrite Hf in Hrem.
  rewrite (proj2 (Z.ltb_lt 0 qty)), (proj2 (Z.ltb_ge qty _)), (proj2 (Z.eqb_neq qty 0)),
    deq_refl, (proj2 (Z.ltb_lt qty _)) by (done || lia).
  cbn [andb]. destruct (locate_zip _ _ _ _ _ Hl)
    as (ls1 & lp & os1 & o & os2 & ls2 & Hls & _ & _ & Hid & Hat' & _ & Hup & _).
  rewrite Hat in Hat'. injection Hat' as <-. rewrite Hup, Hls.
  autorewrite with trading. cbn [orders amend_order remaining_quantity].
  rewrite Hrem. split_and!; auto.
  exists (flat ls1 ++ os1), (os2 ++ flat ls2). autorewrite with trading.
  rewrite <- !app_assoc. auto.
Qed.

Lemma replaceOrder_amends_in_place_witness :
  let '(b', r) := replaceOrder sample_clock 50 sample_book 1 (d_of_Z 100) 3 77 in
  r = Ok (Build_ReplaceResult true [] 3) /\ levels_of BUY b' = levels_of BUY sample_book.
Proof.
  pose proof (replaceOrder_amends_in_place sample_clock 50 sample_book 1 (d_of_Z 100) 3 77 SELL 0 0
    (sample_order 1 2 SELL LIMIT 100 7)) as H.
  destruct (replaceOrder sample_clock 50 sample_book 1 (d_of_Z 100) 3 77) as [b' r].
  destruct H as (Hr & _ & Ho & _);
    [reflexivity|reflexivity|exact sample_book_wf|reflexivity|reflexivity|simpl; lia|simpl; lia|].
  split; [rewrite Hr; reflexivity|exact Ho].
Defined.

(** C22: a replacement that succeeds accounts for every unit: what is traded, plus what is left,
    is the new quantity less what was already filled; a replacement that fails leaves the book
    as it was. It fails exactly when the id is unknown, the new price is not a positive
    finite number, or the new quantity is below the filled one (a zero quantity cancels). *)
Theorem replaceOrder_accounts clock now b id p qty prio b' res :
  book_wf b -> in_u32 qty -> replaceOrder clock now b id p qty prio = (b', Ok res) ->
  (success res = false /\ b' = b /\
   (getOrderById b id = None \/ (0 < qty /\ valid_price p = false) \/
    exists old, getOrderById b id = Some old /\ 0 < qty < quantity old - remaining_quantity old)) \/
  (success res = true /\ exists old,
     getOrderById b id = Some old /\
     (qty = 0 /\ trades res = [] /\ final_remaining_quantity res = 0 \/
      (0 < qty /\ valid_price p = true /\
       sum_by trade_quantity (trades res) + final_remaining_quantity res =
         qty - (quantity old - remaining_quantity old)))).
Proof.
  intros Hwf Hq. unfold replaceOrder, getOrderById.
  destruct ((0 <? qty) && _) eqn:Hguard.
  { intros [= <- <-]. left. split_and!; auto. right; left. by apply invalid_price_rejected. }
  destruct (locate b id) as [[[s i] j]|] eqn:Hl; [|intros [= <- <-]; left; auto].
  cbn [mbind option_bind].
  destruct (order_at (levels_of s b) i j) as [old|] eqn:Hat; [|intros [= <- <-]; left; auto].
  pose proof (located_wf b s i j old Hwf Hat) as Hold.
  pose proof Hold as (_ & Hoq & Hor). unfold replaceInLevel. cbv zeta.
  rewrite (u32_small (quantity old - _)) by (unfold_int; lia).
  destruct ((0 <? qty) && (qty <? quantity old - remaining_quantity old)) eqn:Hbelow.
  { intros [= <- <-]. left. bool_to_prop. split_and!; auto. right; right. exists old. auto. }
  destruct (Z.eqb_spec qty 0) as [->|Hqz].
  { intros [= <- <-]. right. split; [done|]. exists old. auto. }
  assert (0 < qty) as Hpos by (unfold_int; lia).
  pose proof (valid_price_guard p qty Hpos Hguard) as Hp.
  rewrite (proj2 (Z.ltb_lt 0 qty)) in Hbelow by done. simpl in Hbelow. bool_to_prop.
  unfold amend_order, reentry_order. rewrite !(u32_small (qty - _)) by (unfold_int; lia).
  cbn [remaining_quantity].
  destruct (deq p (price old) && (qty <? quantity old)).
  { intros [= <- <-]. right. split; [done|]. exists old. split; [done|]. right. auto. }
  destruct (Z.eqb_spec (qty - (quantity old - remaining_quantity old)) 0) as [Hz|Hz].
  { intros [= <- <-]. right. split; [done|]. exists old. split; [done|]. right. simpl. auto. }
  match goal with |- (mo_book ?o, _) = _ -> _ => set (out := o) end.
  destruct (mo_result out) as [ts|e] eqn:Hout; [|done]. intros [= <- <-].
  right. split; [done|]. exists old. split; [done|]. right. split_and!; [done|done|].
  apply matchOrder_sums in Hout as [Hsum _]; [simpl in *; exact Hsum| |].
  - by apply (erase_keeps b id s i j Hl).
  - split; [by right|]. split; simpl; [done|unfold_int; lia].
Qed.

Lemma replaceOrder_accounts_witness :
  exists b' res, replaceOrder sample_clock 50 sample_book 4 (d_of_Z 100) 12 77 = (b', Ok res) /\
  ((success res = false /\ b' = sample_book /\
    (getOrderById sample_book 4 = None \/ (0 < 12 /\ valid_price (d_of_Z 100) = false) \/
     exists old, getOrderById sample_book 4 = Some old /\
       0 < 12 < quantity old - remaining_quantity old)) \/
   (success res = true /\ exists old,
      getOrderById sample_book 4 = Some old /\
      (12 = 0 /\ trades res = [] /\ final_remaining_quantity res = 0 \/
       (0 < 12 /\ valid_price (d_of_Z 100) = true /\
        sum_by trade_quantity (trades res) + final_remaining_quantity res =
          12 - (quantity old - remaining_quantity old))))).
Proof.
  destruct (replaceOrder sample_clock 50 sample_book 4 (d_of_Z 100) 12 77) as [b' [res|e]] eqn:H.
  - exists b', res. split; [reflexivity|].
    apply (replaceOrder_accounts sample_clock 50 sample_book 4 (d_of_Z 100) 12 77 b' res);
      [exact sample_book_wf|unfold_int; lia|exact H].
  - exfalso. vm_compute in H. discriminate H.
Defined.

(** [addOrder] keeps price-time order: the order goes behind every order at an equal or
    better price and before every order at a worse one, and takes one pool slot; with no free
    slot or a zero quantity it is refused and the book unchanged. *)
Theorem addOrder_price_time b o :
  book_wf b -> order_wf o ->
  let '(b', added) := addOrder b o in
  if added then
    exists before after,
      flat (levels_of (side o) b) = before ++ after /\
      flat (levels_of (side o) b') = before ++ o :: after /\
      Forall (fun o' => better (side o) (price o) (price o') = false) before /\
      Forall (fun o' => better (side o) (price o) (price o') = true) after /\
      levels_of (opposite (side o)) b' = levels_of (opposite (side o)) b /\
      pool_available_ b' = pool_available_ b - 1
  else b' = b /\ (quantity o = 0 \/ remaining_quantity o = 0 \/ pool_available_ b = 0).
Proof.
  intros Hwf Ho. unfold addOrder.
  destruct ((quantity o =? 0) || _) eqn:Hz; [bool_to_prop; destruct Hz; bool_to_prop; auto|].
  destruct (Z.leb_spec (pool_available_ b) 0) as [Hle|Hlt].
  { split; [done|]. destruct Hwf as (_ & _ & _ & ?). right; right. lia. }
  pose proof (proj1 (book_wf_side (side o) b) Hwf) as (Hs & _). pose proof Ho as [Hp _].
  destruct (push_order_split _ _ _ Hs Hp) as (ls1 & os & ls2 & Hpush & Hls & H1 & H2).
  exists (flat ls1 ++ os), (flat ls2). autorewrite with trading. rewrite Hpush, Hls.
  autorewrite with trading. cbn [orders]. rewrite <- !app_assoc. unfold side_wf in Hs.
  rewrite Hls in Hs. split_and!; auto; [| |by destruct (side o)].
  - apply Forall_app. split; [|by eapply shrink_same_price].
    apply levels_wf_app in Hs as (Hs1 & _).
    apply (flat_prices (side o) ls1 (fun x => better (side o) x (price o) = true)
      (fun x => better (side o) (price o) x = false) Hs1 H1). intros x Hx Hb. by apply better_asym.
  - apply levels_wf_app in Hs as (_ & Hs2 & _). apply levels_wf_shrink_tail in Hs2.
    by apply (flat_prices (side o) ls2 (fun x => better (side o) (price o) x = true)
      (fun x => better (side o) (price o) x = true) Hs2 H2).
Qed.

Lemma addOrder_price_time_witness :
  let '(b', added) := addOrder sample_book (sample_order 9 5 SELL LIMIT 100 3) in
  if added then
    exists before after,
      flat (asks_ sample_book) = before ++ after /\
      flat (asks_ b') = before ++ sample_order 9 5 SELL LIMIT 100 3 :: after /\
      Forall (fun o' => better SELL (d_of_Z 100) (price o') = false) before /\
      Forall (fun o' => better SELL (d_of_Z 100) (price o') = true) after /\
      bids_ b' = bids_ sample_book /\ pool_available_ b' = pool_available_ sample_book - 1
  else b' = sample_book /\ (3 = 0 \/ 3 = 0 \/ pool_available_ sample_book = 0).
Proof.
  apply (addOrder_price_time sample_book (sample_order 9 5 SELL LIMIT 100 3)).
  - exact sample_book_wf.
  - split; [reflexivity|]. split; [unfold_int; simpl; lia|simpl; lia].
Defined.

(** MARKET, IOC and FOK orders never rest: [matchOrder] leaves their own side of the book
    as it was, under every policy and on the exception path. *)
Theorem only_limit_rests clock b inc :
  type inc <> LIMIT -> levels_of (side inc) (mo_book (matchOrder clock b inc)) = levels_of (side inc) b.
Proof.
  intros Ht. unfold matchOrder. destruct (_ && _); [done|].
  pose proof (stp_phase_same_side b inc) as Hs. destruct (stp_phase b inc) as [b' [|]]; [done|].
  simpl in Hs. rewrite <- Hs. unfold match_phase.
  destruct (match_loop _ clock _) as [st|st e] eqn:Hl; cbn [mo_book].
  - destruct (rests (ms_incoming st)) eqn:Hr; [|by apply match_book_sides].
    apply rests_inv in Hr as [_ Hr]. destruct Ht. rewrite <- Hr.
    by apply (match_loop_type clock _ _ _ Hl).
  - by apply match_book_sides.
Qed.

Lemma only_limit_rests_witness :
  bids_ (mo_book (matchOrder sample_clock sample_book (sample_buy IOC 101 30))) =
    bids_ sample_book.
Proof. apply (only_limit_rests sample_clock sample_book (sample_buy IOC 101 30)). discriminate. Defined.

(** [applyFill] takes the filled quantity off the order with the given id, in its place,
    and removes the order with its slot when nothing is left; it answers [false], and changes
    nothing, when the quantity is zero, the id unknown or the fill larger than the order. *)
Theorem applyFill_exact b id qty :
  let '(b', filled) := applyFill b id qty in
  if filled then
    exists s before o after,
      getOrderById b id = Some o /\ qty <> 0 /\ qty <= remaining_quantity o /\
      flat (levels_of s b) = before ++ o :: after /\
      flat (levels_of s b') =
        before ++ (if remaining_quantity o =? qty then []
                   else [set_remaining o (remaining_quantity o - qty)]) ++ after /\
      levels_of (opposite s) b' = levels_of (opposite s) b /\
      pool_available_ b' = pool_available_ b + (if remaining_quantity o =? qty then 1 else 0)
  else b' = b /\ (qty = 0 \/ getOrderById b id = None \/
                  exists o, getOrderById b id = Some o /\ remaining_quantity o < qty).
Proof.
  unfold applyFill. destruct (Z.eqb_spec qty 0) as [|Hq]; [auto|].
  destruct (locate b id) as [[[s i] j]|] eqn:Hl;
    [|split; [done|]; right; left; unfold getOrderById; by rewrite Hl].
  destruct (locate_zip _ _ _ _ _ Hl)
    as (ls1 & lp & os1 & o & os2 & ls2 & Hls & _ & _ & Hid & Hat & Her & Hup & _).
  assert (getOrderById b id = Some o) as Hget by (unfold getOrderById; by rewrite Hl).
  rewrite Hat. destruct (Z.ltb_spec (remaining_quantity o) qty) as [Hlt|Hge]; [eauto 10|].
  assert ((remaining_quantity o - qty =? 0) = (remaining_quantity o =? qty)) as ->
    by (apply eq_true_iff_eq; rewrite !Z.eqb_eq; lia).
  destruct (remaining_quantity o =? qty) eqn:He; exists s, (flat ls1 ++ os1), o, (os2 ++ flat ls2);
    rewrite He, ?Her, ?Hup, Hls; autorewrite with trading; cbn [orders];
    rewrite <- ?app_assoc; split_and!; auto; by destruct s.
Qed.

(** ** Where the code and its documentation differ *)

(** The README says that a FOK order is filled in full or does nothing. Under CANCEL_OLDEST the
    scan counts an order of the same trader that the self-trade block then removes. *)
Theorem fok_partial_under_cancel_oldest :
  let b := setSTPPolicy sample_book CANCEL_OLDEST in
  let out := matchOrder sample_clock b (sample_order 9 2 BUY FOK 100 10) in
  canFullyFill b (sample_order 9 2 BUY FOK 100 10) = true /\
  mo_result out = Ok [Build_Trade 1 9 2 2 3 (d_of_Z 100) 4 1] /\
  remaining_quantity (mo_incoming out) = 6.
Proof. vm_compute. auto. Qed.

(** CANCEL_OLDEST removes one resting order of the trader only: a second one trades. *)
Theorem cancel_oldest_self_trades :
  let b := setSTPPolicy sample_book CANCEL_OLDEST in
  let out := matchOrder sample_clock b (sample_order 9 2 BUY LIMIT 101 13) in
  exists t1 t2, mo_result out = Ok [t1; t2] /\ self_trade t2.
Proof. vm_compute. do 2 eexists. split; reflexivity. Qed.

(** An amendment down to the filled quantity leaves an order with nothing remaining. *)
Theorem amend_leaves_ghost :
  exists b id o, reachable sample_clock 16 b /\
    getOrderById b id = Some o /\ remaining_quantity o = 0.
Proof.
  set (b1 := mo_book (matchOrder sample_clock sample_book (sample_buy IOC 100 3))).
  exists (replaceOrder sample_clock 50 b1 1 (d_of_Z 100) 3 77).1, 1,
    (Build_Order 1 2 1 SELL LIMIT (d_of_Z 100) 3 0 50 0 1).
  split; [|vm_compute; auto]. apply reachable_replace; [|unfold_int; lia].
  apply reachable_match; [exact sample_book_reachable|incoming_ok].
Qed.
