(* ===== verification/Events.v ===== *)
(** * Events: market data events and their publisher

    The event structures of include/MarketDataTypes.h and the class [MarketDataPublisher]
    (include/MarketDataPublisher.h, src/MarketDataPublisher.cpp). *)

From Stdlib Require Import ZArith Lia Bool.
From stdpp Require Import base tactics decidable numbers option list.
From S2P Require Import Prelude.
From S2P Require Import Double.
From S2P Require Import Order.

Local Open Scope Z_scope.

(** ** Events *)

Record OrderAcceptedEvent : Type := Build_OrderAcceptedEvent {
  oa_timestamp : Z;
  oa_sequence : Z;
  oa_orderId : Z;
  oa_symbolId : Z;
  oa_traderId : Z;
  oa_isBuy : bool;
  oa_priceTicks : Z;
  oa_quantity : Z;
  oa_remainingQuantity : Z;
  oa_orderType : OrderType;
  oa_prioritySeq : Z
}.

Record TradeEvent : Type := Build_TradeEvent {
  te_timestamp : Z;
  te_sequence : Z;
  te_restingOrderId : Z;
  te_aggressorOrderId : Z;
  te_symbolId : Z;
  te_traderId : Z;
  te_tradeQuantity : Z;
  te_tradePriceTicks : Z;
  te_aggressorIsBuy : bool
}.

Record OrderCancelledEvent : Type := Build_OrderCancelledEvent {
  oc_timestamp : Z;
  oc_sequence : Z;
  oc_orderId : Z;
  oc_symbolId : Z;
  oc_traderId : Z;
  oc_cancelledQuantity : Z
}.

Record OrderRejectedEvent : Type := Build_OrderRejectedEvent {
  or_timestamp : Z;
  or_sequence : Z;
  or_orderId : Z;
  or_symbolId : Z;
  or_traderId : Z
}.

(** The [std::variant]. *)
Inductive MarketEvent : Type :=
| OrderAccepted (e : OrderAcceptedEvent)
| TradeExecuted (e : TradeEvent)
| OrderCancelled (e : OrderCancelledEvent)
| OrderRejected (e : OrderRejectedEvent).

Definition sequence (e : MarketEvent) : Z :=
  match e with
  | OrderAccepted e => oa_sequence e
  | TradeExecuted e => te_sequence e
  | OrderCancelled e => oc_sequence e
  | OrderRejected e => or_sequence e
  end.

(** ** Subscribers

    [MarketDataSubscriber] is an abstract class: [W] is the state of the subscriber objects,
    and [onEvent s e] the effect on it of delivering [e] to the object at address [s]. *)

Class Subscriber (W : Type) : Type := onEvent : Z -> MarketEvent -> W -> W.

(** ** Publisher

    The current snapshot: the addresses of the subscribers. A null pointer is the address 0. *)

Record MarketDataPublisher : Type := Build_MarketDataPublisher {
  subscribers_ : list Z
}.

Definition MarketDataPublisher_new : MarketDataPublisher := Build_MarketDataPublisher [].

(** [reserve] copies the snapshot into a vector of a larger capacity. *)
Definition reserve (p : MarketDataPublisher) (n : Z) : MarketDataPublisher :=
  Build_MarketDataPublisher (subscribers_ p).

Definition subscribe (p : MarketDataPublisher) (s : Z) : MarketDataPublisher :=
  if s =? 0 then p
  else if bool_decide (s ∈ subscribers_ p) then p
  else Build_MarketDataPublisher (subscribers_ p ++ [s]).

Definition unsubscribe (p : MarketDataPublisher) (s : Z) : MarketDataPublisher :=
  Build_MarketDataPublisher (filter (fun x => x <> s) (subscribers_ p)).

Definition publish {W} `{Subscriber W} (p : MarketDataPublisher) (e : MarketEvent) (w : W) : W :=
  foldl (fun w s => onEvent s e w) w (subscribers_ p).

(** ** Properties *)

Inductive publisher_op : Type := OpSubscribe (s : Z) | OpUnsubscribe (s : Z) | OpReserve (n : Z).

Definition publisher_step (p : MarketDataPublisher) (op : publisher_op) : MarketDataPublisher :=
  match op with
  | OpSubscribe s => subscribe p s
  | OpUnsubscribe s => unsubscribe p s
  | OpReserve n => reserve p n
  end.

Definition publisher_wf (p : MarketDataPublisher) : Prop :=
  NoDup (subscribers_ p) /\ 0 ∉ subscribers_ p.

(** A world that records the deliveries, to observe [publish]. *)
Definition deliveries : Type := list (Z * MarketEvent).
#[export] Instance recorder : Subscriber deliveries := fun s e w => w ++ [(s, e)].

Lemma publisher_step_wf p op : publisher_wf p -> publisher_wf (publisher_step p op).
Proof.
  intros [Hnd H0]. destruct op as [s|s|n]; simpl; [| |done].
  - unfold subscribe. destruct (Z.eqb_spec s 0); [done|]. case_bool_decide as Hin; [done|].
    split; simpl; [apply NoDup_app|rewrite elem_of_app, list_elem_of_singleton; intuition congruence].
    split; [done|]. split; [|apply NoDup_singleton].
    intros x Hx ->%list_elem_of_singleton. done.
  - split; simpl; [by apply NoDup_filter|]. by rewrite list_elem_of_filter; intros [_ ?].
Qed.

Lemma publish_recorded (p : MarketDataPublisher) e (w : deliveries) :
  publish p e w = w ++ ((fun s => (s, e)) <$> subscribers_ p).
Proof.
  unfold publish, onEvent, recorder. revert w.
  induction (subscribers_ p) as [|s l IH]; intros w; simpl; [by rewrite app_nil_r|].
  by rewrite IH, <- app_assoc.
Qed.

Lemma foldl_publisher_wf ops p :
  publisher_wf p -> publisher_wf (foldl publisher_step p ops).
Proof. revert p. induction ops as [|op ops IH]; intros p Hp; [done|]. by apply IH, publisher_step_wf. Qed.

Lemma step_subscribed p op s :
  s <> 0 ->
  s ∈ subscribers_ (publisher_step p op) <->
  op = OpSubscribe s \/ (s ∈ subscribers_ p /\ op <> OpUnsubscribe s).
Proof.
  intros Hs. destruct op as [x|x|n]; simpl.
  - unfold subscribe. destruct (Z.eqb_spec x 0) as [->|Hx]; [intuition congruence|].
    case_bool_decide; simpl.
    + split; [by right|]. intros [[= ->]|[? _]]; done.
    + rewrite elem_of_app, list_elem_of_singleton.
      destruct (decide (s = x)) as [->|]; intuition congruence.
  - rewrite list_elem_of_filter. intuition congruence.
  - intuition congruence.
Qed.

Lemma subscribed_iff ops s :
  s <> 0 ->
  s ∈ subscribers_ (foldl publisher_step MarketDataPublisher_new ops) <->
  exists before after, ops = before ++ OpSubscribe s :: after /\ OpUnsubscribe s ∉ after.
Proof.
  intros Hs. induction ops as [|op ops IH] using rev_ind.
  { simpl. rewrite elem_of_nil. split; [done|]. by intros ([] & ? & ? & _). }
  rewrite foldl_snoc, step_subscribed, IH by done. split.
  - intros [->|[(before & after & -> & Hafter) Hop]].
    + exists ops, []. split; [done|]. apply not_elem_of_nil.
    + exists before, (after ++ [op]). rewrite <- app_assoc. split; [done|].
      rewrite elem_of_app, list_elem_of_singleton. intuition congruence.
  - intros (before & after & Heq & Hafter).
    destruct after as [|x after _] using rev_ind.
    + apply app_inj_tail in Heq as [_ ->]. by left.
    + rewrite app_comm_cons, app_assoc in Heq. apply app_inj_tail in Heq as [-> ->].
      rewrite elem_of_app, list_elem_of_singleton in Hafter. right.
      split; [exists before, after; tauto|intuition congruence].
Qed.

(** After any sequence of subscriptions the publisher delivers an event to every
    subscribed object exactly once, in subscription order, and never to a null pointer or to
    an object that has unsubscribed since. *)
Theorem publish_exactly_once ops s e w :
  let p := foldl publisher_step MarketDataPublisher_new ops in
  exists ds, publish p e w = w ++ ds /\ NoDup (fst <$> ds) /\ 0 ∉ (fst <$> ds) /\
    Forall (fun d => snd d = e) ds /\
    (s <> 0 -> (s, e) ∈ ds <->
       exists before after, ops = before ++ OpSubscribe s :: after /\ OpUnsubscribe s ∉ after).
Proof.
  intros p. exists ((fun s => (s, e)) <$> subscribers_ p).
  assert (fst <$> ((fun s => (s, e)) <$> subscribers_ p) = subscribers_ p) as Hfst.
  { rewrite <- list_fmap_compose. by apply list_fmap_id. }
  assert (publisher_wf p) as [Hnd H0].
  { apply foldl_publisher_wf. split; [apply NoDup_nil_2|]. apply not_elem_of_nil. }
  rewrite Hfst, publish_recorded. split_and!; auto.
  - rewrite Forall_fmap. by apply Forall_true.
  - intros Hs. rewrite list_elem_of_fmap. rewrite <- subscribed_iff by done.
    split; [intros (? & [= ->] & ?); done|eauto].
Qed.
