(* ===== verification/PublisherThreads.v ===== *)
(** * PublisherThreads: the publisher under concurrent subscriptions

    [MarketDataPublisher] (src/MarketDataPublisher.cpp) lets any thread subscribe, unsubscribe or
    publish. Here the threads run by single accesses: a modification takes the mutex, loads the
    snapshot, stores its copy and releases the mutex; [publish] loads the snapshot and calls the
    subscribers one by one. [Events.publisher_step] and [Events.publish] are the sequential
    operations.

    The state keeps a history: the modifications in the order of their stores, with the length it
    had when each call began and returned. *)

From Stdlib Require Import ZArith Lia Bool.
From stdpp Require Import base tactics decidable numbers option relations list.
From S2P Require Import Prelude.
From S2P Require Import Events.

(** ** Threads *)

(** [start]: the length of the history when the call began; [pos], [at_]: at its store, at its
    load. *)
Inductive pub_pc : Type :=
| PQuiet
| PWant (op : publisher_op) (start : nat)
| PLocked (op : publisher_op) (start : nat)
| PLoaded (op : publisher_op) (start : nat) (current : list Z)
| PStored (op : publisher_op) (start pos : nat)
| PCalled (e : MarketEvent) (start : nat)
| PDelivering (e : MarketEvent) (start at_ : nat) (got todo : list Z).

Record Returned : Type := Build_Returned { r_op : publisher_op; r_start : nat; r_pos : nat; r_end : nat }.

Record Published : Type := Build_Published {
  d_event : MarketEvent;
  d_start : nat;
  d_at : nat;
  d_end : nat;
  d_got : list Z
}.

Record PSystem : Type := Build_PSystem {
  p_shared : MarketDataPublisher;
  p_owner : option nat;
  p_threads : list pub_pc;
  p_ops : list publisher_op;
  p_returned : list Returned;
  p_published : list Published
}.

(** A null pointer is refused before the mutex is taken. *)
Definition refused (op : publisher_op) : bool :=
  match op with OpSubscribe s => Z.eqb s 0 | _ => false end.

(** What is stored after [current] was loaded; nothing when the subscriber is already there. *)
Definition stored (op : publisher_op) (current : list Z) (shared : MarketDataPublisher) : MarketDataPublisher :=
  match op with
  | OpSubscribe s => if bool_decide (s ∈ current) then shared else Build_MarketDataPublisher (current ++ [s])
  | _ => publisher_step (Build_MarketDataPublisher current) op
  end.

Inductive pstep : PSystem -> PSystem -> Prop :=
| p_call sh ow ts ops rs ds t op :
    ts !! t = Some PQuiet -> refused op = false ->
    pstep (Build_PSystem sh ow ts ops rs ds)
      (Build_PSystem sh ow (<[t := PWant op (length ops)]> ts) ops rs ds)
| p_refuse sh ow ts ops rs ds t op :
    ts !! t = Some PQuiet -> refused op = true ->
    pstep (Build_PSystem sh ow ts ops rs ds)
      (Build_PSystem sh ow ts (ops ++ [op])
         (rs ++ [Build_Returned op (length ops) (length ops) (S (length ops))]) ds)
| p_lock sh ts ops rs ds t op start :
    ts !! t = Some (PWant op start) ->
    pstep (Build_PSystem sh None ts ops rs ds)
      (Build_PSystem sh (Some t) (<[t := PLocked op start]> ts) ops rs ds)
| p_load sh ow ts ops rs ds t op start :
    ts !! t = Some (PLocked op start) ->
    pstep (Build_PSystem sh ow ts ops rs ds)
      (Build_PSystem sh ow (<[t := PLoaded op start (subscribers_ sh)]> ts) ops rs ds)
| p_store sh ow ts ops rs ds t op start current :
    ts !! t = Some (PLoaded op start current) ->
    pstep (Build_PSystem sh ow ts ops rs ds)
      (Build_PSystem (stored op current sh) ow (<[t := PStored op start (length ops)]> ts) (ops ++ [op]) rs ds)
| p_unlock sh ow ts ops rs ds t op start pos :
    ts !! t = Some (PStored op start pos) ->
    pstep (Build_PSystem sh ow ts ops rs ds)
      (Build_PSystem sh None (<[t := PQuiet]> ts) ops (rs ++ [Build_Returned op start pos (length ops)]) ds)
| p_publish sh ow ts ops rs ds t e :
    ts !! t = Some PQuiet ->
    pstep (Build_PSystem sh ow ts ops rs ds)
      (Build_PSystem sh ow (<[t := PCalled e (length ops)]> ts) ops rs ds)
| p_snapshot sh ow ts ops rs ds t e start :
    ts !! t = Some (PCalled e start) ->
    pstep (Build_PSystem sh ow ts ops rs ds)
      (Build_PSystem sh ow (<[t := PDelivering e start (length ops) [] (subscribers_ sh)]> ts) ops rs ds)
| p_deliver sh ow ts ops rs ds t e start at_ got s todo :
    ts !! t = Some (PDelivering e start at_ got (s :: todo)) ->
    pstep (Build_PSystem sh ow ts ops rs ds)
      (Build_PSystem sh ow (<[t := PDelivering e start at_ (got ++ [s]) todo]> ts) ops rs ds)
| p_finish sh ow ts ops rs ds t e start at_ got :
    ts !! t = Some (PDelivering e start at_ got []) ->
    pstep (Build_PSystem sh ow ts ops rs ds)
      (Build_PSystem sh ow (<[t := PQuiet]> ts) ops rs
         (ds ++ [Build_Published e start at_ (length ops) got])).

Definition p_start (threads : nat) : PSystem :=
  Build_PSystem MarketDataPublisher_new None (replicate threads PQuiet) [] [] [].

(** ** The invariant *)

(** The subscribers after a history. *)
Definition after (ops : list publisher_op) : MarketDataPublisher := foldl publisher_step MarketDataPublisher_new ops.
Arguments after : simpl never.

Definition holds_lock (pc : pub_pc) : bool :=
  match pc with PLocked _ _ | PLoaded _ _ _ | PStored _ _ _ => true | _ => false end.

Definition returned_ok (ops : list publisher_op) (r : Returned) : Prop :=
  r_start r <= r_pos r < r_end r /\ r_end r <= length ops /\ ops !! r_pos r = Some (r_op r).

Definition published_ok (ops : list publisher_op) (d : Published) : Prop :=
  d_start d <= d_at d <= d_end d /\ d_end d <= length ops /\ d_got d = subscribers_ (after (take (d_at d) ops)).

Definition pc_ok (sh : MarketDataPublisher) (ops : list publisher_op) (pc : pub_pc) : Prop :=
  match pc with
  | PQuiet => True
  | PWant op start | PLocked op start => start <= length ops /\ refused op = false
  | PLoaded op start current => start <= length ops /\ refused op = false /\ current = subscribers_ sh
  | PStored op start pos => start <= pos < length ops /\ ops !! pos = Some op
  | PCalled e start => start <= length ops
  | PDelivering e start at_ got todo =>
      start <= at_ <= length ops /\ got ++ todo = subscribers_ (after (take at_ ops))
  end.

Record pinv (s : PSystem) : Prop := {
  pinv_shared : p_shared s = after (p_ops s);
  pinv_owner : forall t pc, p_threads s !! t = Some pc -> holds_lock pc = true -> p_owner s = Some t;
  pinv_threads : forall t pc, p_threads s !! t = Some pc -> pc_ok (p_shared s) (p_ops s) pc;
  pinv_returned : Forall (returned_ok (p_ops s)) (p_returned s);
  pinv_published : Forall (published_ok (p_ops s)) (p_published s)
}.

Lemma returned_ok_app ops op r : returned_ok ops r -> returned_ok (ops ++ [op]) r.
Proof.
  intros (H1 & H2 & H3). split; [done|]. rewrite length_app. split; [simpl; lia|]. by apply lookup_app_l_Some.
Qed.

Lemma published_ok_app ops op d : published_ok ops d -> published_ok (ops ++ [op]) d.
Proof.
  intros (H1 & H2 & H3). split; [done|]. rewrite length_app. split; [simpl; lia|]. by rewrite take_app_le by lia.
Qed.

(** A thread outside the critical section does not mind a store. *)
Lemma pc_ok_app sh sh' ops op pc :
  holds_lock pc = false \/ sh' = sh -> pc_ok sh ops pc -> pc_ok sh' (ops ++ [op]) pc.
Proof.
  intros Hpc Hok. assert (length (ops ++ [op]) = S (length ops)) as Hlen by (rewrite length_app; simpl; lia).
  destruct pc; simpl in *; rewrite ?Hlen; try done; try lia.
  - destruct Hok. split; [lia|done].
  - destruct Hok. split; [lia|done].
  - destruct Hpc as [| ->]; [done|]. destruct Hok as (? & ? & ?). split; [lia|done].
  - destruct Hok. split; [lia|]. by apply lookup_app_l_Some.
  - destruct Hok. split; [lia|]. by rewrite take_app_le by lia.
Qed.

Lemma after_app ops op : after (ops ++ [op]) = publisher_step (after ops) op.
Proof. unfold after. by rewrite foldl_app. Qed.

(** What is stored under the mutex is the sequential operation. *)
Lemma stored_step op sh : refused op = false -> stored op (subscribers_ sh) sh = publisher_step sh op.
Proof.
  intros Hr. destruct sh as [l]. destruct op as [s|s|n]; [|done|done]. cbn in Hr |- *. unfold subscribe.
  by rewrite Hr.
Qed.

Lemma refused_step op sh : refused op = true -> publisher_step sh op = sh.
Proof. destruct op as [s| |]; [|done|done]. cbn. unfold subscribe. by intros ->. Qed.

(** Steps that leave the subscribers and the history alone, of a thread that keeps or releases
    the mutex. *)
Lemma pinv_thread sh ow ow' ts ops rs rs' ds ds' t old pc :
  pinv (Build_PSystem sh ow ts ops rs ds) -> ts !! t = Some old -> pc_ok sh ops pc ->
  (holds_lock pc = true -> ow' = Some t) ->
  (forall t' pc', t' <> t -> ow = Some t' -> holds_lock pc' = true -> ts !! t' = Some pc' -> ow' = Some t') ->
  Forall (returned_ok ops) rs' -> Forall (published_ok ops) ds' ->
  pinv (Build_PSystem sh ow' (<[t := pc]> ts) ops rs' ds').
Proof.
  intros [Hsh How Hts _ _] Ht Hpc Hlock Hkeep Hrs Hds. cbn in *. split; cbn; try done.
  - intros t' pc'. intros [(<- & <- & _)|(Hne & Ht')]%list_lookup_insert_Some Hh; [auto|]. eauto.
  - intros t' pc'. intros [(<- & <- & _)|(Hne & Ht')]%list_lookup_insert_Some; [done|]. eauto.
Qed.

Lemma pinv_history sh sh' ow ts ops rs ds op :
  pinv (Build_PSystem sh ow ts ops rs ds) -> sh' = publisher_step sh op ->
  (forall t pc, ts !! t = Some pc -> holds_lock pc = false \/ sh' = sh) ->
  pinv (Build_PSystem sh' ow ts (ops ++ [op]) rs ds).
Proof.
  intros [Hsh How Hts Hrs Hds] Hsh' Hpc. cbn in *. split; cbn.
  - by rewrite after_app, <- Hsh.
  - exact How.
  - intros t pc Ht. apply (pc_ok_app sh); eauto.
  - eapply Forall_impl; [exact Hrs|]. intros r. apply returned_ok_app.
  - eapply Forall_impl; [exact Hds|]. intros d. apply published_ok_app.
Qed.

(** The store: nobody else is in the critical section. *)
Lemma pinv_store sh ow ts ops rs ds t op start current :
  pinv (Build_PSystem sh ow ts ops rs ds) -> ts !! t = Some (PLoaded op start current) ->
  pinv (Build_PSystem (stored op current sh) ow (<[t := PStored op start (length ops)]> ts) (ops ++ [op]) rs ds).
Proof.
  intros Hinv Ht. pose proof Hinv as [Hsh How Hts Hrs Hds]. cbn in *.
  destruct (Hts t _ Ht) as (Hst & Hr & ->). assert (ow = Some t) as -> by (by eapply How).
  assert (pinv (Build_PSystem sh (Some t) (<[t := PQuiet]> ts) ops rs ds)) as H1
    by (eapply pinv_thread; eauto; try done; congruence).
  assert (pinv (Build_PSystem (stored op (subscribers_ sh) sh) (Some t) (<[t := PQuiet]> ts) (ops ++ [op]) rs ds)) as H2.
  { eapply pinv_history; [done|by apply stored_step|]. intros t' pc' Ht'. left.
    destruct (holds_lock pc') eqn:Hh; [|done]. exfalso. pose proof (pinv_owner _ H1 t' pc' Ht' Hh) as Ho. cbn in Ho.
    injection Ho as <-. by apply list_lookup_insert_Some in Ht' as [(_ & <- & _)|[? _]]. }
  rewrite <- (list_insert_insert_eq ts t (PStored op start (length ops)) PQuiet). eapply pinv_thread; eauto; try done.
  - apply list_lookup_insert_eq. by eapply lookup_lt_Some.
  - cbn. rewrite length_app. split; [simpl; lia|]. by rewrite lookup_app_r, Nat.sub_diag by lia.
  - apply pinv_returned in H2. exact H2.
  - apply pinv_published in H2. exact H2.
Qed.

Lemma pinv_step s s' : pinv s -> pstep s s' -> pinv s'.
Proof.
  intros Hinv Hstep. pose proof Hinv as [Hsh How Hts Hrs Hds].
  destruct Hstep as [sh ow ts ops rs ds t op Ht Hr|sh ow ts ops rs ds t op Ht Hr|sh ts ops rs ds t op start Ht
    |sh ow ts ops rs ds t op start Ht|sh ow ts ops rs ds t op start current Ht|sh ow ts ops rs ds t op start pos Ht
    |sh ow ts ops rs ds t e Ht|sh ow ts ops rs ds t e start Ht|sh ow ts ops rs ds t e start at_ got x todo Ht
    |sh ow ts ops rs ds t e start at_ got Ht]; cbn in *; pose proof (Hts t _ Ht) as Hpc; cbn in Hpc.
  - eapply pinv_thread; eauto; done.
  - assert (pinv (Build_PSystem sh ow ts (ops ++ [op]) rs ds)) as [H1 H2 H3 H4 H5].
    { eapply pinv_history; [done|by rewrite refused_step|by right]. }
    split; cbn in *; try done. apply Forall_app. split; [done|]. constructor; [|done].
    split; cbn; [lia|]. rewrite length_app. split; [simpl; lia|]. by rewrite lookup_app_r, Nat.sub_diag by lia.
  - eapply pinv_thread; eauto. done.
  - eapply pinv_thread; eauto. cbn. tauto.
  - by eapply pinv_store.
  - assert (ow = Some t) as -> by (by eapply How). eapply pinv_thread; eauto; try done; [congruence|].
    apply Forall_app. split; [done|]. constructor; [|done]. split; cbn; [lia|]. split; [lia|tauto].
  - eapply pinv_thread; eauto; try done. cbn. lia.
  - eapply pinv_thread; eauto; try done. cbn. split; [lia|]. by rewrite firstn_all, <- Hsh.
  - eapply pinv_thread; eauto; try done. cbn. rewrite <- app_assoc. tauto.
  - eapply pinv_thread; eauto; try done. apply Forall_app. split; [done|]. constructor; [|done].
    destruct Hpc as [Hle Heq]. rewrite app_nil_r in Heq. split; cbn; [lia|]. done.
Qed.

Lemma pinv_start threads : pinv (p_start threads).
Proof.
  assert (forall t pc, replicate threads PQuiet !! t = Some pc -> pc = PQuiet) as Hq
    by (intros t pc [-> _]%lookup_replicate; done).
  split; cbn; try done; intros t pc ->%Hq; done.
Qed.

Lemma pinv_reachable threads s : rtc pstep (p_start threads) s -> pinv s.
Proof.
  intros Hs. pose proof (pinv_start threads) as Hinv. revert Hinv. induction Hs; [done|]. eauto using pinv_step.
Qed.

(** ** What a caller sees *)

Lemma after_wf ops : publisher_wf (after ops).
Proof. apply foldl_publisher_wf. split; [apply NoDup_nil_2|apply not_elem_of_nil]. Qed.

(** A modification of [x] that none of the other kind follows. *)
Lemma take_split (ops : list publisher_op) pos n op :
  pos < n -> ops !! pos = Some op -> take n ops = take pos ops ++ op :: drop (S pos) (take n ops).
Proof.
  intros Hlt Hop. assert (take n ops !! pos = Some op) as Hop' by (rewrite lookup_take_Some; done).
  rewrite <- (take_drop_middle _ _ _ Hop') at 1. by rewrite take_take, Nat.min_l by lia.
Qed.

Lemma not_between (ops : list publisher_op) pos n op :
  (forall i, pos < i < n -> ops !! i <> Some op) -> op ∉ drop (S pos) (take n ops).
Proof.
  intros Hno [i Hi]%list_elem_of_lookup. rewrite lookup_drop in Hi. apply lookup_take_Some in Hi as [Hi Hlt].
  by apply (Hno (S pos + i)); [lia|].
Qed.

Lemma subscribed_after ops pos n x :
  x <> 0%Z -> pos < n -> ops !! pos = Some (OpSubscribe x) ->
  (forall i, pos < i < n -> ops !! i <> Some (OpUnsubscribe x)) -> x ∈ subscribers_ (after (take n ops)).
Proof.
  intros Hx Hlt Hop Hno. apply subscribed_iff; [done|]. eexists _, _. split; [by apply take_split|]. by apply not_between.
Qed.

Lemma unsubscribed_after ops pos n x :
  x <> 0%Z -> pos < n -> ops !! pos = Some (OpUnsubscribe x) ->
  (forall i, pos < i < n -> ops !! i <> Some (OpSubscribe x)) -> x ∉ subscribers_ (after (take n ops)).
Proof.
  intros Hx Hlt Hop Hno. rewrite (take_split _ _ _ _ Hlt Hop).
  apply not_between in Hno. revert Hno. induction (drop _ _) as [|op ops' IH] using rev_ind; intros Hno.
  - rewrite after_app. rewrite step_subscribed by done. intros [?|[_ ?]]; done.
  - rewrite app_comm_cons, app_assoc, after_app, step_subscribed by done.
    rewrite elem_of_app, list_elem_of_singleton in Hno. intros [->|[Hin _]]; [by apply Hno; right|].
    apply IH in Hin; [done|]. intros ?. apply Hno. by left.
Qed.

(** C35: subscriptions and publications are atomic. Under every interleaving of the accesses of
    any number of threads: the subscriber list is the one the modifications leave in the order of
    their stores, none lost; a call of [publish] delivers its event to exactly the subscribers of
    one moment between its beginning and its return, once each; so an object whose [subscribe]
    had returned before gets it when nobody unsubscribes it meanwhile, and one whose [unsubscribe]
    had returned before does not when nobody subscribes it again. *)
Theorem publisher_linearizable threads s d :
  rtc pstep (p_start threads) s -> d ∈ p_published s ->
  p_shared s = foldl publisher_step MarketDataPublisher_new (p_ops s) /\
  d_start d <= d_at d <= d_end d /\ NoDup (d_got d) /\
  d_got d = subscribers_ (foldl publisher_step MarketDataPublisher_new (take (d_at d) (p_ops s))) /\
  forall r x, r ∈ p_returned s -> x <> 0%Z -> r_end r <= d_start d ->
    (r_op r = OpSubscribe x ->
     (forall i, r_pos r < i < d_end d -> p_ops s !! i <> Some (OpUnsubscribe x)) -> x ∈ d_got d) /\
    (r_op r = OpUnsubscribe x ->
     (forall i, r_pos r < i < d_end d -> p_ops s !! i <> Some (OpSubscribe x)) -> x ∉ d_got d).
Proof.
  intros Hs Hd. apply pinv_reachable in Hs as [Hsh _ _ Hrs Hds]. rewrite Forall_forall in Hrs. rewrite Forall_forall in Hds.
  destruct (Hds d Hd) as (Hat & Hend & Hgot). split; [done|]. split; [done|].
  split; [rewrite Hgot; apply after_wf|]. split; [done|]. intros r x Hr Hx Hle.
  destruct (Hrs r Hr) as (Hpos & _ & Hop). rewrite Hgot.
  split; intros Hkind Hno; rewrite Hkind in Hop; [eapply subscribed_after|eapply unsubscribed_after];
    try done; try lia; intros i Hi; apply Hno; lia.
Qed.

(** ** Sample runs: a thread that subscribes and unsubscribes, and one that publishes *)

Definition sample_market_event : MarketEvent :=
  OrderCancelled (Build_OrderCancelledEvent 1700000001 42 7 2 9 6).

Definition subscribed_7 : PSystem :=
  Build_PSystem (Build_MarketDataPublisher [7%Z]) None [PQuiet; PQuiet] [OpSubscribe 7]
    [Build_Returned (OpSubscribe 7) 0 0 1] [].

Definition published_7 : PSystem :=
  Build_PSystem (Build_MarketDataPublisher [7%Z]) None [PQuiet; PQuiet] [OpSubscribe 7]
    [Build_Returned (OpSubscribe 7) 0 0 1] [Build_Published sample_market_event 1 1 1 [7%Z]].

(** The publishing thread has its snapshot, the other has unsubscribed since. *)
Definition unsubscribed_7 : PSystem :=
  Build_PSystem (Build_MarketDataPublisher []) None [PQuiet; PDelivering sample_market_event 1 1 [] [7%Z]]
    [OpSubscribe 7; OpUnsubscribe 7]
    [Build_Returned (OpSubscribe 7) 0 0 1; Build_Returned (OpUnsubscribe 7) 1 1 2] [].

Tactic Notation "pub_step" uconstr(c) := eapply rtc_l; [eapply c; reflexivity|].

Lemma subscribed_7_reachable : rtc pstep (p_start 2) subscribed_7.
Proof.
  unfold p_start. cbn [replicate].
  pub_step (p_call _ _ _ _ _ _ 0 (OpSubscribe 7)).
  pub_step (p_lock _ _ _ _ _ 0). pub_step (p_load _ _ _ _ _ _ 0). pub_step (p_store _ _ _ _ _ _ 0).
  pub_step (p_unlock _ _ _ _ _ _ 0). reflexivity.
Qed.

Lemma published_7_reachable : rtc pstep (p_start 2) published_7.
Proof.
  etrans; [exact subscribed_7_reachable|].
  pub_step (p_publish _ _ _ _ _ _ 1 sample_market_event).
  pub_step (p_snapshot _ _ _ _ _ _ 1).
  pub_step (p_deliver _ _ _ _ _ _ 1).
  pub_step (p_finish _ _ _ _ _ _ 1). reflexivity.
Qed.

Lemma publisher_linearizable_witness :
  d_got (Build_Published sample_market_event 1 1 1 [7%Z]) = [7%Z] /\ 7%Z ∈ [7%Z].
Proof.
  split; [reflexivity|].
  destruct (publisher_linearizable 2 published_7 (Build_Published sample_market_event 1 1 1 [7%Z])
    published_7_reachable ltac:(apply list_elem_of_here)) as (_ & _ & _ & _ & Hr).
  apply (Hr (Build_Returned (OpSubscribe 7) 0 0 1) 7%Z); [apply list_elem_of_here|discriminate|reflexivity|reflexivity|].
  intros i Hi. simpl in Hi. lia.
Defined.

(** [unsubscribe] does not wait for a [publish] under way: the subscriber can be called after its
    [unsubscribe] has returned, when its owner may already have destroyed it. *)
Theorem delivery_after_unsubscribe :
  rtc pstep (p_start 2) unsubscribed_7 /\
  Build_Returned (OpUnsubscribe 7) 1 1 2 ∈ p_returned unsubscribed_7 /\
  exists s', pstep unsubscribed_7 s' /\
    p_threads s' !! 1 = Some (PDelivering sample_market_event 1 1 [7%Z] []).
Proof.
  split; [|split].
  - etrans; [exact subscribed_7_reachable|].
    pub_step (p_publish _ _ _ _ _ _ 1 sample_market_event).
    pub_step (p_snapshot _ _ _ _ _ _ 1).
    pub_step (p_call _ _ _ _ _ _ 0 (OpUnsubscribe 7)).
    pub_step (p_lock _ _ _ _ _ 0).
    pub_step (p_load _ _ _ _ _ _ 0).
    pub_step (p_store _ _ _ _ _ _ 0).
    pub_step (p_unlock _ _ _ _ _ _ 0). reflexivity.
  - apply list_elem_of_further, list_elem_of_here.
  - eexists. split; [eapply (p_deliver _ _ _ _ _ _ 1); reflexivity|reflexivity].
Qed.
