(* ===== verification/MatchingEngine.v ===== *)
(** * MatchingEngine: the engine around one order book

    The class [MatchingEngine] of include/MatchingEngine.h and src/MatchingEngine.cpp. An
    operation returns the engine it leaves, the events it published, in order, and the value
    returned or the exception thrown. The clocks, and the answer of [journal_->isHealthy()],
    which each operation asks for once, are arguments.

    The conversion of a price to ticks is undefined in C++ when the result does not fit in 64
    bits; [Context] leaves that value open. *)

From Stdlib Require Import ZArith Lia Bool.
From stdpp Require Import base tactics decidable numbers option list sorting.
From S2P Require Import Prelude.
From S2P Require Import Double.
From S2P Require Import Order.
From S2P Require Import OrderBook.
From S2P Require Import Events.

Local Open Scope Z_scope.

Inductive EngineState : Type := RECOVERING | READY | HALTED.

#[export] Instance EngineState_eq_dec : EqDecision EngineState.
Proof. solve_decision. Defined.

(** [publisher_] and [journal_] say whether the pointers are set; [sequence_counter_] is the
    value of the shared counter when its pointer is set. *)
Record MatchingEngine : Type := Build_MatchingEngine {
  book_ : OrderBook;
  publisher_ : bool;
  sequence_counter_ : option Z;
  journal_ : bool;
  state_ : EngineState;
  priority_counter_ : Z
}.

Definition MatchingEngine_new (pool_capacity : Z) : MatchingEngine :=
  Build_MatchingEngine (OrderBook_new pool_capacity) false None false READY 0.

Definition with_book (e : MatchingEngine) (b : OrderBook) : MatchingEngine :=
  Build_MatchingEngine b (publisher_ e) (sequence_counter_ e) (journal_ e) (state_ e)
    (priority_counter_ e).

Definition with_counter (e : MatchingEngine) (c : option Z) : MatchingEngine :=
  Build_MatchingEngine (book_ e) (publisher_ e) c (journal_ e) (state_ e) (priority_counter_ e).

Definition with_state (e : MatchingEngine) (s : EngineState) : MatchingEngine :=
  Build_MatchingEngine (book_ e) (publisher_ e) (sequence_counter_ e) (journal_ e) s
    (priority_counter_ e).

Definition with_priority (e : MatchingEngine) (n : Z) : MatchingEngine :=
  Build_MatchingEngine (book_ e) (publisher_ e) (sequence_counter_ e) (journal_ e) (state_ e) n.

(** ** Configuration *)

Definition setMarketDataPublisher (e : MatchingEngine) (attached : bool) : MatchingEngine :=
  Build_MatchingEngine (book_ e) attached (sequence_counter_ e) (journal_ e) (state_ e)
    (priority_counter_ e).

Definition setJournal (e : MatchingEngine) (attached : bool) : MatchingEngine :=
  Build_MatchingEngine (book_ e) (publisher_ e) (sequence_counter_ e) attached (state_ e)
    (priority_counter_ e).

Definition setSequenceCounter (e : MatchingEngine) (counter : option Z) : MatchingEngine :=
  with_counter e counter.

Definition seedSequence (e : MatchingEngine) (next_seq : Z) : MatchingEngine :=
  match sequence_counter_ e with
  | Some _ => with_counter e (Some next_seq)
  | None => e
  end.

(** ** Lifecycle *)

Definition isReady (e : MatchingEngine) : bool := bool_decide (state_ e = READY).

Definition isHalted (e : MatchingEngine) : bool := bool_decide (state_ e = HALTED).

Definition isHealthy (e : MatchingEngine) (journal_healthy : bool) : bool :=
  negb (isHalted e) && (negb (journal_ e) || journal_healthy).

Definition beginRecovery (e : MatchingEngine) : MatchingEngine :=
  match state_ e with READY => with_state e RECOVERING | _ => e end.

Definition markReady (e : MatchingEngine) : MatchingEngine * bool :=
  match state_ e with RECOVERING => (with_state e READY, true) | _ => (e, false) end.

Definition halt (e : MatchingEngine) : MatchingEngine := with_state e HALTED.

(** ** Priority sequence *)

Definition tryNextPriority (e : MatchingEngine) : MatchingEngine * option Z :=
  if priority_counter_ e =? UINT64_MAX then (e, None)
  else (with_priority e (priority_counter_ e + 1), Some (priority_counter_ e)).

Definition seedPrioritySequence (e : MatchingEngine) (next_seq : Z) : MatchingEngine * bool :=
  if next_seq <? priority_counter_ e then (e, false)
  else if next_seq =? priority_counter_ e then (e, true)
  else (with_priority e next_seq, true).

Definition peekNextPriority (e : MatchingEngine) : Z := priority_counter_ e.

(** ** Events *)

(** [fetch_add] on the shared counter, which wraps around; 0 without a counter. *)
Definition nextSequence (c : option Z) : option Z * Z :=
  match c with Some n => (Some (u64 (n + 1)), n) | None => (None, 0) end.

(** Publishes events one after the other, each with the next sequence number. *)
Fixpoint emit (c : option Z) (fs : list (Z -> MarketEvent)) : option Z * list MarketEvent :=
  match fs with
  | [] => (c, [])
  | f :: fs =>
      let '(c, n) := nextSequence c in
      let '(c, evs) := emit c fs in (c, f n :: evs)
  end.

Definition publish_events (e : MatchingEngine) (fs : list (Z -> MarketEvent))
    : MatchingEngine * list MarketEvent :=
  if publisher_ e then
    let '(c, evs) := emit (sequence_counter_ e) fs in (with_counter e c, evs)
  else (e, []).

Section Engine.
Context (ticks_overflow : double -> Z).

Definition doubleToTicks (p : double) : Z :=
  let x := dadd (dmul p (d_of_Z 1000000)) (d_frac 1 2) in
  match d_to_int64 x with Some z => z | None => ticks_overflow x end.

(** The [TradeEvent] of a trade for an incoming order of side [s] and symbol [sym]. *)
Definition trade_event (ts sym : Z) (s : OrderSide) (t : Trade) (seq : Z) : MarketEvent :=
  let '(resting_id, aggressor_id, aggressor_trader) :=
    match s with
    | BUY => (sell_order_id t, buy_order_id t, u32 (buy_trader_id t))
    | SELL => (buy_order_id t, sell_order_id t, u32 (sell_trader_id t))
    end in
  TradeExecuted (Build_TradeEvent ts seq resting_id aggressor_id (u32 sym) aggressor_trader
    (trade_quantity t) (doubleToTicks (trade_price t)) (bool_decide (s = BUY))).

Definition accepted_event (ts id sym trader : Z) (s : OrderSide) (p : double)
    (qty remaining : Z) (t : OrderType) (prio seq : Z) : MarketEvent :=
  OrderAccepted (Build_OrderAcceptedEvent ts seq id (u32 sym) (u32 trader)
    (bool_decide (s = BUY)) (doubleToTicks p) qty remaining t prio).

Definition cancelled_event (ts id sym trader qty seq : Z) : MarketEvent :=
  OrderCancelled (Build_OrderCancelledEvent ts seq id (u32 sym) (u32 trader) qty).

(** The types whose orders never rest. *)
Definition immediate (t : OrderType) : bool :=
  bool_decide (t = MARKET) || bool_decide (t = IOC) || bool_decide (t = FOK).

(** ** processOrder

    [ts] is the system clock after matching. The order is passed by reference: its final
    state is part of the result. *)
Definition processOrder (clock : Z -> Z) (ts : Z) (jh : bool) (e : MatchingEngine) (order : Order)
    : MatchingEngine * Order * list MarketEvent * result (list Trade) :=
  if negb (isHealthy e jh) then (e, order, [], Ok [])
  else
    match tryNextPriority e with
    | (_, None) => (halt e, order, [], Ok [])
    | (e, Some prio) =>
        let out := matchOrder clock (book_ e) (set_priority order prio) in
        let e := with_book e (mo_book out) in
        let o := mo_incoming out in
        match mo_result out with
        | Throw ex => (e, o, [], Throw ex)
        | Ok trades =>
            let '(e, evs) := publish_events e
              ((trade_event ts (symbol_id o) (side o) <$> trades) ++
               (if (0 <? remaining_quantity o) && negb (immediate (type o))
                then [accepted_event ts (order_id o) (symbol_id o) (trader_id o) (side o) (price o)
                        (quantity o) (remaining_quantity o) (type o) (priority_seq o)]
                else [])) in
            (e, o, evs, Ok trades)
        end
    end.

(** ** cancelOrder *)
Definition engine_cancel (ts : Z) (jh : bool) (e : MatchingEngine) (id : Z)
    : MatchingEngine * list MarketEvent * bool :=
  if negb (isHealthy e jh) then (e, [], false)
  else
    match getOrderById (book_ e) id with
    | None => (e, [], false)
    | Some old =>
        let '(b, found) := cancelOrder (book_ e) id in
        if negb found then (with_book e b, [], false)
        else
          let '(e, evs) := publish_events (with_book e b)
            [cancelled_event ts id (symbol_id old) (trader_id old) (remaining_quantity old)] in
          (e, evs, true)
    end.

(** ** replaceOrder *)

(** The priority the replacement gets, or [None] when the counter is exhausted. *)
Definition replacement_priority (e : MatchingEngine) (old : Order) (new_price : double)
    (new_qty : Z) : MatchingEngine * option Z :=
  let same_price := deq new_price (price old) in
  let loses_priority := negb same_price || (quantity old <? new_qty) in
  if (0 <? new_qty) && loses_priority then tryNextPriority e
  else (e, Some (priority_seq old)).

Definition engine_replace (clock : Z -> Z) (now ts : Z) (jh : bool) (e : MatchingEngine)
    (id : Z) (new_price : double) (new_qty : Z)
    : MatchingEngine * list MarketEvent * result ReplaceResult :=
  if negb (isHealthy e jh) then (e, [], Ok replace_failed)
  else
    match getOrderById (book_ e) id with
    | None => (e, [], Ok replace_failed)
    | Some old =>
        if (0 <? new_qty) && (negb (isfinite new_price) || dle new_price d_zero)
        then (e, [], Ok replace_failed)
        else
          match replacement_priority e old new_price new_qty with
          | (_, None) => (halt e, [], Ok replace_failed)
          | (e, Some prio) =>
              let '(b, res) := replaceOrder clock now (book_ e) id new_price new_qty prio in
              let e := with_book e b in
              match res with
              | Throw ex => (e, [], Throw ex)
              | Ok r =>
                  if negb (success r) then (e, [], Ok r)
                  else
                    let '(e, evs) := publish_events e
                      (cancelled_event ts id (symbol_id old) (trader_id old)
                         (remaining_quantity old) ::
                       (trade_event ts (symbol_id old) (side old) <$> trades r) ++
                       (if (0 <? new_qty) && (0 <? final_remaining_quantity r) &&
                           negb (immediate (type old))
                        then [accepted_event ts id (symbol_id old) (trader_id old) (side old)
                                new_price new_qty (final_remaining_quantity r) (type old) prio]
                        else [])) in
                    (e, evs, Ok r)
              end
          end
    end.
End Engine.

(** ** Recovery entry points, which do not look at the engine's health *)

Definition restoreOrder (e : MatchingEngine) (order : Order) (remaining : Z)
    : MatchingEngine * bool :=
  if negb (bool_decide (type order = LIMIT)) then (e, false)
  else if (remaining =? 0) || (quantity order <? remaining) then (e, false)
  else if negb (isfinite (price order)) || dle (price order) d_zero then (e, false)
  else
    match getOrderById (book_ e) (order_id order) with
    | Some _ => (e, false)
    | None =>
        let '(b, added) := addOrder (book_ e) (set_remaining order remaining) in
        (with_book e b, added)
    end.

Definition restoreCancel (e : MatchingEngine) (id : Z) : MatchingEngine * bool :=
  let '(b, found) := cancelOrder (book_ e) id in (with_book e b, found).

Definition engine_applyFill (e : MatchingEngine) (id fill_qty : Z) : MatchingEngine * bool :=
  let '(b, filled) := applyFill (book_ e) id fill_qty in (with_book e b, filled).

Definition engine_setSTPPolicy (e : MatchingEngine) (policy : STPPolicy) : MatchingEngine :=
  with_book e (setSTPPolicy (book_ e) policy).
