(* ===== verification/EngineProps.v ===== *)
(** * EngineProps: the properties of the matching engine *)

From Stdlib Require Import ZArith Lia Bool.
From stdpp Require Import base tactics decidable numbers option list sorting.
From S2P Require Import Prelude.
From S2P Require Import Double.
From S2P Require Import Order.
From S2P Require Import OrderBook.
From S2P Require Import BookLevels.
From S2P Require Import BookMatch.
From S2P Require Import BookInv.
From S2P Require Import BookSpec.
From S2P Require Import BookFacts.
From S2P Require Import BookIds.
From S2P Require Import BookQueues.
From S2P Require Import BookProps.
From S2P Require Import Events.
From S2P Require Import MatchingEngine.

Local Open Scope Z_scope.

Section Props.
Context (ticks_overflow : double -> Z).

(** ** Runs *)

Inductive engine_op : Type :=
| OpProcess (clock : Z -> Z) (ts : Z) (jh : bool) (o : Order)
| OpCancel (ts : Z) (jh : bool) (id : Z)
| OpReplace (clock : Z -> Z) (now ts : Z) (jh : bool) (id : Z) (p : double) (qty : Z)
| OpRestoreOrder (o : Order) (remaining : Z)
| OpRestoreCancel (id : Z)
| OpApplyFill (id qty : Z)
| OpSetSTPPolicy (policy : STPPolicy)
| OpBeginRecovery
| OpMarkReady
| OpHalt
| OpSeedPriority (n : Z)
| OpSeedSequence (n : Z)
| OpSetSequenceCounter (c : option Z)
| OpSetPublisher (attached : bool)
| OpSetJournal (attached : bool).

Definition engine_step (e : MatchingEngine) (op : engine_op) : MatchingEngine * list MarketEvent :=
  match op with
  | OpProcess clock ts jh o =>
      let '(e', _, evs, _) := processOrder ticks_overflow clock ts jh e o in (e', evs)
  | OpCancel ts jh id => (engine_cancel ts jh e id).1
  | OpReplace clock now ts jh id p qty => (engine_replace ticks_overflow clock now ts jh e id p qty).1
  | OpRestoreOrder o r => ((restoreOrder e o r).1, [])
  | OpRestoreCancel id => ((restoreCancel e id).1, [])
  | OpApplyFill id qty => ((engine_applyFill e id qty).1, [])
  | OpSetSTPPolicy policy => (engine_setSTPPolicy e policy, [])
  | OpBeginRecovery => (beginRecovery e, [])
  | OpMarkReady => ((markReady e).1, [])
  | OpHalt => (halt e, [])
  | OpSeedPriority n => ((seedPrioritySequence e n).1, [])
  | OpSeedSequence n => (seedSequence e n, [])
  | OpSetSequenceCounter c => (setSequenceCounter e c, [])
  | OpSetPublisher b => (setMarketDataPublisher e b, [])
  | OpSetJournal b => (setJournal e b, [])
  end.

Fixpoint engine_run (e : MatchingEngine) (ops : list engine_op) : MatchingEngine * list MarketEvent :=
  match ops with
  | [] => (e, [])
  | op :: ops =>
      let '(e, evs) := engine_step e op in
      let '(e, evs') := engine_run e ops in (e, evs ++ evs')
  end.

(** The operations a client of a running engine uses: not those of recovery. *)
Definition client_op (op : engine_op) : bool :=
  match op with
  | OpRestoreOrder _ _ | OpRestoreCancel _ | OpApplyFill _ _ | OpSetSTPPolicy _ => false
  | _ => true
  end.

Lemma run_app e ops1 ops2 :
  engine_run e (ops1 ++ ops2) =
  let '(e1, evs1) := engine_run e ops1 in
  let '(e2, evs2) := engine_run e1 ops2 in (e2, evs1 ++ evs2).
Proof.
  revert e. induction ops1 as [|op ops1 IH]; intros e; simpl; [by destruct (engine_run e ops2)|].
  destruct (engine_step e op) as [e1 evs1]. rewrite IH.
  destruct (engine_run e1 ops1) as [e2 evs2], (engine_run e2 ops2) as [e3 evs3].
  by rewrite app_assoc.
Qed.

(** ** What an operation changes *)

Lemma publish_events_frame e fs e' evs :
  publish_events e fs = (e', evs) ->
  book_ e' = book_ e /\ state_ e' = state_ e /\ priority_counter_ e' = priority_counter_ e /\
  publisher_ e' = publisher_ e /\ journal_ e' = journal_ e.
Proof.
  unfold publish_events. destruct (publisher_ e) eqn:Hp; [|by intros [= <- <-]].
  destruct (emit _ fs). by intros [= <- <-].
Qed.

Lemma halted_unhealthy e jh : state_ e = HALTED -> isHealthy e jh = false.
Proof. unfold isHealthy, isHalted. intros ->. by rewrite bool_decide_true. Qed.

(** No operation leaves HALTED, and the healthy-only ones do nothing there. *)
Lemma halted_step e op :
  state_ e = HALTED ->
  let '(e', evs) := engine_step e op in
  state_ e' = HALTED /\ evs = [] /\ (client_op op = true -> book_ e' = book_ e).
Proof.
  intros He. destruct op; simpl; auto.
  - unfold processOrder. by rewrite halted_unhealthy.
  - unfold engine_cancel. by rewrite halted_unhealthy.
  - unfold engine_replace. by rewrite halted_unhealthy.
  - unfold restoreOrder. by repeat case_match.
  - unfold restoreCancel. by destruct (cancelOrder _ _).
  - unfold engine_applyFill. by destruct (applyFill _ _ _).
  - done.
  - unfold beginRecovery. by rewrite He.
  - unfold markReady. by rewrite He.
  - unfold seedPrioritySequence. by repeat case_match.
  - unfold seedSequence. by case_match.
Qed.

(** HALTED is final: no sequence of operations leaves it or publishes anything from it,
    and those of a client leave the book as it was. *)
Theorem halted_is_final ops e :
  state_ e = HALTED ->
  let '(e', evs) := engine_run e ops in
  state_ e' = HALTED /\ evs = [] /\ (Forall (fun op => client_op op = true) ops -> book_ e' = book_ e).
Proof.
  revert e. induction ops as [|op ops IH]; intros e He; simpl; [done|].
  pose proof (halted_step e op He) as Hs. destruct (engine_step e op) as [e1 evs1].
  destruct Hs as (H1 & -> & Hb). specialize (IH e1 H1).
  destruct (engine_run e1 ops) as [e2 evs2]. destruct IH as (H2 & -> & Hb2).
  split_and!; [done|done|]. intros [Hop Hops]%Forall_cons. rewrite Hb2; auto.
Qed.

(** ** The invariant of a running engine *)

(** What the callers of a running engine observe: ids of live orders are not used again, and
    an order is not replaced by itself (same price, same quantity; see
    [same_replace_breaks_priority]). *)
Definition op_ok (e : MatchingEngine) (op : engine_op) : Prop :=
  match op with
  | OpProcess _ _ _ o => incoming_wf o /\ order_id o ∉ book_ids (book_ e)
  | OpReplace _ _ _ _ id p qty =>
      in_u32 qty /\
      forall old, getOrderById (book_ e) id = Some old ->
        deq p (price old) && (qty =? quantity old) = false
  | OpRestoreOrder _ _ => False
  | OpApplyFill _ qty => 0 <= qty
  | OpSeedPriority n => in_u64 n
  | _ => True
  end.

Inductive engine_reachable (capacity : Z) : MatchingEngine -> Prop :=
| engine_reachable_new : engine_reachable capacity (MatchingEngine_new capacity)
| engine_reachable_step e op :
    engine_reachable capacity e -> op_ok e op -> engine_reachable capacity (engine_step e op).1.

Definition engine_inv (e : MatchingEngine) : Prop :=
  book_wf (book_ e) /\ uncrossed (book_ e) /\ unique_ids (book_ e) /\
  queues_by_priority (priority_counter_ e) (book_ e) /\ in_u64 (priority_counter_ e).

Lemma engine_inv_book e b n :
  engine_inv e -> book_wf b -> (uncrossed (book_ e) -> uncrossed b) -> unique_ids b ->
  queues_by_priority n b -> in_u64 n -> forall e', book_ e' = b -> priority_counter_ e' = n -> engine_inv e'.
Proof. intros (_ & Hu & _) Hw Hun Hid Hq Hn e' <- <-. split_and!; auto. Qed.

Lemma engine_inv_same e e' :
  book_ e' = book_ e -> priority_counter_ e' = priority_counter_ e -> engine_inv e -> engine_inv e'.
Proof. unfold engine_inv. by intros -> ->. Qed.

(** Book operations that lose orders only. *)
Lemma engine_inv_fewer e e' b :
  engine_inv e -> book_ e' = b -> priority_counter_ e' = priority_counter_ e ->
  keeps_book (book_ e) b -> fewer_ids (book_ e) b ->
  (queues_by_priority (priority_counter_ e) (book_ e) ->
   queues_by_priority (priority_counter_ e) b) -> engine_inv e'.
Proof.
  intros (Hw & Hu & Hid & Hq & Hn) Hb Hp [Hkw Hku] [Hf _] Hqq.
  eapply (engine_inv_book e b); eauto. by split_and!.
Qed.

Lemma tryNextPriority_Some e e' n :
  tryNextPriority e = (e', Some n) ->
  n = priority_counter_ e /\ e' = with_priority e (n + 1) /\ n <> UINT64_MAX.
Proof.
  unfold tryNextPriority. destruct (Z.eqb_spec (priority_counter_ e) UINT64_MAX); [done|].
  by intros [= <- <-].
Qed.

Lemma processOrder_inv clock ts jh e o :
  engine_inv e -> incoming_wf o -> order_id o ∉ book_ids (book_ e) ->
  engine_inv (engine_step e (OpProcess clock ts jh o)).1.
Proof.
  intros Hinv Ho Hid. pose proof Hinv as (Hw & Hu & Hids & Hq & Hn). simpl. unfold processOrder.
  destruct (negb _); [done|].
  destruct (tryNextPriority e) as [e1 [n|]] eqn:Ht; [|by apply (engine_inv_same e)].
  apply tryNextPriority_Some in Ht as (Hn' & -> & Hmax).
  set (inc := set_priority o n).
  destruct (matchOrder_keeps clock (book_ e) inc Hw Ho) as [Hw' Hu'].
  destruct (matchOrder_ids clock (book_ e) inc) as [Hids' _].
  pose proof (matchOrder_queues clock (book_ e) inc n eq_refl) as Hq'.
  assert (Hfin : forall e', book_ e' = mo_book (matchOrder clock (book_ e) inc) ->
    priority_counter_ e' = n + 1 -> engine_inv e').
  { rewrite Hn' in *. eapply (engine_inv_book e); eauto. unfold_int. lia. }
  cbn [book_ with_priority]. destruct (mo_result _) as [ts'|ex]; [|by apply Hfin].
  destruct (publish_events _ _) as [e2 evs] eqn:Hpub.
  apply publish_events_frame in Hpub as (Hb & _ & Hp & _). by apply Hfin.
Qed.

Lemma cancel_inv ts jh e id : engine_inv e -> engine_inv (engine_step e (OpCancel ts jh id)).1.
Proof.
  intros Hinv. simpl. unfold engine_cancel. destruct (negb _); [done|].
  destruct (getOrderById _ id) as [old|]; [|done].
  pose proof (cancelOrder_keeps (book_ e) id) as Hk.
  pose proof (cancelOrder_fewer (book_ e) id) as Hf.
  pose proof (cancelOrder_all priority_seq _ (prio_sorted_sub (priority_counter_ e)) (book_ e) id) as Hq.
  destruct (cancelOrder (book_ e) id) as [b found]. cbn [fst] in *.
  destruct found; cbn [negb]; [|by eapply engine_inv_fewer].
  destruct (publish_events _ _) as [e2 evs] eqn:Hpub.
  apply publish_events_frame in Hpub as (Hb & _ & Hp & _). by eapply engine_inv_fewer.
Qed.

Lemma replacement_priority_frame e old p qty e1 prio :
  replacement_priority e old p qty = (e1, prio) ->
  book_ e1 = book_ e /\ publisher_ e1 = publisher_ e /\ sequence_counter_ e1 = sequence_counter_ e.
Proof.
  unfold replacement_priority, tryNextPriority. destruct (_ && _); [destruct (_ =? _)|]; by intros [= <- <-].
Qed.

(** The priority of a replacement is fresh unless the order keeps its place. *)
Lemma replacement_priority_Some e old p qty e' prio :
  replacement_priority e old p qty = (e', Some prio) ->
  in_u64 (priority_counter_ e) -> in_u32 qty ->
  deq p (price old) && (qty =? quantity old) = false ->
  book_ e' = book_ e /\ priority_counter_ e <= priority_counter_ e' /\ in_u64 (priority_counter_ e') /\
  (deq p (price old) && (qty <? quantity old) = false -> qty <> 0 ->
   priority_counter_ e <= prio /\ prio + 1 = priority_counter_ e').
Proof.
  intros H Hc Hq Hne. unfold replacement_priority in H.
  destruct ((0 <? qty) && (negb (deq p (price old)) || (quantity old <? qty))) eqn:Hl.
  - apply tryNextPriority_Some in H as (-> & -> & Hmax). simpl. unfold_int.
    split_and!; [done|lia|lia|lia|]. intros. lia.
  - injection H as <- <-. split; [done|]. split; [lia|]. split; [done|].
    intros Hplace Hz. exfalso.
    rewrite (proj2 (Z.ltb_lt 0 qty)) in Hl by (unfold_int; lia). simpl in Hl.
    apply orb_false_iff in Hl as [Hp Hl]. apply negb_false_iff in Hp. rewrite Hp in *. simpl in *.
    bool_to_prop. lia.
Qed.

Lemma replace_inv clock now ts jh e id p qty :
  engine_inv e -> op_ok e (OpReplace clock now ts jh id p qty) ->
  engine_inv (engine_step e (OpReplace clock now ts jh id p qty)).1.
Proof.
  intros Hinv [Hqty Hok]. pose proof Hinv as (Hw & Hu & Hids & Hq & Hn). simpl.
  unfold engine_replace. destruct (negb _); [done|].
  destruct (getOrderById _ id) as [old|] eqn:Hget; [|done].
  destruct ((0 <? qty) && (negb (isfinite p) || _)); [done|].
  destruct (replacement_priority e old p qty) as [e1 [prio|]] eqn:Hr; [|by apply (engine_inv_same e)].
  apply replacement_priority_Some in Hr as (Hb1 & Hle & Hn1 & Hplace); [|done|done|auto].
  rewrite Hb1. destruct (replaceOrder_keeps clock now (book_ e) id p qty prio Hqty Hw) as [Hw' Hu'].
  pose proof (replaceOrder_unique clock now (book_ e) id p qty prio Hids) as Hids'.
  pose proof (replaceOrder_queues clock now (book_ e) id p qty prio _ _ old Hget Hle Hplace Hq) as Hq'.
  destruct (replaceOrder _ _ _ _ _ _ _) as [b res]. cbn [fst] in *.
  assert (Hfin : forall e', book_ e' = b -> priority_counter_ e' = priority_counter_ e1 -> engine_inv e')
    by (eapply (engine_inv_book e); eauto).
  destruct res as [r|ex]; [|by apply Hfin]. destruct (negb (success r)); [by apply Hfin|].
  destruct (publish_events _ _) as [e2 evs] eqn:Hpub.
  apply publish_events_frame in Hpub as (Hb & _ & Hp & _). by apply Hfin.
Qed.

Lemma engine_step_inv e op : engine_inv e -> op_ok e op -> engine_inv (engine_step e op).1.
Proof.
  intros Hinv Hok. destruct op; try (by apply (engine_inv_same e)).
  - destruct Hok. by apply processOrder_inv.
  - by apply cancel_inv.
  - by apply replace_inv.
  - simpl. unfold restoreCancel. pose proof (cancelOrder_keeps (book_ e) id) as Hk.
    pose proof (cancelOrder_fewer (book_ e) id) as Hf.
    pose proof (cancelOrder_all priority_seq _ (prio_sorted_sub (priority_counter_ e)) (book_ e) id) as Hq.
    destruct (cancelOrder (book_ e) id). by eapply engine_inv_fewer.
  - simpl. unfold engine_applyFill. pose proof (applyFill_keeps (book_ e) id qty Hok) as Hk.
    pose proof (applyFill_fewer (book_ e) id qty) as Hf.
    pose proof (applyFill_all priority_seq (fun _ _ => eq_refl) _
      (prio_sorted_sub (priority_counter_ e)) (book_ e) id qty) as Hq.
    destruct (applyFill (book_ e) id qty). by eapply engine_inv_fewer.
  - by destruct Hinv.
  - simpl. unfold beginRecovery. destruct (state_ e); by apply (engine_inv_same e).
  - simpl. unfold markReady. destruct (state_ e); by apply (engine_inv_same e).
  - simpl. unfold seedPrioritySequence. destruct (Z.ltb_spec n (priority_counter_ e)); [done|].
    destruct (Z.eqb_spec n (priority_counter_ e)); [done|].
    destruct Hinv as (Hw & Hu & Hids & Hq & Hn). simpl in *.
    split_and!; auto. eapply queues_by_priority_mono; [|exact Hq]. simpl. lia.
  - simpl. unfold seedSequence. destruct (sequence_counter_ e); by apply (engine_inv_same e).
Qed.

Lemma engine_new_inv capacity : 0 <= capacity -> engine_inv (MatchingEngine_new capacity).
Proof.
  intros Hc. split_and!; simpl; [by apply OrderBook_new_wf|constructor|apply NoDup_nil_2| |unfold_int; lia].
  split; constructor.
Qed.

(** C4: time priority and the priority sequence agree, as long as the engine's callers keep to
    [op_ok]: every order handed to [processOrder] is as the constructor of [Order] makes it and its
    id is not that of a resting order; no replacement is by the order's own price and quantity
    ([same_replace_breaks_priority]); quantities and seeds fit their types; and [restoreOrder], by
    which recovery puts old priorities back, is not called. Then, whatever sequence of operations
    an engine with a new book goes through, its book is well formed and uncrossed, order ids stay
    distinct, and in every price level the orders stand in the order of their priority numbers,
    all below the engine's counter. *)
Theorem engine_price_time_priority capacity e :
  0 <= capacity -> engine_reachable capacity e -> engine_inv e.
Proof.
  intros Hc. induction 1 as [|e op He IH Hop]; [by apply engine_new_inv|].
  by apply engine_step_inv.
Qed.
(** ** What is published *)

Lemma emit_Some n fs :
  in_u64 n ->
  emit (Some n) fs =
    (Some (u64 (n + Z.of_nat (length fs))), imap (fun i f => f (u64 (n + Z.of_nat i))) fs).
Proof.
  revert n. induction fs as [|f fs IH]; intros n Hn; simpl.
  { by rewrite Z.add_0_r, u64_small. }
  rewrite IH by apply u64_range. rewrite Z.add_0_r, (u64_small n) by done. f_equal.
  - rewrite u64_add_l. do 2 f_equal. lia.
  - f_equal. apply imap_ext. intros i x _. unfold compose. simpl. rewrite u64_add_l. do 2 f_equal. lia.
Qed.

(** The events of one call, numbered consecutively from the counter. *)
Lemma publish_events_Some e n fs e' evs :
  publisher_ e = true -> sequence_counter_ e = Some n -> in_u64 n ->
  publish_events e fs = (e', evs) ->
  sequence_counter_ e' = Some (u64 (n + Z.of_nat (length fs))) /\
  evs = imap (fun i f => f (u64 (n + Z.of_nat i))) fs.
Proof.
  unfold publish_events. intros -> -> Hn. rewrite emit_Some by done. by intros [= <- <-].
Qed.

Lemma match_iter_incoming clock inc st st' :
  (exists r, ms_incoming st = set_remaining inc r) -> match_iter clock st = Continue st' ->
  exists r, ms_incoming st' = set_remaining inc r.
Proof.
  intros [r Hr] Hit. pose proof (match_iter_case clock st) as Hcase. rewrite Hit in Hcase.
  inversion Hcase; subst; simpl; [eauto|]. unfold take_qty. rewrite Hr. eauto.
Qed.

Lemma match_iter_incoming_raise clock inc st st' e :
  (exists r, ms_incoming st = set_remaining inc r) -> match_iter clock st = Raise st' e ->
  exists r, ms_incoming st' = set_remaining inc r.
Proof.
  intros [r Hr] Hit. pose proof (match_iter_case clock st) as Hcase. rewrite Hit in Hcase.
  inversion Hcase; subst; simpl. unfold take_qty. rewrite Hr. eauto.
Qed.

(** The incoming order that [processOrder] hands to the book, and what it leaves of it. *)
Lemma processOrder_Ok clock ts jh e o e' o' evs ts' :
  processOrder ticks_overflow clock ts jh e o = (e', o', evs, Ok ts') ->
  isHealthy e jh = true -> priority_counter_ e <> UINT64_MAX ->
  let out := matchOrder clock (book_ e) (set_priority o (priority_counter_ e)) in
  mo_result out = Ok ts' /\ o' = mo_incoming out /\ book_ e' = mo_book out /\
  publish_events (with_book (with_priority e (priority_counter_ e + 1)) (mo_book out))
    ((trade_event ticks_overflow ts (symbol_id o') (side o') <$> ts') ++
     (if (0 <? remaining_quantity o') && negb (immediate (type o'))
      then [accepted_event ticks_overflow ts (order_id o') (symbol_id o') (trader_id o') (side o')
              (price o') (quantity o') (remaining_quantity o') (type o') (priority_seq o')]
      else [])) = (e', evs).
Proof.
  intros H Hh Hp. unfold processOrder in H. rewrite Hh in H. cbn [negb] in H.
  unfold tryNextPriority in H. rewrite (proj2 (Z.eqb_neq _ _) Hp) in H.
  cbn [book_ with_priority] in H.
  destruct (mo_result _) as [ts1|ex] eqn:Hr; [|done].
  destruct (publish_events _ _) as [e2 evs2] eqn:Hpub. injection H as <- <- <- <-.
  pose proof Hpub as Hframe. apply publish_events_frame in Hframe as (Hb & _).
  cbv zeta. split_and!; [done|done|exact Hb|exact Hpub].
Qed.

(** What [matchOrder] leaves of the incoming order but its remaining quantity. *)
Lemma matchOrder_incoming clock b inc :
  exists r, mo_incoming (matchOrder clock b inc) = set_remaining inc r.
Proof.
  assert (exists r, inc = set_remaining inc r) as Hsame
    by (exists (remaining_quantity inc); by rewrite set_remaining_id).
  unfold matchOrder. destruct (_ && _); [done|]. destruct (stp_phase b inc) as [b' [|]]; [done|].
  unfold match_phase.
  pose proof (match_loop_inv clock (fun st => exists r, ms_incoming st = set_remaining inc r)) as H.
  specialize (H (match_iter_incoming clock inc) (match_iter_incoming_raise clock inc)
    (S (match_measure (match_start b' inc))) (match_start b' inc) Hsame).
  by destruct (match_loop _ clock _).
Qed.

(** C28: [processOrder] publishes, in order and with consecutive sequence numbers, one trade
    event per trade returned and then, exactly when a LIMIT order has quantity left, one
    acceptance with the order's fields and final remaining quantity. *)
Theorem processOrder_publishes clock ts jh e o e' o' evs trades n :
  processOrder ticks_overflow clock ts jh e o = (e', o', evs, Ok trades) ->
  isHealthy e jh = true -> priority_counter_ e <> UINT64_MAX ->
  publisher_ e = true -> sequence_counter_ e = Some n -> in_u64 n ->
  (forall i t, trades !! i = Some t ->
     evs !! i = Some (trade_event ticks_overflow ts (symbol_id o) (side o) t (u64 (n + Z.of_nat i)))) /\
  drop (length trades) evs =
    (if (0 <? remaining_quantity o') && bool_decide (type o = LIMIT)
     then [accepted_event ticks_overflow ts (order_id o) (symbol_id o) (trader_id o) (side o) (price o)
             (quantity o) (remaining_quantity o') LIMIT (priority_counter_ e)
             (u64 (n + Z.of_nat (length trades)))]
     else []) /\
  sequence_counter_ e' = Some (u64 (n + Z.of_nat (length evs))).
Proof.
  intros H Hh Hp Hpub Hseq Hn.
  destruct (processOrder_Ok _ _ _ _ _ _ _ _ _ H Hh Hp) as (Hr & Ho' & _ & Hev).
  apply (publish_events_Some _ n) in Hev as [Hc Hevs]; [|done|done|done].
  destruct (matchOrder_incoming clock (book_ e) (set_priority o (priority_counter_ e))) as [r Hinc].
  rewrite Hinc in Ho'. subst o'. cbn [set_remaining set_priority symbol_id side type order_id
    trader_id price quantity remaining_quantity priority_seq] in *.
  rewrite Hc, Hevs, length_imap, imap_app. split_and!; [| |done].
  - intros i t Ht. rewrite lookup_app_l by (rewrite length_imap, length_fmap; by eapply lookup_lt_Some).
    by rewrite list_lookup_imap, list_lookup_fmap, Ht.
  - rewrite drop_app_length' by (by rewrite length_imap, length_fmap).
    destruct (0 <? r); [|done]. destruct (type o); try done. simpl.
    by rewrite length_fmap, Nat.add_0_r.
Qed.
(** ** Acceptances and the book *)

Definition is_accepted (ev : MarketEvent) : bool :=
  match ev with OrderAccepted _ => true | _ => false end.

(** The acceptance that describes a resting order. *)
Definition acceptance_of (ts : Z) (q : Order) (seq : Z) : MarketEvent :=
  accepted_event ticks_overflow ts (order_id q) (symbol_id q) (trader_id q) (side q) (price q)
    (quantity q) (remaining_quantity q) (type q) (priority_seq q) seq.

Lemma emit_seqs c fs c' evs :
  emit c fs = (c', evs) -> exists seqs, length seqs = length fs /\ evs = zip_with (fun f n => f n) fs seqs.
Proof.
  revert c c' evs. induction fs as [|f fs IH]; intros c c' evs; simpl.
  { intros [= <- <-]. by exists []. }
  destruct (nextSequence c) as [c1 n]. destruct (emit c1 fs) as [c2 evs'] eqn:He.
  intros [= <- <-]. destruct (IH _ _ _ He) as (seqs & Hl & ->).
  exists (n :: seqs). simpl. by rewrite Hl.
Qed.

Lemma trades_not_accepted ts sym s trades seqs :
  Forall (fun ev => is_accepted ev = false)
    (zip_with (fun f n => f n) (trade_event ticks_overflow ts sym s <$> trades) seqs).
Proof.
  revert seqs. induction trades as [|t trades IH]; intros [|n seqs]; simpl; constructor; auto.
  unfold trade_event. by destruct s.
Qed.

Lemma rests_immediate o : rests o = (0 <? remaining_quantity o) && negb (immediate (type o)).
Proof. unfold rests, immediate. by destruct (0 <? remaining_quantity o), (type o). Qed.

(** A FOK order that cannot be filled is left alone. *)
Lemma matchOrder_unfillable clock b inc :
  type inc = FOK -> canFullyFill b inc = false -> matchOrder clock b inc = Build_MatchOutcome b inc (Ok []).
Proof. intros Ht Hc. unfold matchOrder. by rewrite bool_decide_true, Hc. Qed.

(** Where an order is after [matchOrder]: in the book as the call leaves it, if it rests, and
    nowhere otherwise. There has to be a slot for it: one free before, or that of an order it
    may have traded with. *)
Lemma matchOrder_rests clock b inc :
  book_wf b -> unique_ids b -> incoming_wf inc ->
  order_id inc ∉ book_ids b -> stp_policy_ b = NONE \/ wouldSelfTrade b inc = false ->
  0 < pool_available_ b + Z.of_nat (length (candidates b inc)) ->
  1 <= next_trade_id_ b -> next_trade_id_ b + pool_capacity_ b <= UINT64_MAX ->
  let out := matchOrder clock b inc in
  (exists ts, mo_result out = Ok ts) /\
  getOrderById (mo_book out) (order_id inc) = (if rests (mo_incoming out) then Some (mo_incoming out) else None).
Proof.
  intros Hwf Hu Hinc Hid Hstp Hpool H1 Hmax out.
  destruct (decide (type inc = FOK /\ canFullyFill b inc = false)) as [[Ht Hc]|Hfok].
  { unfold out. rewrite (matchOrder_unfillable clock b inc Ht Hc). split; [by exists []|]. cbn.
    rewrite rests_immediate, Ht, andb_false_r. by apply getOrderById_None. }
  pose proof (fresh_no_throw b inc Hwf Hid H1 Hmax) as Hno.
  pose proof (matchOrder_greedy clock b inc Hwf Hinc Hstp) as Hg.
  specialize (Hg ltac:(intros Ht; destruct (canFullyFill b inc) eqn:Hc; [done|by destruct Hfok]) Hno).
  destruct (matchOrder_ids clock b inc) as [Hu' _]. specialize (Hu' Hid Hu). fold out in Hg, Hu'.
  destruct (greedy _ _) as [[fs rest] r] eqn:Hgr. cbv zeta in Hg.
  destruct Hg as (Hr & Hi & Hopp & Hsame & _). fold out in Hr, Hi, Hopp, Hsame. rewrite Hi. split; [eauto|].
  rewrite (proj2 (Z.ltb_lt 0 _) Hpool), andb_true_r in Hsame.
  destruct (rests (set_remaining inc r)) eqn:Hrs.
  - apply (getOrderById_unique (mo_book out) (side inc) (set_remaining inc r) Hu').
    rewrite Hsame, push_order_perm. by left.
  - apply getOrderById_None. rewrite (elem_of_book_ids (side inc)). unfold side_ids. rewrite Hsame.
    rewrite (elem_of_book_ids (side inc)) in Hid. intros [Hx|Hx]; apply Hid; [by left|right].
    pose proof (greedy_ids _ _ _ _ _ Hgr) as Hsub.
    rewrite Hopp, ids_app, elem_of_app in Hx. unfold side_ids.
    rewrite (marketable_split inc (levels_of (opposite (side inc)) b)), flat_app, ids_app, elem_of_app.
    destruct Hx as [Hx|Hx]; [left|by right]. by eapply elem_of_sublist.
Qed.

Lemma wouldSelfTrade_priority b o n : wouldSelfTrade b (set_priority o n) = wouldSelfTrade b o.
Proof.
  unfold wouldSelfTrade. cbn [remaining_quantity set_priority side].
  generalize (remaining_quantity o). induction (levels_of _ b) as [|l ls IH]; intros r; simpl; [done|].
  change (beyond (set_priority o n) (lprice l)) with (beyond o (lprice l)).
  destruct (beyond o (lprice l)); [done|]. by destruct (self_scan _ _ _).
Qed.

Lemma candidates_priority b o n : candidates b (set_priority o n) = candidates b o.
Proof.
  unfold candidates. cbn [side set_priority]. f_equal. induction (levels_of _ b) as [|l ls IH]; [done|].
  cbn [marketable]. change (beyond (set_priority o n) (lprice l)) with (beyond o (lprice l)). by rewrite IH.
Qed.

(** C7: an acceptance says what rests. Let a healthy engine with a publisher, in a state of
    [engine_inv], process an order of any type with a fresh id, without self-trade prevention being at work (policy NONE, or no own order
    in reach), with a slot of the pool for it (a free one, or one of an order it can trade with),
    and with priorities and trade ids that do not wrap around. Then [processOrder] publishes an
    acceptance exactly when the order comes to rest, and it describes the resting order: the book
    answers a lookup of the id with an order whose fields are those of the last event published, or
    does not know it and no acceptance was published. (Where these conditions fail, the code
    announces orders that do not rest: [newest_cancelled_but_accepted],
    [pool_exhausted_but_accepted].) *)
Theorem processOrder_acceptance_sound clock ts jh e o e' o' evs res :
  processOrder ticks_overflow clock ts jh e o = (e', o', evs, res) ->
  engine_inv e -> incoming_wf o -> order_id o ∉ book_ids (book_ e) ->
  isHealthy e jh = true -> priority_counter_ e <> UINT64_MAX -> publisher_ e = true ->
  stp_policy_ (book_ e) = NONE \/ wouldSelfTrade (book_ e) o = false ->
  0 < pool_available_ (book_ e) + Z.of_nat (length (candidates (book_ e) o)) -> 1 <= next_trade_id_ (book_ e) ->
  next_trade_id_ (book_ e) + pool_capacity_ (book_ e) <= UINT64_MAX ->
  match getOrderById (book_ e') (order_id o) with
  | Some q => priority_seq q = priority_counter_ e /\ exists seq, last evs = Some (acceptance_of ts q seq)
  | None => Forall (fun ev => is_accepted ev = false) evs
  end.
Proof.
  intros H (Hw & _ & Hids & _) Ho Hid Hh Hp Hpub Hstp Hpool H1 Hmax.
  rewrite <- (wouldSelfTrade_priority (book_ e) o (priority_counter_ e)) in Hstp.
  rewrite <- (candidates_priority (book_ e) o (priority_counter_ e)) in Hpool.
  pose proof (matchOrder_rests clock (book_ e) (set_priority o (priority_counter_ e))
    Hw Hids Ho Hid Hstp Hpool H1 Hmax) as [[ts' Hr] Hget].
  assert (res = Ok ts') as ->.
  { unfold processOrder in H. rewrite Hh in H. cbn [negb] in H. unfold tryNextPriority in H.
    rewrite (proj2 (Z.eqb_neq _ _) Hp) in H. cbn [book_ with_priority] in H. rewrite Hr in H.
    destruct (publish_events _ _). by injection H as _ _ _ <-. }
  destruct (processOrder_Ok _ _ _ _ _ _ _ _ _ H Hh Hp) as (_ & Ho' & Hb & Hev).
  rewrite Hb. cbn [order_id set_priority] in Hget. rewrite Hget, <- Ho'.
  destruct (matchOrder_incoming clock (book_ e) (set_priority o (priority_counter_ e))) as [r Hinc].
  rewrite <- Ho' in Hinc. rewrite <- rests_immediate in Hev.
  unfold publish_events in Hev. cbn [publisher_ with_book with_priority] in Hev. rewrite Hpub in Hev.
  destruct (emit _ _) as [c evs1] eqn:Hem. injection Hev as _ <-.
  apply emit_seqs in Hem as (seqs & Hl & ->). destruct (rests o').
  - split; [by rewrite Hinc|].
    rewrite length_app in Hl. simpl in Hl.
    destruct seqs as [|seq seqs _] using rev_ind; [simpl in Hl; lia|].
    rewrite length_app in Hl. simpl in Hl. exists seq.
    rewrite zip_with_app by lia. simpl. by rewrite last_snoc.
  - rewrite app_nil_r. apply trades_not_accepted.
Qed.
End Props.

(** ** A concrete engine *)

Definition sample_overflow (p : double) : Z := INT64_MIN.

Definition sample_engine : MatchingEngine :=
  setSequenceCounter (setMarketDataPublisher (MatchingEngine_new 16) true) (Some 1).

Definition sample_ops : list engine_op :=
  (fun o => OpProcess sample_clock 1000 true o) <$> sample_orders.

Definition sample_running : MatchingEngine := (engine_run sample_overflow sample_engine sample_ops).1.

Lemma run_reachable capacity e ops :
  engine_reachable sample_overflow capacity e ->
  (forall before op after, ops = before ++ op :: after ->
     op_ok (engine_run sample_overflow e before).1 op) ->
  engine_reachable sample_overflow capacity (engine_run sample_overflow e ops).1.
Proof.
  revert e. induction ops as [|op ops IH]; intros e He Hok; simpl; [done|].
  pose proof (engine_reachable_step sample_overflow capacity e op He (Hok [] op ops eq_refl)) as Hs.
  destruct (engine_step sample_overflow e op) as [e1 evs1] eqn:Hstep. cbn [fst] in Hs.
  specialize (IH e1 Hs). destruct (engine_run sample_overflow e1 ops) as [e2 evs2] eqn:Hrun.
  apply IH. intros before op' after ->. specialize (Hok (op :: before) op' after eq_refl).
  cbn [engine_run] in Hok. rewrite Hstep in Hok. by destruct (engine_run _ e1 before).
Qed.

Ltac fresh_id_ok := apply (bool_decide_eq_true_1 _); vm_compute; reflexivity.

Lemma sample_running_reachable : engine_reachable sample_overflow 16 sample_running.
Proof.
  apply run_reachable.
  - apply (engine_reachable_step sample_overflow 16 _ (OpSetSequenceCounter (Some 1))); [|done].
    apply (engine_reachable_step sample_overflow 16 _ (OpSetPublisher true)); [|done].
    apply engine_reachable_new.
  - intros before op after Heq.
    unfold sample_ops, sample_orders in Heq. cbn [fmap list_fmap] in Heq.
    do 4 (destruct before as [|? before]; cbn [app] in Heq;
      [injection Heq as <- _; split; [incoming_ok|fresh_id_ok]|injection Heq as <- Heq]).
    by destruct before.
Qed.

Lemma sample_running_inv : engine_inv sample_running.
Proof.
  assert (forall e, engine_reachable sample_overflow 16 e -> engine_inv e) as H.
  { induction 1 as [|e op He IH Hop]; [by apply engine_new_inv|]. by apply engine_step_inv. }
  apply H, sample_running_reachable.
Qed.

Lemma halted_is_final_witness :
  let '(e', evs) := engine_run sample_overflow (halt sample_running)
    [OpMarkReady; OpCancel 0 true 1; OpProcess sample_clock 0 true (sample_buy LIMIT 101 15)] in
  state_ e' = HALTED /\ evs = [] /\
  (Forall (fun op => client_op op = true)
     [OpMarkReady; OpCancel 0 true 1; OpProcess sample_clock 0 true (sample_buy LIMIT 101 15)] ->
   book_ e' = book_ (halt sample_running)).
Proof. apply (halted_is_final sample_overflow). reflexivity. Defined.

Lemma engine_price_time_priority_witness : engine_inv sample_running.
Proof.
  apply (engine_price_time_priority sample_overflow 16); [lia|exact sample_running_reachable].
Defined.

Lemma processOrder_publishes_witness :
  let '(e', o', evs, res) :=
    processOrder sample_overflow sample_clock 2000 true sample_running (sample_buy LIMIT 100 15) in
  exists trades, res = Ok trades /\ length trades = 2%nat /\
    drop 2 evs = [accepted_event sample_overflow 2000 9 1 5 BUY (d_of_Z 100) 15 4 LIMIT 4 7] /\
    sequence_counter_ e' = Some 8.
Proof.
  destruct (processOrder sample_overflow sample_clock 2000 true sample_running
    (sample_buy LIMIT 100 15)) as [[[e' o'] evs] res] eqn:H.
  destruct res as [trades|ex]; [|vm_compute in H; discriminate H].
  pose proof (processOrder_publishes sample_overflow sample_clock 2000 true sample_running
    (sample_buy LIMIT 100 15) e' o' evs trades 5 H ltac:(reflexivity) ltac:(discriminate)
    ltac:(reflexivity) ltac:(reflexivity) ltac:(unfold_int; lia)) as (_ & Hd & Hc).
  exists trades. vm_compute in H. injection H as He Ho Hevs Ht.
  assert (length trades = 2%nat) as Hlen by (rewrite <- Ht; reflexivity).
  split_and!; [reflexivity|exact Hlen| |].
  - rewrite Hlen, <- Ho in Hd. exact Hd.
  - rewrite Hc, <- Hevs. reflexivity.
Defined.

Lemma processOrder_acceptance_sound_witness :
  let '(e', o', evs, res) :=
    processOrder sample_overflow sample_clock 2000 true sample_running (sample_buy LIMIT 100 15) in
  match getOrderById (book_ e') 9 with
  | Some q => priority_seq q = 4 /\ exists seq, last evs = Some (acceptance_of sample_overflow 2000 q seq)
  | None => Forall (fun ev => is_accepted ev = false) evs
  end.
Proof.
  destruct (processOrder sample_overflow sample_clock 2000 true sample_running
    (sample_buy LIMIT 100 15)) as [[[e' o'] evs] res] eqn:H.
  apply (processOrder_acceptance_sound sample_overflow sample_clock 2000 true sample_running
    (sample_buy LIMIT 100 15) e' o' evs res H).
  - exact sample_running_inv.
  - incoming_ok.
  - fresh_id_ok.
  - reflexivity.
  - discriminate.
  - reflexivity.
  - left. reflexivity.
  - reflexivity.
  - discriminate.
  - discriminate.
Defined.

(** ** Where the code and its documentation differ *)

(** Replacing an order by its own price and quantity sends it to the back of its queue with its
    old priority number: the queue no longer follows the priority sequence, and the acceptance
    that is published repeats a number published before. *)
Theorem same_replace_breaks_priority :
  let '(e', evs, _) :=
    engine_replace sample_overflow sample_clock 50 60 true sample_running 1 (d_of_Z 100) 7 in
  priority_seq <$> flat (take 1 (asks_ (book_ e'))) = [1; 0] /\
  (exists c a, evs = [c; OrderAccepted a] /\ oa_prioritySeq a = 0).
Proof. vm_compute. split; [reflexivity|]. do 2 eexists. split; reflexivity. Qed.

(** Under CANCEL_NEWEST an order that was refused is still announced as accepted. *)
Theorem newest_cancelled_but_accepted :
  let '(e', _, evs, res) :=
    processOrder sample_overflow sample_clock 60 true (engine_setSTPPolicy sample_running CANCEL_NEWEST)
      (sample_order 9 2 BUY LIMIT 100 5) in
  res = Ok [] /\ getOrderById (book_ e') 9 = None /\ is_accepted <$> evs = [true].
Proof. vm_compute. auto. Qed.

(** With every pool slot taken the order is dropped, and still announced as accepted. *)
Theorem pool_exhausted_but_accepted :
  let e := setMarketDataPublisher (MatchingEngine_new 0) true in
  let '(e', _, evs, res) := processOrder sample_overflow sample_clock 60 true e (sample_buy LIMIT 100 5) in
  res = Ok [] /\ getOrderCount (book_ e') = 0%nat /\ is_accepted <$> evs = [true].
Proof. vm_compute. auto. Qed.
