(* ===== verification/RiskEngine.v ===== *)
(** * RiskEngine: the pre-trade risk gate

    The class [RiskEngine] of include/RiskEngine.h and src/RiskEngine.cpp. The hash tables are
    finite maps; an allocation failure, which the code catches, is not modelled. *)

From Stdlib Require Import ZArith Lia Bool.
From stdpp Require Import base tactics decidable numbers option gmap list.
From S2P Require Import Prelude.
From S2P Require Import Double.
From S2P Require Import Maps.
From S2P Require Import Order.
From S2P Require Import OrderBook.

Local Open Scope Z_scope.

(** ** Data *)

Inductive RiskRejectReason : Type :=
| RISK_NONE
| INVALID_SYMBOL
| INVALID_QUANTITY
| ORDER_TOO_LARGE
| POSITION_LIMIT_EXCEEDED
| PRICE_BAND_VIOLATION
| INVALID_PRICE
| STATE_VIOLATION
| INVALID_CONFIGURATION
| UNKNOWN
| NOTIONAL
| STATE_CORRUPT
| SHARD_HALTED.

#[export] Instance RiskRejectReason_eq_dec : EqDecision RiskRejectReason.
Proof. solve_decision. Defined.

(** Trader and symbol. *)
Definition PositionKey : Type := Z * Z.

Record PositionState : Type := Build_PositionState {
  position : Z;
  working_buy : Z;
  working_sell : Z
}.

Definition PositionState_default : PositionState := Build_PositionState 0 0 0.

Record OrderRiskInfo : Type := Build_OrderRiskInfo {
  ri_trader_id : Z;
  ri_symbol_id : Z;
  ri_side : OrderSide;
  reserved_qty : Z
}.

Definition MAX_SYMBOLS : Z := 1000000.

Record RiskEngine : Type := Build_RiskEngine {
  max_order_qty_ : Z;
  max_position_ : Z;
  price_band_pct_ : double;
  ref_prices_ : list double;
  ref_price_set_ : list Z;
  positions_ : gmap PositionKey PositionState;
  order_risk_ : gmap Z OrderRiskInfo;
  state_corrupt_ : bool
}.

Definition RiskEngine_new : RiskEngine :=
  Build_RiskEngine 1000000 10000000 (d_of_Z 5) [] [] ∅ ∅ false.

(** Assignment to the two tables. *)
Definition with_tables (r : RiskEngine) (p : gmap PositionKey PositionState)
    (o : gmap Z OrderRiskInfo) : RiskEngine :=
  Build_RiskEngine (max_order_qty_ r) (max_position_ r) (price_band_pct_ r) (ref_prices_ r)
    (ref_price_set_ r) p o (state_corrupt_ r).

(** ** Configuration *)

Definition setMaxOrderSize (r : RiskEngine) (max_qty : Z) : RiskEngine :=
  if INT64_MAX <? max_qty then r
  else Build_RiskEngine max_qty (max_position_ r) (price_band_pct_ r) (ref_prices_ r)
         (ref_price_set_ r) (positions_ r) (order_risk_ r) (state_corrupt_ r).

Definition setMaxPosition (r : RiskEngine) (max_pos : Z) : RiskEngine :=
  if INT64_MAX <? max_pos then r
  else Build_RiskEngine (if max_pos <? max_order_qty_ r then max_pos else max_order_qty_ r)
         max_pos (price_band_pct_ r) (ref_prices_ r)
         (ref_price_set_ r) (positions_ r) (order_risk_ r) (state_corrupt_ r).

Definition setPriceBandPct (r : RiskEngine) (pct : double) : RiskEngine :=
  if negb (isfinite pct) then r
  else if dlt pct d_zero || dle (d_of_Z 100) pct then r
  else Build_RiskEngine (max_order_qty_ r) (max_position_ r) pct (ref_prices_ r)
         (ref_price_set_ r) (positions_ r) (order_risk_ r) (state_corrupt_ r).

Definition setReferencePrice (r : RiskEngine) (symbol : Z) (p : double) : RiskEngine * bool :=
  if MAX_SYMBOLS <=? symbol then (r, false)
  else if negb (isfinite p) || dle p d_zero then (r, false)
  else
    let i := Z.to_nat symbol in
    let grow := bool_decide (length (ref_prices_ r) <= i)%nat in
    let prices := if grow then resize (S i) d_zero (ref_prices_ r) else ref_prices_ r in
    let flags := if grow then resize (S i) 0 (ref_price_set_ r) else ref_price_set_ r in
    (Build_RiskEngine (max_order_qty_ r) (max_position_ r) (price_band_pct_ r)
       (<[i := p]> prices) (<[i := 1]> flags) (positions_ r) (order_risk_ r) (state_corrupt_ r),
     true).

(** ** Arithmetic helpers: [None] is the answer [false] *)

Definition canAddSigned (a b : Z) : option Z :=
  if (0 <? b) && (INT64_MAX - b <? a) then None
  else if (b <? 0) && (a <? INT64_MIN - b) then None
  else Some (a + b).

Definition canSubSigned (a b : Z) : option Z :=
  if (0 <? b) && (a <? INT64_MIN + b) then None
  else if (b <? 0) && (INT64_MAX + b <? a) then None
  else Some (a - b).

Definition canAddUnsigned (a b : Z) : option Z :=
  if UINT64_MAX - b <? a then None else Some (a + b).

(** ** Validation *)

Definition checkOrderFields (r : RiskEngine) (o : Order) : RiskRejectReason :=
  if quantity o =? 0 then INVALID_QUANTITY
  else if max_order_qty_ r <? quantity o then ORDER_TOO_LARGE
  else if MAX_SYMBOLS <=? symbol_id o then INVALID_SYMBOL
  else
    match ref_prices_ r !! Z.to_nat (symbol_id o), ref_price_set_ r !! Z.to_nat (symbol_id o) with
    | Some ref, Some set =>
        if set =? 0 then INVALID_SYMBOL
        else if bool_decide (type o = MARKET) then RISK_NONE
        else if negb (isfinite (price o)) || dle (price o) d_zero then INVALID_PRICE
        else if negb (isfinite ref) || dle ref d_zero then INVALID_SYMBOL
        else
          let band := ddiv (price_band_pct_ r) (d_of_Z 100) in
          let upper := dmul ref (dadd (d_of_Z 1) band) in
          let lower := dmul ref (dsub (d_of_Z 1) band) in
          if negb (isfinite upper) || negb (isfinite lower) then INVALID_PRICE
          else if dlt (price o) lower || dlt upper (price o) then PRICE_BAND_VIOLATION
          else RISK_NONE
    | _, _ => INVALID_SYMBOL
    end.

(** The state of a key, or the zeroes that stand for a missing one. *)
Definition state_of (r : RiskEngine) (k : PositionKey) : PositionState :=
  default PositionState_default (positions_ r !! k).

Definition key_of (o : Order) : PositionKey := (trader_id o, symbol_id o).

Definition validate (r : RiskEngine) (o : Order) : RiskRejectReason :=
  if state_corrupt_ r then STATE_CORRUPT
  else
    match checkOrderFields r o with
    | RISK_NONE =>
        let qty := quantity o in
        let max_pos := to_i64 (max_position_ r) in
        let st := state_of r (key_of o) in
        match side o with
        | BUY =>
            match canAddSigned (position st) (to_i64 (working_buy st)) with
            | None => POSITION_LIMIT_EXCEEDED
            | Some projected =>
                match canAddSigned projected qty with
                | None => POSITION_LIMIT_EXCEEDED
                | Some projected =>
                    if max_pos <? projected then POSITION_LIMIT_EXCEEDED else RISK_NONE
                end
            end
        | SELL =>
            match canSubSigned (position st) (to_i64 (working_sell st)) with
            | None => POSITION_LIMIT_EXCEEDED
            | Some projected =>
                match canSubSigned projected qty with
                | None => POSITION_LIMIT_EXCEEDED
                | Some projected =>
                    if projected <? - max_pos then POSITION_LIMIT_EXCEEDED else RISK_NONE
                end
            end
        end
    | reason => reason
    end.

Definition working (s : OrderSide) (st : PositionState) : Z :=
  match s with BUY => working_buy st | SELL => working_sell st end.

Definition set_working (s : OrderSide) (st : PositionState) (w : Z) : PositionState :=
  match s with
  | BUY => Build_PositionState (position st) w (working_sell st)
  | SELL => Build_PositionState (position st) (working_buy st) w
  end.

Definition validateReplace (r : RiskEngine) (old_order_id : Z) (o : Order) : RiskRejectReason :=
  if state_corrupt_ r then STATE_CORRUPT
  else
    match checkOrderFields r o with
    | RISK_NONE =>
        match order_risk_ r !! old_order_id with
        | None => STATE_VIOLATION
        | Some old_info =>
            if negb (ri_trader_id old_info =? trader_id o) ||
               negb (ri_symbol_id old_info =? symbol_id o) ||
               negb (bool_decide (ri_side old_info = side o)) then STATE_VIOLATION
            else
              let st := state_of r (key_of o) in
              let current_working := working (side o) st in
              if current_working <? reserved_qty old_info then STATE_CORRUPT
              else
                match canAddUnsigned (current_working - reserved_qty old_info) (quantity o) with
                | None => POSITION_LIMIT_EXCEEDED
                | Some projected_working =>
                    let max_pos := to_i64 (max_position_ r) in
                    match side o with
                    | BUY =>
                        match canAddSigned (position st) (to_i64 projected_working) with
                        | None => POSITION_LIMIT_EXCEEDED
                        | Some projected =>
                            if max_pos <? projected then POSITION_LIMIT_EXCEEDED else RISK_NONE
                        end
                    | SELL =>
                        match canSubSigned (position st) (to_i64 projected_working) with
                        | None => POSITION_LIMIT_EXCEEDED
                        | Some projected =>
                            if projected <? - max_pos then POSITION_LIMIT_EXCEEDED else RISK_NONE
                        end
                    end
                end
        end
    | reason => reason
    end.

(** ** State transitions *)

Definition applyResting (r : RiskEngine) (o : Order) (remaining : Z) (enforce_limits : bool)
    : RiskEngine * bool :=
  if state_corrupt_ r then (r, false)
  else if (remaining =? 0) || (quantity o <? remaining) then (r, false)
  else if negb (bool_decide (type o = LIMIT)) then (r, false)
  else
    match order_risk_ r !! order_id o with
    | Some _ => (r, false)
    | None =>
        let st := state_of r (key_of o) in
        match canAddUnsigned (working (side o) st) remaining with
        | None => (r, false)
        | Some new_working =>
            if enforce_limits && (max_position_ r <? new_working) then (r, false)
            else
              (with_tables r
                 (<[key_of o := set_working (side o) st new_working]> (positions_ r))
                 (<[order_id o :=
                      Build_OrderRiskInfo (trader_id o) (symbol_id o) (side o) remaining]>
                    (order_risk_ r)),
               true)
        end
    end.

(** Erases the reservation when it reaches zero, and the position state when all of it does. *)
Definition store_reservation (m : gmap Z OrderRiskInfo) (id : Z) (info : OrderRiskInfo) (q : Z)
    : gmap Z OrderRiskInfo :=
  if q =? 0 then delete id m
  else <[id := Build_OrderRiskInfo (ri_trader_id info) (ri_symbol_id info) (ri_side info) q]> m.

Definition store_state (m : gmap PositionKey PositionState) (k : PositionKey) (st : PositionState)
    : gmap PositionKey PositionState :=
  if (position st =? 0) && (working_buy st =? 0) && (working_sell st =? 0) then delete k m
  else <[k := st]> m.

Definition info_key (info : OrderRiskInfo) : PositionKey := (ri_trader_id info, ri_symbol_id info).

(** The fill of [fill_qty] at a state: [None] when a check fails. *)
Definition fill_state (s : OrderSide) (st : PositionState) (fill_qty : Z) : option PositionState :=
  match s with
  | BUY =>
      if working_buy st <? fill_qty then None
      else
        match canAddSigned (position st) fill_qty with
        | None => None
        | Some p => Some (Build_PositionState p (working_buy st - fill_qty) (working_sell st))
        end
  | SELL =>
      if working_sell st <? fill_qty then None
      else
        match canSubSigned (position st) fill_qty with
        | None => None
        | Some p => Some (Build_PositionState p (working_buy st) (working_sell st - fill_qty))
        end
  end.

Definition risk_applyFill (r : RiskEngine) (id fill_qty : Z) : RiskEngine * bool :=
  if state_corrupt_ r || (fill_qty =? 0) then (r, false)
  else
    match order_risk_ r !! id with
    | None => (r, false)
    | Some info =>
        if reserved_qty info <? fill_qty then (r, false)
        else
          match positions_ r !! info_key info with
          | None => (r, false)
          | Some st =>
              match fill_state (ri_side info) st fill_qty with
              | None => (r, false)
              | Some st' =>
                  (with_tables r (store_state (positions_ r) (info_key info) st')
                     (store_reservation (order_risk_ r) id info (reserved_qty info - fill_qty)),
                   true)
              end
          end
    end.

Definition applyCancelled (r : RiskEngine) (id cancelled_qty : Z) : RiskEngine * bool :=
  if state_corrupt_ r || (cancelled_qty =? 0) then (r, false)
  else
    match order_risk_ r !! id with
    | None => (r, false)
    | Some info =>
        if reserved_qty info <? cancelled_qty then (r, false)
        else
          match positions_ r !! info_key info with
          | None => (r, false)
          | Some st =>
              if working (ri_side info) st <? cancelled_qty then (r, false)
              else
                let st' := set_working (ri_side info) st (working (ri_side info) st - cancelled_qty) in
                (with_tables r (store_state (positions_ r) (info_key info) st')
                   (store_reservation (order_risk_ r) id info (reserved_qty info - cancelled_qty)),
                 true)
          end
    end.

(** ** Live path *)

Definition onOrderResting (r : RiskEngine) (o : Order) (remaining : Z) : RiskEngine * bool :=
  applyResting r o remaining true.

Definition onFill (r : RiskEngine) (id fill_qty : Z) : RiskEngine * bool := risk_applyFill r id fill_qty.

Definition onOrderCancelled (r : RiskEngine) (id cancelled_qty : Z) : RiskEngine * bool :=
  applyCancelled r id cancelled_qty.

(** ** Recovery path *)

Definition markStateCorrupt (r : RiskEngine) : RiskEngine :=
  Build_RiskEngine (max_order_qty_ r) (max_position_ r) (price_band_pct_ r) (ref_prices_ r)
    (ref_price_set_ r) (positions_ r) (order_risk_ r) true.

Definition or_corrupt (x : RiskEngine * bool) : RiskEngine :=
  if x.2 then x.1 else markStateCorrupt x.1.

Definition restoreAccepted (r : RiskEngine) (o : Order) (remaining : Z) : RiskEngine :=
  or_corrupt (applyResting r o remaining false).

Definition restoreFill (r : RiskEngine) (id fill_qty : Z) : RiskEngine :=
  or_corrupt (risk_applyFill r id fill_qty).

Definition restoreCancelled (r : RiskEngine) (id cancelled_qty : Z) : RiskEngine :=
  or_corrupt (applyCancelled r id cancelled_qty).

(** ** Queries *)

Definition getPosition (r : RiskEngine) (trader symbol : Z) : Z := position (state_of r (trader, symbol)).

Definition isStateCorrupt (r : RiskEngine) : bool := state_corrupt_ r.

(** The fields of a reservation against the order the book answers. *)
Definition info_matches (b : OrderBook) (id : Z) (info : OrderRiskInfo) : bool :=
  negb (reserved_qty info =? 0) &&
  match getOrderById b id with
  | None => false
  | Some o =>
      (order_id o =? id) && (trader_id o =? ri_trader_id info) &&
      (symbol_id o =? ri_symbol_id info) && bool_decide (side o = ri_side info) &&
      (remaining_quantity o =? reserved_qty info)
  end.

(** The two tables [derived_buy] and [derived_sell]: [m[key] += qty], with [operator[]]
    creating a zero entry. *)
Definition add_derived (s : OrderSide) (m : gmap PositionKey Z) (e : Z * OrderRiskInfo)
    : gmap PositionKey Z :=
  if bool_decide (ri_side e.2 = s)
  then <[info_key e.2 := u64 (default 0 (m !! info_key e.2) + reserved_qty e.2)]> m
  else m.

Definition derived (s : OrderSide) (r : RiskEngine) : gmap PositionKey Z :=
  foldl (add_derived s) ∅ (map_to_list (order_risk_ r)).

Definition checkInvariant (r : RiskEngine) (b : OrderBook) : bool :=
  if state_corrupt_ r then false
  else if negb (getOrderCount b =? size (order_risk_ r))%nat then false
  else if negb (forallb (fun e => info_matches b e.1 e.2) (map_to_list (order_risk_ r))) then false
  else
    let buy := derived BUY r in
    let sell := derived SELL r in
    forallb (fun e => (working_buy e.2 =? default 0 (buy !! e.1)) &&
                      (working_sell e.2 =? default 0 (sell !! e.1))) (map_to_list (positions_ r)) &&
    forallb (fun e => bool_decide (is_Some (positions_ r !! e.1))) (map_to_list buy) &&
    forallb (fun e => bool_decide (is_Some (positions_ r !! e.1))) (map_to_list sell).
