(* ===== verification/RiskProps.v ===== *)
(** * RiskProps: the properties of the risk engine

    The aggregate invariant (the working counters are the sums of the reservations), the limit
    that validation enforces over a whole run, failure atomicity, fail-closed recovery, and
    the meaning of [checkInvariant] against a book. *)

From Stdlib Require Import ZArith Lia Bool.
From stdpp Require Import base tactics decidable numbers option gmap list.
From S2P Require Import Prelude.
From S2P Require Import Double.
From S2P Require Import Maps.
From S2P Require Import Order.
From S2P Require Import OrderBook.
From S2P Require Import BookLevels.
From S2P Require Import BookInv.
From S2P Require Import BookFacts.
From S2P Require Import BookIds.
From S2P Require Import BookProps.
From S2P Require Import RiskEngine.

Local Open Scope Z_scope.

(** ** The invariant *)

(** What a reservation adds to the working counter of a key and side. *)
Definition reserved_for (k : PositionKey) (s : OrderSide) (info : OrderRiskInfo) : Z :=
  if bool_decide (info_key info = k /\ ri_side info = s) then reserved_qty info else 0.

Definition reserved_sum (m : gmap Z OrderRiskInfo) (k : PositionKey) (s : OrderSide) : Z :=
  map_sum (reserved_for k s) m.

Definition info_wf (info : OrderRiskInfo) : Prop := 0 < reserved_qty info <= UINT32_MAX.

Definition state_wf (st : PositionState) : Prop :=
  in_i64 (position st) /\ in_u64 (working_buy st) /\ in_u64 (working_sell st).

Definition risk_inv (r : RiskEngine) : Prop :=
  (forall id info, order_risk_ r !! id = Some info -> info_wf info) /\
  (forall k s, working s (state_of r k) = reserved_sum (order_risk_ r) k s) /\
  (forall k, state_wf (state_of r k)) /\
  (forall k, positions_ r !! k <> Some PositionState_default).

Lemma reserved_for_self info : reserved_for (info_key info) (ri_side info) info = reserved_qty info.
Proof. unfold reserved_for. by rewrite bool_decide_true. Qed.

Lemma reserved_for_nonneg k s info : info_wf info -> 0 <= reserved_for k s info.
Proof. unfold info_wf, reserved_for. case_bool_decide; lia. Qed.

(** ** The tables after a release *)

Lemma PositionState_zero st :
  (position st =? 0) && (working_buy st =? 0) && (working_sell st =? 0) = true <->
  st = PositionState_default.
Proof.
  rewrite !andb_true_iff, !Z.eqb_eq. destruct st as [p b s]. unfold PositionState_default. simpl.
  split; [intros [[-> ->] ->]; done|]. by intros [= -> -> ->].
Qed.

Lemma store_state_lookup m k st k' :
  default PositionState_default (store_state m k st !! k') =
    if bool_decide (k' = k) then st else default PositionState_default (m !! k').
Proof.
  unfold store_state. destruct (_ && _) eqn:Hz; case_bool_decide as Hk; subst.
  - apply PositionState_zero in Hz. by rewrite lookup_delete_eq.
  - by rewrite lookup_delete_ne.
  - by rewrite lookup_insert_eq.
  - by rewrite lookup_insert_ne.
Qed.

Lemma store_state_no_default m k st k' :
  (forall k, m !! k <> Some PositionState_default) ->
  store_state m k st !! k' <> Some PositionState_default.
Proof.
  intros Hm. unfold store_state. destruct (_ && _) eqn:Hz.
  - intros H. apply lookup_delete_Some in H as [_ H]. by apply (Hm k').
  - intros H. apply lookup_insert_Some in H as [[_ Heq]|[_ H]]; [|by apply (Hm k')].
    apply PositionState_zero in Heq. congruence.
Qed.

Lemma store_reservation_sum m id info q k s :
  m !! id = Some info -> 0 <= q ->
  reserved_sum (store_reservation m id info (reserved_qty info - q)) k s =
    reserved_sum m k s - (if bool_decide (k = info_key info /\ s = ri_side info) then q else 0).
Proof.
  intros Hid Hq. unfold reserved_sum, store_reservation.
  assert (Hf : forall x, reserved_for k s
      (Build_OrderRiskInfo (ri_trader_id info) (ri_symbol_id info) (ri_side info) x) =
    if bool_decide (k = info_key info /\ s = ri_side info) then x else 0).
  { intros x. unfold reserved_for, info_key. simpl.
    apply (f_equal (fun c : bool => if c then x else 0)), bool_decide_ext. intuition congruence. }
  assert (Hi : reserved_for k s info =
    if bool_decide (k = info_key info /\ s = ri_side info) then reserved_qty info else 0).
  { rewrite <- Hf. by destruct info. }
  destruct (Z.eqb_spec (reserved_qty info - q) 0) as [Hz|Hz].
  - rewrite (map_sum_delete _ m id info Hid), Hi. case_bool_decide; lia.
  - rewrite (map_sum_insert _ m id info) by done. rewrite Hi, Hf. case_bool_decide; lia.
Qed.

Lemma store_reservation_wf m id info q :
  (forall id info, m !! id = Some info -> info_wf info) ->
  m !! id = Some info -> 0 <= q <= reserved_qty info ->
  forall id' info', store_reservation m id info (reserved_qty info - q) !! id' = Some info' ->
  info_wf info'.
Proof.
  intros Hm Hid Hq id' info'. unfold store_reservation. pose proof (Hm _ _ Hid) as Hw.
  unfold info_wf in *. destruct (Z.eqb_spec (reserved_qty info - q) 0) as [Hz|Hz].
  - intros [_ H]%lookup_delete_Some. eauto.
  - intros [[_ <-]|[_ H]]%lookup_insert_Some; [simpl; lia|eauto].
Qed.

(** Releasing [q] of a reservation, with any new position, keeps the invariant. *)
Lemma release_inv r id info q st' :
  risk_inv r -> order_risk_ r !! id = Some info -> 0 <= q <= reserved_qty info ->
  in_i64 (position st') ->
  working (ri_side info) st' = working (ri_side info) (state_of r (info_key info)) - q ->
  working (opposite (ri_side info)) st' = working (opposite (ri_side info)) (state_of r (info_key info)) ->
  0 <= working (ri_side info) st' ->
  risk_inv (with_tables r (store_state (positions_ r) (info_key info) st')
    (store_reservation (order_risk_ r) id info (reserved_qty info - q))).
Proof.
  intros (Hinfo & Hsum & Hst & Hnd) Hid Hq Hpos Hw Ho H0.
  pose proof (fun k => store_state_lookup (positions_ r) (info_key info) st' k) as Hl.
  split_and!.
  - by eapply store_reservation_wf.
  - intros k s. unfold state_of. cbn [positions_ order_risk_ with_tables].
    rewrite Hl, store_reservation_sum, <- Hsum by (done || lia).
    case_bool_decide as Hk; [subst k|].
    + case_bool_decide as Hs; [destruct Hs as [_ ->]; by rewrite Hw|].
      assert (s = opposite (ri_side info)) as ->
        by (destruct s, (ri_side info); simpl; intuition congruence).
      rewrite Ho. lia.
    + rewrite bool_decide_false by tauto. unfold state_of. lia.
  - intros k. unfold state_of. cbn [positions_ with_tables]. rewrite Hl.
    case_bool_decide; [|apply Hst]. destruct (Hst (info_key info)) as (_ & Hb & Hs).
    split; [done|]. destruct (ri_side info); simpl in *; unfold_int; lia.
  - intros k. cbn [positions_ with_tables]. by apply store_state_no_default.
Qed.

(** ** The arithmetic helpers do not overflow *)

Lemma canAddSigned_spec a b :
  in_i64 a -> in_i64 b ->
  canAddSigned a b = if bool_decide (in_i64 (a + b)) then Some (a + b) else None.
Proof.
  unfold canAddSigned, in_i64. unfold_int. intros Ha Hb.
  destruct (Z.ltb_spec 0 b), (Z.ltb_spec (9223372036854775807 - b) a), (Z.ltb_spec b 0),
    (Z.ltb_spec a (-9223372036854775808 - b)); simpl; case_bool_decide; try done; lia.
Qed.

Lemma canSubSigned_spec a b :
  in_i64 a -> in_i64 b ->
  canSubSigned a b = if bool_decide (in_i64 (a - b)) then Some (a - b) else None.
Proof.
  unfold canSubSigned, in_i64. unfold_int. intros Ha Hb.
  destruct (Z.ltb_spec 0 b), (Z.ltb_spec a (-9223372036854775808 + b)), (Z.ltb_spec b 0),
    (Z.ltb_spec (9223372036854775807 + b) a); simpl; case_bool_decide; try done; lia.
Qed.

Lemma canAddSigned_inv a b c : in_i64 a -> in_i64 b -> canAddSigned a b = Some c -> c = a + b /\ in_i64 c.
Proof. intros Ha Hb. rewrite canAddSigned_spec by done. case_bool_decide; [|done]. by intros [= <-]. Qed.

Lemma canSubSigned_inv a b c : in_i64 a -> in_i64 b -> canSubSigned a b = Some c -> c = a - b /\ in_i64 c.
Proof. intros Ha Hb. rewrite canSubSigned_spec by done. case_bool_decide; [|done]. by intros [= <-]. Qed.

Lemma canAddUnsigned_inv a b c : canAddUnsigned a b = Some c -> c = a + b /\ c <= UINT64_MAX.
Proof. unfold canAddUnsigned. destruct (Z.ltb_spec (UINT64_MAX - b) a); [done|]. intros [= <-]. lia. Qed.

(** ** Every transition keeps the invariant *)

Lemma working_set s st w : working s (set_working s st w) = w.
Proof. by destruct s. Qed.

Lemma working_set_opp s st w : working (opposite s) (set_working s st w) = working (opposite s) st.
Proof. by destruct s. Qed.

Lemma position_set s st w : position (set_working s st w) = position st.
Proof. by destruct s. Qed.

#[local] Hint Rewrite working_set working_set_opp position_set : trading.

Lemma state_of_Some r k st : positions_ r !! k = Some st -> state_of r k = st.
Proof. unfold state_of. by intros ->. Qed.

Lemma applyResting_true r o rem enforce r' :
  applyResting r o rem enforce = (r', true) ->
  state_corrupt_ r = false /\ rem <> 0 /\ rem <= quantity o /\ type o = LIMIT /\
  order_risk_ r !! order_id o = None /\
  let st := state_of r (key_of o) in
  working (side o) st + rem <= UINT64_MAX /\
  (enforce = true -> working (side o) st + rem <= max_position_ r) /\
  r' = with_tables r
    (<[key_of o := set_working (side o) st (working (side o) st + rem)]> (positions_ r))
    (<[order_id o := Build_OrderRiskInfo (trader_id o) (symbol_id o) (side o) rem]> (order_risk_ r)).
Proof.
  unfold applyResting. destruct (state_corrupt_ r); [done|].
  destruct ((rem =? 0) || _) eqn:Hrem; [done|]. case_bool_decide as Ht; [|done]. simpl.
  destruct (order_risk_ r !! order_id o) eqn:Hid; [done|].
  destruct (canAddUnsigned _ rem) as [w|] eqn:Hw; [|done]. apply canAddUnsigned_inv in Hw as [-> Hw].
  destruct (enforce && _) eqn:He; [done|]. intros [= <-]. bool_to_prop.
  split_and!; auto. intros ->. simpl in He. bool_to_prop. lia.
Qed.

Lemma applyResting_inv r o rem enforce r' :
  risk_inv r -> in_u32 rem -> applyResting r o rem enforce = (r', true) -> risk_inv r'.
Proof.
  intros (Hinfo & Hsum & Hst & Hnd) Hrem H.
  apply applyResting_true in H as (_ & Hne & _ & _ & Hid & Hmax & _ & ->).
  set (st := state_of r (key_of o)) in *. set (info := Build_OrderRiskInfo _ _ _ rem).
  assert (Hl : forall k, state_of (with_tables r (<[key_of o :=
      set_working (side o) st (working (side o) st + rem)]> (positions_ r))
      (<[order_id o := info]> (order_risk_ r))) k =
    if bool_decide (k = key_of o) then set_working (side o) st (working (side o) st + rem)
    else state_of r k).
  { intros k. unfold state_of. simpl. case_bool_decide; subst;
      [by rewrite lookup_insert_eq|by rewrite lookup_insert_ne]. }
  destruct (Hst (key_of o)) as (Hp & Hb & Hs). fold st in Hp, Hb, Hs.
  assert (0 <= working (side o) st) by (destruct (side o); simpl; unfold_int; lia).
  split_and!.
  - intros id' info'. cbn [order_risk_ with_tables].
    intros [[_ <-]|[_ H']]%lookup_insert_Some; [|eauto]. unfold info_wf. simpl. unfold_int. lia.
  - intros k s. rewrite Hl. unfold reserved_sum. cbn [order_risk_ with_tables].
    rewrite map_sum_insert_new by done. fold (reserved_sum (order_risk_ r) k s). rewrite <- Hsum.
    unfold reserved_for, info. cbn [info_key ri_side ri_trader_id ri_symbol_id reserved_qty].
    fold (key_of o). destruct (decide (k = key_of o)) as [->|Hk].
    + rewrite (bool_decide_true (key_of o = key_of o)) by done. fold st.
      destruct (decide (s = side o)) as [->|Hs'].
      * rewrite bool_decide_true by done. autorewrite with trading. lia.
      * assert (s = opposite (side o)) as -> by (destruct s, (side o); simpl; congruence).
        rewrite bool_decide_false by (intros []; congruence). autorewrite with trading. lia.
    + rewrite bool_decide_false by done.
      rewrite bool_decide_false by (intros [Hk' _]; by apply Hk). lia.
  - intros k. rewrite Hl. case_bool_decide; [|apply Hst].
    split; [by rewrite position_set|]. destruct (side o); simpl in *; unfold_int; lia.
  - intros k. simpl. intros [[_ Heq]|[_ Heq]]%lookup_insert_Some; [|by apply (Hnd k)].
    assert (working (side o) (set_working (side o) st (working (side o) st + rem)) = 0) as Hz
      by (rewrite Heq; by destruct (side o)).
    rewrite working_set in Hz. unfold_int. lia.
Qed.

Lemma fill_state_Some s st q st' :
  in_i64 (position st) -> in_u32 q -> fill_state s st q = Some st' ->
  q <= working s st /\ in_i64 (position st') /\ working s st' = working s st - q /\
  working (opposite s) st' = working (opposite s) st /\
  position st' = match s with BUY => position st + q | SELL => position st - q end.
Proof.
  intros Hp Hq. assert (in_i64 q) by (unfold_int; lia).
  unfold fill_state. destruct s; simpl.
  - destruct (Z.ltb_spec (working_buy st) q); [done|].
    destruct (canAddSigned _ q) as [p|] eqn:Hc; [|done]. apply canAddSigned_inv in Hc as [-> ?]; [|done|done].
    intros [= <-]. simpl. auto.
  - destruct (Z.ltb_spec (working_sell st) q); [done|].
    destruct (canSubSigned _ q) as [p|] eqn:Hc; [|done]. apply canSubSigned_inv in Hc as [-> ?]; [|done|done].
    intros [= <-]. simpl. auto.
Qed.

Lemma risk_applyFill_true r id q r' :
  risk_inv r -> in_u32 q -> risk_applyFill r id q = (r', true) ->
  q <> 0 /\ exists info st',
    order_risk_ r !! id = Some info /\ q <= reserved_qty info /\
    in_i64 (position st') /\ q <= working (ri_side info) (state_of r (info_key info)) /\
    working (ri_side info) st' = working (ri_side info) (state_of r (info_key info)) - q /\
    working (opposite (ri_side info)) st' = working (opposite (ri_side info)) (state_of r (info_key info)) /\
    position st' = match ri_side info with
                   | BUY => position (state_of r (info_key info)) + q
                   | SELL => position (state_of r (info_key info)) - q end /\
    r' = with_tables r (store_state (positions_ r) (info_key info) st')
           (store_reservation (order_risk_ r) id info (reserved_qty info - q)).
Proof.
  intros (_ & _ & Hst & _) Hq. unfold risk_applyFill.
  destruct (state_corrupt_ r || _) eqn:Hg; [done|]. bool_to_prop.
  destruct (order_risk_ r !! id) as [info|] eqn:Hid; [|done].
  destruct (Z.ltb_spec (reserved_qty info) q); [done|].
  destruct (positions_ r !! info_key info) as [st|] eqn:Hk; [|done].
  destruct (fill_state _ st q) as [st'|] eqn:Hf; [|done]. intros [= <-].
  pose proof (Hst (info_key info)) as (Hp & _). rewrite (state_of_Some _ _ _ Hk) in *.
  apply fill_state_Some in Hf as (? & ? & ? & ? & ?); [|done|done].
  split; [done|]. exists info, st'. rewrite (state_of_Some _ _ _ Hk). do 6 (split; [done|]). done.
Qed.

Lemma applyCancelled_true r id q r' :
  applyCancelled r id q = (r', true) ->
  q <> 0 /\ exists info,
    let st := state_of r (info_key info) in
    order_risk_ r !! id = Some info /\ q <= reserved_qty info /\
    q <= working (ri_side info) st /\
    r' = with_tables r (store_state (positions_ r) (info_key info)
             (set_working (ri_side info) st (working (ri_side info) st - q)))
           (store_reservation (order_risk_ r) id info (reserved_qty info - q)).
Proof.
  unfold applyCancelled. destruct (state_corrupt_ r || _) eqn:Hg; [done|]. bool_to_prop.
  destruct (order_risk_ r !! id) as [info|] eqn:Hid; [|done].
  destruct (Z.ltb_spec (reserved_qty info) q); [done|].
  destruct (positions_ r !! info_key info) as [st|] eqn:Hk; [|done].
  destruct (Z.ltb_spec (working (ri_side info) st) q); [done|]. intros [= <-].
  split; [done|]. exists info. rewrite (state_of_Some _ _ _ Hk). auto.
Qed.

Lemma risk_applyFill_inv r id q r' :
  risk_inv r -> in_u32 q -> risk_applyFill r id q = (r', true) -> risk_inv r'.
Proof.
  intros Hinv Hq H. apply risk_applyFill_true in H; [|done|done].
  destruct H as (_ & info & st' & Hid & Hle & Hp & Hwk & Hw & Ho & _ & ->).
  unfold_int. eapply release_inv; eauto; unfold_int; lia.
Qed.

Lemma applyCancelled_inv r id q r' :
  risk_inv r -> in_u32 q -> applyCancelled r id q = (r', true) -> risk_inv r'.
Proof.
  intros Hinv Hq H. apply applyCancelled_true in H as (_ & info & Hid & Hle & Hwk & ->).
  pose proof Hinv as (_ & _ & Hst & _). destruct (Hst (info_key info)) as (Hp & _).
  unfold_int. apply release_inv; autorewrite with trading; unfold_int; auto; lia.
Qed.

(** ** Runs *)

Inductive risk_op : Type :=
| RiskSetMaxOrderSize (n : Z)
| RiskSetMaxPosition (n : Z)
| RiskSetPriceBand (pct : double)
| RiskSetReference (sym : Z) (p : double)
| RiskResting (o : Order) (rem : Z)
| RiskFill (id q : Z)
| RiskCancelled (id q : Z)
| RiskRestoreAccepted (o : Order) (rem : Z)
| RiskRestoreFill (id q : Z)
| RiskRestoreCancelled (id q : Z).

Definition risk_step (r : RiskEngine) (op : risk_op) : RiskEngine :=
  match op with
  | RiskSetMaxOrderSize n => setMaxOrderSize r n
  | RiskSetMaxPosition n => setMaxPosition r n
  | RiskSetPriceBand pct => setPriceBandPct r pct
  | RiskSetReference sym p => (setReferencePrice r sym p).1
  | RiskResting o rem => (onOrderResting r o rem).1
  | RiskFill id q => (onFill r id q).1
  | RiskCancelled id q => (onOrderCancelled r id q).1
  | RiskRestoreAccepted o rem => restoreAccepted r o rem
  | RiskRestoreFill id q => restoreFill r id q
  | RiskRestoreCancelled id q => restoreCancelled r id q
  end.

(** The quantities are 32-bit values. *)
Definition risk_op_ok (op : risk_op) : Prop :=
  match op with
  | RiskResting _ q | RiskFill _ q | RiskCancelled _ q
  | RiskRestoreAccepted _ q | RiskRestoreFill _ q | RiskRestoreCancelled _ q => in_u32 q
  | RiskSetMaxOrderSize n | RiskSetMaxPosition n => in_u64 n
  | _ => True
  end.

(** A refused transition changes nothing. *)
Lemma applyResting_false r o rem enforce r' : applyResting r o rem enforce = (r', false) -> r' = r.
Proof.
  unfold applyResting. destruct (state_corrupt_ r); [by intros [= <-]|].
  destruct ((rem =? 0) || _); [by intros [= <-]|]. destruct (negb _); [by intros [= <-]|].
  destruct (order_risk_ r !! _); [by intros [= <-]|].
  destruct (canAddUnsigned _ _); [|by intros [= <-]]. by destruct (enforce && _); [intros [= <-]|].
Qed.

Lemma risk_applyFill_false r id q r' : risk_applyFill r id q = (r', false) -> r' = r.
Proof.
  unfold risk_applyFill. destruct (_ || _); [by intros [= <-]|].
  destruct (order_risk_ r !! id); [|by intros [= <-]]. destruct (_ <? q); [by intros [= <-]|].
  destruct (positions_ r !! _); [|by intros [= <-]]. by destruct (fill_state _ _ _); [|intros [= <-]].
Qed.

Lemma applyCancelled_false r id q r' : applyCancelled r id q = (r', false) -> r' = r.
Proof.
  unfold applyCancelled. destruct (_ || _); [by intros [= <-]|].
  destruct (order_risk_ r !! id); [|by intros [= <-]]. destruct (_ <? q); [by intros [= <-]|].
  destruct (positions_ r !! _); [|by intros [= <-]]. by destruct (_ <? q); [intros [= <-]|].
Qed.

(** The tables and the flag decide the invariant. *)
Lemma risk_inv_tables r r' :
  positions_ r' = positions_ r -> order_risk_ r' = order_risk_ r -> risk_inv r -> risk_inv r'.
Proof. unfold risk_inv, state_of. by intros -> ->. Qed.

Lemma applyResting_inv' r o rem enforce :
  risk_inv r -> in_u32 rem -> risk_inv (applyResting r o rem enforce).1.
Proof.
  intros Hinv Hrem. destruct (applyResting r o rem enforce) as [r' []] eqn:H; simpl.
  - by eapply applyResting_inv.
  - by apply applyResting_false in H as ->.
Qed.

Lemma risk_applyFill_inv' r id q : risk_inv r -> in_u32 q -> risk_inv (risk_applyFill r id q).1.
Proof.
  intros Hinv Hq. destruct (risk_applyFill r id q) as [r' []] eqn:H; simpl.
  - by eapply risk_applyFill_inv.
  - by apply risk_applyFill_false in H as ->.
Qed.

Lemma applyCancelled_inv' r id q : risk_inv r -> in_u32 q -> risk_inv (applyCancelled r id q).1.
Proof.
  intros Hinv Hq. destruct (applyCancelled r id q) as [r' []] eqn:H; simpl.
  - by eapply applyCancelled_inv.
  - by apply applyCancelled_false in H as ->.
Qed.

Lemma or_corrupt_inv x : risk_inv x.1 -> risk_inv (or_corrupt x).
Proof. unfold or_corrupt. by destruct x.2; [|apply risk_inv_tables]. Qed.

Lemma risk_step_inv r op : risk_inv r -> risk_op_ok op -> risk_inv (risk_step r op).
Proof.
  intros Hinv Hok. destruct op; simpl in *.
  - unfold setMaxOrderSize. destruct (_ <? _); [done|by apply (risk_inv_tables r)].
  - unfold setMaxPosition. destruct (_ <? _); [done|by apply (risk_inv_tables r)].
  - unfold setPriceBandPct. destruct (negb _); [done|].
    destruct (_ || _); [done|by apply (risk_inv_tables r)].
  - unfold setReferencePrice. destruct (_ <=? _); [done|].
    destruct (_ || _); [done|by apply (risk_inv_tables r)].
  - by apply applyResting_inv'.
  - by apply risk_applyFill_inv'.
  - by apply applyCancelled_inv'.
  - by apply or_corrupt_inv, applyResting_inv'.
  - by apply or_corrupt_inv, risk_applyFill_inv'.
  - by apply or_corrupt_inv, applyCancelled_inv'.
Qed.

Lemma risk_new_inv : risk_inv RiskEngine_new.
Proof.
  split_and!.
  - intros id info. simpl. by rewrite lookup_empty.
  - intros k s. unfold state_of, reserved_sum. simpl. rewrite lookup_empty, map_sum_empty.
    by destruct s.
  - intros k. unfold state_of. simpl. rewrite lookup_empty. split_and!; unfold_int; simpl; lia.
  - intros k. simpl. by rewrite lookup_empty.
Qed.

(** C12: after any sequence of live and recovery transitions and configuration changes, the
    working counters of every trader, symbol and side are exactly the sums of the live
    reservations, every reservation is positive, the counters stay in their 64-bit ranges, and
    no empty position is kept. *)
Theorem risk_counters_exact ops :
  Forall risk_op_ok ops -> risk_inv (foldl risk_step RiskEngine_new ops).
Proof.
  intros Hops. pose proof risk_new_inv as Hinv. revert Hinv. generalize RiskEngine_new.
  induction Hops as [|op ops Hop Hops IH]; intros r Hr; simpl; [done|]. by apply IH, risk_step_inv.
Qed.

(** C30: the live transitions are atomic: one that answers [false] leaves the engine as it was.
    One that answers [true] was consistent with the reservation it touches. *)
Theorem risk_live_atomic r o rem id q :
  ((onOrderResting r o rem).2 = false -> (onOrderResting r o rem).1 = r) /\
  ((onFill r id q).2 = false -> (onFill r id q).1 = r) /\
  ((onOrderCancelled r id q).2 = false -> (onOrderCancelled r id q).1 = r) /\
  ((onOrderResting r o rem).2 = true ->
     state_corrupt_ r = false /\ type o = LIMIT /\ 0 <> rem /\ rem <= quantity o /\
     order_risk_ r !! order_id o = None /\
     order_risk_ (onOrderResting r o rem).1 !! order_id o =
       Some (Build_OrderRiskInfo (trader_id o) (symbol_id o) (side o) rem)) /\
  ((onOrderCancelled r id q).2 = true ->
     exists info, order_risk_ r !! id = Some info /\ q <= reserved_qty info /\
       order_risk_ (onOrderCancelled r id q).1 =
         store_reservation (order_risk_ r) id info (reserved_qty info - q)).
Proof.
  unfold onOrderResting, onFill, onOrderCancelled.
  destruct (applyResting r o rem true) as [r1 b1] eqn:H1.
  destruct (risk_applyFill r id q) as [r2 b2] eqn:H2.
  destruct (applyCancelled r id q) as [r3 b3] eqn:H3. simpl. split_and!; intros ->.
  - by eapply applyResting_false.
  - by eapply risk_applyFill_false.
  - by eapply applyCancelled_false.
  - apply applyResting_true in H1 as (Hc & Hne & Hle & Ht & Hid & _ & _ & ->).
    split_and!; auto. simpl. by rewrite lookup_insert_eq.
  - apply applyCancelled_true in H3 as (_ & info & Hid & Hle & _ & ->). exists info. auto.
Qed.

(** ** Position limits *)

Definition within_limits (r : RiskEngine) : Prop :=
  0 <= max_position_ r <= INT64_MAX /\
  forall k, position (state_of r k) + working_buy (state_of r k) <= max_position_ r /\
            - max_position_ r <= position (state_of r k) - working_sell (state_of r k).

(** What counts against the limit of a key on one side. *)
Definition exposure (s : OrderSide) (k : PositionKey) (r : RiskEngine) : Z :=
  match s with
  | BUY => position (state_of r k) + working_buy (state_of r k)
  | SELL => working_sell (state_of r k) - position (state_of r k)
  end.

(** Fills and cancellations, of any orders, between two states. *)
Inductive releases (r0 : RiskEngine) : RiskEngine -> Prop :=
| releases_none : releases r0 r0
| releases_fill r id q : releases r0 r -> in_u32 q -> releases r0 (onFill r id q).1
| releases_cancelled r id q : releases r0 r -> in_u32 q -> releases r0 (onOrderCancelled r id q).1.

(** The runs of the live path: an order is reserved only after [validate] accepted it, with nothing
    but fills and cancellations in between (as when it is matched first); the position limit is
    raised at any time, but lowered only while nothing is held. *)
Inductive gated : RiskEngine -> Prop :=
| gated_new : gated RiskEngine_new
| gated_config r op :
    gated r -> risk_op_ok op ->
    match op with
    | RiskSetMaxOrderSize _ | RiskSetPriceBand _ | RiskSetReference _ _ => True
    | RiskSetMaxPosition n => max_position_ r <= n \/ positions_ r = ∅
    | _ => False
    end -> gated (risk_step r op)
| gated_resting r0 r o rem :
    gated r0 -> validate r0 o = RISK_NONE -> releases r0 r ->
    in_u32 rem -> in_u32 (quantity o) -> gated (onOrderResting r o rem).1
| gated_fill r id q : gated r -> in_u32 q -> gated (onFill r id q).1
| gated_cancelled r id q : gated r -> in_u32 q -> gated (onOrderCancelled r id q).1.

Lemma to_i64_cases z : in_u64 z -> to_i64 z = z \/ (INT64_MAX < z /\ to_i64 z = z - 18446744073709551616).
Proof.
  intros Hz. unfold to_i64. rewrite u64_small by done.
  destruct (Z.leb_spec z INT64_MAX); auto.
Qed.

(** The cast of a working counter above [INT64_MAX] to a negative number cannot let an order
    through: the sum then falls out of the signed range. *)
Lemma validate_limit r o :
  0 <= max_position_ r <= INT64_MAX -> state_wf (state_of r (key_of o)) -> in_u32 (quantity o) ->
  validate r o = RISK_NONE ->
  match side o with
  | BUY => position (state_of r (key_of o)) + working_buy (state_of r (key_of o)) <= max_position_ r ->
           position (state_of r (key_of o)) + working_buy (state_of r (key_of o)) + quantity o
             <= max_position_ r
  | SELL => - max_position_ r <= position (state_of r (key_of o)) - working_sell (state_of r (key_of o)) ->
            - max_position_ r <=
              position (state_of r (key_of o)) - working_sell (state_of r (key_of o)) - quantity o
  end.
Proof.
  intros Hmax (Hp & Hb & Hs) Hq. assert (in_i64 (quantity o)) by (unfold_int; lia).
  unfold validate. destruct (state_corrupt_ r); [done|].
  destruct (checkOrderFields r o); try done.
  rewrite (to_i64_small (max_position_ r)) by done.
  set (st := state_of r (key_of o)) in *. destruct (side o).
  - destruct (canAddSigned (position st) _) as [p1|] eqn:H1; [|done].
    apply canAddSigned_inv in H1 as [-> H1]; [|done|apply to_i64_range].
    destruct (canAddSigned _ (quantity o)) as [p2|] eqn:H2; [|done].
    apply canAddSigned_inv in H2 as [-> H2]; [|done|done].
    destruct (Z.ltb_spec (max_position_ r) (position st + to_i64 (working_buy st) + quantity o)); [done|].
    intros _ Hlim. destruct (to_i64_cases (working_buy st) Hb) as [Heq|[Hgt Heq]];
      rewrite Heq in *; unfold_int; lia.
  - destruct (canSubSigned (position st) _) as [p1|] eqn:H1; [|done].
    apply canSubSigned_inv in H1 as [-> H1]; [|done|apply to_i64_range].
    destruct (canSubSigned _ (quantity o)) as [p2|] eqn:H2; [|done].
    apply canSubSigned_inv in H2 as [-> H2]; [|done|done].
    destruct (Z.ltb_spec (position st - to_i64 (working_sell st) - quantity o) (- max_position_ r)); [done|].
    intros _ Hlim. destruct (to_i64_cases (working_sell st) Hs) as [Heq|[Hgt Heq]];
      rewrite Heq in *; unfold_int; lia.
Qed.

Lemma state_of_insert r k st m k' :
  state_of (with_tables r (<[k := st]> (positions_ r)) m) k' =
    if bool_decide (k' = k) then st else state_of r k'.
Proof.
  unfold state_of. simpl. case_bool_decide; subst;
    [by rewrite lookup_insert_eq|by rewrite lookup_insert_ne].
Qed.

Lemma state_of_store r k st m k' :
  state_of (with_tables r (store_state (positions_ r) k st) m) k' =
    if bool_decide (k' = k) then st else state_of r k'.
Proof. apply store_state_lookup. Qed.

(** A reservation that fits under the limits of its side keeps them. *)
Lemma resting_within r o rem :
  within_limits r -> 0 <= rem ->
  let st := state_of r (key_of o) in
  match side o with
  | BUY => position st + working_buy st + rem <= max_position_ r
  | SELL => - max_position_ r <= position st - working_sell st - rem
  end -> within_limits (onOrderResting r o rem).1.
Proof.
  intros Hlim Hrem st Hfit. pose proof Hlim as [Hmax Hk]. unfold onOrderResting.
  destruct (applyResting r o rem true) as [r' []] eqn:H; simpl;
    [|by apply applyResting_false in H as ->].
  apply applyResting_true in H as (_ & _ & _ & _ & _ & _ & _ & ->).
  split; [done|]. intros k. rewrite state_of_insert. case_bool_decide; [|apply Hk].
  destruct (Hk (key_of o)) as [H1 H2]. fold st in H1, H2 |- *.
  destruct (side o); simpl in *; lia.
Qed.

Lemma fill_within r id q :
  risk_inv r -> in_u32 q -> within_limits r -> within_limits (onFill r id q).1.
Proof.
  intros Hinv Hq Hlim. pose proof Hlim as [Hmax Hk]. unfold onFill.
  destruct (risk_applyFill r id q) as [r' []] eqn:H; simpl;
    [|by apply risk_applyFill_false in H as ->].
  apply risk_applyFill_true in H as (_ & info & st' & _ & _ & _ & _ & Hw & Ho & Hp & ->); [|done|done].
  split; [done|]. intros k. rewrite state_of_store. case_bool_decide; [|apply Hk].
  destruct (Hk (info_key info)) as [H1 H2]. unfold_int.
  destruct (ri_side info); simpl in *; lia.
Qed.

Lemma cancelled_within r id q : 0 <= q -> within_limits r -> within_limits (onOrderCancelled r id q).1.
Proof.
  intros Hq Hlim. pose proof Hlim as [Hmax Hk]. unfold onOrderCancelled.
  destruct (applyCancelled r id q) as [r' []] eqn:H; simpl;
    [|by apply applyCancelled_false in H as ->].
  apply applyCancelled_true in H as (_ & info & _ & _ & _ & ->).
  split; [done|]. intros k. rewrite state_of_store. case_bool_decide; [|apply Hk].
  destruct (Hk (info_key info)) as [H1 H2]. destruct (ri_side info); simpl in *; lia.
Qed.

(** What [validate] leaves room for. *)
Lemma validate_exposure r o :
  risk_inv r -> within_limits r -> in_u32 (quantity o) -> validate r o = RISK_NONE ->
  exposure (side o) (key_of o) r + quantity o <= max_position_ r.
Proof.
  intros (_ & _ & Hst & _) [Hmax Hk] Hq Hv. destruct (Hk (key_of o)).
  pose proof (validate_limit r o Hmax (Hst _) Hq Hv). destruct (side o); simpl; lia.
Qed.

(** A fill moves quantity from working to position on its own side, and frees room on the
    other; a cancellation frees room on its own. *)
Lemma fill_exposure r id q s k :
  risk_inv r -> in_u32 q ->
  max_position_ (onFill r id q).1 = max_position_ r /\ exposure s k (onFill r id q).1 <= exposure s k r.
Proof.
  intros Hinv Hq. unfold onFill. destruct (risk_applyFill r id q) as [r' []] eqn:H; cbn [fst];
    [|by apply risk_applyFill_false in H as ->].
  apply risk_applyFill_true in H as (_ & info & st' & _ & _ & _ & _ & Hw & Ho & Hp & ->); [|done|done].
  split; [done|]. unfold exposure. rewrite state_of_store. case_bool_decide as Hk; [subst k|done].
  unfold_int. destruct s, (ri_side info); simpl in *; lia.
Qed.

Lemma cancelled_exposure r id q s k :
  in_u32 q ->
  max_position_ (onOrderCancelled r id q).1 = max_position_ r /\
  exposure s k (onOrderCancelled r id q).1 <= exposure s k r.
Proof.
  intros Hq. unfold onOrderCancelled. destruct (applyCancelled r id q) as [r' []] eqn:H; cbn [fst];
    [|by apply applyCancelled_false in H as ->].
  apply applyCancelled_true in H as (_ & info & _ & _ & _ & ->). split; [done|].
  unfold exposure. rewrite state_of_store. case_bool_decide as Hk; [subst k|done].
  unfold_int. destruct s, (ri_side info); simpl in *; lia.
Qed.

Lemma releases_inv r0 r :
  risk_inv r0 -> within_limits r0 -> releases r0 r ->
  risk_inv r /\ within_limits r /\ max_position_ r = max_position_ r0 /\
  forall s k, exposure s k r <= exposure s k r0.
Proof.
  intros Hinv0 Hlim0. induction 1 as [|r id q _ (Hinv & Hlim & Hmax & He) Hq|r id q _ (Hinv & Hlim & Hmax & He) Hq].
  - by split_and!.
  - split; [by apply risk_applyFill_inv'|]. split; [by apply fill_within|].
    split; [rewrite <- Hmax; by apply (fill_exposure r id q BUY (0, 0))|].
    intros s k. etrans; [by apply fill_exposure|apply He].
  - split; [by apply applyCancelled_inv'|]. split; [apply cancelled_within; [unfold_int; lia|done]|].
    split; [rewrite <- Hmax; by apply (cancelled_exposure r id q BUY (0, 0))|].
    intros s k. etrans; [by apply cancelled_exposure|apply He].
Qed.

Lemma gated_inv r : gated r -> risk_inv r /\ within_limits r.
Proof.
  induction 1 as [|r op Hr [Hinv Hlim] Hok Hop|r0 r o rem Hr0 [Hinv0 Hlim0] Hv Hrel Hrem Hq
                  |r id q Hr [Hinv Hlim] Hq|r id q Hr [Hinv Hlim] Hq].
  - split; [apply risk_new_inv|]. split; [unfold_int; simpl; lia|].
    intros k. unfold state_of. simpl. rewrite lookup_empty. simpl. lia.
  - split; [by apply risk_step_inv|]. destruct Hlim as [Hmax Hk]. destruct op; simpl in *; try done.
    + unfold setMaxOrderSize. by destruct (_ <? _).
    + unfold setMaxPosition. destruct (Z.ltb_spec INT64_MAX n); [done|].
      split; simpl; [unfold_int; lia|]. intros k. destruct Hop as [Hraise|Hop].
      * destruct (Hk k). unfold state_of in *. simpl. lia.
      * unfold state_of. simpl. rewrite Hop, lookup_empty. simpl. unfold_int. lia.
    + unfold setPriceBandPct. destruct (negb _); [done|]. by destruct (_ || _).
    + unfold setReferencePrice. destruct (_ <=? _); [done|]. by destruct (_ || _).
  - destruct (releases_inv r0 r Hinv0 Hlim0 Hrel) as (Hinv & Hlim & Hmax & He).
    split; [by apply applyResting_inv'|].
    pose proof (validate_exposure r0 o Hinv0 Hlim0 Hq Hv) as Hroom. specialize (He (side o) (key_of o)).
    destruct (onOrderResting r o rem) as [r' []] eqn:H; simpl;
      [|by apply applyResting_false in H as ->].
    pose proof H as H'. apply applyResting_true in H' as (_ & _ & Hle & _).
    pose proof (resting_within r o rem Hlim) as Hw. rewrite H in Hw. apply Hw; [unfold_int; lia|].
    destruct (side o); simpl in *; lia.
  - split; [by apply risk_applyFill_inv'|by apply fill_within].
  - split; [by apply applyCancelled_inv'|]. apply cancelled_within; [unfold_int; lia|done].
Qed.

(** C13: the position limit holds over every run of the live path that keeps to [gated]: each
    order that rests was validated, and between its validation and [onOrderResting] there were
    only fills and cancellations, of any orders; the limit is raised at any time but lowered only
    while nothing is held; no operation of the recovery path. Then no trader's position plus
    working buys, nor its position less working sells, ever passes the limit, so no sequence of
    fills of resting orders can take the position itself past it. (Validating two orders before
    either rests does: [late_reservation_passes_limit].) *)
Theorem validated_positions_bounded r trader symbol :
  gated r ->
  Z.abs (getPosition r trader symbol) <= max_position_ r /\
  getPosition r trader symbol + working_buy (state_of r (trader, symbol)) <= max_position_ r /\
  - max_position_ r <= getPosition r trader symbol - working_sell (state_of r (trader, symbol)).
Proof.
  intros Hr. destruct (gated_inv r Hr) as [(_ & _ & Hst & _) [_ Hk]].
  destruct (Hk (trader, symbol)) as [H1 H2], (Hst (trader, symbol)) as (_ & Hb & Hs).
  unfold getPosition. unfold_int. lia.
Qed.

(** A validated replacement keeps the position limit: after the whole reservation of the
    old order is cancelled and the new one rests with no more than its quantity, no key is
    past the limit. (The cast of the projected counter to a signed number needs the limit to
    leave room for one 32-bit quantity.) *)
Theorem validateReplace_sound r id o info rem r1 r2 :
  risk_inv r -> within_limits r -> in_u32 (quantity o) -> in_u32 rem ->
  max_position_ r <= INT64_MAX - UINT32_MAX ->
  order_risk_ r !! id = Some info -> validateReplace r id o = RISK_NONE ->
  onOrderCancelled r id (reserved_qty info) = (r1, true) ->
  onOrderResting r1 o rem = (r2, true) -> within_limits r2.
Proof.
  intros Hinv Hlim Hq Hrem Hbig Hid Hv Hc Hr.
  pose proof Hinv as (Hinfo & Hsum & Hst & _). pose proof (Hinfo _ _ Hid) as Hiw.
  pose proof (cancelled_within r id (reserved_qty info)) as Hlim1. rewrite Hc in Hlim1.
  unfold info_wf in Hiw. specialize (Hlim1 ltac:(lia) Hlim). simpl in Hlim1.
  pose proof (resting_within r1 o rem Hlim1) as Hlim2. rewrite Hr in Hlim2.
  apply Hlim2; [unfold_int; lia|]. clear Hlim2.
  apply applyResting_true in Hr as (_ & _ & Hle & _).
  apply applyCancelled_true in Hc as (_ & info' & Hid' & _ & Hwk & ->).
  rewrite Hid in Hid'. injection Hid' as <-. destruct Hlim as [Hmax Hk].
  unfold validateReplace in Hv. destruct (state_corrupt_ r); [done|].
  destruct (checkOrderFields r o); try done. rewrite Hid in Hv.
  destruct (negb _ || _ || _) eqn:Hown; [done|].
  apply orb_false_iff in Hown as [Hown Hside]. apply orb_false_iff in Hown as [Ht Hs].
  apply negb_false_iff in Ht, Hs, Hside. apply Z.eqb_eq in Ht, Hs. apply bool_decide_eq_true in Hside.
  assert (info_key info = key_of o) as Hkey by (unfold info_key, key_of; congruence).
  rewrite state_of_store, Hkey, bool_decide_true by done. rewrite Hkey, Hside in *.
  destruct (Hk (key_of o)) as [H1 H2]. destruct (Hst (key_of o)) as (Hp & Hb & Hs').
  set (st := state_of r (key_of o)) in *.
  destruct (Z.ltb_spec (working (side o) st) (reserved_qty info)); [done|].
  destruct (canAddUnsigned _ (quantity o)) as [w|] eqn:Hw; [|done].
  apply canAddUnsigned_inv in Hw as [-> Hw].
  rewrite (to_i64_small (max_position_ r)) in Hv by done.
  assert (in_u64 (working (side o) st - reserved_qty info + quantity o)) as Hu
    by (unfold_int; lia).
  pose proof (to_i64_cases _ Hu) as Hcast. destruct (side o); simpl in *.
  - destruct (canAddSigned _ _) as [p|] eqn:Ha; [|done].
    apply canAddSigned_inv in Ha as [-> Ha]; [|done|apply to_i64_range].
    match type of Hv with (if ?c then _ else _) = _ => destruct c eqn:Hc; [done|] end. bool_to_prop.
    destruct Hcast as [Heq|[Hgt Heq]]; rewrite Heq in *; unfold_int; lia.
  - destruct (canSubSigned _ _) as [p|] eqn:Ha; [|done].
    apply canSubSigned_inv in Ha as [-> Ha]; [|done|apply to_i64_range].
    match type of Hv with (if ?c then _ else _) = _ => destruct c eqn:Hc; [done|] end. bool_to_prop.
    destruct Hcast as [Heq|[Hgt Heq]]; rewrite Heq in *; unfold_int; lia.
Qed.

(** ** checkInvariant *)

(** The reservations and the book describe the same orders. *)
Definition tracks (r : RiskEngine) (b : OrderBook) : Prop :=
  forall id,
    match order_risk_ r !! id with
    | Some info =>
        exists o, getOrderById b id = Some o /\ trader_id o = ri_trader_id info /\
          symbol_id o = ri_symbol_id info /\ side o = ri_side info /\
          remaining_quantity o = reserved_qty info
    | None => getOrderById b id = None
    end.

Lemma add_derived_lookup s l m k :
  Forall (fun e => info_wf e.2) l -> (forall k, 0 <= default 0 (m !! k)) ->
  default 0 (m !! k) + sum_by (fun e => reserved_for k s e.2) l <= UINT64_MAX ->
  default 0 (foldl (add_derived s) m l !! k) =
    default 0 (m !! k) + sum_by (fun e => reserved_for k s e.2) l.
Proof.
  intros Hl. revert m. induction Hl as [|e l He Hl IH]; intros m Hm Hmax; simpl in *; [lia|].
  assert (0 <= sum_by (fun e => reserved_for k s e.2) l) as Hnn.
  { apply sum_by_nonneg. eapply Forall_impl; [exact Hl|]. intros x. apply reserved_for_nonneg. }
  pose proof (reserved_for_nonneg k s e.2 He) as Hpos.
  assert (Hstep : default 0 (add_derived s m e !! k) = default 0 (m !! k) + reserved_for k s e.2).
  { unfold add_derived. case_bool_decide as Hs.
    - subst s. destruct (decide (k = info_key e.2)) as [->|Hk].
      + rewrite reserved_for_self in *. rewrite lookup_insert_eq. simpl.
        specialize (Hm (info_key e.2)). by rewrite u64_small by (unfold_int; lia).
      + rewrite lookup_insert_ne by done. unfold reserved_for.
        rewrite bool_decide_false by (intros []; congruence). lia.
    - unfold reserved_for. rewrite bool_decide_false by (intros []; congruence). lia. }
  rewrite IH, Hstep; [lia| |lia].
  intros k'. unfold add_derived. case_bool_decide; [|apply Hm].
  destruct (decide (k' = info_key e.2)) as [->|Hk]; [|rewrite lookup_insert_ne by done; apply Hm].
  rewrite lookup_insert_eq. simpl. apply u64_range.
Qed.

Lemma add_derived_keys s l m k :
  is_Some (foldl (add_derived s) m l !! k) ->
  is_Some (m !! k) \/ exists e, e ∈ l /\ info_key e.2 = k /\ ri_side e.2 = s.
Proof.
  revert m. induction l as [|e l IH]; intros m; simpl; [auto|]. intros Hs.
  destruct (IH _ Hs) as [Hm|(e' & He' & ? & ?)].
  - unfold add_derived in Hm. case_bool_decide as Hside; [|by left].
    destruct (decide (k = info_key e.2)) as [->|Hk].
    + right. exists e. split; [by left|done].
    + left. by rewrite lookup_insert_ne in Hm.
  - right. exists e'. split; [by right|done].
Qed.

Section CheckInvariant.
Variables (r : RiskEngine) (b : OrderBook).
Hypothesis Hinv : risk_inv r.

Lemma reservations_wf : Forall (fun e => info_wf e.2) (map_to_list (order_risk_ r)).
Proof.
  destruct Hinv as (Hinfo & _). apply Forall_forall. intros [id info] Hin.
  apply elem_of_map_to_list in Hin. simpl. eauto.
Qed.

(** The derived tables hold the working counters. *)
Lemma derived_working s k : default 0 (derived s r !! k) = working s (state_of r k).
Proof.
  destruct Hinv as (_ & Hsum & Hst & _). rewrite Hsum. unfold derived, reserved_sum, map_sum.
  rewrite add_derived_lookup; rewrite ?lookup_empty; simpl; [lia|exact reservations_wf| |].
  - intros k'. rewrite lookup_empty. simpl. lia.
  - destruct (Hst k) as (_ & Hb & Hs). specialize (Hsum k s).
    unfold reserved_sum, map_sum in Hsum. rewrite <- Hsum. destruct s; simpl; unfold_int; lia.
Qed.

Lemma derived_has_state s k : is_Some (derived s r !! k) -> is_Some (positions_ r !! k).
Proof.
  intros Hd. apply add_derived_keys in Hd as [Hd|([id info] & He & <- & <-)].
  { rewrite lookup_empty in Hd. by destruct Hd. }
  apply elem_of_map_to_list in He. simpl in *.
  destruct Hinv as (Hinfo & Hsum & _ & _).
  destruct (positions_ r !! info_key info) as [st|] eqn:Hk; [eauto|]. exfalso.
  specialize (Hsum (info_key info) (ri_side info)). unfold state_of in Hsum. rewrite Hk in Hsum.
  pose proof (map_sum_ge (reserved_for (info_key info) (ri_side info)) (order_risk_ r) id info He) as Hge.
  rewrite reserved_for_self in Hge. specialize (Hinfo id info He) as Hw. unfold info_wf in Hw.
  unfold reserved_sum in Hsum. simpl in Hsum.
  assert (working (ri_side info) PositionState_default = 0) by by destruct (ri_side info).
  assert (reserved_qty info <= map_sum (reserved_for (info_key info) (ri_side info)) (order_risk_ r)).
  { apply Hge. intros id' info' H'. apply reserved_for_nonneg. eauto. }
  lia.
Qed.

Lemma forallb_map {K V} `{Countable K} (f : K * V -> bool) (m : gmap K V) :
  forallb f (map_to_list m) = true <-> forall k v, m !! k = Some v -> f (k, v) = true.
Proof.
  rewrite forallb_forall. split.
  - intros Hf k v Hk. apply Hf, list_elem_of_In. by apply elem_of_map_to_list.
  - intros Hf [k v] Hin. apply Hf. apply elem_of_map_to_list. by apply list_elem_of_In.
Qed.

(** The aggregate part of the check always succeeds: only the book can disagree. *)
Lemma checkInvariant_book :
  state_corrupt_ r = false ->
  checkInvariant r b =
    (getOrderCount b =? size (order_risk_ r))%nat &&
    forallb (fun e => info_matches b e.1 e.2) (map_to_list (order_risk_ r)).
Proof.
  intros Hc. unfold checkInvariant. rewrite Hc.
  destruct (_ =? _)%nat; [|done]. destruct (forallb _ (map_to_list (order_risk_ r))); [|done].
  simpl. rewrite !andb_true_iff. split_and!; apply forallb_map.
  - intros k st Hk. simpl. rewrite !derived_working, (state_of_Some r k st Hk).
    simpl. by rewrite !Z.eqb_refl.
  - intros k v Hk. apply bool_decide_eq_true. apply (derived_has_state BUY). simpl. eauto.
  - intros k v Hk. apply bool_decide_eq_true. apply (derived_has_state SELL). simpl. eauto.
Qed.

Lemma info_matches_true id info :
  info_wf info ->
  info_matches b id info = true <->
  exists o, getOrderById b id = Some o /\ trader_id o = ri_trader_id info /\
    symbol_id o = ri_symbol_id info /\ side o = ri_side info /\
    remaining_quantity o = reserved_qty info.
Proof.
  intros Hw. unfold info_wf, info_matches in *. rewrite (proj2 (Z.eqb_neq _ _)) by lia. simpl.
  destruct (getOrderById b id) as [o|] eqn:Hg; [|split; [done|by intros (? & ? & _)]].
  pose proof (getOrderById_inv b id o Hg) as [Hid _].
  rewrite !andb_true_iff, !Z.eqb_eq, bool_decide_eq_true. split.
  - intros [[[[_ ?] ?] ?] ?]. eauto 6.
  - intros (o' & [= <-] & ? & ? & ? & ?). auto.
Qed.

(** Ids tracked, all of them in the book, and as many as the book has: a pigeonhole. *)
Lemma tracked_ids :
  unique_ids b ->
  (forall id, is_Some (order_risk_ r !! id) -> id ∈ book_ids b) ->
  length (book_ids b) = size (order_risk_ r) ->
  forall id, id ∈ book_ids b -> is_Some (order_risk_ r !! id).
Proof.
  intros Hu Hsub Hlen id Hid. apply elem_of_dom.
  assert ((dom (order_risk_ r) : gset Z) = list_to_set (book_ids b)) as ->.
  { apply leibniz_equiv, set_subseteq_size_equiv.
    - intros x Hx. apply elem_of_list_to_set, Hsub. by apply elem_of_dom.
    - rewrite size_list_to_set by done. by rewrite Hlen, size_dom. }
  by apply elem_of_list_to_set.
Qed.

Lemma check_tracks : unique_ids b -> checkInvariant r b = true -> state_corrupt_ r = false /\ tracks r b.
Proof.
  intros Hu Hcheck. destruct (state_corrupt_ r) eqn:Hc; [unfold checkInvariant in Hcheck; by rewrite Hc in Hcheck|].
  rewrite checkInvariant_book, andb_true_iff, Nat.eqb_eq, forallb_map, getOrderCount_ids in Hcheck by done.
  pose proof Hinv as (Hinfo & _). destruct Hcheck as [Hcount Hall]. split; [done|]. intros id.
  assert (Hsub : forall id, is_Some (order_risk_ r !! id) -> id ∈ book_ids b).
  { intros id' [info' Hi']. specialize (Hall _ _ Hi'). simpl in Hall.
    apply info_matches_true in Hall as (o & Hg & _); [|eauto].
    destruct (decide (id' ∈ book_ids b)); [done|].
    by rewrite (proj2 (getOrderById_None b id')) in Hg. }
  destruct (order_risk_ r !! id) as [info|] eqn:Hi.
  - apply info_matches_true; [eauto|]. by apply (Hall id info).
  - apply getOrderById_None. intros Hid. apply (tracked_ids Hu Hsub Hcount) in Hid as [? Hid]. congruence.
Qed.

Lemma consistent_check : unique_ids b -> state_corrupt_ r = false -> tracks r b -> checkInvariant r b = true.
Proof.
  intros Hu Hc Htr. rewrite checkInvariant_book, andb_true_iff, Nat.eqb_eq, forallb_map, getOrderCount_ids by done.
  pose proof Hinv as (Hinfo & _). split.
  - rewrite <- (size_dom (D := gset Z)).
    rewrite <- (size_list_to_set (C := gset Z) (book_ids b)) by done.
    f_equal. apply set_eq. intros id. rewrite elem_of_list_to_set, elem_of_dom.
    specialize (Htr id). destruct (order_risk_ r !! id) as [info|].
    + split; [eauto|]. intros _. destruct Htr as (o & Hg & _).
      destruct (decide (id ∈ book_ids b)); [done|].
      by rewrite (proj2 (getOrderById_None b id)) in Hg.
    + apply getOrderById_None in Htr. split; [done|]. by intros [].
  - intros id info Hi. simpl. specialize (Htr id). rewrite Hi in Htr.
    by apply info_matches_true; [eauto|].
Qed.

(** C29: on a consistent risk engine and a book with distinct ids, [checkInvariant] answers
    [true] exactly when the engine is not corrupt and its reservations and the book are the
    same orders: every reservation is a resting order with the same owner, symbol, side and
    remaining quantity, and every resting order has a reservation. *)
Theorem checkInvariant_exact :
  unique_ids b -> checkInvariant r b = true <-> state_corrupt_ r = false /\ tracks r b.
Proof. intros Hu. split; [by apply check_tracks|]. intros []. by apply consistent_check. Qed.
End CheckInvariant.

(** ** Corrupt engines *)

Lemma corrupt_step r op :
  state_corrupt_ r = true ->
  state_corrupt_ (risk_step r op) = true /\ positions_ (risk_step r op) = positions_ r /\
  order_risk_ (risk_step r op) = order_risk_ r.
Proof.
  intros Hc.
  assert (forall o rem e, applyResting r o rem e = (r, false)) as H1
    by (intros; unfold applyResting; by rewrite Hc).
  assert (forall id q, risk_applyFill r id q = (r, false)) as H2
    by (intros; unfold risk_applyFill; by rewrite Hc).
  assert (forall id q, applyCancelled r id q = (r, false)) as H3
    by (intros; unfold applyCancelled; by rewrite Hc).
  destruct op; simpl.
  - unfold setMaxOrderSize. by destruct (_ <? _).
  - unfold setMaxPosition. by destruct (_ <? _).
  - unfold setPriceBandPct. destruct (negb _); [done|]. by destruct (_ || _).
  - unfold setReferencePrice. destruct (_ <=? _); [done|]. by destruct (_ || _).
  - unfold onOrderResting. by rewrite H1.
  - unfold onFill. by rewrite H2.
  - unfold onOrderCancelled. by rewrite H3.
  - unfold restoreAccepted. by rewrite H1.
  - unfold restoreFill. by rewrite H2.
  - unfold restoreCancelled. by rewrite H3.
Qed.

(** Recovery fails closed: a restore operation that is inconsistent with the state marks
    the engine corrupt, and from a corrupt engine every validation answers [STATE_CORRUPT] and
    no operation changes a reservation, a position or the mark. *)
Theorem risk_fail_closed r o rem id q ops :
  ((applyResting r o rem false).2 = false -> state_corrupt_ (restoreAccepted r o rem) = true) /\
  ((risk_applyFill r id q).2 = false -> state_corrupt_ (restoreFill r id q) = true) /\
  ((applyCancelled r id q).2 = false -> state_corrupt_ (restoreCancelled r id q) = true) /\
  (state_corrupt_ r = true ->
     let r' := foldl risk_step r ops in
     state_corrupt_ r' = true /\ positions_ r' = positions_ r /\ order_risk_ r' = order_risk_ r /\
     validate r' o = STATE_CORRUPT /\ validateReplace r' id o = STATE_CORRUPT).
Proof.
  unfold restoreAccepted, restoreFill, restoreCancelled, or_corrupt.
  split_and!; [by intros ->..|]. intros Hc.
  assert (forall op, state_corrupt_ (risk_step r op) = true /\
    positions_ (risk_step r op) = positions_ r /\ order_risk_ (risk_step r op) = order_risk_ r) as Hstep
    by (intros; by apply corrupt_step).
  enough (forall r', state_corrupt_ r' = true -> positions_ r' = positions_ r ->
    order_risk_ r' = order_risk_ r ->
    state_corrupt_ (foldl risk_step r' ops) = true /\
    positions_ (foldl risk_step r' ops) = positions_ r /\
    order_risk_ (foldl risk_step r' ops) = order_risk_ r) as Hrun.
  { destruct (Hrun r Hc eq_refl eq_refl) as (H1 & H2 & H3). split_and!; auto.
    - unfold validate. by rewrite H1.
    - unfold validateReplace. by rewrite H1. }
  induction ops as [|op ops' IH]; intros r' H1 H2 H3; simpl; [done|].
  destruct (corrupt_step r' op H1) as (H1' & H2' & H3'). apply IH; congruence.
Qed.

(** ** A concrete risk engine *)

Definition sample_risk_ops : list risk_op :=
  RiskSetReference 1 (d_of_Z 100) ::
  ((fun o => RiskResting o (remaining_quantity o)) <$> sample_orders).

Definition sample_risk : RiskEngine := foldl risk_step RiskEngine_new sample_risk_ops.

Lemma gated_resting_now r o rem :
  gated r -> validate r o = RISK_NONE -> in_u32 rem -> in_u32 (quantity o) -> gated (onOrderResting r o rem).1.
Proof. intros. eapply gated_resting; [done|done|apply releases_none|done|done]. Qed.

Lemma sample_risk_gated : gated sample_risk.
Proof.
  unfold sample_risk, sample_risk_ops, sample_orders. cbn [fmap list_fmap foldl risk_step].
  do 4 (apply gated_resting_now; [|vm_compute; reflexivity|unfold_int; simpl; lia|unfold_int; simpl; lia]).
  apply (gated_config RiskEngine_new (RiskSetReference 1 (d_of_Z 100))); [constructor|done|done].
Qed.

Lemma sample_book_ids : unique_ids sample_book.
Proof. apply (bool_decide_eq_true_1 _). vm_compute. reflexivity. Qed.

Lemma risk_counters_exact_witness : risk_inv sample_risk.
Proof.
  apply (risk_counters_exact sample_risk_ops). unfold sample_risk_ops, sample_orders.
  cbn [fmap list_fmap]. repeat (constructor; [simpl; unfold_int; lia || exact I|]). constructor.
Defined.

Lemma validated_positions_bounded_witness :
  Z.abs (getPosition sample_risk 2 1) <= 10000000 /\
  getPosition sample_risk 2 1 + working_buy (state_of sample_risk (2, 1)) <= 10000000 /\
  - 10000000 <= getPosition sample_risk 2 1 - working_sell (state_of sample_risk (2, 1)).
Proof. exact (validated_positions_bounded sample_risk 2 1 sample_risk_gated). Defined.

Lemma validateReplace_sound_witness :
  let o := sample_order 1 2 SELL LIMIT 101 9 in
  let r1 := (onOrderCancelled sample_risk 1 7).1 in
  validateReplace sample_risk 1 o = RISK_NONE /\ within_limits (onOrderResting r1 o 9).1.
Proof.
  split; [vm_compute; reflexivity|].
  apply (validateReplace_sound sample_risk 1 (sample_order 1 2 SELL LIMIT 101 9)
    (Build_OrderRiskInfo 2 1 SELL 7) 9 (onOrderCancelled sample_risk 1 7).1).
  - apply gated_inv. exact sample_risk_gated.
  - apply gated_inv. exact sample_risk_gated.
  - unfold_int. simpl. lia.
  - unfold_int. lia.
  - vm_compute. discriminate.
  - vm_compute. reflexivity.
  - vm_compute. reflexivity.
  - vm_compute. reflexivity.
  - vm_compute. reflexivity.
Defined.

(** Validating two orders before either is reserved takes a trader past the limit: at a position of 6
    of 10, both orders of 4 are accepted, and reserving them compares only the working quantity
    with the limit. *)
Theorem late_reservation_passes_limit :
  let reference := risk_step RiskEngine_new (RiskSetReference 1 (d_of_Z 100)) in
  let resting := (onOrderResting (setMaxPosition reference 10) (sample_order 1 5 BUY LIMIT 100 6) 6).1 in
  let held := (onFill resting 1 6).1 in
  let o2 := sample_order 2 5 BUY LIMIT 100 4 in
  let o3 := sample_order 3 5 BUY LIMIT 100 4 in
  validate held o2 = RISK_NONE /\ validate held o3 = RISK_NONE /\
  let '(r2, ok2) := onOrderResting held o2 4 in
  let '(r3, ok3) := onOrderResting r2 o3 4 in
  ok2 = true /\ ok3 = true /\ getPosition r3 5 1 + working_buy (state_of r3 (5, 1)) = 14.
Proof. vm_compute. auto 10. Qed.

Lemma checkInvariant_exact_witness :
  checkInvariant sample_risk sample_book = true /\ tracks sample_risk sample_book.
Proof.
  assert (checkInvariant sample_risk sample_book = true) as H by (vm_compute; reflexivity).
  split; [exact H|].
  apply (checkInvariant_exact sample_risk sample_book); [|exact sample_book_ids|exact H].
  apply gated_inv. exact sample_risk_gated.
Defined.
