(* ===== verification/Bytes.v ===== *)
(** * Bytes: the big-endian codecs of the journal

    [Journal::putU8], [putU32BE], [putU64BE], [putI64BE] (src/Journal.cpp) append to a record
    here, where the code writes at a position it advances; [Recovery::readU32BE],
    [readU64BE], [readI64BE] (src/Recovery.cpp) read the first bytes of a list. A byte is a [Z] in
    [0, 256). *)

From Stdlib Require Import ZArith Lia Bool.
From stdpp Require Import base tactics decidable numbers option list.
From S2P Require Import Prelude.

Local Open Scope Z_scope.

Definition is_byte (b : Z) : Prop := 0 <= b < 256.

(** [(value >> shift) & 0xFF]. *)
Definition byte_at (v shift : Z) : Z := Z.land (Z.shiftr v shift) 255.

(** ** Writing *)

Definition putU8 (v : Z) : list Z := [v].

Definition putU32BE (v : Z) : list Z := byte_at v <$> [24; 16; 8; 0].

Definition putU64BE (v : Z) : list Z := byte_at v <$> [56; 48; 40; 32; 24; 16; 8; 0].

Definition putI64BE (v : Z) : list Z := putU64BE (u64 v).

(** ** Reading; [p[i]] is [nth i p 0], and the callers only read inside [p] *)

Definition readU32BE (p : list Z) : Z :=
  Z.lor (Z.lor (Z.lor (Z.shiftl (nth 0 p 0) 24) (Z.shiftl (nth 1 p 0) 16))
               (Z.shiftl (nth 2 p 0) 8))
        (nth 3 p 0).

Definition readU64BE (p : list Z) : Z :=
  foldl (fun r b => u64 (Z.lor (Z.shiftl r 8) b)) 0 (take 8 p).

Definition readI64BE (p : list Z) : Z := to_i64 (readU64BE p).

(** ** Facts *)

Lemma byte_at_mod v s : 0 <= s -> byte_at v s = (v / 2 ^ s) mod 256.
Proof.
  intros Hs. unfold byte_at. rewrite Z.shiftr_div_pow2 by done.
  by rewrite (Z.land_ones _ 8).
Qed.

Lemma byte_at_is_byte v s : 0 <= s -> is_byte (byte_at v s).
Proof. intros Hs. rewrite byte_at_mod by done. apply Z.mod_pos_bound. lia. Qed.

Lemma lor_shift_add r k b : 0 <= k -> 0 <= b < 2 ^ k -> Z.lor (Z.shiftl r k) b = r * 2 ^ k + b.
Proof.
  intros Hk Hb. rewrite Z.shiftl_mul_pow2 by done.
  assert (Z.land (r * 2 ^ k) b = 0) as Hz.
  { apply Z.bits_inj'. intros n Hn. rewrite Z.land_spec, Z.bits_0.
    destruct (Z.lt_ge_cases n k) as [Hlt|Hge]; [by rewrite Z.mul_pow2_bits_low|].
    rewrite <- (Z.mod_small b (2 ^ k)) by done. rewrite Z.mod_pow2_bits_high by lia.
    apply andb_false_r. }
  pose proof (Z.add_lor_land (r * 2 ^ k) b). lia.
Qed.

(** Accumulating the bytes of [v] from [2^(8n)] down rebuilds [v mod 2^(8n)]. *)
Fixpoint shifts (n : nat) : list Z :=
  match n with O => [] | S n => 8 * Z.of_nat n :: shifts n end.

Lemma foldl_bytes n v r :
  0 <= r -> (r + 1) * 2 ^ (8 * Z.of_nat n) <= 18446744073709551616 ->
  foldl (fun r b => u64 (Z.lor (Z.shiftl r 8) b)) r (byte_at v <$> shifts n) =
    r * 2 ^ (8 * Z.of_nat n) + v mod 2 ^ (8 * Z.of_nat n).
Proof.
  revert r. induction n as [|n IH]; intros r Hr Hmax.
  { change (2 ^ (8 * Z.of_nat 0)) with 1. simpl. rewrite Z.mod_1_r. lia. }
  cbn [shifts fmap list_fmap foldl].
  pose proof (byte_at_is_byte v (8 * Z.of_nat n) ltac:(lia)) as Hb. unfold is_byte in Hb.
  assert (0 < 2 ^ (8 * Z.of_nat n)) as Hpow by (apply Z.pow_pos_nonneg; lia).
  assert (2 ^ (8 * Z.of_nat (S n)) = 256 * 2 ^ (8 * Z.of_nat n)) as Heq.
  { rewrite <- (Z.pow_add_r 2 8) by lia. f_equal. lia. }
  rewrite Heq in *. rewrite lor_shift_add by (try change (2 ^ 8) with 256; lia).
  change (2 ^ 8) with 256.
  rewrite u64_small by (unfold_int; nia). rewrite IH by nia.
  rewrite byte_at_mod by lia. rewrite (Z.mul_comm 256).
  rewrite (Z.rem_mul_r v (2 ^ (8 * Z.of_nat n)) 256) by lia. lia.
Qed.

Lemma readU64BE_put v rest : in_u64 v -> readU64BE (putU64BE v ++ rest) = v.
Proof.
  intros Hv. unfold readU64BE. change (take 8 (putU64BE v ++ rest)) with (byte_at v <$> shifts 8).
  rewrite foldl_bytes by (simpl; lia). change (2 ^ (8 * Z.of_nat 8)) with 18446744073709551616.
  rewrite Z.mod_small by (unfold_int; lia). lia.
Qed.

Lemma readI64BE_put v rest : in_i64 v -> readI64BE (putI64BE v ++ rest) = v.
Proof.
  intros Hv. unfold readI64BE, putI64BE. rewrite readU64BE_put by apply u64_range.
  by apply to_i64_u64.
Qed.

Lemma readU32BE_value b3 b2 b1 b0 rest :
  is_byte b3 -> is_byte b2 -> is_byte b1 -> is_byte b0 ->
  readU32BE (b3 :: b2 :: b1 :: b0 :: rest) = ((b3 * 256 + b2) * 256 + b1) * 256 + b0.
Proof.
  unfold is_byte. intros H3 H2 H1 H0. unfold readU32BE. cbn [nth].
  change 24 with (8 + 8 + 8). change 16 with (8 + 8). rewrite <- !Z.shiftl_shiftl by lia.
  rewrite <- !Z.shiftl_lor, !(lor_shift_add _ 8) by (try change (2 ^ 8) with 256; lia).
  change (2 ^ 8) with 256. lia.
Qed.

Lemma readU32BE_put v rest : in_u32 v -> readU32BE (putU32BE v ++ rest) = v.
Proof.
  intros Hv. unfold_int. unfold putU32BE. cbn [fmap list_fmap app].
  rewrite !byte_at_mod by lia.
  change (2 ^ 24) with 16777216. change (2 ^ 16) with 65536. change (2 ^ 8) with 256.
  change (2 ^ 0) with 1. rewrite Z.div_1_r.
  set (b3 := (v / 16777216) mod 256). set (b2 := (v / 65536) mod 256).
  set (b1 := (v / 256) mod 256). set (b0 := v mod 256).
  assert (0 <= b3 < 256 /\ 0 <= b2 < 256 /\ 0 <= b1 < 256 /\ 0 <= b0 < 256) as (H3 & H2 & H1 & H0)
    by (subst b0 b1 b2 b3; split_and!; apply Z.mod_pos_bound; lia).
  assert (v = ((b3 * 256 + b2) * 256 + b1) * 256 + b0) as Heq.
  { subst b0 b1 b2 b3. rewrite (Z.mod_small (v / 16777216)) by (split; [apply Z.div_pos; lia|apply Z.div_lt_upper_bound; lia]).
    pose proof (Z.div_mod v 256 ltac:(lia)). pose proof (Z.div_mod (v / 256) 256 ltac:(lia)).
    pose proof (Z.div_mod (v / 65536) 256 ltac:(lia)).
    rewrite (Z.div_div v 256 256) in * by lia. change (256 * 256) with 65536 in *.
    rewrite (Z.div_div v 65536 256) in * by lia. change (65536 * 256) with 16777216 in *. lia. }
  clearbody b0 b1 b2 b3. rewrite Heq. by apply readU32BE_value.
Qed.

Lemma length_putU64BE v : length (putU64BE v) = 8%nat.
Proof. reflexivity. Qed.

Lemma length_putU32BE v : length (putU32BE v) = 4%nat.
Proof. reflexivity. Qed.

Lemma putU64BE_bytes v : Forall is_byte (putU64BE v).
Proof. unfold putU64BE. simpl. repeat (constructor; [apply byte_at_is_byte; lia|]). constructor. Qed.

Lemma putU32BE_bytes v : Forall is_byte (putU32BE v).
Proof. unfold putU32BE. simpl. repeat (constructor; [apply byte_at_is_byte; lia|]). constructor. Qed.

#[export] Hint Resolve putU64BE_bytes putU32BE_bytes : trading.

(** Decides [Forall is_byte] of a concrete list. *)
Ltac bytes_ok :=
  repeat first [apply Forall_nil_2 | apply Forall_cons_2; [unfold is_byte; lia|]].

(** ** Reading determines the bytes read *)

Lemma putU32BE_read b3 b2 b1 b0 rest :
  Forall is_byte [b3; b2; b1; b0] -> putU32BE (readU32BE (b3 :: b2 :: b1 :: b0 :: rest)) = [b3; b2; b1; b0].
Proof.
  intros Hb. rewrite !Forall_cons in Hb. unfold is_byte in Hb. destruct Hb as (H3 & H2 & H1 & H0 & _).
  rewrite readU32BE_value by done.
  unfold putU32BE. cbn [fmap list_fmap]. rewrite !byte_at_mod by lia.
  change (2 ^ 24) with 16777216. change (2 ^ 16) with 65536. change (2 ^ 8) with 256. change (2 ^ 0) with 1.
  repeat f_equal; Z.to_euclidean_division_equations; lia.
Qed.

Lemma putU32BE_read4 bs : Forall is_byte bs -> length bs = 4%nat -> putU32BE (readU32BE bs) = bs.
Proof. intros Hb Hl. destruct bs as [|? [|? [|? [|? []]]]]; try done. by apply putU32BE_read. Qed.

Lemma readU32BE_inj a b :
  Forall is_byte a -> Forall is_byte b -> length a = 4%nat -> length b = 4%nat ->
  readU32BE a = readU32BE b -> a = b.
Proof.
  intros Ha Hb Hla Hlb Heq. rewrite <- (putU32BE_read4 a), <- (putU32BE_read4 b) by done. by f_equal.
Qed.

(** The accumulator of [readU64BE] over [bs], when it stays below [2^64]. *)
Lemma foldl_read_value bs r :
  Forall is_byte bs -> 0 <= r -> (r + 1) * 2 ^ (8 * Z.of_nat (length bs)) <= 18446744073709551616 ->
  byte_at (foldl (fun r b => u64 (Z.lor (Z.shiftl r 8) b)) r bs) <$> shifts (length bs) = bs /\
  foldl (fun r b => u64 (Z.lor (Z.shiftl r 8) b)) r bs / 2 ^ (8 * Z.of_nat (length bs)) = r.
Proof.
  intros Hbs. revert r. induction Hbs as [|b bs Hb Hbs IH]; intros r Hr Hmax.
  { split; [done|]. simpl. by rewrite Z.div_1_r. }
  unfold is_byte in Hb. cbn [foldl length shifts fmap list_fmap] in *.
  set (n := length bs) in *.
  assert (0 < 2 ^ (8 * Z.of_nat n)) as Hpow by (apply Z.pow_pos_nonneg; lia).
  assert (2 ^ (8 * Z.of_nat (S n)) = 2 ^ (8 * Z.of_nat n) * 256) as Heq.
  { rewrite <- (Z.pow_add_r 2 _ 8) by lia. f_equal. lia. }
  rewrite Heq in *. rewrite lor_shift_add by (try change (2 ^ 8) with 256; lia).
  change (2 ^ 8) with 256. rewrite u64_small by (unfold_int; nia).
  destruct (IH (r * 256 + b)) as [IHb IHd]; [lia|nia|].
  split; [f_equal; [|exact IHb]|].
  - rewrite byte_at_mod, IHd by lia. rewrite Z.add_comm, Z.mod_add by lia. by apply Z.mod_small.
  - rewrite <- Z.div_div, IHd by lia. Z.to_euclidean_division_equations; lia.
Qed.

Lemma putU64BE_read bs rest :
  Forall is_byte bs -> length bs = 8%nat -> putU64BE (readU64BE (bs ++ rest)) = bs.
Proof.
  intros Hbs Hlen. unfold readU64BE. rewrite take_app_length' by done.
  pose proof (foldl_read_value bs 0 Hbs) as H. rewrite Hlen in H.
  destruct H as [H _]; [lia|by vm_compute|]. exact H.
Qed.

Lemma readU32BE_app bs rest : length bs = 4%nat -> readU32BE (bs ++ rest) = readU32BE bs.
Proof. intros Hl. by destruct bs as [|? [|? [|? [|? []]]]]. Qed.

Lemma readU64BE_app bs rest : length bs = 8%nat -> readU64BE (bs ++ rest) = readU64BE bs.
Proof. intros Hl. unfold readU64BE. by rewrite take_app_length', take_ge by lia. Qed.

Lemma readU32BE_range bs : Forall is_byte bs -> length bs = 4%nat -> in_u32 (readU32BE bs).
Proof.
  intros Hb Hl. destruct bs as [|b3 [|b2 [|b1 [|b0 []]]]]; try done.
  rewrite !Forall_cons in Hb. destruct Hb as (H3 & H2 & H1 & H0 & _).
  rewrite readU32BE_value by done. unfold is_byte in *. unfold_int. lia.
Qed.

Lemma foldl_read_range bs r : in_u64 r -> in_u64 (foldl (fun r b => u64 (Z.lor (Z.shiftl r 8) b)) r bs).
Proof. revert r. induction bs as [|b bs IH]; intros r Hr; simpl; [done|]. apply IH, u64_range. Qed.

Lemma readU64BE_range p : in_u64 (readU64BE p).
Proof. apply foldl_read_range. by split. Qed.
