(* ===== verification/Crc.v ===== *)
(** * Crc: the CRC-32 of the journal

    [Journal::crc32] and [Recovery::crc32] (src/Journal.cpp, src/Recovery.cpp): the table and
    the table-driven loop; the bit-by-bit reference; detection of short burst errors. *)

From Stdlib Require Import ZArith Lia Bool.
From stdpp Require Import base tactics decidable numbers option list.
From S2P Require Import Prelude.
From S2P Require Import Bytes.

Local Open Scope Z_scope.

(** ** Definitions *)

(** One turn of the inner loop of [initializeCRC32]. *)
Definition crc_bit (crc : Z) : Z :=
  if negb (Z.land crc 1 =? 0) then Z.lxor (Z.shiftr crc 1) 3988292384 else Z.shiftr crc 1.

Definition crc_table : list Z := (fun i => Nat.iter 8 crc_bit (Z.of_nat i)) <$> seq 0 256.

(** One turn of the loop of [crc32]. *)
Definition crc_update (crc byte : Z) : Z :=
  Z.lxor (Z.shiftr crc 8) (nth (Z.to_nat (Z.land (Z.lxor crc byte) 255)) crc_table 0).

Definition crc32 (data : list Z) : Z :=
  Z.lxor (foldl crc_update UINT32_MAX data) UINT32_MAX.

(** The reference: eight bit steps per byte, without a table. *)
Definition crc_shift8 (x : Z) : Z := Nat.iter 8 crc_bit x.

Definition crc_update_ref (crc byte : Z) : Z := crc_shift8 (Z.lxor crc byte).

Definition crc32_ref (data : list Z) : Z :=
  Z.lxor (foldl crc_update_ref UINT32_MAX data) UINT32_MAX.

(** The check value of the CRC-32 with this polynomial, on the digits 1 to 9. *)
Example crc32_check : crc32 [49; 50; 51; 52; 53; 54; 55; 56; 57] = 3421780262.
Proof. vm_compute. reflexivity. Qed.

(** ** Linearity and range of a bit step *)

Lemma crc_bit_alt x : crc_bit x = Z.lxor (Z.shiftr x 1) (if Z.odd x then 3988292384 else 0).
Proof.
  unfold crc_bit. change (Z.land x 1) with (Z.land x (Z.ones 1)). rewrite Z.land_ones by lia.
  change (2 ^ 1) with 2.
  rewrite Zmod_odd. destruct (Z.odd x); simpl; [done|]. by rewrite Z.lxor_0_r.
Qed.

Lemma lxor_u32 a b : in_u32 a -> in_u32 b -> in_u32 (Z.lxor a b).
Proof.
  intros Ha Hb. assert (0 <= Z.lxor a b) as Hn by (apply Z.lxor_nonneg; unfold_int; lia).
  split; [done|]. destruct (Z.eq_dec (Z.lxor a b) 0) as [->|Hz]; [unfold_int; lia|].
  enough (Z.lxor a b < 2 ^ 32) by (unfold_int; lia). apply Z.log2_lt_pow2; [lia|].
  assert (forall x, in_u32 x -> Z.log2 x < 32) as Hlog.
  { intros x Hx. destruct (Z.eq_dec x 0) as [->|]; [simpl; lia|].
    apply Z.log2_lt_pow2; unfold_int; lia. }
  pose proof (Z.log2_lxor a b). specialize (Hlog a Ha) as H1. specialize (Hlog b Hb) as H2.
  unfold_int. lia.
Qed.

Lemma shiftr1_range x : in_u32 x -> 0 <= Z.shiftr x 1 < 2147483648.
Proof.
  intros Hx. rewrite Z.shiftr_div_pow2 by lia. change (2 ^ 1) with 2. unfold_int.
  split; [apply Z.div_pos; lia|apply Z.div_lt_upper_bound; lia].
Qed.

Lemma crc_bit_range x : in_u32 x -> in_u32 (crc_bit x).
Proof.
  intros Hx. rewrite crc_bit_alt. pose proof (shiftr1_range x Hx).
  apply lxor_u32; [unfold_int; lia|]. destruct (Z.odd x); unfold_int; lia.
Qed.

Lemma crc_bit_lxor a b : crc_bit (Z.lxor a b) = Z.lxor (crc_bit a) (crc_bit b).
Proof.
  rewrite !crc_bit_alt, Z.shiftr_lxor.
  assert (Z.odd (Z.lxor a b) = xorb (Z.odd a) (Z.odd b)) as ->
    by (rewrite <- !Z.bit0_odd; apply Z.lxor_spec).
  rewrite !Z.lxor_assoc. f_equal. rewrite <- (Z.lxor_assoc _ (Z.shiftr b 1)).
  rewrite (Z.lxor_comm _ (Z.shiftr b 1)), Z.lxor_assoc. f_equal.
  by destruct (Z.odd a), (Z.odd b).
Qed.

(** The top bit of the polynomial is set, so a bit step loses nothing. *)
Lemma crc_bit_zero x : in_u32 x -> crc_bit x = 0 -> x = 0.
Proof.
  intros Hx. rewrite crc_bit_alt. pose proof (shiftr1_range x Hx) as Hs.
  intros Hz%Z.lxor_eq. destruct (Z.odd x) eqn:Ho; [lia|].
  rewrite Z.shiftr_div_pow2 in Hz by lia. change (2 ^ 1) with 2 in Hz.
  pose proof (Z.div_mod x 2 ltac:(lia)) as Hd. rewrite Zmod_odd, Ho in Hd. lia.
Qed.

Lemma crc_bit_inj a b : in_u32 a -> in_u32 b -> crc_bit a = crc_bit b -> a = b.
Proof.
  intros Ha Hb Heq. apply Z.lxor_eq, crc_bit_zero; [by apply lxor_u32|].
  by rewrite crc_bit_lxor, Heq, Z.lxor_nilpotent.
Qed.

(** ** Eight steps *)

Lemma iter_crc_range n x : in_u32 x -> in_u32 (Nat.iter n crc_bit x).
Proof. induction n; simpl; auto using crc_bit_range. Qed.

Lemma iter_crc_lxor n a b :
  Nat.iter n crc_bit (Z.lxor a b) = Z.lxor (Nat.iter n crc_bit a) (Nat.iter n crc_bit b).
Proof. induction n as [|n IH]; simpl; [done|]. by rewrite IH, crc_bit_lxor. Qed.

Lemma iter_crc_inj n a b :
  in_u32 a -> in_u32 b -> Nat.iter n crc_bit a = Nat.iter n crc_bit b -> a = b.
Proof.
  induction n as [|n IH]; simpl; [done|]. intros Ha Hb Heq.
  apply crc_bit_inj in Heq; auto using iter_crc_range.
Qed.

Lemma crc_bit_double x : crc_bit (2 * x) = x.
Proof.
  rewrite crc_bit_alt, Z.odd_mul. simpl. rewrite Z.lxor_0_r, Z.shiftr_div_pow2 by lia.
  change (2 ^ 1) with 2. rewrite Z.mul_comm. apply Z.div_mul. lia.
Qed.

Lemma iter_crc_shift n x : Nat.iter n crc_bit (2 ^ Z.of_nat n * x) = x.
Proof.
  induction n as [|n IH]; [change (2 ^ Z.of_nat 0) with 1; simpl; lia|].
  rewrite Nat.iter_succ_r. rewrite Nat2Z.inj_succ, Z.pow_succ_r, <- Z.mul_assoc, crc_bit_double by lia.
  exact IH.
Qed.

Lemma crc_shift8_shift x : crc_shift8 (256 * x) = x.
Proof. apply (iter_crc_shift 8). Qed.

Lemma crc_shift8_lxor a b : crc_shift8 (Z.lxor a b) = Z.lxor (crc_shift8 a) (crc_shift8 b).
Proof. apply (iter_crc_lxor 8). Qed.

(** ** The table *)

Lemma crc_table_nth i : is_byte i -> nth (Z.to_nat i) crc_table 0 = crc_shift8 i.
Proof.
  intros Hi. unfold is_byte in Hi. unfold crc_table.
  rewrite nth_lookup, list_lookup_fmap, (lookup_seq_lt 0 256) by lia. simpl.
  by rewrite Z2Nat.id by lia.
Qed.

Lemma byte_split x b : in_u32 x -> is_byte b ->
  Z.lxor x b = Z.lxor (Z.land (Z.lxor x b) 255) (256 * Z.shiftr x 8).
Proof.
  intros Hx Hb. unfold is_byte in Hb. rewrite Z.mul_comm. change 256 with (2 ^ 8).
  rewrite <- Z.shiftl_mul_pow2 by lia. apply Z.bits_inj'. intros n Hn.
  rewrite Z.lxor_spec, (Z.lxor_spec (Z.land _ _)), Z.land_spec, Z.lxor_spec, Z.shiftl_spec by done.
  change 255 with (Z.ones 8).
  destruct (Z.lt_ge_cases n 8).
  - rewrite Z.ones_spec_low, andb_true_r by lia. rewrite (Z.testbit_neg_r _ (n - 8)) by lia.
    by rewrite xorb_false_r.
  - rewrite Z.ones_spec_high, andb_false_r by lia. rewrite Z.shiftr_spec by lia.
    replace (n - 8 + 8) with n by lia.
    rewrite <- (Z.mod_small b (2 ^ 8)) by lia. rewrite (Z.mod_pow2_bits_high b) by lia.
    by rewrite xorb_false_r, xorb_false_l.
Qed.

Lemma crc_update_correct crc b : in_u32 crc -> is_byte b -> crc_update crc b = crc_update_ref crc b.
Proof.
  intros Hc Hb. unfold crc_update, crc_update_ref.
  assert (is_byte (Z.land (Z.lxor crc b) 255)) as Hi.
  { change 255 with (Z.ones 8). rewrite Z.land_ones by lia. apply Z.mod_pos_bound. lia. }
  rewrite crc_table_nth by done. rewrite (byte_split crc b Hc Hb) at 2.
  rewrite crc_shift8_lxor, crc_shift8_shift. apply Z.lxor_comm.
Qed.

Lemma crc_update_range crc b : in_u32 crc -> is_byte b -> in_u32 (crc_update crc b).
Proof.
  intros Hc Hb. rewrite crc_update_correct by done. apply iter_crc_range, lxor_u32; [done|].
  unfold is_byte in Hb. unfold_int. lia.
Qed.

Lemma foldl_update_range data crc :
  in_u32 crc -> Forall is_byte data -> in_u32 (foldl crc_update crc data).
Proof.
  intros Hc Hd. revert crc Hc. induction Hd as [|b data Hb Hd IH]; intros crc Hc; simpl; [done|].
  by apply IH, crc_update_range.
Qed.

Lemma foldl_update_ref data crc :
  in_u32 crc -> Forall is_byte data -> foldl crc_update crc data = foldl crc_update_ref crc data.
Proof.
  intros Hc Hd. revert crc Hc. induction Hd as [|b data Hb Hd IH]; intros crc Hc; simpl; [done|].
  rewrite <- crc_update_correct by done. by apply IH, crc_update_range.
Qed.

Lemma crc32_range data : Forall is_byte data -> in_u32 (crc32 data).
Proof.
  intros Hd. apply lxor_u32; [|unfold_int; lia]. apply foldl_update_range; [unfold_int; lia|done].
Qed.

(** ** Burst errors *)

(** The value of up to four bytes, first byte lowest: the order in which the CRC takes them. *)
Fixpoint le_value (e : list Z) : Z :=
  match e with [] => 0 | b :: e => b + 256 * le_value e end.

Lemma le_value_range e : Forall is_byte e -> 0 <= le_value e < 2 ^ (8 * Z.of_nat (length e)).
Proof.
  induction 1 as [|b e Hb He IH]; simpl le_value; simpl length; [simpl; lia|].
  unfold is_byte in Hb. rewrite Nat2Z.inj_succ, Z.mul_succ_r, Z.pow_add_r by lia.
  change (2 ^ 8) with 256. lia.
Qed.

Lemma le_value_inj e1 e2 :
  Forall is_byte e1 -> Forall is_byte e2 -> length e1 = length e2 ->
  le_value e1 = le_value e2 -> e1 = e2.
Proof.
  intros H1. revert e2. induction H1 as [|b1 e1 Hb1 H1 IH]; intros [|b2 e2] H2 Hlen Heq; try done.
  apply Forall_cons in H2 as [Hb2 H2]. simpl in *. unfold is_byte in *.
  assert (b1 = b2 /\ le_value e1 = le_value e2) as [-> ?] by lia.
  f_equal. apply IH; auto.
Qed.

Lemma add_lxor_byte b w : is_byte b -> 0 <= w -> b + 256 * w = Z.lxor b (256 * w).
Proof.
  intros Hb Hw. unfold is_byte in Hb.
  pose proof (lor_shift_add w 8 b ltac:(lia) ltac:(change (2 ^ 8) with 256; lia)) as Hl.
  rewrite Z.add_comm, Z.mul_comm. change 256 with (2 ^ 8). rewrite <- Hl.
  rewrite <- Z.shiftl_mul_pow2 by lia. rewrite Z.lor_comm. symmetry. apply Z.lxor_lor.
  apply Z.bits_inj'. intros n Hn. rewrite Z.land_spec, Z.bits_0, Z.shiftl_spec by done.
  destruct (Z.lt_ge_cases n 8).
  - by rewrite (Z.testbit_neg_r _ (n - 8)), andb_false_r by lia.
  - rewrite <- (Z.mod_small b (2 ^ 8)) by lia. by rewrite Z.mod_pow2_bits_high by lia.
Qed.

(** Up to four bytes enter the state as one word. *)
Lemma foldl_update_word e s :
  in_u32 s -> Forall is_byte e -> (length e <= 4)%nat ->
  foldl crc_update s e = Nat.iter (length e) crc_shift8 (Z.lxor s (le_value e)).
Proof.
  intros Hs He. revert s Hs. induction He as [|b e Hb He IH]; intros s Hs Hlen.
  { simpl. by rewrite Z.lxor_0_r. }
  simpl length in *. cbn [foldl le_value].
  rewrite IH by (lia || by apply crc_update_range). rewrite crc_update_correct by done.
  pose proof (le_value_range e He). rewrite Nat.iter_succ_r. f_equal.
  rewrite add_lxor_byte by (done || lia). rewrite <- Z.lxor_assoc.
  unfold crc_update_ref. by rewrite (crc_shift8_lxor (Z.lxor s b)), crc_shift8_shift.
Qed.

Lemma iter_shift8_inj n a b :
  in_u32 a -> in_u32 b -> Nat.iter n crc_shift8 a = Nat.iter n crc_shift8 b -> a = b.
Proof.
  assert (forall n x, in_u32 x -> in_u32 (Nat.iter n crc_shift8 x)) as Hr.
  { intros m x Hx. induction m; simpl; auto. by apply iter_crc_range. }
  induction n as [|n IH]; simpl; [done|]. intros Ha Hb Heq.
  apply iter_crc_inj in Heq; auto.
Qed.

Lemma lxor_cancel_l s a b : Z.lxor s a = Z.lxor s b -> a = b.
Proof.
  intros H. rewrite <- (Z.lxor_0_l a), <- (Z.lxor_0_l b), <- (Z.lxor_nilpotent s).
  by rewrite !Z.lxor_assoc, H.
Qed.

Lemma foldl_update_inj data s1 s2 :
  in_u32 s1 -> in_u32 s2 -> Forall is_byte data ->
  foldl crc_update s1 data = foldl crc_update s2 data -> s1 = s2.
Proof.
  intros H1 H2 Hd. revert s1 s2 H1 H2. induction Hd as [|b data Hb Hd IH]; intros s1 s2 H1 H2; simpl; [done|].
  intros Heq. apply IH in Heq; [|by apply crc_update_range..].
  rewrite !crc_update_correct in Heq by done. unfold is_byte in Hb.
  assert (in_u32 b) by (unfold_int; lia).
  apply (iter_crc_inj 8) in Heq; [|by apply lxor_u32..].
  rewrite !(Z.lxor_comm _ b) in Heq. by apply lxor_cancel_l in Heq.
Qed.

Lemma burst_detected pre e1 e2 post :
  Forall is_byte pre -> Forall is_byte e1 -> Forall is_byte e2 -> Forall is_byte post ->
  length e1 = length e2 -> (length e1 <= 4)%nat -> e1 <> e2 ->
  crc32 (pre ++ e1 ++ post) <> crc32 (pre ++ e2 ++ post).
Proof.
  intros Hpre H1 H2 Hpost Hlen H4 Hne Heq. apply Hne. unfold crc32 in Heq.
  rewrite !(Z.lxor_comm _ UINT32_MAX) in Heq. apply lxor_cancel_l in Heq.
  rewrite !foldl_app in Heq.
  assert (in_u32 (foldl crc_update UINT32_MAX pre)) as Hs
    by (apply foldl_update_range; [unfold_int; lia|done]).
  apply foldl_update_inj in Heq; [|by apply foldl_update_range..|done].
  rewrite (foldl_update_word e1), (foldl_update_word e2) in Heq by (done || lia).
  rewrite <- Hlen in Heq.
  assert (forall e, Forall is_byte e -> (length e <= 4)%nat -> in_u32 (le_value e)) as Hr.
  { intros e He Hl. pose proof (le_value_range e He).
    assert (2 ^ (8 * Z.of_nat (length e)) <= 2 ^ 32) by (apply Z.pow_le_mono_r; lia).
    unfold_int. lia. }
  apply iter_shift8_inj in Heq; [|apply lxor_u32; auto; apply Hr; auto; lia..].
  apply lxor_cancel_l in Heq. by apply le_value_inj.
Qed.

(** The table-driven CRC computes the bit-by-bit CRC-32 of its polynomial, and stays a
    32-bit value. *)
Theorem crc32_table_correct data :
  Forall is_byte data -> crc32 data = crc32_ref data /\ in_u32 (crc32 data).
Proof.
  intros Hd. split; [|by apply crc32_range].
  unfold crc32, crc32_ref. by rewrite foldl_update_ref by (unfold_int; lia || done).
Qed.

Lemma crc32_table_correct_witness :
  crc32 [74; 78; 76; 50; 3] = crc32_ref [74; 78; 76; 50; 3] /\ in_u32 (crc32 [74; 78; 76; 50; 3]).
Proof.
  apply crc32_table_correct. bytes_ok.
Defined.

(** The CRC detects every corruption confined to four consecutive bytes: two messages of
    the same length that differ there, and nowhere else, have different checksums. *)
Theorem crc32_detects_burst pre e1 e2 post :
  Forall is_byte pre -> Forall is_byte e1 -> Forall is_byte e2 -> Forall is_byte post ->
  length e1 = length e2 -> (length e1 <= 4)%nat -> e1 <> e2 ->
  crc32 (pre ++ e1 ++ post) <> crc32 (pre ++ e2 ++ post).
Proof. apply burst_detected. Qed.

Lemma crc32_detects_burst_witness :
  crc32 ([1; 2] ++ [3; 4; 5] ++ [6]) <> crc32 ([1; 2] ++ [3; 9; 5] ++ [6]).
Proof.
  apply crc32_detects_burst; [bytes_ok|bytes_ok|bytes_ok|bytes_ok|reflexivity|simpl; lia|discriminate].
Defined.
