(* ===== verification/Fifo.v ===== *)
(** * Fifo: the contract of a bounded queue

    What the ring buffers promise to their users: a bounded first-in first-out queue. The ring
    buffers are instances; the journal and the concurrent engine are verified against the
    interface. Also the arithmetic of power-of-two capacities that the rings share. *)

From Stdlib Require Import ZArith Lia Bool.
From stdpp Require Import base tactics decidable numbers option list.
From S2P Require Import Prelude.

Local Open Scope Z_scope.

(** ** The interface *)

(** [fifo_push] answers whether the element was taken, [fifo_pop] the element taken. *)
Class BoundedFifo (S A : Type) : Type := {
  fifo_wf : S -> Prop;
  fifo_ok : A -> Prop;
  fifo_contents : S -> list A;
  fifo_bound : S -> nat;
  fifo_push : S -> A -> S * bool;
  fifo_pop : S -> S * option A;
  fifo_push_spec s x :
    fifo_wf s -> fifo_ok x ->
    let '(s', taken) := fifo_push s x in
    fifo_wf s' /\ fifo_bound s' = fifo_bound s /\
    taken = bool_decide (length (fifo_contents s) < fifo_bound s)%nat /\
    fifo_contents s' = (if taken then fifo_contents s ++ [x] else fifo_contents s);
  fifo_pop_spec s :
    fifo_wf s ->
    let '(s', got) := fifo_pop s in
    fifo_wf s' /\ fifo_bound s' = fifo_bound s /\
    got = head (fifo_contents s) /\ fifo_contents s' = tail (fifo_contents s)
}.

(** The elements of a queue that only holds what was pushed. *)
Fixpoint fifo_pushes {S A} `{BoundedFifo S A} (s : S) (xs : list A) : S * list bool :=
  match xs with
  | [] => (s, [])
  | x :: xs =>
      let '(s, b) := fifo_push s x in
      let '(s, bs) := fifo_pushes s xs in (s, b :: bs)
  end.

Fixpoint fifo_drain {S A} `{BoundedFifo S A} (fuel : nat) (s : S) : S * list A :=
  match fuel with
  | O => (s, [])
  | Datatypes.S fuel =>
      match fifo_pop s with
      | (s, None) => (s, [])
      | (s, Some x) => let '(s, xs) := fifo_drain fuel s in (s, x :: xs)
      end
  end.

Section Laws.
Context {S A : Type} `{BoundedFifo S A}.

(** Pushing a list keeps its longest prefix that fits. *)
Lemma fifo_pushes_spec s xs :
  fifo_wf s -> Forall fifo_ok xs ->
  let '(s', taken) := fifo_pushes s xs in
  let room := (fifo_bound s - length (fifo_contents s))%nat in
  fifo_wf s' /\ fifo_bound s' = fifo_bound s /\
  fifo_contents s' = fifo_contents s ++ take room xs /\
  taken = replicate (length (take room xs)) true ++ replicate (length xs - length (take room xs)) false.
Proof.
  intros Hs Hxs. revert s Hs. induction Hxs as [|x xs Hx Hxs IH]; intros s Hs; simpl.
  { rewrite take_nil. simpl. by rewrite app_nil_r. }
  pose proof (fifo_push_spec s x Hs Hx) as Hp. destruct (fifo_push s x) as [s1 b].
  destruct Hp as (Hs1 & Hb1 & -> & Hc1). specialize (IH s1 Hs1).
  destruct (fifo_pushes s1 xs) as [s2 bs]. destruct IH as (Hs2 & Hb2 & Hc2 & ->).
  rewrite Hb1 in *. case_bool_decide as Hlt.
  - rewrite Hc1, length_app in *. simpl in *.
    destruct (fifo_bound s - length (fifo_contents s))%nat as [|room] eqn:Hroom; [lia|].
    replace (fifo_bound s - (length (fifo_contents s) + 1))%nat with room in * by lia.
    simpl. split; [done|]. split; [lia|]. split; [by rewrite Hc2, <- app_assoc|done].
  - rewrite Hc1 in *.
    replace (fifo_bound s - length (fifo_contents s))%nat with 0%nat in * by lia.
    rewrite !take_0 in *. simpl in *. rewrite Nat.sub_0_r in *. split; [done|]. split; [lia|]. auto.
Qed.

Lemma fifo_drain_spec fuel s :
  fifo_wf s -> (length (fifo_contents s) < fuel)%nat -> (fifo_drain fuel s).2 = fifo_contents s.
Proof.
  revert s. induction fuel as [|fuel IH]; intros s Hs Hf; [lia|]. simpl.
  pose proof (fifo_pop_spec s Hs) as Hp. destruct (fifo_pop s) as [s1 got].
  destruct Hp as (Hs1 & _ & -> & Hc1).
  destruct (fifo_contents s) as [|x xs] eqn:Hc; simpl in *; [done|].
  specialize (IH s1 Hs1). rewrite Hc1 in IH. specialize (IH ltac:(lia)).
  destruct (fifo_drain fuel s1) as [s2 ys]. simpl in *. by rewrite IH.
Qed.
End Laws.

(** ** Powers of two *)

Definition power_of_two (c : Z) : Prop := exists k, 0 <= k /\ c = 2 ^ k.

Lemma power_of_two_test c : 0 < c -> Z.land c (c - 1) = 0 -> power_of_two c.
Proof.
  intros Hc Hl. exists (Z.log2 c). split; [apply Z.log2_nonneg|].
  destruct (Z.log2_spec c Hc) as [Hle Hlt].
  destruct (Z.eq_dec c (2 ^ Z.log2 c)) as [|Hne]; [done|]. exfalso.
  assert (Z.testbit (Z.land c (c - 1)) (Z.log2 c) = true) as Hbit.
  { rewrite Z.land_spec, Z.bit_log2 by done. simpl.
    replace (Z.log2 c) with (Z.log2 (c - 1)); [apply Z.bit_log2; pose proof (Z.pow_pos_nonneg 2 (Z.log2 c) ltac:(lia) (Z.log2_nonneg c)); lia|].
    apply Z.log2_unique; [apply Z.log2_nonneg|lia]. }
  by rewrite Hl, Z.bits_0 in Hbit.
Qed.

(** Masking with [c - 1] is the remainder. *)
Lemma land_mask c x : power_of_two c -> Z.land x (c - 1) = x mod c.
Proof.
  intros (k & Hk & ->). rewrite <- Z.land_ones by done. f_equal. rewrite Z.ones_equiv. lia.
Qed.

Lemma power_of_two_pos c : power_of_two c -> 0 < c.
Proof. intros (k & Hk & ->). apply Z.pow_pos_nonneg; lia. Qed.

(** ** Slots of a ring

    The [n] elements from index [h] on, modulo the capacity. *)
Section Slots.
Context {A : Type} `{Inhabited A}.
Implicit Types (buf : list A) (c h n : Z).

Definition slots buf c h n : list A := (fun i => buf !!! Z.to_nat ((h + i) mod c)) <$> seqZ 0 n.

Lemma length_slots buf c h n : length (slots buf c h n) = Z.to_nat n.
Proof. unfold slots. by rewrite length_fmap, length_seqZ. Qed.

Lemma slots_nil buf c h : slots buf c h 0 = [].
Proof. reflexivity. Qed.

Lemma slots_cons buf c h n :
  0 < n -> slots buf c h n = buf !!! Z.to_nat (h mod c) :: slots buf c (h + 1) (n - 1).
Proof.
  intros Hn. unfold slots. rewrite seqZ_cons by done. simpl. rewrite Z.add_0_r. f_equal.
  replace (Z.succ 0) with (1 + 0) by lia.
  rewrite <- fmap_add_seqZ, <- list_fmap_compose. replace (Z.pred n) with (n - 1) by lia.
  apply list_fmap_ext. intros i x _. unfold compose. by rewrite Z.add_assoc.
Qed.

(** Writing the slot behind the last one changes none of them. *)
Lemma slots_write buf c h n x :
  0 <= n < c -> slots (<[Z.to_nat ((h + n) mod c) := x]> buf) c h n = slots buf c h n.
Proof.
  intros Hn. apply list_fmap_ext. intros i z Hz. apply lookup_seqZ in Hz as [-> Hi].
  apply list_lookup_total_insert_ne. intros Heq. apply Z2Nat.inj in Heq; [|apply Z.mod_pos_bound; lia..].
  assert (((h + n) - (h + (0 + Z.of_nat i))) mod c = 0) as Hm
    by (rewrite Zminus_mod, Heq, Z.sub_diag; apply Z.mod_0_l; lia).
  rewrite Z.mod_small in Hm by lia. lia.
Qed.

Lemma slots_last buf c h n :
  0 <= n -> slots buf c h (n + 1) = slots buf c h n ++ [buf !!! Z.to_nat ((h + n) mod c)].
Proof. intros Hn. unfold slots. rewrite seqZ_app by lia. by rewrite fmap_app. Qed.

(** ... and appends. *)
Lemma slots_snoc buf c h n x :
  0 <= n < c -> Z.of_nat (length buf) = c ->
  slots (<[Z.to_nat ((h + n) mod c) := x]> buf) c h (n + 1) = slots buf c h n ++ [x].
Proof.
  intros Hn Hlen. rewrite slots_last, slots_write by lia. do 2 f_equal.
  apply list_lookup_total_insert_eq. pose proof (Z.mod_pos_bound (h + n) c). lia.
Qed.

Lemma slots_mod buf c h n : 0 < c -> slots buf c (h mod c) n = slots buf c h n.
Proof.
  intros Hc. apply list_fmap_ext. intros i x _. by rewrite Zplus_mod_idemp_l.
Qed.
End Slots.
