(* ===== verification/RingBuffer.v ===== *)
(** * RingBuffer: the single-producer single-consumer ring

    The class [RingBuffer] of include/RingBuffer.h and src/RingBuffer.cpp, first as sequential
    operations, an instance of [BoundedFifo], then as the interleaving of a producer and a
    consumer thread whose steps are the atomic accesses of [push] and [pop]. The
    release/acquire pairs of the code make the interleaving semantics adequate: each thread
    stores its own index only after its access to the slot. *)

From Stdlib Require Import ZArith Lia Bool String.
From stdpp Require Import base tactics decidable numbers option relations list.
From S2P Require Import Prelude.
From S2P Require Import Fifo.

Local Open Scope Z_scope.

Record RingBuffer (A : Type) : Type := Build_RingBuffer {
  buffer_ : list A;
  tail_ : Z;
  head_ : Z;
  capacity_ : Z;
  mask_ : Z
}.
Arguments Build_RingBuffer {A}.
Arguments buffer_ {A}.
Arguments tail_ {A}.
Arguments head_ {A}.
Arguments capacity_ {A}.
Arguments mask_ {A}.

Section Ring.
Context {A : Type} `{Inhabited A}.
Implicit Types (r : RingBuffer A) (x : A).

(** ** Operations; [x0] is the default-constructed element *)

Definition RingBuffer_new (x0 : A) (size : Z) : result (RingBuffer A) :=
  if (size <? 2) || negb (Z.land size (size - 1) =? 0)
  then Throw (InvalidArgument "RingBuffer size must be a power of 2 (>= 2)")
  else Ok (Build_RingBuffer (replicate (Z.to_nat size) x0) 0 0 size (size - 1)).

Definition push r x : RingBuffer A * bool :=
  let next_tail := Z.land (tail_ r + 1) (mask_ r) in
  if next_tail =? head_ r then (r, false)
  else (Build_RingBuffer (<[Z.to_nat (tail_ r) := x]> (buffer_ r)) next_tail (head_ r)
          (capacity_ r) (mask_ r), true).

Definition pop r : RingBuffer A * option A :=
  if head_ r =? tail_ r then (r, None)
  else (Build_RingBuffer (buffer_ r) (tail_ r) (Z.land (head_ r + 1) (mask_ r))
          (capacity_ r) (mask_ r), Some (buffer_ r !!! Z.to_nat (head_ r))).

Definition isEmpty r : bool := head_ r =? tail_ r.

Definition isFull r : bool := Z.land (tail_ r + 1) (mask_ r) =? head_ r.

Definition ring_size r : Z :=
  if head_ r <=? tail_ r then tail_ r - head_ r else capacity_ r - head_ r + tail_ r.

(** ** Representation *)

Definition ring_wf r : Prop :=
  power_of_two (capacity_ r) /\ 2 <= capacity_ r /\ mask_ r = capacity_ r - 1 /\
  Z.of_nat (length (buffer_ r)) = capacity_ r /\
  0 <= head_ r < capacity_ r /\ 0 <= tail_ r < capacity_ r.

Definition ring_contents r : list A := slots (buffer_ r) (capacity_ r) (head_ r) (ring_size r).

(** The index after [i], and the distance between two indices. *)
Definition next (c i : Z) : Z := (i + 1) mod c.

Definition distance (c h t : Z) : Z := (t - h) mod c.

Lemma ring_size_distance r : ring_wf r -> ring_size r = distance (capacity_ r) (head_ r) (tail_ r).
Proof.
  intros (_ & Hc & _ & _ & Hh & Ht). unfold ring_size, distance.
  destruct (Z.leb_spec (head_ r) (tail_ r)); [by rewrite Z.mod_small by lia|].
  rewrite <- (Z_mod_plus_full _ 1), Z.mod_small by lia. lia.
Qed.

Lemma mask_next r i : ring_wf r -> Z.land (i + 1) (mask_ r) = next (capacity_ r) i.
Proof. intros (Hp & _ & -> & _). by rewrite land_mask. Qed.

Lemma next_range c i : 0 < c -> 0 <= next c i < c.
Proof. intros. by apply Z.mod_pos_bound. Qed.

Lemma distance_range c h t : 0 < c -> 0 <= distance c h t < c.
Proof. intros. by apply Z.mod_pos_bound. Qed.

(** Distances after a step of either index. *)
Lemma distance_next_tail c h t :
  2 <= c -> distance c h t < c - 1 -> distance c h (next c t) = distance c h t + 1.
Proof.
  intros Hc Hd. unfold distance, next in *. rewrite Zminus_mod_idemp_l.
  replace (t + 1 - h) with ((t - h) + 1) by lia. rewrite <- Zplus_mod_idemp_l.
  apply Z.mod_small. pose proof (Z.mod_pos_bound (t - h) c ltac:(lia)). lia.
Qed.

Lemma distance_next_head c h t :
  2 <= c -> 0 < distance c h t -> distance c (next c h) t = distance c h t - 1.
Proof.
  intros Hc Hd. unfold distance, next in *. rewrite Zminus_mod_idemp_r.
  replace (t - (h + 1)) with ((t - h) - 1) by lia. rewrite <- Zminus_mod_idemp_l.
  apply Z.mod_small. pose proof (Z.mod_pos_bound (t - h) c ltac:(lia)). lia.
Qed.

Lemma distance_zero c h t : 0 <= h < c -> 0 <= t < c -> distance c h t = 0 <-> h = t.
Proof.
  intros Hh Ht. unfold distance. split; [|intros ->; rewrite Z.sub_diag; apply Z.mod_0_l; lia].
  intros Hz. destruct (Z.le_ge_cases h t).
  - rewrite Z.mod_small in Hz by lia. lia.
  - rewrite <- (Z_mod_plus_full _ 1) in Hz. destruct (Z.eq_dec h t); [done|].
    rewrite Z.mod_small in Hz by lia. lia.
Qed.

(** The test for a full ring. *)
Lemma next_is_head c h t :
  2 <= c -> 0 <= h < c -> 0 <= t < c -> next c t = h <-> distance c h t = c - 1.
Proof.
  intros Hc Hh Ht. pose proof (distance_range c h t ltac:(lia)) as Hd. split.
  - intros Hn. destruct (Z.eq_dec (distance c h t) (c - 1)) as [|Hne]; [done|].
    pose proof (distance_next_tail c h t Hc ltac:(lia)) as Hs. rewrite Hn in Hs.
    rewrite (proj2 (distance_zero c h h Hh Hh) eq_refl) in Hs. lia.
  - intros Hn. pose proof (next_range c t ltac:(lia)) as Hr. symmetry.
    apply (distance_zero c h (next c t) Hh Hr). unfold next, distance in *.
    rewrite Zminus_mod_idemp_l. replace (t + 1 - h) with ((t - h) + 1) by lia.
    rewrite <- Zplus_mod_idemp_l, Hn. replace (c - 1 + 1) with c by lia. apply Z.mod_same. lia.
Qed.

Lemma tail_index c h t : 0 <= h < c -> 0 <= t < c -> (h + distance c h t) mod c = t.
Proof.
  intros Hh Ht. unfold distance. rewrite Zplus_mod_idemp_r.
  replace (h + (t - h)) with t by lia. by apply Z.mod_small.
Qed.

(** ** The sequential contract *)

Lemma ring_contents_length r : ring_wf r -> Z.of_nat (length (ring_contents r)) = ring_size r.
Proof.
  intros Hwf. unfold ring_contents. rewrite length_slots, ring_size_distance by done.
  destruct Hwf as (_ & Hc & _). pose proof (distance_range (capacity_ r) (head_ r) (tail_ r)). lia.
Qed.

Lemma with_tail_wf r buf t :
  ring_wf r -> length buf = length (buffer_ r) -> 0 <= t < capacity_ r ->
  ring_wf (Build_RingBuffer buf t (head_ r) (capacity_ r) (mask_ r)).
Proof. intros (? & ? & ? & ? & ? & ?) Hl Ht. split_and!; simpl; auto; lia. Qed.

Lemma with_head_wf r h :
  ring_wf r -> 0 <= h < capacity_ r ->
  ring_wf (Build_RingBuffer (buffer_ r) (tail_ r) h (capacity_ r) (mask_ r)).
Proof. intros (? & ? & ? & ? & ? & ?) Hh. split_and!; simpl; auto; lia. Qed.

Lemma push_spec r x :
  ring_wf r ->
  let '(r', taken) := push r x in
  ring_wf r' /\ capacity_ r' = capacity_ r /\
  taken = bool_decide (length (ring_contents r) < Z.to_nat (capacity_ r - 1))%nat /\
  ring_contents r' = (if taken then ring_contents r ++ [x] else ring_contents r).
Proof.
  intros Hwf. pose proof Hwf as (_ & Hc & _ & Hlen & Hh & Ht).
  pose proof (ring_contents_length r Hwf) as Hsz. rewrite ring_size_distance in Hsz by done.
  pose proof (distance_range (capacity_ r) (head_ r) (tail_ r) ltac:(lia)) as Hd.
  unfold push. rewrite mask_next by done.
  destruct (Z.eqb_spec (next (capacity_ r) (tail_ r)) (head_ r)) as [Hfull|Hfull].
  - apply next_is_head in Hfull; [|done..]. rewrite bool_decide_false by lia. auto.
  - assert (distance (capacity_ r) (head_ r) (tail_ r) <> capacity_ r - 1) as Hne
      by (intros Heq; apply Hfull; by apply next_is_head).
    set (r' := Build_RingBuffer _ _ _ _ _).
    assert (ring_wf r') as Hwf'.
    { apply with_tail_wf; [done|by rewrite length_insert|apply next_range; lia]. }
    rewrite bool_decide_true by lia. split_and!; [done|done|done|].
    unfold ring_contents. rewrite !ring_size_distance by done. simpl.
    rewrite distance_next_tail by lia.
    rewrite <- (tail_index (capacity_ r) (head_ r) (tail_ r)) at 1 by done.
    by apply slots_snoc.
Qed.

Lemma pop_spec r :
  ring_wf r ->
  let '(r', got) := pop r in
  ring_wf r' /\ capacity_ r' = capacity_ r /\
  got = head (ring_contents r) /\ ring_contents r' = tail (ring_contents r).
Proof.
  intros Hwf. pose proof Hwf as (_ & Hc & _ & Hlen & Hh & Ht).
  pose proof (distance_range (capacity_ r) (head_ r) (tail_ r) ltac:(lia)) as Hd.
  pose proof (distance_zero (capacity_ r) (head_ r) (tail_ r) Hh Ht) as Hz.
  unfold pop. rewrite mask_next by done. unfold ring_contents. rewrite ring_size_distance by done.
  destruct (Z.eqb_spec (head_ r) (tail_ r)) as [He|He].
  - rewrite (proj2 Hz He), slots_nil, ring_size_distance, (proj2 Hz He) by done. done.
  - assert (0 < distance (capacity_ r) (head_ r) (tail_ r)) as Hpos.
    { destruct (Z.eq_dec (distance (capacity_ r) (head_ r) (tail_ r)) 0) as [H0|]; [|lia].
      by apply Hz in H0. }
    set (r' := Build_RingBuffer _ _ _ _ _).
    assert (ring_wf r') as Hwf' by (apply with_head_wf; [done|apply next_range; lia]).
    rewrite slots_cons by done. rewrite Z.mod_small by done. simpl.
    split_and!; [done|done|done|]. rewrite ring_size_distance by done. simpl.
    rewrite distance_next_head by lia. unfold next. apply slots_mod. lia.
Qed.

#[export] Instance ring_fifo : BoundedFifo (RingBuffer A) A.
Proof.
  refine {| fifo_wf := ring_wf; fifo_ok := fun _ => True; fifo_contents := ring_contents;
            fifo_bound := fun r => Z.to_nat (capacity_ r - 1); fifo_push := push; fifo_pop := pop |}.
  - intros r x Hr _. pose proof (push_spec r x Hr) as H'. destruct (push r x) as [r' b].
    by destruct H' as (? & -> & ? & ?).
  - intros r Hr. pose proof (pop_spec r Hr) as H'. destruct (pop r) as [r' b].
    by destruct H' as (? & -> & ? & ?).
Defined.

Lemma RingBuffer_new_wf x0 size r :
  RingBuffer_new x0 size = Ok r -> ring_wf r /\ ring_contents r = [] /\ capacity_ r = size.
Proof.
  unfold RingBuffer_new. destruct (Z.ltb_spec size 2); [done|]. simpl.
  destruct (Z.eqb_spec (Z.land size (size - 1)) 0) as [Hl|]; [|done]. simpl. intros [= <-].
  split; [|done]. unfold ring_wf. simpl. rewrite length_replicate.
  split; [apply power_of_two_test; lia|lia].
Qed.

(** ** Two threads

    The program points between the atomic accesses of [push] and [pop]. A thread reads the
    other's index once; the check is made against that value. *)

Inductive producer_pc : Type :=
| PIdle
| PChecked (x : A)
| PWritten (x : A).

Inductive consumer_pc : Type :=
| CIdle
| CChecked
| CRead (x : A).

Record spsc : Type := Build_spsc {
  sp_ring : RingBuffer A;
  sp_producer : producer_pc;
  sp_consumer : consumer_pc;
  sp_pushed : list A;
  sp_popped : list A
}.

Definition set_slot r x : RingBuffer A :=
  Build_RingBuffer (<[Z.to_nat (tail_ r) := x]> (buffer_ r)) (tail_ r) (head_ r) (capacity_ r) (mask_ r).

Definition set_tail r (t : Z) : RingBuffer A :=
  Build_RingBuffer (buffer_ r) t (head_ r) (capacity_ r) (mask_ r).

Definition set_head r (h : Z) : RingBuffer A :=
  Build_RingBuffer (buffer_ r) (tail_ r) h (capacity_ r) (mask_ r).

(** [sp_pushed] and [sp_popped] record what the calls that answered [true] were given and
    returned. A call that answers [false] changes nothing. *)
Inductive spsc_step : spsc -> spsc -> Prop :=
| push_check r c ps qs x :
    Z.land (tail_ r + 1) (mask_ r) <> head_ r ->
    spsc_step (Build_spsc r PIdle c ps qs) (Build_spsc r (PChecked x) c ps qs)
| push_write r c ps qs x :
    spsc_step (Build_spsc r (PChecked x) c ps qs) (Build_spsc (set_slot r x) (PWritten x) c ps qs)
| push_publish r c ps qs x :
    spsc_step (Build_spsc r (PWritten x) c ps qs)
      (Build_spsc (set_tail r (Z.land (tail_ r + 1) (mask_ r))) PIdle c (ps ++ [x]) qs)
| pop_check r p ps qs :
    head_ r <> tail_ r ->
    spsc_step (Build_spsc r p CIdle ps qs) (Build_spsc r p CChecked ps qs)
| pop_read r p ps qs :
    spsc_step (Build_spsc r p CChecked ps qs)
      (Build_spsc r p (CRead (buffer_ r !!! Z.to_nat (head_ r))) ps qs)
| pop_publish r p ps qs x :
    spsc_step (Build_spsc r p (CRead x) ps qs)
      (Build_spsc (set_head r (Z.land (head_ r + 1) (mask_ r))) p CIdle ps (qs ++ [x])).

Definition spsc_start r : spsc := Build_spsc r PIdle CIdle [] [].

(** What each program point knows of the ring. *)
Definition spsc_inv (s : spsc) : Prop :=
  let r := sp_ring s in
  let d := distance (capacity_ r) (head_ r) (tail_ r) in
  ring_wf r /\ sp_pushed s = sp_popped s ++ ring_contents r /\
  match sp_producer s with
  | PIdle => True
  | PChecked _ => d < capacity_ r - 1
  | PWritten x => d < capacity_ r - 1 /\ buffer_ r !!! Z.to_nat (tail_ r) = x
  end /\
  match sp_consumer s with
  | CIdle => True
  | CChecked => 0 < d
  | CRead x => 0 < d /\ buffer_ r !!! Z.to_nat (head_ r) = x
  end.

Lemma set_slot_contents r x : ring_wf r -> ring_contents (set_slot r x) = ring_contents r.
Proof.
  intros Hwf. pose proof Hwf as (_ & Hc & _ & Hlen & Hh & Ht).
  assert (ring_wf (set_slot r x)) as Hwf' by (apply with_tail_wf; [done|by rewrite length_insert|done]).
  pose proof (distance_range (capacity_ r) (head_ r) (tail_ r) ltac:(lia)).
  unfold ring_contents. rewrite !ring_size_distance by done. simpl.
  rewrite <- (tail_index (capacity_ r) (head_ r) (tail_ r)) at 1 by done. by apply slots_write.
Qed.

Lemma head_tail_differ r :
  ring_wf r -> 0 < distance (capacity_ r) (head_ r) (tail_ r) -> Z.to_nat (tail_ r) <> Z.to_nat (head_ r).
Proof.
  intros (_ & Hc & _ & _ & Hh & Ht) Hd Heq. apply Z2Nat.inj in Heq; [|lia..].
  rewrite (proj2 (distance_zero _ _ _ Hh Ht)) in Hd; [lia|done].
Qed.

Lemma spsc_step_inv s s' : spsc_inv s -> spsc_step s s' -> spsc_inv s'.
Proof.
  intros (Hwf & Hq & Hp & Hcs) Hstep. pose proof Hwf as (_ & Hc & _ & Hlen & Hh & Ht).
  destruct Hstep as [r c ps qs x Hfull|r c ps qs x|r c ps qs x|r p ps qs He|r p ps qs|r p ps qs x];
    cbn [sp_ring sp_producer sp_consumer sp_pushed sp_popped] in *;
    pose proof (distance_range (capacity_ r) (head_ r) (tail_ r) ltac:(lia)) as Hd.
  - rewrite mask_next in Hfull by done. split_and!; auto. simpl.
    enough (distance (capacity_ r) (head_ r) (tail_ r) <> capacity_ r - 1) by lia.
    intros Heq. apply Hfull. by apply next_is_head.
  - split; [apply with_tail_wf; [done|by rewrite length_insert|done]|].
    cbn [sp_ring sp_pushed sp_popped]. rewrite set_slot_contents by done. split; [done|]. simpl. split.
    + split; [done|]. apply list_lookup_total_insert_eq. lia.
    + destruct c; [done|done|]. destruct Hcs as [? Hx]. split; [done|].
      rewrite list_lookup_total_insert_ne by (by apply head_tail_differ). done.
  - rewrite mask_next by done. destruct Hp as [Hlt Hx].
    assert (ring_wf (set_tail r (next (capacity_ r) (tail_ r)))) as Hwf'
      by (apply with_tail_wf; [done|done|apply next_range; lia]).
    split; [done|]. cbn [sp_ring sp_pushed sp_popped sp_producer sp_consumer]. split; [|split; [done|]].
    + rewrite Hq, <- app_assoc. f_equal. unfold ring_contents.
      rewrite !ring_size_distance by done. simpl. rewrite distance_next_tail by lia.
      rewrite slots_last by lia. by rewrite tail_index, Hx.
    + simpl. rewrite distance_next_tail by lia. destruct c; [done|lia|]. destruct Hcs. split; [lia|done].
  - split_and!; auto. simpl.
    enough (distance (capacity_ r) (head_ r) (tail_ r) <> 0) by lia.
    intros Heq. apply He. by apply (distance_zero (capacity_ r)).
  - by split_and!.
  - rewrite mask_next by done. destruct Hcs as [Hpos Hx].
    assert (ring_wf (set_head r (next (capacity_ r) (head_ r)))) as Hwf'
      by (apply with_head_wf; [done|apply next_range; lia]).
    split; [done|]. cbn [sp_ring sp_pushed sp_popped sp_producer sp_consumer]. split; [|split; [|done]].
    + rewrite Hq, <- app_assoc. f_equal. unfold ring_contents.
      rewrite !ring_size_distance by done. simpl. rewrite distance_next_head by lia.
      rewrite slots_cons, Z.mod_small, Hx by done. simpl. f_equal. unfold next. symmetry.
      apply slots_mod. lia.
    + simpl. rewrite distance_next_head by lia. destruct p; [done|lia|]. destruct Hp. split; [lia|done].
Qed.

Lemma spsc_start_inv r : ring_wf r -> ring_contents r = [] -> spsc_inv (spsc_start r).
Proof. intros Hwf He. split_and!; simpl; auto. Qed.

(** C33: whatever the interleaving of one producer and one consumer, the ring is first-in
    first-out and loses nothing: what was pushed is what was popped, in the same order,
    followed by what the ring holds, never more than its capacity less one. *)
Theorem ring_spsc_fifo x0 size r s :
  RingBuffer_new x0 size = Ok r -> rtc spsc_step (spsc_start r) s ->
  sp_pushed s = sp_popped s ++ ring_contents (sp_ring s) /\
  Z.of_nat (length (ring_contents (sp_ring s))) <= size - 1.
Proof.
  intros Hnew Hsteps. apply RingBuffer_new_wf in Hnew as (Hwf & He & Hcap).
  assert (spsc_inv s /\ capacity_ (sp_ring s) = size) as [Hinv Hc].
  { assert (spsc_inv (spsc_start r) /\ capacity_ (sp_ring (spsc_start r)) = size) as H0
      by (split; [by apply spsc_start_inv|done]).
    revert H0. induction Hsteps as [|s1 s2 s3 Hst _ IH]; [done|].
    intros [H1 Hcap1]. apply IH. split; [by eapply spsc_step_inv|]. by destruct Hst. }
  destruct Hinv as (Hwf' & Hq & _). split; [done|].
  rewrite ring_contents_length, ring_size_distance by done.
  pose proof Hwf' as (_ & ? & _).
  pose proof (distance_range (capacity_ (sp_ring s)) (head_ (sp_ring s)) (tail_ (sp_ring s))). lia.
Qed.

(** Used by one thread at a time the ring is a bounded queue: [push] takes an element
    exactly when fewer than capacity less one are held and puts it last, [pop] takes the
    first one, and the queries agree with the contents. *)
Theorem ring_sequential x0 size r xs :
  RingBuffer_new x0 size = Ok r ->
  let '(r', taken) := fifo_pushes r xs in
  let kept := take (Z.to_nat (size - 1)) xs in
  ring_contents r' = kept /\
  taken = replicate (length kept) true ++ replicate (length xs - length kept) false /\
  (fifo_drain (S (length xs)) r').2 = kept /\
  ring_size r' = Z.of_nat (length kept) /\
  isFull r' = bool_decide (length kept = Z.to_nat (size - 1)).
Proof.
  intros Hnew. apply RingBuffer_new_wf in Hnew as (Hwf & He & Hcap).
  assert (2 <= size) as Hs2 by (destruct Hwf as (_ & ? & _); lia).
  pose proof (fifo_pushes_spec r xs Hwf (Forall_true _ _ (fun _ => I))) as Hp.
  destruct (fifo_pushes r xs) as [r' taken].
  destruct Hp as (Hwf' & Hb & Hc & Ht). simpl in Hwf', Hb, Hc, Ht. rewrite He in *.
  simpl in Hc, Ht. rewrite Nat.sub_0_r in *. rewrite Hcap in *.
  split; [done|]. split; [done|]. split.
  - rewrite fifo_drain_spec; simpl; [done|done|]. rewrite Hc, length_take. lia.
  - assert (capacity_ r' = size) as Hcap'
      by (destruct Hwf' as (_ & ? & _); lia).
    pose proof (ring_contents_length r' Hwf') as Hlen. rewrite Hc in Hlen. split; [done|].
    unfold isFull. rewrite mask_next by done. pose proof Hwf' as (_ & ? & _ & _ & Hh & Htl).
    rewrite ring_size_distance in Hlen by done.
    apply eq_true_iff_eq. rewrite Z.eqb_eq, bool_decide_eq_true, next_is_head by done. lia.
Qed.
End Ring.

(** ** A concrete ring *)

Definition sample_ring : RingBuffer Z := Build_RingBuffer [0; 0; 0; 0] 0 0 4 3.

Lemma ring_spsc_fifo_witness :
  exists s, rtc spsc_step (spsc_start sample_ring) s /\ sp_pushed s = [7] /\
    sp_pushed s = sp_popped s ++ ring_contents (sp_ring s) /\
    Z.of_nat (length (ring_contents (sp_ring s))) <= 4 - 1.
Proof.
  set (s := Build_spsc (Build_RingBuffer [7; 0; 0; 0] 1 0 4 3) PIdle (CRead 7) [7] []).
  assert (rtc spsc_step (spsc_start sample_ring) s) as Hs.
  { eapply rtc_l; [by apply (push_check _ _ _ _ 7)|]. eapply rtc_l; [apply push_write|].
    eapply rtc_l; [apply push_publish|]. eapply rtc_l; [by apply pop_check|].
    eapply rtc_l; [apply pop_read|]. apply rtc_refl. }
  exists s. split; [exact Hs|]. split; [reflexivity|].
  apply (ring_spsc_fifo 0 4 sample_ring s); [reflexivity|exact Hs].
Defined.

Lemma ring_sequential_witness :
  let '(r', taken) := fifo_pushes sample_ring [5; 6; 7; 8] in
  ring_contents r' = [5; 6; 7] /\ taken = [true; true; true; false] /\
  (fifo_drain 5 r').2 = [5; 6; 7].
Proof.
  pose proof (ring_sequential 0 4 sample_ring [5; 6; 7; 8] eq_refl) as H.
  destruct (fifo_pushes sample_ring [5; 6; 7; 8]) as [r' taken].
  destruct H as (H1 & H2 & H3 & _). split; [exact H1|]. split; [exact H2|exact H3].
Defined.
