(* ===== verification/JournalRing.v ===== *)
(** * JournalRing: the ring of serialized records

    The class [JournalRingBuffer] of include/JournalRingBuffer.h and src/JournalRingBuffer.cpp:
    64-bit head and tail counters that only grow, slots of a fixed size, and records of up to
    [kMaxRecordSize] bytes copied in and out. It is an instance of [BoundedFifo]. *)

From Stdlib Require Import ZArith Lia Bool String.
From stdpp Require Import base tactics decidable numbers option list.
From S2P Require Import Prelude.
From S2P Require Import Fifo.

Local Open Scope Z_scope.

Definition kRingCapacity : Z := 16384.
Definition kMaxPayloadSize : Z := 1024.
Definition kRecordOverhead : Z := 17.
Definition kMaxRecordSize : Z := 1088.

Inductive PushResult : Type := PushOk | PushFull | PushInvalid.

Record Slot : Type := Build_Slot { slot_size : Z; slot_data : list Z }.

Definition Slot_default : Slot := Build_Slot 0 (replicate (Z.to_nat kMaxRecordSize) 0).

#[export] Instance Slot_inhabited : Inhabited Slot := populate Slot_default.

Record JournalRing : Type := Build_JournalRing {
  jr_head : Z;
  jr_tail : Z;
  jr_capacity : Z;
  jr_mask : Z;
  jr_ring : list Slot
}.

Definition JournalRing_new (capacity : Z) : result JournalRing :=
  if (capacity =? 0) || negb (Z.land capacity (capacity - 1) =? 0)
  then Throw (InvalidArgument "JournalRingBuffer: capacity must be a non-zero power of two")
  else Ok (Build_JournalRing 0 0 capacity (capacity - 1) (replicate (Z.to_nat capacity) Slot_default)).

(** [memcpy] of [data] over the beginning of a slot's array. *)
Definition memcpy (data old : list Z) : list Z := data ++ drop (length data) old.

(** [tryPush(data, size)] for [data] of [size] bytes (a null pointer is not modelled). *)
Definition tryPush (r : JournalRing) (data : list Z) : JournalRing * PushResult :=
  let size := Z.of_nat (length data) in
  if (size =? 0) || (kMaxRecordSize <? size) then (r, PushInvalid)
  else if jr_capacity r <=? u64 (jr_head r - jr_tail r) then (r, PushFull)
  else
    let i := Z.to_nat (Z.land (jr_head r) (jr_mask r)) in
    let slot := jr_ring r !!! i in
    (Build_JournalRing (u64 (jr_head r + 1)) (jr_tail r) (jr_capacity r) (jr_mask r)
       (<[i := Build_Slot (u32 size) (memcpy data (slot_data slot))]> (jr_ring r)), PushOk).

(** [tryPop(view)]: the record copied to the view, or [None] for the answer [false]. *)
Definition tryPop (r : JournalRing) : JournalRing * option (list Z) :=
  if jr_tail r =? jr_head r then (r, None)
  else
    let slot := jr_ring r !!! Z.to_nat (Z.land (jr_tail r) (jr_mask r)) in
    let r' := Build_JournalRing (jr_head r) (u64 (jr_tail r + 1)) (jr_capacity r) (jr_mask r)
                (jr_ring r) in
    if negb (slot_size slot =? 0) && (slot_size slot <=? kMaxRecordSize)
    then (r', Some (take (Z.to_nat (slot_size slot)) (slot_data slot)))
    else (r', None).

Definition jr_empty (r : JournalRing) : bool := jr_head r =? jr_tail r.

Definition jr_full (r : JournalRing) : bool := jr_capacity r <=? u64 (jr_head r - jr_tail r).

Definition approximateSize (r : JournalRing) : Z :=
  let count := u64 (jr_head r - jr_tail r) in
  if jr_capacity r <=? count then jr_capacity r else count.

(** ** Representation *)

Definition slot_bytes (s : Slot) : list Z := take (Z.to_nat (slot_size s)) (slot_data s).

(** The number of records held; the counters may have wrapped around. *)
Definition jr_count (r : JournalRing) : Z := u64 (jr_head r - jr_tail r).

Definition jr_slots (r : JournalRing) : list Slot :=
  slots (jr_ring r) (jr_capacity r) (jr_tail r) (jr_count r).

Definition jr_contents (r : JournalRing) : list (list Z) := slot_bytes <$> jr_slots r.

Definition record_ok (data : list Z) : Prop := 0 < Z.of_nat (length data) <= kMaxRecordSize.

Definition slot_wf (s : Slot) : Prop :=
  0 <= slot_size s <= kMaxRecordSize /\ Z.of_nat (length (slot_data s)) = kMaxRecordSize.

Definition jr_wf (r : JournalRing) : Prop :=
  (exists k, 0 <= k <= 63 /\ jr_capacity r = 2 ^ k) /\ jr_mask r = jr_capacity r - 1 /\
  in_u64 (jr_head r) /\ in_u64 (jr_tail r) /\ jr_count r <= jr_capacity r /\
  Z.of_nat (length (jr_ring r)) = jr_capacity r /\ Forall slot_wf (jr_ring r) /\
  Forall (fun s => 0 < slot_size s) (jr_slots r).

(** ** Arithmetic of the counters *)

Lemma u64_mod_pow2 x k : 0 <= k <= 64 -> u64 x mod 2 ^ k = x mod 2 ^ k.
Proof.
  intros Hk. unfold u64. apply Z.mod_mod_divide. exists (2 ^ (64 - k)).
  rewrite <- Z.pow_add_r by lia. by replace (64 - k + k) with 64 by lia.
Qed.

Lemma capacity_power r : jr_wf r -> power_of_two (jr_capacity r) /\ 0 < jr_capacity r <= 9223372036854775808.
Proof.
  intros ((k & Hk & Hc) & _). split; [exists k; split; [lia|done]|]. rewrite Hc. split.
  - apply Z.pow_pos_nonneg; lia.
  - change 9223372036854775808 with (2 ^ 63). apply Z.pow_le_mono_r; lia.
Qed.

Lemma jr_count_range r : 0 <= jr_count r.
Proof. apply u64_range. Qed.

Lemma jr_count_zero r : in_u64 (jr_head r) -> in_u64 (jr_tail r) -> jr_count r = 0 <-> jr_tail r = jr_head r.
Proof.
  intros Hh Ht. unfold jr_count. split.
  - intros Hz. unfold u64 in Hz. apply Z.mod_divide in Hz as [q Hq]; [|lia]. unfold_int. lia.
  - intros ->. by rewrite Z.sub_diag.
Qed.

Lemma jr_index r x : jr_wf r -> Z.land x (jr_mask r) = x mod jr_capacity r.
Proof. intros Hwf. pose proof Hwf as (_ & -> & _). apply land_mask. by apply capacity_power. Qed.

(** The slot at the head counter is the one behind the last. *)
Lemma head_slot r : jr_wf r -> jr_head r mod jr_capacity r = (jr_tail r + jr_count r) mod jr_capacity r.
Proof.
  intros ((k & Hk & Hc) & _ & Hh & _). unfold jr_count. rewrite Hc.
  rewrite <- (Zplus_mod_idemp_r (u64 _)), u64_mod_pow2, Zplus_mod_idemp_r by lia.
  f_equal. lia.
Qed.

Lemma count_push r : jr_count r < UINT64_MAX -> u64 (u64 (jr_head r + 1) - jr_tail r) = jr_count r + 1.
Proof.
  intros Hlt. pose proof (jr_count_range r). rewrite <- Z.add_opp_r, u64_add_l.
  replace (jr_head r + 1 + - jr_tail r) with ((jr_head r - jr_tail r) + 1) by lia.
  rewrite <- u64_add_l. fold (jr_count r). apply u64_small. unfold_int. lia.
Qed.

Lemma count_pop r : 0 < jr_count r -> u64 (jr_head r - u64 (jr_tail r + 1)) = jr_count r - 1.
Proof.
  intros Hpos. pose proof (u64_range (jr_head r - jr_tail r)) as Hr. fold (jr_count r) in Hr.
  unfold u64. rewrite Zminus_mod_idemp_r.
  replace (jr_head r - (jr_tail r + 1)) with ((jr_head r - jr_tail r) - 1) by lia.
  rewrite <- Zminus_mod_idemp_l. fold (u64 (jr_head r - jr_tail r)). fold (jr_count r).
  fold (u64 (jr_count r - 1)). apply u64_small. unfold_int. lia.
Qed.

(** ** The contract *)

Lemma memcpy_length data old :
  (length data <= length old)%nat -> length (memcpy data old) = length old.
Proof. intros Hl. unfold memcpy. rewrite length_app, length_drop. lia. Qed.

Lemma tryPush_Ok r data :
  jr_wf r -> record_ok data -> jr_count r < jr_capacity r ->
  let '(r', res) := tryPush r data in
  res = PushOk /\ jr_wf r' /\ jr_capacity r' = jr_capacity r /\ jr_contents r' = jr_contents r ++ [data].
Proof.
  intros Hwf Hok Hlt. pose proof (capacity_power r Hwf) as [_ Hcap].
  pose proof Hwf as (Hk & Hm & Hh & Ht & Hcount & Hlen & Hslots & Hne). unfold record_ok in Hok.
  pose proof (jr_count_range r) as Hc0.
  unfold tryPush. destruct (Z.eqb_spec (Z.of_nat (length data)) 0); [lia|].
  destruct (Z.ltb_spec kMaxRecordSize (Z.of_nat (length data))); [lia|]. cbn [orb].
  fold (jr_count r). destruct (Z.leb_spec (jr_capacity r) (jr_count r)); [lia|].
  rewrite jr_index, head_slot by done. set (i := Z.to_nat ((jr_tail r + jr_count r) mod jr_capacity r)).
  assert (i < length (jr_ring r))%nat as Hi.
  { subst i. pose proof (Z.mod_pos_bound (jr_tail r + jr_count r) (jr_capacity r)). lia. }
  destruct (lookup_lt_is_Some_2 _ _ Hi) as [old Hold]. rewrite (list_lookup_total_correct _ _ _ Hold).
  pose proof (Forall_lookup_1 _ _ _ _ Hslots Hold) as [_ Holdlen].
  unfold kMaxRecordSize in *. rewrite u32_small by (unfold_int; lia).
  set (slot := Build_Slot _ _). set (r' := Build_JournalRing _ _ _ _ _).
  assert (jr_count r' = jr_count r + 1) as Hcount'
    by (refine (count_push r _); unfold_int; lia).
  assert (jr_slots r' = jr_slots r ++ [slot]) as Hs.
  { unfold jr_slots. rewrite Hcount'. simpl. apply slots_snoc; lia. }
  split; [done|]. split; [|split; [done|]].
  - split; [done|]. split; [done|]. split; [apply u64_range|]. split; [done|].
    split; [rewrite Hcount'; simpl; lia|]. split; [by simpl; rewrite length_insert|]. split.
    + apply Forall_insert; [done|]. split; unfold kMaxRecordSize; simpl; [lia|].
      rewrite memcpy_length by lia. done.
    + rewrite Hs. apply Forall_app. split; [done|]. constructor; [simpl; lia|done].
  - unfold jr_contents. rewrite Hs, fmap_app. simpl. do 2 f_equal. unfold slot_bytes. simpl.
    rewrite Nat2Z.id. unfold memcpy. by rewrite take_app_length.
Qed.

Lemma tryPush_Full r data :
  record_ok data -> jr_capacity r <= jr_count r -> tryPush r data = (r, PushFull).
Proof.
  intros Hok Hfull. unfold record_ok in Hok. unfold tryPush.
  destruct (Z.eqb_spec (Z.of_nat (length data)) 0); [lia|].
  destruct (Z.ltb_spec kMaxRecordSize (Z.of_nat (length data))); [lia|]. cbn [orb].
  fold (jr_count r). by rewrite (proj2 (Z.leb_le _ _) Hfull).
Qed.

Lemma tryPop_spec r :
  jr_wf r ->
  let '(r', got) := tryPop r in
  jr_wf r' /\ jr_capacity r' = jr_capacity r /\
  got = head (jr_contents r) /\ jr_contents r' = tail (jr_contents r).
Proof.
  intros Hwf. pose proof (capacity_power r Hwf) as [_ Hcap].
  pose proof Hwf as (Hk & Hm & Hh & Ht & Hcount & Hlen & Hslots & Hne).
  pose proof (jr_count_range r) as Hc0. pose proof (jr_count_zero r Hh Ht) as Hz.
  unfold tryPop. destruct (Z.eqb_spec (jr_tail r) (jr_head r)) as [He|He].
  { unfold jr_contents, jr_slots. rewrite (proj2 Hz He). done. }
  assert (0 < jr_count r) as Hpos.
  { destruct (Z.eq_dec (jr_count r) 0) as [H0|]; [by apply Hz in H0|lia]. }
  rewrite jr_index by done. unfold jr_contents, jr_slots in *.
  rewrite slots_cons in * by done. simpl in *.
  set (slot := jr_ring r !!! Z.to_nat (jr_tail r mod jr_capacity r)) in *.
  apply Forall_cons in Hne as [Hs1 Hne].
  assert (slot_wf slot) as [Hsz _].
  { pose proof (Z.mod_pos_bound (jr_tail r) (jr_capacity r) ltac:(lia)).
    rewrite Forall_forall in Hslots. apply Hslots. apply list_elem_of_lookup_total_2. lia. }
  destruct (Z.eqb_spec (slot_size slot) 0); [lia|].
  destruct (Z.leb_spec (slot_size slot) kMaxRecordSize); [|lia]. cbn [negb andb].
  set (r' := Build_JournalRing _ _ _ _ _).
  assert (jr_count r' = jr_count r - 1) as Hcount' by (by refine (count_pop r _)).
  assert (slots (jr_ring r) (jr_capacity r) (u64 (jr_tail r + 1)) (jr_count r - 1) =
    slots (jr_ring r) (jr_capacity r) (jr_tail r + 1) (jr_count r - 1)) as Hslots'.
  { rewrite <- slots_mod by lia. destruct Hk as (k & Hk & Hkc).
    rewrite Hkc at 2. rewrite u64_mod_pow2, <- Hkc by lia. apply slots_mod. lia. }
  split; [|split; [done|split; [done|]]].
  - split; [done|]. split; [done|]. split; [done|]. split; [apply u64_range|].
    split; [rewrite Hcount'; simpl; lia|]. split; [done|]. split; [done|].
    unfold jr_slots. rewrite Hcount'. simpl. by rewrite Hslots'.
  - rewrite Hcount'. simpl. by rewrite Hslots'.
Qed.

#[export] Instance journal_ring_fifo : BoundedFifo JournalRing (list Z).
Proof.
  refine {| fifo_wf := jr_wf; fifo_ok := record_ok; fifo_contents := jr_contents;
            fifo_bound := fun r => Z.to_nat (jr_capacity r);
            fifo_push := fun r x => let '(r', res) := tryPush r x in
              (r', match res with PushOk => true | _ => false end);
            fifo_pop := tryPop |}.
  - intros r x Hr Hx. pose proof (capacity_power r Hr) as [_ Hcap].
    assert (Z.of_nat (length (jr_contents r)) = jr_count r) as Hlen.
    { unfold jr_contents, jr_slots. rewrite length_fmap, length_slots.
      pose proof (jr_count_range r). lia. }
    destruct (Z.lt_ge_cases (jr_count r) (jr_capacity r)) as [Hlt|Hge].
    + pose proof (tryPush_Ok r x Hr Hx Hlt) as H. destruct (tryPush r x) as [r' res].
      destruct H as (-> & ? & -> & ?). rewrite bool_decide_true by lia. auto.
    + rewrite tryPush_Full by done. rewrite bool_decide_false by lia. auto.
  - intros r Hr. pose proof (tryPop_spec r Hr) as H. destruct (tryPop r) as [r' got].
    by destruct H as (? & -> & ? & ?).
Defined.

Lemma JournalRing_new_wf capacity r :
  in_u64 capacity -> JournalRing_new capacity = Ok r ->
  jr_wf r /\ jr_contents r = [] /\ jr_capacity r = capacity.
Proof.
  intros Hc. unfold JournalRing_new. destruct (Z.eqb_spec capacity 0); [done|]. simpl.
  destruct (Z.eqb_spec (Z.land capacity (capacity - 1)) 0) as [Hl|]; [|done]. simpl. intros [= <-].
  unfold_int. destruct (power_of_two_test capacity) as (k & Hk & Heq); [lia|done|].
  assert (k < 64).
  { apply (Z.pow_lt_mono_r_iff 2); [lia|lia|]. rewrite <- Heq. change (2 ^ 64) with 18446744073709551616. lia. }
  split; [|done].
  assert (forall c l, jr_count (Build_JournalRing 0 0 c (c - 1) l) = 0) as H0 by reflexivity.
  unfold jr_wf, jr_slots. rewrite H0. cbn [jr_capacity jr_mask jr_head jr_tail jr_ring].
  rewrite length_replicate, slots_nil.
  split; [exists k; split; [lia|done]|]. split; [done|]. unfold_int.
  split; [lia|]. split; [lia|]. split; [lia|]. split; [lia|]. split; [|constructor].
  apply Forall_replicate. split; unfold kMaxRecordSize; simpl; [lia|done].
Qed.

(** The journal ring is a bounded queue of records wherever its 64-bit counters stand,
    across their wrap-around too: it takes records exactly until it is full, keeps their bytes
    and their order, and gives them back in that order. *)
Theorem journal_ring_queue r datas :
  jr_wf r -> Forall record_ok datas ->
  let '(r', taken) := fifo_pushes r datas in
  let kept := take (Z.to_nat (jr_capacity r) - length (jr_contents r)) datas in
  jr_wf r' /\ jr_contents r' = jr_contents r ++ kept /\
  taken = replicate (length kept) true ++ replicate (length datas - length kept) false /\
  (fifo_drain (S (Z.to_nat (jr_capacity r))) r').2 = jr_contents r ++ kept /\
  approximateSize r' = Z.of_nat (length (jr_contents r')) /\
  jr_empty r' = bool_decide (jr_contents r' = []).
Proof.
  intros Hwf Hok. pose proof (fifo_pushes_spec r datas Hwf Hok) as Hp.
  destruct (fifo_pushes r datas) as [r' taken]. destruct Hp as (Hwf' & Hb & Hc & Ht).
  simpl in Hwf', Hb, Hc, Ht.
  assert (Hlen : Z.of_nat (length (jr_contents r')) = jr_count r').
  { unfold jr_contents, jr_slots. rewrite length_fmap, length_slots.
    pose proof (jr_count_range r'). lia. }
  pose proof Hwf' as (_ & _ & Hh & Htl & Hcount & _).
  split; [done|]. split; [done|]. split; [done|]. split; [|split].
  - rewrite fifo_drain_spec; [done|done|]. simpl. pose proof (capacity_power r' Hwf'). lia.
  - unfold approximateSize. fold (jr_count r'). rewrite Hlen.
    destruct (Z.leb_spec (jr_capacity r') (jr_count r')); lia.
  - unfold jr_empty. apply eq_true_iff_eq. rewrite Z.eqb_eq, bool_decide_eq_true.
    pose proof (jr_count_zero r' Hh Htl) as Hz. rewrite <- Hlen in Hz.
    destruct (jr_contents r'); simpl in *.
    + split; [done|]. intros _. symmetry. by apply Hz.
    + split; [|done]. intros He. symmetry in He. apply Hz in He. lia.
Qed.

(** Two slots, the head counter about to wrap around. *)
Definition sample_journal_ring : JournalRing :=
  Build_JournalRing UINT64_MAX UINT64_MAX 2 1 [Slot_default; Slot_default].

Lemma sample_journal_ring_wf : jr_wf sample_journal_ring.
Proof.
  assert (jr_count sample_journal_ring = 0) as H0 by reflexivity.
  unfold jr_wf, jr_slots. rewrite H0, slots_nil. simpl. unfold_int.
  split; [exists 1; split; [lia|done]|]. split; [done|]. split; [lia|]. split; [lia|].
  split; [lia|]. split; [done|]. split; [|constructor].
  repeat (constructor; [split; unfold kMaxRecordSize; simpl; [lia|done]|]). constructor.
Qed.

Lemma journal_ring_queue_witness :
  let '(r', taken) := fifo_pushes sample_journal_ring [[1; 2]; [3]; [4]] in
  jr_head r' = 1 /\ jr_contents r' = [[1; 2]; [3]] /\ taken = [true; true; false].
Proof.
  pose proof (journal_ring_queue sample_journal_ring [[1; 2]; [3]; [4]] sample_journal_ring_wf) as H.
  assert (jr_head (fifo_pushes sample_journal_ring [[1; 2]; [3]; [4]]).1 = 1) as Hh
    by (vm_compute; reflexivity).
  destruct (fifo_pushes sample_journal_ring [[1; 2]; [3]; [4]]) as [r' taken].
  destruct H as (_ & Hc & Ht & _).
  { repeat (constructor; [unfold record_ok, kMaxRecordSize; simpl; lia|]). constructor. }
  split; [exact Hh|]. split; [exact Hc|exact Ht].
Defined.
