(* ===== verification/JournalSpsc.v ===== *)
(** * JournalSpsc: the two threads of the journal ring

    [JournalRingBuffer::tryPush] and [tryPop] (src/JournalRingBuffer.cpp) access by access: the
    loads and stores of the counters, and between them the copy of the bytes and the store of the
    size, which the other thread may overtake. JournalRing.v models the two as single operations;
    here every interleaving of one producer and one consumer is shown to be one of those: the ring
    is linearizable. *)

From Stdlib Require Import ZArith Lia Bool.
From stdpp Require Import base tactics decidable numbers option relations list.
From S2P Require Import Prelude.
From S2P Require Import Fifo.
From S2P Require Import JournalRing.

Local Open Scope Z_scope.

(** ** The threads *)

(** Where the producer is in [tryPush]: outside; past the check for room; past the copy of the
    bytes; past the store of the size. *)
Inductive push_pc : Type :=
| QIdle
| QRoom (data : list Z)
| QCopied (data : list Z)
| QSized (data : list Z).

(** Where the consumer is in [tryPop]: outside; past the check for a record; past the load of the
    size; past the copy to the view. *)
Inductive pop_pc : Type :=
| KIdle
| KFound
| KSized (size : Z)
| KCopied (view : list Z).

(** What the calls that returned, or are bound to, have answered, in the order of the access that
    decides it. *)
Inductive ring_answer : Type :=
| Pushed (data : list Z)
| WasFull
| Popped (data : list Z)
| WasEmpty.

Record JSystem : Type := Build_JSystem {
  js_ring : JournalRing;
  js_push : push_pc;
  js_pop : pop_pc;
  js_answers : list ring_answer
}.

Definition head_index (r : JournalRing) : nat := Z.to_nat (Z.land (jr_head r) (jr_mask r)).

Definition tail_index (r : JournalRing) : nat := Z.to_nat (Z.land (jr_tail r) (jr_mask r)).

Definition with_slot (r : JournalRing) (s : Slot) : JournalRing :=
  Build_JournalRing (jr_head r) (jr_tail r) (jr_capacity r) (jr_mask r) (<[head_index r := s]> (jr_ring r)).

Definition store_head (r : JournalRing) : JournalRing :=
  Build_JournalRing (u64 (jr_head r + 1)) (jr_tail r) (jr_capacity r) (jr_mask r) (jr_ring r).

Definition store_tail (r : JournalRing) : JournalRing :=
  Build_JournalRing (jr_head r) (u64 (jr_tail r + 1)) (jr_capacity r) (jr_mask r) (jr_ring r).

(** The next access of a producer that pushes [data]. *)
Definition push_turn (r : JournalRing) (q : push_pc) (data : list Z) : JournalRing * push_pc * list ring_answer :=
  match q with
  | QIdle =>
      let size := Z.of_nat (length data) in
      if (size =? 0) || (kMaxRecordSize <? size) then (r, QIdle, [])
      else if jr_capacity r <=? u64 (jr_head r - jr_tail r) then (r, QIdle, [WasFull])
      else (r, QRoom data, [])
  | QRoom data =>
      let slot := jr_ring r !!! head_index r in
      (with_slot r (Build_Slot (slot_size slot) (memcpy data (slot_data slot))), QCopied data, [])
  | QCopied data =>
      let slot := jr_ring r !!! head_index r in
      (with_slot r (Build_Slot (u32 (Z.of_nat (length data))) (slot_data slot)), QSized data, [])
  | QSized data => (store_head r, QIdle, [Pushed data])
  end.

(** The next access of the consumer. *)
Definition pop_turn (r : JournalRing) (k : pop_pc) : JournalRing * pop_pc * list ring_answer :=
  match k with
  | KIdle => if jr_tail r =? jr_head r then (r, KIdle, [WasEmpty]) else (r, KFound, [])
  | KFound => (r, KSized (slot_size (jr_ring r !!! tail_index r)), [])
  | KSized size =>
      if negb (size =? 0) && (size <=? kMaxRecordSize)
      then (r, KCopied (take (Z.to_nat size) (slot_data (jr_ring r !!! tail_index r))), [])
      else (store_tail r, KIdle, [WasEmpty])
  | KCopied view => (store_tail r, KIdle, [Popped view])
  end.

Inductive ring_step : JSystem -> JSystem -> Prop :=
| rs_push r q k h data :
    ring_step (Build_JSystem r q k h)
      (let '(r', q', a) := push_turn r q data in Build_JSystem r' q' k (h ++ a))
| rs_pop r q k h :
    ring_step (Build_JSystem r q k h)
      (let '(r', k', a) := pop_turn r k in Build_JSystem r' q k' (h ++ a)).

(** Four turns of an undisturbed producer that finds room are a [tryPush]. *)
Lemma push_turns r data :
  record_ok data -> jr_count r < jr_capacity r -> (head_index r < length (jr_ring r))%nat ->
  let '(r1, q1, _) := push_turn r QIdle data in
  let '(r2, q2, _) := push_turn r1 q1 data in
  let '(r3, q3, _) := push_turn r2 q2 data in
  let '(r4, q4, a) := push_turn r3 q3 data in
  (r4, PushOk) = tryPush r data /\ q4 = QIdle /\ a = [Pushed data].
Proof.
  intros Hok Hroom Hi. unfold tryPush, push_turn. unfold record_ok in Hok. fold (jr_count r).
  destruct (Z.eqb_spec (Z.of_nat (length data)) 0); [lia|].
  destruct (Z.ltb_spec kMaxRecordSize (Z.of_nat (length data))); [lia|].
  destruct (Z.leb_spec (jr_capacity r) (jr_count r)); [lia|]. split; [|done].
  unfold with_slot, store_head, head_index in *. cbn. rewrite list_lookup_total_insert_eq by done. cbn.
  by rewrite list_insert_insert_eq.
Qed.

(** ** The bounded queue it implements *)

(** One answer of a sequential queue of at most [cap] records. *)
Definition queue_answer (cap : nat) (q : list (list Z)) (a : ring_answer) : option (list (list Z)) :=
  match a with
  | Pushed data => if bool_decide (length q < cap)%nat then Some (q ++ [data]) else None
  | WasFull => if bool_decide (length q = cap) then Some q else None
  | Popped data =>
      match q with
      | d :: q => if bool_decide (d = data) then Some q else None
      | [] => None
      end
  | WasEmpty => match q with [] => Some [] | _ => None end
  end.

Fixpoint queue_answers (cap : nat) (q : list (list Z)) (h : list ring_answer) : option (list (list Z)) :=
  match h with
  | [] => Some q
  | a :: h => q ← queue_answer cap q a; queue_answers cap q h
  end.

Lemma queue_answers_app cap q h1 h2 :
  queue_answers cap q (h1 ++ h2) = (q ← queue_answers cap q h1; queue_answers cap q h2).
Proof.
  revert q. induction h1 as [|a h1 IH]; intros q; simpl; [done|].
  destruct (queue_answer cap q a) as [q'|]; simpl; [apply IH|done].
Qed.

(** ** The invariant: what each program point knows of the ring *)

Definition push_knows (r : JournalRing) (q : push_pc) : Prop :=
  match q with
  | QIdle => True
  | QRoom data => jr_count r < jr_capacity r /\ record_ok data
  | QCopied data =>
      jr_count r < jr_capacity r /\ record_ok data /\
      take (length data) (slot_data (jr_ring r !!! head_index r)) = data
  | QSized data =>
      jr_count r < jr_capacity r /\ record_ok data /\
      slot_size (jr_ring r !!! head_index r) = Z.of_nat (length data) /\
      slot_bytes (jr_ring r !!! head_index r) = data
  end.

Definition pop_knows (r : JournalRing) (k : pop_pc) : Prop :=
  match k with
  | KIdle => True
  | KFound => 0 < jr_count r
  | KSized size => 0 < jr_count r /\ slot_size (jr_ring r !!! tail_index r) = size
  | KCopied view => 0 < jr_count r /\ slot_bytes (jr_ring r !!! tail_index r) = view
  end.

Record ring_inv (cap : Z) (s : JSystem) : Prop := {
  ri_wf : jr_wf (js_ring s);
  ri_capacity : jr_capacity (js_ring s) = cap;
  ri_push : push_knows (js_ring s) (js_push s);
  ri_pop : pop_knows (js_ring s) (js_pop s);
  ri_answers : queue_answers (Z.to_nat cap) [] (js_answers s) = Some (jr_contents (js_ring s))
}.

Lemma length_contents r : jr_wf r -> Z.of_nat (length (jr_contents r)) = jr_count r.
Proof.
  intros _. unfold jr_contents, jr_slots. rewrite length_fmap, length_slots.
  pose proof (jr_count_range r). lia.
Qed.

Lemma head_index_eq r : jr_wf r -> head_index r = Z.to_nat ((jr_tail r + jr_count r) mod jr_capacity r).
Proof. intros Hwf. unfold head_index. by rewrite jr_index, head_slot. Qed.

Lemma tail_index_eq r : jr_wf r -> tail_index r = Z.to_nat (jr_tail r mod jr_capacity r).
Proof. intros Hwf. unfold tail_index. by rewrite jr_index. Qed.

Lemma head_index_lt r : jr_wf r -> (head_index r < length (jr_ring r))%nat.
Proof.
  intros Hwf. rewrite head_index_eq by done. pose proof (capacity_power r Hwf) as [_ Hc].
  destruct Hwf as (_ & _ & _ & _ & _ & Hlen & _).
  pose proof (Z.mod_pos_bound (jr_tail r + jr_count r) (jr_capacity r)). lia.
Qed.

(** With room and a record, the threads are at different slots. *)
Lemma indices_differ r :
  jr_wf r -> 0 < jr_count r < jr_capacity r -> head_index r <> tail_index r.
Proof.
  intros Hwf Hc. rewrite head_index_eq, tail_index_eq by done. intros Heq.
  pose proof (Z.mod_pos_bound (jr_tail r + jr_count r) (jr_capacity r)) as H1.
  pose proof (Z.mod_pos_bound (jr_tail r) (jr_capacity r)) as H2. apply Z2Nat.inj in Heq; [|lia..].
  assert (jr_count r mod jr_capacity r = 0) as Hm.
  { replace (jr_count r) with ((jr_tail r + jr_count r) - jr_tail r) by lia.
    rewrite Zminus_mod, Heq, Z.sub_diag. apply Z.mod_0_l. lia. }
  rewrite Z.mod_small in Hm by lia. lia.
Qed.

(** Writing the slot behind the last record is invisible. *)
Lemma with_slot_spec r s :
  jr_wf r -> slot_wf s -> jr_count r < jr_capacity r ->
  jr_wf (with_slot r s) /\ jr_contents (with_slot r s) = jr_contents r /\
  jr_ring (with_slot r s) !!! head_index (with_slot r s) = s /\
  (0 < jr_count r -> jr_ring (with_slot r s) !!! tail_index r = jr_ring r !!! tail_index r).
Proof.
  intros Hwf Hs Hc. pose proof (jr_count_range r) as H0. pose proof (head_index_lt r Hwf) as Hlt.
  assert (jr_slots (with_slot r s) = jr_slots r) as Hsl.
  { unfold jr_slots, with_slot. cbn [jr_ring jr_capacity jr_tail]. rewrite (head_index_eq r Hwf).
    change (jr_count (Build_JournalRing _ _ _ _ _)) with (jr_count r). apply slots_write. lia. }
  split; [|split; [|split]].
  - pose proof Hwf as (Hk & Hm & Hh & Ht & Hcount & Hlen & Hslots & Hne).
    split; [done|]. split; [done|]. split; [done|]. split; [done|]. split; [done|].
    split; [by cbn; rewrite length_insert|]. split; [by apply Forall_insert|by rewrite Hsl].
  - unfold jr_contents. by rewrite Hsl.
  - cbn. by apply list_lookup_total_insert_eq.
  - intros Hpos. cbn. apply list_lookup_total_insert_ne. by apply indices_differ.
Qed.

(** The counters' stores. *)
Lemma store_head_spec r :
  jr_wf r -> jr_count r < jr_capacity r -> 0 < slot_size (jr_ring r !!! head_index r) ->
  jr_wf (store_head r) /\ jr_contents (store_head r) = jr_contents r ++ [slot_bytes (jr_ring r !!! head_index r)] /\
  jr_count (store_head r) = jr_count r + 1.
Proof.
  intros Hwf Hc Hs. pose proof (jr_count_range r) as H0. pose proof (capacity_power r Hwf) as [_ Hcap].
  assert (jr_count (store_head r) = jr_count r + 1) as Hn by (refine (count_push r _); unfold_int; lia).
  assert (jr_slots (store_head r) = jr_slots r ++ [jr_ring r !!! head_index r]) as Hsl.
  { unfold jr_slots. rewrite Hn, (head_index_eq r Hwf). apply slots_last. lia. }
  split; [|split; [unfold jr_contents; by rewrite Hsl, fmap_app|done]].
  pose proof Hwf as (Hk & Hm & Hh & Ht & Hcount & Hlen & Hslots & Hne).
  split; [done|]. split; [done|]. split; [apply u64_range|]. split; [done|].
  split; [rewrite Hn; simpl; lia|]. split; [done|]. split; [done|].
  rewrite Hsl. apply Forall_app. split; [done|]. by apply Forall_singleton.
Qed.

Lemma store_tail_spec r :
  jr_wf r -> 0 < jr_count r ->
  jr_wf (store_tail r) /\ jr_contents r = slot_bytes (jr_ring r !!! tail_index r) :: jr_contents (store_tail r) /\
  jr_count (store_tail r) = jr_count r - 1 /\ 0 < slot_size (jr_ring r !!! tail_index r) <= kMaxRecordSize.
Proof.
  intros Hwf Hpos. pose proof (capacity_power r Hwf) as [_ Hcap].
  pose proof Hwf as (Hk & Hm & Hh & Ht & Hcount & Hlen & Hslots & Hne).
  assert (jr_count (store_tail r) = jr_count r - 1) as Hn by (by refine (count_pop r _)).
  assert (jr_slots r = jr_ring r !!! tail_index r :: jr_slots (store_tail r)) as Hsl.
  { unfold jr_slots at 1. rewrite slots_cons by done. rewrite (tail_index_eq r Hwf). f_equal.
    unfold jr_slots. rewrite Hn. cbn. rewrite <- slots_mod by lia. symmetry. rewrite <- slots_mod by lia.
    destruct Hk as (k & Hk & Hkc). f_equal. rewrite Hkc. by rewrite u64_mod_pow2 by lia. }
  rewrite Hsl in Hne. apply Forall_cons in Hne as [Hs Hne].
  split; [|split; [unfold jr_contents; by rewrite Hsl|split; [done|split; [done|]]]].
  - split; [done|]. split; [done|]. split; [done|]. split; [apply u64_range|].
    split; [rewrite Hn; simpl; lia|]. by split_and!.
  - rewrite Forall_forall in Hslots. apply (Hslots (jr_ring r !!! tail_index r)).
    apply list_elem_of_lookup_total_2. rewrite tail_index_eq by done.
    pose proof (Z.mod_pos_bound (jr_tail r) (jr_capacity r)). lia.
Qed.

Lemma push_turn_inv cap r q k h data :
  ring_inv cap (Build_JSystem r q k h) ->
  let '(r', q', a) := push_turn r q data in ring_inv cap (Build_JSystem r' q' k (h ++ a)).
Proof.
  intros [Hwf Hcap Hq Hk Hh]. cbn [js_ring js_push js_pop js_answers] in *.
  pose proof (length_contents r Hwf) as Hlen. pose proof (jr_count_range r) as H0.
  assert (slot_wf (jr_ring r !!! head_index r)) as Hslot.
  { pose proof Hwf as (_ & _ & _ & _ & _ & _ & Hslots & _). rewrite Forall_forall in Hslots.
    apply Hslots, list_elem_of_lookup_total_2. by apply head_index_lt. }
  assert (forall r', jr_wf r' -> jr_capacity r' = jr_capacity r -> jr_count r' = jr_count r ->
    jr_contents r' = jr_contents r ->
    (0 < jr_count r -> jr_ring r' !!! tail_index r = jr_ring r !!! tail_index r) ->
    tail_index r' = tail_index r -> forall q', push_knows r' q' ->
    ring_inv cap (Build_JSystem r' q' k (h ++ []))) as Hkeep.
  { intros r' Hwf' Hc' Hn Hct Hslots Hti q' Hq'. rewrite app_nil_r.
    constructor; cbn [js_ring js_push js_pop js_answers]; [done|congruence|done| |congruence].
    destruct k; cbn [pop_knows] in *; rewrite ?Hn, ?Hti; [done|done|..];
      (destruct Hk as [Hpos Hk]; by rewrite Hslots). }
  destruct q as [|d|d|d]; cbn [push_turn push_knows] in *.
  - destruct (Z.eqb_spec (Z.of_nat (length data)) 0); [by apply Hkeep|].
    destruct (Z.ltb_spec kMaxRecordSize (Z.of_nat (length data))); [by apply Hkeep|]. cbn [orb].
    fold (jr_count r). destruct (Z.leb_spec (jr_capacity r) (jr_count r)).
    + constructor; try done. cbn. rewrite queue_answers_app, Hh. cbn.
      pose proof Hwf as (_ & _ & _ & _ & Hcount & _). by rewrite bool_decide_true by lia.
    + apply Hkeep; try done. cbn. unfold record_ok. split; [done|lia].
  - destruct Hq as [Hroom Hok]. unfold record_ok in Hok. destruct Hslot as [Hs1 Hs2].
    edestruct (with_slot_spec r (Build_Slot (slot_size (jr_ring r !!! head_index r))
      (memcpy d (slot_data (jr_ring r !!! head_index r))))) as (Hwf' & Hct & Hat & Hother); [done| |done|].
    { split; [done|]. cbn. rewrite memcpy_length by lia. done. }
    apply Hkeep; try done. cbn [push_knows]. rewrite Hat. split; [done|]. split; [done|]. cbn.
    unfold memcpy. apply take_app_length.
  - destruct Hq as (Hroom & Hok & Hdata). unfold record_ok in Hok. destruct Hslot as [Hs1 Hs2].
    assert (u32 (Z.of_nat (length d)) = Z.of_nat (length d)) as Hu
      by (apply u32_small; unfold kMaxRecordSize in *; unfold_int; lia).
    edestruct (with_slot_spec r (Build_Slot (u32 (Z.of_nat (length d)))
      (slot_data (jr_ring r !!! head_index r)))) as (Hwf' & Hct & Hat & Hother); [done| |done|].
    { rewrite Hu. split; [cbn; lia|done]. }
    apply Hkeep; try done. cbn [push_knows]. rewrite Hat, Hu. unfold slot_bytes. cbn. rewrite Nat2Z.id.
    split; [done|]. split; [done|]. by split.
  - destruct Hq as (Hroom & Hok & Hsz & Hb). unfold record_ok in Hok.
    destruct (store_head_spec r Hwf Hroom) as (Hwf' & Hct & Hn); [lia|].
    constructor; cbn [js_ring js_push js_pop js_answers]; [done|done|done| |].
    + destruct k; cbn [pop_knows] in *; rewrite ?Hn; [done|lia|..]; (split; [lia|by destruct Hk]).
    + rewrite queue_answers_app, Hh. cbn. rewrite bool_decide_true by lia. by rewrite Hct, Hb.
Qed.

Lemma pop_turn_inv cap r q k h :
  ring_inv cap (Build_JSystem r q k h) ->
  let '(r', k', a) := pop_turn r k in ring_inv cap (Build_JSystem r' q k' (h ++ a)).
Proof.
  intros [Hwf Hcap Hq Hk Hh]. cbn [js_ring js_push js_pop js_answers] in *.
  pose proof (length_contents r Hwf) as Hlen. pose proof (jr_count_range r) as H0.
  assert (forall k', pop_knows r k' -> ring_inv cap (Build_JSystem r q k' (h ++ []))) as Hkeep
    by (intros k' Hk'; by rewrite app_nil_r).
  assert (forall a, 0 < jr_count r -> queue_answer (Z.to_nat cap) (jr_contents r) a = Some (jr_contents (store_tail r)) ->
    ring_inv cap (Build_JSystem (store_tail r) q KIdle (h ++ [a]))) as Htake.
  { intros a Hpos Ha. destruct (store_tail_spec r Hwf Hpos) as (Hwf' & _ & Hn & _).
    constructor; cbn [js_ring js_push js_pop js_answers]; [done|done| |done|].
    - destruct q; cbn [push_knows] in *; rewrite ?Hn; [done|..]; destruct Hq; (split; [simpl; lia|done]).
    - rewrite queue_answers_app, Hh. cbn. by rewrite Ha. }
  destruct k as [| |size|view]; cbn [pop_turn pop_knows] in *.
  - pose proof Hwf as (_ & _ & Hhd & Htl & _). pose proof (jr_count_zero r Hhd Htl) as Hz.
    destruct (Z.eqb_spec (jr_tail r) (jr_head r)) as [He|He].
    + constructor; try done. cbn. rewrite queue_answers_app, Hh. cbn.
      destruct (jr_contents r); [done|]. simpl in Hlen. apply Hz in He. lia.
    + apply Hkeep. cbn. enough (jr_count r <> 0) by lia. intros Hx. by apply Hz in Hx.
  - by apply Hkeep.
  - destruct Hk as [Hpos <-]. destruct (store_tail_spec r Hwf Hpos) as (_ & _ & _ & Hsz).
    destruct (Z.eqb_spec (slot_size (jr_ring r !!! tail_index r)) 0); [lia|].
    destruct (Z.leb_spec (slot_size (jr_ring r !!! tail_index r)) kMaxRecordSize); [|lia]. cbn [negb andb].
    by apply Hkeep.
  - destruct Hk as [Hpos <-]. destruct (store_tail_spec r Hwf Hpos) as (_ & Hct & _ & _).
    apply Htake; [done|]. rewrite Hct. cbn. by rewrite bool_decide_true.
Qed.

Lemma ring_step_inv cap s s' : ring_inv cap s -> ring_step s s' -> ring_inv cap s'.
Proof.
  intros Hinv Hstep. destruct Hstep as [r q k h data|r q k h].
  - pose proof (push_turn_inv cap r q k h data Hinv) as Hx. by destruct (push_turn r q data) as [[r' q'] a].
  - pose proof (pop_turn_inv cap r q k h Hinv) as Hx. by destruct (pop_turn r k) as [[r' k'] a].
Qed.

(** C34: the journal ring is linearizable. Whatever the interleaving of the accesses of one producer
    and one consumer, wherever the 64-bit counters stand, the answers of [tryPush] and [tryPop],
    in the order of their deciding accesses, are those of a sequential queue of records with the
    ring's capacity: full and empty are answered when the queue is full and empty, records come out
    whole and in order, none is lost; and the ring holds what that queue holds. *)
Theorem journal_ring_linearizable capacity r s :
  in_u64 capacity -> JournalRing_new capacity = Ok r ->
  rtc ring_step (Build_JSystem r QIdle KIdle []) s ->
  queue_answers (Z.to_nat capacity) [] (js_answers s) = Some (jr_contents (js_ring s)).
Proof.
  intros Hcap Hnew Hsteps. apply JournalRing_new_wf in Hnew as (Hwf & He & Hc); [|done].
  apply (ri_answers capacity). assert (ring_inv capacity (Build_JSystem r QIdle KIdle [])) as Hinv
    by (constructor; cbn; [done..|by rewrite He]).
  clear Hwf He Hc. induction Hsteps as [|s1 s2 s3 Hstep _ IH]; [done|]. eauto using ring_step_inv.
Qed.

(** A record half written while the consumer looks, then taken. *)
Definition sample_system : JSystem :=
  Build_JSystem (Build_JournalRing 1 1 2 1
      [Build_Slot 2 (memcpy [7; 8] (slot_data Slot_default)); Slot_default])
    QIdle KIdle [WasEmpty; Pushed [7; 8]; Popped [7; 8]].

Lemma journal_ring_linearizable_witness :
  exists r, JournalRing_new 2 = Ok r /\
    queue_answers 2 [] (js_answers sample_system) = Some (jr_contents (js_ring sample_system)).
Proof.
  eexists. split; [reflexivity|].
  apply (journal_ring_linearizable 2 (Build_JournalRing 0 0 2 1 [Slot_default; Slot_default]));
    [unfold_int; lia|reflexivity|].
  eapply rtc_l; [apply (rs_push _ _ _ _ [7; 8])|]. eapply rtc_l; [apply (rs_push _ _ _ _ [7; 8])|].
  eapply rtc_l; [apply rs_pop|]. eapply rtc_l; [apply (rs_push _ _ _ _ [])|].
  eapply rtc_l; [apply (rs_push _ _ _ _ [])|]. do 4 (eapply rtc_l; [apply rs_pop|]).
  apply rtc_refl.
Defined.
