(* ===== verification/OrderPool.v ===== *)
(** * OrderPool: the allocator of order slots

    The class [OrderPool] of include/OrderPool.h. A pointer into [storage_] is its index; the
    null pointer is [None]. *)

From Stdlib Require Import ZArith Lia Bool String.
From stdpp Require Import base tactics decidable numbers option list.
From S2P Require Import Prelude.
From S2P Require Import Order.

Local Open Scope nat_scope.

Record OrderPool : Type := Build_OrderPool {
  storage_ : list Order;
  free_list_ : list nat;
  allocated_ : list bool;
  pool_head_ : nat
}.

(** [OrderPool(capacity)]; the slots are default orders, built at the clock reading [now]. *)
Definition OrderPool_new (capacity : nat) (now : Z) : OrderPool :=
  Build_OrderPool (replicate capacity (Order_default now))
    ((fun i => capacity - 1 - i) <$> seq 0 capacity) (replicate capacity false) 0.

Definition allocate (p : OrderPool) : OrderPool * option nat :=
  if length (free_list_ p) <=? pool_head_ p then (p, None)
  else
    let idx := nth (pool_head_ p) (free_list_ p) 0 in
    (Build_OrderPool (storage_ p) (free_list_ p) (<[idx := true]> (allocated_ p)) (S (pool_head_ p)),
     Some idx).

(** [head_] is not 0 where the code decrements it (see [pool_wf]). *)
Definition deallocate (p : OrderPool) (order : option Z) : result OrderPool :=
  match order with
  | None => Ok p
  | Some ptr =>
      match storage_ p with
      | [] => Throw (InvalidArgument "OrderPool::deallocate: pool is empty")
      | _ =>
          if (ptr <? 0)%Z || (Z.of_nat (length (storage_ p)) - 1 <? ptr)%Z
          then Throw (InvalidArgument "OrderPool::deallocate: pointer out of range")
          else
            let idx := Z.to_nat ptr in
            if negb (nth idx (allocated_ p) false)
            then Throw (RuntimeError "OrderPool::deallocate: double free detected")
            else
              Ok (Build_OrderPool (storage_ p) (<[pred (pool_head_ p) := idx]> (free_list_ p))
                    (<[idx := false]> (allocated_ p)) (pred (pool_head_ p)))
      end
  end.

Definition capacity (p : OrderPool) : nat := length (storage_ p).

Definition available (p : OrderPool) : nat := length (free_list_ p) - pool_head_ p.

(** Assignment through a pointer. *)
Definition store (p : OrderPool) (idx : nat) (o : Order) : OrderPool :=
  Build_OrderPool (<[idx := o]> (storage_ p)) (free_list_ p) (allocated_ p) (pool_head_ p).

(** ** The invariant *)

(** The slots in use. *)
Definition used (p : OrderPool) (i : nat) : Prop := allocated_ p !! i = Some true.

(** The free list behind [head_] lists the slots that are not in use, each once. *)
Definition pool_wf (p : OrderPool) : Prop :=
  length (free_list_ p) = capacity p /\ length (allocated_ p) = capacity p /\
  pool_head_ p <= capacity p /\ NoDup (drop (pool_head_ p) (free_list_ p)) /\
  (forall i, i ∈ drop (pool_head_ p) (free_list_ p) <-> allocated_ p !! i = Some false).

Lemma OrderPool_new_wf n now : pool_wf (OrderPool_new n now) /\ available (OrderPool_new n now) = n /\
  forall i, ~ used (OrderPool_new n now) i.
Proof.
  unfold pool_wf, OrderPool_new, capacity, available, used. simpl.
  rewrite length_fmap, length_seq, !length_replicate, Nat.sub_0_r, drop_0.
  split_and!; [done|done|lia| | |done|].
  - apply NoDup_fmap_2_strong; [|apply NoDup_seq]. intros x y Hx Hy. rewrite elem_of_seq in Hx, Hy. lia.
  - intros i. rewrite list_elem_of_fmap. split.
    + intros (x & -> & Hx). rewrite elem_of_seq in Hx. apply lookup_replicate. split; [done|lia].
    + intros Hi. apply lookup_replicate in Hi as [_ Hi]. exists (n - 1 - i). rewrite elem_of_seq. lia.
  - intros i Hi. apply lookup_replicate in Hi as [Hi _]. done.
Qed.

(** A free list that lists free slots leaves room below [head_] as long as a slot is in use. *)
Lemma used_head p i : pool_wf p -> used p i -> 0 < pool_head_ p.
Proof.
  intros (Hf & Ha & Hh & Hnd & Hfree) Hu. destruct (decide (pool_head_ p = 0)) as [H0|]; [|lia]. exfalso.
  rewrite H0, drop_0 in *.
  assert (i ∈ free_list_ p) as Hi.
  { assert (free_list_ p ≡ₚ seq 0 (capacity p)) as ->.
    { apply submseteq_length_Permutation; [|rewrite length_seq; lia].
      apply NoDup_submseteq; [done|]. intros x Hx. apply Hfree, lookup_lt_Some in Hx.
      apply elem_of_seq. lia. }
    apply lookup_lt_Some in Hu. apply elem_of_seq. lia. }
  apply Hfree in Hi. unfold used in Hu. congruence.
Qed.

(** The functional behaviour of [allocate]: a slot that was free, now in use. *)
Lemma allocate_spec p p' got :
  pool_wf p -> allocate p = (p', got) ->
  pool_wf p' /\ capacity p' = capacity p /\ storage_ p' = storage_ p /\
  match got with
  | None => p' = p /\ available p = 0
  | Some i => i < capacity p /\ ~ used p i /\ S (available p') = available p /\
      forall k, used p' k <-> k = i \/ used p k
  end.
Proof.
  intros (Hf & Ha & Hh & Hnd & Hfree). unfold allocate, available.
  destruct (Nat.leb_spec (length (free_list_ p)) (pool_head_ p)); intros [= <- <-].
  { split_and!; try done; lia. }
  set (i := nth (pool_head_ p) (free_list_ p) 0).
  assert (drop (pool_head_ p) (free_list_ p) = i :: drop (S (pool_head_ p)) (free_list_ p)) as Hd.
  { apply drop_S. unfold i. rewrite nth_lookup. destruct (lookup_lt_is_Some_2 (free_list_ p) (pool_head_ p)) as [x Hx]; [done|].
    by rewrite Hx. }
  rewrite Hd in Hnd, Hfree. apply NoDup_cons in Hnd as [Hni Hnd].
  assert (allocated_ p !! i = Some false) as Hi by (apply Hfree; by left).
  pose proof (lookup_lt_Some _ _ _ Hi) as Hlt.
  unfold pool_wf, capacity, used in *. simpl. rewrite length_insert. split_and!; try done; try lia.
  - intros k. destruct (decide (k = i)) as [->|Hk].
    + rewrite list_lookup_insert_eq by done. split; [done|]. intros [=].
    + rewrite list_lookup_insert_ne by done. rewrite <- Hfree, elem_of_cons. tauto.
  - rewrite Hi. congruence.
  - intros k. destruct (decide (k = i)) as [->|Hk].
    + rewrite list_lookup_insert_eq by done. tauto.
    + rewrite list_lookup_insert_ne by done. tauto.
Qed.

(** [deallocate] of a slot in use frees it; of any other pointer it throws. *)
Lemma deallocate_used p i :
  pool_wf p -> used p i ->
  exists p', deallocate p (Some (Z.of_nat i)) = Ok p' /\ pool_wf p' /\ storage_ p' = storage_ p /\
    available p' = S (available p) /\ forall k, used p' k <-> k <> i /\ used p k.
Proof.
  intros Hwf Hu. pose proof (used_head p i Hwf Hu) as H0. destruct Hwf as (Hf & Ha & Hh & Hnd & Hfree).
  pose proof (lookup_lt_Some _ _ _ Hu) as Hlt. unfold capacity in *. unfold deallocate.
  destruct (storage_ p) as [|o os] eqn:Hs; [simpl in *; lia|]. rewrite <- Hs in *.
  rewrite (proj2 (Z.ltb_ge _ _)), (proj2 (Z.ltb_ge _ _)) by lia. cbn [orb].
  rewrite Nat2Z.id, nth_lookup. unfold used in Hu. rewrite Hu. simpl. eexists. split; [reflexivity|].
  destruct (pool_head_ p) as [|h] eqn:Hhd; [lia|]. simpl.
  unfold pool_wf, capacity, available, used. simpl. rewrite !length_insert, Hhd.
  assert (drop h (<[h := i]> (free_list_ p)) = i :: drop (S h) (free_list_ p)) as Hd.
  { rewrite (drop_S _ i h); [by rewrite drop_insert_lt by lia|]. apply list_lookup_insert_eq. lia. }
  rewrite Hd. split_and!; try done; try lia.
  - constructor; [|done]. rewrite Hfree. congruence.
  - intros k. rewrite elem_of_cons. destruct (decide (k = i)) as [->|Hk].
    + rewrite list_lookup_insert_eq by done. tauto.
    + rewrite list_lookup_insert_ne, Hfree by done. tauto.
  - intros k. destruct (decide (k = i)) as [->|Hk].
    + rewrite list_lookup_insert_eq by done. split; [done|tauto].
    + rewrite list_lookup_insert_ne by done. tauto.
Qed.

Lemma deallocate_unused p ptr :
  pool_wf p -> ~ (0 <= ptr /\ used p (Z.to_nat ptr))%Z -> exists ex, deallocate p (Some ptr) = Throw ex.
Proof.
  intros Hwf Hu. unfold deallocate. destruct (storage_ p); [eauto|].
  destruct (Z.ltb_spec ptr 0); [eauto|]. cbn [orb]. destruct (_ <? ptr)%Z; [eauto|].
  rewrite nth_lookup. destruct (allocated_ p !! Z.to_nat ptr) as [[]|] eqn:Hl; simpl; eauto.
  exfalso. apply Hu. by split.
Qed.
