(* ===== verification/OrderQueue.v ===== *)
(** * OrderQueue: the queue of a price level, in slots of the shared pool

    The class [OrderQueue] of include/OrderQueue.h over [OrderPool]: a vector of slot pointers
    with a window [head_, tail_), reclaimed and doubled on demand. [queue_rep] relates a queue to
    the list of orders it holds, the model of a level that OrderBook.v uses; [shared] relates all
    the queues of a book and their one pool to the lists and to the count of free slots. *)

From Stdlib Require Import ZArith Lia Bool String.
From stdpp Require Import base tactics decidable numbers option list.
From S2P Require Import Prelude.
From S2P Require Import Order.
From S2P Require Import OrderPool.

Local Open Scope nat_scope.

(** The field [pool_] is the pool the operations pass along. *)
Record OrderQueue : Type := Build_OrderQueue {
  pointers_ : list (option nat);
  queue_head_ : nat;
  queue_tail_ : nat
}.

Definition OrderQueue_new (pool : option OrderPool) : result OrderQueue :=
  match pool with
  | None => Throw (InvalidArgument "OrderQueue: pool cannot be null")
  | Some _ => Ok (Build_OrderQueue [] 0 0)
  end.

(** The move constructor: the new queue and what is left of the other; [std::move] empties the
    vector. The assignment does nothing to a queue that is assigned to itself. *)
Definition move_construct (other : OrderQueue) : OrderQueue * OrderQueue :=
  (Build_OrderQueue (pointers_ other) (queue_head_ other) (queue_tail_ other), Build_OrderQueue [] 0 0).

Definition move_assign (same_object : bool) (q other : OrderQueue) : OrderQueue * OrderQueue :=
  if same_object then (q, other)
  else (Build_OrderQueue (pointers_ other) (queue_head_ other) (queue_tail_ other), Build_OrderQueue [] 0 0).

(** The first half of [push_back]: [std::move] of the window to the front, then [resize]. *)
Definition reclaim (q : OrderQueue) : OrderQueue :=
  if 0 <? queue_head_ q then
    let live := queue_tail_ q - queue_head_ q in
    Build_OrderQueue (take live (drop (queue_head_ q) (pointers_ q)) ++ drop live (pointers_ q)) 0 live
  else q.

Definition grow (q : OrderQueue) : OrderQueue :=
  let n := length (pointers_ q) in
  if queue_tail_ q =? n
  then Build_OrderQueue (pointers_ q ++ replicate (Nat.max (n * 2) 16 - n) None)
         (queue_head_ q) (queue_tail_ q)
  else q.

Definition make_room (q : OrderQueue) : OrderQueue :=
  if queue_tail_ q =? length (pointers_ q) then grow (reclaim q) else q.

(** [push_back]; the room it made stays when the pool is exhausted. *)
Definition push_back (q : OrderQueue) (p : OrderPool) (order : Order)
  : OrderQueue * OrderPool * result unit :=
  let q := make_room q in
  match allocate p with
  | (p, None) => (q, p, Throw (RuntimeError "OrderQueue: OrderPool exhausted"))
  | (p, Some ptr) =>
      (Build_OrderQueue (<[queue_tail_ q := Some ptr]> (pointers_ q)) (queue_head_ q)
         (S (queue_tail_ q)), store p ptr order, Ok ())
  end.

Definition empty (q : OrderQueue) : bool := queue_head_ q =? queue_tail_ q.

Definition size (q : OrderQueue) : nat := queue_tail_ q - queue_head_ q.

Definition pointer_at (q : OrderQueue) (i : nat) : option nat :=
  default None (pointers_ q !! (queue_head_ q + i)).

(** [at(i)] and [front()]: [None] where the [assert] fails. *)
Definition at_ (q : OrderQueue) (p : OrderPool) (i : nat) : option Order :=
  if queue_head_ q + i <? queue_tail_ q then pointer_at q i ≫= fun ptr => storage_ p !! ptr else None.

Definition front (q : OrderQueue) (p : OrderPool) : option Order :=
  if negb (empty q) then pointer_at q 0 ≫= fun ptr => storage_ p !! ptr else None.

(** Assignment through the reference [at(i)] returns. *)
Definition assign_at (q : OrderQueue) (p : OrderPool) (i : nat) (o : Order) : option OrderPool :=
  if queue_head_ q + i <? queue_tail_ q then (fun ptr => store p ptr o) <$> pointer_at q i else None.

Definition as_pointer (ptr : option nat) : option Z := Z.of_nat <$> ptr.

(** Both ends of an empty window return to 0. *)
Definition rewind (q : OrderQueue) : OrderQueue :=
  if queue_head_ q =? queue_tail_ q then Build_OrderQueue (pointers_ q) 0 0 else q.

Definition pop_front (q : OrderQueue) (p : OrderPool) : result (OrderQueue * OrderPool) :=
  if empty q then Ok (q, p)
  else
    p ← deallocate p (as_pointer (pointer_at q 0));
    Ok (rewind (Build_OrderQueue (<[queue_head_ q := None]> (pointers_ q)) (S (queue_head_ q))
          (queue_tail_ q)), p).

(** The loop of [erase_at]: [n] pointers from index [j] on move down by one. *)
Fixpoint shift_down (n j : nat) (ptrs : list (option nat)) : list (option nat) :=
  match n with
  | O => ptrs
  | S n => shift_down n (S j) (<[pred j := default None (ptrs !! j)]> ptrs)
  end.

(** [erase_at(i)]; [None] where the [assert] fails. *)
Definition erase_at (q : OrderQueue) (p : OrderPool) (i : nat) : option (result (OrderQueue * OrderPool)) :=
  if queue_head_ q + i <? queue_tail_ q then
    Some (p ← deallocate p (as_pointer (pointer_at q i));
          let j := S (queue_head_ q + i) in
          let ptrs := shift_down (queue_tail_ q - j) j (pointers_ q) in
          let tail := pred (queue_tail_ q) in
          Ok (rewind (Build_OrderQueue (<[tail := None]> ptrs) (queue_head_ q) tail), p))
  else None.

(** ** Representation *)

Definition window (q : OrderQueue) : list (option nat) :=
  take (queue_tail_ q - queue_head_ q) (drop (queue_head_ q) (pointers_ q)).

Record queue_rep (q : OrderQueue) (p : OrderPool) (ids : list nat) (l : list Order) : Prop := {
  rep_bounds : queue_head_ q <= queue_tail_ q <= length (pointers_ q);
  rep_window : window q = Some <$> ids;
  rep_used : Forall (used p) ids;
  rep_orders : Forall2 (fun i o => storage_ p !! i = Some o) ids l
}.

(** What an operation on one queue may do to the pool, [ids] and [ids'] being the slots the
    queue holds before and after: it takes slots that were free, gives back what it drops, and
    leaves the slots of other queues alone. *)
Record pool_step (p : OrderPool) (ids : list nat) (p' : OrderPool) (ids' : list nat) : Prop := {
  step_wf : pool_wf p';
  step_capacity : capacity p' = capacity p;
  step_nodup : NoDup ids';
  step_new : forall i, i ∈ ids' -> i ∈ ids \/ ~ used p i;
  step_dropped : forall i, i ∈ ids -> i ∉ ids' -> ~ used p' i;
  step_frame : forall i, i ∉ ids -> i ∉ ids' ->
    (used p' i <-> used p i) /\ storage_ p' !! i = storage_ p !! i
}.

(** ** Lemmas on the window *)

Lemma window_lookup q i :
  window q !! i = if decide (i < queue_tail_ q - queue_head_ q) then pointers_ q !! (queue_head_ q + i) else None.
Proof.
  unfold window. case_decide.
  - by rewrite lookup_take_lt, lookup_drop by lia.
  - apply lookup_ge_None_2. rewrite length_take. lia.
Qed.

Lemma rep_length q p ids l : queue_rep q p ids l -> length ids = size q /\ length l = size q.
Proof.
  intros [Hb Hw _ Ho]. rewrite <- (Forall2_length _ _ _ Ho).
  assert (length (window q) = length ids) as Hl by (rewrite Hw; apply length_fmap).
  unfold window, size in *. rewrite length_take, length_drop in Hl. lia.
Qed.

Lemma rep_empty q p ids l : queue_rep q p ids l -> empty q = bool_decide (l = []).
Proof.
  intros Hr. destruct (rep_length q p ids l Hr) as [_ Hl]. destruct Hr as [Hb _ _ _]. unfold empty, size in *.
  destruct (Nat.eqb_spec (queue_head_ q) (queue_tail_ q)).
  - rewrite bool_decide_eq_true_2; [done|]. apply nil_length_inv. lia.
  - rewrite bool_decide_eq_false_2; [done|]. intros ->. simpl in Hl. lia.
Qed.

Lemma rep_pointer q p ids l i :
  queue_rep q p ids l -> queue_head_ q + i < queue_tail_ q ->
  exists x o, ids !! i = Some x /\ l !! i = Some o /\ pointer_at q i = Some x /\ storage_ p !! x = Some o.
Proof.
  intros Hr Hi. destruct (rep_length q p ids l Hr) as [Hli Hll]. destruct Hr as [Hb Hw Hu Ho]. unfold size in *.
  destruct (lookup_lt_is_Some_2 ids i) as [x Hx]; [lia|].
  destruct (Forall2_lookup_l _ _ _ _ _ Ho Hx) as (o & Hlo & Hs). exists x, o. split_and!; try done.
  pose proof (window_lookup q i) as Hwi. rewrite Hw, list_lookup_fmap, Hx, decide_True in Hwi by lia.
  unfold pointer_at. by rewrite <- Hwi.
Qed.

(** [at], [front] and [size] read the list. *)
Lemma at_spec q p ids l i : queue_rep q p ids l -> at_ q p i = l !! i.
Proof.
  intros Hr. unfold at_. destruct (Nat.ltb_spec (queue_head_ q + i) (queue_tail_ q)) as [Hi|Hi].
  - destruct (rep_pointer q p ids l i Hr Hi) as (x & o & _ & -> & -> & Ho). exact Ho.
  - symmetry. apply lookup_ge_None_2. destruct (rep_length q p ids l Hr) as [_ ->]. unfold size. lia.
Qed.

Lemma front_spec q p ids l : queue_rep q p ids l -> front q p = head l.
Proof.
  intros Hr. rewrite head_lookup. rewrite <- (at_spec q p ids l 0 Hr). unfold front, at_, empty.
  destruct (rep_bounds _ _ _ _ Hr). rewrite Nat.add_0_r.
  destruct (Nat.eqb_spec (queue_head_ q) (queue_tail_ q)), (Nat.ltb_spec (queue_head_ q) (queue_tail_ q));
    try lia; reflexivity.
Qed.

(** A queue keeps its contents under a change of the pool that spares its slots. *)
Lemma rep_frame q p p' ids l :
  queue_rep q p ids l ->
  (forall i, i ∈ ids -> (used p i -> used p' i) /\ storage_ p' !! i = storage_ p !! i) ->
  queue_rep q p' ids l.
Proof.
  intros [Hb Hw Hu Ho] Hf. constructor; [done|done| |].
  - rewrite Forall_forall in *. intros i Hi. apply Hf; auto.
  - clear Hw Hu. induction Ho as [|i o ids l Hio Ho IH]; constructor.
    + by rewrite (proj2 (Hf i ltac:(by left))).
    + apply IH. intros k Hk. apply Hf. by right.
Qed.

Lemma rep_same_window q q' p ids l :
  queue_rep q p ids l -> queue_head_ q' <= queue_tail_ q' <= length (pointers_ q') -> window q' = window q ->
  queue_rep q' p ids l.
Proof. intros [Hb Hw Hu Ho] Hb' Hw'. constructor; [done| |done..]. by rewrite Hw'. Qed.

Lemma rewind_rep q p ids l : queue_rep q p ids l -> queue_rep (rewind q) p ids l.
Proof.
  intros Hr. pose proof (rep_bounds _ _ _ _ Hr) as Hb. unfold rewind.
  destruct (Nat.eqb_spec (queue_head_ q) (queue_tail_ q)) as [Heq|]; [|done].
  apply (rep_same_window q); [done|simpl; lia|]. unfold window. simpl. by rewrite Heq, Nat.sub_diag.
Qed.

(** [make_room] keeps the contents and leaves a cell behind the window. *)
Lemma make_room_spec q p ids l :
  queue_rep q p ids l ->
  queue_rep (make_room q) p ids l /\ queue_tail_ (make_room q) < length (pointers_ (make_room q)).
Proof.
  intros Hr. pose proof (rep_bounds _ _ _ _ Hr) as Hb. unfold make_room.
  destruct (Nat.eqb_spec (queue_tail_ q) (length (pointers_ q))) as [Ht|]; [|split; [done|lia]].
  assert (queue_rep (reclaim q) p ids l) as Hr1.
  { unfold reclaim. destruct (Nat.ltb_spec 0 (queue_head_ q)); [|done].
    apply (rep_same_window q); [done| |].
    - simpl. rewrite length_app, length_take, !length_drop. lia.
    - unfold window. simpl. rewrite drop_0, Nat.sub_0_r, take_app_le, take_take, Nat.min_id; [done|].
      rewrite length_take, length_drop. lia. }
  pose proof (rep_bounds _ _ _ _ Hr1) as Hb1. unfold grow.
  destruct (Nat.eqb_spec (queue_tail_ (reclaim q)) (length (pointers_ (reclaim q)))) as [Ht1|]; [|split; [done|lia]].
  simpl. rewrite length_app, length_replicate. split; [|lia].
  apply (rep_same_window (reclaim q)); [done| |].
  - simpl. rewrite length_app. lia.
  - unfold window. simpl. rewrite drop_app_le by lia. rewrite take_app_le; [done|]. rewrite length_drop. lia.
Qed.

Lemma window_push q x :
  queue_head_ q <= queue_tail_ q < length (pointers_ q) ->
  window (Build_OrderQueue (<[queue_tail_ q := x]> (pointers_ q)) (queue_head_ q) (S (queue_tail_ q)))
  = window q ++ [x].
Proof.
  intros Hb. unfold window. simpl. rewrite Nat.sub_succ_l by lia.
  rewrite drop_insert_ge by lia. rewrite (take_S_r _ _ x).
  - by rewrite take_insert_ge by lia.
  - apply list_lookup_insert_eq. rewrite length_drop. lia.
Qed.

Lemma shift_down_lookup n j ptrs k :
  0 < j -> j + n <= length ptrs ->
  shift_down n j ptrs !! k = if decide (pred j <= k < pred j + n) then ptrs !! S k else ptrs !! k.
Proof.
  revert j ptrs. induction n as [|n IH]; intros j ptrs Hj Hn; simpl.
  { by rewrite decide_False by lia. }
  rewrite IH by (rewrite ?length_insert; lia).
  destruct (decide (k = pred j)) as [->|Hk].
  - rewrite decide_False, decide_True by lia. rewrite list_lookup_insert_eq by lia.
    replace (S (pred j)) with j by lia. destruct (lookup_lt_is_Some_2 ptrs j) as [y ->]; [lia|done].
  - destruct (decide (pred (S j) <= k < pred (S j) + n)).
    + rewrite decide_True by lia. by rewrite list_lookup_insert_ne by lia.
    + rewrite decide_False by lia. by rewrite list_lookup_insert_ne by lia.
Qed.

Lemma shift_down_length n j ptrs : length (shift_down n j ptrs) = length ptrs.
Proof. revert j ptrs. induction n; intros; simpl; [done|]. by rewrite IHn, length_insert. Qed.

Lemma window_erase q i :
  queue_tail_ q <= length (pointers_ q) -> queue_head_ q + i < queue_tail_ q ->
  let j := S (queue_head_ q + i) in
  window (Build_OrderQueue
            (<[pred (queue_tail_ q) := None]> (shift_down (queue_tail_ q - j) j (pointers_ q)))
            (queue_head_ q) (pred (queue_tail_ q)))
  = delete i (window q).
Proof.
  intros Hb Hi j. apply list_eq. intros k. rewrite window_lookup. cbn [queue_head_ queue_tail_ pointers_].
  destruct (decide (k < pred (queue_tail_ q) - queue_head_ q)) as [Hk|Hk].
  - rewrite list_lookup_insert_ne, shift_down_lookup by lia. simpl.
    destruct (decide (k < i)).
    + rewrite list_lookup_delete_lt, window_lookup by done. rewrite decide_False, decide_True by lia. done.
    + rewrite list_lookup_delete_ge, window_lookup by lia. rewrite !decide_True by lia. f_equal. lia.
  - symmetry. apply lookup_ge_None_2. rewrite length_delete.
    + unfold window. rewrite length_take, length_drop. lia.
    + rewrite window_lookup, decide_True by lia. apply lookup_lt_is_Some_2. lia.
Qed.

(** ** The operations on lists *)

Lemma delete_elem {A} (ids : list A) i x y :
  NoDup ids -> ids !! i = Some x -> y ∈ delete i ids <-> y ∈ ids /\ y <> x.
Proof.
  intros Hnd Hx. pose proof (delete_Permutation ids i x Hx) as Hp. rewrite Hp in Hnd.
  apply NoDup_cons in Hnd as [Hn _].
  assert (y ∈ ids <-> y = x \/ y ∈ delete i ids) as -> by (rewrite Hp at 1; apply elem_of_cons).
  split; [intros Hy; split; [by right|intros ->; done]|intros [[->|Hy] Hne]; done].
Qed.

Lemma delete_nodup {A} (ids : list A) i : NoDup ids -> NoDup (delete i ids).
Proof. intros Hnd. eapply sublist_NoDup; [done|apply sublist_delete]. Qed.

(** Giving back the slot at position [i]. *)
Lemma deallocate_step q p ids l i x :
  pool_wf p -> NoDup ids -> queue_rep q p ids l -> ids !! i = Some x ->
  exists p', deallocate p (as_pointer (Some x)) = Ok p' /\ pool_step p ids p' (delete i ids) /\
    Forall (used p') (delete i ids) /\
    Forall2 (fun k o => storage_ p' !! k = Some o) (delete i ids) (delete i l).
Proof.
  intros Hwf Hnd [_ _ Hu Ho] Hx.
  destruct (deallocate_used p x Hwf) as (p' & Hd & Hwf' & Hs & Hav & Hused).
  { rewrite Forall_forall in Hu. apply Hu. by apply list_elem_of_lookup_2 in Hx. }
  exists p'. split; [done|]. split; [|split].
  - constructor.
    + done.
    + unfold capacity. by rewrite Hs.
    + by apply delete_nodup.
    + intros k Hk. apply (delete_elem _ _ x) in Hk; [|done..]. tauto.
    + intros k Hk Hnk. rewrite Hused. rewrite (delete_elem _ _ x) in Hnk by done. tauto.
    + intros k Hk Hnk. rewrite Hused, Hs. split; [|done]. split; [tauto|].
      intros Huk. split; [|done]. intros ->. apply Hk. by apply list_elem_of_lookup_2 in Hx.
  - rewrite Forall_forall in *. intros k Hk. apply (delete_elem _ _ x) in Hk as [Hk Hne]; [|done..].
    apply Hused. auto.
  - rewrite Hs. by apply Forall2_delete.
Qed.

(** [push_back] appends, or throws when no slot of the pool is free. *)
Lemma push_back_spec q p ids l o :
  pool_wf p -> NoDup ids -> queue_rep q p ids l ->
  exists q' p' ids' r, push_back q p o = (q', p', r) /\ pool_step p ids p' ids' /\
    match r with
    | Ok _ => 0 < available p /\ queue_rep q' p' ids' (l ++ [o])
    | Throw ex => ex = RuntimeError "OrderQueue: OrderPool exhausted" /\ available p = 0 /\
        queue_rep q' p' ids' l
    end.
Proof.
  intros Hwf Hnd Hr. destruct (make_room_spec q p ids l Hr) as [Hr1 Ht]. unfold push_back.
  pose proof (rep_bounds _ _ _ _ Hr1) as Hb. set (q1 := make_room q) in *.
  destruct (allocate p) as [p1 got] eqn:Ha.
  destruct (allocate_spec p p1 got Hwf Ha) as (Hwf1 & Hc1 & Hs1 & Hg). destruct got as [x|].
  - destruct Hg as (Hx & Hnu & Hav & Hused).
    assert (x ∉ ids) as Hxi.
    { intros Hin. apply Hnu. destruct Hr as [_ _ Hu _]. rewrite Forall_forall in Hu. auto. }
    do 4 eexists. split; [reflexivity|]. unfold capacity in *. split; [constructor|split; [lia|constructor]].
    + unfold pool_wf, store, capacity in *. simpl. by rewrite length_insert.
    + unfold capacity. simpl. by rewrite length_insert, Hc1.
    + apply NoDup_app. split_and!; [exact Hnd| |apply NoDup_singleton]. intros k Hk Hkx%list_elem_of_singleton. subst. done.
    + intros k. rewrite elem_of_app, list_elem_of_singleton. intros [Hk| ->]; [by left|by right].
    + intros k Hk Hnk. rewrite elem_of_app in Hnk. tauto.
    + intros k Hk. rewrite elem_of_app, list_elem_of_singleton. intros Hnk. unfold used in *. simpl. split.
      * rewrite Hused. tauto.
      * rewrite list_lookup_insert_ne by (intros ->; tauto). by rewrite Hs1.
    + simpl. rewrite length_insert. lia.
    + rewrite window_push by lia. rewrite (rep_window _ _ _ _ Hr1). by rewrite fmap_app.
    + apply Forall_app. split; [|constructor; [|constructor]].
      * eapply Forall_impl; [apply (rep_used _ _ _ _ Hr)|]. intros k Hk. apply Hused. by right.
      * apply Hused. by left.
    + apply Forall2_app; [|constructor; [|constructor]].
      * eapply Forall2_impl; [|intros k y Hk; exact Hk].
        apply (rep_orders q1 (store p1 x o) ids l). apply (rep_frame q1 p); [done|].
        intros k Hk. simpl. split.
        -- intros Huk. apply Hused. by right.
        -- rewrite list_lookup_insert_ne by (intros ->; done). by rewrite Hs1.
      * simpl. apply list_lookup_insert_eq. lia.
  - destruct Hg as [-> Hav]. do 4 eexists. split; [reflexivity|]. split; [|done].
    constructor; try done; tauto.
Qed.

Lemma pop_front_spec q p ids l :
  pool_wf p -> NoDup ids -> queue_rep q p ids l ->
  exists q' p' ids', pop_front q p = Ok (q', p') /\ pool_step p ids p' ids' /\ queue_rep q' p' ids' (tail l).
Proof.
  intros Hwf Hnd Hr. unfold pop_front. rewrite (rep_empty _ _ _ _ Hr). case_bool_decide as Hl.
  { exists q, p, ids. split; [done|]. split; [constructor; try done; tauto|]. by subst. }
  destruct (rep_length _ _ _ _ Hr) as [Hli Hll]. unfold size in *.
  pose proof (rep_bounds _ _ _ _ Hr) as Hb.
  destruct l as [|o l]; [done|]. simpl in Hll.
  destruct (rep_pointer q p ids (o :: l) 0 Hr) as (x & o' & Hx & Ho' & Hp & Hs); [lia|].
  destruct (deallocate_step q p ids (o :: l) 0 x Hwf Hnd Hr Hx) as (p' & Hd & Hst & Hu & Hos).
  rewrite Hp, Hd. simpl. exists (rewind (Build_OrderQueue (<[queue_head_ q := None]> (pointers_ q)) (S (queue_head_ q)) (queue_tail_ q))), p', (delete 0 ids).
  split; [done|]. split; [done|]. apply rewind_rep. constructor; simpl.
  - rewrite length_insert. lia.
  - pose proof (rep_window _ _ _ _ Hr) as Hw. destruct ids as [|x' ids]; [done|]. simpl in Hx. simplify_eq.
    unfold window in *. simpl. rewrite drop_insert_lt by lia.
    destruct (drop (queue_head_ q) (pointers_ q)) as [|y ys] eqn:Hdr; [by rewrite take_nil in Hw|].
    assert (drop (S (queue_head_ q)) (pointers_ q) = ys) as ->.
    { replace (S (queue_head_ q)) with (queue_head_ q + 1) by lia. by rewrite <- drop_drop, Hdr. }
    replace (queue_tail_ q - queue_head_ q) with (S (queue_tail_ q - S (queue_head_ q))) in Hw by lia.
    simpl in Hw. by simplify_eq.
  - done.
  - done.
Qed.

Lemma erase_at_spec q p ids l i :
  pool_wf p -> NoDup ids -> queue_rep q p ids l -> i < length l ->
  exists q' p' ids', erase_at q p i = Some (Ok (q', p')) /\ pool_step p ids p' ids' /\
    queue_rep q' p' ids' (delete i l).
Proof.
  intros Hwf Hnd Hr Hi. unfold erase_at. destruct (rep_length _ _ _ _ Hr) as [Hli Hll]. unfold size in *.
  pose proof (rep_bounds _ _ _ _ Hr) as Hb.
  assert (queue_head_ q + i < queue_tail_ q) as Hlt by lia. rewrite (proj2 (Nat.ltb_lt _ _)) by done.
  destruct (rep_pointer q p ids l i Hr Hlt) as (x & o & Hx & Ho & Hp & Hs).
  destruct (deallocate_step q p ids l i x Hwf Hnd Hr Hx) as (p' & Hd & Hst & Hu & Hos).
  rewrite Hp, Hd. simpl. do 3 eexists. split; [reflexivity|]. split; [done|]. apply rewind_rep. constructor.
  - cbn [queue_head_ queue_tail_ pointers_]. rewrite length_insert, shift_down_length. lia.
  - rewrite window_erase by lia. rewrite (rep_window _ _ _ _ Hr). by rewrite list_fmap_delete.
  - done.
  - done.
Qed.

Lemma assign_at_spec q p ids l i o :
  pool_wf p -> NoDup ids -> queue_rep q p ids l -> i < length l ->
  exists p', assign_at q p i o = Some p' /\ pool_step p ids p' ids /\ queue_rep q p' ids (<[i := o]> l).
Proof.
  intros Hwf Hnd Hr Hi. unfold assign_at. destruct (rep_length _ _ _ _ Hr) as [Hli Hll]. unfold size in *.
  assert (queue_head_ q + i < queue_tail_ q) as Hlt by (pose proof (rep_bounds _ _ _ _ Hr); lia).
  rewrite (proj2 (Nat.ltb_lt _ _)) by done.
  destruct (rep_pointer q p ids l i Hr Hlt) as (x & o' & Hx & Ho & -> & Hs). simpl.
  eexists. split; [reflexivity|]. split.
  - constructor; try done; try tauto.
    + unfold pool_wf, store, capacity in *. simpl. by rewrite length_insert.
    + unfold capacity. simpl. by rewrite length_insert.
    + intros k Hk _. split; [done|]. simpl. apply list_lookup_insert_ne. intros ->. apply Hk.
      by apply list_elem_of_lookup_2 in Hx.
  - destruct Hr as [Hb Hw Hu Hos]. constructor; [done..|]. apply Forall2_same_length_lookup_2.
    + rewrite length_insert. lia.
    + intros k y z Hy Hz. simpl. destruct (decide (k = i)) as [->|Hk].
      * rewrite Hx in Hy. injection Hy as <-. rewrite list_lookup_insert_eq in Hz by lia. injection Hz as <-.
        apply list_lookup_insert_eq. by apply lookup_lt_Some in Hs.
      * rewrite list_lookup_insert_ne in Hz by done.
        destruct (Forall2_lookup_l _ _ _ _ _ Hos Hy) as (z' & Hz' & Hsy). simplify_eq.
        rewrite list_lookup_insert_ne; [done|]. intros ->. apply Hk. by apply (NoDup_lookup ids k i y).
Qed.

(** ** Many queues, one pool

    The operations of a book on its levels and their queues, as a script; a level is erased, as
    in the book, when its queue is empty. *)

Inductive queue_op : Type :=
| OpPushBack (k : nat) (order : Order)
| OpPopFront (k : nat)
| OpEraseAt (k i : nat)
| OpAssign (k i : nat) (order : Order)
| OpRead (k i : nat)
| OpInsertLevel (k : nat) (order : Order)
| OpEraseLevel (k : nat).

(** Insertion of a queue into a vector of them moves the others to new storage. *)
Definition insert_queue (k : nat) (q : OrderQueue) (qs : list OrderQueue) : list OrderQueue :=
  let moved := (fun other => (move_construct other).1) <$> qs in take k moved ++ q :: drop k moved.

(** [std::vector::erase]: each later queue is assigned to the place before it. *)
Fixpoint move_down (qs : list OrderQueue) : list OrderQueue :=
  match qs with
  | q :: (other :: qs') as qs => (move_assign false q other).1 :: move_down qs
  | _ => []
  end.

Definition erase_queue (k : nat) (qs : list OrderQueue) : list OrderQueue :=
  take k qs ++ move_down (drop k qs).

(** What an operation answers; [Died] is a failed [assert]. *)
Inductive answer : Type :=
| Done
| Got (order : option Order)
| Threw (e : exn)
| Died.

Definition run_op (qs : list OrderQueue) (p : OrderPool) (op : queue_op)
  : list OrderQueue * OrderPool * answer :=
  match op with
  | OpPushBack k o =>
      match qs !! k with
      | None => (qs, p, Died)
      | Some q =>
          match push_back q p o with
          | (q, p, Ok _) => (<[k := q]> qs, p, Done)
          | (q, p, Throw e) => (<[k := q]> qs, p, Threw e)
          end
      end
  | OpPopFront k =>
      match qs !! k with
      | None => (qs, p, Died)
      | Some q =>
          match pop_front q p with
          | Ok (q, p) => (<[k := q]> qs, p, Done)
          | Throw e => (qs, p, Threw e)
          end
      end
  | OpEraseAt k i =>
      match qs !! k ≫= fun q => erase_at q p i with
      | None => (qs, p, Died)
      | Some (Ok (q, p)) => (<[k := q]> qs, p, Done)
      | Some (Throw e) => (qs, p, Threw e)
      end
  | OpAssign k i o =>
      match qs !! k ≫= fun q => assign_at q p i o with
      | None => (qs, p, Died)
      | Some p => (qs, p, Done)
      end
  | OpRead k i =>
      match qs !! k with
      | None => (qs, p, Died)
      | Some q => (qs, p, Got (at_ q p i))
      end
  | OpInsertLevel k o =>
      if k <=? length qs then
        match OrderQueue_new (Some p) with
        | Throw e => (qs, p, Threw e)
        | Ok q =>
            match push_back q p o with
            | (q, p, Ok _) => (insert_queue k (move_construct q).1 qs, p, Done)
            | (_, p, Throw e) => (qs, p, Threw e)
            end
        end
      else (qs, p, Died)
  | OpEraseLevel k =>
      match qs !! k with
      | None => (qs, p, Died)
      | Some q => (if empty q then erase_queue k qs else qs, p, Done)
      end
  end.

Fixpoint run_ops (qs : list OrderQueue) (p : OrderPool) (ops : list queue_op)
  : list OrderQueue * OrderPool * list answer :=
  match ops with
  | [] => (qs, p, [])
  | op :: ops =>
      let '(qs, p, a) := run_op qs p op in
      let '(qs, p, answers) := run_ops qs p ops in (qs, p, a :: answers)
  end.

(** The specification: plain lists that together hold at most [cap] orders. *)
Definition total (ls : list (list Order)) : nat := length (concat ls).

Definition spec_op (cap : nat) (ls : list (list Order)) (op : queue_op) : list (list Order) * answer :=
  match op with
  | OpPushBack k o =>
      match ls !! k with
      | None => (ls, Died)
      | Some l =>
          if total ls <? cap then (<[k := l ++ [o]]> ls, Done)
          else (ls, Threw (RuntimeError "OrderQueue: OrderPool exhausted"))
      end
  | OpPopFront k =>
      match ls !! k with None => (ls, Died) | Some l => (<[k := tail l]> ls, Done) end
  | OpEraseAt k i =>
      match ls !! k ≫= fun l => l !! i ≫= fun _ => Some l with
      | None => (ls, Died)
      | Some l => (<[k := delete i l]> ls, Done)
      end
  | OpAssign k i o =>
      match ls !! k ≫= fun l => l !! i ≫= fun _ => Some l with
      | None => (ls, Died)
      | Some l => (<[k := <[i := o]> l]> ls, Done)
      end
  | OpRead k i =>
      match ls !! k with None => (ls, Died) | Some l => (ls, Got (l !! i)) end
  | OpInsertLevel k o =>
      if k <=? length ls then
        if total ls <? cap then (take k ls ++ [o] :: drop k ls, Done)
        else (ls, Threw (RuntimeError "OrderQueue: OrderPool exhausted"))
      else (ls, Died)
  | OpEraseLevel k =>
      match ls !! k with
      | None => (ls, Died)
      | Some [] => (delete k ls, Done)
      | Some _ => (ls, Done)
      end
  end.

Fixpoint spec_ops (cap : nat) (ls : list (list Order)) (ops : list queue_op)
  : list (list Order) * list answer :=
  match ops with
  | [] => (ls, [])
  | op :: ops =>
      let '(ls, a) := spec_op cap ls op in
      let '(ls, answers) := spec_ops cap ls ops in (ls, a :: answers)
  end.

(** The queues hold disjoint slots, which are all the slots in use. *)
Record shared (qs : list OrderQueue) (p : OrderPool) (idss : list (list nat)) (ls : list (list Order)) : Prop := {
  shared_pool : pool_wf p;
  shared_ids : length idss = length qs;
  shared_lists : length ls = length qs;
  shared_reps : forall k q ids l,
    qs !! k = Some q -> idss !! k = Some ids -> ls !! k = Some l -> queue_rep q p ids l;
  shared_nodup : NoDup (concat idss);
  shared_used : forall i, used p i <-> i ∈ concat idss
}.

Lemma concat_delete {A} (xss : list (list A)) k xs :
  xss !! k = Some xs -> concat xss ≡ₚ xs ++ concat (delete k xss).
Proof.
  revert k. induction xss as [|ys xss IH]; intros [|k] Hk; simplify_eq/=; [done|].
  rewrite (IH k Hk). by rewrite !app_assoc, (Permutation_app_comm ys xs).
Qed.

Lemma concat_insert {A} (xss : list (list A)) k xs ys :
  xss !! k = Some xs -> concat (<[k := ys]> xss) ≡ₚ ys ++ concat (delete k xss).
Proof.
  revert k. induction xss as [|zs xss IH]; intros [|k] Hk; simplify_eq/=; [done|].
  rewrite (IH k Hk). by rewrite !app_assoc, (Permutation_app_comm zs ys).
Qed.

(** The count of free slots is the capacity less the orders held. *)
Lemma shared_available qs p idss ls : shared qs p idss ls -> available p + total ls = capacity p.
Proof.
  intros [(Hf & Ha & Hh & Hnd & Hfree) Hli Hll Hr Hn Hu].
  assert (total ls = length (concat idss)) as ->.
  { unfold total. rewrite !length_concat. f_equal. apply list_eq. intros k. rewrite !list_lookup_fmap.
    destruct (qs !! k) as [q|] eqn:Hq.
    - destruct (lookup_lt_is_Some_2 idss k) as [ids Hi]; [apply lookup_lt_Some in Hq; lia|].
      destruct (lookup_lt_is_Some_2 ls k) as [l Hl]; [apply lookup_lt_Some in Hq; lia|].
      rewrite Hi, Hl. simpl. f_equal. destruct (rep_length _ _ _ _ (Hr _ _ _ _ Hq Hi Hl)). lia.
    - apply lookup_ge_None_1 in Hq. rewrite !lookup_ge_None_2 by lia. done. }
  assert (drop (pool_head_ p) (free_list_ p) ++ concat idss ≡ₚ seq 0 (capacity p)) as Hp.
  { apply NoDup_Permutation; [|apply NoDup_seq|].
    - apply NoDup_app. split_and!; [done| |done]. intros i Hi%Hfree Hi2%Hu. unfold used in Hi2. congruence.
    - intros i. rewrite elem_of_app, Hfree, <- Hu, elem_of_seq. unfold used. split.
      + intros [Hi|Hi]; apply lookup_lt_Some in Hi; lia.
      + intros Hi. destruct (lookup_lt_is_Some_2 (allocated_ p) i) as [[] ->]; [lia|auto..]. }
  apply Permutation_length in Hp. rewrite length_app, length_drop, length_seq in Hp. unfold available. lia.
Qed.

(** One queue takes a [pool_step]; the others do not notice. *)
Lemma shared_step qs p idss ls k q ids l q' p' ids' l' :
  shared qs p idss ls -> qs !! k = Some q -> idss !! k = Some ids -> ls !! k = Some l ->
  pool_step p ids p' ids' -> queue_rep q' p' ids' l' ->
  shared (<[k := q']> qs) p' (<[k := ids']> idss) (<[k := l']> ls).
Proof.
  intros [Hwf Hli Hll Hr Hn Hu] Hq Hi Hl [Hwf' Hc Hnd Hnew Hdrop Hframe] Hr'.
  pose proof (concat_delete idss k ids Hi) as Hp. pose proof (concat_insert idss k ids ids' Hi) as Hp'.
  pose proof (lookup_lt_Some _ _ _ Hq) as Hk. rewrite Hp in Hn. apply NoDup_app in Hn as (Hn1 & Hdis & Hn2).
  assert (forall i, i ∈ concat (delete k idss) -> i ∉ ids /\ i ∉ ids' /\ used p i) as Hother.
  { intros i Hin. assert (used p i) as Hui by (apply Hu; rewrite Hp; apply elem_of_app; by right).
    assert (i ∉ ids) as Hni by (intros Hx; exact (Hdis i Hx Hin)). split_and!; [done| |done].
    intros Hx. destruct (Hnew i Hx); done. }
  constructor; rewrite ?length_insert; try done.
  - intros k1 q1 ids1 l1 Hq1 Hi1 Hl1. destruct (decide (k1 = k)) as [->|Hne].
    + rewrite list_lookup_insert_eq in Hq1 by lia. rewrite list_lookup_insert_eq in Hi1 by lia.
      rewrite list_lookup_insert_eq in Hl1 by lia. by simplify_eq.
    + rewrite list_lookup_insert_ne in Hq1 by done. rewrite list_lookup_insert_ne in Hi1 by done.
      rewrite list_lookup_insert_ne in Hl1 by done. apply (rep_frame q1 p); [by eapply Hr|].
      intros i Hin. destruct (Hother i) as (H1 & H2 & _).
      * apply list_elem_of_In, in_concat. exists ids1. split; apply list_elem_of_In; [|done].
        apply list_elem_of_lookup. destruct (decide (k1 < k)).
        -- exists k1. by rewrite list_lookup_delete_lt.
        -- exists (pred k1). rewrite list_lookup_delete_ge by lia. by replace (S (pred k1)) with k1 by lia.
      * destruct (Hframe i H1 H2) as [Hb Hs]. split; [apply Hb|done].
  - rewrite Hp'. apply NoDup_app. split_and!; [done| |done]. intros i Hx Hin. apply (Hother i Hin). done.
  - intros i. rewrite Hp', elem_of_app. split.
    + intros Hui. destruct (decide (i ∈ ids')) as [|Hx]; [by left|]. right.
      destruct (decide (i ∈ ids)) as [Hy|Hy]; [by destruct (Hdrop i Hy Hx)|].
      apply (Hframe i Hy Hx), Hu in Hui. rewrite Hp, elem_of_app in Hui. tauto.
    + intros [Hx|Hx].
      * pose proof (rep_used _ _ _ _ Hr') as Hall. rewrite Forall_forall in Hall. auto.
      * destruct (Hother i Hx) as (H1 & H2 & H3). by apply (Hframe i H1 H2).
Qed.

Lemma shared_level qs p idss ls k q :
  shared qs p idss ls -> qs !! k = Some q ->
  exists ids l, idss !! k = Some ids /\ ls !! k = Some l /\ queue_rep q p ids l /\ NoDup ids.
Proof.
  intros [Hwf Hli Hll Hr Hn Hu] Hq. pose proof (lookup_lt_Some _ _ _ Hq).
  destruct (lookup_lt_is_Some_2 idss k) as [ids Hi]; [lia|].
  destruct (lookup_lt_is_Some_2 ls k) as [l Hl]; [lia|].
  exists ids, l. split_and!; try done; [by eapply Hr|].
  rewrite (concat_delete idss k ids Hi) in Hn. by apply NoDup_app in Hn as [? _].
Qed.

Lemma shared_none qs p idss ls k : shared qs p idss ls -> qs !! k = None -> ls !! k = None.
Proof. intros Hs Hk%lookup_ge_None_1. apply lookup_ge_None_2. rewrite (shared_lists _ _ _ _ Hs). done. Qed.

Lemma shared_refines_eq qs p idss ls k q ids l q' p' ids' l' :
  shared qs p idss ls -> qs !! k = Some q -> idss !! k = Some ids -> ls !! k = Some l ->
  pool_step p ids p' ids' -> queue_rep q' p' ids' l' ->
  exists idss', shared (<[k := q']> qs) p' idss' (<[k := l']> ls) /\ capacity p' = capacity p.
Proof.
  intros. exists (<[k := ids']> idss). split; [by eapply shared_step|by eapply step_capacity].
Qed.

Lemma insert_queue_moves k q qs : insert_queue k q qs = take k qs ++ q :: drop k qs.
Proof.
  unfold insert_queue. cbv zeta.
  assert (forall rs : list OrderQueue, (fun other => (move_construct other).1) <$> rs = rs) as Hm; [|by rewrite Hm].
  induction rs as [|[] rs IH]; [done|]. by rewrite fmap_cons, IH.
Qed.

Lemma erase_queue_delete k q qs : qs !! k = Some q -> erase_queue k qs = delete k qs.
Proof.
  assert (forall q qs, move_down (q :: qs) = qs) as Hd.
  { intros q0 qs0. revert q0. induction qs0 as [|[] qs0 IH]; intros q0; [done|]. simpl in *. by rewrite IH. }
  intros Hk. unfold erase_queue. rewrite (drop_S _ _ _ Hk), Hd, delete_take_drop. done.
Qed.

Lemma lookup_insert_at {A} (xs : list A) k x i :
  k <= length xs ->
  (take k xs ++ x :: drop k xs) !! i = if decide (i = k) then Some x else xs !! (if decide (i < k) then i else pred i).
Proof.
  intros Hk. assert (length (take k xs) = k) as Hl by (rewrite length_take; lia).
  destruct (decide (i = k)) as [->|Hne]; [by rewrite lookup_app_r, Hl, Nat.sub_diag by lia|].
  case_decide.
  - by rewrite lookup_app_l, lookup_take_lt by lia.
  - rewrite lookup_app_r, Hl by lia. replace (i - k) with (S (pred i - k)) by lia. simpl.
    rewrite lookup_drop. f_equal. lia.
Qed.

Lemma insert_insert_at {A} (xs : list A) k x y :
  k <= length xs -> <[k := y]> (take k xs ++ x :: drop k xs) = take k xs ++ y :: drop k xs.
Proof.
  intros Hk. rewrite insert_app_r_alt by (rewrite length_take; lia).
  rewrite length_take. by replace (k - Nat.min k (length xs)) with 0 by lia.
Qed.

Lemma delete_insert_at {A} (xs : list A) k x : k <= length xs -> delete k (take k xs ++ x :: drop k xs) = xs.
Proof.
  intros Hk. rewrite delete_take_drop, take_app_length', drop_app_ge by (rewrite length_take; lia).
  rewrite length_take. replace (S k - Nat.min k (length xs)) with 1 by lia. simpl. by rewrite drop_0, take_drop.
Qed.

Lemma shared_insert_level qs p idss ls k :
  shared qs p idss ls -> k <= length qs ->
  shared (take k qs ++ Build_OrderQueue [] 0 0 :: drop k qs) p (take k idss ++ [] :: drop k idss)
    (take k ls ++ [] :: drop k ls).
Proof.
  intros [Hwf Hli Hll Hr Hn Hu] Hk.
  assert (concat (take k idss ++ [] :: drop k idss) = concat idss) as Hc
    by (rewrite concat_app; simpl; by rewrite <- concat_app, take_drop).
  constructor; rewrite ?Hc; try done.
  1,2: rewrite !length_app; simpl; rewrite !length_take, !length_drop; lia.
  intros k1 q ids l. rewrite !lookup_insert_at by lia. case_decide; [|apply Hr].
  intros [= <-] [= <-] [= <-]. constructor; simpl; [lia|done|constructor|constructor].
Qed.

Lemma shared_delete_level qs p idss ls k ids :
  shared qs p idss ls -> idss !! k = Some ids -> ids = [] ->
  shared (delete k qs) p (delete k idss) (delete k ls).
Proof.
  intros [Hwf Hli Hll Hr Hn Hu] Hk ->. pose proof (concat_delete idss k [] Hk) as Hc.
  pose proof (lookup_lt_Some _ _ _ Hk). constructor; try done.
  - rewrite !length_delete by (apply lookup_lt_is_Some; lia). lia.
  - rewrite !length_delete by (apply lookup_lt_is_Some; lia). lia.
  - intros k1 q ids l. destruct (decide (k1 < k)).
    + rewrite !list_lookup_delete_lt by done. apply Hr.
    + rewrite !list_lookup_delete_ge by lia. apply Hr.
  - by rewrite Hc in Hn.
  - intros i. by rewrite Hu, Hc.
Qed.

Lemma insert_level_refines qs p idss ls k o :
  shared qs p idss ls ->
  exists idss', let '(qs', p', a) := run_op qs p (OpInsertLevel k o) in
    let '(ls', a') := spec_op (capacity p) ls (OpInsertLevel k o) in
    a = a' /\ shared qs' p' idss' ls' /\ capacity p' = capacity p.
Proof.
  intros Hs. pose proof (shared_available _ _ _ _ Hs) as Hav. simpl.
  rewrite (shared_lists _ _ _ _ Hs). destruct (Nat.leb_spec k (length qs)) as [Hk|]; [|by exists idss].
  pose proof (shared_insert_level _ _ _ _ _ Hs Hk) as Hi.
  assert (k <= length idss /\ k <= length ls) as [Hk1 Hk2] by (destruct Hs; lia).
  destruct (shared_level _ _ _ _ k (Build_OrderQueue [] 0 0) Hi) as (ids & l & Hids & Hl & Hr & Hnd);
    [by rewrite lookup_insert_at, decide_True by lia|].
  rewrite lookup_insert_at, decide_True in Hids by lia. rewrite lookup_insert_at, decide_True in Hl by lia.
  simplify_eq. destruct (push_back_spec _ p [] [] o (shared_pool _ _ _ _ Hs) Hnd Hr) as (q & p' & ids' & r & -> & Hst & Hres).
  pose proof (step_capacity _ _ _ _ Hst) as Hc.
  assert (forall l', queue_rep q p' ids' l' ->
    shared (take k qs ++ q :: drop k qs) p' (take k idss ++ ids' :: drop k idss) (take k ls ++ l' :: drop k ls)) as Hsh.
  { intros l' Hl'. eapply (shared_step _ _ _ _ k _ [] [] q p' ids' l') in Hi; [|by rewrite lookup_insert_at, decide_True by lia..|done|done].
    by rewrite !insert_insert_at in Hi by lia. }
  destruct r as [[]|e].
  - destruct Hres as [Hav1 Hr']. rewrite (proj2 (Nat.ltb_lt _ _)) by lia.
    rewrite insert_queue_moves. eexists. split_and!; [done|destruct q; by apply Hsh|done].
  - destruct Hres as (-> & Hav1 & Hr'). rewrite (proj2 (Nat.ltb_ge _ _)) by lia.
    exists idss. split_and!; [done| |done]. destruct (rep_length _ _ _ _ Hr') as [Hl1 Hl2].
    pose proof (shared_delete_level _ _ _ _ k ids' (Hsh _ Hr')) as Hd.
    rewrite !delete_insert_at in Hd by lia. apply Hd; [by rewrite lookup_insert_at, decide_True by lia|].
    apply nil_length_inv. simpl in Hl2. lia.
Qed.

Lemma erase_level_refines qs p idss ls k :
  shared qs p idss ls ->
  exists idss', let '(qs', p', a) := run_op qs p (OpEraseLevel k) in
    let '(ls', a') := spec_op (capacity p) ls (OpEraseLevel k) in
    a = a' /\ shared qs' p' idss' ls' /\ capacity p' = capacity p.
Proof.
  intros Hs. simpl. destruct (qs !! k) as [q|] eqn:Hq; [|rewrite (shared_none _ _ _ _ _ Hs Hq); by exists idss].
  destruct (shared_level _ _ _ _ _ _ Hs Hq) as (ids & l & Hi & Hl & Hr & _). rewrite Hl.
  destruct (rep_length _ _ _ _ Hr) as [Hlen1 Hlen2]. unfold empty, size in *.
  destruct (rep_bounds _ _ _ _ Hr) as [Hb _].
  destruct l as [|o l]; simpl in *.
  - rewrite (proj2 (Nat.eqb_eq _ _)) by lia. rewrite (erase_queue_delete k q qs Hq).
    eexists. split_and!; [done| |done]. eapply shared_delete_level; [done|done|].
    destruct ids; [done|simpl in *; lia].
  - rewrite (proj2 (Nat.eqb_neq _ _)) by lia. by exists idss.
Qed.

(** One operation. *)
Lemma run_op_refines qs p idss ls op :
  shared qs p idss ls ->
  exists idss', let '(qs', p', a) := run_op qs p op in
    let '(ls', a') := spec_op (capacity p) ls op in
    a = a' /\ shared qs' p' idss' ls' /\ capacity p' = capacity p.
Proof.
  intros Hs. pose proof (shared_available _ _ _ _ Hs) as Hav.
  destruct op as [k o|k|k i|k i o|k i|k o|k]; simpl;
    [| | | | |exact (insert_level_refines qs p idss ls k o Hs)|exact (erase_level_refines qs p idss ls k Hs)];
    (destruct (qs !! k) as [q|] eqn:Hq; [|rewrite (shared_none _ _ _ _ _ Hs Hq); by exists idss]);
    destruct (shared_level _ _ _ _ _ _ Hs Hq) as (ids & l & Hi & Hl & Hr & Hnd); rewrite Hl; simpl;
    pose proof (shared_pool _ _ _ _ Hs) as Hwf.
  - destruct (push_back_spec q p ids l o Hwf Hnd Hr) as (q' & p' & ids' & r & -> & Hst & Hres).
    destruct r as [[]|e].
    + destruct Hres as [Hav1 Hr']. rewrite (proj2 (Nat.ltb_lt _ _)) by lia.
      edestruct shared_refines_eq as (idss' & Hs' & Hc); eauto.
    + destruct Hres as (-> & Hav1 & Hr'). rewrite (proj2 (Nat.ltb_ge _ _)) by lia.
      edestruct (shared_refines_eq qs p idss ls k q ids l q' p' ids' l) as (idss' & Hs' & Hc); eauto.
      rewrite (list_insert_id ls k l Hl) in Hs'. eauto.
  - destruct (pop_front_spec q p ids l Hwf Hnd Hr) as (q' & p' & ids' & -> & Hst & Hr').
    edestruct shared_refines_eq as (idss' & Hs' & Hc); eauto.
  - destruct (l !! i) as [o|] eqn:Hli; simpl.
    + destruct (erase_at_spec q p ids l i Hwf Hnd Hr) as (q' & p' & ids' & -> & Hst & Hr');
        [by eapply lookup_lt_Some|].
      edestruct shared_refines_eq as (idss' & Hs' & Hc); eauto.
    + unfold erase_at. rewrite <- (at_spec q p ids l i Hr) in Hli. unfold at_ in Hli.
      destruct (Nat.ltb_spec (queue_head_ q + i) (queue_tail_ q)) as [Hlt|]; [|by exists idss].
      destruct (rep_pointer q p ids l i Hr Hlt) as (x & o & _ & _ & Hp & Ho). rewrite Hp in Hli.
      simpl in Hli. congruence.
  - destruct (l !! i) as [o'|] eqn:Hli; simpl.
    + destruct (assign_at_spec q p ids l i o Hwf Hnd Hr) as (p' & -> & Hst & Hr');
        [by eapply lookup_lt_Some|].
      edestruct (shared_refines_eq qs p idss ls k q ids l q p' ids) as (idss' & Hs' & Hc); eauto.
      rewrite (list_insert_id qs k q Hq) in Hs'. eauto.
    + unfold assign_at. rewrite <- (at_spec q p ids l i Hr) in Hli. unfold at_ in Hli.
      destruct (Nat.ltb_spec (queue_head_ q + i) (queue_tail_ q)) as [Hlt|]; [|by exists idss].
      destruct (rep_pointer q p ids l i Hr Hlt) as (x & o'' & _ & _ & Hp & Ho). rewrite Hp in Hli.
      simpl in Hli. congruence.
  - exists idss. by rewrite (at_spec q p ids l i Hr).
Qed.

Lemma run_ops_refines qs p idss ls ops :
  shared qs p idss ls ->
  exists idss', let '(qs', p', answers) := run_ops qs p ops in
    let '(ls', answers') := spec_ops (capacity p) ls ops in
    answers = answers' /\ shared qs' p' idss' ls' /\ capacity p' = capacity p.
Proof.
  revert qs p idss ls. induction ops as [|op ops IH]; intros qs p idss ls Hs; [by exists idss|]. simpl.
  destruct (run_op_refines qs p idss ls op Hs) as (idss1 & H1).
  destruct (run_op qs p op) as [[qs1 p1] a1], (spec_op (capacity p) ls op) as [ls1 a1'].
  destruct H1 as (-> & Hs1 & Hc1). destruct (IH qs1 p1 idss1 ls1 Hs1) as (idss2 & H2).
  rewrite Hc1 in H2. exists idss2.
  destruct (run_ops qs1 p1 ops) as [[qs2 p2] a2], (spec_ops (capacity p) ls1 ops) as [ls2 a2'].
  destruct H2 as (-> & Hs2 & Hc2). split_and!; [done..|congruence].
Qed.

Lemma shared_fresh n cap now :
  shared (replicate n (Build_OrderQueue [] 0 0)) (OrderPool_new cap now) (replicate n []) (replicate n []).
Proof.
  destruct (OrderPool_new_wf cap now) as (Hwf & _ & Hu).
  assert (forall m, concat (replicate m (@nil nat)) = []) as Hc by (induction m; simpl; auto).
  constructor; rewrite ?length_replicate, ?Hc; try done.
  - intros k q ids l [-> _]%lookup_replicate [-> _]%lookup_replicate [-> _]%lookup_replicate.
    constructor; simpl; [lia|done|constructor|constructor].
  - constructor.
  - intros i. split; [intros Hx; by destruct (Hu i)|by intros ?%elem_of_nil].
Qed.

(** The slot storage is invisible. Any number of [OrderQueue]s over one [OrderPool] of
    capacity [cap] (their pointers reclaimed, doubled and shifted, the slots recycled) answer
    every script of [push_back], [pop_front], [erase_at], reads, assignments, and insertions and
    erasures of whole levels (which move the other queues about), exactly as plain
    lists do that together hold at most [cap] orders: a push fails exactly when they are full,
    no [deallocate] throws, no queue sees another's orders, and no slot leaks. *)
Theorem queues_refine_lists (n cap : nat) (now : Z) (ops : list queue_op) :
  let '(qs, p, answers) :=
    run_ops (replicate n (Build_OrderQueue [] 0 0)) (OrderPool_new cap now) ops in
  let '(ls, answers') := spec_ops cap (replicate n []) ops in
  answers = answers' /\ available p + total ls = cap /\
  forall k q i, qs !! k = Some q -> at_ q p i = ls !! k ≫= fun l => l !! i.
Proof.
  destruct (run_ops_refines _ _ _ _ ops (shared_fresh n cap now)) as (idss & H).
  replace (capacity (OrderPool_new cap now)) with cap in H by (symmetry; apply length_replicate).
  destruct (run_ops _ _ ops) as [[qs p] answers], (spec_ops cap _ ops) as [ls answers'].
  destruct H as (-> & Hs & Hc). split_and!; [done| |].
  - rewrite (shared_available _ _ _ _ Hs). exact Hc.
  - intros k q i Hq. destruct (shared_level _ _ _ _ _ _ Hs Hq) as (ids & l & _ & -> & Hr & _).
    by apply (at_spec q p ids).
Qed.

(** A script that recycles a slot, reclaims dead space and meets a full pool. *)
Example queues_script :
  (run_ops (replicate 2 (Build_OrderQueue [] 0 0)) (OrderPool_new 2 0)
     [OpPushBack 0 (Order_default 1); OpPushBack 1 (Order_default 2); OpPushBack 0 (Order_default 3);
      OpPopFront 0; OpPushBack 1 (Order_default 4); OpEraseAt 1 0; OpRead 1 0; OpEraseAt 1 1]).2
  = [Done; Done; Threw (RuntimeError "OrderQueue: OrderPool exhausted"); Done; Done; Done;
     Got (Some (Order_default 4)); Died].
Proof. vm_compute. reflexivity. Qed.
