(* ===== verification/SlotBook.v ===== *)
(** * SlotBook: the book as it is stored

    The operations of src/OrderBook.cpp once more, statement by statement, over what they really
    touch: vectors of levels whose queues are the [OrderQueue]s of OrderQueue.v, all drawing slots
    from the one [OrderPool] of the book. OrderBook.v sees a level as a list and the pool as a
    number; SlotRefine.v shows that nobody can tell the difference.

    A method is a computation of the monad [M]: it passes the book along, and ends in a value, in
    an exception (what was changed before stays changed) or, where an index is out of range or an
    [assert] fails, nowhere. *)

From Stdlib Require Import ZArith Lia Bool.
From stdpp Require Import base tactics decidable numbers option list.
From S2P Require Import Prelude.
From S2P Require Import Double.
From S2P Require Import Order.
From S2P Require Import OrderBook.
From S2P Require Import OrderPool.
From S2P Require Import OrderQueue.

Local Open Scope Z_scope.

(** ** State *)

(** [PriceLevel]. *)
Record SlotLevel : Type := Build_SlotLevel {
  level_price : double;
  level_orders : OrderQueue
}.

Record SlotBook : Type := Build_SlotBook {
  slot_bids : list SlotLevel;
  slot_asks : list SlotLevel;
  slot_next_trade_id : Z;
  slot_stp_policy : STPPolicy;
  order_pool_ : OrderPool
}.

(** [OrderBook(pool_capacity)]; [now] is the clock reading of the pool's default orders. *)
Definition SlotBook_new (pool_capacity : nat) (now : Z) : SlotBook :=
  Build_SlotBook [] [] 1 NONE (OrderPool_new pool_capacity now).

Definition slot_side (s : OrderSide) (sb : SlotBook) : list SlotLevel :=
  match s with BUY => slot_bids sb | SELL => slot_asks sb end.

(** The book with the levels of one side and the pool replaced. *)
Definition with_side (s : OrderSide) (ls : list SlotLevel) (p : OrderPool) (sb : SlotBook) : SlotBook :=
  match s with
  | BUY => Build_SlotBook ls (slot_asks sb) (slot_next_trade_id sb) (slot_stp_policy sb) p
  | SELL => Build_SlotBook (slot_bids sb) ls (slot_next_trade_id sb) (slot_stp_policy sb) p
  end.

(** ** The monad *)

Definition M (A : Type) : Type := SlotBook -> option (SlotBook * result A).

#[export] Instance M_ret : MRet M := fun A a sb => Some (sb, Ok a).
#[export] Instance M_bind : MBind M := fun A B f m sb =>
  match m sb with
  | Some (sb, Ok a) => f a sb
  | Some (sb, Throw e) => Some (sb, Throw e)
  | None => None
  end.

(** Undefined behaviour. *)
Definition undefined {A : Type} : M A := fun _ => None.

Definition read {A : Type} (f : SlotBook -> A) : M A := fun sb => Some (sb, Ok (f sb)).

Definition of_option {A : Type} (x : option A) : M A :=
  fun sb => (fun a => (sb, Ok a)) <$> x.

(** [try { m } catch (...) { h }]. *)
Definition catch {A : Type} (m h : M A) : M A := fun sb =>
  match m sb with
  | Some (sb, Throw _) => h sb
  | r => r
  end.

(** ** Levels and their queues *)

Definition level_count (s : OrderSide) : M nat := read (fun sb => length (slot_side s sb)).

(** [levels[i]]. *)
Definition level_at (s : OrderSide) (i : nat) : M SlotLevel :=
  ls ← read (slot_side s); of_option (ls !! i).

Definition level_price_at (s : OrderSide) (i : nat) : M double := l ← level_at s i; mret (level_price l).

Definition queue_size (s : OrderSide) (i : nat) : M nat := l ← level_at s i; mret (size (level_orders l)).

Definition queue_empty (s : OrderSide) (i : nat) : M bool := l ← level_at s i; mret (empty (level_orders l)).

Definition queue_at (s : OrderSide) (i j : nat) : M Order :=
  l ← level_at s i; p ← read order_pool_; of_option (at_ (level_orders l) p j).

Definition queue_front (s : OrderSide) (i : nat) : M Order :=
  l ← level_at s i; p ← read order_pool_; of_option (front (level_orders l) p).

(** The queue of level [i] and the pool after an operation on them. *)
Definition put_queue (s : OrderSide) (i : nat) (q : OrderQueue) (p : OrderPool) : M () := fun sb =>
  match slot_side s sb !! i with
  | Some l => Some (with_side s (<[i := Build_SlotLevel (level_price l) q]> (slot_side s sb)) p sb, Ok ())
  | None => None
  end.

(** Assignment through a reference to the order at [j]. *)
Definition queue_assign (s : OrderSide) (i j : nat) (o : Order) : M () :=
  l ← level_at s i; p ← read order_pool_;
  p ← of_option (assign_at (level_orders l) p j o); put_queue s i (level_orders l) p.

Definition of_result {A : Type} (r : result A) : M A := fun sb => Some (sb, r).

Definition queue_push_back (s : OrderSide) (i : nat) (o : Order) : M () :=
  l ← level_at s i; p ← read order_pool_;
  let '(q, p, r) := push_back (level_orders l) p o in put_queue s i q p;; of_result r.

Definition queue_pop_front (s : OrderSide) (i : nat) : M () :=
  l ← level_at s i; p ← read order_pool_;
  '(q, p) ← of_result (pop_front (level_orders l) p); put_queue s i q p.

Definition queue_erase_at (s : OrderSide) (i j : nat) : M () :=
  l ← level_at s i; p ← read order_pool_;
  r ← of_option (erase_at (level_orders l) p j);
  '(q, p) ← of_result r; put_queue s i q p.

(** The implicit moves of a [PriceLevel]: the price is copied, the queue moved. *)
Definition move_level (l : SlotLevel) : SlotLevel :=
  Build_SlotLevel (level_price l) (move_construct (level_orders l)).1.

Definition assign_level (l other : SlotLevel) : SlotLevel :=
  Build_SlotLevel (level_price other) (move_assign false (level_orders l) (level_orders other)).1.

Fixpoint move_levels_down (ls : list SlotLevel) : list SlotLevel :=
  match ls with
  | l :: (other :: _) as ls => assign_level l other :: move_levels_down ls
  | _ => []
  end.

(** [std::vector::erase]. *)
Definition erase_level (s : OrderSide) (i : nat) : M () := fun sb =>
  let ls := slot_side s sb in
  match ls !! i with
  | Some _ => Some (with_side s (take i ls ++ move_levels_down (drop i ls)) (order_pool_ sb) sb, Ok ())
  | None => None
  end.

(** A new level with one order, built outside the book, then [std::vector::insert]. *)
Definition insert_level (s : OrderSide) (i : nat) (o : Order) : M () := fun sb =>
  match OrderQueue_new (Some (order_pool_ sb)) with
  | Throw e => Some (sb, Throw e)
  | Ok q =>
      match push_back q (order_pool_ sb) o with
      | (_, p, Throw e) => Some (with_side s (slot_side s sb) p sb, Throw e)
      | (q, p, Ok _) =>
          let moved := move_level <$> slot_side s sb in
          let level := move_level (Build_SlotLevel (price o) q) in
          if decide (i <= length moved)%nat
          then Some (with_side s (take i moved ++ level :: drop i moved) p sb, Ok ())
          else None
      end
  end.

(** [if (level.orders.empty()) levels.erase(...)]. *)
Definition drop_if_empty (s : OrderSide) (i : nat) : M () :=
  e ← queue_empty s i; if (e : bool) then erase_level s i else mret ().

(** ** addOrder *)

(** The loop of [findBidLevel] and [findAskLevel]. *)
Fixpoint slot_search (fuel : nat) (right : double -> bool) (s : OrderSide) (low high : nat) : M nat :=
  match fuel with
  | O => undefined
  | S fuel =>
      if decide (low < high)%nat then
        let mid := (low + (high - low) / 2)%nat in
        lp ← level_price_at s mid;
        if right lp then slot_search fuel right s (S mid) high else slot_search fuel right s low mid
      else mret low
  end.

Definition slot_findLevel (s : OrderSide) (p : double) : M nat :=
  n ← level_count s;
  slot_search (S n) (match s with BUY => fun lp => dlt p lp | SELL => fun lp => dlt lp p end) s 0 n.

Definition slot_addOrder (o : Order) : M bool :=
  if (quantity o =? 0) || (remaining_quantity o =? 0) then mret false
  else
    let s := side o in
    catch
      (idx ← slot_findLevel s (price o);
       n ← level_count s;
       same ← (if decide (idx < n)%nat then lp ← level_price_at s idx; mret (deq lp (price o)) else mret false);
       (if (same : bool) then queue_push_back s idx o else insert_level s idx o);;
       mret true)
      (mret false).

(** ** Walks over the orders of a side *)

(** [for (j = 0; j < level.orders.size(); ++j)] over a level that the body leaves alone; the body
    looks at the order and returns out of both loops ([inl]) or goes on with a new value. *)
Fixpoint for_orders {A R : Type} (s : OrderSide) (i n j : nat) (body : A -> nat -> Order -> R + A) (a : A)
    : M (R + A) :=
  match n with
  | O => mret (inr a)
  | S n =>
      o ← queue_at s i j;
      match body a j o with
      | inl r => mret (inl r)
      | inr a => for_orders s i n (S j) body a
      end
  end.

(** The loop around it, left at the first price that is [beyond]. *)
Fixpoint for_levels {A R : Type} (s : OrderSide) (n i : nat) (beyond : double -> bool)
    (body : nat -> A -> nat -> Order -> R + A) (a : A) : M (R + A) :=
  match n with
  | O => mret (inr a)
  | S n =>
      lp ← level_price_at s i;
      if beyond lp then mret (inr a)
      else
        m ← queue_size s i;
        r ← for_orders s i m 0 (body i) a;
        match r with
        | inl r => mret (inl r)
        | inr a => for_levels s n (S i) beyond body a
        end
  end.

Definition walk {A R : Type} (s : OrderSide) (beyond : double -> bool)
    (body : nat -> A -> nat -> Order -> R + A) (a : A) : M (R + A) :=
  n ← level_count s; for_levels s n 0 beyond body a.

Definition id_body (id : Z) (i : nat) (_ : ()) (j : nat) (o : Order) : (nat * nat) + () :=
  if order_id o =? id then inl (i, j) else inr ().

(** The walk over the bids, then the one over the asks, for an id. *)
Definition slot_locate (id : Z) : M (option (OrderSide * nat * nat)) :=
  r ← walk BUY (fun _ => false) (id_body id) ();
  match r with
  | inl (i, j) => mret (Some (BUY, i, j))
  | inr _ =>
      r ← walk SELL (fun _ => false) (id_body id) ();
      match r with
      | inl (i, j) => mret (Some (SELL, i, j))
      | inr _ => mret None
      end
  end.

Definition slot_cancelOrder (id : Z) : M bool :=
  found ← slot_locate id;
  match found with
  | Some (s, i, j) => queue_erase_at s i j;; drop_if_empty s i;; mret true
  | None => mret false
  end.

Definition slot_getOrderById (id : Z) : M (option Order) :=
  found ← slot_locate id;
  match found with
  | Some (s, i, j) => o ← queue_at s i j; mret (Some o)
  | None => mret None
  end.

(** The order at hand is a reference into its slot: a fill that is refused leaves it alone, one that
    is taken is stored before the erasure. *)
Definition slot_applyFill (id fill_qty : Z) : M bool :=
  if fill_qty =? 0 then mret false
  else
    found ← slot_locate id;
    match found with
    | Some (s, i, j) =>
        o ← queue_at s i j;
        if remaining_quantity o <? fill_qty then mret false
        else
          let r := remaining_quantity o - fill_qty in
          queue_assign s i j (set_remaining o r);;
          (if r =? 0 then queue_erase_at s i j;; drop_if_empty s i else mret ());;
          mret true
    | None => mret false
    end.

(** ** Queries *)

Definition slot_best (s : OrderSide) : M double :=
  n ← level_count s; if decide (n = 0%nat) then mret d_zero else level_price_at s 0.

Definition slot_getBestBid : M double := slot_best BUY.

Definition slot_getBestAsk : M double := slot_best SELL.

Definition slot_getOrderCount : M nat :=
  read (fun sb => sum_list_with (fun l => size (level_orders l)) (slot_bids sb) +
                  sum_list_with (fun l => size (level_orders l)) (slot_asks sb))%nat.

Definition slot_setSTPPolicy (policy : STPPolicy) : M () := fun sb =>
  Some (Build_SlotBook (slot_bids sb) (slot_asks sb) (slot_next_trade_id sb) policy (order_pool_ sb), Ok ()).

(** ** Pre-match scans *)

Definition fill_body (needed : Z) (_ : nat) (available : Z) (_ : nat) (o : Order) : () + Z :=
  let available := u64 (available + remaining_quantity o) in
  if needed <=? available then inl () else inr available.

Definition slot_canFullyFill (inc : Order) : M bool :=
  r ← walk (opposite (side inc)) (beyond inc) (fill_body (remaining_quantity inc)) 0;
  mret (match r with inl _ => true | inr _ => false end).

Definition self_body (trader : Z) (_ : nat) (remaining : Z) (_ : nat) (o : Order) : bool + Z :=
  if remaining_quantity o =? 0 then inr remaining
  else if trader_id o =? trader then inl true
  else
    let remaining := remaining - Z.min remaining (remaining_quantity o) in
    if remaining =? 0 then inl false else inr remaining.

Definition slot_wouldSelfTrade (inc : Order) : M bool :=
  r ← walk (opposite (side inc)) (beyond inc) (self_body (trader_id inc)) (remaining_quantity inc);
  mret (match r with inl answer => answer | inr _ => false end).

(** ** Self-trade removal *)

(** The inner loop over the queue of level [i]; the answer is the flag [removed]. Every turn
    erases or moves on, so a fuel of the queue's size is enough. *)
Fixpoint slot_stp_orders (fuel : nat) (oldest : bool) (trader : Z) (s : OrderSide) (i j : nat)
    (removed : bool) : M bool :=
  n ← queue_size s i;
  if decide (j < n)%nat then
    match fuel with
    | O => undefined
    | S fuel =>
        o ← queue_at s i j;
        if (trader_id o =? trader) && (0 <? remaining_quantity o) then
          queue_erase_at s i j;;
          if oldest then mret true else slot_stp_orders fuel oldest trader s i j true
        else slot_stp_orders fuel oldest trader s i (S j) removed
    end
  else mret removed.

(** The outer loop; a fuel of the number of levels is enough. *)
Fixpoint slot_stp_levels (fuel : nat) (oldest : bool) (inc : Order) (s : OrderSide) (i : nat)
    (removed : bool) : M () :=
  n ← level_count s;
  if decide (i < n)%nat then
    match fuel with
    | O => undefined
    | S fuel =>
        lp ← level_price_at s i;
        if beyond inc lp then mret ()
        else
          m ← queue_size s i;
          removed ← slot_stp_orders m oldest (trader_id inc) s i 0 removed;
          e ← queue_empty s i;
          i ← (if (e : bool) then erase_level s i;; mret i else mret (S i));
          if oldest && removed then mret () else slot_stp_levels fuel oldest inc s i removed
    end
  else mret ().

(** The [switch]; whether [matchOrder] returns there. *)
Definition slot_stp_phase (inc : Order) : M bool :=
  let s := opposite (side inc) in
  policy ← read slot_stp_policy;
  self ← (if negb (bool_decide (policy = NONE)) then slot_wouldSelfTrade inc else mret false);
  if (self : bool) then
    match policy with
    | CANCEL_NEWEST => mret true
    | CANCEL_OLDEST => n ← level_count s; slot_stp_levels n true inc s 0 false;; mret false
    | CANCEL_BOTH => n ← level_count s; slot_stp_levels n false inc s 0 false;; mret true
    | NONE => mret false
    end
  else mret false.

(** ** The matching loop *)

Fixpoint slot_pop_filled (fuel : nat) (s : OrderSide) : M () :=
  e ← queue_empty s 0;
  if (e : bool) then mret ()
  else
    o ← queue_front s 0;
    if remaining_quantity o =? 0 then
      match fuel with
      | O => undefined
      | S fuel => queue_pop_front s 0;; slot_pop_filled fuel s
      end
    else mret ().

(** [next_trade_id_++]. *)
Definition take_trade_id : M Z := fun sb =>
  Some (Build_SlotBook (slot_bids sb) (slot_asks sb) (u64 (slot_next_trade_id sb + 1))
          (slot_stp_policy sb) (order_pool_ sb), Ok (slot_next_trade_id sb)).

(** How a turn ends: with the incoming order and the trades so far. *)
Inductive turn : Type :=
| Again (inc : Order) (trades : list Trade)
| Leave (inc : Order) (trades : list Trade)
| Escape (inc : Order) (e : exn).

Definition slot_trade (clock : Z -> Z) (s : OrderSide) (inc : Order) (ts : list Trade) : M turn :=
  lp ← level_price_at s 0;
  r ← queue_front s 0;
  let qty := Z.min (remaining_quantity inc) (remaining_quantity r) in
  let inc' := set_remaining inc (remaining_quantity inc - qty) in
  let left := remaining_quantity r - qty in
  queue_assign s 0 0 (set_remaining r left);;
  tid ← take_trade_id;
  match make_trade inc r tid lp qty (clock tid) with
  | Throw e => mret (Escape inc' e)
  | Ok t =>
      (if left =? 0 then queue_pop_front s 0;; drop_if_empty s 0 else mret ());;
      mret (Again inc' (ts ++ [t]))
  end.

Definition slot_match_iter (clock : Z -> Z) (s : OrderSide) (inc : Order) (ts : list Trade) : M turn :=
  if remaining_quantity inc <=? 0 then mret (Leave inc ts)
  else
    n ← level_count s;
    if decide (n = 0%nat) then mret (Leave inc ts)
    else
      lp ← level_price_at s 0;
      if beyond inc lp then mret (Leave inc ts)
      else
        m ← queue_size s 0;
        slot_pop_filled m s;;
        e ← queue_empty s 0;
        if (e : bool) then erase_level s 0;; mret (Again inc ts) else slot_trade clock s inc ts.

(** The incoming order as the loop leaves it, and the trades or what was thrown. *)
Fixpoint slot_match_loop (fuel : nat) (clock : Z -> Z) (s : OrderSide) (inc : Order) (ts : list Trade)
    : M (Order * result (list Trade)) :=
  match fuel with
  | O => undefined
  | S fuel =>
      t ← slot_match_iter clock s inc ts;
      match t with
      | Again inc ts => slot_match_loop fuel clock s inc ts
      | Leave inc ts => mret (inc, Ok ts)
      | Escape inc e => mret (inc, Throw e)
      end
  end.

(** One more than the levels, the orders in them and the exhaustion of the incoming order. *)
Definition match_fuel (s : OrderSide) (inc : Order) : M nat :=
  read (fun sb => S (length (slot_side s sb) +
                     sum_list_with (fun l => size (level_orders l)) (slot_side s sb) +
                     (if (0 <? remaining_quantity inc)%Z then 1 else 0)))%nat.

(** ** matchOrder *)

(** The order passed by reference, and the vector returned or the exception thrown. *)
Definition slot_matchOrder (clock : Z -> Z) (inc : Order) : M (Order * result (list Trade)) :=
  let s := opposite (side inc) in
  fills ← (if bool_decide (type inc = FOK) then slot_canFullyFill inc else mret true);
  if negb (fills : bool) then mret (inc, Ok [])
  else
    stop ← slot_stp_phase inc;
    if (stop : bool) then mret (inc, Ok [])
    else
      fuel ← match_fuel s inc;
      '(inc, r) ← slot_match_loop fuel clock s inc [];
      match r with
      | Throw e => mret (inc, Throw e)
      | Ok ts => (if rests inc then slot_addOrder inc else mret false);; mret (inc, Ok ts)
      end.

(** ** replaceOrder *)

Definition slot_replaceInLevel (clock : Z -> Z) (now : Z) (s : OrderSide) (i j : nat)
    (id : Z) (new_price : double) (new_qty prio : Z) : M (result ReplaceResult) :=
  old ← queue_at s i j;
  let already_filled := u32 (quantity old - remaining_quantity old) in
  if (0 <? new_qty) && (new_qty <? already_filled) then mret (Ok replace_failed)
  else if new_qty =? 0 then
    queue_erase_at s i j;; drop_if_empty s i;; mret (Ok (Build_ReplaceResult true [] 0))
  else if deq new_price (price old) && (new_qty <? quantity old) then
    let o := amend_order old new_qty already_filled now in
    queue_assign s i j o;; mret (Ok (Build_ReplaceResult true [] (remaining_quantity o)))
  else
    queue_erase_at s i j;; drop_if_empty s i;;
    let o := reentry_order old id new_price new_qty already_filled prio now in
    if remaining_quantity o =? 0 then mret (Ok (Build_ReplaceResult true [] 0))
    else
      '(inc, r) ← slot_matchOrder clock o;
      mret (ts ← r; Ok (Build_ReplaceResult true ts (remaining_quantity inc))).

Definition slot_replaceOrder (clock : Z -> Z) (now : Z) (id : Z) (new_price : double) (new_qty prio : Z)
    : M (result ReplaceResult) :=
  if (0 <? new_qty) && (negb (isfinite new_price) || dle new_price d_zero)
  then mret (Ok replace_failed)
  else
    found ← slot_locate id;
    match found with
    | Some (s, i, j) => slot_replaceInLevel clock now s i j id new_price new_qty prio
    | None => mret (Ok replace_failed)
    end.

(** ** Runs

    Calls of the public methods in any order, and what they answer: on the stored book, and on
    the book of lists. *)

Inductive book_call : Type :=
| CallAdd (o : Order)
| CallMatch (inc : Order)
| CallCancel (id : Z)
| CallReplace (now id : Z) (new_price : double) (new_qty prio : Z)
| CallFill (id qty : Z)
| CallGet (id : Z)
| CallBestBid
| CallBestAsk
| CallCount
| CallSetPolicy (policy : STPPolicy)
| CallGetPolicy.

Inductive book_answer : Type :=
| AnswerBool (b : bool)
| AnswerMatch (inc : Order) (r : result (list Trade))
| AnswerReplace (r : result ReplaceResult)
| AnswerOrder (o : option Order)
| AnswerPrice (p : double)
| AnswerCount (n : nat)
| AnswerPolicy (policy : STPPolicy)
| AnswerVoid.

Definition slot_call (clock : Z -> Z) (c : book_call) : M book_answer :=
  match c with
  | CallAdd o => b ← slot_addOrder o; mret (AnswerBool b)
  | CallMatch inc => '(inc, r) ← slot_matchOrder clock inc; mret (AnswerMatch inc r)
  | CallCancel id => b ← slot_cancelOrder id; mret (AnswerBool b)
  | CallReplace now id p qty prio => r ← slot_replaceOrder clock now id p qty prio; mret (AnswerReplace r)
  | CallFill id qty => b ← slot_applyFill id qty; mret (AnswerBool b)
  | CallGet id => o ← slot_getOrderById id; mret (AnswerOrder o)
  | CallBestBid => p ← slot_getBestBid; mret (AnswerPrice p)
  | CallBestAsk => p ← slot_getBestAsk; mret (AnswerPrice p)
  | CallCount => n ← slot_getOrderCount; mret (AnswerCount n)
  | CallSetPolicy policy => slot_setSTPPolicy policy;; mret AnswerVoid
  | CallGetPolicy => p ← read slot_stp_policy; mret (AnswerPolicy p)
  end.

Fixpoint slot_calls (clock : Z -> Z) (cs : list book_call) : M (list book_answer) :=
  match cs with
  | [] => mret []
  | c :: cs => a ← slot_call clock c; answers ← slot_calls clock cs; mret (a :: answers)
  end.

Definition list_call (clock : Z -> Z) (b : OrderBook) (c : book_call) : OrderBook * book_answer :=
  match c with
  | CallAdd o => prod_map (fun b => b) AnswerBool (addOrder b o)
  | CallMatch inc =>
      let out := matchOrder clock b inc in (mo_book out, AnswerMatch (mo_incoming out) (mo_result out))
  | CallCancel id => prod_map (fun b => b) AnswerBool (cancelOrder b id)
  | CallReplace now id p qty prio =>
      prod_map (fun b => b) AnswerReplace (replaceOrder clock now b id p qty prio)
  | CallFill id qty => prod_map (fun b => b) AnswerBool (applyFill b id qty)
  | CallGet id => (b, AnswerOrder (getOrderById b id))
  | CallBestBid => (b, AnswerPrice (getBestBid b))
  | CallBestAsk => (b, AnswerPrice (getBestAsk b))
  | CallCount => (b, AnswerCount (getOrderCount b))
  | CallSetPolicy policy => (setSTPPolicy b policy, AnswerVoid)
  | CallGetPolicy => (b, AnswerPolicy (getSTPPolicy b))
  end.

Fixpoint list_calls (clock : Z -> Z) (b : OrderBook) (cs : list book_call) : OrderBook * list book_answer :=
  match cs with
  | [] => (b, [])
  | c :: cs =>
      let '(b, a) := list_call clock b c in
      let '(b, answers) := list_calls clock b cs in (b, a :: answers)
  end.

(** The book of lists that a stored book shows through [at], [size] and the pool's counts. *)
Definition view_level (p : OrderPool) (l : SlotLevel) : PriceLevel :=
  Build_PriceLevel (level_price l) (omap (at_ (level_orders l) p) (seq 0 (size (level_orders l)))).

Definition book_view (sb : SlotBook) : OrderBook :=
  Build_OrderBook (view_level (order_pool_ sb) <$> slot_bids sb) (view_level (order_pool_ sb) <$> slot_asks sb)
    (slot_next_trade_id sb) (slot_stp_policy sb)
    (Z.of_nat (capacity (order_pool_ sb))) (Z.of_nat (available (order_pool_ sb))).
