(* ===== verification/SlotRep.v ===== *)
(** * SlotRep: what a stored book represents

    [book_rep] relates a book in slots (SlotBook.v) to one of lists (OrderBook.v). [computes m b b' r]
    says of a computation [m] that on every book that represents [b] it ends, with [r], in a book
    that represents [b']: no index is out of range, no [assert] fails, no loop runs out of fuel,
    no [deallocate] throws. Here are its rules for sequencing and for each statement on a level,
    its queue and the pool. *)

From Stdlib Require Import ZArith Lia Bool String.
From stdpp Require Import base tactics decidable numbers option list.
From S2P Require Import Prelude.
From S2P Require Import Double.
From S2P Require Import Order.
From S2P Require Import OrderBook.
From S2P Require Import BookLevels.
From S2P Require Import BookMatch.
From S2P Require Import BookInv.
From S2P Require Import OrderPool.
From S2P Require Import OrderQueue.
From S2P Require Import SlotBook.

Local Open Scope Z_scope.

(** ** Representation *)

Definition slot_queues (sb : SlotBook) : list OrderQueue := level_orders <$> slot_bids sb ++ slot_asks sb.

Definition contents (b : OrderBook) : list (list Order) := orders <$> bids_ b ++ asks_ b.

Record rep_with (idss : list (list nat)) (sb : SlotBook) (b : OrderBook) : Prop := {
  rep_shared : shared (slot_queues sb) (order_pool_ sb) idss (contents b);
  rep_prices : forall s, level_price <$> slot_side s sb = lprice <$> levels_of s b;
  rep_next : slot_next_trade_id sb = next_trade_id_ b;
  rep_policy : slot_stp_policy sb = stp_policy_ b;
  rep_capacity : pool_capacity_ b = Z.of_nat (capacity (order_pool_ sb));
  rep_available : pool_available_ b + order_slots b = pool_capacity_ b
}.

Definition book_rep (sb : SlotBook) (b : OrderBook) : Prop := exists idss, rep_with idss sb b.

(** The place of a level among the levels of both sides, [n] of which are bids. *)
Definition place (s : OrderSide) (n i : nat) : nat := match s with BUY => i | SELL => n + i end.

Lemma total_contents b : Z.of_nat (total (contents b)) = order_slots b.
Proof. unfold total, contents, order_slots, flat. rewrite fmap_app, concat_app, length_app. done. Qed.

Lemma rep_free idss sb b : rep_with idss sb b -> pool_available_ b = Z.of_nat (available (order_pool_ sb)).
Proof.
  intros [Hs _ _ _ Hc Ha]. apply shared_available in Hs. rewrite <- total_contents in Ha. lia.
Qed.

Lemma rep_levels_length idss sb b s : rep_with idss sb b -> length (slot_side s sb) = length (levels_of s b).
Proof. intros Hr. pose proof (rep_prices _ _ _ Hr s) as Hp. apply (f_equal length) in Hp. by rewrite !length_fmap in Hp. Qed.

(** A level of the list book has a level in slots, whose queue holds its orders. *)
Lemma rep_level idss sb b s i l :
  rep_with idss sb b -> levels_of s b !! i = Some l ->
  exists sl ids, slot_side s sb !! i = Some sl /\ level_price sl = lprice l /\
    idss !! place s (length (slot_bids sb)) i = Some ids /\
    slot_queues sb !! place s (length (slot_bids sb)) i = Some (level_orders sl) /\
    contents b !! place s (length (slot_bids sb)) i = Some (orders l) /\
    queue_rep (level_orders sl) (order_pool_ sb) ids (orders l) /\ NoDup ids.
Proof.
  intros Hr Hl. pose proof (lookup_lt_Some _ _ _ Hl) as Hlt. pose proof (rep_levels_length _ _ _ s Hr) as Hlen.
  pose proof (rep_levels_length _ _ _ BUY Hr) as Hbl. simpl in Hbl.
  destruct (lookup_lt_is_Some_2 (slot_side s sb) i) as [sl Hsl]; [lia|].
  assert (level_price sl = lprice l) as Hp.
  { pose proof (rep_prices _ _ _ Hr s) as Hp. apply (f_equal (.!! i)) in Hp.
    rewrite !list_lookup_fmap, Hsl, Hl in Hp. simpl in Hp. congruence. }
  assert (slot_queues sb !! place s (length (slot_bids sb)) i = Some (level_orders sl)
    /\ contents b !! place s (length (slot_bids sb)) i = Some (orders l)) as [Hq Hc].
  { unfold slot_queues, contents. rewrite !list_lookup_fmap. destruct s; simpl in *.
    - rewrite !lookup_app_l by lia. by rewrite Hsl, Hl.
    - rewrite lookup_app_r, Nat.add_comm, Nat.add_sub, Hsl by lia.
      rewrite lookup_app_r, Hbl, Nat.add_sub, Hl by lia. done. }
  destruct (shared_level _ _ _ _ _ _ (rep_shared _ _ _ Hr) Hq) as (ids & os & Hi & Hos & Hqr & Hnd).
  rewrite Hc in Hos. injection Hos as <-. exists sl, ids. auto 10.
Qed.

(** A side is replaced. *)
Lemma rep_side idss idss' sb b s sls ls n p :
  rep_with idss sb b ->
  shared (slot_queues (with_side s sls p sb)) p idss' (contents (set_levels s b ls n)) ->
  level_price <$> sls = lprice <$> ls -> capacity p = capacity (order_pool_ sb) ->
  Z.of_nat (length (flat ls)) + n = slots_of s b ->
  book_rep (with_side s sls p sb) (set_levels s b ls n).
Proof.
  intros [Hs Hp Hn Hst Hc Ha] Hs' Hp' Hc' Hl. exists idss'. constructor.
  - by destruct s.
  - intros s'. pose proof (Hp s'). by destruct s, s'.
  - by destruct s.
  - by destruct s.
  - rewrite (proj2 (pool_set _ _ _ _)). destruct s; simpl; congruence.
  - unfold order_slots, slots_of in *. destruct s; simpl in *; lia.
Qed.

(** Changes of one side, seen on the list of both, mapped by [f]. *)
Section Between.
Context {A B : Type} (f : A -> B) (s : OrderSide) (x y : list A) (i : nat).
Let here : list A := match s with BUY => x | SELL => y end.
Let joined (l : list A) : list A := match s with BUY => l ++ y | SELL => x ++ l end.

Lemma update_between z :
  (i < length here)%nat -> <[place s (length x) i := f z]> (f <$> x ++ y) = f <$> joined (<[i := z]> here).
Proof using Type.
  intros Hi. rewrite <- list_fmap_insert. f_equal. unfold here, joined in *. destruct s; simpl in *.
  - by rewrite insert_app_l.
  - by rewrite insert_app_r.
Qed.

Lemma delete_between :
  (i < length here)%nat -> delete (place s (length x) i) (f <$> x ++ y) = f <$> joined (delete i here).
Proof using Type.
  intros Hi. rewrite <- list_fmap_delete. f_equal. rewrite !delete_take_drop. unfold here, joined in *.
  destruct s; simpl in *.
  - rewrite take_app_le, drop_app_le by lia. by rewrite app_assoc.
  - rewrite take_app_ge, drop_app_ge by lia. rewrite <- app_assoc. f_equal. f_equal; f_equal; lia.
Qed.

Lemma insert_between z :
  (i <= length here)%nat ->
  take (place s (length x) i) (f <$> x ++ y) ++ f z :: drop (place s (length x) i) (f <$> x ++ y)
  = f <$> joined (insert_at i z here).
Proof using Type.
  intros Hi. rewrite <- fmap_take, <- fmap_drop, <- fmap_cons, <- fmap_app. f_equal.
  unfold insert_at, here, joined in *. destruct s; simpl in *.
  - rewrite take_app_le, drop_app_le by lia. by rewrite <- app_assoc.
  - rewrite take_app_ge, drop_app_ge by lia. rewrite <- app_assoc. f_equal. f_equal; [f_equal; lia|].
    do 2 f_equal. lia.
Qed.
End Between.

Lemma flat_insert ls i l os :
  ls !! i = Some l ->
  (length (flat (<[i := Build_PriceLevel (lprice l) os]> ls)) + length (orders l) = length (flat ls) + length os)%nat.
Proof.
  intros Hl. unfold flat. rewrite list_fmap_insert. simpl.
  assert ((orders <$> ls) !! i = Some (orders l)) as Hol by (by rewrite list_lookup_fmap, Hl).
  rewrite (Permutation_length (concat_insert _ _ _ os Hol)), (Permutation_length (concat_delete _ _ _ Hol)).
  rewrite !length_app. lia.
Qed.

(** One queue takes a step. *)
Lemma rep_update idss sb b s i l sl ids q p ids' os n :
  rep_with idss sb b -> levels_of s b !! i = Some l -> slot_side s sb !! i = Some sl ->
  idss !! place s (length (slot_bids sb)) i = Some ids ->
  pool_step (order_pool_ sb) ids p ids' -> queue_rep q p ids' os ->
  n = Z.of_nat (length (orders l)) - Z.of_nat (length os) ->
  book_rep (with_side s (<[i := Build_SlotLevel (level_price sl) q]> (slot_side s sb)) p sb)
    (set_levels s b (<[i := Build_PriceLevel (lprice l) os]> (levels_of s b)) n).
Proof.
  intros Hr Hl Hsl Hids Hst Hq Hn.
  destruct (rep_level _ _ _ _ _ _ Hr Hl) as (sl' & ids1 & Hsl' & Hp & Hi & Hsq & Hc & _). simplify_eq.
  pose proof (lookup_lt_Some _ _ _ Hl) as Hlt. pose proof (rep_levels_length _ _ _ BUY Hr) as Hb.
  pose proof (rep_levels_length _ _ _ s Hr) as Hsd. simpl in Hb.
  apply (rep_side idss (<[place s (length (slot_bids sb)) i := ids']> idss));
    [done| | |by eapply step_capacity|].
  - pose proof (shared_step _ _ _ _ _ _ _ _ q p ids' os (rep_shared _ _ _ Hr) Hsq Hids Hc Hst Hq) as Hs.
    unfold slot_queues, contents in *.
    rewrite (update_between level_orders _ _ _ _ (Build_SlotLevel (level_price sl) q)) in Hs by (destruct s; simpl in *; lia).
    rewrite Hb, (update_between orders _ _ _ _ (Build_PriceLevel (lprice l) os)), <- Hb in Hs by (destruct s; simpl in *; lia).
    destruct s; exact Hs.
  - rewrite !list_fmap_insert. simpl. by rewrite Hp, (rep_prices _ _ _ Hr s).
  - pose proof (flat_insert _ _ _ os Hl). unfold slots_of. lia.
Qed.

Lemma set_levels_same s b : set_levels s b (levels_of s b) 0 = b.
Proof. destruct s, b; simpl; by rewrite Z.add_0_r. Qed.

Lemma set_levels_twice s b ls1 n1 ls2 n2 :
  set_levels s (set_levels s b ls1 n1) ls2 n2 = set_levels s b ls2 (n1 + n2).
Proof. destruct s; simpl; by rewrite Z.add_assoc. Qed.

Lemma fmap_insert_at {A B} (f : A -> B) i x (l : list A) : f <$> insert_at i x l = insert_at i (f x) (f <$> l).
Proof. unfold insert_at. by rewrite fmap_app, fmap_cons, fmap_take, fmap_drop. Qed.

Lemma move_levels_down_tail l ls : move_levels_down (l :: ls) = ls.
Proof. revert l. induction ls as [|[lp []] ls IH]; intros l; [done|]. simpl in *. by rewrite IH. Qed.

Lemma move_level_same (ls : list SlotLevel) : move_level <$> ls = ls.
Proof. induction ls as [|[lp []] ls IH]; [done|]. by rewrite fmap_cons, IH. Qed.

(** A level that has become empty is erased. *)
Lemma rep_erase idss sb b s i l :
  rep_with idss sb b -> levels_of s b !! i = Some l -> orders l = [] ->
  book_rep (with_side s (delete i (slot_side s sb)) (order_pool_ sb) sb)
    (set_levels s b (delete i (levels_of s b)) 0).
Proof.
  intros Hr Hl Ho. destruct (rep_level _ _ _ _ _ _ Hr Hl) as (sl & ids & Hsl & Hp & Hi & Hsq & Hc & Hq & _).
  pose proof (rep_levels_length _ _ _ BUY Hr) as Hb. pose proof (lookup_lt_Some _ _ _ Hl).
  pose proof (rep_levels_length _ _ _ s Hr) as Hsd. simpl in Hb.
  assert (ids = []) as ->.
  { destruct (rep_length _ _ _ _ Hq) as [H1 H2]. rewrite Ho in H2. apply nil_length_inv. simpl in H2. lia. }
  eapply rep_side; [done| | |done|].
  - pose proof (shared_delete_level _ _ _ _ _ _ (rep_shared _ _ _ Hr) Hi eq_refl) as Hs.
    unfold slot_queues, contents in *.
    rewrite delete_between in Hs by (destruct s; simpl in *; lia).
    rewrite Hb, delete_between in Hs by (destruct s; simpl in *; lia). destruct s; exact Hs.
  - by rewrite !list_fmap_delete, (rep_prices _ _ _ Hr s).
  - unfold slots_of, flat. rewrite list_fmap_delete.
    assert ((orders <$> levels_of s b) !! i = Some []) as Hol by (by rewrite list_lookup_fmap, Hl; simpl; rewrite Ho).
    rewrite (Permutation_length (concat_delete _ _ _ Hol)). simpl. lia.
Qed.

(** What [push_back] throws. *)
Definition exhausted : exn := RuntimeError "OrderQueue: OrderPool exhausted".

(** A level is inserted with its first order, unless the pool is exhausted. *)
Lemma rep_insert idss sb b s i o :
  rep_with idss sb b -> (i <= length (levels_of s b))%nat ->
  exists q p r, push_back (Build_OrderQueue [] 0 0) (order_pool_ sb) o = (q, p, r) /\
  match r with
  | Ok _ => 0 < pool_available_ b /\
      book_rep (with_side s (insert_at i (Build_SlotLevel (price o) q) (slot_side s sb)) p sb)
        (set_levels s b (insert_at i (Build_PriceLevel (price o) [o]) (levels_of s b)) (-1))
  | Throw e => (e = exhausted /\ pool_available_ b <= 0) /\ book_rep (with_side s (slot_side s sb) p sb) b
  end.
Proof.
  intros Hr Hi. pose proof (rep_levels_length _ _ _ BUY Hr) as Hb. pose proof (rep_levels_length _ _ _ s Hr) as Hsd. simpl in Hb.
  pose proof (rep_free _ _ _ Hr) as Hfree. pose proof (shared_available _ _ _ _ (rep_shared _ _ _ Hr)) as Hav.
  set (k := place s (length (slot_bids sb)) i).
  assert (k <= length (slot_queues sb) /\ k <= length (contents b))%nat as [Hk1 Hk2].
  { unfold k, slot_queues, contents. rewrite !length_fmap, !length_app. destruct s; simpl in *; lia. }
  destruct (insert_level_refines _ _ _ _ k o (rep_shared _ _ _ Hr)) as (idss' & H). simpl in H.
  rewrite (proj2 (Nat.leb_le _ _) Hk1), (proj2 (Nat.leb_le _ _) Hk2) in H.
  destruct (push_back _ _ o) as [[q p] r]. exists q, p, r. split; [done|]. destruct r as [u|e].
  - destruct (Nat.ltb_spec (total (contents b)) (capacity (order_pool_ sb))); [|by destruct H].
    destruct H as (_ & Hs & Hc). split; [lia|]. rewrite insert_queue_moves in Hs.
    assert (Build_OrderQueue (pointers_ q) (queue_head_ q) (queue_tail_ q) = q) as Hq by (by destruct q).
    rewrite Hq in Hs.
    apply (rep_side idss idss'); [done| | |done|].
    + unfold slot_queues, contents, k in *.
      rewrite (insert_between level_orders _ _ _ _ (Build_SlotLevel (price o) q)) in Hs by (destruct s; simpl in *; lia).
      rewrite Hb, (insert_between orders _ _ _ _ (Build_PriceLevel (price o) [o])) in Hs by (destruct s; simpl in *; lia).
      destruct s; exact Hs.
    + rewrite !fmap_insert_at. simpl. by rewrite (rep_prices _ _ _ Hr s).
    + unfold slots_of, flat. rewrite fmap_insert_at. unfold insert_at. simpl.
      rewrite concat_app, length_app. simpl.
      pose proof (f_equal (fun os => length (concat os)) (take_drop i (orders <$> levels_of s b))) as Htd. simpl in Htd.
      rewrite concat_app, length_app in Htd. lia.
  - destruct (Nat.ltb_spec (total (contents b)) (capacity (order_pool_ sb))); [by destruct H|].
    destruct H as ([= ->] & Hs & Hc). split; [split; [done|lia]|]. rewrite <- (set_levels_same s b) at 1.
    apply (rep_side idss idss'); [done| |apply (rep_prices _ _ _ Hr)|done|unfold slots_of; lia].
    rewrite set_levels_same. by destruct s.
Qed.

(** ** Computations *)

Definition computes {A : Type} (m : M A) (b b' : OrderBook) (r : result A) : Prop :=
  forall sb, book_rep sb b -> exists sb', m sb = Some (sb', r) /\ book_rep sb' b'.

Section Rules.
Context {A B : Type}.

Lemma computes_ret (a : A) b : computes (mret a) b b (Ok a).
Proof. intros sb Hr. by exists sb. Qed.

Lemma computes_bind (m : M A) (f : A -> M B) b1 b2 b3 a r :
  computes m b1 b2 (Ok a) -> computes (f a) b2 b3 r -> computes (m ≫= f) b1 b3 r.
Proof.
  intros Hm Hf sb Hr. destruct (Hm sb Hr) as (sb2 & Heq & Hr2). destruct (Hf sb2 Hr2) as (sb3 & Hf2 & Hr3).
  exists sb3. split; [|done]. unfold mbind, M_bind. by rewrite Heq.
Qed.

Lemma computes_bind_throw (m : M A) (f : A -> M B) b1 b2 e :
  computes m b1 b2 (Throw e) -> computes (m ≫= f) b1 b2 (Throw e).
Proof.
  intros Hm sb Hr. destruct (Hm sb Hr) as (sb2 & Heq & Hr2). exists sb2. split; [|done].
  unfold mbind, M_bind. by rewrite Heq.
Qed.

Lemma computes_catch (m h : M A) b1 b2 a : computes m b1 b2 (Ok a) -> computes (catch m h) b1 b2 (Ok a).
Proof.
  intros Hm sb Hr. destruct (Hm sb Hr) as (sb2 & Heq & Hr2). exists sb2. split; [|done].
  unfold catch. by rewrite Heq.
Qed.

Lemma computes_caught (m h : M A) b1 b2 b3 e r :
  computes m b1 b2 (Throw e) -> computes h b2 b3 r -> computes (catch m h) b1 b3 r.
Proof.
  intros Hm Hh sb Hr. destruct (Hm sb Hr) as (sb2 & Heq & Hr2). destruct (Hh sb2 Hr2) as (sb3 & Hh2 & Hr3).
  exists sb3. split; [|done]. unfold catch. by rewrite Heq.
Qed.

Lemma computes_read (f : SlotBook -> A) b a :
  (forall idss sb, rep_with idss sb b -> f sb = a) -> computes (read f) b b (Ok a).
Proof. intros Hf sb [idss Hr]. exists sb. unfold read. rewrite (Hf idss sb Hr). split; [done|by exists idss]. Qed.

(** A computation that only looks at the book. *)
Lemma computes_look (m : M A) b a :
  (forall idss sb, rep_with idss sb b -> m sb = Some (sb, Ok a)) -> computes m b b (Ok a).
Proof. intros Hf sb [idss Hr]. exists sb. split; [by eapply Hf|by exists idss]. Qed.

End Rules.

(** ** The statements *)

Section Statements.
Context (b : OrderBook) (s : OrderSide).

Lemma computes_level_count : computes (level_count s) b b (Ok (length (levels_of s b))).
Proof using Type. apply computes_read. intros idss sb Hr. by eapply rep_levels_length. Qed.

Context (i : nat) (l : PriceLevel) (Hl : levels_of s b !! i = Some l).

Lemma level_at_eq {A} idss sb (f : SlotLevel -> M A) sl :
  rep_with idss sb b -> slot_side s sb !! i = Some sl -> (level_at s i ≫= f) sb = f sl sb.
Proof using Type. intros Hr Hsl. unfold level_at, mbind, M_bind, read, of_option. by rewrite Hsl. Qed.

(** What a statement on level [i] may assume. *)
Ltac at_level :=
  match goal with
  | Hr : rep_with _ ?sb b |- _ =>
      destruct (rep_level _ _ _ _ _ _ Hr Hl) as (sl & ids & Hsl & Hp & Hi & Hsq & Hc & Hq & Hnd);
      pose proof (shared_pool _ _ _ _ (rep_shared _ _ _ Hr)) as Hwf;
      erewrite level_at_eq by done
  end.

Lemma computes_level_price : computes (level_price_at s i) b b (Ok (lprice l)).
Proof using Hl. apply computes_look. intros idss sb Hr. unfold level_price_at. at_level. by rewrite <- Hp. Qed.

Lemma computes_queue_size : computes (queue_size s i) b b (Ok (length (orders l))).
Proof using Hl.
  apply computes_look. intros idss sb Hr. unfold queue_size. at_level.
  by rewrite (proj2 (rep_length _ _ _ _ Hq)).
Qed.

Lemma computes_queue_empty : computes (queue_empty s i) b b (Ok (bool_decide (orders l = []))).
Proof using Hl.
  apply computes_look. intros idss sb Hr. unfold queue_empty. at_level. by rewrite <- (rep_empty _ _ _ _ Hq).
Qed.

Lemma computes_queue_at j o : orders l !! j = Some o -> computes (queue_at s i j) b b (Ok o).
Proof using Hl.
  intros Ho. apply computes_look. intros idss sb Hr. unfold queue_at. at_level.
  unfold mbind, M_bind, read, of_option. by rewrite (at_spec _ _ _ _ _ Hq), Ho.
Qed.

Lemma computes_queue_front o os : orders l = o :: os -> computes (queue_front s i) b b (Ok o).
Proof using Hl.
  intros Ho. apply computes_look. intros idss sb Hr. unfold queue_front. at_level.
  unfold mbind, M_bind, read, of_option. by rewrite (front_spec _ _ _ _ Hq), Ho.
Qed.

(** The statements that change a queue all end in [put_queue]. *)
Lemma put_queue_spec idss sb sl ids q p ids' os n :
  rep_with idss sb b -> slot_side s sb !! i = Some sl -> idss !! place s (length (slot_bids sb)) i = Some ids ->
  pool_step (order_pool_ sb) ids p ids' -> queue_rep q p ids' os ->
  n = Z.of_nat (length (orders l)) - Z.of_nat (length os) ->
  exists sb', put_queue s i q p sb = Some (sb', Ok ()) /\
    book_rep sb' (set_levels s b (<[i := Build_PriceLevel (lprice l) os]> (levels_of s b)) n).
Proof using Hl.
  intros Hr Hsl Hi Hst Hq Hn. unfold put_queue. rewrite Hsl. eexists. split; [reflexivity|]. by eapply rep_update.
Qed.

Lemma computes_queue_assign j o :
  (j < length (orders l))%nat ->
  computes (queue_assign s i j o) b
    (set_levels s b (<[i := Build_PriceLevel (lprice l) (<[j := o]> (orders l))]> (levels_of s b)) 0) (Ok ()).
Proof using Hl.
  intros Hj sb [idss Hr]. unfold queue_assign. at_level.
  destruct (assign_at_spec _ _ _ _ _ o Hwf Hnd Hq Hj) as (p' & Ha & Hst & Hq').
  unfold mbind, M_bind, read, of_option. rewrite Ha. simpl.
  eapply put_queue_spec; [done..|]. rewrite length_insert. lia.
Qed.

Lemma computes_queue_pop_front :
  computes (queue_pop_front s i) b
    (set_levels s b (<[i := Build_PriceLevel (lprice l) (tail (orders l))]> (levels_of s b))
       (Z.of_nat (length (orders l)) - Z.of_nat (length (tail (orders l))))) (Ok ()).
Proof using Hl.
  intros sb [idss Hr]. unfold queue_pop_front. at_level.
  destruct (pop_front_spec _ _ _ _ Hwf Hnd Hq) as (q' & p' & ids' & Ha & Hst & Hq').
  unfold mbind, M_bind, read, of_result. rewrite Ha. by eapply put_queue_spec.
Qed.

Lemma computes_queue_erase_at j :
  (j < length (orders l))%nat ->
  computes (queue_erase_at s i j) b
    (set_levels s b (<[i := Build_PriceLevel (lprice l) (delete j (orders l))]> (levels_of s b)) 1) (Ok ()).
Proof using Hl.
  intros Hj sb [idss Hr]. unfold queue_erase_at. at_level.
  destruct (erase_at_spec _ _ _ _ _ Hwf Hnd Hq Hj) as (q' & p' & ids' & Ha & Hst & Hq').
  unfold mbind, M_bind, read, of_result, of_option. rewrite Ha. simpl.
  eapply put_queue_spec; [done..|]. rewrite length_delete by (by apply lookup_lt_is_Some). lia.
Qed.

(** [push_back] takes a slot, or throws and changes nothing that can be seen. *)
Lemma computes_queue_push_back o :
  if pool_available_ b <=? 0
  then computes (queue_push_back s i o) b b (Throw exhausted)
  else computes (queue_push_back s i o) b
    (set_levels s b (<[i := Build_PriceLevel (lprice l) (orders l ++ [o])]> (levels_of s b)) (-1)) (Ok ()).
Proof using Hl.
  destruct (Z.leb_spec (pool_available_ b) 0);
    intros sb [idss Hr]; pose proof (rep_free _ _ _ Hr); unfold queue_push_back; at_level;
    destruct (push_back_spec _ _ _ _ o Hwf Hnd Hq) as (q' & p' & ids' & r & Ha & Hst & Hres);
    unfold mbind, M_bind, read, of_result; rewrite Ha;
    (destruct r as [[]|e]; [destruct Hres as [? Hq']|destruct Hres as (-> & ? & Hq')]); try lia.
  - edestruct (put_queue_spec idss sb sl ids q' p' ids' (orders l) 0) as (sb' & -> & Hr'); [done..|lia|].
    exists sb'. split; [done|]. replace (Build_PriceLevel (lprice l) (orders l)) with l in Hr' by (by destruct l).
    by rewrite list_insert_id, set_levels_same in Hr'.
  - edestruct (put_queue_spec idss sb sl ids q' p' ids' (orders l ++ [o]) (-1)) as (sb' & -> & Hr'); [done..| |].
    { rewrite length_app. simpl. lia. }
    by exists sb'.
Qed.

Lemma computes_erase_level :
  orders l = [] -> computes (erase_level s i) b (set_levels s b (delete i (levels_of s b)) 0) (Ok ()).
Proof using Hl.
  intros Ho sb [idss Hr]. destruct (rep_level _ _ _ _ _ _ Hr Hl) as (sl & ids & Hsl & _).
  unfold erase_level. rewrite Hsl, (drop_S _ _ _ Hsl), move_levels_down_tail, <- delete_take_drop.
  eexists. split; [reflexivity|]. by eapply rep_erase.
Qed.

End Statements.

(** Applies the lemma of the first statement; what is left is the rest of the computation. *)
Create HintDb slots discriminated.
#[export] Hint Resolve computes_ret computes_level_count computes_level_price computes_queue_size
  computes_queue_empty computes_queue_at computes_queue_front computes_queue_assign
  computes_queue_pop_front computes_queue_erase_at computes_erase_level : slots.

Ltac run := eapply computes_bind; [solve [eauto with slots]|].

Lemma delete_insert_same {A} (ls : list A) i x : delete i (<[i := x]> ls) = delete i ls.
Proof. rewrite !delete_take_drop. by rewrite take_insert_ge, drop_insert_lt by lia. Qed.

Lemma computes_drop_if_empty b s i l :
  levels_of s b !! i = Some l ->
  computes (drop_if_empty s i) b
    (set_levels s b (match orders l with [] => delete i (levels_of s b) | _ => levels_of s b end) 0) (Ok ()).
Proof.
  intros Hl. unfold drop_if_empty. run. destruct (orders l) eqn:Ho; simpl; [by eapply computes_erase_level|].
  rewrite set_levels_same. apply computes_ret.
Qed.

(** After a statement that put [l] in the place of level [i]. *)
Lemma level_put b s i l n :
  (i < length (levels_of s b))%nat -> levels_of s (set_levels s b (<[i := l]> (levels_of s b)) n) !! i = Some l.
Proof. intros Hi. rewrite levels_of_set. by apply list_lookup_insert_eq. Qed.

Lemma computes_drop_put b s i l n :
  (i < length (levels_of s b))%nat ->
  computes (drop_if_empty s i) (set_levels s b (<[i := l]> (levels_of s b)) n)
    (set_levels s b (match orders l with [] => delete i (levels_of s b) | _ => <[i := l]> (levels_of s b) end) n)
    (Ok ()).
Proof.
  intros Hi. pose proof (computes_drop_if_empty _ _ _ _ (level_put b s i l n Hi)) as Hd.
  rewrite set_levels_twice, levels_of_set, Z.add_0_r, delete_insert_same in Hd. exact Hd.
Qed.

(** An erasure with the erasure of the level it empties. *)
Lemma computes_erase b s i j o :
  order_at (levels_of s b) i j = Some o ->
  computes (queue_erase_at s i j;; drop_if_empty s i) b
    (set_levels s b (erase_order (levels_of s b) i j) 1) (Ok ()).
Proof.
  unfold order_at, erase_order. destruct (levels_of s b !! i) as [l|] eqn:Hl; [|done]. simpl. intros Ho.
  pose proof (lookup_lt_Some _ _ _ Hl). pose proof (lookup_lt_Some _ _ _ Ho). run.
  pose proof (computes_drop_put b s i (Build_PriceLevel (lprice l) (delete j (orders l))) 1) as Hd.
  simpl in Hd. destruct (delete j (orders l)); auto.
Qed.

Lemma computes_erase_then {A} b s i j o (k : M A) b' r :
  order_at (levels_of s b) i j = Some o ->
  computes k (set_levels s b (erase_order (levels_of s b) i j) 1) b' r ->
  computes (queue_erase_at s i j;; drop_if_empty s i;; k) b b' r.
Proof.
  intros Ho Hk sb Hr. destruct (computes_erase _ _ _ _ _ Ho sb Hr) as (sb1 & H1 & Hr1).
  destruct (Hk sb1 Hr1) as (sb2 & H2 & Hr2). exists sb2. split; [|done].
  unfold mbind, M_bind in *. destruct (queue_erase_at s i j sb) as [[sb0 [[]|e]]|]; [|done..]. by rewrite H1.
Qed.
