(* ===== verification/SlotRefine.v ===== *)
(** * SlotRefine: the stored book is the book of lists

    Each method of SlotBook.v computes what its counterpart in OrderBook.v does ([computes] of
    SlotRep.v, whose rules the proofs apply statement by statement), and so does every sequence of
    calls. *)

From Stdlib Require Import ZArith Lia Bool String.
From stdpp Require Import base tactics decidable numbers option list.
From S2P Require Import Prelude.
From S2P Require Import Double.
From S2P Require Import Order.
From S2P Require Import OrderBook.
From S2P Require Import BookLevels.
From S2P Require Import BookMatch.
From S2P Require Import BookInv.
From S2P Require Import OrderPool.
From S2P Require Import OrderQueue.
From S2P Require Import SlotBook.
From S2P Require Import SlotRep.

Local Open Scope Z_scope.

(** ** addOrder *)

Lemma computes_slot_search b s right fuel low high :
  (high <= length (levels_of s b))%nat -> (high - low < fuel)%nat ->
  computes (slot_search fuel right s low high) b b (Ok (level_search fuel right (levels_of s b) low high)).
Proof.
  revert low high. induction fuel as [|fuel IH]; intros low high Hh Hf; [lia|].
  cbn [slot_search level_search]. cbv zeta.
  case_decide as Hlt; [|apply computes_ret].
  assert (low + (high - low) / 2 < high)%nat as Hmid by (pose proof (Nat.div_lt (high - low) 2); lia).
  destruct (lookup_lt_is_Some_2 (levels_of s b) (low + (high - low) / 2)) as [l Hl]; [lia|]. rewrite Hl. run.
  destruct (right (lprice l)); apply IH; lia.
Qed.

Lemma level_search_le right ls fuel low high :
  (low <= high)%nat -> (level_search fuel right ls low high <= high)%nat.
Proof.
  revert low high. induction fuel as [|fuel IH]; intros low high Hlh; [done|]. cbn [level_search]. cbv zeta.
  case_decide as Hlt; [|done].
  assert (low + (high - low) / 2 < high)%nat as Hmid by (pose proof (Nat.div_lt (high - low) 2); lia).
  destruct (ls !! _); [|done]. destruct (right _); [apply IH; lia|]. etransitivity; [apply IH; lia|lia].
Qed.

Lemma computes_findLevel b s p : computes (slot_findLevel s p) b b (Ok (findLevel s b p)).
Proof. unfold slot_findLevel. run. destruct s; (eapply computes_slot_search; simpl; lia). Qed.

Lemma findLevel_le b s p : (findLevel s b p <= length (levels_of s b))%nat.
Proof. destruct s; apply level_search_le; lia. Qed.

Lemma computes_insert_level b s i o :
  (i <= length (levels_of s b))%nat ->
  if pool_available_ b <=? 0
  then computes (insert_level s i o) b b (Throw exhausted)
  else computes (insert_level s i o) b
    (set_levels s b (insert_at i (Build_PriceLevel (price o) [o]) (levels_of s b)) (-1)) (Ok ()).
Proof.
  intros Hi. destruct (Z.leb_spec (pool_available_ b) 0);
    intros sb [idss Hr]; destruct (rep_insert _ _ _ s i o Hr Hi) as (q & p & r & Hp & Hres);
    unfold insert_level; simpl; rewrite Hp; destruct r as [u|e]; destruct Hres as [Hres Hb]; try lia.
  - destruct Hres as [-> _]. eexists. split; [reflexivity|done].
  - rewrite move_level_same, decide_True by (by rewrite (rep_levels_length _ _ _ s Hr)).
    eexists. split; [reflexivity|]. by destruct q.
Qed.

(** The book and the answer of [addOrder]; the exception of an exhausted pool is caught. *)
Lemma computes_addOrder b o : computes (slot_addOrder o) b (addOrder b o).1 (Ok (addOrder b o).2).
Proof.
  unfold slot_addOrder, addOrder. destruct (_ || _); [apply computes_ret|]. cbv zeta.
  set (s := side o). pose proof (computes_findLevel b s (price o)) as Hf. pose proof (findLevel_le b s (price o)) as Hle.
  set (idx := findLevel s b (price o)) in *.
  assert (if pool_available_ b <=? 0
    then computes (same ← (if decide (idx < length (levels_of s b))%nat
             then lp ← level_price_at s idx; mret (deq lp (price o)) else mret false);
           (if (same : bool) then queue_push_back s idx o else insert_level s idx o);; mret true)
           b b (Throw exhausted)
    else computes (same ← (if decide (idx < length (levels_of s b))%nat
             then lp ← level_price_at s idx; mret (deq lp (price o)) else mret false);
           (if (same : bool) then queue_push_back s idx o else insert_level s idx o);; mret true)
           b (set_levels s b (push_order (levels_of s b) idx o) (-1)) (Ok true)) as Hbody.
  { pose proof (computes_insert_level b s idx o Hle) as Hins. unfold push_order. case_decide as Hlt.
    - destruct (lookup_lt_is_Some_2 (levels_of s b) idx Hlt) as [l Hl]. rewrite Hl.
      pose proof (computes_queue_push_back b s idx l Hl o) as Hpush.
      assert (computes (lp ← level_price_at s idx; mret (deq lp (price o))) b b (Ok (deq (lprice l) (price o)))) as Hsame
        by (run; apply computes_ret).
      destruct (pool_available_ b <=? 0), (deq (lprice l) (price o)); (eapply computes_bind; [exact Hsame|]);
        first [by apply computes_bind_throw|eapply computes_bind; [done|apply computes_ret]].
    - rewrite (lookup_ge_None_2 (levels_of s b)) by lia.
      destruct (pool_available_ b <=? 0); run;
        first [by apply computes_bind_throw|eapply computes_bind; [done|apply computes_ret]]. }
  destruct (pool_available_ b <=? 0).
  - eapply computes_caught; [|apply computes_ret]. eapply computes_bind; [exact Hf|]. run. exact Hbody.
  - apply computes_catch. eapply computes_bind; [exact Hf|]. run. exact Hbody.
Qed.

(** ** Walks *)

Section Walks.
Context {A R : Type}.

(** The same walk over lists. *)
Fixpoint walk_orders (body : A -> nat -> Order -> R + A) (j : nat) (a : A) (os : list Order) : R + A :=
  match os with
  | [] => inr a
  | o :: os =>
      match body a j o with
      | inl r => inl r
      | inr a => walk_orders body (S j) a os
      end
  end.

Fixpoint walk_levels (beyond : double -> bool) (body : nat -> A -> nat -> Order -> R + A) (i : nat) (a : A)
    (ls : list PriceLevel) : R + A :=
  match ls with
  | [] => inr a
  | l :: ls =>
      if beyond (lprice l) then inr a
      else
        match walk_orders (body i) 0 a (orders l) with
        | inl r => inl r
        | inr a => walk_levels beyond body (S i) a ls
        end
  end.

Lemma computes_for_orders b s i l (body : A -> nat -> Order -> R + A) pre os a :
  levels_of s b !! i = Some l -> orders l = pre ++ os ->
  computes (for_orders s i (length os) (length pre) body a) b b (Ok (walk_orders body (length pre) a os)).
Proof.
  intros Hl. revert pre a. induction os as [|o os IH]; intros pre a Hos; simpl; [apply computes_ret|].
  eapply computes_bind; [eapply computes_queue_at; [done|]; rewrite Hos; by apply list_lookup_middle|].
  destruct (body a (length pre) o) as [r|a']; [apply computes_ret|].
  specialize (IH (pre ++ [o]) a'). rewrite length_app, Nat.add_1_r in IH. apply IH. by rewrite <- app_assoc.
Qed.

Lemma computes_for_levels b s beyond (body : nat -> A -> nat -> Order -> R + A) pre ls a :
  levels_of s b = pre ++ ls ->
  computes (for_levels s (length ls) (length pre) beyond body a) b b
    (Ok (walk_levels beyond body (length pre) a ls)).
Proof.
  revert pre a. induction ls as [|l ls IH]; intros pre a Hls; simpl; [apply computes_ret|].
  assert (levels_of s b !! length pre = Some l) as Hl by (rewrite Hls; by apply list_lookup_middle).
  run. destruct (beyond (lprice l)); [apply computes_ret|]. run.
  eapply computes_bind; [by apply (computes_for_orders _ _ _ _ _ [] (orders l) a Hl)|]. simpl.
  destruct (walk_orders _ 0 a (orders l)) as [r|a']; [apply computes_ret|].
  specialize (IH (pre ++ [l]) a'). rewrite length_app, Nat.add_1_r in IH. apply IH. by rewrite <- app_assoc.
Qed.

Lemma computes_walk b s beyond (body : nat -> A -> nat -> Order -> R + A) a :
  computes (walk s beyond body a) b b (Ok (walk_levels beyond body 0 a (levels_of s b))).
Proof. unfold walk. run. by apply (computes_for_levels _ _ _ _ []). Qed.
End Walks.

(** The scans of OrderBook.v are walks. *)
Lemma walk_fill needed i j available os :
  walk_orders (fill_body needed i) j available os = fill_scan needed available os.
Proof.
  revert j available. induction os as [|o os IH]; intros j available; [done|]. simpl. unfold fill_body at 1.
  destruct (needed <=? _); [done|apply IH].
Qed.

Lemma walk_fill_levels inc i available ls :
  match walk_levels (beyond inc) (fill_body (remaining_quantity inc)) i available ls with
  | inl _ => true | inr _ => false end = fill_scan_levels inc (remaining_quantity inc) available ls.
Proof.
  revert i available. induction ls as [|l ls IH]; intros i available; [done|]. simpl. rewrite walk_fill.
  destruct (beyond inc (lprice l)); [done|]. destruct (fill_scan _ _ _); [done|apply IH].
Qed.

Lemma walk_self trader i j remaining os :
  walk_orders (self_body trader i) j remaining os = self_scan trader remaining os.
Proof.
  revert j remaining. induction os as [|o os IH]; intros j remaining; [done|]. simpl. unfold self_body at 1.
  destruct (remaining_quantity o =? 0); [apply IH|]. destruct (trader_id o =? trader); [done|]. cbv zeta.
  destruct (_ =? 0); [done|apply IH].
Qed.

Lemma walk_self_levels inc i remaining ls :
  match walk_levels (beyond inc) (self_body (trader_id inc)) i remaining ls with
  | inl answer => answer | inr _ => false end = self_scan_levels inc remaining ls.
Proof.
  revert i remaining. induction ls as [|l ls IH]; intros i remaining; [done|]. simpl. rewrite walk_self.
  destruct (beyond inc (lprice l)); [done|]. destruct (self_scan _ _ _); [done|apply IH].
Qed.

Lemma walk_id id i j os :
  walk_orders (id_body id i) j () os
  = match list_find (fun o => order_id o = id) os with
    | Some (k, _) => inl (i, (j + k)%nat)
    | None => inr ()
    end.
Proof.
  revert j. induction os as [|o os IH]; intros j; [done|]. simpl. unfold id_body at 1.
  destruct (Z.eqb_spec (order_id o) id) as [He|He].
  - rewrite decide_True by done. by rewrite Nat.add_0_r.
  - rewrite decide_False by done. rewrite IH. destruct (list_find _ os) as [[k o']|]; simpl; [|done].
    by rewrite Nat.add_succ_r.
Qed.

Lemma walk_id_levels id i ls :
  walk_levels (fun _ => false) (id_body id) i () ls
  = match find_order id ls with
    | Some (k, j) => inl ((i + k)%nat, j)
    | None => inr ()
    end.
Proof.
  revert i. induction ls as [|l ls IH]; intros i; [done|]. simpl. rewrite walk_id.
  destruct (list_find _ (orders l)) as [[j o]|]; [by rewrite Nat.add_0_r|].
  rewrite IH. destruct (find_order id ls) as [[k j]|]; simpl; [|done]. by rewrite Nat.add_succ_r.
Qed.

Lemma computes_canFullyFill b inc : computes (slot_canFullyFill inc) b b (Ok (canFullyFill b inc)).
Proof.
  unfold slot_canFullyFill. eapply computes_bind; [apply computes_walk|].
  rewrite walk_fill_levels. apply computes_ret.
Qed.

Lemma computes_wouldSelfTrade b inc : computes (slot_wouldSelfTrade inc) b b (Ok (wouldSelfTrade b inc)).
Proof.
  unfold slot_wouldSelfTrade. eapply computes_bind; [apply computes_walk|].
  rewrite walk_self_levels. apply computes_ret.
Qed.

Lemma computes_locate b id : computes (slot_locate id) b b (Ok (locate b id)).
Proof.
  unfold slot_locate, locate. eapply computes_bind; [apply computes_walk|]. rewrite walk_id_levels. simpl.
  destruct (find_order id (bids_ b)) as [[i j]|]; [apply computes_ret|].
  eapply computes_bind; [apply computes_walk|]. rewrite walk_id_levels. simpl.
  destruct (find_order id (asks_ b)) as [[i j]|]; apply computes_ret.
Qed.

(** ** Operations on one order *)

Lemma find_order_at id ls i j : find_order id ls = Some (i, j) -> exists o, order_at ls i j = Some o.
Proof.
  intros (ls1 & lp & os1 & o & os2 & ls2 & -> & -> & -> & _)%find_order_Some. exists o. apply order_at_mid.
Qed.

Lemma locate_at b id s i j : locate b id = Some (s, i, j) -> exists o, order_at (levels_of s b) i j = Some o.
Proof.
  unfold locate. destruct (find_order id (bids_ b)) as [[i1 j1]|] eqn:Hb.
  - intros [= <- <- <-]. by eapply find_order_at.
  - destruct (find_order id (asks_ b)) as [[i1 j1]|] eqn:Ha; [|done]. intros [= <- <- <-]. by eapply find_order_at.
Qed.

Lemma computes_order_at b s i j o : order_at (levels_of s b) i j = Some o -> computes (queue_at s i j) b b (Ok o).
Proof.
  unfold order_at. destruct (levels_of s b !! i) as [l|] eqn:Hl; [|done]. simpl. by apply computes_queue_at.
Qed.

Lemma computes_update b s i j o o' :
  order_at (levels_of s b) i j = Some o ->
  computes (queue_assign s i j o') b (set_levels s b (update_order (levels_of s b) i j o') 0) (Ok ()).
Proof.
  unfold order_at, update_order. destruct (levels_of s b !! i) as [l|] eqn:Hl; [|done]. simpl. intros Ho.
  apply computes_queue_assign; [done|by eapply lookup_lt_Some].
Qed.

Lemma order_at_update ls i j o o' : order_at ls i j = Some o -> order_at (update_order ls i j o') i j = Some o'.
Proof.
  unfold order_at, update_order. destruct (ls !! i) as [l|] eqn:Hl; [|done]. simpl. intros Ho.
  rewrite list_lookup_insert_eq by (by eapply lookup_lt_Some). simpl.
  apply list_lookup_insert_eq. by eapply lookup_lt_Some.
Qed.

Lemma erase_update ls i j o' : erase_order (update_order ls i j o') i j = erase_order ls i j.
Proof.
  unfold erase_order, update_order. destruct (ls !! i) as [l|] eqn:Hl; [|by rewrite Hl].
  rewrite list_lookup_insert_eq by (by eapply lookup_lt_Some). simpl. rewrite delete_insert_same.
  destruct (delete j (orders l)); [by rewrite delete_insert_same|by rewrite list_insert_insert_eq].
Qed.

#[export] Hint Resolve computes_order_at computes_update computes_locate computes_findLevel
  computes_canFullyFill computes_wouldSelfTrade : slots.

Lemma computes_cancelOrder b id : computes (slot_cancelOrder id) b (cancelOrder b id).1 (Ok (cancelOrder b id).2).
Proof.
  unfold slot_cancelOrder, cancelOrder. run. destruct (locate b id) as [[[s i] j]|] eqn:Hl; [|apply computes_ret].
  destruct (locate_at _ _ _ _ _ Hl) as [o Ho]. eapply computes_erase_then; [done|apply computes_ret].
Qed.

Lemma computes_getOrderById b id : computes (slot_getOrderById id) b b (Ok (getOrderById b id)).
Proof.
  unfold slot_getOrderById, getOrderById. run. destruct (locate b id) as [[[s i] j]|] eqn:Hl; [|apply computes_ret].
  destruct (locate_at _ _ _ _ _ Hl) as [o Ho]. simpl. rewrite Ho. run. apply computes_ret.
Qed.

Lemma computes_applyFill b id q : computes (slot_applyFill id q) b (applyFill b id q).1 (Ok (applyFill b id q).2).
Proof.
  unfold slot_applyFill, applyFill. destruct (q =? 0); [apply computes_ret|]. run.
  destruct (locate b id) as [[[s i] j]|] eqn:Hl; [|apply computes_ret].
  destruct (locate_at _ _ _ _ _ Hl) as [o Ho]. rewrite Ho. run.
  destruct (remaining_quantity o <? q); [apply computes_ret|]. cbv zeta. run.
  destruct (_ =? 0); simpl.
  - eapply computes_bind; [|apply computes_ret].
    pose proof (computes_erase (set_levels s b (update_order (levels_of s b) i j
      (set_remaining o (remaining_quantity o - q))) 0) s i j) as He.
    rewrite levels_of_set, set_levels_twice, erase_update in He. eapply He. by eapply order_at_update.
  - eapply computes_bind; apply computes_ret.
Qed.

(** ** Queries *)

Lemma computes_best b s :
  computes (slot_best s) b b (Ok (match levels_of s b with [] => d_zero | l :: _ => lprice l end)).
Proof.
  unfold slot_best. run. destruct (levels_of s b) as [|l ls] eqn:Hls; simpl; [apply computes_ret|].
  apply computes_level_price. by rewrite Hls.
Qed.

Lemma rep_sizes idss sb b s :
  rep_with idss sb b ->
  sum_list_with (fun l => size (level_orders l)) (slot_side s sb)
  = sum_list_with (fun l => length (orders l)) (levels_of s b).
Proof.
  intros Hr.
  assert ((fun l => size (level_orders l)) <$> slot_side s sb = (fun l => length (orders l)) <$> levels_of s b) as Heq.
  { apply list_eq. intros i. rewrite !list_lookup_fmap. destruct (levels_of s b !! i) as [l|] eqn:Hl.
    - destruct (rep_level _ _ _ _ _ _ Hr Hl) as (sl & ids & -> & _ & _ & _ & _ & Hq & _). simpl.
      by rewrite (proj2 (rep_length _ _ _ _ Hq)).
    - rewrite lookup_ge_None_2; [done|]. rewrite (rep_levels_length _ _ _ s Hr). by apply lookup_ge_None_1. }
  assert (forall {A} (f : A -> nat) l, sum_list_with f l = sum_list (f <$> l)) as Hsum
    by (intros A f l; induction l as [|x l IH]; [done|]; simpl; by rewrite IH).
  by rewrite (Hsum SlotLevel), (Hsum PriceLevel), Heq.
Qed.

Lemma computes_getOrderCount b : computes slot_getOrderCount b b (Ok (getOrderCount b)).
Proof.
  apply computes_read. intros idss sb Hr. unfold getOrderCount.
  pose proof (rep_sizes _ _ _ BUY Hr) as Hb. pose proof (rep_sizes _ _ _ SELL Hr) as Ha. simpl in Hb, Ha. by rewrite Hb, Ha.
Qed.

Lemma computes_setSTPPolicy b p : computes (slot_setSTPPolicy p) b (setSTPPolicy b p) (Ok ()).
Proof.
  intros sb [idss [Hs Hp Hn Hst Hc Ha]]. eexists. split; [reflexivity|]. exists idss. constructor; try done.
Qed.

(** ** Self-trade removal *)

Lemma stp_orders_nonneg oldest trader os : 0 <= (stp_orders oldest trader os).2.
Proof.
  induction os as [|o os IH]; simpl; [done|].
  destruct (stp_orders oldest trader os) as [kept n]. simpl in IH. destruct (_ && _), oldest; simpl; lia.
Qed.

Lemma put_same b s i l :
  levels_of s b !! i = Some l ->
  set_levels s b (<[i := Build_PriceLevel (lprice l) (orders l)]> (levels_of s b)) 0 = b.
Proof. intros Hl. rewrite list_insert_id, set_levels_same; [done|]. by destruct l. Qed.

Lemma insert_middle {A} (pre post : list A) x y : <[length pre := y]> (pre ++ x :: post) = pre ++ y :: post.
Proof. rewrite insert_app_r_alt, Nat.sub_diag by lia. done. Qed.

Lemma delete_at_middle {A} (pre post : list A) x : delete (length pre) (pre ++ x :: post) = pre ++ post.
Proof. by rewrite delete_middle. Qed.

Lemma computes_stp_orders oldest trader s i fuel os :
  forall b l pre removed, levels_of s b !! i = Some l -> orders l = pre ++ os -> (length os <= fuel)%nat ->
  computes (slot_stp_orders fuel oldest trader s i (length pre) removed) b
    (set_levels s b (<[i := Build_PriceLevel (lprice l) (pre ++ (stp_orders oldest trader os).1)]> (levels_of s b))
       (stp_orders oldest trader os).2)
    (Ok (removed || (0 <? (stp_orders oldest trader os).2))).
Proof.
  revert fuel. induction os as [|o os IH]; intros fuel b l pre removed Hl Hos Hf.
  - rewrite app_nil_r in Hos. subst pre.
    cbn [stp_orders fst snd]. rewrite app_nil_r, (put_same _ _ _ _ Hl).
    destruct fuel; simpl; run; rewrite decide_False, orb_false_r by lia; apply computes_ret.
  - destruct fuel as [|fuel]; simpl in *; [lia|]. run.
    rewrite Hos, decide_True by (rewrite length_app; simpl; lia).
    eapply computes_bind; [eapply computes_queue_at; [done|]; rewrite Hos; by apply list_lookup_middle|].
    pose proof (lookup_lt_Some _ _ _ Hl) as Hi. pose proof (stp_orders_nonneg oldest trader os) as Hnn.
    destruct (_ && _) eqn:Hown.
    + eapply computes_bind; [eapply computes_queue_erase_at; [done|]; rewrite Hos, length_app; simpl; lia|].
      rewrite Hos, delete_at_middle. destruct oldest; simpl; [rewrite orb_true_r; apply computes_ret|].
      pose proof (IH fuel _ _ pre true (level_put b s i (Build_PriceLevel (lprice l) (pre ++ os)) 1 Hi) eq_refl) as Hrec.
      rewrite levels_of_set, set_levels_twice, list_insert_insert_eq in Hrec. simpl in Hrec.
      destruct (stp_orders false trader os) as [kept n]. simpl in *.
      rewrite (proj2 (Z.ltb_lt 0 (n + 1))), orb_true_r, Z.add_comm by lia. apply Hrec. lia.
    + pose proof (IH fuel b l (pre ++ [o]) removed Hl) as Hrec.
      rewrite length_app, Nat.add_1_r, <- !app_assoc in Hrec. specialize (Hrec Hos ltac:(lia)).
      destruct (stp_orders oldest trader os) as [kept n]. exact Hrec.
Qed.

(** A level that lost all its orders goes. *)
Lemma drop_level b s pre l ls n :
  levels_of s b = pre ++ l :: ls ->
  computes (erase_level s (length pre))
    (set_levels s b (<[length pre := Build_PriceLevel (lprice l) []]> (levels_of s b)) n)
    (set_levels s b (pre ++ ls) n) (Ok ()).
Proof.
  intros Hls. assert (length pre < length (levels_of s b))%nat as Hi by (rewrite Hls, length_app; simpl; lia).
  pose proof (computes_erase_level _ _ _ _ (level_put b s _ (Build_PriceLevel (lprice l) []) n Hi) eq_refl) as He.
  rewrite set_levels_twice, levels_of_set, delete_insert_same, Hls, delete_at_middle, Z.add_0_r in He.
  by rewrite Hls.
Qed.

Lemma computes_stp_levels oldest inc s fuel ls :
  forall b pre removed, levels_of s b = pre ++ ls -> (length ls <= fuel)%nat ->
  computes (slot_stp_levels fuel oldest inc s (length pre) removed) b
    (set_levels s b (pre ++ (stp_levels oldest inc removed ls).1) (stp_levels oldest inc removed ls).2) (Ok ()).
Proof.
  revert fuel. induction ls as [|l ls IH]; intros fuel b pre removed Hls Hf.
  - replace (set_levels _ _ _ _) with b by (simpl; by rewrite <- Hls, set_levels_same).
    rewrite app_nil_r in Hls. destruct fuel; simpl; run; rewrite Hls, decide_False by lia; apply computes_ret.
  - destruct fuel as [|fuel]; simpl in *; [lia|].
    assert (levels_of s b !! length pre = Some l) as Hl by (rewrite Hls; by apply list_lookup_middle).
    pose proof (lookup_lt_Some _ _ _ Hl) as Hi. run. rewrite decide_True by done. run.
    destruct (beyond inc (lprice l)); [simpl; rewrite <- Hls, set_levels_same; apply computes_ret|]. run.
    eapply computes_bind; [by apply (computes_stp_orders oldest (trader_id inc) s _ _ (orders l) b l [])|]. simpl.
    destruct (stp_orders oldest (trader_id inc) (orders l)) as [kept n]. simpl.
    eapply computes_bind; [eapply computes_queue_empty, level_put, Hi|]. simpl.
    set (removed' := removed || (0 <? n)). destruct kept as [|o kept]; simpl.
    + set (b2 := set_levels s b (pre ++ ls) n).
      eapply computes_bind; [eapply computes_bind; [by apply (drop_level b s pre l ls n)|apply computes_ret]|].
      pose proof (IH fuel b2 pre removed' (levels_of_set _ _ _ _) ltac:(lia)) as Hrec.
      destruct (oldest && removed'); simpl; [rewrite Z.add_0_r; apply computes_ret|].
      destruct (stp_levels oldest inc removed' ls) as [ls' m]. simpl in *.
      unfold b2 in Hrec. by rewrite set_levels_twice in Hrec.
    + set (kl := Build_PriceLevel (lprice l) (o :: kept)). eapply computes_bind; [apply computes_ret|].
      rewrite Hls, insert_middle. set (b2 := set_levels s b (pre ++ kl :: ls) n).
      pose proof (IH fuel b2 (pre ++ [kl]) removed') as Hrec.
      rewrite length_app, Nat.add_1_r, <- !app_assoc in Hrec. specialize (Hrec (levels_of_set _ _ _ _) ltac:(lia)).
      destruct (oldest && removed'); simpl; [rewrite Z.add_0_r; apply computes_ret|].
      destruct (stp_levels oldest inc removed' ls) as [ls' m]. simpl in *.
      unfold b2 in Hrec. by rewrite set_levels_twice in Hrec.
Qed.

Lemma computes_stp_phase b inc : computes (slot_stp_phase inc) b (stp_phase b inc).1 (Ok (stp_phase b inc).2).
Proof.
  unfold slot_stp_phase, stp_phase. cbv zeta. set (s := opposite (side inc)).
  eapply computes_bind; [apply computes_read; intros idss sb Hr; by apply (rep_policy idss)|].
  assert (forall oldest (stop : bool),
    computes (n ← level_count s; slot_stp_levels n oldest inc s 0 false;; mret stop) b
      (set_levels s b (stp_levels oldest inc false (levels_of s b)).1 (stp_levels oldest inc false (levels_of s b)).2)
      (Ok stop)) as Hrm.
  { intros oldest stop. run. eapply computes_bind; [|apply computes_ret].
    by apply (computes_stp_levels oldest inc s _ (levels_of s b) b []). }
  destruct (stp_policy_ b) eqn:Hpol; simpl; (eapply computes_bind; [apply computes_wouldSelfTrade || apply computes_ret|]);
    [apply computes_ret|..]; (destruct (wouldSelfTrade b inc); [|apply computes_ret]).
  - apply computes_ret.
  - specialize (Hrm true false). by destruct (stp_levels true inc false (levels_of s b)).
  - specialize (Hrm false true). by destruct (stp_levels false inc false (levels_of s b)).
Qed.

(** ** The matching loop *)

Lemma set_levels_next s b ls n t :
  set_levels s (with_next_trade_id b t) ls n = with_next_trade_id (set_levels s b ls n) t.
Proof. by destruct s. Qed.

Lemma levels_of_next s b t : levels_of s (with_next_trade_id b t) = levels_of s b.
Proof. by destruct s. Qed.

Lemma next_set_levels s b ls n : next_trade_id_ (set_levels s b ls n) = next_trade_id_ b.
Proof. by destruct s. Qed.

Lemma with_next_twice b t1 t2 : with_next_trade_id (with_next_trade_id b t1) t2 = with_next_trade_id b t2.
Proof. reflexivity. Qed.

#[local] Hint Rewrite set_levels_twice set_levels_next levels_of_next levels_of_set next_set_levels
  with_next_twice Z.add_0_r Z.add_0_l : book.

Lemma computes_take_trade_id b :
  computes take_trade_id b (with_next_trade_id b (u64 (next_trade_id_ b + 1))) (Ok (next_trade_id_ b)).
Proof.
  intros sb [idss [Hs Hp Hn Hst Hc Ha]]. rewrite <- Hn. eexists. split; [reflexivity|].
  exists idss. by constructor.
Qed.

(** The statements on the best level. *)
Section Best.
Context (b : OrderBook) (s : OrderSide) (l : PriceLevel) (ls : list PriceLevel).
Context (Hls : levels_of s b = l :: ls).

Lemma best_level : levels_of s b !! 0%nat = Some l.
Proof using Hls. by rewrite Hls. Qed.

Lemma computes_pop o os :
  orders l = o :: os ->
  computes (queue_pop_front s 0) b (set_levels s b (Build_PriceLevel (lprice l) os :: ls) 1) (Ok ()).
Proof using Hls.
  intros Ho. pose proof (computes_queue_pop_front b s 0 l best_level) as Hp. rewrite Ho, Hls in Hp.
  simpl length in Hp. simpl tail in Hp. replace (Z.of_nat (S (length os)) - Z.of_nat (length os)) with 1 in Hp by lia.
  exact Hp.
Qed.

Lemma computes_assign_best o os o' :
  orders l = o :: os ->
  computes (queue_assign s 0 0 o') b (set_levels s b (Build_PriceLevel (lprice l) (o' :: os) :: ls) 0) (Ok ()).
Proof using Hls.
  intros Ho. pose proof (computes_queue_assign b s 0 l best_level 0 o') as Ha. rewrite Ho, Hls in Ha.
  apply Ha. simpl. lia.
Qed.

Lemma computes_erase_best :
  orders l = [] -> computes (erase_level s 0) b (set_levels s b ls 0) (Ok ()).
Proof using Hls. intros Ho. pose proof (computes_erase_level b s 0 l best_level Ho) as He. by rewrite Hls in He. Qed.

Lemma computes_drop_best :
  computes (drop_if_empty s 0) b (set_levels s b (match orders l with [] => ls | _ => l :: ls end) 0) (Ok ()).
Proof using Hls. pose proof (computes_drop_if_empty b s 0 l best_level) as Hd. by rewrite Hls in Hd. Qed.

End Best.

Lemma computes_pop_filled s fuel os :
  forall b lp ls, levels_of s b = Build_PriceLevel lp os :: ls -> (length os <= fuel)%nat ->
  computes (slot_pop_filled fuel s) b
    (set_levels s b (Build_PriceLevel lp (pop_filled os).1 :: ls) (pop_filled os).2) (Ok ()).
Proof.
  revert fuel. induction os as [|o os IH]; intros fuel b lp ls Hls Hf; pose proof (best_level _ _ _ _ Hls) as Hl.
  - destruct fuel; simpl; run; rewrite <- Hls, set_levels_same; apply computes_ret.
  - destruct fuel as [|fuel]; simpl in *; [lia|]. run. simpl. run.
    destruct (remaining_quantity o =? 0); simpl; [|rewrite <- Hls, set_levels_same; apply computes_ret].
    eapply computes_bind; [by eapply computes_pop|].
    pose proof (IH fuel _ lp ls (levels_of_set s b _ 1) ltac:(lia)) as Hrec. rewrite set_levels_twice in Hrec.
    destruct (pop_filled os) as [kept n]. simpl in *. by rewrite Z.add_comm.
Qed.

(** What a turn does to the book, beside the levels and the counter of the state of OrderBook.v. *)
Definition turn_book (s : OrderSide) (b : OrderBook) (st st' : MatchState) : OrderBook :=
  with_next_trade_id (set_levels s b (ms_levels st') (ms_freed st' - ms_freed st)) (ms_next_trade_id st').

Definition turn_of (step : loop_step) : MatchState * turn :=
  match step with
  | Continue st => (st, Again (ms_incoming st) (ms_trades st))
  | Break st => (st, Leave (ms_incoming st) (ms_trades st))
  | Raise st e => (st, Escape (ms_incoming st) e)
  end.

Lemma computes_trade clock s b inc ts lp r os ls :
  levels_of s b = Build_PriceLevel lp (r :: os) :: ls ->
  let qty := Z.min (remaining_quantity inc) (remaining_quantity r) in
  let inc' := set_remaining inc (remaining_quantity inc - qty) in
  let r' := set_remaining r (remaining_quantity r - qty) in
  let tid := next_trade_id_ b in
  let after ls n := with_next_trade_id (set_levels s b ls n) (u64 (tid + 1)) in
  match make_trade inc r tid lp qty (clock tid) with
  | Throw e =>
      computes (slot_trade clock s inc ts) b (after (Build_PriceLevel lp (r' :: os) :: ls) 0) (Ok (Escape inc' e))
  | Ok t =>
      computes (slot_trade clock s inc ts) b
        (if remaining_quantity r' =? 0
         then after match os with [] => ls | _ => Build_PriceLevel lp os :: ls end 1
         else after (Build_PriceLevel lp (r' :: os) :: ls) 0)
        (Ok (Again inc' (ts ++ [t])))
  end.
Proof.
  intros Hls. pose proof (best_level _ _ _ _ Hls) as Hl. cbv zeta.
  set (r' := set_remaining r _).
  assert (forall (k : Z -> M turn) b' a,
    computes (k (next_trade_id_ b))
      (with_next_trade_id (set_levels s b (Build_PriceLevel lp (r' :: os) :: ls) 0) (u64 (next_trade_id_ b + 1))) b' a ->
    computes (queue_assign s 0 0 r';; tid ← take_trade_id; k tid) b b' a) as Hupd.
  { intros k b' a Hk. eapply computes_bind; [by eapply computes_assign_best|].
    eapply computes_bind; [apply computes_take_trade_id|]. by rewrite next_set_levels. }
  destruct (make_trade _ _ _ _ _ _) as [t|e] eqn:Ht; unfold slot_trade; cbv zeta; run; run; apply Hupd;
    cbn [lprice]; rewrite Ht; [|apply computes_ret].
  eapply computes_bind; [|apply computes_ret]. simpl. destruct (_ =? 0); [|apply computes_ret].
  eapply computes_bind; [by eapply computes_pop; [rewrite levels_of_next, levels_of_set|]|].
  autorewrite with book.
  pose proof (computes_drop_best (with_next_trade_id (set_levels s b (Build_PriceLevel lp os :: ls) 1)
    (u64 (next_trade_id_ b + 1))) s (Build_PriceLevel lp os) ls) as Hd.
  autorewrite with book in Hd. by apply Hd.
Qed.

Lemma turn_book_same s b st :
  levels_of s b = ms_levels st -> next_trade_id_ b = ms_next_trade_id st -> turn_book s b st st = b.
Proof.
  intros Hls Hn. unfold turn_book. rewrite <- Hls, <- Hn, Z.sub_diag, set_levels_same. by destruct b.
Qed.

Lemma computes_match_iter clock s b st :
  levels_of s b = ms_levels st -> next_trade_id_ b = ms_next_trade_id st ->
  let '(st', t) := turn_of (match_iter clock st) in
  computes (slot_match_iter clock s (ms_incoming st) (ms_trades st)) b (turn_book s b st st') (Ok t).
Proof.
  intros Hls Hn. pose proof (turn_book_same s b st Hls Hn) as Hsame. unfold match_iter, slot_match_iter.
  destruct (_ <=? 0); [simpl; rewrite Hsame; apply computes_ret|].
  destruct (ms_levels st) as [|l ls] eqn:Hms; cbn [turn_of].
  { rewrite Hsame. run. rewrite decide_True by (by rewrite Hls). apply computes_ret. }
  pose proof (best_level _ _ _ _ Hls) as Hl.
  destruct (beyond (ms_incoming st) (lprice l)) eqn:Hb; cbn [turn_of].
  { rewrite Hsame. run. rewrite decide_False by (by rewrite Hls). run. rewrite Hb. apply computes_ret. }
  assert (levels_of s b = Build_PriceLevel (lprice l) (orders l) :: ls) as Hls' by (rewrite Hls; by destruct l).
  pose proof (computes_pop_filled s (length (orders l)) (orders l) b (lprice l) ls Hls' (Nat.le_refl _)) as Hpop.
  destruct (pop_filled (orders l)) as [os n]. simpl in Hpop.
  set (b1 := set_levels s b (Build_PriceLevel (lprice l) os :: ls) n) in *.
  pose proof (levels_of_set s b (Build_PriceLevel (lprice l) os :: ls) n) as Hls1. fold b1 in Hls1.
  assert (forall (k : bool -> M turn) b' r, computes (k (bool_decide (os = []))) b1 b' r ->
    computes (n ← level_count s;
      if decide (n = 0%nat) then mret (Leave (ms_incoming st) (ms_trades st))
      else lp ← level_price_at s 0;
        if beyond (ms_incoming st) lp then mret (Leave (ms_incoming st) (ms_trades st))
        else m ← queue_size s 0; slot_pop_filled m s;; e ← queue_empty s 0; k e) b b' r) as Hhead.
  { intros k b' r Hk. run. rewrite decide_False by (by rewrite Hls). run. rewrite Hb. run.
    eapply computes_bind; [exact Hpop|]. eapply computes_bind; [|exact Hk].
    by apply (computes_queue_empty b1 s 0 _ (best_level _ _ _ _ Hls1)). }
  destruct os as [|r os]; cbn [turn_of].
  - apply Hhead. simpl. eapply computes_bind; [by eapply computes_erase_best|]. unfold turn_book, b1. simpl.
    rewrite set_levels_twice, <- Hn. replace (ms_freed st + n - ms_freed st) with (n + 0) by lia.
    destruct s; apply computes_ret.
  - pose proof (computes_trade clock s b1 (ms_incoming st) (ms_trades st) _ _ _ _ Hls1) as Htr. cbv zeta in Htr.
    replace (next_trade_id_ b1) with (ms_next_trade_id st) in Htr by (by rewrite <- Hn; destruct s).
    assert (forall ls' k t, with_next_trade_id (set_levels s b1 ls' k) t = turn_book s b st
      (Build_MatchState ls' (ms_incoming st) t (ms_trades st) (ms_freed st + n + k))) as Hb1.
    { intros. unfold turn_book, b1. simpl. rewrite set_levels_twice. do 2 f_equal. lia. }
    destruct (make_trade _ _ _ _ _ _) as [t|e]; [|apply Hhead; simpl; rewrite Hb1, Z.add_0_r in Htr; exact Htr].
    destruct (_ =? 0); cbn [turn_of]; apply Hhead; simpl; rewrite Hb1, ?Z.add_0_r in Htr; exact Htr.
Qed.

(** The loop, on a fuel above the measure. *)
Lemma computes_match_loop clock s fuel st :
  forall b, levels_of s b = ms_levels st -> next_trade_id_ b = ms_next_trade_id st -> (match_measure st < fuel)%nat ->
  match match_loop fuel clock st with
  | Finished st' => computes (slot_match_loop fuel clock s (ms_incoming st) (ms_trades st)) b
      (turn_book s b st st') (Ok (ms_incoming st', Ok (ms_trades st')))
  | Raised st' e => computes (slot_match_loop fuel clock s (ms_incoming st) (ms_trades st)) b
      (turn_book s b st st') (Ok (ms_incoming st', Throw e))
  end.
Proof.
  revert st. induction fuel as [|fuel IH]; intros st b Hls Hn Hf; [lia|]. simpl.
  pose proof (computes_match_iter clock s b st Hls Hn) as Hit.
  destruct (match_iter clock st) as [st'|st'|st' e] eqn:Hstep; simpl in Hit;
    [|eapply computes_bind; [exact Hit|apply computes_ret]..].
  apply match_iter_decreases in Hstep.
  assert (levels_of s (turn_book s b st st') = ms_levels st') as Hls'
    by (unfold turn_book; by rewrite levels_of_next, levels_of_set).
  specialize (IH st' _ Hls' eq_refl ltac:(lia)).
  assert (forall st'', turn_book s (turn_book s b st st') st' st'' = turn_book s b st st'') as Htwice.
  { intros st''. unfold turn_book. rewrite set_levels_next, with_next_twice, set_levels_twice. do 2 f_equal. lia. }
  destruct (match_loop fuel clock st') as [st''|st'' e]; rewrite Htwice in IH;
    (eapply computes_bind; [exact Hit|exact IH]).
Qed.

(** ** matchOrder *)

Lemma computes_match_fuel b s inc :
  computes (match_fuel s inc) b b
    (Ok (S (match_measure (Build_MatchState (levels_of s b) inc (next_trade_id_ b) [] 0)))).
Proof.
  apply computes_read. intros idss sb Hr. rewrite (rep_levels_length _ _ _ s Hr), (rep_sizes _ _ _ s Hr).
  by rewrite order_count_flat.
Qed.

Lemma computes_match_phase clock b inc :
  computes (fuel ← match_fuel (opposite (side inc)) inc;
            '(inc, r) ← slot_match_loop fuel clock (opposite (side inc)) inc [];
            match r with
            | Throw e => mret (inc, Throw e)
            | Ok ts => (if rests inc then slot_addOrder inc else mret false);; mret (inc, Ok ts)
            end) b
    (mo_book (match_phase clock b inc)) (Ok (mo_incoming (match_phase clock b inc), mo_result (match_phase clock b inc))).
Proof.
  eapply computes_bind; [apply computes_match_fuel|]. unfold match_phase. fold (match_start b inc).
  pose proof (computes_match_loop clock (opposite (side inc)) (S (match_measure (match_start b inc))) (match_start b inc)
    b eq_refl eq_refl (Nat.lt_succ_diag_r _)) as Hloop.
  cbv zeta. destruct (match_loop _ clock (match_start b inc)) as [st|st e];
    (eapply computes_bind; [exact Hloop|]); unfold turn_book; simpl; rewrite Z.sub_0_r; fold (match_book b inc st).
  - destruct (rests (ms_incoming st)); [eapply computes_bind; [apply computes_addOrder|apply computes_ret]|].
    eapply computes_bind; apply computes_ret.
  - apply computes_ret.
Qed.

Lemma computes_matchOrder clock b inc :
  computes (slot_matchOrder clock inc) b (mo_book (matchOrder clock b inc))
    (Ok (mo_incoming (matchOrder clock b inc), mo_result (matchOrder clock b inc))).
Proof.
  unfold slot_matchOrder, matchOrder. cbv zeta.
  destruct (bool_decide (type inc = FOK)); [run|eapply computes_bind; [apply computes_ret|]]; simpl.
  1: destruct (canFullyFill b inc); simpl; [|apply computes_ret].
  all: eapply computes_bind; [apply computes_stp_phase|]; destruct (stp_phase b inc) as [b' []];
    [apply computes_ret|apply computes_match_phase].
Qed.

(** ** replaceOrder *)

Lemma computes_replaceInLevel clock now b s i j old id p q prio :
  order_at (levels_of s b) i j = Some old ->
  let out := replaceInLevel clock now b s i j old id p q prio in
  computes (slot_replaceInLevel clock now s i j id p q prio) b out.1 (Ok out.2).
Proof.
  intros Ho. unfold slot_replaceInLevel, replaceInLevel. cbv zeta. run.
  destruct (_ && _); [apply computes_ret|]. destruct (q =? 0).
  { eapply computes_erase_then; [done|apply computes_ret]. }
  destruct (_ && _); [run; apply computes_ret|].
  eapply computes_erase_then; [done|]. destruct (_ =? 0); [apply computes_ret|].
  eapply computes_bind; [apply computes_matchOrder|apply computes_ret].
Qed.

Lemma computes_replaceOrder clock now b id p q prio :
  let out := replaceOrder clock now b id p q prio in
  computes (slot_replaceOrder clock now id p q prio) b out.1 (Ok out.2).
Proof.
  unfold slot_replaceOrder, replaceOrder. destruct (_ && _); [apply computes_ret|]. run.
  destruct (locate b id) as [[[s i] j]|] eqn:Hl; [|apply computes_ret].
  destruct (locate_at _ _ _ _ _ Hl) as [o Ho]. rewrite Ho. by apply computes_replaceInLevel.
Qed.

(** ** Runs *)

#[export] Hint Resolve computes_addOrder computes_matchOrder computes_cancelOrder computes_replaceOrder
  computes_applyFill computes_getOrderById computes_best computes_getOrderCount computes_setSTPPolicy : slots.

Lemma computes_call clock b c :
  computes (slot_call clock c) b (list_call clock b c).1 (Ok (list_call clock b c).2).
Proof.
  destruct c; simpl; rewrite ?fst_prod_map, ?snd_prod_map; try (run; apply computes_ret).
  eapply computes_bind; [apply computes_read; intros idss sb Hr; by apply (rep_policy idss)|apply computes_ret].
Qed.

Lemma computes_calls clock cs b :
  computes (slot_calls clock cs) b (list_calls clock b cs).1 (Ok (list_calls clock b cs).2).
Proof.
  revert b. induction cs as [|c cs IH]; intros b; simpl; [apply computes_ret|].
  eapply computes_bind; [apply computes_call|]. destruct (list_call clock b c) as [b1 a]. simpl.
  eapply computes_bind; [apply IH|]. destruct (list_calls clock b1 cs). apply computes_ret.
Qed.

(** The view of a book is the book it represents. *)
Lemma view_level_spec p sl l ids :
  level_price sl = lprice l -> queue_rep (level_orders sl) p ids (orders l) -> view_level p sl = l.
Proof.
  intros Hp Hq. unfold view_level. rewrite Hp. destruct l as [lp os]. simpl in *. f_equal.
  rewrite <- (proj2 (rep_length _ _ _ _ Hq)).
  assert (forall pre os', os = pre ++ os' ->
    omap (at_ (level_orders sl) p) (seq (length pre) (length os')) = os') as Hall; [|by apply (Hall [] os)].
  intros pre os'. revert pre. induction os' as [|o os' IH]; intros pre Hos; simpl; [done|].
  rewrite (at_spec _ _ _ _ _ Hq), Hos, list_lookup_middle by done. f_equal.
  specialize (IH (pre ++ [o])). rewrite length_app, Nat.add_1_r in IH. apply IH. by rewrite <- app_assoc.
Qed.

Lemma rep_view sb b : book_rep sb b -> book_view sb = b.
Proof.
  intros [idss Hr].
  assert (forall s, view_level (order_pool_ sb) <$> slot_side s sb = levels_of s b) as Hside.
  { intros s. apply list_eq. intros i. rewrite list_lookup_fmap. destruct (levels_of s b !! i) as [l|] eqn:Hl.
    - destruct (rep_level _ _ _ _ _ _ Hr Hl) as (sl & ids & -> & Hp & _ & _ & _ & Hq & _). simpl.
      f_equal. by eapply view_level_spec.
    - rewrite lookup_ge_None_2; [done|]. rewrite (rep_levels_length _ _ _ s Hr). by apply lookup_ge_None_1. }
  unfold book_view. rewrite (Hside BUY : _ <$> slot_bids sb = _), (Hside SELL : _ <$> slot_asks sb = _).
  rewrite (rep_next _ _ _ Hr), (rep_policy _ _ _ Hr), <- (rep_capacity _ _ _ Hr), <- (rep_free _ _ _ Hr). by destruct b.
Qed.

Lemma rep_new cap now : book_rep (SlotBook_new cap now) (OrderBook_new (Z.of_nat cap)).
Proof.
  exists []. constructor; simpl.
  - exact (shared_fresh 0 cap now).
  - by intros [].
  - done.
  - done.
  - unfold capacity. simpl. by rewrite length_replicate.
  - unfold order_slots. simpl. lia.
Qed.

(** C19: the storage of the book is invisible. Whatever is called on a new [OrderBook] whose
    levels are slot queues over a pool of [cap] slots, every call returns: no loop runs on, no
    index or [assert] fails, no [deallocate] finds a slot that is not in use. It answers exactly
    what the book of lists answers (pool exhaustion and exceptions of trades included), and what
    can be seen of the stored book afterwards is the book of lists. *)
Theorem slot_book_refines (clock : Z -> Z) (cap : nat) (now : Z) (cs : list book_call) :
  exists sb, slot_calls clock cs (SlotBook_new cap now)
    = Some (sb, Ok (list_calls clock (OrderBook_new (Z.of_nat cap)) cs).2) /\
  book_view sb = (list_calls clock (OrderBook_new (Z.of_nat cap)) cs).1.
Proof.
  destruct (computes_calls clock cs _ _ (rep_new cap now)) as (sb & Hrun & Hrep).
  exists sb. split; [exact Hrun|by apply rep_view].
Qed.

(** Two orders fill the pool; a third is refused; one goes in part, the other altogether, and the
    slot and the level are used again. *)
Example slot_book_run :
  let o id s qty := Build_Order id id 1 s LIMIT (d_of_Z 100) qty qty 0 0 id in
  (fun out => out.2) <$> slot_calls (fun _ => 7)
    [CallMatch (o 1 SELL 5); CallMatch (o 2 SELL 4); CallAdd (o 3 SELL 1); CallMatch (o 4 BUY 7);
     CallFill 2 2; CallCount; CallAdd (o 5 SELL 6); CallBestAsk] (SlotBook_new 2 0)
  = Some (Ok
    [AnswerMatch (o 1 SELL 5) (Ok []); AnswerMatch (o 2 SELL 4) (Ok []); AnswerBool false;
     AnswerMatch (set_remaining (o 4 BUY 7) 0)
       (Ok [Build_Trade 1 4 1 4 1 (d_of_Z 100) 5 7; Build_Trade 2 4 2 4 2 (d_of_Z 100) 2 7]);
     AnswerBool true; AnswerCount 0; AnswerBool true; AnswerPrice (d_of_Z 100)]).
Proof. vm_compute. reflexivity. Qed.
