(* ===== verification/SymbolTable.v ===== *)
(** * SymbolTable: symbols, their ids and their shards

    The class [SymbolTable] of include/SymbolId.h. *)

From Stdlib Require Import ZArith Lia Bool String.
From stdpp Require Import base tactics decidable numbers option strings gmap list.
From S2P Require Import Prelude.

Local Open Scope Z_scope.

Record SymbolTable : Type := Build_SymbolTable {
  num_shards_ : Z;
  frozen_ : bool;
  symbols_ : list string;
  symbol_to_id_ : gmap string Z;
  shard_assignment_ : list Z
}.

Definition SymbolTable_new (num_shards : Z) : result SymbolTable :=
  if num_shards =? 0 then Throw (InvalidArgument "num_shards must be > 0")
  else Ok (Build_SymbolTable num_shards false [] ∅ []).

(** [registerSymbol]; the id is the size of the table cast to [uint32_t]. *)
Definition registerSymbol (t : SymbolTable) (symbol : string) : SymbolTable * result Z :=
  if frozen_ t then
    match symbol_to_id_ t !! symbol with
    | Some id => (t, Ok id)
    | None => (t, Throw (RuntimeError "SymbolTable frozen: cannot register new symbol"))
    end
  else
    match symbol_to_id_ t !! symbol with
    | Some id => (t, Ok id)
    | None =>
        let id := u32 (Z.of_nat (length (symbols_ t))) in
        (Build_SymbolTable (num_shards_ t) (frozen_ t) (symbols_ t ++ [symbol])
           (<[symbol := id]> (symbol_to_id_ t)) (shard_assignment_ t ++ [id mod num_shards_ t]),
         Ok id)
    end.

Definition freeze (t : SymbolTable) : SymbolTable :=
  Build_SymbolTable (num_shards_ t) true (symbols_ t) (symbol_to_id_ t) (shard_assignment_ t).

(** [static_cast<size_t>(-1)]. *)
Definition no_shard : Z := UINT64_MAX.

Definition getShardIndex (t : SymbolTable) (id : Z) : Z :=
  if Z.of_nat (length (shard_assignment_ t)) <=? id then no_shard
  else nth (Z.to_nat id) (shard_assignment_ t) 0.

Definition getSymbol (t : SymbolTable) (id : Z) : string :=
  if Z.of_nat (length (symbols_ t)) <=? id then "UNKNOWN"%string
  else nth (Z.to_nat id) (symbols_ t) EmptyString.

Definition table_size (t : SymbolTable) : Z := Z.of_nat (length (symbols_ t)).

(** ** The invariant *)

Definition table_wf (t : SymbolTable) : Prop :=
  0 < num_shards_ t /\ table_size t <= UINT32_MAX + 1 /\
  shard_assignment_ t = (fun i => Z.of_nat i mod num_shards_ t) <$> seq 0 (length (symbols_ t)) /\
  forall s id, symbol_to_id_ t !! s = Some id <-> 0 <= id /\ symbols_ t !! Z.to_nat id = Some s.

Lemma SymbolTable_new_wf n t : 0 < n -> SymbolTable_new n = Ok t -> table_wf t /\ num_shards_ t = n.
Proof.
  unfold SymbolTable_new. intros Hn. destruct (Z.eqb_spec n 0); [lia|]. intros [= <-].
  split; [|done]. unfold table_wf, table_size. simpl. unfold_int. split_and!; try done.
  intros s id. rewrite lookup_empty, lookup_nil. split; [done|by intros [_ ?]].
Qed.

Lemma table_room t s :
  table_wf t -> table_size t <= UINT32_MAX -> symbol_to_id_ t !! s = None ->
  table_wf (Build_SymbolTable (num_shards_ t) (frozen_ t) (symbols_ t ++ [s])
    (<[s := table_size t]> (symbol_to_id_ t)) (shard_assignment_ t ++ [table_size t mod num_shards_ t])).
Proof.
  intros (Hn & Hsz & Hsh & Hm) Hroom Hs. unfold table_wf, table_size in *. simpl.
  rewrite length_app. split_and!; [done|simpl; lia| |].
  - simpl. rewrite Nat.add_1_r, seq_S, fmap_app, Hsh. done.
  - intros s' id. destruct (decide (s' = s)) as [->|Hne].
    + rewrite lookup_insert_eq. split.
      * intros [= <-]. split; [lia|]. rewrite Nat2Z.id. by apply list_lookup_middle.
      * intros [H0 Hl]. f_equal. apply lookup_app_Some in Hl as [Hl|[Hge Hl]].
        -- assert (symbol_to_id_ t !! s = Some id) by (by apply Hm). congruence.
        -- apply list_lookup_singleton_Some in Hl as [? _]. lia.
    + rewrite lookup_insert_ne by done. rewrite Hm. split; intros [H0 Hl]; (split; [done|]).
      * by apply lookup_app_l_Some.
      * apply lookup_app_Some in Hl as [Hl|[_ Hl]]; [done|].
        apply list_lookup_singleton_Some in Hl as [_ ->]. done.
Qed.

(** [registerSymbol] answers the position of the symbol, and only ever appends. *)
Lemma registerSymbol_spec t s t' r :
  table_wf t -> table_size t <= UINT32_MAX -> registerSymbol t s = (t', r) ->
  table_wf t' /\ num_shards_ t' = num_shards_ t /\ frozen_ t' = frozen_ t /\
  symbols_ t `prefix_of` symbols_ t' /\ (frozen_ t = true -> t' = t) /\
  table_size t' <= table_size t + 1 /\
  match r with
  | Ok id => 0 <= id /\ symbols_ t' !! Z.to_nat id = Some s
  | Throw _ => t' = t /\ frozen_ t = true /\ s ∉ symbols_ t
  end.
Proof.
  intros Hwf Hsz. pose proof Hwf as (Hn & _ & Hsh & Hm). unfold registerSymbol.
  assert (u32 (Z.of_nat (length (symbols_ t))) = table_size t) as Hid
    by (unfold table_size in *; apply u32_small; unfold_int; lia).
  destruct (symbol_to_id_ t !! s) as [id|] eqn:Hs.
  - assert ((if frozen_ t then (t, Ok id) else (t, Ok id)) = (t, Ok id)) as -> by (by destruct (frozen_ t)).
    intros [= <- <-]. apply Hm in Hs as [H0 Hs]. split_and!; try done; lia.
  - destruct (frozen_ t) eqn:Hf; intros [= <- <-].
    + split_and!; try done; [lia|]. intros (i & Hi)%list_elem_of_lookup.
      assert (symbol_to_id_ t !! s = Some (Z.of_nat i)) by (apply Hm; rewrite Nat2Z.id; split; [lia|done]).
      congruence.
    + rewrite Hid. rewrite <- Hf. split; [by apply table_room|]. unfold table_size. simpl.
      rewrite length_app. simpl. split_and!; try done; [by eexists|congruence|lia|lia|].
      rewrite Nat2Z.id. by apply list_lookup_middle.
Qed.

(** ** Registrations and queries *)

Fixpoint registerAll (t : SymbolTable) (ss : list string) : SymbolTable * list (result Z) :=
  match ss with
  | [] => (t, [])
  | s :: ss =>
      let '(t, r) := registerSymbol t s in
      let '(t, rs) := registerAll t ss in (t, r :: rs)
  end.

Lemma getSymbol_at t id s :
  0 <= id -> symbols_ t !! Z.to_nat id = Some s -> getSymbol t id = s.
Proof.
  intros Hid Hs. unfold getSymbol. pose proof (lookup_lt_Some _ _ _ Hs).
  rewrite (proj2 (Z.leb_gt _ _)) by lia. by rewrite nth_lookup, Hs.
Qed.

Lemma getShardIndex_at t id :
  table_wf t -> 0 <= id -> getShardIndex t id = if id <? table_size t then id mod num_shards_ t else no_shard.
Proof.
  intros (Hn & _ & Hsh & _) Hid. unfold getShardIndex, table_size.
  rewrite Hsh, length_fmap, length_seq.
  destruct (Z.ltb_spec id (Z.of_nat (length (symbols_ t)))).
  - rewrite (proj2 (Z.leb_gt _ _)) by lia. rewrite nth_lookup, list_lookup_fmap, lookup_seq_lt by lia.
    simpl. by rewrite Z2Nat.id by lia.
  - by rewrite (proj2 (Z.leb_le _ _)) by lia.
Qed.

Lemma registerAll_spec t ss :
  table_wf t -> frozen_ t = false -> table_size t + Z.of_nat (length ss) <= UINT32_MAX + 1 ->
  let '(t', rs) := registerAll t ss in
  table_wf t' /\ frozen_ t' = false /\ num_shards_ t' = num_shards_ t /\
  symbols_ t `prefix_of` symbols_ t' /\
  Forall2 (fun s r => exists id, r = Ok id /\ 0 <= id /\ symbols_ t' !! Z.to_nat id = Some s) ss rs.
Proof.
  revert t. induction ss as [|s ss IH]; intros t Hwf Hf Hsz; simpl; [split_and!; try done; constructor|].
  simpl in Hsz. destruct (registerSymbol t s) as [t1 r] eqn:Hr.
  destruct (registerSymbol_spec t s t1 r Hwf ltac:(lia) Hr) as (Hwf1 & Hn1 & Hf1 & Hp1 & _ & Hs1 & Hres).
  specialize (IH t1 Hwf1 ltac:(congruence) ltac:(lia)). destruct (registerAll t1 ss) as [t2 rs].
  destruct IH as (Hwf2 & Hf2 & Hn2 & Hp2 & Hall). split_and!; [done|done|congruence|by etrans|].
  constructor; [|done]. destruct r as [id|]; [|destruct Hres as (_ & Hx & _); congruence].
  exists id. destruct Hres as [H0 Hl]. split_and!; try done.
  destruct Hp2 as [more ->]. by apply lookup_app_l_Some.
Qed.

(** A registration either finds its symbol or hands out the next id. *)
Lemma registerSymbol_id t s t' id :
  table_wf t -> table_size t <= UINT32_MAX -> registerSymbol t s = (t', Ok id) ->
  (id < table_size t /\ t' = t) \/ (id = table_size t /\ table_size t' = table_size t + 1).
Proof.
  intros (_ & _ & _ & Hm) Hsz. unfold registerSymbol.
  destruct (symbol_to_id_ t !! s) as [id'|] eqn:Hs.
  - assert (id' < table_size t).
    { apply Hm in Hs as [H0 Hs]. apply lookup_lt_Some in Hs. unfold table_size. lia. }
    destruct (frozen_ t); intros [= <- <-]; auto.
  - destruct (frozen_ t); [done|]. intros [= <- <-]. right. unfold table_size in *. simpl. rewrite length_app. simpl.
    rewrite u32_small by (unfold_int; lia). lia.
Qed.

(** The ids handed out by a sequence of registrations, in order, leave no gap above the ids that
    the table had before. *)
Lemma registerAll_dense t ss i id k :
  table_wf t -> frozen_ t = false -> table_size t + Z.of_nat (length ss) <= UINT32_MAX + 1 ->
  (registerAll t ss).2 !! i = Some (Ok id) -> table_size t <= k < id ->
  exists j, (j < i)%nat /\ (registerAll t ss).2 !! j = Some (Ok k).
Proof.
  revert t i. induction ss as [|s ss IH]; intros t i Hwf Hf Hsz; simpl; [done|]. simpl in Hsz.
  destruct (registerSymbol t s) as [t1 r] eqn:Hr.
  destruct (registerSymbol_spec t s t1 r Hwf ltac:(lia) Hr) as (Hwf1 & _ & Hf1 & _ & _ & Hs1 & _).
  assert (r = Ok id -> id <= table_size t) as Hid
    by (intros ->; destruct (registerSymbol_id t s t1 id Hwf ltac:(lia) Hr) as [[? _]|[? _]]; lia).
  assert (table_size t = k -> table_size t1 = k \/ r = Ok k) as Hnext.
  { intros <-. destruct r as [id'|ex].
    - destruct (registerSymbol_id t s t1 id' Hwf ltac:(lia) Hr) as [[_ ->]|[-> _]]; auto.
    - left. unfold registerSymbol in Hr. by repeat case_match; simplify_eq. }
  specialize (IH t1). destruct (registerAll t1 ss) as [t2 rs]. cbn [snd] in *.
  destruct i as [|i]; simpl; [intros [= ->] Hk; specialize (Hid eq_refl); lia|]. intros Hi Hk.
  assert (r = Ok k \/ table_size t1 <= k) as [->|Hle]; [|by exists 0%nat; split; [lia|]|].
  { destruct (Z.eq_dec (table_size t) k) as [He|He]; [destruct (Hnext He); [right; lia|by left]|right; lia]. }
  destruct (IH i Hwf1 ltac:(congruence) ltac:(lia) Hi ltac:(lia)) as (j & Hj & Hl). exists (S j). split; [lia|done].
Qed.

(** C27: the ids are a numbering of the symbols from 0. After any registrations in a new table,
    which all succeed, each returned id maps back to its symbol, two symbols get the same id
    exactly when they are equal, and the shard of the id is its remainder, one of the shards. No
    number is left out: an id is returned only after every smaller one, down to 0, has been. *)
Theorem symbol_ids_faithful n t0 ss :
  0 < n <= UINT64_MAX -> SymbolTable_new n = Ok t0 -> Z.of_nat (length ss) <= UINT32_MAX + 1 ->
  let '(t, rs) := registerAll t0 ss in
  Forall2 (fun s r => exists id, r = Ok id /\ getSymbol t id = s /\
    getShardIndex t id = id mod n /\ 0 <= getShardIndex t id < n) ss rs /\
  (forall i j s s' id id', ss !! i = Some s -> ss !! j = Some s' ->
    rs !! i = Some (Ok id) -> rs !! j = Some (Ok id') -> id = id' <-> s = s') /\
  (forall i id, rs !! i = Some (Ok id) -> 0 <= id /\
    forall k, 0 <= k < id -> exists j, (j < i)%nat /\ rs !! j = Some (Ok k)).
Proof.
  intros Hn Ht Hsz. pose proof Ht as Hempty. unfold SymbolTable_new in Hempty.
  destruct (Z.eqb_spec n 0); [lia|]. injection Hempty as Hempty.
  apply SymbolTable_new_wf in Ht as [Hwf Hnum]; [|lia].
  assert (table_size t0 = 0 /\ frozen_ t0 = false) as [Hz Hf] by (by subst t0).
  pose proof (registerAll_spec t0 ss Hwf Hf ltac:(lia)) as H.
  pose proof (fun i id k => registerAll_dense t0 ss i id k Hwf Hf ltac:(lia)) as Hdense.
  rewrite Hz in Hdense. destruct (registerAll t0 ss) as [t rs]. cbn [snd] in Hdense.
  destruct H as (Hwf' & _ & Hn' & _ & Hall). split; [|split].
  - eapply Forall2_impl; [exact Hall|]. simpl. intros s r (id & -> & H0 & Hl). exists id.
    split; [done|]. split; [by apply getSymbol_at|]. rewrite getShardIndex_at by done.
    rewrite (proj2 (Z.ltb_lt _ _)) by (apply lookup_lt_Some in Hl; unfold table_size; lia).
    rewrite Hn', Hnum. split; [done|]. apply Z.mod_pos_bound. lia.
  - intros i j s s' id id' Hi Hj Hri Hrj.
    destruct (Forall2_lookup_lr _ _ _ _ _ _ Hall Hi Hri) as (x & [= <-] & Hx0 & Hx).
    destruct (Forall2_lookup_lr _ _ _ _ _ _ Hall Hj Hrj) as (y & [= <-] & Hy0 & Hy).
    split; [intros ->; congruence|intros ->]. destruct Hwf' as (_ & _ & _ & Hm).
    assert (symbol_to_id_ t !! s' = Some id) by (by apply Hm).
    assert (symbol_to_id_ t !! s' = Some id') by (by apply Hm). congruence.
  - intros i id Hi. split; [|intros k Hk; by apply (Hdense i id)].
    destruct (Forall2_lookup_r _ _ _ _ _ Hall Hi) as (s & _ & x & [= <-] & H0 & _). exact H0.
Qed.

Lemma symbol_ids_faithful_witness :
  let ss := ["AAPL"; "MSFT"; "AAPL"; "GOOG"]%string in
  let '(t, rs) := registerAll (Build_SymbolTable 2 false [] ∅ []) ss in
  rs = [Ok 0; Ok 1; Ok 0; Ok 2] /\
  Forall2 (fun s r => exists id, r = Ok id /\ getSymbol t id = s /\
    getShardIndex t id = id mod 2 /\ 0 <= getShardIndex t id < 2) ss rs.
Proof.
  intros ss.
  assert (0 < 2 <= UINT64_MAX) as Hn by (unfold_int; lia).
  assert (Z.of_nat (length ss) <= UINT32_MAX + 1) as Hl by (unfold_int; simpl; lia).
  pose proof (symbol_ids_faithful 2 _ ss Hn eq_refl Hl) as H.
  assert ((registerAll (Build_SymbolTable 2 false [] ∅ []) ss).2 = [Ok 0; Ok 1; Ok 0; Ok 2]) as Hr by (vm_compute; reflexivity).
  destruct (registerAll (Build_SymbolTable 2 false [] ∅ []) ss) as [t rs].
  split; [exact Hr|apply H].
Defined.
