(* ===== verification/ConcurrentEngine.v ===== *)
(** * ConcurrentEngine: an engine behind a queue and a consumer thread

    The class [ConcurrentMatchingEngine] of include/ConcurrentMatchingEngine.h and
    src/ConcurrentMatchingEngine.cpp over any [BoundedFifo] of orders: the producer inside
    [submitOrder], the consumer inside [consumerLoop] and the caller of [start] and [stop] take
    turns, one access to the shared state each. The mutex of [start] and [stop] makes the two
    exclude each other; [stop] holds it until the consumer has left its loop. Nothing inside
    [processOrder] reaches [stop] (the engine is private and has no publisher), so no step calls
    [stop] from the consumer. *)

From Stdlib Require Import ZArith Lia Bool.
From stdpp Require Import base tactics decidable numbers option relations list.
From S2P Require Import Prelude.
From S2P Require Import Double.
From S2P Require Import Order.
From S2P Require Import OrderBook.
From S2P Require Import Events.
From S2P Require Import MatchingEngine.
From S2P Require Import EngineProps.
From S2P Require Import Fifo.
From S2P Require Import RingBuffer.

Local Open Scope Z_scope.

Inductive BackpressurePolicy : Type := REJECT | BLOCK | DROP.

#[export] Instance BackpressurePolicy_eq_dec : EqDecision BackpressurePolicy.
Proof. solve_decision. Defined.

(** Where the consumer is in [consumerLoop]: before the first test of the loop condition,
    before the second, in the body, about to process the order it popped, or out of the loop
    (also before the first [start]). *)
Inductive consumer_phase : Type :=
| CTop
| CTest
| CBody
| CGot (order : Order)
| COut.

(** Where the producer is in [submitOrder]: outside, at the [switch], at the test of the loop of
    [BLOCK], in its body. *)
Inductive submit_phase : Type :=
| SOut
| SSwitch (order : Order)
| SLoop (order : Order)
| SPush (order : Order).

Record ConcurrentMatchingEngine (R : Type) : Type := Build_ConcurrentMatchingEngine {
  c_buffer_ : R;
  engine_ : MatchingEngine;
  running_ : bool;
  processed_count_ : Z;
  dropped_count_ : Z;
  policy_ : BackpressurePolicy;
  consumer_ : consumer_phase
}.
Arguments Build_ConcurrentMatchingEngine {R}.
Arguments c_buffer_ {R}.
Arguments engine_ {R}.
Arguments running_ {R}.
Arguments processed_count_ {R}.
Arguments dropped_count_ {R}.
Arguments policy_ {R}.
Arguments consumer_ {R}.

(** The default capacity of the pool of a book. *)
Definition default_pool_capacity : Z := 2000000.

Section Concurrent.
Context {R : Type} `{BoundedFifo R Order}.
Context (ticks_overflow : double -> Z).
Implicit Types (c : ConcurrentMatchingEngine R) (order : Order).

(** [ConcurrentMatchingEngine(buffer_size)], the buffer being built. *)
Definition Concurrent_new (buffer : R) : ConcurrentMatchingEngine R :=
  Build_ConcurrentMatchingEngine buffer (MatchingEngine_new default_pool_capacity) false 0 0 REJECT COut.

Definition with_buffer c (b : R) : ConcurrentMatchingEngine R :=
  Build_ConcurrentMatchingEngine b (engine_ c) (running_ c) (processed_count_ c) (dropped_count_ c)
    (policy_ c) (consumer_ c).

Definition with_running c (r : bool) (k : consumer_phase) : ConcurrentMatchingEngine R :=
  Build_ConcurrentMatchingEngine (c_buffer_ c) (engine_ c) r (processed_count_ c) (dropped_count_ c)
    (policy_ c) k.

Definition with_dropped c (n : Z) : ConcurrentMatchingEngine R :=
  Build_ConcurrentMatchingEngine (c_buffer_ c) (engine_ c) (running_ c) (processed_count_ c) n
    (policy_ c) (consumer_ c).

(** The assertion of [setBackpressurePolicy]: only while not running. *)
Definition setBackpressurePolicy c (policy : BackpressurePolicy) : option (ConcurrentMatchingEngine R) :=
  if running_ c then None
  else Some (Build_ConcurrentMatchingEngine (c_buffer_ c) (engine_ c) (running_ c)
               (processed_count_ c) (dropped_count_ c) policy (consumer_ c)).

(** [start]: a new consumer, unless already running. *)
Definition start c : ConcurrentMatchingEngine R := if running_ c then c else with_running c true CTop.

(** The part of [stop] before the join, and whether there is a consumer to join; [self] is a call
    from the consumer thread. *)
Definition stop_request (self : bool) c : ConcurrentMatchingEngine R * bool :=
  if self then (with_running c false (consumer_ c), false)
  else if running_ c then (with_running c false (consumer_ c), true)
  else (c, false).

(** ** submitOrder, an access at a time *)

(** The first load of [running_]. *)
Definition submit_begin c order : submit_phase := if running_ c then SSwitch order else SOut.

Definition try_push c order : ConcurrentMatchingEngine R * bool :=
  let '(b, taken) := fifo_push (c_buffer_ c) order in (with_buffer c b, taken).

(** The next access; the answer of [submitOrder] when it returns. *)
Definition submit_turn c (ph : submit_phase) : ConcurrentMatchingEngine R * submit_phase * option bool :=
  match ph with
  | SOut => (c, SOut, None)
  | SSwitch order =>
      match policy_ c with
      | REJECT => let '(c, taken) := try_push c order in (c, SOut, Some taken)
      | BLOCK => (c, SLoop order, None)
      | DROP =>
          let '(c, taken) := try_push c order in
          if taken then (c, SOut, Some true)
          else (with_dropped c (u64 (dropped_count_ c + 1)), SOut, Some false)
      end
  | SLoop order => if running_ c then (c, SPush order, None) else (c, SOut, Some false)
  | SPush order =>
      let '(c, taken) := try_push c order in
      if taken then (c, SOut, Some true) else (c, SLoop order, None)
  end.

(** ** consumerLoop *)

(** [buffer_.isEmpty()]. *)
Definition buffer_empty c : bool := match fifo_contents (c_buffer_ c) with [] => true | _ => false end.

(** One access of the consumer; [None] when there is none. [clock] and [ts] are the clock readings
    of [processOrder], whose journal is not set. *)
Definition consumer_turn (clock : Z -> Z) (ts : Z) c : option (ConcurrentMatchingEngine R) :=
  match consumer_ c with
  | COut => None
  | CTop => Some (with_running c (running_ c) (if running_ c then CBody else CTest))
  | CTest => Some (with_running c (running_ c) (if buffer_empty c then COut else CBody))
  | CBody =>
      let '(b, got) := fifo_pop (c_buffer_ c) in
      let c := with_buffer c b in
      Some (with_running c (running_ c) (match got with Some order => CGot order | None => CTop end))
  | CGot order =>
      let '(e, _, _, r) := processOrder ticks_overflow clock ts true (engine_ c) order in
      let processed := match r with Ok _ => u64 (processed_count_ c + 1) | Throw _ => processed_count_ c end in
      Some (Build_ConcurrentMatchingEngine (c_buffer_ c) e (running_ c) processed (dropped_count_ c)
              (policy_ c) CTop)
  end.

(** ** The threads together

    [cs_joining] says that [stop] waits for the consumer. Histories: the orders the buffer took,
    those processed, with the clocks, and those taken when [stop] last stopped a running engine. *)
Record CSystem : Type := Build_CSystem {
  cs_engine : ConcurrentMatchingEngine R;
  cs_submit : submit_phase;
  cs_joining : bool;
  cs_accepted : list Order;
  cs_processed : list ((Z -> Z) * Z * Order);
  cs_sealed : list Order
}.

(** The call of [submitOrder]. *)
Definition cs_begin (s : CSystem) (order : Order) : CSystem :=
  Build_CSystem (cs_engine s) (submit_begin (cs_engine s) order) (cs_joining s) (cs_accepted s)
    (cs_processed s) (cs_sealed s).

Definition phase_order (ph : submit_phase) : list Order :=
  match ph with SOut => [] | SSwitch o | SLoop o | SPush o => [o] end.

(** What the consumer is about to process. *)
Definition in_flight (k : consumer_phase) : list Order :=
  match k with CGot o => [o] | _ => [] end.

Inductive cinternal : CSystem -> CSystem -> Prop :=
| c_submit c ph w acc done_ sealed c' ph' answer :
    submit_turn c ph = (c', ph', answer) ->
    cinternal (Build_CSystem c ph w acc done_ sealed)
      (Build_CSystem c' ph' w (if decide (answer = Some true) then acc ++ phase_order ph else acc)
         done_ sealed)
| c_consume c ph w acc done_ sealed clock ts c' :
    consumer_turn clock ts c = Some c' ->
    cinternal (Build_CSystem c ph w acc done_ sealed)
      (Build_CSystem c' ph w acc
         (done_ ++ ((fun o => (clock, ts, o)) <$> in_flight (consumer_ c))) sealed)
| c_start c ph acc done_ sealed :
    cinternal (Build_CSystem c ph false acc done_ sealed)
      (Build_CSystem (start c) ph false acc done_ sealed)
| c_stop c ph acc done_ sealed :
    cinternal (Build_CSystem c ph false acc done_ sealed)
      (Build_CSystem (stop_request false c).1 ph (stop_request false c).2 acc done_
         (if (stop_request false c).2 then acc else sealed))
| c_join c ph acc done_ sealed :
    consumer_ c = COut ->
    cinternal (Build_CSystem c ph true acc done_ sealed) (Build_CSystem c ph false acc done_ sealed)
| c_policy c ph w acc done_ sealed policy c' :
    setBackpressurePolicy c policy = Some c' ->
    cinternal (Build_CSystem c ph w acc done_ sealed) (Build_CSystem c' ph w acc done_ sealed).

Inductive cstep : CSystem -> CSystem -> Prop :=
| cstep_begin s order : cs_submit s = SOut -> cstep s (cs_begin s order)
| cstep_internal s s' : cinternal s s' -> cstep s s'.

Definition cs_fresh (buffer : R) : CSystem :=
  Build_CSystem (Concurrent_new buffer) SOut false [] [] [].

(** ** The sequential engine it implements *)

(** The engine after a list of orders, and how many calls of [processOrder] did not throw. *)
Fixpoint process_run (e : MatchingEngine) (l : list ((Z -> Z) * Z * Order)) : MatchingEngine * Z :=
  match l with
  | [] => (e, 0)
  | (clock, ts, o) :: l =>
      let '(e, _, _, r) := processOrder ticks_overflow clock ts true e o in
      let '(e, n) := process_run e l in (e, n + match r with Ok _ => 1 | Throw _ => 0 end)
  end.

Definition ops_of (l : list ((Z -> Z) * Z * Order)) : list engine_op :=
  (fun '(clock, ts, o) => OpProcess clock ts true o) <$> l.

Definition orders_of (l : list ((Z -> Z) * Z * Order)) : list Order := snd <$> l.

Lemma process_run_engine e l : (process_run e l).1 = (engine_run ticks_overflow e (ops_of l)).1.
Proof.
  revert e. induction l as [|[[clock ts] o] l IH]; intros e; [done|]. simpl.
  destruct (processOrder ticks_overflow clock ts true e o) as [[[e1 o1] evs1] r1]. specialize (IH e1).
  destruct (process_run e1 l), (engine_run ticks_overflow e1 (ops_of l)). done.
Qed.

Lemma process_run_snoc e l clock ts o :
  process_run e (l ++ [(clock, ts, o)]) =
  let '(e, n) := process_run e l in
  let '(e, _, _, r) := processOrder ticks_overflow clock ts true e o in
  (e, n + match r with Ok _ => 1 | Throw _ => 0 end).
Proof.
  revert e. induction l as [|[[clock1 ts1] o1] l IH]; intros e; simpl.
  - destruct (processOrder ticks_overflow clock ts true e o) as [[[e1 o1] evs1] r1]. done.
  - destruct (processOrder ticks_overflow clock1 ts1 true e o1) as [[[e1 o2] evs1] r1].
    rewrite IH. destruct (process_run e1 l) as [e2 n2].
    destruct (processOrder ticks_overflow clock ts true e2 o) as [[[e3 o3] evs3] r3]. f_equal. lia.
Qed.

(** ** The invariant *)

Context (buffer_takes : forall o : Order, fifo_ok o).

Record cinv (s : CSystem) : Prop := {
  cinv_buffer : fifo_wf (c_buffer_ (cs_engine s));
  cinv_orders : cs_accepted s = orders_of (cs_processed s) ++ in_flight (consumer_ (cs_engine s)) ++
    fifo_contents (c_buffer_ (cs_engine s));
  cinv_running : running_ (cs_engine s) = true ->
    consumer_ (cs_engine s) <> COut /\ consumer_ (cs_engine s) <> CTest /\ cs_joining s = false;
  cinv_stopped : running_ (cs_engine s) = false -> cs_joining s = false ->
    consumer_ (cs_engine s) = COut;
  cinv_sealed : cs_sealed s `prefix_of` cs_accepted s;
  cinv_out : consumer_ (cs_engine s) = COut -> cs_sealed s `prefix_of` orders_of (cs_processed s);
  cinv_engine : exists n, process_run (MatchingEngine_new default_pool_capacity) (cs_processed s)
      = (engine_ (cs_engine s), n) /\ processed_count_ (cs_engine s) = u64 n
}.

(** What the steps of the producer leave alone. *)
Definition same_consumer c c' : Prop :=
  engine_ c' = engine_ c /\ running_ c' = running_ c /\ processed_count_ c' = processed_count_ c /\
  consumer_ c' = consumer_ c.

Lemma try_push_spec c order c' taken :
  fifo_wf (c_buffer_ c) -> try_push c order = (c', taken) ->
  fifo_wf (c_buffer_ c') /\ same_consumer c c' /\ dropped_count_ c' = dropped_count_ c /\
  fifo_contents (c_buffer_ c') = fifo_contents (c_buffer_ c) ++ (if taken then [order] else []).
Proof.
  intros Hwf. unfold try_push. pose proof (fifo_push_spec (c_buffer_ c) order Hwf (buffer_takes order)) as Hp.
  destruct (fifo_push (c_buffer_ c) order) as [b t]. destruct Hp as (Hwf' & _ & _ & Hc).
  intros [= <- <-]. simpl. rewrite Hc. split_and!; try done. by destruct t; rewrite ?app_nil_r.
Qed.

Lemma submit_turn_spec c ph c' ph' answer :
  fifo_wf (c_buffer_ c) -> submit_turn c ph = (c', ph', answer) ->
  fifo_wf (c_buffer_ c') /\ same_consumer c c' /\
  fifo_contents (c_buffer_ c') =
    fifo_contents (c_buffer_ c) ++ (if decide (answer = Some true) then phase_order ph else []).
Proof.
  intros Hwf Ht. destruct ph as [|o|o|o]; simpl in Ht.
  - injection Ht as <- <- <-. simpl. by rewrite app_nil_r.
  - destruct (policy_ c).
    + destruct (try_push c o) as [c1 taken] eqn:Hp. injection Ht as <- <- <-.
      destruct (try_push_spec c o c1 taken Hwf Hp) as (? & ? & _ & ->). by destruct taken.
    + injection Ht as <- <- <-. simpl. by rewrite app_nil_r.
    + destruct (try_push c o) as [c1 taken] eqn:Hp.
      destruct (try_push_spec c o c1 taken Hwf Hp) as (? & ? & _ & Hc).
      destruct taken; injection Ht as <- <- <-; done.
  - destruct (running_ c) eqn:?; injection Ht as <- <- <-; simpl; by rewrite app_nil_r.
  - destruct (try_push c o) as [c1 taken] eqn:Hp.
    destruct (try_push_spec c o c1 taken Hwf Hp) as (? & ? & _ & Hc).
    destruct taken; injection Ht as <- <- <-; done.
Qed.

Lemma cinv_submit c ph w acc done_ sealed c' ph' answer :
  cinv (Build_CSystem c ph w acc done_ sealed) -> submit_turn c ph = (c', ph', answer) ->
  cinv (Build_CSystem c' ph' w (if decide (answer = Some true) then acc ++ phase_order ph else acc)
    done_ sealed).
Proof.
  intros [Hwf Ho Hrun Hst Hse Hout Hen] Ht. cbn in *.
  destruct (submit_turn_spec c ph c' ph' answer Hwf Ht) as (Hwf' & (He & Hr & Hn & Hk) & Hc).
  constructor; cbn; rewrite ?He, ?Hr, ?Hn, ?Hk; try done.
  - rewrite Hc, Ho. case_decide; rewrite ?app_nil_r, <- ?app_assoc; done.
  - case_decide; [|done]. by apply prefix_app_r.
Qed.

Lemma cinv_consume c ph w acc done_ sealed clock ts c' :
  cinv (Build_CSystem c ph w acc done_ sealed) -> consumer_turn clock ts c = Some c' ->
  cinv (Build_CSystem c' ph w acc
    (done_ ++ ((fun o => (clock, ts, o)) <$> in_flight (consumer_ c))) sealed).
Proof.
  intros [Hwf Ho Hrun Hst Hse Hout Hen] Ht. cbn in *. unfold consumer_turn in Ht.
  destruct (consumer_ c) as [| | |o|] eqn:Hk; cbn [in_flight fmap list_fmap]; rewrite ?app_nil_r.
  - injection Ht as <-. destruct (running_ c) eqn:Hr; constructor; cbn; rewrite ?Hr; try done.
    + intros _. by destruct (Hrun eq_refl) as (_ & _ & ?).
    + intros _ Hw. by specialize (Hst eq_refl Hw).
  - injection Ht as <-. unfold buffer_empty.
    assert (running_ c = false) as Hr by (destruct (running_ c); [destruct (Hrun eq_refl) as (_ & ? & _)|]; done).
    destruct (fifo_contents (c_buffer_ c)) eqn:Hb; constructor; cbn; rewrite ?Hr, ?Hb; try done.
    + intros _. rewrite Ho in Hse. cbn in Hse. by rewrite app_nil_r in Hse.
    + intros _ Hw. by specialize (Hst Hr Hw).
  - pose proof (fifo_pop_spec (c_buffer_ c) Hwf) as Hp. destruct (fifo_pop (c_buffer_ c)) as [b got].
    destruct Hp as (Hwf' & _ & -> & Hc'). injection Ht as <-. cbn in Ho.
    destruct (fifo_contents (c_buffer_ c)) as [|o rest]; constructor; cbn in *; rewrite ?Hc'; try done;
      intros; try (destruct (Hrun ltac:(done)) as (_ & _ & ?)); try done;
      match goal with H1 : running_ c = false, H2 : w = false |- _ => by specialize (Hst H1 H2) end.
  - destruct (processOrder ticks_overflow clock ts true (engine_ c) o) as [[[e o'] evs] r] eqn:Hpo.
    injection Ht as <-. constructor; cbn; try done.
    + rewrite Ho. unfold orders_of. rewrite fmap_app. cbn. by rewrite <- app_assoc.
    + intros Hr. destruct (Hrun Hr) as (_ & _ & ?). done.
    + intros Hr Hw. by specialize (Hst Hr Hw).
    + destruct Hen as (n & Hpr & Hcn). rewrite process_run_snoc, Hpr, Hpo. eexists. split; [done|].
      destruct r; rewrite Hcn, ?u64_add_l, ?Z.add_0_r; done.
  - done.
Qed.

Lemma cinv_internal s s' : cinv s -> cinternal s s' -> cinv s'.
Proof.
  intros Hinv Hstep. destruct Hstep as [c ph w acc done_ sealed c' ph' answer Ht
    |c ph w acc done_ sealed clock ts c' Ht|c ph acc done_ sealed|c ph acc done_ sealed
    |c ph acc done_ sealed Hk|c ph w acc done_ sealed policy c' Hp].
  - by eapply cinv_submit.
  - by eapply cinv_consume.
  - destruct Hinv as [Hwf Ho Hrun Hst Hse Hout Hen]. unfold start. cbn in *.
    destruct (running_ c) eqn:Hr; constructor; cbn; rewrite ?Hr; try done.
    rewrite Ho, (Hst eq_refl eq_refl). done.
  - destruct Hinv as [Hwf Ho Hrun Hst Hse Hout Hen]. unfold stop_request. cbn in *.
    destruct (running_ c) eqn:Hr; constructor; cbn; rewrite ?Hr; try done.
    intros Hk. by destruct (Hrun eq_refl) as (? & _).
  - destruct Hinv as [Hwf Ho Hrun Hst Hse Hout Hen]. constructor; cbn in *; try done.
    intros Hr. by destruct (Hrun Hr) as (? & _).
  - destruct Hinv as [Hwf Ho Hrun Hst Hse Hout Hen]. unfold setBackpressurePolicy in Hp. cbn in *.
    destruct (running_ c) eqn:Hr; [done|]. injection Hp as <-. by constructor; cbn.
Qed.

Lemma cinv_begin s order : cinv s -> cinv (cs_begin s order).
Proof. intros [Hwf Ho Hrun Hst Hse Hout Hen]. by constructor. Qed.

Lemma cinv_fresh buffer : fifo_wf buffer -> fifo_contents buffer = [] -> cinv (cs_fresh buffer).
Proof. intros Hwf He. constructor; cbn; rewrite ?He; try done. by exists 0. Qed.

Lemma cinv_steps s s' : cinv s -> rtc cstep s s' -> cinv s'.
Proof.
  intros Hinv Hsteps. induction Hsteps as [|s1 s2 s3 Hst _ IH]; [done|]. apply IH.
  destruct Hst; [by apply cinv_begin|by eapply cinv_internal].
Qed.

(** ** The consumer alone *)

(** Turns of the consumer with nobody else running; [times] are its clocks. *)
Fixpoint consumer_turns (n : nat) (times : nat -> (Z -> Z) * Z) c : ConcurrentMatchingEngine R :=
  match n with
  | O => c
  | S n =>
      match consumer_turn (times n).1 (times n).2 c with
      | Some c => consumer_turns n times c
      | None => c
      end
  end.

(** How many turns are left once [running_] is false. *)
Definition turns_left c : nat :=
  let n := (4 * length (fifo_contents (c_buffer_ c)))%nat in
  let top := match n with O => 2%nat | _ => (5 + n)%nat end in
  match consumer_ c with
  | CTop => top
  | CTest => pred top
  | CBody => (3 + n)%nat
  | CGot _ => S top
  | COut => 0
  end.

Lemma turns_left_decrease clock ts c :
  fifo_wf (c_buffer_ c) -> running_ c = false -> consumer_ c <> COut ->
  exists c', consumer_turn clock ts c = Some c' /\ fifo_wf (c_buffer_ c') /\ running_ c' = false /\
    (turns_left c' < turns_left c)%nat /\
    (consumer_ c' = COut -> fifo_contents (c_buffer_ c') = []).
Proof.
  intros Hwf Hr Hk. unfold consumer_turn, turns_left.
  destruct (consumer_ c) as [| | |o|]; [| | | |done].
  - rewrite Hr. eexists. split; [done|]. cbn. split_and!; try done. destruct (length _); simpl; lia.
  - unfold buffer_empty. destruct (fifo_contents (c_buffer_ c)) as [|o rest] eqn:Hb;
      eexists; (split; [done|]); cbn; rewrite Hb; split_and!; try done; simpl; lia.
  - pose proof (fifo_pop_spec (c_buffer_ c) Hwf) as Hp. destruct (fifo_pop (c_buffer_ c)) as [b got].
    destruct Hp as (Hwf' & _ & -> & Hc'). eexists. split; [done|]. cbn.
    destruct (fifo_contents (c_buffer_ c)) as [|o rest]; cbn in *; rewrite Hc'; split_and!; try done;
      [simpl; lia|]. destruct rest; simpl; lia.
  - destruct (processOrder ticks_overflow clock ts true (engine_ c) o) as [[[e o'] evs] r].
    eexists. split; [done|]. cbn. split_and!; try done. lia.
Qed.

Lemma consumer_turns_out n times c :
  fifo_wf (c_buffer_ c) -> running_ c = false -> (turns_left c <= n)%nat ->
  (consumer_ c = COut -> fifo_contents (c_buffer_ c) = []) ->
  consumer_ (consumer_turns n times c) = COut /\ fifo_contents (c_buffer_ (consumer_turns n times c)) = [].
Proof.
  revert c. induction n as [|n IH]; intros c Hwf Hr Hn He.
  - assert (consumer_ c = COut) as Hk.
    { unfold turns_left in Hn. destruct (consumer_ c); try done; destruct (4 * _)%nat; simpl in Hn; lia. }
    simpl. auto.
  - simpl. destruct (consumer_ c) eqn:Hk.
    all: try (destruct (turns_left_decrease (times n).1 (times n).2 c Hwf Hr) as (c' & -> & Hwf' & Hr' & Hlt & He');
      [by rewrite Hk|apply IH; [done..|lia|done]]).
    unfold consumer_turn. rewrite Hk. auto.
Qed.

(** ** Properties *)

Lemma cinv_reachable buffer s :
  fifo_wf buffer -> fifo_contents buffer = [] -> rtc cstep (cs_fresh buffer) s -> cinv s.
Proof. intros Hwf He Hs. eapply cinv_steps; [|exact Hs]. by apply cinv_fresh. Qed.

(** C15: the threads implement the sequential engine. Whatever the interleaving of the producer,
    the consumer and the callers of [start] and [stop], under every back-pressure policy, the
    engine is what the sequential engine becomes on the orders processed so far; those, the one
    in the consumer's hands and those in the buffer are the accepted orders, in order, each
    once; and the counter counts the calls that did not throw. *)
Theorem concurrent_refines_sequential buffer s :
  fifo_wf buffer -> fifo_contents buffer = [] -> rtc cstep (cs_fresh buffer) s ->
  let c := cs_engine s in
  engine_ c = (engine_run ticks_overflow (MatchingEngine_new default_pool_capacity)
                 (ops_of (cs_processed s))).1 /\
  cs_accepted s = orders_of (cs_processed s) ++ in_flight (consumer_ c) ++ fifo_contents (c_buffer_ c) /\
  processed_count_ c = u64 (process_run (MatchingEngine_new default_pool_capacity) (cs_processed s)).2.
Proof.
  intros Hwf He Hs. apply cinv_reachable in Hs as [_ Ho _ _ _ _ (n & Hpr & Hn)]; [|done..].
  cbv zeta. rewrite <- process_run_engine, Hpr. done.
Qed.

Lemma cinternal_grows s s' :
  cinternal s s' -> cinv s ->
  cs_sealed s `prefix_of` cs_sealed s' /\ orders_of (cs_processed s) `prefix_of` orders_of (cs_processed s').
Proof.
  intros Hstep Hinv. pose proof (cinv_sealed _ Hinv) as Hse.
  destruct Hstep; cbn in *; split; try done.
  - unfold orders_of. rewrite fmap_app. by apply prefix_app_r.
  - by destruct (running_ c).
Qed.

Lemma csteps_grow s s' :
  rtc cstep s s' -> cinv s ->
  cs_sealed s `prefix_of` cs_sealed s' /\ orders_of (cs_processed s) `prefix_of` orders_of (cs_processed s').
Proof.
  intros Hsteps Hinv. revert Hinv. induction Hsteps as [|s1 s2 s3 Hst Hsteps IH]; intros Hinv; [done|].
  assert (cinv s2) as Hinv2 by (eapply cinv_steps; [done|by apply rtc_once]).
  destruct (IH Hinv2) as [H1 H2].
  assert (cs_sealed s1 `prefix_of` cs_sealed s2 /\
          orders_of (cs_processed s1) `prefix_of` orders_of (cs_processed s2)) as [H3 H4].
  { destruct Hst; [done|by apply cinternal_grows]. }
  split; by etrans.
Qed.

(** C16: [stop] loses nothing accepted before it. When the join of a [stop] that stopped a
    running engine can return, every order accepted before the call has been processed, in
    order; and left alone the consumer gets there, after at most six turns and four more for
    each order still in the buffer. *)
Theorem stop_drains_accepted buffer s s' times n :
  fifo_wf buffer -> fifo_contents buffer = [] -> rtc cstep (cs_fresh buffer) s ->
  running_ (cs_engine s) = true ->
  let stopped := Build_CSystem (stop_request false (cs_engine s)).1 (cs_submit s) true (cs_accepted s)
                   (cs_processed s) (cs_accepted s) in
  cstep s stopped /\
  (rtc cstep stopped s' -> consumer_ (cs_engine s') = COut ->
     cs_accepted s `prefix_of` orders_of (cs_processed s')) /\
  ((6 + 4 * length (fifo_contents (c_buffer_ (cs_engine s))) <= n)%nat ->
     consumer_ (consumer_turns n times (cs_engine stopped)) = COut /\
     fifo_contents (c_buffer_ (consumer_turns n times (cs_engine stopped))) = []).
Proof.
  intros Hwf He Hs Hrun stopped. apply cinv_reachable in Hs; [|done..].
  destruct (cinv_running _ Hs Hrun) as (Hk & Hk' & Hj).
  assert (cstep s stopped) as Hstep.
  { apply cstep_internal. destruct s as [c ph w acc done_ sealed]. cbn in *. subst w stopped.
    pose proof (c_stop c ph acc done_ sealed) as H1.
    replace (stop_request false c).2 with true in H1 by (unfold stop_request; by rewrite Hrun). exact H1. }
  assert (cinv stopped) as Hinv by (eapply cinv_steps; [done|by apply rtc_once]).
  split; [done|]. split.
  - intros Hsteps Hout. destruct (csteps_grow _ _ Hsteps Hinv) as [Hse _].
    etrans; [exact Hse|]. apply cinv_out; [by eapply cinv_steps|done].
  - intros Hn. apply consumer_turns_out; [by apply cinv_buffer| | |].
    + simpl. by rewrite Hrun.
    + unfold turns_left. simpl. rewrite Hrun. simpl.
      destruct (consumer_ (cs_engine s)); destruct (length _); simpl in *; lia.
    + simpl. rewrite Hrun. simpl. done.
Qed.
End Concurrent.

(** ** Over the ring buffer *)

#[export] Instance Order_inhabited : Inhabited Order := populate (Order_default 0).

(** The ring's own test is the one the consumer uses. *)
Lemma buffer_empty_ring (c : ConcurrentMatchingEngine (RingBuffer Order)) :
  ring_wf (c_buffer_ c) -> buffer_empty c = isEmpty (c_buffer_ c).
Proof.
  intros Hwf. unfold buffer_empty, isEmpty.
  pose proof (ring_contents_length (c_buffer_ c) Hwf) as Hl. rewrite ring_size_distance in Hl by done.
  destruct Hwf as (_ & _ & _ & _ & Hh & Ht). pose proof (distance_zero _ _ _ Hh Ht) as Hz. simpl.
  destruct (Z.eqb_spec (head_ (c_buffer_ c)) (tail_ (c_buffer_ c))) as [He|He].
  - apply Hz in He. rewrite He in Hl. by destruct (ring_contents (c_buffer_ c)).
  - destruct (ring_contents (c_buffer_ c)); [|done]. exfalso. apply He, Hz. simpl in Hl. lia.
Qed.

Definition sample_buffer : RingBuffer Order :=
  Build_RingBuffer (replicate 4 (Order_default 0)) 0 0 4 3.

Definition sample_submission : Order := Order_default 7.

(** A producer that passed the first test of [running_] before [stop] stores it. *)
Definition late_run : list CSystem :=
  let c0 := Concurrent_new sample_buffer in
  let c1 := start c0 in
  let c2 := (stop_request false c1).1 in
  let c3 := with_running c2 false CTest in
  let c4 := with_running c3 false COut in
  [Build_CSystem c1 SOut false [] [] [];
   Build_CSystem c1 (SSwitch sample_submission) false [] [] [];
   Build_CSystem c2 (SSwitch sample_submission) true [] [] [];
   Build_CSystem c3 (SSwitch sample_submission) true [] [] [];
   Build_CSystem c4 (SSwitch sample_submission) true [] [] [];
   Build_CSystem (try_push c4 sample_submission).1 SOut true [sample_submission] [] []].

Lemma late_consume overflow clock (c c' : ConcurrentMatchingEngine (RingBuffer Order)) ph :
  in_flight (consumer_ c) = [] -> consumer_turn overflow clock 0 c = Some c' ->
  cstep overflow (Build_CSystem c ph true [] [] []) (Build_CSystem c' ph true [] [] []).
Proof.
  intros Hk Hc. apply cstep_internal.
  pose proof (c_consume overflow c ph true [] [] [] clock 0 c' Hc) as H. by rewrite Hk in H.
Qed.

Lemma late_accept overflow (c c' : ConcurrentMatchingEngine (RingBuffer Order)) ph :
  submit_turn c ph = (c', SOut, Some true) ->
  cstep overflow (Build_CSystem c ph true [] [] []) (Build_CSystem c' SOut true (phase_order ph) [] []).
Proof.
  intros Hc. apply cstep_internal. exact (c_submit overflow c ph true [] [] [] c' SOut (Some true) Hc).
Qed.

Lemma late_run_steps overflow (clock : Z -> Z) :
  Forall (fun s => rtc (cstep overflow) (cs_fresh sample_buffer) s) late_run.
Proof.
  assert (forall s s' l, rtc (cstep overflow) (cs_fresh sample_buffer) s -> cstep overflow s s' ->
    (rtc (cstep overflow) (cs_fresh sample_buffer) s' ->
       Forall (fun s => rtc (cstep overflow) (cs_fresh sample_buffer) s) l) ->
    Forall (fun s => rtc (cstep overflow) (cs_fresh sample_buffer) s) (s' :: l)) as Hone.
  { intros s s' l H1 H2 H3. pose proof (rtc_r _ _ _ H1 H2). constructor; auto. }
  unfold late_run.
  eapply Hone; [apply rtc_refl|apply cstep_internal, c_start|intros H1].
  eapply Hone; [exact H1|apply (cstep_begin _ (Build_CSystem (start (Concurrent_new sample_buffer)) SOut false [] [] []) sample_submission); done|intros H2].
  eapply Hone; [exact H2|apply cstep_internal, (c_stop overflow (start (Concurrent_new sample_buffer)) (SSwitch sample_submission) [] [] [])|intros H3].
  eapply Hone; [exact H3|apply (late_consume overflow clock); reflexivity|intros H4].
  eapply Hone; [exact H4|apply (late_consume overflow clock); reflexivity|intros H5].
  eapply Hone; [exact H5|apply late_accept; reflexivity|constructor].
Qed.

(** An order can be accepted and never processed: [submitOrder] answers [true] although the
    consumer has left its loop. *)
Theorem late_order_is_stranded overflow :
  exists s, rtc (cstep overflow) (cs_fresh sample_buffer) s /\
    cs_accepted s = [sample_submission] /\ cs_processed s = [] /\
    consumer_ (cs_engine s) = COut /\ running_ (cs_engine s) = false.
Proof.
  pose proof (late_run_steps overflow id) as H. rewrite Forall_forall in H.
  eexists (Build_CSystem _ SOut true [sample_submission] [] []). split; [apply H; do 5 right; left|].
  split_and!; reflexivity.
Qed.

Lemma sample_buffer_wf : ring_wf sample_buffer /\ ring_contents sample_buffer = [].
Proof.
  assert (RingBuffer_new (Order_default 0) 4 = Ok sample_buffer) as H by reflexivity.
  apply RingBuffer_new_wf in H. tauto.
Qed.

(** A run in which an order is accepted. *)
Lemma busy_run_steps overflow :
  rtc (cstep overflow) (cs_fresh sample_buffer)
    (Build_CSystem (try_push (start (Concurrent_new sample_buffer)) sample_submission).1 SOut false
       [sample_submission] [] []).
Proof.
  eapply rtc_l; [apply cstep_internal, c_start|].
  eapply rtc_l; [apply (cstep_begin _ (Build_CSystem (start (Concurrent_new sample_buffer)) SOut false [] [] []) sample_submission); done|].
  apply rtc_once, cstep_internal.
  exact (c_submit overflow (start (Concurrent_new sample_buffer)) (SSwitch sample_submission) false
           [] [] [] _ SOut (Some true) eq_refl).
Qed.

Lemma concurrent_refines_sequential_witness :
  let s := Build_CSystem (try_push (start (Concurrent_new sample_buffer)) sample_submission).1 SOut false
             [sample_submission] [] [] in
  rtc (cstep (fun _ => 0)) (cs_fresh sample_buffer) s /\
  cs_accepted s = orders_of (cs_processed s) ++ in_flight (consumer_ (cs_engine s)) ++
    fifo_contents (c_buffer_ (cs_engine s)).
Proof.
  intros s. split; [apply busy_run_steps|].
  apply (concurrent_refines_sequential (H := ring_fifo) (fun _ => 0) (fun _ => I) sample_buffer s);
    [apply sample_buffer_wf|apply sample_buffer_wf|apply busy_run_steps].
Defined.

Lemma stop_drains_accepted_witness :
  let c := (try_push (start (Concurrent_new sample_buffer)) sample_submission).1 in
  let stopped := (stop_request false c).1 in
  consumer_ (consumer_turns (fun _ => 0) 10 (fun n => (Z.add (Z.of_nat n), 0)) stopped) = COut.
Proof.
  intros c stopped.
  apply (stop_drains_accepted (H := ring_fifo) (fun _ => 0) (fun _ => I) sample_buffer
           (Build_CSystem c SOut false [sample_submission] [] [])
           (Build_CSystem c SOut false [sample_submission] [] []) (fun n => (Z.add (Z.of_nat n), 0)) 10);
    [apply sample_buffer_wf|apply sample_buffer_wf|apply busy_run_steps|reflexivity|simpl; lia].
Defined.
