(* ===== verification/ShardedEngine.v ===== *)
(** * ShardedEngine: symbols routed to independent engines

    The class [ShardedMatchingEngine] of include/ShardedEngine.h and src/ShardedEngine.cpp: a
    [SymbolTable] and one concurrent engine per shard, each with its own threads. *)

From Stdlib Require Import ZArith Lia Bool String.
From stdpp Require Import base tactics decidable numbers option relations strings gmap list.
From S2P Require Import Prelude.
From S2P Require Import Double.
From S2P Require Import Order.
From S2P Require Import MatchingEngine.
From S2P Require Import EngineProps.
From S2P Require Import Fifo.
From S2P Require Import RingBuffer.
From S2P Require Import SymbolTable.
From S2P Require Import ConcurrentEngine.

Local Open Scope Z_scope.

Record ShardedMatchingEngine (R : Type) : Type := Build_ShardedMatchingEngine {
  shards_ : list (CSystem (R := R));
  symbol_table_ : SymbolTable
}.
Arguments Build_ShardedMatchingEngine {R}.
Arguments shards_ {R}.
Arguments symbol_table_ {R}.

Section Sharded.
Context {R : Type} `{BoundedFifo R Order}.
Context (ticks_overflow : double -> Z).
Implicit Types (sh : ShardedMatchingEngine R) (order : Order).

(** [ShardedMatchingEngine(num_shards, buffer_size)]; every shard builds such a [buffer]. *)
Definition Sharded_new (num_shards : Z) (buffer : R) : result (ShardedMatchingEngine R) :=
  t ← SymbolTable_new num_shards;
  Ok (Build_ShardedMatchingEngine (replicate (Z.to_nat num_shards) (cs_fresh buffer)) t).

Definition with_shards sh (ss : list (CSystem (R := R))) : ShardedMatchingEngine R :=
  Build_ShardedMatchingEngine ss (symbol_table_ sh).

Definition with_table sh (t : SymbolTable) : ShardedMatchingEngine R :=
  Build_ShardedMatchingEngine (shards_ sh) t.

(** The calls of [start] and the first parts of [stop] on a shard. *)
Definition cs_start (s : CSystem (R := R)) : CSystem :=
  Build_CSystem (start (cs_engine s)) (cs_submit s) (cs_joining s) (cs_accepted s) (cs_processed s)
    (cs_sealed s).

Definition startAll sh : ShardedMatchingEngine R :=
  Build_ShardedMatchingEngine (cs_start <$> shards_ sh) (freeze (symbol_table_ sh)).

(** The shard [submitOrder] hands an order to, or [None] where it answers [false] itself. *)
Definition route sh order : option nat :=
  let shard_idx := getShardIndex (symbol_table_ sh) (symbol_id order) in
  if shard_idx =? no_shard then None
  else if Z.of_nat (length (shards_ sh)) <=? shard_idx then None
  else Some (Z.to_nat shard_idx).

(** [submitOrder] up to the call of the shard's. *)
Definition sharded_submit sh order : ShardedMatchingEngine R :=
  match route sh order with
  | None => sh
  | Some k => with_shards sh (alter (fun s => cs_begin s order) k (shards_ sh))
  end.

Definition getShard sh (idx : Z) : result (CSystem (R := R)) :=
  match shards_ sh !! Z.to_nat idx with
  | Some s => Ok s
  | None => Throw (OutOfRange "ShardedMatchingEngine::getShard: index out of range")
  end.

(** The threads of all shards take turns. [startAll] is the freeze, then the [start] of each
    shard; [stopAll] is the [stop] of each. Fewer than 2^32 symbols are registered. *)
Inductive sharded_step : ShardedMatchingEngine R -> ShardedMatchingEngine R -> Prop :=
| sh_submit sh order :
    0 <= symbol_id order ->
    (forall k s, route sh order = Some k -> shards_ sh !! k = Some s -> cs_submit s = SOut) ->
    sharded_step sh (sharded_submit sh order)
| sh_internal sh k s s' :
    shards_ sh !! k = Some s -> cinternal ticks_overflow s s' ->
    sharded_step sh (with_shards sh (<[k := s']> (shards_ sh)))
| sh_register sh symbol :
    table_size (symbol_table_ sh) <= UINT32_MAX ->
    sharded_step sh (with_table sh (registerSymbol (symbol_table_ sh) symbol).1)
| sh_freeze sh :
    sharded_step sh (with_table sh (freeze (symbol_table_ sh))).

(** ** The invariant *)

Definition routed (t : SymbolTable) (k : nat) order : Prop :=
  0 <= symbol_id order < table_size t /\ symbol_id order mod num_shards_ t = Z.of_nat k.

(** The orders a shard has been handed. *)
Definition handed (s : CSystem (R := R)) : list Order := cs_accepted s ++ phase_order (cs_submit s).

Record sharded_inv (buffer : R) sh : Prop := {
  sh_table : table_wf (symbol_table_ sh);
  sh_count : num_shards_ (symbol_table_ sh) = Z.of_nat (length (shards_ sh));
  sh_bound : Z.of_nat (length (shards_ sh)) <= UINT64_MAX;
  sh_steps : forall k s, shards_ sh !! k = Some s -> rtc (cstep ticks_overflow) (cs_fresh buffer) s;
  sh_routed : forall k s, shards_ sh !! k = Some s -> Forall (routed (symbol_table_ sh) k) (handed s)
}.

Lemma submit_turn_order (c : ConcurrentMatchingEngine R) ph c' ph' answer :
  submit_turn c ph = (c', ph', answer) ->
  phase_order ph' = if decide (answer = None) then phase_order ph else [].
Proof.
  destruct ph as [|o|o|o]; simpl.
  - by intros [= <- <- <-].
  - destruct (policy_ c); [| |]; try destruct (try_push c o) as [c1 []]; by intros [= <- <- <-].
  - destruct (running_ c); by intros [= <- <- <-].
  - destruct (try_push c o) as [c1 []]; by intros [= <- <- <-].
Qed.

(** A shard's own steps hand it nothing. *)
Lemma cinternal_handed (P : Order -> Prop) s s' :
  cinternal ticks_overflow s s' -> Forall P (handed s) -> Forall P (handed s').
Proof.
  intros Hstep. unfold handed. destruct Hstep as [c ph w acc done_ sealed c' ph' answer Ht| | | | |]; cbn; try done.
  rewrite (submit_turn_order _ _ _ _ _ Ht), !Forall_app. intros [Ha Hp].
  destruct (decide (answer = Some true)) as [->|]; [by rewrite Forall_app|].
  case_decide; [done|]. by split.
Qed.

Lemma route_spec sh order k :
  table_wf (symbol_table_ sh) -> 0 <= symbol_id order -> Z.of_nat (length (shards_ sh)) <= UINT64_MAX ->
  num_shards_ (symbol_table_ sh) = Z.of_nat (length (shards_ sh)) ->
  route sh order = Some k <-> routed (symbol_table_ sh) k order.
Proof.
  intros Hwf Hid Hmax Hn. pose proof Hwf as (Hpos & _). unfold route, routed. rewrite getShardIndex_at by done.
  pose proof (Z.mod_pos_bound (symbol_id order) (num_shards_ (symbol_table_ sh)) Hpos).
  unfold no_shard in *. unfold_int.
  destruct (Z.ltb_spec (symbol_id order) (table_size (symbol_table_ sh))).
  - rewrite (proj2 (Z.eqb_neq _ _)), (proj2 (Z.leb_gt _ _)) by lia. split.
    + intros [= <-]. lia.
    + intros [_ ->]. by rewrite Nat2Z.id.
  - rewrite Z.eqb_refl. split; [done|lia].
Qed.

Lemma routed_grows t t' k order :
  symbols_ t `prefix_of` symbols_ t' -> num_shards_ t' = num_shards_ t -> routed t k order -> routed t' k order.
Proof.
  intros [more Hp] Hn. unfold routed, table_size. rewrite Hp, Hn, length_app. lia.
Qed.

Lemma sharded_submit_inv buffer sh order :
  sharded_inv buffer sh -> 0 <= symbol_id order ->
  (forall k s, route sh order = Some k -> shards_ sh !! k = Some s -> cs_submit s = SOut) ->
  sharded_inv buffer (sharded_submit sh order).
Proof.
  intros [Ht Hn Hm Hs Hr] Hid Hout. unfold sharded_submit.
  destruct (route sh order) as [k|] eqn:Hk; [|done].
  apply route_spec in Hk; [|done..].
  constructor; cbn; rewrite ?length_alter; try done; intros k' s'; rewrite list_lookup_alter;
    (case_decide as Heq; [subst k'|]); try (by intros; eauto);
    intros (s & Hl & ->)%fmap_Some.
  - eapply rtc_r; [by eapply Hs|]. apply cstep_begin. by eapply Hout.
  - specialize (Hr k s Hl). unfold handed in *. cbn. rewrite Forall_app in *. destruct Hr as [Ha _].
    split; [done|]. unfold submit_begin. destruct (running_ _); cbn; [by apply Forall_singleton|constructor].
Qed.

Lemma sharded_step_inv buffer sh sh' :
  sharded_inv buffer sh -> sharded_step sh sh' -> sharded_inv buffer sh'.
Proof.
  intros Hinv Hstep. destruct Hstep as [sh order Hid Hout|sh k s s' Hk Hst|sh symbol Hsz|sh].
  - by apply sharded_submit_inv.
  - destruct Hinv as [Ht Hn Hm Hs Hr]. pose proof (lookup_lt_Some _ _ _ Hk).
    constructor; cbn; rewrite ?length_insert; try done; intros k' s1;
      (destruct (decide (k' = k)) as [->|]; [rewrite list_lookup_insert_eq by done|rewrite list_lookup_insert_ne by done; eauto]);
      intros [= <-].
    + eapply rtc_r; [by eapply Hs|by apply cstep_internal].
    + eapply cinternal_handed; [done|by eapply Hr].
  - destruct Hinv as [Ht Hn Hm Hs Hr]. destruct (registerSymbol (symbol_table_ sh) symbol) as [t r] eqn:Hreg.
    destruct (registerSymbol_spec _ _ _ _ Ht Hsz Hreg) as (Ht' & Hn' & _ & Hp & _).
    constructor; cbn; [done|congruence|done|done|].
    intros k s Hk. eapply Forall_impl; [by eapply Hr|]. intros o. by apply routed_grows.
  - destruct Hinv as [Ht Hn Hm Hs Hr]. by constructor.
Qed.

Lemma Sharded_new_inv n buffer sh :
  0 < n <= UINT64_MAX -> Sharded_new n buffer = Ok sh -> sharded_inv buffer sh.
Proof.
  intros Hn Hnew. unfold Sharded_new in Hnew. destruct (SymbolTable_new n) as [t|] eqn:Ht; [|done].
  injection Hnew as <-. apply SymbolTable_new_wf in Ht as [Ht Hnum]; [|lia].
  constructor; cbn; rewrite ?length_replicate; [done|lia|lia| |];
    intros k s [-> _]%lookup_replicate; [apply rtc_refl|constructor].
Qed.

Lemma sharded_steps_inv buffer sh sh' :
  sharded_inv buffer sh -> rtc sharded_step sh sh' -> sharded_inv buffer sh'.
Proof.
  intros Hinv Hsteps. induction Hsteps as [|s1 s2 s3 Hst _ IH]; [done|]. apply IH. by eapply sharded_step_inv.
Qed.

Lemma startAll_steps sh :
  (forall s, s ∈ shards_ sh -> cs_joining s = false) -> rtc sharded_step sh (startAll sh).
Proof.
  intros Hj. destruct sh as [ss t]. unfold startAll. cbn in *.
  eapply rtc_l; [apply sh_freeze|]. unfold with_table. cbn. generalize (freeze t) as t'. clear t. intros t.
  assert (forall done_ rest, (forall s, s ∈ rest -> cs_joining s = false) ->
    rtc sharded_step (Build_ShardedMatchingEngine (done_ ++ rest) t)
      (Build_ShardedMatchingEngine (done_ ++ (cs_start <$> rest)) t)) as Hall.
  { intros done_ rest. revert done_. induction rest as [|s rest IH]; intros done_ Hr; [apply rtc_refl|].
    eapply rtc_l.
    - apply (sh_internal _ (length done_) s (cs_start s)); [by apply list_lookup_middle|].
      pose proof (Hr s ltac:(by left)) as Hs. destruct s as [c ph w acc d sl]. cbn in *. subst w. apply c_start.
    - unfold with_shards. cbn. rewrite insert_app_r_alt, Nat.sub_diag by lia. cbn.
      specialize (IH (done_ ++ [cs_start s])). rewrite <- !app_assoc in IH. apply IH.
      intros s' Hs'. apply Hr. by right. }
  apply (Hall [] ss Hj).
Qed.

(** ** Properties *)

Context (buffer_takes : forall o : Order, fifo_ok o).

(** C17: the shards are independent sequential engines. Whatever the interleaving of the threads
    of all shards, of submissions and of registrations: an order accepted by shard [k] has a
    registered symbol, whose id is [k] modulo the number of shards (so a symbol is served by one
    shard only), and the engine of shard [k] is what the sequential engine becomes on the
    orders it processed, a prefix of those it accepted, whatever the other shards did. *)
Theorem shards_independent n buffer sh0 sh k s :
  fifo_wf buffer -> fifo_contents buffer = [] -> 0 < n <= UINT64_MAX ->
  Sharded_new n buffer = Ok sh0 -> rtc sharded_step sh0 sh -> shards_ sh !! k = Some s ->
  (forall o, o ∈ cs_accepted s ->
     0 <= symbol_id o < table_size (symbol_table_ sh) /\ symbol_id o mod n = Z.of_nat k /\
     route sh o = Some k) /\
  orders_of (cs_processed s) `prefix_of` cs_accepted s /\
  engine_ (cs_engine s) =
    (engine_run ticks_overflow (MatchingEngine_new default_pool_capacity) (ops_of (cs_processed s))).1.
Proof.
  intros Hwf He Hn Hnew Hsteps Hk. assert (num_shards_ (symbol_table_ sh) = n) as Hnum.
  { assert (num_shards_ (symbol_table_ sh0) = n) as <-.
    { unfold Sharded_new, SymbolTable_new in Hnew. destruct (n =? 0); [done|]. by injection Hnew as <-. }
    pose proof (Sharded_new_inv _ _ _ Hn Hnew) as Hinv. clear Hk Hnew Hn.
    induction Hsteps as [|s1 s2 s3 Hst _ IH]; [done|].
    rewrite IH by (by eapply sharded_step_inv). destruct Hst as [sh1 o|sh1|sh1 sym Hsz|sh1]; cbn; try done.
    - unfold sharded_submit. by destruct (route sh1 o).
    - destruct (registerSymbol (symbol_table_ sh1) sym) as [t r] eqn:Hreg.
      by destruct (registerSymbol_spec _ _ _ _ (sh_table _ _ Hinv) Hsz Hreg) as (_ & ? & _). }
  assert (sharded_inv buffer sh) as [Ht Hc Hm Hs Hr]
    by (eapply sharded_steps_inv; [by eapply Sharded_new_inv|done]).
  pose proof (Hs k s Hk) as Hcs. apply cinv_reachable in Hcs as [_ Ho _ _ _ _ (m & Hpr & _)]; [|done..].
  specialize (Hr k s Hk). unfold handed in Hr. rewrite Forall_app, Forall_forall in Hr.
  destruct Hr as [Hacc _]. split_and!.
  - intros o Hin. pose proof (Hacc o Hin) as [Hid Hmod]. rewrite Hnum in Hmod. split_and!; try done; try lia.
    apply route_spec; try done; try lia. by apply Hacc.
  - rewrite Ho. by apply prefix_app_r.
  - by rewrite <- process_run_engine, Hpr.
Qed.
End Sharded.

(** ** A concrete run: two shards, two symbols, one order for the second *)

Definition sample_routed : Order :=
  let o := Order_default 7 in
  Build_Order (order_id o) (trader_id o) 1 (side o) (type o) (price o) (quantity o)
    (remaining_quantity o) (timestamp o) (received_time o) (priority_seq o).

Definition sample_table : SymbolTable := (registerAll (Build_SymbolTable 2 false [] ∅ []) ["AAPL"; "MSFT"]%string).1.

Definition sample_idle : CSystem := cs_fresh sample_buffer.

Definition sample_started : CSystem := cs_start (cs_fresh sample_buffer).

Definition sample_shard_accepted : CSystem :=
  Build_CSystem (try_push (start (Concurrent_new sample_buffer)) sample_routed).1 SOut false
    [sample_routed] [] [].

Lemma sample_sharded_steps :
  rtc (sharded_step (fun _ => 0)) (Build_ShardedMatchingEngine [sample_idle; sample_idle] (Build_SymbolTable 2 false [] ∅ []))
    (Build_ShardedMatchingEngine [sample_started; sample_shard_accepted] (freeze sample_table)).
Proof.
  eapply rtc_l; [apply (sh_register _ _ "AAPL"); by vm_compute|].
  eapply rtc_l; [apply (sh_register _ _ "MSFT"); by vm_compute|].
  etrans; [apply startAll_steps; by intros s [->|[->|[]%elem_of_nil]%elem_of_cons]%elem_of_cons|].
  set (sh := startAll _).
  assert (sharded_submit sh sample_routed =
    Build_ShardedMatchingEngine [sample_started; cs_begin sample_started sample_routed] (freeze sample_table)) as Hsub
    by reflexivity.
  eapply rtc_l; [apply (sh_submit _ sh sample_routed); [by vm_compute|]|].
  { intros k s Hk. assert (route sh sample_routed = Some 1%nat) as Hr by reflexivity.
    rewrite Hr in Hk. injection Hk as <-. by intros [= <-]. }
  rewrite Hsub. apply rtc_once.
  apply (sh_internal _ (Build_ShardedMatchingEngine [sample_started; cs_begin sample_started sample_routed]
           (freeze sample_table)) 1 (cs_begin sample_started sample_routed) sample_shard_accepted); [done|].
  exact (c_submit (fun _ => 0) (start (Concurrent_new sample_buffer)) (SSwitch sample_routed) false
           [] [] [] _ SOut (Some true) eq_refl).
Qed.

Lemma shards_independent_witness :
  exists sh, rtc (sharded_step (fun _ => 0))
      (Build_ShardedMatchingEngine [sample_idle; sample_idle] (Build_SymbolTable 2 false [] ∅ [])) sh /\
    shards_ sh !! 1%nat = Some sample_shard_accepted /\
    symbol_id sample_routed mod 2 = 1 /\ route sh sample_routed = Some 1%nat.
Proof.
  exists (Build_ShardedMatchingEngine [sample_started; sample_shard_accepted] (freeze sample_table)).
  split; [exact sample_sharded_steps|]. split; [reflexivity|].
  assert (0 < 2 <= UINT64_MAX) as Hn by (unfold_int; lia).
  pose proof (shards_independent (H := ring_fifo) (fun _ => 0) (fun _ => I) 2 sample_buffer _ _ 1 sample_shard_accepted
    (proj1 sample_buffer_wf) (proj2 sample_buffer_wf) Hn eq_refl sample_sharded_steps eq_refl) as [Hall _].
  apply Hall. by left.
Defined.
