(* ===== verification/Journal.v ===== *)
(** * Journal: the record format and the journal writer

    The class [Journal] of include/Journal.h and src/Journal.cpp: the serialization of events
    ([onEvent]), the producer side ([enqueueSerialized]), the writer thread with its sync
    policy, and [flush]. The file is the list of its bytes; what the operating system answers
    to a write or a sync is an argument of the step that asks. *)

From Stdlib Require Import ZArith Lia Bool String.
From stdpp Require Import base tactics decidable numbers option relations list.
From S2P Require Import Prelude.
From S2P Require Import Order.
From S2P Require Import Events.
From S2P Require Import Bytes.
From S2P Require Import Crc.
From S2P Require Import Fifo.
From S2P Require Import JournalRing.

Local Open Scope Z_scope.

(** ** Record format *)

Definition NEW_ORDER : Z := 1.
Definition CANCEL_ORDER : Z := 2.
Definition FILL : Z := 3.

(** [kMagic] and [kVersion]: "JNL2", 3. *)
Definition kMagic : list Z := [74; 78; 76; 50].
Definition kVersion : Z := 3.
Definition journal_header : list Z := kMagic ++ [kVersion].

Definition order_type_code (t : OrderType) : Z :=
  match t with MARKET => 0 | LIMIT => 1 | IOC => 2 | FOK => 3 end.

Definition bool_byte (b : bool) : Z := if b then 1 else 0.

(** The payloads, field by field. *)
Definition accepted_payload (e : OrderAcceptedEvent) : list Z :=
  putU64BE (oa_timestamp e) ++ putU64BE (oa_orderId e) ++
  putU32BE (oa_symbolId e) ++ putU32BE (oa_traderId e) ++
  putU8 (bool_byte (oa_isBuy e)) ++ putI64BE (oa_priceTicks e) ++
  putU32BE (oa_quantity e) ++ putU32BE (oa_remainingQuantity e) ++
  putU8 (order_type_code (oa_orderType e)) ++ putU64BE (oa_prioritySeq e).

Definition cancelled_payload (e : OrderCancelledEvent) : list Z :=
  putU64BE (oc_timestamp e) ++ putU64BE (oc_orderId e).

Definition trade_payload (e : TradeEvent) : list Z :=
  putU64BE (te_timestamp e) ++ putU64BE (te_restingOrderId e) ++
  putU64BE (te_aggressorOrderId e) ++ putU32BE (te_symbolId e) ++
  putU32BE (te_traderId e) ++ putU32BE (te_tradeQuantity e) ++
  putI64BE (te_tradePriceTicks e) ++ putU8 (bool_byte (te_aggressorIsBuy e)).

(** Command, expected payload size and payload; rejections are not journaled. *)
Definition event_payload (e : MarketEvent) : option (Z * Z * list Z) :=
  match e with
  | OrderAccepted e => Some (NEW_ORDER, 50, accepted_payload e)
  | OrderCancelled e => Some (CANCEL_ORDER, 16, cancelled_payload e)
  | TradeExecuted e => Some (FILL, 45, trade_payload e)
  | OrderRejected _ => None
  end.

(** Length, sequence, command and payload, then the checksum of all of them. *)
Definition record_body (seq cmd : Z) (payload : list Z) : list Z :=
  putU32BE (Z.of_nat (length payload)) ++ putU64BE seq ++ putU8 cmd ++ payload.

Definition frame (seq cmd : Z) (payload : list Z) : list Z :=
  record_body seq cmd payload ++ putU32BE (crc32 (record_body seq cmd payload)).

(** The bytes [onEvent] hands to [enqueueSerialized]. *)
Definition encode (e : MarketEvent) : option (list Z) :=
  '(cmd, size, payload) ← event_payload e;
  if Z.of_nat (length payload) =? size then Some (frame (sequence e) cmd payload) else None.

Definition validateSerialized (data : list Z) : bool :=
  let size := Z.of_nat (length data) in
  (kRecordOverhead <=? size) && (size <=? kMaxRecordSize) &&
  (readU32BE data <=? kMaxPayloadSize) && (kRecordOverhead + readU32BE data =? size).

(** ** The journal object *)

Inductive SyncPolicy : Type := PER_RECORD | PER_N_RECORDS | MANUAL.

Section JournalObject.
Context {R : Type} `{BoundedFifo R (list Z)}.

Record Journal : Type := Build_Journal {
  ring_ : R;
  healthy_ : bool;
  running_ : bool;
  writer_alive : bool;
  fd_open : bool;
  queued_records_ : Z;
  written_records_ : Z;
  last_written_sequence_ : Z;
  sync_policy_ : SyncPolicy;
  sync_every_n_ : Z;
  records_since_sync_ : Z;
  file : list Z
}.

Definition with_health (j : Journal) (healthy running alive : bool) : Journal :=
  Build_Journal (ring_ j) healthy running alive (fd_open j) (queued_records_ j)
    (written_records_ j) (last_written_sequence_ j) (sync_policy_ j) (sync_every_n_ j)
    (records_since_sync_ j) (file j).

Definition with_ring (j : Journal) (r : R) (queued : Z) : Journal :=
  Build_Journal r (healthy_ j) (running_ j) (writer_alive j) (fd_open j) queued
    (written_records_ j) (last_written_sequence_ j) (sync_policy_ j) (sync_every_n_ j)
    (records_since_sync_ j) (file j).

Definition with_file (j : Journal) (bytes : list Z) (since : Z) : Journal :=
  Build_Journal (ring_ j) (healthy_ j) (running_ j) (writer_alive j) (fd_open j) (queued_records_ j)
    (written_records_ j) (last_written_sequence_ j) (sync_policy_ j) (sync_every_n_ j) since bytes.

(** What the system answers while a journal is opened: to [open], to the seeks to the end, to
    the header and back to the end, to the reads of the header, and to the write of a new one (as
    in [writeSerialized] below). *)
Record OpenAnswers : Type := Build_OpenAnswers {
  ans_open : bool;
  ans_size : bool;
  ans_header_seek : bool;
  ans_header_read : bool;
  ans_end_seek : bool;
  ans_header_write : option nat
}.

Definition no_failures : OpenAnswers := Build_OpenAnswers true true true true true None.

(** [Journal(file_path, queue_capacity)] on a file that holds [bytes]; [ring] is what the
    constructor of the ring answers. With the outcome, what the file holds then. *)
Definition Journal_open (os : OpenAnswers) (ring : result R) (queue_capacity : Z) (bytes : list Z)
    : list Z * result Journal :=
  match ring with
  | Throw e => (bytes, Throw e)
  | Ok r =>
      let start b := (b, Ok (Build_Journal r true true true true 0 0 0 MANUAL 1 0 b)) in
      if queue_capacity =? 0 then (bytes, Throw (InvalidArgument "Journal: queue capacity must be > 0"))
      else if negb (ans_open os) then (bytes, Throw (RuntimeError "Journal: cannot open file"))
      else if negb (ans_size os) then (bytes, Throw (RuntimeError "Journal: seek failed"))
      else
        match bytes with
        | _ :: _ =>
            if (length bytes <? 5)%nat then (bytes, Throw (RuntimeError "Journal: truncated header"))
            else if negb (ans_header_seek os) then (bytes, Throw (RuntimeError "Journal: header seek failed"))
            else if negb (ans_header_read os) then (bytes, Throw (RuntimeError "Journal: cannot read header"))
            else if negb (bool_decide (take 4 bytes = kMagic)) || negb (nth 4 bytes 0 =? kVersion)
            then (bytes, Throw (RuntimeError "Journal: incompatible header"))
            else if negb (ans_end_seek os) then (bytes, Throw (RuntimeError "Journal: end seek failed"))
            else start bytes
        | [] =>
            match ans_header_write os with
            | Some n => (take n journal_header, Throw (RuntimeError "Journal: header write failed"))
            | None => start journal_header
            end
        end
  end.

Definition setSyncPolicy (j : Journal) (policy : SyncPolicy) (n : Z) : Journal :=
  Build_Journal (ring_ j) (healthy_ j) (running_ j) (writer_alive j) (fd_open j) (queued_records_ j)
    (written_records_ j) (last_written_sequence_ j) policy (if n =? 0 then 1 else n) 0 (file j).

Definition failStop (j : Journal) : Journal := with_health j false false (writer_alive j).

(** [enqueueSerialized] in the three steps between which the writer may run: its checks, the
    push into the ring, and [++queued_records_] under the lock. *)
Definition enqueue_check (j : Journal) (data : list Z) : Journal * bool :=
  let size := Z.of_nat (length data) in
  if (size =? 0) || (kMaxRecordSize <? size) then (failStop j, false)
  else (j, healthy_ j && running_ j).

Definition enqueue_push (j : Journal) (data : list Z) : Journal * bool :=
  let '(r, taken) := fifo_push (ring_ j) data in
  let j := with_ring j r (queued_records_ j) in
  if taken then (j, true) else (failStop j, false).

Definition enqueue_count (j : Journal) : Journal :=
  with_ring j (ring_ j) (u64 (queued_records_ j + 1)).

Definition enqueueSerialized (j : Journal) (data : list Z) : Journal * bool :=
  let '(j, go) := enqueue_check j data in
  if negb go then (j, false)
  else
    let '(j, taken) := enqueue_push j data in
    if taken then (enqueue_count j, true) else (j, false).

Definition journal_onEvent (j : Journal) (e : MarketEvent) : Journal :=
  match event_payload e with
  | None => j
  | Some _ =>
      match encode e with
      | Some data => (enqueueSerialized j data).1
      | None => failStop j
      end
  end.

(** [writeSerialized]: [written] is the number of bytes the system writes before it fails
    ([None] when it does not), [synced] its answer to [fdatasync]. *)
Definition writeSerialized (j : Journal) (data : list Z) (written : option nat) (synced : bool)
    : Journal * bool :=
  if negb (validateSerialized data) then (j, false)
  else if negb (fd_open j) then (j, false)
  else
    match written with
    | Some n => (with_file j (file j ++ take n data) (records_since_sync_ j), false)
    | None =>
        let since := u64 (records_since_sync_ j + 1) in
        let should_sync :=
          match sync_policy_ j with
          | PER_RECORD => true
          | PER_N_RECORDS => sync_every_n_ j <=? since
          | MANUAL => false
          end in
        let j' := with_file j (file j ++ data) since in
        if should_sync then
          if synced then (with_file j (file j ++ data) 0, true) else (j', false)
        else (j', true)
    end.

(** One turn of [writerThread] with a record to take, or its exit; [None] when it waits. The
    record taken from the ring is written in the same step: no other thread looks at it. *)
Definition writer_turn (j : Journal) (written : option nat) (synced : bool) : option Journal :=
  if negb (writer_alive j) then None
  else
    match fifo_pop (ring_ j) with
    | (r, None) =>
        match fifo_contents (ring_ j) with
        | [] => if running_ j then None else Some (with_health j (healthy_ j) (running_ j) false)
        | _ => Some (with_health (with_ring j r (queued_records_ j)) false false false)
        end
    | (r, Some data) =>
        let j := with_ring j r (queued_records_ j) in
        if negb (validateSerialized data) then Some (with_health j false false false)
        else
          let '(j, ok) := writeSerialized j data written synced in
          if ok then
            Some (Build_Journal (ring_ j) (healthy_ j) (running_ j) (writer_alive j) (fd_open j)
                    (queued_records_ j) (u64 (written_records_ j + 1)) (readU64BE (drop 4 data))
                    (sync_policy_ j) (sync_every_n_ j) (records_since_sync_ j) (file j))
          else Some (with_health j false false false)
    end.

(** The beginning of the destructor: the writer drains the ring and exits; and its end. *)
Definition request_stop (j : Journal) : Journal := with_health j (healthy_ j) false (writer_alive j).

Definition close_file (j : Journal) : Journal :=
  Build_Journal (ring_ j) (healthy_ j) (running_ j) (writer_alive j) false (queued_records_ j)
    (written_records_ j) (last_written_sequence_ j) (sync_policy_ j) (sync_every_n_ j)
    (records_since_sync_ j) (file j).

(** [flush], split where it waits: the target read on entry, the condition that ends the wait
    and the answer given then. *)
Definition flush_target (j : Journal) : Z := queued_records_ j.

Definition flush_ready (target : Z) (j : Journal) : bool :=
  (target <=? written_records_ j) || negb (healthy_ j) || negb (running_ j).

Definition flush_answer (target : Z) (j : Journal) : bool :=
  healthy_ j && (target <=? written_records_ j).

(** [sync] after its [flush] answered [flushed]; [synced] is what [fdatasync] answers. *)
Definition journal_sync (j : Journal) (flushed synced : bool) : Journal * bool :=
  if negb flushed then (j, false)
  else if negb (fd_open j) then (j, false)
  else if negb synced then (with_health j false (running_ j) (writer_alive j), false)
  else (with_file j (file j) 0, true).
End JournalObject.
Arguments Journal R : clear implicits.
