(* ===== verification/JournalIO.v ===== *)
(** * JournalIO: the system calls under the journal

    [writeAll] and [readAll] of src/Journal.cpp against a system that may take or deliver a part
    of what it is asked for, be interrupted ([EINTR]) or fail, and the journal operations over
    them. Journal.v models a write by its outcome; here the outcome is computed. *)

From Stdlib Require Import ZArith Lia Bool String.
From stdpp Require Import base tactics decidable numbers option list.
From S2P Require Import Prelude.
From S2P Require Import Events.
From S2P Require Import Fifo.
From S2P Require Import JournalRing.
From S2P Require Import Bytes.
From S2P Require Import Crc.
From S2P Require Import Journal.

Local Open Scope nat_scope.

(** What [write] or [read] answers: the count of bytes, -1 with [EINTR], -1 otherwise. *)
Inductive io_answer : Type :=
| Count (n : nat)
| Interrupted
| IoError.

(** [writeAll]: the bytes that reach the file and the answer; [None] when the system has not
    answered every call. A write never takes more than it is offered. *)
Fixpoint writeAll (answers : list io_answer) (data : list Z) (written : nat) (out : list Z)
    : option (list Z * bool) :=
  if length data <=? written then Some (out, true)
  else
    match answers with
    | [] => None
    | Interrupted :: answers => writeAll answers data written out
    | IoError :: _ => Some (out, false)
    | Count n :: answers =>
        if n =? 0 then Some (out, false)
        else
          let n := Nat.min n (length data - written) in
          writeAll answers data (written + n) (out ++ take n (drop written data))
    end.

(** [readAll] of [size] bytes from a file whose unread part is [bytes]: the buffer, the rest of
    the file and the answer. A read never delivers more than it is asked for, and 0 bytes at the
    end of the file. *)
Fixpoint readAll (answers : list io_answer) (size : nat) (buffer bytes : list Z)
    : option (list Z * list Z * bool) :=
  if size <=? length buffer then Some (buffer, bytes, true)
  else
    match answers with
    | [] => None
    | Interrupted :: answers => readAll answers size buffer bytes
    | IoError :: _ => Some (buffer, bytes, false)
    | Count n :: answers =>
        let n := Nat.min n (Nat.min (size - length buffer) (length bytes)) in
        if n =? 0 then Some (buffer, bytes, false)
        else readAll answers size (buffer ++ take n bytes) (drop n bytes)
    end.

Lemma writeAll_spec answers data written out out' ok :
  written <= length data -> out = take written data -> writeAll answers data written out = Some (out', ok) ->
  exists n, out' = take n data /\ (if ok then n = length data else n < length data).
Proof.
  revert written out. induction answers as [|a answers IH]; intros written out Hw -> Ha; simpl in Ha;
    destruct (Nat.leb_spec (length data) written) as [Hle|Hlt]; try done.
  1,2: injection Ha as <- <-; exists written; split; [done|lia].
  destruct a as [n| |].
  - destruct (Nat.eqb_spec n 0) as [|Hn]; [injection Ha as <- <-; by exists written|].
    eapply IH; [| |exact Ha]; [lia|]. by rewrite take_take_drop.
  - by apply (IH _ _ Hw eq_refl Ha).
  - injection Ha as <- <-. by exists written.
Qed.

Lemma readAll_spec answers size buffer bytes0 buffer' rest ok :
  length buffer <= size -> length buffer <= length bytes0 -> buffer = take (length buffer) bytes0 ->
  readAll answers size buffer (drop (length buffer) bytes0) = Some (buffer', rest, ok) ->
  exists n, buffer' = take n bytes0 /\ rest = drop n bytes0 /\ n <= length bytes0 /\
    (if ok then n = size else n < size).
Proof.
  remember (length buffer) as k eqn:Hk. revert k buffer Hk.
  induction answers as [|a answers IH]; intros k buffer Hk Hs Hb Heq Ha; simpl in Ha;
    destruct (Nat.leb_spec size (length buffer)) as [Hle|Hlt]; try done.
  1,2: injection Ha as <- <- <-; exists k; split_and!; try done; lia.
  destruct a as [n| |].
  - rewrite length_drop in Ha. set (m := Nat.min n (Nat.min (size - length buffer) (length bytes0 - k))) in *.
    destruct (Nat.eqb_spec m 0) as [|Hm].
    + injection Ha as <- <- <-. exists k. split_and!; try done; lia.
    + rewrite drop_drop in Ha. eapply (IH (k + m)); [| | | |exact Ha].
      * rewrite length_app, length_take, length_drop. lia.
      * lia.
      * lia.
      * rewrite Heq. by rewrite take_take_drop.
  - by apply (IH k buffer Hk Hs Hb Heq).
  - injection Ha as <- <- <-. exists k. split_and!; try done; lia.
Qed.

(** The answers that deliver something. *)
Fixpoint positive_counts (answers : list io_answer) : nat :=
  match answers with
  | [] => 0
  | Count (S _) :: answers => S (positive_counts answers)
  | _ :: answers => positive_counts answers
  end.

(** The loop ends once the system has delivered as often as there are bytes, however often it
    was interrupted. *)
Lemma writeAll_returns answers data written out :
  length data - written <= positive_counts answers -> is_Some (writeAll answers data written out).
Proof.
  revert written out. induction answers as [|a answers IH]; intros written out Hd; simpl in *.
  - by rewrite (proj2 (Nat.leb_le _ _)) by lia.
  - destruct (Nat.leb_spec (length data) written); [done|]. destruct a as [[|n]| |]; [done| |by apply IH|done].
    cbn [positive_counts] in Hd. apply IH. lia.
Qed.

Section Composed.
Context {R : Type} `{BoundedFifo R (list Z)}.
Implicit Types (j : Journal R).

(** [writeSerialized] over the system calls. *)
Definition writeSerialized_io j (data : list Z) (answers : list io_answer) (synced : bool)
    : option (Journal R * bool) :=
  if negb (validateSerialized data) then Some (j, false)
  else if negb (fd_open j) then Some (j, false)
  else
    match writeAll answers data 0 [] with
    | None => None
    | Some (out, false) => Some (with_file j (file j ++ out) (records_since_sync_ j), false)
    | Some (out, true) =>
        let since := u64 (records_since_sync_ j + 1) in
        let should_sync :=
          match sync_policy_ j with
          | PER_RECORD => true
          | PER_N_RECORDS => (sync_every_n_ j <=? since)%Z
          | MANUAL => false
          end in
        let j' := with_file j (file j ++ out) since in
        if should_sync then
          if synced then Some (with_file j (file j ++ out) 0, true) else Some (j', false)
        else Some (j', true)
    end.

(** The header checks of the constructor on a file that is not empty. *)
Definition check_header_io (bytes : list Z) (magic_answers version_answers : list io_answer)
    : option (result unit) :=
  if length bytes <? 5 then Some (Throw (RuntimeError "Journal: truncated header"))
  else
    match readAll magic_answers 4 [] bytes with
    | None => None
    | Some (_, _, false) => Some (Throw (RuntimeError "Journal: cannot read header"))
    | Some (magic, bytes, true) =>
        match readAll version_answers 1 [] bytes with
        | None => None
        | Some (_, _, false) => Some (Throw (RuntimeError "Journal: cannot read header"))
        | Some (version, _, true) =>
            if negb (bool_decide (magic = kMagic)) || negb (nth 0 version 0 =? kVersion)%Z
            then Some (Throw (RuntimeError "Journal: incompatible header"))
            else Some (Ok ())
        end
    end.

(** ** Properties *)

(** C39: short writes, interruptions and failures of [write] never reorder, repeat or skip a
    byte. Whatever the system answers, [writeSerialized] either stores the whole record or the
    part of it that the system took before it failed, which is what Journal.v assumes of it; and
    it returns as soon as the system has delivered once for each byte. *)
Theorem writeSerialized_io_refines j data answers synced :
  (length data <= positive_counts answers -> is_Some (writeSerialized_io j data answers synced)) /\
  forall j' ok, writeSerialized_io j data answers synced = Some (j', ok) ->
    exists written, (match written with Some n => n < length data | None => True end) /\
      writeSerialized j data written synced = (j', ok).
Proof.
  split.
  - intros Hd. unfold writeSerialized_io. destruct (negb (validateSerialized data)); [done|].
    destruct (negb (fd_open j)); [done|].
    destruct (writeAll_returns answers data 0 []) as [[out []] ->]; [lia| |done].
    destruct (match _ with PER_RECORD => _ | _ => _ end); [|done]. by destruct synced.
  - intros j' ok. unfold writeSerialized_io, writeSerialized. intros Hw.
    destruct (negb (validateSerialized data)); [injection Hw as <- <-; by exists None|].
    destruct (negb (fd_open j)); [injection Hw as <- <-; by exists None|].
    destruct (writeAll answers data 0 []) as [[out o]|] eqn:Ha; [|done].
    apply writeAll_spec in Ha as (n & -> & Hn); [|lia|done]. destruct o.
    + exists None. split; [done|]. subst n. rewrite firstn_all in Hw.
      destruct (match _ with PER_RECORD => _ | _ => _ end); [destruct synced|]; by injection Hw as <- <-.
    + exists (Some n). split; [done|]. by injection Hw as <- <-.
Qed.

(** An [OpenAnswers] in which at most the reads of the header fail. *)
Definition reads (ok : bool) : OpenAnswers := Build_OpenAnswers true true true ok true None.

(** The constructor accepts the header of a file exactly when [Journal_open] does, however the
    system cuts the reads. *)
Lemma check_header_io_spec (r : R) capacity bytes ma va res :
  bytes <> [] -> (0 < capacity)%Z -> check_header_io bytes ma va = Some res ->
  exists ok, res = ((Journal_open (reads ok) (Ok r) capacity bytes).2 ≫= fun _ => Ok ()).
Proof.
  intros Hne Hcap Hc. unfold Journal_open. rewrite (proj2 (Z.eqb_neq _ _)) by lia. cbn [reads ans_open ans_size
    ans_header_seek ans_header_read ans_end_seek negb].
  destruct bytes as [|b0 bytes0]; [done|]. set (bytes := b0 :: bytes0) in *. unfold check_header_io in Hc.
  destruct (Nat.ltb_spec (length bytes) 5) as [Hlt|Hge]; [exists true; by injection Hc as <-|].
  destruct (readAll ma 4 [] bytes) as [[[magic rest] ok]|] eqn:Hm; [|done].
  destruct (readAll_spec ma 4 [] bytes magic rest ok) as (n & -> & -> & _ & Hn);
    [simpl; lia|simpl; lia|done|exact Hm|].
  destruct ok; [subst n|exists false; by injection Hc as <-].
  destruct (readAll va 1 [] (drop 4 bytes)) as [[[version rest] ok]|] eqn:Hv; [|done].
  destruct (readAll_spec va 1 [] (drop 4 bytes) version rest ok) as (n & -> & _ & _ & Hn);
    [simpl; lia|simpl; lia|done|exact Hv|].
  destruct ok; [subst n; exists true|exists false; by injection Hc as <-].
  replace (nth 0 (take 1 (drop 4 bytes)) 0%Z) with (nth 4 bytes 0%Z) in Hc.
  - destruct (bool_decide (take 4 bytes = kMagic)), (nth 4 bytes 0 =? kVersion)%Z; by injection Hc as <-.
  - destruct bytes as [|? [|? [|? [|? [|? ?]]]]]; simpl in *; try lia; done.
Qed.
End Composed.

(** Two short writes around an interruption, and a failure after one byte. *)
Example writeAll_sample :
  writeAll [Count 2; Interrupted; Count 9] [1; 2; 3; 4]%Z 0 [] = Some ([1; 2; 3; 4]%Z, true) /\
  writeAll [Count 1; IoError] [1; 2; 3; 4]%Z 0 [] = Some ([1]%Z, false).
Proof. by split. Qed.

Definition sample_cancel_record : list Z :=
  default [] (encode (OrderCancelled (Build_OrderCancelledEvent 5 1 7 1 2 4))).

Definition sample_open_journal : Journal unit :=
  Build_Journal tt true true true true 1 0 0 MANUAL 1 0 journal_header.

Lemma writeSerialized_io_refines_witness :
  exists j' written, length sample_cancel_record = 33 /\
    writeSerialized_io sample_open_journal sample_cancel_record [Count 10; Interrupted; IoError] true = Some (j', false) /\
    writeSerialized sample_open_journal sample_cancel_record written true = (j', false).
Proof.
  destruct (writeSerialized_io sample_open_journal sample_cancel_record [Count 10; Interrupted; IoError] true)
    as [[j' ok]|] eqn:Hw; [|vm_compute in Hw; discriminate].
  assert (ok = false) as -> by (vm_compute in Hw; congruence).
  destruct (proj2 (writeSerialized_io_refines _ _ _ _) j' false Hw) as (written & _ & Hwr).
  exists j', written. split; [vm_compute; reflexivity|]. split; [reflexivity|exact Hwr].
Defined.
