(* ===== verification/JournalProps.v ===== *)
(** * JournalProps: the journal file holds what was accepted, in order

    The producer thread and the writer thread as a step relation over the journal object,
    proved against the interface of the ring ([BoundedFifo]). *)

From Stdlib Require Import ZArith Lia Bool String.
From stdpp Require Import base tactics decidable numbers option relations list.
From S2P Require Import Prelude.
From S2P Require Import Double.
From S2P Require Import Order.
From S2P Require Import Events.
From S2P Require Import Bytes.
From S2P Require Import Crc.
From S2P Require Import Fifo.
From S2P Require Import JournalRing.
From S2P Require Import Journal.

Local Open Scope Z_scope.

(** ** Records *)

Lemma length_frame seq cmd payload :
  length (frame seq cmd payload) = (length payload + 17)%nat.
Proof.
  unfold frame, record_body, putU8.
  rewrite !length_app, !length_putU32BE, length_putU64BE. cbn [length]. lia.
Qed.

Lemma event_payload_length e cmd size payload :
  event_payload e = Some (cmd, size, payload) ->
  Z.of_nat (length payload) = size /\ 0 < size <= 50 /\ 1 <= cmd <= 3.
Proof.
  unfold event_payload, NEW_ORDER, CANCEL_ORDER, FILL.
  destruct e; intros [= <- <- <-]; (split; [reflexivity|]); lia.
Qed.

(** The size test of [onEvent] never fails. *)
Lemma encode_frame e cmd size payload :
  event_payload e = Some (cmd, size, payload) ->
  encode e = Some (frame (sequence e) cmd payload).
Proof.
  intros He. unfold encode. rewrite He. simpl.
  apply event_payload_length in He as (-> & _). by rewrite Z.eqb_refl.
Qed.

Lemma encode_inv e data :
  encode e = Some data ->
  exists cmd size payload, event_payload e = Some (cmd, size, payload) /\
    data = frame (sequence e) cmd payload.
Proof.
  intros He. destruct (event_payload e) as [[[cmd size] payload]|] eqn:Hp.
  - rewrite (encode_frame _ _ _ _ Hp) in He. injection He as <-. eauto 6.
  - unfold encode in He. by rewrite Hp in He.
Qed.

(** What the journal writes passes its own validation. *)
Lemma encode_valid e data :
  encode e = Some data -> validateSerialized data = true /\ record_ok data.
Proof.
  intros (cmd & size & payload & Hp & ->)%encode_inv.
  apply event_payload_length in Hp as (Hl & Hs & _).
  assert (Z.of_nat (length (frame (sequence e) cmd payload)) = size + 17) as Hlen
    by (rewrite length_frame; lia).
  unfold validateSerialized, record_ok. rewrite Hlen.
  assert (readU32BE (frame (sequence e) cmd payload) = size) as ->.
  { unfold frame, record_body. rewrite <- !app_assoc, readU32BE_put by (unfold_int; lia). done. }
  unfold kRecordOverhead, kMaxRecordSize, kMaxPayloadSize. split; [|lia].
  rewrite !andb_true_iff, !Z.leb_le, Z.eqb_eq. lia.
Qed.

Section System.
Context {R : Type} `{BoundedFifo R (list Z)}.
Context (ring_takes : forall data : list Z, record_ok data -> fifo_ok data).

(** ** The two threads *)

(** Where the producer is inside [enqueueSerialized]. *)
Inductive phase : Type := Idle | Checked (data : list Z) | Pushed.

(** [js_accepted] is the history of the records the ring took. *)
Record JSystem : Type := Build_JSystem {
  js_journal : Journal R;
  js_phase : phase;
  js_accepted : list (list Z)
}.

Inductive jstep : JSystem -> JSystem -> Prop :=
| j_check j acc e data :
    encode e = Some data ->
    jstep (Build_JSystem j Idle acc)
      (Build_JSystem (enqueue_check j data).1
         (if (enqueue_check j data).2 then Checked data else Idle) acc)
| j_push j acc data :
    jstep (Build_JSystem j (Checked data) acc)
      (Build_JSystem (enqueue_push j data).1
         (if (enqueue_push j data).2 then Pushed else Idle)
         (if (enqueue_push j data).2 then acc ++ [data] else acc))
| j_count j acc :
    jstep (Build_JSystem j Pushed acc) (Build_JSystem (enqueue_count j) Idle acc)
| j_writer j ph acc written synced j' :
    writer_turn j written synced = Some j' ->
    jstep (Build_JSystem j ph acc) (Build_JSystem j' ph acc)
| j_policy j ph acc policy n :
    jstep (Build_JSystem j ph acc) (Build_JSystem (setSyncPolicy j policy n) ph acc)
| j_sync j ph acc flushed synced :
    jstep (Build_JSystem j ph acc) (Build_JSystem (journal_sync j flushed synced).1 ph acc)
| j_stop j ph acc :
    jstep (Build_JSystem j ph acc) (Build_JSystem (request_stop j) ph acc)
| j_close j ph acc :
    writer_alive j = false ->
    jstep (Build_JSystem j ph acc) (Build_JSystem (close_file j) ph acc).

(** A journal just opened over [bytes], with an empty ring. *)
Inductive journal_reachable (r : R) (bytes : list Z) : JSystem -> Prop :=
| journal_reachable_open os capacity j :
    (Journal_open os (Ok r) capacity bytes).2 = Ok j -> journal_reachable r bytes (Build_JSystem j Idle [])
| journal_reachable_step s s' :
    journal_reachable r bytes s -> jstep s s' -> journal_reachable r bytes s'.

(** ** The invariant *)

(** The bytes in the file before the first record. *)
Definition opening (bytes : list Z) : list Z :=
  match bytes with [] => journal_header | _ => bytes end.

(** The records whose [++queued_records_] has run. *)
Definition counted (s : JSystem) : nat :=
  match js_phase s with Pushed => pred (length (js_accepted s)) | _ => length (js_accepted s) end.

(** [w] records are written; a writer that died may have left part of the next one behind. *)
Definition written_inv (pre : list Z) (j : Journal R) (acc : list (list Z)) (w : nat)
    (partial : list Z) : Prop :=
  (w <= length acc)%nat /\ written_records_ j = u64 (Z.of_nat w) /\
  file j = pre ++ concat (take w acc) ++ partial /\
  if writer_alive j
  then partial = [] /\ fifo_contents (ring_ j) = drop w acc /\ fd_open j = true
  else running_ j = false /\
    ((partial = [] /\ fifo_contents (ring_ j) = drop w acc) \/
     (healthy_ j = false /\ exists d, acc !! w = Some d /\ partial `prefix_of` d /\
       fifo_contents (ring_ j) = drop (S w) acc)).

Definition jinv (pre : list Z) (s : JSystem) : Prop :=
  let j := js_journal s in
  fifo_wf (ring_ j) /\
  Forall (fun d => validateSerialized d = true /\ record_ok d) (js_accepted s) /\
  (forall d, js_phase s = Checked d -> validateSerialized d = true /\ record_ok d) /\
  (js_phase s = Pushed -> js_accepted s <> []) /\
  queued_records_ j = u64 (Z.of_nat (counted s)) /\
  exists w partial, written_inv pre j (js_accepted s) w partial.

Implicit Types (pre : list Z) (j : Journal R) (acc : list (list Z)).

(** Steps that touch neither the ring, the counters nor the file. *)
Lemma written_inv_health pre j acc w partial healthy running :
  (healthy = true -> healthy_ j = true) -> (running = true -> running_ j = true) ->
  written_inv pre j acc w partial ->
  written_inv pre (with_health j healthy running (writer_alive j)) acc w partial.
Proof.
  unfold written_inv. simpl. intros Hh Hr (Hw & Hwr & Hf & Hrest). split_and!; [done..|].
  destruct (writer_alive j); [done|]. destruct Hrest as [Hrun Hrest].
  split; [destruct running; [symmetry in Hrun; by rewrite Hr in Hrun|done]|].
  destruct Hrest as [?|[Hu ?]]; [by left|right].
  split; [destruct healthy; [by rewrite Hh in Hu|done]|done].
Qed.

Lemma written_inv_push pre j acc w partial r q data :
  fifo_contents r = fifo_contents (ring_ j) ++ [data] ->
  written_inv pre j acc w partial ->
  written_inv pre (with_ring j r q) (acc ++ [data]) w partial.
Proof.
  unfold written_inv. simpl. intros Hc (Hw & Hwr & Hf & Hrest). rewrite length_app. simpl.
  rewrite take_app_le, drop_app_le by lia. split_and!; [lia|done|done|]. rewrite Hc.
  destruct (writer_alive j).
  - by destruct Hrest as (-> & -> & ->).
  - destruct Hrest as [-> [[-> ->]|(Hh & d & Hd & Hp & ->)]]; (split; [done|]); [by left|right].
    split; [done|]. exists d. apply lookup_lt_Some in Hd as Hlt.
    rewrite lookup_app_l, drop_app_le by lia. auto.
Qed.

Lemma written_inv_ring pre j acc w partial r q :
  fifo_contents r = fifo_contents (ring_ j) ->
  written_inv pre j acc w partial -> written_inv pre (with_ring j r q) acc w partial.
Proof. unfold written_inv. simpl. by intros ->. Qed.

(** One record leaves the ring; its bytes reach the file, in part when the write fails. *)
Lemma writer_turn_inv pre j acc w written synced j' :
  fifo_wf (ring_ j) -> Forall (fun d => validateSerialized d = true /\ record_ok d) acc ->
  written_inv pre j acc w [] -> writer_alive j = true ->
  writer_turn j written synced = Some j' ->
  fifo_wf (ring_ j') /\ queued_records_ j' = queued_records_ j /\
  exists w' partial, written_inv pre j' acc w' partial.
Proof.
  intros Hwf Hacc (Hw & Hwr & Hf & Hrest) Halive Hturn. unfold writer_turn in Hturn.
  rewrite Halive in Hrest, Hturn. destruct Hrest as (_ & Hc & Hopen). cbn [negb] in Hturn.
  pose proof (fifo_pop_spec (ring_ j) Hwf) as Hp. destruct (fifo_pop (ring_ j)) as [r got].
  destruct Hp as (Hwf' & _ & -> & Hc'). rewrite Hc in *.
  destruct (drop w acc) as [|d rest] eqn:Hd; cbn [head tail] in *.
  { destruct (running_ j) eqn:Hrun; [done|]. injection Hturn as <-. simpl.
    split; [done|]. split; [done|]. exists w, []. unfold written_inv. simpl.
    split_and!; [done..|]. left. by rewrite Hd. }
  assert (acc !! w = Some d) as Hlook.
  { rewrite <- (Nat.add_0_r w), <- lookup_drop, Hd. done. }
  assert (drop (S w) acc = rest) as Hrest.
  { pose proof (drop_S acc d w Hlook) as Hs. rewrite Hd in Hs. by injection Hs. }
  assert (Hfail : forall partial since,
    partial `prefix_of` d ->
    written_inv pre (with_health (with_file (with_ring j r (queued_records_ j))
      (file j ++ partial) since) false false false) acc w partial).
  { intros partial since Hpre. unfold written_inv. simpl. rewrite Hf, app_nil_r, <- app_assoc.
    split_and!; [done..|]. right. split; [done|]. exists d. by rewrite Hc', Hrest. }
  rewrite Forall_forall in Hacc. specialize (Hacc d).
  destruct Hacc as [Hvalid _]; [by eapply list_elem_of_lookup_2|].
  rewrite Hvalid in Hturn. cbn [negb] in Hturn. unfold writeSerialized in Hturn.
  rewrite Hvalid in Hturn. cbn [negb with_ring fd_open file] in Hturn. rewrite Hopen in Hturn.
  cbn [negb] in Hturn.
  destruct written as [n|].
  { injection Hturn as <-. split; [done|]. split; [done|]. exists w, (take n d).
    apply Hfail, prefix_take. }
  set (since := u64 _) in Hturn. set (should := match _ with PER_RECORD => _ | _ => _ end) in Hturn.
  assert (Hok : forall k s since, written_inv pre (Build_Journal r (healthy_ j) (running_ j) true
    (fd_open j) (queued_records_ j) (u64 (written_records_ j + 1)) k (sync_policy_ j) s since
    (file j ++ d)) acc (S w) []).
  { intros k s0 since'. unfold written_inv. simpl. apply lookup_lt_Some in Hlook as Hlt.
    rewrite (take_S_r _ _ d), concat_app by done. simpl. rewrite Hf, !app_nil_r, <- app_assoc, Hc', Hrest.
    rewrite Hwr, u64_add_l, Nat2Z.inj_succ. split_and!; try done; lia. }
  destruct should; [destruct synced|]; injection Hturn as <-; simpl;
    (split; [done|]); (split; [done|]); rewrite ?Halive.
  - by exists (S w), [].
  - exists w, d. by apply Hfail.
  - by exists (S w), [].
Qed.

Lemma jinv_step pre s s' : jinv pre s -> jstep s s' -> jinv pre s'.
Proof.
  intros (Hwf & Hacc & Hck & Hne & Hq & w & partial & Hinv) Hstep. unfold jinv.
  destruct Hstep as [j acc e data He|j acc data|j acc|j ph acc written synced j' Hturn
    |j ph acc policy n|j ph acc flushed synced|j ph acc|j ph acc Hdead]; cbn in *.
  - apply encode_valid in He as [Hv Hr]. unfold enqueue_check. destruct (_ || _); simpl.
    + split_and!; try done. exists w, partial. by apply written_inv_health.
    + split_and!; try done.
      * intros d. destruct (_ && _); [by intros [= <-]|done].
      * by destruct (_ && _).
      * rewrite Hq. by destruct (_ && _).
      * eauto.
  - destruct (Hck data eq_refl) as [Hv Hr]. unfold enqueue_push.
    pose proof (fifo_push_spec (ring_ j) data Hwf (ring_takes _ Hr)) as Hp.
    destruct (fifo_push (ring_ j) data) as [r taken]. destruct Hp as (Hwf' & _ & _ & Hc).
    destruct taken; simpl.
    + split; [done|]. split; [apply Forall_app; by rewrite Forall_singleton|]. split; [done|].
      split; [by destruct acc|]. split; [rewrite Hq; unfold counted; simpl; rewrite length_app; simpl; do 2 f_equal; lia|].
      exists w, partial. by apply written_inv_push.
    + split_and!; try done. exists w, partial.
      apply (written_inv_health pre (with_ring j r (queued_records_ j))); [done..|].
      by apply written_inv_ring.
  - split_and!; try done.
    + rewrite Hq, u64_add_l. unfold counted. simpl. destruct acc; [by destruct Hne|]. f_equal. simpl. lia.
    + exists w, partial. by apply written_inv_ring.
  - assert (writer_alive j = true) as Halive by (unfold writer_turn in Hturn; by destruct (writer_alive j)).
    assert (partial = []) as ->.
    { destruct Hinv as (_ & _ & _ & Hrest). rewrite Halive in Hrest. by destruct Hrest. }
    eapply writer_turn_inv in Hinv as (Hwf' & Hq' & Hinv'); [|done..].
    split_and!; try done. by rewrite Hq'.
  - split_and!; try done. by exists w, partial.
  - unfold journal_sync. destruct flushed, (fd_open j), synced; cbn; split_and!; try done;
      exists w, partial; first [done | by apply written_inv_health].
  - split_and!; try done. exists w, partial. by apply written_inv_health.
  - split_and!; try done. exists w, partial. revert Hinv. unfold written_inv. cbn. by rewrite Hdead.
Qed.

(** A journal that was opened: over the header it has written, or one it has accepted. *)
Lemma Journal_open_Ok os r capacity bytes f j :
  Journal_open os (Ok r) capacity bytes = (f, Ok j) ->
  f = opening bytes /\ j = Build_Journal r true true true true 0 0 0 MANUAL 1 0 (opening bytes) /\
  capacity <> 0.
Proof.
  unfold Journal_open, opening. destruct (Z.eqb_spec capacity 0); [done|].
  destruct (ans_open os), (ans_size os); try done. cbn [negb]. destruct bytes as [|b bytes].
  - destruct (ans_header_write os); [done|]. by intros [= <- <-].
  - repeat case_match; try done; by intros [= <- <-].
Qed.

(** A constructor that throws leaves the file alone, unless it was empty: then it holds at most
    part of the header. *)
Lemma Journal_open_Throw os (ring : result R) capacity bytes f e :
  Journal_open os ring capacity bytes = (f, Throw e) ->
  f = bytes \/ (bytes = [] /\ f `prefix_of` journal_header).
Proof.
  unfold Journal_open. repeat case_match; intros; simplify_eq/=; auto. right. split; [done|]. apply prefix_take.
Qed.

Lemma journal_open_inv os r bytes capacity j :
  fifo_wf r -> fifo_contents r = [] -> (Journal_open os (Ok r) capacity bytes).2 = Ok j ->
  jinv (opening bytes) (Build_JSystem j Idle []).
Proof.
  intros Hr Hc Hopen. destruct (Journal_open os (Ok r) capacity bytes) as [f res] eqn:Ho. cbn in Hopen. subst res.
  apply Journal_open_Ok in Ho as (_ & -> & _).
  unfold jinv. simpl. split_and!; try done. exists 0%nat, []. unfold written_inv. simpl.
  rewrite app_nil_r. split_and!; done.
Qed.

Lemma jinv_reachable r bytes s :
  fifo_wf r -> fifo_contents r = [] -> journal_reachable r bytes s -> jinv (opening bytes) s.
Proof.
  intros Hr Hc. induction 1; [by eapply journal_open_inv|by eapply jinv_step].
Qed.

(** ** Progress of the writer *)

(** Turns of the writer while the system accepts every write. *)
Fixpoint writer_turns (n : nat) (j : Journal R) : Journal R :=
  match n with
  | O => j
  | S n => match writer_turn j None true with Some j' => writer_turns n j' | None => j end
  end.

Lemma writer_turn_Some j d rest :
  fifo_wf (ring_ j) -> validateSerialized d = true -> fifo_contents (ring_ j) = d :: rest ->
  writer_alive j = true -> fd_open j = true ->
  exists j', writer_turn j None true = Some j' /\ fifo_wf (ring_ j') /\
    fifo_contents (ring_ j') = rest /\ writer_alive j' = true /\ healthy_ j' = healthy_ j /\
    running_ j' = running_ j /\ fd_open j' = fd_open j /\ file j' = file j ++ d.
Proof.
  intros Hwf Hv Hc Halive Ho. unfold writer_turn. rewrite Halive. cbn [negb].
  pose proof (fifo_pop_spec (ring_ j) Hwf) as Hp. destruct (fifo_pop (ring_ j)) as [r got].
  destruct Hp as (Hwf' & _ & -> & Hc'). rewrite Hc in *. cbn [head tail] in *.
  rewrite Hv. cbn [negb]. unfold writeSerialized. rewrite Hv. cbn [negb with_ring fd_open].
  rewrite Ho. cbn [negb]. destruct (match _ with PER_RECORD => _ | _ => _ end);
    eexists; (split; [reflexivity|]); split_and!; done.
Qed.

Lemma writer_turn_empty j :
  fifo_wf (ring_ j) -> fifo_contents (ring_ j) = [] -> writer_alive j = true -> running_ j = false ->
  exists j', writer_turn j None true = Some j' /\ writer_alive j' = false /\
    healthy_ j' = healthy_ j /\ fifo_contents (ring_ j') = [] /\ file j' = file j.
Proof.
  intros Hwf Hc Halive Hrun. unfold writer_turn. rewrite Halive. cbn [negb].
  pose proof (fifo_pop_spec (ring_ j) Hwf) as Hp. destruct (fifo_pop (ring_ j)) as [r got].
  destruct Hp as (_ & _ & -> & _). rewrite Hc. cbn [head]. rewrite Hrun.
  eexists. split; [reflexivity|]. split_and!; done.
Qed.

Lemma writer_turns_drain n j :
  fifo_wf (ring_ j) -> Forall (fun d => validateSerialized d = true) (fifo_contents (ring_ j)) ->
  length (fifo_contents (ring_ j)) = n -> writer_alive j = true -> running_ j = false ->
  fd_open j = true ->
  let j' := writer_turns (S n) j in
  writer_alive j' = false /\ healthy_ j' = healthy_ j /\ fifo_contents (ring_ j') = [] /\
  file j' = file j ++ concat (fifo_contents (ring_ j)).
Proof.
  revert j. induction n as [|n IH]; intros j Hwf Hv Hlen Halive Hrun Ho; simpl.
  - apply nil_length_inv in Hlen.
    destruct (writer_turn_empty j) as (j' & -> & ? & ? & ? & ->); [done..|].
    rewrite Hlen, app_nil_r. done.
  - destruct (fifo_contents (ring_ j)) as [|d rest] eqn:Hc; [done|].
    apply Forall_cons in Hv as [Hd Hrest]. injection Hlen as Hlen.
    destruct (writer_turn_Some j d rest) as (j1 & -> & Hwf1 & Hc1 & Ha1 & Hh1 & Hr1 & Ho1 & Hf1); [done..|].
    destruct (IH j1) as (Ha & Hh & Hc' & Hf); [done|by rewrite Hc1|by rewrite Hc1|congruence..|].
    simpl in *. rewrite Hf, Hf1, Hc1, <- app_assoc. split_and!; congruence.
Qed.

(** ** Properties *)

Context (r : R) (bytes : list Z) (ring_wf : fifo_wf r) (ring_empty : fifo_contents r = []).

(** C8: whatever the interleaving of the producer and the writer and wherever a write fails,
    the file is its old contents (or the header), then a prefix of the accepted records, whole
    and in order, then at most a part of the next one, which only a writer that failed leaves
    behind. While the writer lives, the records not yet in the file are in the ring. *)
Theorem journal_file_prefix s :
  journal_reachable r bytes s ->
  exists w partial,
    file (js_journal s) = opening bytes ++ concat (take w (js_accepted s)) ++ partial /\
    (partial <> [] -> writer_alive (js_journal s) = false /\ healthy_ (js_journal s) = false /\
       exists d, js_accepted s !! w = Some d /\ partial `prefix_of` d) /\
    (writer_alive (js_journal s) = true ->
       partial = [] /\ take w (js_accepted s) ++ fifo_contents (ring_ (js_journal s)) = js_accepted s).
Proof.
  intros Hs. apply jinv_reachable in Hs as (_ & _ & _ & _ & _ & w & partial & Hinv); [|done..].
  destruct Hinv as (Hw & _ & Hf & Hrest). exists w, partial. split; [done|].
  destruct (writer_alive (js_journal s)).
  - destruct Hrest as (-> & -> & _). split; [done|]. by rewrite take_drop.
  - destruct Hrest as [_ [[-> _]|(Hh & d & Hd & Hp & _)]]; (split; [|done]); [done|eauto].
Qed.

Lemma jstep_accepted s s' : jstep s s' -> js_accepted s `prefix_of` js_accepted s'.
Proof. destruct 1; simpl; try done. destruct (enqueue_push j data).2; [by eexists|done]. Qed.

Lemma jsteps_accepted s s' : rtc jstep s s' -> js_accepted s `prefix_of` js_accepted s'.
Proof. induction 1; [done|]. etrans; [by apply jstep_accepted|done]. Qed.

Lemma reachable_steps s s' :
  journal_reachable r bytes s -> rtc jstep s s' -> journal_reachable r bytes s'.
Proof. intros Hs. induction 1; [done|]. eauto using journal_reachable_step. Qed.

(** A [flush] that answers true: the records counted when it was called are in the file, whole. *)
Lemma flush_written s s' w partial :
  jinv (opening bytes) s -> js_accepted s `prefix_of` js_accepted s' ->
  Z.of_nat (length (js_accepted s')) <= UINT64_MAX ->
  written_inv (opening bytes) (js_journal s') (js_accepted s') w partial ->
  flush_answer (flush_target (js_journal s)) (js_journal s') = true ->
  (counted s <= w)%nat /\ partial = [].
Proof.
  intros (_ & _ & _ & _ & Hq & _) [more Hmore] Hmax (Hw & Hwr & _ & Hrest) Hflush.
  unfold flush_answer, flush_target in Hflush. apply andb_true_iff in Hflush as [Hh Hle]. apply Z.leb_le in Hle.
  assert (counted s <= length (js_accepted s))%nat as Hcount by (unfold counted; destruct (js_phase s); lia).
  assert (length (js_accepted s') = length (js_accepted s) + length more)%nat as Hlen
    by (rewrite Hmore, length_app; done).
  rewrite Hq, Hwr, !u64_small in Hle by (unfold_int; lia). split; [lia|].
  destruct (writer_alive (js_journal s')); [by destruct Hrest|].
  destruct Hrest as [_ [[-> _]|[Hu _]]]; [done|congruence].
Qed.

(** C9: [flush] keeps its promise: when it answers true, every record whose enqueue had
    returned when it was called is in the file, whole and in order, before anything accepted
    later. *)
Theorem flush_durable s s' :
  journal_reachable r bytes s -> rtc jstep s s' ->
  Z.of_nat (length (js_accepted s')) <= UINT64_MAX ->
  flush_answer (flush_target (js_journal s)) (js_journal s') = true ->
  exists later,
    file (js_journal s') =
      opening bytes ++ concat (take (counted s) (js_accepted s)) ++ concat later /\
    take (counted s) (js_accepted s) ++ later `prefix_of` js_accepted s'.
Proof.
  intros Hs Hsteps Hmax Hflush. pose proof (reachable_steps s s' Hs Hsteps) as Hs'.
  apply jsteps_accepted in Hsteps as Hmore. apply jinv_reachable in Hs as Hinv; [|done..].
  apply jinv_reachable in Hs' as (_ & _ & _ & _ & _ & w & partial & Hw); [|done..].
  destruct (flush_written s s' w partial Hinv Hmore Hmax Hw Hflush) as [Hle ->].
  destruct Hw as (Hwl & _ & Hf & _). destruct Hmore as [more Hmore].
  assert (counted s <= length (js_accepted s))%nat as Hcount by (unfold counted; destruct (js_phase s); lia).
  exists (drop (counted s) (take w (js_accepted s'))).
  assert (take (counted s) (js_accepted s) = take (counted s) (take w (js_accepted s'))) as Heq.
  { rewrite take_take, Nat.min_l by lia. rewrite Hmore. by rewrite take_app_le by lia. }
  rewrite Heq, take_drop. split; [|apply prefix_take].
  rewrite Hf, app_nil_r, <- concat_app, take_drop. done.
Qed.

Lemma stop_drained pre s :
  jinv pre s -> writer_alive (js_journal s) = true ->
  let j := request_stop (js_journal s) in
  let j' := writer_turns (S (length (fifo_contents (ring_ j)))) j in
  writer_alive j' = false /\ healthy_ j' = healthy_ (js_journal s) /\
  file j' = pre ++ concat (js_accepted s).
Proof.
  intros (Hwf & Hv & _ & _ & _ & w & partial & Hinv) Halive j j'.
  destruct Hinv as (_ & _ & Hf & Hrest). rewrite Halive in Hrest. destruct Hrest as (-> & Hc & Ho).
  destruct (writer_turns_drain (length (fifo_contents (ring_ j))) j) as (Ha & Hh & _ & Hf'); try done.
  { unfold j. simpl. rewrite Hc. apply Forall_drop. eapply Forall_impl; [exact Hv|]. by intros ? []. }
  split; [done|]. split; [done|]. unfold j'. rewrite Hf'. unfold j. simpl.
  rewrite Hf, Hc, app_nil_r, <- app_assoc, <- concat_app, take_drop. done.
Qed.

(** Stopping loses nothing: after the destructor has stopped a journal whose writer is
    alive, the writer, while its writes succeed, empties the ring into the file and exits, and
    the file then holds every accepted record. *)
Theorem stop_drains s :
  journal_reachable r bytes s -> writer_alive (js_journal s) = true ->
  let j := request_stop (js_journal s) in
  let j' := writer_turns (S (length (fifo_contents (ring_ j)))) j in
  writer_alive j' = false /\ healthy_ j' = healthy_ (js_journal s) /\
  file j' = opening bytes ++ concat (js_accepted s).
Proof.
  intros Hs Halive. apply jinv_reachable in Hs; [|done..]. by apply (stop_drained (opening bytes)).
Qed.
End System.

(** ** A sample run *)

Definition sample_accepted : MarketEvent :=
  OrderAccepted (Build_OrderAcceptedEvent 1700000000 41 7 2 9 true 100500000 10 6 LIMIT 3).

Definition sample_cancelled : MarketEvent :=
  OrderCancelled (Build_OrderCancelledEvent 1700000001 42 7 2 9 6).

Definition sample_record : list Z := default [] (encode sample_accepted).

Definition sample_ring : JournalRing :=
  Build_JournalRing 0 0 2 1 (replicate 2 Slot_default).

Definition sample_journal : Journal JournalRing :=
  Build_Journal sample_ring true true true true 0 0 0 MANUAL 1 0 journal_header.

Definition sample_queued : Journal JournalRing :=
  enqueue_count (enqueue_push sample_journal sample_record).1.

Definition sample_written : Journal JournalRing :=
  default sample_queued (writer_turn sample_queued None true).

Lemma journal_ring_takes (data : list Z) :
  record_ok data -> fifo_ok (BoundedFifo := journal_ring_fifo) data.
Proof. done. Qed.

Lemma sample_ring_new : JournalRing_new 2 = Ok sample_ring.
Proof. vm_compute. reflexivity. Qed.

Lemma sample_ring_ok : fifo_wf sample_ring /\ fifo_contents sample_ring = [].
Proof.
  destruct (JournalRing_new_wf 2 sample_ring) as (Hw & Hc & _); [by split|exact sample_ring_new|].
  by split.
Qed.

Lemma sample_queued_reachable :
  journal_reachable sample_ring [] (Build_JSystem sample_queued Idle [sample_record]).
Proof.
  assert (Hpush : (enqueue_push sample_journal sample_record).2 = true) by (vm_compute; reflexivity).
  assert (Hcheck : enqueue_check sample_journal sample_record = (sample_journal, true))
    by (vm_compute; reflexivity).
  apply (journal_reachable_step _ _ (Build_JSystem (enqueue_push sample_journal sample_record).1 Pushed
    [sample_record])); [|constructor].
  apply (journal_reachable_step _ _ (Build_JSystem sample_journal (Checked sample_record) [])).
  - apply (journal_reachable_step _ _ (Build_JSystem sample_journal Idle [])).
    + apply (journal_reachable_open _ _ no_failures 2). reflexivity.
    + pose proof (j_check sample_journal [] sample_accepted sample_record) as H.
      rewrite Hcheck in H. by apply H.
  - pose proof (j_push sample_journal [] sample_record) as H. by rewrite Hpush in H.
Qed.

Lemma sample_steps :
  rtc jstep (Build_JSystem sample_queued Idle [sample_record])
    (Build_JSystem sample_written Idle [sample_record]).
Proof.
  apply rtc_once, (j_writer _ _ _ None true). vm_compute. reflexivity.
Qed.

(** The constructor's check of the queue capacity is never reached: the ring, a member initialized
    before it, is built with the same capacity and has thrown already. *)
Theorem capacity_check_unreachable os capacity bytes :
  (Journal_open os (JournalRing_new capacity) capacity bytes).2 <>
    Throw (InvalidArgument "Journal: queue capacity must be > 0").
Proof.
  unfold Journal_open, JournalRing_new. destruct (Z.eqb_spec capacity 0) as [->|Hne]; [done|].
  destruct (negb _); [done|]. cbn [orb]. repeat case_match; done.
Qed.

Lemma journal_file_prefix_witness :
  writer_alive sample_written = true /\
  exists w partial,
    file sample_written = journal_header ++ concat (take w [sample_record]) ++ partial /\
    (partial <> [] -> writer_alive sample_written = false /\ healthy_ sample_written = false /\
       exists d, [sample_record] !! w = Some d /\ partial `prefix_of` d) /\
    (writer_alive sample_written = true ->
       partial = [] /\ take w [sample_record] ++ fifo_contents (ring_ sample_written) = [sample_record]).
Proof.
  split; [reflexivity|]. destruct sample_ring_ok as [Hw Hc].
  apply (journal_file_prefix journal_ring_takes sample_ring [] Hw Hc
    (Build_JSystem sample_written Idle [sample_record])).
  eapply reachable_steps; [exact sample_queued_reachable|exact sample_steps].
Defined.

Lemma flush_durable_witness :
  flush_answer (flush_target sample_queued) sample_written = true /\
  exists later,
    file sample_written = journal_header ++ concat [sample_record] ++ concat later /\
    [sample_record] ++ later `prefix_of` [sample_record].
Proof.
  split; [vm_compute; reflexivity|]. destruct sample_ring_ok as [Hw Hc].
  apply (flush_durable journal_ring_takes sample_ring [] Hw Hc
    (Build_JSystem sample_queued Idle [sample_record])
    (Build_JSystem sample_written Idle [sample_record]));
    [exact sample_queued_reachable|exact sample_steps|by vm_compute|vm_compute; reflexivity].
Defined.

Lemma stop_drains_witness :
  let j' := writer_turns 2 (request_stop sample_queued) in
  writer_alive j' = false /\ healthy_ j' = true /\ file j' = journal_header ++ concat [sample_record].
Proof.
  destruct sample_ring_ok as [Hw Hc].
  apply (stop_drains journal_ring_takes sample_ring [] Hw Hc
    (Build_JSystem sample_queued Idle [sample_record]));
    [exact sample_queued_reachable|vm_compute; reflexivity].
Defined.
