(* ===== verification/FlushProtocol.v ===== *)
(** * FlushProtocol: who wakes a caller of Journal::flush

    [Journal::flush] and [waitUntilWritten] against the threads that notify [flush_cv_]: the
    writer, [failStop], the failing [sync], the destructor (src/Journal.cpp). The bytes and the
    ring are abstracted to counts; what remains is the protocol of [flush_mutex_], the condition
    variable and [flush_waiter_present_], by which the writer skips notifications nobody waits
    for. A critical section of [flush_mutex_] is one step. *)

From Stdlib Require Import ZArith Lia Bool.
From stdpp Require Import base tactics decidable numbers option relations list.
From S2P Require Import Prelude.

Local Open Scope nat_scope.

(** Where a caller of [flush] is: outside; past the first critical section with its target; past
    the store of the flag; asleep in [flush_cv_.wait]; with its answer, before the flag is
    cleared. *)
Inductive flusher : Type :=
| FOut
| FEntered (target : nat)
| FFlagged (target : nat)
| FParked (target : nat)
| FLeaving (answer : bool).

(** Where the writer is: at the top of its loop; past [++written_records_]; past the load of the
    flag, about to notify; drained and told to stop; out of the loop, before the final
    notification; gone. *)
Inductive writer_state : Type := WrTop | WrCounted | WrNotify | WrDrained | WrExit | WrGone.

(** [fp_pushed] counts the records in the ring so far, [fp_queued] those whose enqueue has
    counted them; [fp_sync_failed] the failing calls of [sync] that have yet to notify. *)
Record FlushState : Type := Build_FlushState {
  fp_pushed : nat;
  fp_queued : nat;
  fp_written : nat;
  fp_healthy : bool;
  fp_running : bool;
  fp_flag : bool;
  fp_writer : writer_state;
  fp_sync_failed : nat;
  fp_flushers : list flusher
}.

(** The condition of the wait, and the answer after it. *)
Definition wait_over (s : FlushState) (target : nat) : bool :=
  (target <=? fp_written s) || negb (fp_healthy s) || negb (fp_running s).

Definition wait_answer (s : FlushState) (target : nat) : bool :=
  fp_healthy s && (target <=? fp_written s).

(** [notify_all]: a sleeper is back at its test, which [FFlagged] is. *)
Definition awaken (f : flusher) : flusher := match f with FParked t => FFlagged t | f => f end.

Definition with_writer (s : FlushState) (w : writer_state) : FlushState :=
  Build_FlushState (fp_pushed s) (fp_queued s) (fp_written s) (fp_healthy s) (fp_running s)
    (fp_flag s) w (fp_sync_failed s) (fp_flushers s).

Definition with_flusher (s : FlushState) (flag : bool) (i : nat) (f : flusher) : FlushState :=
  Build_FlushState (fp_pushed s) (fp_queued s) (fp_written s) (fp_healthy s) (fp_running s)
    flag (fp_writer s) (fp_sync_failed s) (<[i := f]> (fp_flushers s)).

(** [notifyFlush]. *)
Definition notifyFlush (s : FlushState) : FlushState :=
  Build_FlushState (fp_pushed s) (fp_queued s) (fp_written s) (fp_healthy s) (fp_running s)
    (fp_flag s) (fp_writer s) (fp_sync_failed s) (awaken <$> fp_flushers s).

(** [failStop]. *)
Definition fp_failStop (s : FlushState) : FlushState :=
  Build_FlushState (fp_pushed s) (fp_queued s) (fp_written s) false false
    (fp_flag s) (fp_writer s) (fp_sync_failed s) (awaken <$> fp_flushers s).

Definition fp_count (s : FlushState) (pushed queued : nat) : FlushState :=
  Build_FlushState pushed queued (fp_written s) (fp_healthy s) (fp_running s)
    (fp_flag s) (fp_writer s) (fp_sync_failed s) (fp_flushers s).

(** The first critical section of [flush]: the answer, or the target to wait for. *)
Definition flush_enter (s : FlushState) : bool + nat :=
  if fp_queued s <=? fp_written s then inl (fp_healthy s)
  else if negb (fp_healthy s) then inl false
  else inr (fp_queued s).

(** The next access of a caller of [flush]. *)
Definition flusher_turn (s : FlushState) (i : nat) (f : flusher) : option FlushState :=
  match f with
  | FOut => Some (match flush_enter s with
                  | inl _ => s
                  | inr target => with_flusher s (fp_flag s) i (FEntered target)
                  end)
  | FEntered target => Some (with_flusher s true i (FFlagged target))
  | FFlagged target =>
      Some (with_flusher s (fp_flag s) i
              (if wait_over s target then FLeaving (wait_answer s target) else FParked target))
  | FParked _ => None
  | FLeaving _ => Some (with_flusher s false i FOut)
  end.

(** The next access of the writer to what is modelled here; [ok] is whether the record is
    written. [None] when it waits for work, or is gone. *)
Definition writer_access (s : FlushState) (ok : bool) : option FlushState :=
  match fp_writer s with
  | WrTop =>
      if fp_written s <? fp_pushed s then
        if ok then
          Some (Build_FlushState (fp_pushed s) (fp_queued s) (S (fp_written s)) (fp_healthy s)
                  (fp_running s) (fp_flag s) WrCounted (fp_sync_failed s) (fp_flushers s))
        else Some (with_writer (fp_failStop s) WrExit)
      else if fp_running s then None else Some (with_writer s WrDrained)
  | WrCounted => Some (with_writer s (if fp_flag s then WrNotify else WrTop))
  | WrNotify => Some (with_writer (notifyFlush s) WrTop)
  | WrDrained => Some (with_writer (notifyFlush s) WrExit)
  | WrExit => Some (with_writer (notifyFlush s) WrGone)
  | WrGone => None
  end.

Inductive fstep : FlushState -> FlushState -> Prop :=
| f_push s : fstep s (fp_count s (S (fp_pushed s)) (fp_queued s))
| f_count s : fp_queued s < fp_pushed s -> fstep s (fp_count s (fp_pushed s) (S (fp_queued s)))
| f_fail s : fstep s (fp_failStop s)
| f_writer s ok s' : writer_access s ok = Some s' -> fstep s s'
| f_flusher s i f s' : fp_flushers s !! i = Some f -> flusher_turn s i f = Some s' -> fstep s s'
| f_sync_fail s :
    fstep s (Build_FlushState (fp_pushed s) (fp_queued s) (fp_written s) false (fp_running s)
               (fp_flag s) (fp_writer s) (S (fp_sync_failed s)) (fp_flushers s))
| f_sync_notify s n :
    fp_sync_failed s = S n ->
    fstep s (Build_FlushState (fp_pushed s) (fp_queued s) (fp_written s) (fp_healthy s) (fp_running s)
               (fp_flag s) (fp_writer s) n (awaken <$> fp_flushers s))
| f_stop s :
    fstep s (Build_FlushState (fp_pushed s) (fp_queued s) (fp_written s) (fp_healthy s) false
               (fp_flag s) (fp_writer s) (fp_sync_failed s) (fp_flushers s)).

(** [flushers] threads may call [flush]. *)
Definition flush_start (flushers : nat) : FlushState :=
  Build_FlushState 0 0 0 true true false WrTop 0 (replicate flushers FOut).

(** ** One caller at a time *)

(** A notification that will reach the sleepers is still to come. *)
Definition wake_owed (s : FlushState) : Prop :=
  0 < fp_sync_failed s \/ fp_writer s = WrNotify \/ fp_writer s = WrDrained \/ fp_writer s = WrExit \/
  (fp_writer s = WrCounted /\ fp_flag s = true) \/ (fp_running s = false /\ fp_writer s <> WrGone).

Definition waiting (f : flusher) : bool :=
  match f with FFlagged _ | FParked _ | FLeaving _ => true | _ => false end.

Definition finv (s : FlushState) : Prop :=
  exists f, fp_flushers s = [f] /\
    (waiting f = true -> fp_flag s = true) /\
    (forall t, f = FParked t -> wait_over s t = true -> wake_owed s) /\
    (fp_writer s = WrDrained \/ fp_writer s = WrExit \/ fp_writer s = WrGone -> fp_running s = false) /\
    (forall t, f = FParked t -> fp_writer s <> WrGone).

Lemma awaken_not_parked f t : awaken f <> FParked t.
Proof. by destruct f. Qed.

Lemma awaken_waiting f : waiting (awaken f) = waiting f.
Proof. by destruct f. Qed.

(** After a notification nobody sleeps. *)
Lemma finv_notified s f s' :
  fp_flushers s = [f] -> (waiting f = true -> fp_flag s = true) ->
  fp_flushers s' = awaken <$> fp_flushers s -> fp_flag s' = fp_flag s ->
  (fp_writer s' = WrDrained \/ fp_writer s' = WrExit \/ fp_writer s' = WrGone -> fp_running s' = false) -> finv s'.
Proof.
  intros Hf Hw Hf' Hfl Hr. rewrite Hf in Hf'. exists (awaken f). split; [done|].
  rewrite Hfl, awaken_waiting. split; [done|].
  split; [intros t Ht; by apply awaken_not_parked in Ht|]. split; [done|].
  intros t Ht. by apply awaken_not_parked in Ht.
Qed.

Lemma finv_writer s ok s' : finv s -> writer_access s ok = Some s' -> finv s'.
Proof.
  intros (f & Hf & Hw & Hp & Hr & Hg) Ha. unfold writer_access in Ha.
  destruct (fp_writer s) eqn:Hwr; [| | | | |done].
  - destruct (Nat.ltb_spec (fp_written s) (fp_pushed s)); [destruct ok|destruct (fp_running s) eqn:Hrun; [done|]];
      injection Ha as <-.
    + exists f. cbn. split; [done|]. split; [done|]. split; [|split; [by intros [?|[?|?]]|done]].
      intros t -> _. unfold wake_owed. cbn. rewrite (Hw eq_refl). tauto.
    + apply (finv_notified s f); try done.
    + exists f. cbn. split; [done|]. split; [done|]. split; [|by split].
      intros t -> _. unfold wake_owed. cbn. tauto.
  - injection Ha as <-. exists f. cbn. split; [done|]. split; [done|]. split; [|split].
    + intros t -> Hover. pose proof (Hw eq_refl) as Hfl. unfold wake_owed. cbn. rewrite Hfl. tauto.
    + by destruct (fp_flag s); intros [?|[?|?]].
    + intros t _. by destruct (fp_flag s).
  - injection Ha as <-. apply (finv_notified s f); try done. cbn. by intros [?|[?|?]].
  - injection Ha as <-. apply (finv_notified s f); try done. cbn. intros _. apply Hr. by left.
  - injection Ha as <-. apply (finv_notified s f); try done. cbn. intros _. apply Hr. auto.
Qed.

Lemma finv_flusher s i f s' :
  finv s -> fp_flushers s !! i = Some f -> flusher_turn s i f = Some s' -> finv s'.
Proof.
  intros (f1 & Hf & Hw & Hp & Hr & Hg) Hi Ht. rewrite Hf in Hi.
  apply list_lookup_singleton_Some in Hi as [-> ->]. unfold flusher_turn in Ht.
  destruct f as [|t|t|t|a]; [| | |done|]; injection Ht as <-.
  - destruct (flush_enter s) as [a|t]; [by exists FOut|].
    exists (FEntered t). cbn. rewrite Hf. split; [done|]. by split_and!.
  - exists (FFlagged t). cbn. rewrite Hf. by split_and!.
  - destruct (wait_over s t) eqn:Hover.
    + exists (FLeaving (wait_answer s t)). cbn. rewrite Hf. split; [done|]. split; [auto|]. by split_and!.
    + exists (FParked t). cbn. rewrite Hf. split; [done|]. split; [auto|].
      split; [|split; [done|]].
      * intros t' [= <-]. change (wait_over _ t) with (wait_over s t). by rewrite Hover.
      * intros t' _ Hgone. unfold wait_over in Hover. rewrite (Hr ltac:(auto)) in Hover. cbn in Hover.
        by rewrite orb_true_r in Hover.
  - exists FOut. cbn. rewrite Hf. by split_and!.
Qed.

Lemma finv_step s s' : finv s -> fstep s s' -> finv s'.
Proof.
  intros Hinv Hstep. pose proof Hinv as (f & Hf & Hw & Hp & Hr & Hg).
  destruct Hstep as [s|s Hq|s|s ok s' Ha|s i f' s' Hi Ht|s|s n Hn|s].
  - exists f. by split_and!.
  - exists f. by split_and!.
  - by apply (finv_notified s f).
  - by eapply finv_writer.
  - by eapply finv_flusher.
  - exists f. cbn. split; [done|]. split; [done|]. split; [|by split].
    intros t _ _. left. cbn. lia.
  - by apply (finv_notified s f).
  - exists f. cbn. split; [done|]. split; [done|]. split; [|done].
    intros t Ht _. unfold wake_owed. cbn. do 5 right. split; [done|by eapply Hg].
Qed.

Lemma finv_reachable s : rtc fstep (flush_start 1) s -> finv s.
Proof.
  intros Hs. assert (finv (flush_start 1)) as H0 by (exists FOut; split_and!; try done; by intros [?|[?|?]]).
  revert H0. induction Hs as [|s1 s2 s3 Hst _ IH]; [done|]. intros H0. apply IH. by eapply finv_step.
Qed.

(** ** Properties *)

Lemma wait_over_stopped pu qu wr he fl w sf fs t :
  wait_over (Build_FlushState pu qu wr he false fl w sf fs) t = true.
Proof. unfold wait_over. cbn. by rewrite orb_true_r. Qed.

(** The writer alone, its writes succeeding. *)
Fixpoint writer_alone (n : nat) (s : FlushState) : FlushState :=
  match n with
  | O => s
  | S n => match writer_access s true with Some s => writer_alone n s | None => s end
  end.

(** A writer told to stop notifies within three steps. *)
Lemma writer_stopping s t :
  fp_writer s = WrTop -> fp_running s = false -> fp_flag s = true -> fp_flushers s = [FParked t] ->
  exists n, n <= 3 /\ fp_flushers (writer_alone n s) = [FFlagged t] /\ fp_running (writer_alone n s) = false.
Proof.
  destruct s as [pu qu wr he ru fl w sf fs]. cbn. intros -> -> -> ->.
  set (s := Build_FlushState pu qu wr he false true WrTop sf [FParked t]).
  assert (writer_access s true =
    if wr <? pu then Some (Build_FlushState pu qu (S wr) he false true WrCounted sf [FParked t])
    else Some (Build_FlushState pu qu wr he false true WrDrained sf [FParked t])) as Ha by reflexivity.
  destruct (wr <? pu); [exists 3|exists 2]; (split; [lia|]); cbn [writer_alone]; rewrite Ha; split; reflexivity.
Qed.

(** C38: with one caller of [flush] at a time, no wake-up is lost, although the writer skips
    notifications: whenever the caller sleeps and what it waits for has happened (its target is
    written, the journal failed or is stopping), either a failing [sync] is about to notify it or
    the writer does, within three of its own steps; and once awake its next step ends the
    wait. *)
Theorem flush_no_lost_wakeup s t :
  rtc fstep (flush_start 1) s -> fp_flushers s = [FParked t] -> wait_over s t = true ->
  (exists s', fstep s s' /\ 0 < fp_sync_failed s /\ fp_flushers s' = [FFlagged t] /\ wait_over s' t = true) \/
  (exists n, n <= 3 /\ fp_flushers (writer_alone n s) = [FFlagged t] /\
     wait_over (writer_alone n s) t = true /\
     exists s', flusher_turn (writer_alone n s) 0 (FFlagged t) = Some s' /\
       fp_flushers s' = [FLeaving (wait_answer (writer_alone n s) t)]).
Proof.
  intros Hs Hf Hover. pose proof (finv_reachable s Hs) as (f & Hf' & Hw & Hp & _).
  rewrite Hf in Hf'. injection Hf' as <-. specialize (Hw eq_refl).
  specialize (Hp t eq_refl Hover). destruct Hp as [Hsync|Hp].
  { left. destruct (fp_sync_failed s) as [|n] eqn:Hn; [lia|]. eexists.
    split; [by eapply f_sync_notify|]. cbn. rewrite Hf. split_and!; [lia|done|done]. }
  right. assert (forall n, n <= 3 -> fp_flushers (writer_alone n s) = [FFlagged t] ->
    wait_over (writer_alone n s) t = true -> exists n, n <= 3 /\ fp_flushers (writer_alone n s) = [FFlagged t] /\
     wait_over (writer_alone n s) t = true /\
     exists s', flusher_turn (writer_alone n s) 0 (FFlagged t) = Some s' /\
       fp_flushers s' = [FLeaving (wait_answer (writer_alone n s) t)]) as Hdone.
  { intros n Hn Hfn Ho. exists n. split_and!; try done. eexists. split; [reflexivity|]. cbn.
    by rewrite Ho, Hfn. }
  destruct s as [pu qu wr he ru fl w sf fs]. cbn in *. subst fs fl.
  assert (forall k, wr <= k -> (t <=? k) || negb he || negb ru = true) as Hmono.
  { intros k Hk. unfold wait_over in Hover. cbn in Hover. destruct (Nat.leb_spec t wr); [|].
    - by rewrite (proj2 (Nat.leb_le _ _)) by lia.
    - cbn in Hover. rewrite <- orb_assoc. by rewrite Hover, orb_true_r. }
  destruct w; [|apply (Hdone 2)|apply (Hdone 1)|apply (Hdone 1)|apply (Hdone 1)|]; cbn; try lia; try done;
    try (by apply Hmono).
  - destruct Hp as [?|[?|[?|[[? _]|[-> _]]]]]; try done.
    match goal with H : rtc fstep _ ?s |- _ => destruct (writer_stopping s t) as (n & Hn & Hfn & Hr);
      try done end.
    apply (Hdone n); [done|done|]. destruct (writer_alone n _). cbn in Hr. subst. apply wait_over_stopped.
  - destruct Hp as [?|[?|[?|[[? _]|[_ ?]]]]]; done.
Qed.

(** The states of a run with two callers. The second one enters while the first sleeps, and the
    first clears the flag for both. *)
Definition two_callers_stuck : FlushState :=
  Build_FlushState 2 2 2 true true false WrTop 0 [FOut; FParked 2].

(** A healthy running state. *)
Definition calm (pushed queued written : nat) (flag : bool) (w : writer_state) (fs : list flusher) : FlushState :=
  Build_FlushState pushed queued written true true flag w 0 fs.

(** The producer enqueues a record; a caller, then the writer, takes a step. *)
Lemma calm_enqueue p q w fl wr fs :
  q = p -> rtc fstep (calm p q w fl wr fs) (calm (S p) (S q) w fl wr fs).
Proof.
  intros ->. eapply rtc_l; [apply f_push|]. apply rtc_once.
  apply (f_count (calm (S p) p w fl wr fs)). cbn. lia.
Qed.

Lemma calm_flusher p q w fl wr fs i f fl' fs' :
  fs !! i = Some f -> flusher_turn (calm p q w fl wr fs) i f = Some (calm p q w fl' wr fs') ->
  rtc fstep (calm p q w fl wr fs) (calm p q w fl' wr fs').
Proof. intros Hi Ht. apply rtc_once. by eapply f_flusher. Qed.

Lemma calm_writer p q w fl wr fs w' wr' fs' :
  writer_access (calm p q w fl wr fs) true = Some (calm p q w' fl wr' fs') ->
  rtc fstep (calm p q w fl wr fs) (calm p q w' fl wr' fs').
Proof. intros Ht. apply rtc_once. by eapply f_writer. Qed.

Lemma two_callers_run : rtc fstep (flush_start 2) two_callers_stuck.
Proof.
  transitivity (calm 1 1 0 true WrTop [FParked 1; FOut]).
  { etrans; [by apply (calm_enqueue 0 0)|].
    etrans; [by apply (calm_flusher _ _ _ _ _ _ 0 FOut false [FEntered 1; FOut])|].
    etrans; [by apply (calm_flusher _ _ _ _ _ _ 0 (FEntered 1) true [FFlagged 1; FOut])|].
    by apply (calm_flusher _ _ _ _ _ _ 0 (FFlagged 1)). }
  transitivity (calm 2 2 0 true WrTop [FParked 1; FParked 2]).
  { etrans; [by apply (calm_enqueue 1 1)|].
    etrans; [by apply (calm_flusher _ _ _ _ _ _ 1 FOut true [FParked 1; FEntered 2])|].
    etrans; [by apply (calm_flusher _ _ _ _ _ _ 1 (FEntered 2) true [FParked 1; FFlagged 2])|].
    by apply (calm_flusher _ _ _ _ _ _ 1 (FFlagged 2)). }
  transitivity (calm 2 2 1 true WrTop [FFlagged 1; FFlagged 2]).
  { etrans; [by apply (calm_writer _ _ _ _ _ _ 1 WrCounted [FParked 1; FParked 2])|].
    etrans; [by apply (calm_writer _ _ _ _ _ _ 1 WrNotify [FParked 1; FParked 2])|].
    by apply calm_writer. }
  transitivity (calm 2 2 1 false WrTop [FOut; FParked 2]).
  { etrans; [by apply (calm_flusher _ _ _ _ _ _ 0 (FFlagged 1) true [FLeaving true; FFlagged 2])|].
    etrans; [by apply (calm_flusher _ _ _ _ _ _ 1 (FFlagged 2) true [FLeaving true; FParked 2])|].
    by apply (calm_flusher _ _ _ _ _ _ 0 (FLeaving true)). }
  etrans; [by apply (calm_writer _ _ _ _ _ _ 2 WrCounted [FOut; FParked 2])|].
  by apply calm_writer.
Qed.

(** With two callers a wake-up can be lost: the second sleeps although its records are written,
    nobody owes it a notification, and the writer has nothing to do. *)
Theorem two_flushers_lose_a_wakeup :
  exists s, rtc fstep (flush_start 2) s /\ fp_flushers s !! 1 = Some (FParked 2) /\
    wait_over s 2 = true /\ ~ wake_owed s /\ forall ok, writer_access s ok = None.
Proof.
  exists two_callers_stuck. split; [exact two_callers_run|]. split_and!; try done.
  unfold wake_owed. cbn. intros [?|[?|[?|[?|[[? _]|[? _]]]]]]; (done || lia).
Qed.

Definition sample_waiting : FlushState :=
  Build_FlushState 1 1 1 true true true WrCounted 0 [FParked 1].

Lemma sample_waiting_reachable : rtc fstep (flush_start 1) sample_waiting.
Proof.
  etrans; [by apply (calm_enqueue 0 0)|].
  etrans; [by apply (calm_flusher _ _ _ _ _ _ 0 FOut false [FEntered 1])|].
  etrans; [by apply (calm_flusher _ _ _ _ _ _ 0 (FEntered 1) true [FFlagged 1])|].
  etrans; [by apply (calm_flusher _ _ _ _ _ _ 0 (FFlagged 1) true [FParked 1])|].
  by apply calm_writer.
Qed.

Lemma flush_no_lost_wakeup_witness :
  rtc fstep (flush_start 1) sample_waiting /\ wait_over sample_waiting 1 = true /\
  exists n, n <= 3 /\ fp_flushers (writer_alone n sample_waiting) = [FFlagged 1].
Proof.
  split; [exact sample_waiting_reachable|]. split; [reflexivity|].
  destruct (flush_no_lost_wakeup sample_waiting 1 sample_waiting_reachable eq_refl eq_refl)
    as [(s' & _ & Hsf & _)|(n & Hn & Hf & _)].
  - exfalso. cbn in Hsf. lia.
  - exists n. split; [exact Hn|exact Hf].
Defined.
