(* ===== verification/Recovery.v ===== *)
(** * Recovery: replaying a journal into an engine

    The class [Recovery] of include/Recovery.h and src/Recovery.cpp. The input stream is the
    list of the bytes not yet read; a read that finds fewer bytes than it asks for sets
    [eofbit] and [failbit]. *)

From Stdlib Require Import ZArith Lia Bool String.
From stdpp Require Import base tactics decidable numbers option relations list.
From S2P Require Import Prelude.
From S2P Require Import Double.
From S2P Require Import Order.
From S2P Require Import OrderBook.
From S2P Require Import MatchingEngine.
From S2P Require Import Bytes.
From S2P Require Import Crc.
From S2P Require Import JournalRing.
From S2P Require Import Journal.

Local Open Scope Z_scope.

(** ** State *)

Record Recovery : Type := Build_Recovery {
  records_replayed_ : Z;
  new_orders_replayed_ : Z;
  last_sequence_ : Z;
  first_record_ : bool;
  truncated_tail_ : bool;
  max_priority_seq_seen_ : Z
}.

(** [Recovery::Record]. *)
Record Rec : Type := Build_Rec {
  rec_sequence : Z;
  rec_command : Z;
  rec_payload : list Z
}.

(** A new object, and what [replay] resets the state to. *)
Definition Recovery_new : Recovery := Build_Recovery 0 0 0 true false 0.

Definition with_sequence (rc : Recovery) (sequence : Z) : Recovery :=
  Build_Recovery (records_replayed_ rc) (new_orders_replayed_ rc) sequence false
    (truncated_tail_ rc) (max_priority_seq_seen_ rc).

Definition with_max_priority (rc : Recovery) (p : Z) : Recovery :=
  Build_Recovery (records_replayed_ rc) (new_orders_replayed_ rc) (last_sequence_ rc)
    (first_record_ rc) (truncated_tail_ rc) p.

Definition count_record (rc : Recovery) (new_orders : Z) : Recovery :=
  Build_Recovery (u64 (records_replayed_ rc + 1)) (u64 (new_orders_replayed_ rc + new_orders))
    (last_sequence_ rc) (first_record_ rc) (truncated_tail_ rc) (max_priority_seq_seen_ rc).

Definition mark_truncated (rc : Recovery) : Recovery :=
  Build_Recovery (records_replayed_ rc) (new_orders_replayed_ rc) (last_sequence_ rc)
    (first_record_ rc) true (max_priority_seq_seen_ rc).

(** ** Reading *)

(** [file.read(p, n)]: the bytes and the rest of the stream, or [None] when it fails. *)
Definition read_bytes (n : nat) (bytes : list Z) : option (list Z * list Z) :=
  if (n <=? length bytes)%nat then Some (take n bytes, drop n bytes) else None.

Definition readHeader (bytes : list Z) : option (list Z) :=
  '(magic, bytes) ← read_bytes 4 bytes;
  if negb (bool_decide (magic = kMagic)) then None
  else
    '(version, bytes) ← read_bytes 1 bytes;
    if negb (bool_decide (version = [kVersion])) then None else Some bytes.

(** [return false] with neither flag set is [ReadCorrupt]. *)
Inductive read_outcome : Type :=
| ReadCleanEof
| ReadTruncated
| ReadCorrupt
| ReadOk (record : Rec) (rest : list Z).

Definition readRecord (bytes : list Z) : read_outcome :=
  match read_bytes 4 bytes with
  | None => ReadCleanEof
  | Some (len_bytes, bytes) =>
      let payload_length := readU32BE len_bytes in
      if kMaxPayloadSize <? payload_length then ReadCorrupt
      else
        match read_bytes (Z.to_nat (8 + 1 + payload_length)) bytes with
        | None => ReadTruncated
        | Some (tail, bytes) =>
            let body := len_bytes ++ tail in
            match read_bytes 4 bytes with
            | None => ReadTruncated
            | Some (crc_bytes, bytes) =>
                if negb (readU32BE crc_bytes =? crc32 body) then ReadCorrupt
                else ReadOk (Build_Rec (readU64BE (drop 4 body)) (nth 12 body 0) (drop 13 body)) bytes
            end
        end
  end.

(** ** Sequence checks *)

Definition validateSequence (rc : Recovery) (sequence : Z) : Recovery * bool :=
  if first_record_ rc then (with_sequence rc sequence, true)
  else if last_sequence_ rc =? UINT64_MAX then (rc, false)
  else if negb (sequence =? u64 (last_sequence_ rc + 1)) then (rc, false)
  else (with_sequence rc sequence, true).

Definition validatePrioritySequence (rc : Recovery) (priority : Z) : Recovery * bool :=
  if new_orders_replayed_ rc =? 0 then (with_max_priority rc priority, true)
  else if priority <=? max_priority_seq_seen_ rc then (rc, false)
  else (with_max_priority rc priority, true).

Definition getNextPrioritySequence (rc : Recovery) : option Z :=
  if new_orders_replayed_ rc =? 0 then Some 0
  else if max_priority_seq_seen_ rc =? UINT64_MAX then None
  else Some (max_priority_seq_seen_ rc + 1).

Definition nextPrioritySequence (rc : Recovery) : Z := default UINT64_MAX (getNextPrioritySequence rc).

(** ** Records *)

(** The fields of a NEW_ORDER payload. *)
Record NewOrderFields : Type := Build_NewOrderFields {
  nf_timestamp : Z;
  nf_order_id : Z;
  nf_symbol_id : Z;
  nf_trader_id : Z;
  nf_side : Z;
  nf_price_ticks : Z;
  nf_quantity : Z;
  nf_remaining : Z;
  nf_order_type : Z;
  nf_priority_seq : Z
}.

Definition new_order_fields (p : list Z) : NewOrderFields :=
  Build_NewOrderFields (readU64BE p) (readU64BE (drop 8 p)) (readU32BE (drop 16 p))
    (readU32BE (drop 20 p)) (nth 24 p 0) (readI64BE (drop 25 p)) (readU32BE (drop 33 p))
    (readU32BE (drop 37 p)) (nth 41 p 0) (readU64BE (drop 42 p)).

(** [static_cast<double>(price_ticks) / 1000000.0]. *)
Definition ticksToDouble (ticks : Z) : double := ddiv (d_of_Z ticks) (d_of_Z 1000000).

(** The tests on the fields before the priority is looked at: LIMIT is the only type a resting
    order has. *)
Definition new_order_valid (f : NewOrderFields) : bool :=
  negb ((1 <? nf_side f) || (nf_quantity f =? 0) || (nf_remaining f =? 0) ||
        (nf_quantity f <? nf_remaining f)) &&
  negb (3 <? nf_order_type f) && (nf_order_type f =? 1).

(** The order built from the fields; the clock reading of its constructor is overwritten. *)
Definition restored_order (f : NewOrderFields) : result Order :=
  o ← Order_new (nf_order_id f) (nf_trader_id f)
        (if nf_side f =? 1 then BUY else SELL) LIMIT (ticksToDouble (nf_price_ticks f))
        (nf_quantity f) (nf_symbol_id f) 0;
  Ok (set_priority (setTimestamp o (to_i64 (nf_timestamp f))) (nf_priority_seq f)).

Definition replay_new_order (rc : Recovery) (e : MatchingEngine) (payload : list Z)
    : Recovery * MatchingEngine * result bool :=
  if negb (length payload =? 50)%nat then (rc, e, Ok false)
  else
    let f := new_order_fields payload in
    if negb (new_order_valid f) then (rc, e, Ok false)
    else
      let '(rc, fresh) := validatePrioritySequence rc (nf_priority_seq f) in
      if negb fresh then (rc, e, Ok false)
      else
        match restored_order f with
        | Throw ex => (rc, e, Throw ex)
        | Ok order =>
            let '(e, restored) := restoreOrder e order (nf_remaining f) in
            if restored then (count_record rc 1, e, Ok true) else (rc, e, Ok false)
        end.

Definition replay_cancel (rc : Recovery) (e : MatchingEngine) (payload : list Z)
    : Recovery * MatchingEngine * result bool :=
  if negb (length payload =? 16)%nat then (rc, e, Ok false)
  else
    let '(e, cancelled) := restoreCancel e (readU64BE (drop 8 payload)) in
    if cancelled then (count_record rc 0, e, Ok true) else (rc, e, Ok false).

Definition replay_fill (rc : Recovery) (e : MatchingEngine) (payload : list Z)
    : Recovery * MatchingEngine * result bool :=
  if negb (length payload =? 45)%nat then (rc, e, Ok false)
  else
    let '(e, filled) := engine_applyFill e (readU64BE (drop 8 payload)) (readU32BE (drop 32 payload)) in
    if filled then (count_record rc 0, e, Ok true) else (rc, e, Ok false).

Definition processRecord (rc : Recovery) (e : MatchingEngine) (r : Rec)
    : Recovery * MatchingEngine * result bool :=
  if rec_command r =? NEW_ORDER then replay_new_order rc e (rec_payload r)
  else if rec_command r =? CANCEL_ORDER then replay_cancel rc e (rec_payload r)
  else if rec_command r =? FILL then replay_fill rc e (rec_payload r)
  else (rc, e, Ok false).

(** ** replay *)

(** The [while (true)] loop: [Ok true] is its [break], [Ok false] the [return false] after
    [engine.halt()], [None] that the fuel is spent. Every turn that goes on consumes a
    record, so one more than the number of bytes is enough. *)
Fixpoint replay_loop (fuel : nat) (rc : Recovery) (e : MatchingEngine) (bytes : list Z)
    : option (Recovery * MatchingEngine * result bool) :=
  match fuel with
  | O => None
  | S fuel =>
      match readRecord bytes with
      | ReadCleanEof => Some (rc, e, Ok true)
      | ReadTruncated => Some (mark_truncated rc, e, Ok true)
      | ReadCorrupt => Some (rc, halt e, Ok false)
      | ReadOk record rest =>
          let '(rc, in_order) := validateSequence rc (rec_sequence record) in
          if negb in_order then Some (rc, halt e, Ok false)
          else
            match processRecord rc e record with
            | (rc, e, Throw ex) => Some (rc, e, Throw ex)
            | (rc, e, Ok false) => Some (rc, halt e, Ok false)
            | (rc, e, Ok true) => replay_loop fuel rc e rest
            end
      end
  end.

(** After the loop: the priority counter is seeded and the engine is ready. *)
Definition replay_finish (rc : Recovery) (e : MatchingEngine) : MatchingEngine * bool :=
  match getNextPrioritySequence rc with
  | None => (halt e, false)
  | Some next =>
      let '(e, seeded) := seedPrioritySequence e next in
      if negb seeded then (halt e, false)
      else
        let '(e, ready) := markReady e in
        if negb ready then (halt e, false) else (e, true)
  end.

(** [replay]: [bytes] is the content of the file, [None] when it cannot be opened. *)
Definition replay (e : MatchingEngine) (bytes : option (list Z))
    : option (Recovery * MatchingEngine * result bool) :=
  match bytes with
  | None => Some (Recovery_new, halt e, Ok false)
  | Some bytes =>
      let e := beginRecovery e in
      match readHeader bytes with
      | None => Some (Recovery_new, halt e, Ok false)
      | Some bytes =>
          match replay_loop (S (length bytes)) Recovery_new e bytes with
          | Some (rc, e, Ok true) => let '(e, ok) := replay_finish rc e in Some (rc, e, Ok ok)
          | r => r
          end
      end
  end.
