(* ===== verification/RecoveryProps.v ===== *)
(** * RecoveryProps: the record format read back, and what a successful replay means *)

From Stdlib Require Import ZArith Lia Bool String.
From stdpp Require Import base tactics decidable numbers option relations list sorting.
From S2P Require Import Prelude.
From S2P Require Import Double.
From S2P Require Import Order.
From S2P Require Import OrderBook.
From S2P Require Import Events.
From S2P Require Import MatchingEngine.
From S2P Require Import Bytes.
From S2P Require Import Crc.
From S2P Require Import Fifo.
From S2P Require Import JournalRing.
From S2P Require Import Journal.
From S2P Require Import JournalProps.
From S2P Require Import Recovery.

Local Open Scope Z_scope.

(** ** Records as bytes *)

Definition rec_bytes (r : Rec) : list Z := frame (rec_sequence r) (rec_command r) (rec_payload r).

Definition rec_wf (r : Rec) : Prop :=
  in_u64 (rec_sequence r) /\ is_byte (rec_command r) /\ Forall is_byte (rec_payload r) /\
  Z.of_nat (length (rec_payload r)) <= kMaxPayloadSize.

Definition rec_body (r : Rec) : list Z := record_body (rec_sequence r) (rec_command r) (rec_payload r).

Lemma rec_bytes_body r : rec_bytes r = rec_body r ++ putU32BE (crc32 (rec_body r)).
Proof. reflexivity. Qed.

Lemma length_rec_body r : length (rec_body r) = (length (rec_payload r) + 13)%nat.
Proof.
  unfold rec_body, record_body, putU8.
  rewrite !length_app, length_putU32BE, length_putU64BE. cbn [length]. lia.
Qed.

Lemma rec_body_bytes r : rec_wf r -> Forall is_byte (rec_body r).
Proof.
  intros (_ & Hc & Hp & _). unfold rec_body, record_body.
  rewrite !Forall_app. split_and!; auto with trading. by apply Forall_singleton.
Qed.

Lemma read_bytes_app n a b : length a = n -> read_bytes n (a ++ b) = Some (a, b).
Proof.
  intros <-. unfold read_bytes. rewrite length_app.
  destruct (Nat.leb_spec (length a) (length a + length b)); [|lia].
  by rewrite take_app_length, drop_app_length.
Qed.

Lemma read_bytes_None n a : read_bytes n a = None <-> (length a < n)%nat.
Proof. unfold read_bytes. destruct (Nat.leb_spec n (length a)); split; intros; try done; lia. Qed.

Lemma read_bytes_Some n l a b : read_bytes n l = Some (a, b) <-> l = a ++ b /\ length a = n.
Proof.
  split.
  - unfold read_bytes. destruct (Nat.leb_spec n (length l)); [|done]. intros [= <- <-].
    rewrite take_drop, length_take. split; [done|lia].
  - intros [-> Hl]. by apply read_bytes_app.
Qed.

(** The outcome of [readRecord] on a body (of the length its first bytes announce) and four
    more bytes. *)
Lemma readRecord_body len_bytes tail crc_bytes rest :
  length len_bytes = 4%nat -> length crc_bytes = 4%nat ->
  readU32BE len_bytes <= kMaxPayloadSize ->
  length tail = Z.to_nat (8 + 1 + readU32BE len_bytes) ->
  readRecord (len_bytes ++ tail ++ crc_bytes ++ rest) =
    let body := len_bytes ++ tail in
    if readU32BE crc_bytes =? crc32 body
    then ReadOk (Build_Rec (readU64BE (drop 4 body)) (nth 12 body 0) (drop 13 body)) rest
    else ReadCorrupt.
Proof.
  intros Hl Hc Hmax Ht. unfold readRecord. rewrite read_bytes_app by done.
  rewrite (proj2 (Z.ltb_ge _ _)) by done. rewrite read_bytes_app by done.
  rewrite read_bytes_app by done. by destruct (readU32BE crc_bytes =? _).
Qed.

(** The parts of a body. *)
Lemma rec_body_fields r :
  rec_wf r ->
  readU64BE (drop 4 (rec_body r)) = rec_sequence r /\ nth 12 (rec_body r) 0 = rec_command r /\
  drop 13 (rec_body r) = rec_payload r.
Proof.
  intros (Hs & _). unfold rec_body, record_body.
  rewrite drop_app_length' by done. rewrite readU64BE_put by done.
  split; [done|]. split; [done|]. rewrite !app_assoc.
  rewrite drop_app_length'; [done|]. rewrite !length_app, length_putU32BE, length_putU64BE. done.
Qed.

Lemma readRecord_frame r rest : rec_wf r -> readRecord (rec_bytes r ++ rest) = ReadOk r rest.
Proof.
  intros Hr. pose proof (rec_body_fields r Hr) as (Hf1 & Hf2 & Hf3).
  pose proof (rec_body_bytes r Hr) as Hb. destruct Hr as (_ & _ & _ & Hmax).
  assert (readU32BE (putU32BE (Z.of_nat (length (rec_payload r)))) = Z.of_nat (length (rec_payload r))) as Hlen.
  { rewrite <- (app_nil_r (putU32BE _)). apply readU32BE_put. unfold kMaxPayloadSize in Hmax. unfold_int. lia. }
  rewrite rec_bytes_body. unfold rec_body at 1, record_body at 1. rewrite <- !app_assoc.
  rewrite (app_assoc (putU64BE _)), (app_assoc (putU64BE _ ++ _)).
  rewrite readRecord_body; [|done|done|by rewrite Hlen|].
  2: { rewrite Hlen, !length_app, length_putU64BE. unfold putU8. cbn [length]. lia. }
  rewrite <- (app_assoc (putU64BE _)). fold (record_body (rec_sequence r) (rec_command r) (rec_payload r)).
  fold (rec_body r).
  rewrite <- (app_nil_r (putU32BE (crc32 _))), readU32BE_put by (by apply crc32_range).
  cbv zeta. rewrite Z.eqb_refl, Hf1, Hf2, Hf3. by destruct r.
Qed.

(** Whatever [readRecord] accepts is the bytes of a record. *)
Lemma readRecord_inv bytes r rest :
  Forall is_byte bytes -> readRecord bytes = ReadOk r rest ->
  rec_wf r /\ bytes = rec_bytes r ++ rest /\ Forall is_byte rest.
Proof.
  intros Hb Hr. unfold readRecord in Hr.
  destruct (read_bytes 4 bytes) as [[len bytes1]|] eqn:H1; [|done].
  apply read_bytes_Some in H1 as [-> Hl]. apply Forall_app in Hb as [Hlen Hb].
  destruct (Z.ltb_spec kMaxPayloadSize (readU32BE len)) as [|Hmax]; [done|].
  destruct (read_bytes _ bytes1) as [[tail bytes2]|] eqn:H2; [|done].
  apply read_bytes_Some in H2 as [-> Ht]. apply Forall_app in Hb as [Htail Hb].
  destruct (read_bytes 4 bytes2) as [[crc bytes3]|] eqn:H3; [|done].
  apply read_bytes_Some in H3 as [-> Hc]. apply Forall_app in Hb as [Hcrc Hb].
  destruct (Z.eqb_spec (readU32BE crc) (crc32 (len ++ tail))) as [He|]; [|done].
  simpl in Hr. injection Hr as <- <-.
  pose proof (readU32BE_range len Hlen Hl) as Hrange. unfold_int.
  rewrite <- (take_drop 8 tail) in Htail, Ht, He |- *.
  set (sq := take 8 tail) in *. set (t := drop 8 tail) in *.
  assert (length sq = 8%nat) as Hsq by (rewrite length_app in Ht; unfold sq, t in *; rewrite length_take, length_drop in *; lia).
  apply Forall_app in Htail as [Hsqb Htb]. rewrite length_app, Hsq in Ht.
  destruct t as [|cmd payload]; cbn [length] in Ht; [lia|]. apply Forall_cons in Htb as [Hcmd Hpay].
  rewrite (drop_app_length' len) by done. rewrite (readU64BE_app sq) by done.
  assert (nth 12 (len ++ sq ++ cmd :: payload) 0 = cmd) as ->.
  { rewrite app_assoc, app_nth2; rewrite length_app, Hl, Hsq; [done|lia]. }
  assert (drop 13 (len ++ sq ++ cmd :: payload) = payload) as ->.
  { change (cmd :: payload) with ([cmd] ++ payload). rewrite (app_assoc sq [cmd]), app_assoc, drop_app_length'; [done|].
    rewrite !length_app, Hl, Hsq. done. }
  assert (putU64BE (readU64BE sq) = sq) as Hput64 by (rewrite <- (app_nil_r sq) at 1; by apply putU64BE_read).
  assert (record_body (readU64BE sq) cmd payload = len ++ sq ++ cmd :: payload) as Hbody.
  { unfold record_body, putU8. rewrite Hput64. cbn [app]. f_equal.
    transitivity (putU32BE (readU32BE len)); [f_equal; lia|by apply putU32BE_read4]. }
  split; [|split; [|done]].
  - split; [apply readU64BE_range|]. split; [done|]. split; [done|]. cbn [rec_payload].
    unfold kMaxPayloadSize in *. lia.
  - rewrite rec_bytes_body. unfold rec_body. cbn [rec_sequence rec_command rec_payload].
    rewrite Hbody, <- He, putU32BE_read4 by done. by rewrite <- !app_assoc.
Qed.

(** A file cut inside a record. *)
Lemma readRecord_torn r partial more :
  rec_wf r -> rec_bytes r = partial ++ more -> more <> [] ->
  readRecord partial = if (length partial <? 4)%nat then ReadCleanEof else ReadTruncated.
Proof.
  intros (_ & _ & _ & Hmax) Heq Hmore.
  assert (length (rec_bytes r) = (length (rec_payload r) + 17)%nat) as Hlen by apply length_frame.
  rewrite Heq, length_app in Hlen.
  assert (0 < length more)%nat by (destruct more; [done|simpl; lia]).
  unfold readRecord. destruct (read_bytes 4 partial) as [[len rest]|] eqn:H4.
  2: { apply read_bytes_None in H4. by rewrite (proj2 (Nat.ltb_lt _ _)). }
  apply read_bytes_Some in H4 as [-> Hl].
  rewrite (proj2 (Nat.ltb_ge _ _)) by (rewrite length_app; lia).
  assert (len = putU32BE (Z.of_nat (length (rec_payload r)))) as ->.
  { apply (f_equal (take 4)) in Heq. rewrite <- app_assoc, (take_app_length' len) in Heq by done.
    by rewrite <- Heq. }
  rewrite <- (app_nil_r (putU32BE _)), readU32BE_put
    by (unfold kMaxPayloadSize in Hmax; unfold_int; lia).
  rewrite (proj2 (Z.ltb_ge _ _)) by done.
  destruct (read_bytes _ rest) as [[tail rest2]|] eqn:H9; [|done].
  apply read_bytes_Some in H9 as [-> H9].
  destruct (read_bytes 4 rest2) as [[crc rest3]|] eqn:Hc; [|done].
  apply read_bytes_Some in Hc as [-> Hc]. rewrite !length_app in Hlen. lia.
Qed.

(** ** Corruption *)

(** The length announced by a body whose first four bytes are those of [rec_body r]. *)
Lemma rec_body_split r body :
  rec_wf r -> length body = length (rec_body r) -> take 4 body = take 4 (rec_body r) ->
  exists tail, body = putU32BE (Z.of_nat (length (rec_payload r))) ++ tail /\
    readU32BE (putU32BE (Z.of_nat (length (rec_payload r)))) = Z.of_nat (length (rec_payload r)) /\
    length tail = Z.to_nat (8 + 1 + Z.of_nat (length (rec_payload r))).
Proof.
  intros (_ & _ & _ & Hmax) Hlen Htake. rewrite length_rec_body in Hlen.
  exists (drop 4 body). rewrite <- (take_drop 4 body) at 1. rewrite Htake.
  split; [done|]. split; [|rewrite length_drop; lia].
  rewrite <- (app_nil_r (putU32BE _)). apply readU32BE_put.
  unfold kMaxPayloadSize in Hmax. unfold_int. lia.
Qed.

Lemma readRecord_changed_body r body crc rest :
  rec_wf r -> length body = length (rec_body r) -> take 4 body = take 4 (rec_body r) ->
  length crc = 4%nat -> readU32BE crc <> crc32 body -> readRecord (body ++ crc ++ rest) = ReadCorrupt.
Proof.
  intros Hr Hlen Htake Hc Hne. pose proof Hr as (_ & _ & _ & Hmax).
  destruct (rec_body_split r body) as (tail & -> & Hread & Htail); [done..|].
  rewrite <- app_assoc, readRecord_body; [|done|done|by rewrite Hread|by rewrite Hread].
  cbv zeta. by rewrite (proj2 (Z.eqb_neq _ _)).
Qed.

(** C32: a record damaged in up to four consecutive bytes behind its length field, or in its
    stored checksum, is never accepted by recovery, whatever follows it. *)
Theorem damaged_record_rejected r pre e1 e2 post crc rest :
  rec_wf r -> rec_body r = pre ++ e1 ++ post -> (4 <= length pre)%nat ->
  length e1 = length e2 -> (length e1 <= 4)%nat -> Forall is_byte e2 ->
  Forall is_byte crc -> length crc = 4%nat ->
  (e1 <> e2 /\ crc = putU32BE (crc32 (rec_body r))) \/ (e1 = e2 /\ crc <> putU32BE (crc32 (rec_body r))) ->
  readRecord (pre ++ e2 ++ post ++ crc ++ rest) = ReadCorrupt.
Proof.
  intros Hr Hbody Hpre Hlen He Hb Hcb Hc Hdamage.
  pose proof (rec_body_bytes r Hr) as Hbytes. rewrite Hbody, !Forall_app in Hbytes.
  destruct Hbytes as (Hpb & Heb & Hqb).
  replace (pre ++ e2 ++ post ++ crc ++ rest) with ((pre ++ e2 ++ post) ++ crc ++ rest) by (by rewrite <- !app_assoc).
  apply (readRecord_changed_body r); [done| | |done|].
  - rewrite Hbody, !length_app. lia.
  - by rewrite Hbody, !take_app_le by lia.
  - assert (Forall is_byte (pre ++ e2 ++ post)) as Hb2 by (by rewrite !Forall_app).
    intros Heq. destruct Hdamage as [[Hne ->]|[-> Hne]].
    + rewrite <- (app_nil_r (putU32BE _)), readU32BE_put in Heq by (apply crc32_range; by apply rec_body_bytes).
      rewrite Hbody in Heq. revert Heq. by apply burst_detected.
    + apply Hne. apply readU32BE_inj; auto with trading.
      rewrite <- (app_nil_r (putU32BE _)), readU32BE_put by (apply crc32_range; by apply rec_body_bytes).
      by rewrite Heq, Hbody.
Qed.

(** ** Replay as a fold over records *)

(** What [replay] does with a list of records, read from no file. *)
Fixpoint process_all (rc : Recovery) (e : MatchingEngine) (rs : list Rec)
    : Recovery * MatchingEngine * result bool :=
  match rs with
  | [] => (rc, e, Ok true)
  | r :: rs =>
      let '(rc, in_order) := validateSequence rc (rec_sequence r) in
      if negb in_order then (rc, halt e, Ok false)
      else
        match processRecord rc e r with
        | (rc, e, Throw ex) => (rc, e, Throw ex)
        | (rc, e, Ok false) => (rc, halt e, Ok false)
        | (rc, e, Ok true) => process_all rc e rs
        end
  end.

(** The end of the file: nothing, or part of a record. *)
Definition torn (tail : list Z) : Prop := readRecord tail = ReadCleanEof \/ readRecord tail = ReadTruncated.

Definition note_tail (tail : list Z) (rc : Recovery) : Recovery :=
  match readRecord tail with ReadTruncated => mark_truncated rc | _ => rc end.

Lemma concat_rec_bytes_length rs : (length rs <= length (concat (rec_bytes <$> rs)))%nat.
Proof.
  induction rs as [|r rs IH]; [done|]. cbn [fmap list_fmap concat length]. rewrite length_app.
  assert (length (rec_bytes r) = (length (rec_payload r) + 17)%nat) by apply length_frame.
  lia.
Qed.

Lemma replay_loop_records fuel rc e rs tail :
  Forall rec_wf rs -> torn tail -> (length rs < fuel)%nat ->
  replay_loop fuel rc e (concat (rec_bytes <$> rs) ++ tail) =
    match process_all rc e rs with
    | (rc, e, Ok true) => Some (note_tail tail rc, e, Ok true)
    | out => Some out
    end.
Proof.
  intros Hrs Htail. revert fuel rc e. induction Hrs as [|r rs Hr Hrs IH]; intros [|fuel] rc e Hf;
    cbn [length] in Hf; try lia.
  - cbn [concat fmap list_fmap app replay_loop process_all]. unfold note_tail.
    by destruct Htail as [-> | ->].
  - cbn [fmap list_fmap concat]. rewrite <- app_assoc. cbn [replay_loop process_all].
    rewrite readRecord_frame by done. destruct (validateSequence rc _) as [rc1 []]; [|done].
    cbn [negb]. destruct (processRecord rc1 e r) as [[rc2 e2] [[]|]]; [|done|done].
    apply IH. lia.
Qed.

Lemma readRecord_shorter bytes r rest : readRecord bytes = ReadOk r rest -> (length rest < length bytes)%nat.
Proof.
  intros Hr. unfold readRecord in Hr.
  destruct (read_bytes 4 bytes) as [[len bytes1]|] eqn:H1; [|done].
  apply read_bytes_Some in H1 as [-> Hl]. destruct (_ <? _); [done|].
  destruct (read_bytes _ bytes1) as [[tail bytes2]|] eqn:H2; [|done].
  apply read_bytes_Some in H2 as [-> Ht].
  destruct (read_bytes 4 bytes2) as [[crc bytes3]|] eqn:H3; [|done].
  apply read_bytes_Some in H3 as [-> Hc].
  destruct (negb _); [done|]. injection Hr as _ <-. rewrite !length_app. lia.
Qed.

Lemma replay_loop_total fuel rc e bytes :
  (length bytes < fuel)%nat -> is_Some (replay_loop fuel rc e bytes).
Proof.
  revert rc e bytes. induction fuel as [|fuel IH]; intros rc e bytes Hf; [lia|]. cbn [replay_loop].
  destruct (readRecord bytes) as [| | |r rest] eqn:Hr; [by eexists..|].
  apply readRecord_shorter in Hr. destruct (validateSequence rc _) as [rc1 []]; [|by eexists].
  cbn [negb]. destruct (processRecord rc1 e r) as [[rc2 e2] [[]|]]; [|by eexists..].
  apply IH. lia.
Qed.

(** The records of a byte stream that the loop goes through to its end. *)
Lemma replay_loop_parse fuel rc e bytes rc' e' :
  Forall is_byte bytes -> replay_loop fuel rc e bytes = Some (rc', e', Ok true) ->
  exists rs tail rc1, bytes = concat (rec_bytes <$> rs) ++ tail /\ Forall rec_wf rs /\ torn tail /\
    process_all rc e rs = (rc1, e', Ok true) /\ rc' = note_tail tail rc1.
Proof.
  revert rc e bytes. induction fuel as [|fuel IH]; intros rc e bytes Hb Hl; [done|].
  cbn [replay_loop] in Hl. destruct (readRecord bytes) as [| | |r rest] eqn:Hr; [..|].
  - injection Hl as <- <-. exists [], bytes, rc. unfold torn, note_tail. rewrite Hr. split_and!; auto.
  - injection Hl as <- <-. exists [], bytes, rc. unfold torn, note_tail. rewrite Hr. split_and!; auto.
  - done.
  - apply readRecord_inv in Hr as (Hwf & -> & Hrest); [|done].
    destruct (validateSequence rc (rec_sequence r)) as [rc1 []] eqn:Hv; [|done].
    cbn [negb] in Hl. destruct (processRecord rc1 e r) as [[rc2 e2] [[]|]] eqn:Hp; [|done|done].
    apply IH in Hl as (rs & tail & rc3 & -> & Hrs & Ht & Hall & ->); [|done].
    exists (r :: rs), tail, rc3. cbn [fmap list_fmap concat process_all].
    rewrite Hv. cbn [negb]. rewrite Hp, <- app_assoc. split_and!; auto.
Qed.

Lemma readHeader_Some bytes rest : readHeader bytes = Some rest <-> bytes = journal_header ++ rest.
Proof.
  unfold readHeader. split.
  - intros H. destruct (read_bytes 4 bytes) as [[magic bytes1]|] eqn:H1; [|done].
    apply read_bytes_Some in H1 as [-> _]. simpl in H. case_bool_decide as Hm; [|done]. subst magic.
    cbn [negb] in H. destruct (read_bytes 1 bytes1) as [[version bytes2]|] eqn:H2; [|done].
    apply read_bytes_Some in H2 as [-> _]. simpl in H. case_bool_decide as Hv; [|done]. subst version.
    by injection H as ->.
  - intros ->. unfold journal_header. rewrite <- app_assoc. by rewrite read_bytes_app.
Qed.

(** Replay terminates on every file. *)
Theorem replay_terminates e bytes : exists rc e' answer, replay e bytes = Some (rc, e', answer).
Proof.
  unfold replay. destruct bytes as [bytes|]; [|eauto].
  destruct (readHeader bytes) as [rest|]; [|eauto].
  destruct (replay_loop_total (S (length rest)) Recovery_new (beginRecovery e) rest) as [out ->]; [lia|].
  destruct out as [[rc e'] [[]|]]; eauto. destruct (replay_finish rc e'). eauto.
Qed.

Lemma replay_parsed e bytes rc e' :
  Forall is_byte bytes -> replay e (Some bytes) = Some (rc, e', Ok true) ->
  exists rs tail rc1 e1,
    bytes = journal_header ++ concat (rec_bytes <$> rs) ++ tail /\
    Forall rec_wf rs /\ torn tail /\
    process_all Recovery_new (beginRecovery e) rs = (rc1, e1, Ok true) /\
    rc = note_tail tail rc1 /\ replay_finish rc e1 = (e', true).
Proof.
  intros Hb. unfold replay. destruct (readHeader bytes) as [rest|] eqn:Hh; [|done].
  apply readHeader_Some in Hh as ->. apply Forall_app in Hb as [_ Hb].
  destruct (replay_loop _ _ _ rest) as [[[rc1 e1] [[]|]]|] eqn:Hl; try done.
  apply replay_loop_parse in Hl as (rs & tail & rc2 & -> & Hrs & Ht & Hall & ->); [|done].
  destruct (replay_finish _ e1) as [e2 ok] eqn:Hf. intros [= <- <- ->].
  exists rs, tail, rc2, e1. by rewrite Hf.
Qed.

(** C11: a replay succeeds exactly on the files made of the header, a sequence of well-formed
    records that all process, and at most a torn record at the end; the engine is then the one
    that processing those records gives, with its priority counter seeded and its state READY. *)
Theorem replay_succeeds_iff e bytes rc e' :
  Forall is_byte bytes ->
  replay e (Some bytes) = Some (rc, e', Ok true) <->
  exists rs tail rc1 e1,
    bytes = journal_header ++ concat (rec_bytes <$> rs) ++ tail /\
    Forall rec_wf rs /\ torn tail /\
    process_all Recovery_new (beginRecovery e) rs = (rc1, e1, Ok true) /\
    rc = note_tail tail rc1 /\ replay_finish rc e1 = (e', true).
Proof.
  intros Hb. split; [by apply replay_parsed|]. unfold replay.
  intros (rs & tail & rc1 & e1 & -> & Hrs & Ht & Hall & -> & Hf).
  rewrite (proj2 (readHeader_Some _ _) eq_refl).
  rewrite replay_loop_records; [|done|done|].
  - rewrite Hall. simpl. by rewrite Hf.
  - rewrite length_app. pose proof (concat_rec_bytes_length rs). lia.
Qed.

(** A crash in the middle of a write costs only the record being written: replaying a
    file of records followed by a proper part of one more leaves the same engine and gives
    the same answer as replaying the records alone. *)
Theorem torn_tail_ignored e rs r partial more :
  Forall rec_wf rs -> rec_wf r -> rec_bytes r = partial ++ more -> more <> [] ->
  let file := journal_header ++ concat (rec_bytes <$> rs) in
  (fun out => (out.1.2, out.2)) <$> replay e (Some (file ++ partial)) =
  (fun out => (out.1.2, out.2)) <$> replay e (Some file).
Proof.
  intros Hrs Hr Heq Hmore file. pose proof (readRecord_torn r partial more Hr Heq Hmore) as Hread.
  assert (torn partial) as Ht by (unfold torn; rewrite Hread; destruct (_ <? _)%nat; auto).
  unfold file, replay. rewrite <- app_assoc, (proj2 (readHeader_Some _ _) eq_refl).
  rewrite (proj2 (readHeader_Some _ _) eq_refl). pose proof (concat_rec_bytes_length rs).
  rewrite replay_loop_records; [|done..|rewrite length_app; lia].
  rewrite <- (app_nil_r (concat (rec_bytes <$> rs))) at 2.
  rewrite replay_loop_records; [|done|by left|lia].
  destruct (process_all _ _ rs) as [[rc1 e1] [[]|]]; [|done|done].
  unfold note_tail. rewrite Hread. cbn [readRecord read_bytes length Nat.leb].
  destruct (_ <? _)%nat; [done|]. unfold replay_finish. cbn [getNextPrioritySequence mark_truncated].
  unfold getNextPrioritySequence. simpl.
  repeat case_match; simplify_eq/=; try done.
Qed.

(** ** What the sequence checks give *)

Definition new_priority (r : Rec) : option Z :=
  if rec_command r =? NEW_ORDER then Some (nf_priority_seq (new_order_fields (rec_payload r))) else None.

Definition priorities (rs : list Rec) : list Z := omap new_priority rs.

Lemma restoreOrder_frame e o r e' b :
  restoreOrder e o r = (e', b) -> state_ e' = state_ e /\ priority_counter_ e' = priority_counter_ e.
Proof. unfold restoreOrder. repeat case_match; intros [= <- <-]; auto. Qed.

(** What a record that processes leaves of the engine and of the recovery state. *)
Lemma processRecord_true rc e r rc' e' :
  processRecord rc e r = (rc', e', Ok true) ->
  state_ e' = state_ e /\ priority_counter_ e' = priority_counter_ e /\
  last_sequence_ rc' = last_sequence_ rc /\ first_record_ rc' = first_record_ rc /\
  match new_priority r with
  | Some p => new_orders_replayed_ rc' = u64 (new_orders_replayed_ rc + 1) /\
      max_priority_seq_seen_ rc' = p /\
      (new_orders_replayed_ rc <> 0 -> max_priority_seq_seen_ rc < p)
  | None => new_orders_replayed_ rc' = u64 (new_orders_replayed_ rc + 0) /\
      max_priority_seq_seen_ rc' = max_priority_seq_seen_ rc
  end.
Proof.
  unfold processRecord, new_priority. destruct (rec_command r =? NEW_ORDER).
  { unfold replay_new_order, validatePrioritySequence. destruct (negb _); [done|].
    destruct (negb _); [done|].
    destruct (Z.eqb_spec (new_orders_replayed_ rc) 0) as [H0|H0]; [|destruct (Z.leb_spec
      (nf_priority_seq (new_order_fields (rec_payload r))) (max_priority_seq_seen_ rc)); [done|]];
    cbn [negb]; (destruct (restored_order _) as [o|]; [|done]);
    destruct (restoreOrder e o _) as [e1 []] eqn:Hr; try done; intros [= <- <-];
    apply restoreOrder_frame in Hr as [-> ->]; simpl; split_and!; try done; intros; lia. }
  destruct (rec_command r =? CANCEL_ORDER).
  { unfold replay_cancel, restoreCancel. destruct (negb _); [done|].
    destruct (cancelOrder _ _) as [b []]; [|done]. intros [= <- <-]. by split_and!. }
  destruct (rec_command r =? FILL); [|done].
  unfold replay_fill, engine_applyFill. destruct (negb _); [done|].
  destruct (applyFill _ _ _) as [b []]; [|done]. intros [= <- <-]. by split_and!.
Qed.

Lemma validateSequence_true rc s rc' :
  validateSequence rc s = (rc', true) ->
  rc' = with_sequence rc s /\ (first_record_ rc = false ->
    last_sequence_ rc <> UINT64_MAX /\ s = u64 (last_sequence_ rc + 1)).
Proof.
  unfold validateSequence. destruct (first_record_ rc); [by intros [= <-]|].
  destruct (Z.eqb_spec (last_sequence_ rc) UINT64_MAX); [done|].
  destruct (Z.eqb_spec s (u64 (last_sequence_ rc + 1))); [|done]. by intros [= <-].
Qed.

Lemma process_all_ordered rc e rs rc' e' :
  process_all rc e rs = (rc', e', Ok true) -> Forall rec_wf rs ->
  (first_record_ rc = false -> in_u64 (last_sequence_ rc)) ->
  0 <= new_orders_replayed_ rc -> new_orders_replayed_ rc + Z.of_nat (length rs) <= UINT64_MAX ->
  state_ e' = state_ e /\ priority_counter_ e' = priority_counter_ e /\
  (exists s, rec_sequence <$> rs = seqZ s (Z.of_nat (length rs)) /\
     (first_record_ rc = false -> s = last_sequence_ rc + 1)) /\
  StronglySorted Z.lt (priorities rs) /\
  (new_orders_replayed_ rc <> 0 -> Forall (fun p => max_priority_seq_seen_ rc < p) (priorities rs) /\
     max_priority_seq_seen_ rc <= max_priority_seq_seen_ rc') /\
  new_orders_replayed_ rc' = new_orders_replayed_ rc + Z.of_nat (length (priorities rs)) /\
  Forall (fun p => p <= max_priority_seq_seen_ rc') (priorities rs).
Proof.
  revert rc e. induction rs as [|r rs IH]; intros rc e Hall Hrs Hlast Hn Hmax.
  { injection Hall as <- <-. simpl. split; [done|]. split; [done|].
    split; [by exists (last_sequence_ rc + 1)|]. split; [constructor|].
    split; [intros _; split; [constructor|lia]|]. split; [lia|constructor]. }
  cbn [process_all length] in *. apply Forall_cons in Hrs as [(Hs & _) Hrs].
  destruct (validateSequence rc (rec_sequence r)) as [rc1 []] eqn:Hv; [|done]. cbn [negb] in Hall.
  apply validateSequence_true in Hv as [-> Hv].
  destruct (processRecord _ e r) as [[rc2 e2] [[]|]] eqn:Hp; [|done|done].
  apply processRecord_true in Hp as (He1 & He2 & Hl2 & Hf2 & Hp).
  cbn [with_sequence last_sequence_ first_record_ new_orders_replayed_ max_priority_seq_seen_] in *.
  assert (exists s, rec_sequence r :: seqZ (rec_sequence r + 1) (Z.of_nat (length rs)) =
    seqZ s (Z.of_nat (S (length rs))) /\ (first_record_ rc = false -> s = last_sequence_ rc + 1)) as Hseq.
  { exists (rec_sequence r). split.
    - rewrite (seqZ_cons (rec_sequence r)) by lia. f_equal. f_equal; lia.
    - intros Hf. destruct (Hv Hf) as [Hne ->]. specialize (Hlast Hf). apply u64_small. unfold_int. lia. }
  destruct (IH rc2 e2 Hall Hrs) as (Hst & Hpc & (s' & Hs' & Hs'') & Hsorted & Hlow & Hcount & Hhigh).
  { by rewrite Hl2. }
  { destruct (new_priority r); destruct Hp as [-> _]; rewrite u64_small; unfold_int; lia. }
  { destruct (new_priority r); destruct Hp as [-> _]; rewrite u64_small; unfold_int; lia. }
  specialize (Hs'' Hf2). rewrite Hl2 in Hs''. subst s'.
  rewrite He1 in Hst. rewrite He2 in Hpc. cbn [fmap list_fmap length]. fold (rec_sequence <$> rs).
  rewrite Hs'. split; [done|]. split; [done|]. split; [done|].
  unfold priorities in *. cbn [omap list_omap].
  destruct (new_priority r) as [p|]; destruct Hp as [Hn2 Hp]; rewrite u64_small in Hn2 by (unfold_int; lia).
  - destruct Hp as [Hm2 Hp]. rewrite Hm2 in Hlow. destruct Hlow as [Hlow Hup]; [lia|].
    split; [by constructor|]. split; [|split; [cbn [length]; lia|by constructor]].
    intros Hne. specialize (Hp Hne). split; [|lia]. constructor; [done|].
    eapply Forall_impl; [exact Hlow|]. simpl. lia.
  - rewrite Hn2, Hp, Z.add_0_r in *. split_and!; (done || lia).
Qed.

Lemma next_priority_tail tail rc :
  getNextPrioritySequence (note_tail tail rc) = getNextPrioritySequence rc.
Proof. unfold note_tail. by destruct (readRecord tail). Qed.

(** A replay that succeeds has seen consecutive record sequence numbers and strictly
    increasing priorities, and leaves the engine READY with a priority counter above every
    priority replayed, so that new orders queue behind the restored ones. *)
Theorem replay_orders_history e bytes rc e' :
  Forall is_byte bytes -> Z.of_nat (length bytes) <= UINT64_MAX ->
  replay e (Some bytes) = Some (rc, e', Ok true) ->
  exists rs tail s,
    bytes = journal_header ++ concat (rec_bytes <$> rs) ++ tail /\ torn tail /\
    rec_sequence <$> rs = seqZ s (Z.of_nat (length rs)) /\ StronglySorted Z.lt (priorities rs) /\
    state_ e' = READY /\ Forall (fun p => p < priority_counter_ e') (priorities rs).
Proof.
  intros Hb Hmax Hre. apply replay_parsed in Hre as (rs & tail & rc1 & e1 & -> & Hrs & Ht & Hall & -> & Hfin); [|done].
  exists rs, tail. pose proof (concat_rec_bytes_length rs) as Hlen.
  apply process_all_ordered in Hall as (_ & _ & (s & Hs & _) & Hsorted & _ & Hcount & Hhigh);
    [|done|done|done|].
  2: { rewrite !length_app in Hmax. simpl. lia. }
  exists s. split; [done|]. split; [done|]. split; [done|]. split; [done|].
  unfold replay_finish in Hfin. rewrite next_priority_tail in Hfin.
  unfold getNextPrioritySequence in Hfin. simpl in Hcount.
  destruct (Z.eqb_spec (new_orders_replayed_ rc1) 0) as [H0|H0].
  - assert (priorities rs = []) as -> by (destruct (priorities rs); [done|simpl in Hcount; lia]).
    cbv iota beta in Hfin. destruct (seedPrioritySequence e1 0) as [e2 []]; cbn in Hfin; [|done].
    destruct (markReady e2) as [e3 []] eqn:Hr; cbn in Hfin; [|done]. injection Hfin as <-.
    unfold markReady in Hr. destruct (state_ e2); try done. injection Hr as <-. by split.
  - destruct (Z.eqb_spec (max_priority_seq_seen_ rc1) UINT64_MAX) as [|Hm]; [done|].
    cbv iota beta in Hfin. destruct (seedPrioritySequence e1 _) as [e2 []] eqn:Hseed; cbn in Hfin; [|done].
    destruct (markReady e2) as [e3 []] eqn:Hr; cbn in Hfin; [|done]. injection Hfin as <-.
    unfold markReady in Hr. destruct (state_ e2); try done. injection Hr as <-. split; [done|].
    assert (priority_counter_ e2 = max_priority_seq_seen_ rc1 + 1) as Hc.
    { unfold seedPrioritySequence in Hseed. destruct (_ <? _); [done|].
      destruct (Z.eqb_spec (max_priority_seq_seen_ rc1 + 1) (priority_counter_ e1)); by injection Hseed as <-. }
    simpl. rewrite Hc. eapply Forall_impl; [exact Hhigh|]. simpl. lia.
Qed.

(** ** Events read back *)

Definition event_wf (e : MarketEvent) : Prop :=
  match e with
  | OrderAccepted e =>
      in_u64 (oa_timestamp e) /\ in_u64 (oa_sequence e) /\ in_u64 (oa_orderId e) /\
      in_u32 (oa_symbolId e) /\ in_u32 (oa_traderId e) /\ in_i64 (oa_priceTicks e) /\
      in_u32 (oa_quantity e) /\ in_u32 (oa_remainingQuantity e) /\ in_u64 (oa_prioritySeq e)
  | TradeExecuted e =>
      in_u64 (te_timestamp e) /\ in_u64 (te_sequence e) /\ in_u64 (te_restingOrderId e) /\
      in_u64 (te_aggressorOrderId e) /\ in_u32 (te_symbolId e) /\ in_u32 (te_traderId e) /\
      in_u32 (te_tradeQuantity e) /\ in_i64 (te_tradePriceTicks e)
  | OrderCancelled e =>
      in_u64 (oc_timestamp e) /\ in_u64 (oc_sequence e) /\ in_u64 (oc_orderId e)
  | OrderRejected _ => True
  end.

Lemma event_wf_sequence e : event_wf e -> match e with OrderRejected _ => True | _ => in_u64 (sequence e) end.
Proof. destruct e; simpl; tauto. Qed.

(** The record an event is journaled as. *)
Definition event_record (e : MarketEvent) : option Rec :=
  '(cmd, _, payload) ← event_payload e; Some (Build_Rec (sequence e) cmd payload).

Lemma bool_byte_is_byte b : is_byte (bool_byte b).
Proof. destruct b; split; done. Qed.

Lemma order_type_code_byte t : is_byte (order_type_code t).
Proof. destruct t; split; done. Qed.

Lemma putI64BE_bytes v : Forall is_byte (putI64BE v).
Proof. apply putU64BE_bytes. Qed.

#[export] Hint Resolve bool_byte_is_byte order_type_code_byte putI64BE_bytes : trading.

Lemma event_record_wf e r : in_u64 (sequence e) -> event_record e = Some r -> rec_wf r.
Proof.
  intros He Hr. unfold event_record in Hr. destruct (event_payload e) as [[[cmd size] p]|] eqn:Hp; [|done].
  injection Hr as <-. pose proof (event_payload_length e cmd size p Hp) as (Hl & Hs & Hc).
  unfold rec_wf. cbn [rec_sequence rec_command rec_payload].
  split; [done|]. split; [unfold is_byte; lia|]. split; [|unfold kMaxPayloadSize; lia].
  destruct e; try done; injection Hp as _ _ <-; unfold accepted_payload, trade_payload, cancelled_payload, putU8;
    rewrite !Forall_app, ?Forall_singleton; split_and!; auto with trading.
Qed.

Lemma encode_rec_bytes e : encode e = rec_bytes <$> event_record e.
Proof.
  unfold event_record. destruct (event_payload e) as [[[cmd size] p]|] eqn:Hp.
  - by rewrite (encode_frame _ _ _ _ Hp).
  - unfold encode. by rewrite Hp.
Qed.

Lemma readU64BE_drop n p v rest : in_u64 v -> drop n p = putU64BE v ++ rest -> readU64BE (drop n p) = v.
Proof. intros Hv ->. by apply readU64BE_put. Qed.

Lemma readU32BE_drop n p v rest : in_u32 v -> drop n p = putU32BE v ++ rest -> readU32BE (drop n p) = v.
Proof. intros Hv ->. by apply readU32BE_put. Qed.

Lemma readI64BE_drop n p v rest : in_i64 v -> drop n p = putI64BE v ++ rest -> readI64BE (drop n p) = v.
Proof. intros Hv ->. by apply readI64BE_put. Qed.

(** Reads a field of a payload built by the [put] functions. *)
Ltac read_field :=
  lazymatch goal with
  | |- readU64BE (drop ?n ?p) = ?v => apply (readU64BE_drop n p v (drop (8 + n) p)); [done|reflexivity]
  | |- readU32BE (drop ?n ?p) = ?v => apply (readU32BE_drop n p v (drop (4 + n) p)); [done|reflexivity]
  | |- readI64BE (drop ?n ?p) = ?v => apply (readI64BE_drop n p v (drop (8 + n) p)); [done|reflexivity]
  end.

Lemma accepted_fields e :
  event_wf (OrderAccepted e) ->
  new_order_fields (accepted_payload e) =
    Build_NewOrderFields (oa_timestamp e) (oa_orderId e) (oa_symbolId e) (oa_traderId e)
      (bool_byte (oa_isBuy e)) (oa_priceTicks e) (oa_quantity e) (oa_remainingQuantity e)
      (order_type_code (oa_orderType e)) (oa_prioritySeq e).
Proof.
  intros (Hts & _ & Hid & Hsym & Htr & Hpt & Hq & Hr & Hprio). unfold new_order_fields.
  f_equal; try read_field; try done. change (accepted_payload e) with (drop 0 (accepted_payload e)). read_field.
Qed.

Lemma cancelled_fields e :
  in_u64 (oc_orderId e) -> readU64BE (drop 8 (cancelled_payload e)) = oc_orderId e.
Proof. intros Hid. read_field. Qed.

Lemma trade_fields e :
  in_u64 (te_restingOrderId e) -> in_u32 (te_tradeQuantity e) ->
  readU64BE (drop 8 (trade_payload e)) = te_restingOrderId e /\
  readU32BE (drop 32 (trade_payload e)) = te_tradeQuantity e.
Proof. intros Hid Hq. split; read_field. Qed.

(** C31: what the journal writes for an event, recovery reads back: the record, whatever
    follows it in the file, and from its payload the very fields of the event that recovery
    uses. *)
Theorem journal_record_roundtrip e data rest :
  event_wf e -> encode e = Some data ->
  exists r, readRecord (data ++ rest) = ReadOk r rest /\ rec_sequence r = sequence e /\
    match e with
    | OrderAccepted a =>
        rec_command r = NEW_ORDER /\ length (rec_payload r) = 50%nat /\
        new_order_fields (rec_payload r) =
          Build_NewOrderFields (oa_timestamp a) (oa_orderId a) (oa_symbolId a) (oa_traderId a)
            (if oa_isBuy a then 1 else 0) (oa_priceTicks a) (oa_quantity a) (oa_remainingQuantity a)
            (order_type_code (oa_orderType a)) (oa_prioritySeq a)
    | OrderCancelled c =>
        rec_command r = CANCEL_ORDER /\ length (rec_payload r) = 16%nat /\
        readU64BE (drop 8 (rec_payload r)) = oc_orderId c
    | TradeExecuted t =>
        rec_command r = FILL /\ length (rec_payload r) = 45%nat /\
        readU64BE (drop 8 (rec_payload r)) = te_restingOrderId t /\
        readU32BE (drop 32 (rec_payload r)) = te_tradeQuantity t
    | OrderRejected _ => False
    end.
Proof.
  intros He Henc. rewrite encode_rec_bytes in Henc. destruct (event_record e) as [r|] eqn:Hr; [|done].
  injection Henc as <-. exists r.
  split; [apply readRecord_frame; eapply event_record_wf; [|done]; apply event_wf_sequence in He; by destruct e|].
  destruct e; try done; injection Hr as <-; (split; [done|]); (split; [done|]); (split; [done|]).
  - by apply accepted_fields.
  - destruct He as (_ & _ & Hid & _ & _ & _ & Hq & _). by apply trade_fields.
  - destruct He as (_ & _ & Hid). by apply cancelled_fields.
Qed.

(** ** A sample file: an order accepted, then a fill of part of it *)

Definition sample_fill : MarketEvent :=
  TradeExecuted (Build_TradeEvent 1700000002 42 7 11 2 9 2 100500000 false).

Definition sample_rec (e : MarketEvent) : Rec := default (Build_Rec 0 0 []) (event_record e).

Definition sample_recs : list Rec := [sample_rec sample_accepted; sample_rec sample_fill].

Definition sample_file : list Z := journal_header ++ concat (rec_bytes <$> sample_recs).

(** A record cut after 20 of its 33 bytes. *)
Definition sample_partial : list Z := take 20 (rec_bytes (sample_rec sample_cancelled)).

Definition sample_replay : Recovery * MatchingEngine * result bool :=
  default (Recovery_new, MatchingEngine_new 16, Ok false)
    (replay (MatchingEngine_new 16) (Some (sample_file ++ sample_partial))).

Lemma sample_replay_ok :
  replay (MatchingEngine_new 16) (Some (sample_file ++ sample_partial)) =
    Some (sample_replay.1.1, sample_replay.1.2, Ok true).
Proof. vm_compute. reflexivity. Qed.

(** The restored order rests with what the fill left of it, under its own priority; the next
    priority is one more, and the torn record is noticed. *)
Example sample_replay_result :
  (fun o => (order_id o, quantity o, remaining_quantity o, priority_seq o)) <$>
    getOrderById (book_ sample_replay.1.2) 7 = Some (7, 10, 4, 3) /\
  getBestBid (book_ sample_replay.1.2) = d_frac 1005 10 /\
  priority_counter_ sample_replay.1.2 = 4 /\ truncated_tail_ sample_replay.1.1 = true.
Proof. vm_compute. auto. Qed.

Lemma sample_events_wf : Forall event_wf [sample_accepted; sample_fill; sample_cancelled].
Proof. repeat constructor; by vm_compute. Qed.

Lemma sample_recs_wf : Forall rec_wf (sample_recs ++ [sample_rec sample_cancelled]).
Proof.
  apply Forall_cons_2; [apply (event_record_wf sample_accepted); [by split|done]|].
  apply Forall_cons_2; [apply (event_record_wf sample_fill); [by split|done]|].
  apply Forall_singleton. apply (event_record_wf sample_cancelled); [by split|done].
Qed.

Lemma sample_file_bytes : Forall is_byte (sample_file ++ sample_partial).
Proof.
  assert (forallb (fun b => (0 <=? b) && (b <? 256)) (sample_file ++ sample_partial) = true) as H
    by (vm_compute; reflexivity).
  rewrite forallb_forall in H. rewrite Forall_forall. intros b Hb.
  apply list_elem_of_In, H in Hb. bool_to_prop. by split.
Qed.

Lemma damaged_record_rejected_witness :
  readRecord (take 20 (rec_body (sample_rec sample_accepted)) ++ [255; 254] ++
    drop 22 (rec_body (sample_rec sample_accepted)) ++
    putU32BE (crc32 (rec_body (sample_rec sample_accepted))) ++ [1; 2; 3]) = ReadCorrupt.
Proof.
  pose proof sample_recs_wf as Hwf. apply Forall_cons in Hwf as [Hwf _].
  apply (damaged_record_rejected (sample_rec sample_accepted) _
    (take 2 (drop 20 (rec_body (sample_rec sample_accepted))))).
  - exact Hwf.
  - reflexivity.
  - vm_compute. lia.
  - reflexivity.
  - vm_compute. lia.
  - bytes_ok.
  - apply putU32BE_bytes.
  - reflexivity.
  - left. split; [by vm_compute|reflexivity].
Defined.

Lemma replay_succeeds_iff_witness :
  exists rs tail rc1 e1,
    sample_file ++ sample_partial = journal_header ++ concat (rec_bytes <$> rs) ++ tail /\
    Forall rec_wf rs /\ torn tail /\
    process_all Recovery_new (beginRecovery (MatchingEngine_new 16)) rs = (rc1, e1, Ok true) /\
    sample_replay.1.1 = note_tail tail rc1 /\ replay_finish sample_replay.1.1 e1 = (sample_replay.1.2, true).
Proof.
  apply (proj1 (replay_succeeds_iff (MatchingEngine_new 16) (sample_file ++ sample_partial)
    sample_replay.1.1 sample_replay.1.2 sample_file_bytes)), sample_replay_ok.
Defined.

Lemma torn_tail_ignored_witness :
  (fun out => (out.1.2, out.2)) <$> replay (MatchingEngine_new 16) (Some (sample_file ++ sample_partial)) =
  (fun out => (out.1.2, out.2)) <$> replay (MatchingEngine_new 16) (Some sample_file).
Proof.
  pose proof sample_recs_wf as Hwf. apply Forall_app in Hwf as [Hrs Hr]. apply Forall_cons in Hr as [Hr _].
  apply (torn_tail_ignored (MatchingEngine_new 16) sample_recs (sample_rec sample_cancelled) sample_partial
    (drop 20 (rec_bytes (sample_rec sample_cancelled))) Hrs Hr).
  - symmetry. apply take_drop.
  - by vm_compute.
Defined.

Lemma replay_orders_history_witness :
  exists rs tail s,
    sample_file ++ sample_partial = journal_header ++ concat (rec_bytes <$> rs) ++ tail /\ torn tail /\
    rec_sequence <$> rs = seqZ s (Z.of_nat (length rs)) /\ StronglySorted Z.lt (priorities rs) /\
    state_ sample_replay.1.2 = READY /\
    Forall (fun p => p < priority_counter_ sample_replay.1.2) (priorities rs).
Proof.
  apply (replay_orders_history (MatchingEngine_new 16) (sample_file ++ sample_partial)
    sample_replay.1.1 sample_replay.1.2 sample_file_bytes); [by vm_compute|apply sample_replay_ok].
Defined.

Lemma journal_record_roundtrip_witness :
  exists r, readRecord (sample_record ++ sample_partial) = ReadOk r sample_partial /\
    rec_sequence r = 41 /\ rec_command r = NEW_ORDER /\ length (rec_payload r) = 50%nat /\
    new_order_fields (rec_payload r) = Build_NewOrderFields 1700000000 7 2 9 1 100500000 10 6 1 3.
Proof.
  pose proof sample_events_wf as Hwf. apply Forall_cons in Hwf as [Hwf _].
  apply (journal_record_roundtrip sample_accepted sample_record sample_partial Hwf). reflexivity.
Defined.
