(* ===== verification/Untimed.v ===== *)
(** * Untimed: books up to their timestamps

    Two books are equivalent when they hold the same orders in the same places and the same
    pool, whatever the orders' timestamps, the trade counter and the self-trade policy: what a
    journal can rebuild. The operations that recovery uses respect the equivalence. *)

From Stdlib Require Import ZArith Lia Bool.
From stdpp Require Import base tactics decidable numbers option list sorting.
From S2P Require Import Prelude.
From S2P Require Import Double.
From S2P Require Import Order.
From S2P Require Import OrderBook.
From S2P Require Import BookLevels.
From S2P Require Import BookInv.
From S2P Require Import BookIds.

Local Open Scope Z_scope.

(** ** Forgetting the time *)

Definition untimed (o : Order) : Order := setTimestamp o 0.

Definition untimed_level (l : PriceLevel) : PriceLevel :=
  Build_PriceLevel (lprice l) (untimed <$> orders l).

Definition untimed_book (b : OrderBook) : OrderBook :=
  Build_OrderBook (untimed_level <$> bids_ b) (untimed_level <$> asks_ b) 0 NONE
    (pool_capacity_ b) (pool_available_ b).

#[export] Instance book_equiv : Equiv OrderBook := fun b b' => untimed_book b = untimed_book b'.

#[export] Instance book_equivalence : Equivalence (≡@{OrderBook}).
Proof. split; unfold equiv, book_equiv; congruence. Qed.

(** From an operation that commutes with [untimed_book]. *)
Lemma same_answer_intro (x y : OrderBook * bool) :
  prod_map untimed_book (fun b : bool => b) x = prod_map untimed_book (fun b : bool => b) y ->
  prod_relation (≡) (=) x y.
Proof. destruct x, y. intros H. split; [exact (f_equal fst H)|exact (f_equal snd H)]. Qed.

Notation same_answer := (prod_relation (≡@{OrderBook}) (=)).

(** ** Levels *)

Lemma untimed_find id ls : find_order id (untimed_level <$> ls) = find_order id ls.
Proof.
  induction ls as [|l ls IH]; [done|]. cbn [fmap list_fmap find_order]. fold (untimed_level <$> ls).
  rewrite IH. cbn [orders untimed_level].
  assert (fst <$> list_find (fun o => order_id o = id) (untimed <$> orders l) =
          fst <$> list_find (fun o => order_id o = id) (orders l)) as Hf.
  { induction (orders l) as [|o os IHo]; [done|]. cbn [fmap list_fmap list_find].
    fold (untimed <$> os). destruct (decide (order_id (untimed o) = id)) as [Hd|Hd];
      destruct (decide (order_id o = id)) as [Hd'|Hd']; simpl in Hd; try done.
    destruct (list_find _ (untimed <$> os)) as [[? ?]|], (list_find _ os) as [[? ?]|]; simpl in *;
      congruence. }
  by destruct (list_find _ (untimed <$> orders l)) as [[i1 o1]|], (list_find _ (orders l)) as [[i2 o2]|];
    simplify_eq/=.
Qed.

Lemma untimed_order_at ls i j : order_at (untimed_level <$> ls) i j = untimed <$> order_at ls i j.
Proof.
  unfold order_at. rewrite list_lookup_fmap. destruct (ls !! i) as [l|]; [|done]. simpl.
  apply list_lookup_fmap.
Qed.

Lemma fmap_delete {A B} (f : A -> B) i (l : list A) : delete i (f <$> l) = f <$> delete i l.
Proof. revert i. induction l as [|x l IH]; intros [|i]; [done..|]. simpl. by f_equal. Qed.

Lemma untimed_erase ls i j :
  erase_order (untimed_level <$> ls) i j = untimed_level <$> erase_order ls i j.
Proof.
  unfold erase_order. rewrite list_lookup_fmap. destruct (ls !! i) as [l|]; [|done].
  cbn [fmap option_fmap option_map orders untimed_level]. rewrite fmap_delete.
  destruct (delete j (orders l)); cbn [fmap list_fmap].
  - apply fmap_delete.
  - by rewrite list_fmap_insert.
Qed.

Lemma untimed_update ls i j o :
  update_order (untimed_level <$> ls) i j (untimed o) = untimed_level <$> update_order ls i j o.
Proof.
  unfold update_order. rewrite list_lookup_fmap. destruct (ls !! i) as [l|]; [|done].
  cbn [fmap option_fmap option_map orders untimed_level].
  rewrite list_fmap_insert. unfold untimed_level at 3. cbn [lprice orders].
  by rewrite list_fmap_insert.
Qed.

Lemma untimed_search fuel right ls low high :
  level_search fuel right (untimed_level <$> ls) low high = level_search fuel right ls low high.
Proof.
  revert low high. induction fuel as [|fuel IH]; intros low high; [done|]. simpl.
  destruct (decide _); [|done]. rewrite list_lookup_fmap. destruct (ls !! _) as [lv|]; [|done].
  simpl. destruct (right (lprice lv)); apply IH.
Qed.

Lemma untimed_findLevel s b p : findLevel s (untimed_book b) p = findLevel s b p.
Proof.
  destruct s; unfold findLevel, findBidLevel, findAskLevel; cbn [bids_ asks_ untimed_book];
    rewrite length_fmap; apply untimed_search.
Qed.

Lemma untimed_insert_at {A B} (f : A -> B) i x (l : list A) :
  insert_at i (f x) (f <$> l) = f <$> insert_at i x l.
Proof. unfold insert_at. by rewrite fmap_app, fmap_cons, fmap_take, fmap_drop. Qed.

Lemma untimed_push ls idx o :
  push_order (untimed_level <$> ls) idx (untimed o) = untimed_level <$> push_order ls idx o.
Proof.
  unfold push_order. rewrite list_lookup_fmap.
  change (Build_PriceLevel (price (untimed o)) [untimed o])
    with (untimed_level (Build_PriceLevel (price o) [o])).
  destruct (ls !! idx) as [l|]; cbn [fmap option_fmap option_map]; [|by rewrite untimed_insert_at].
  cbn [lprice untimed_level]. change (price (untimed o)) with (price o).
  destruct (deq (lprice l) (price o)); [|by rewrite untimed_insert_at].
  rewrite list_fmap_insert. unfold untimed_level at 3. cbn [lprice orders].
  by rewrite fmap_app.
Qed.

(** ** Books *)

Lemma untimed_levels s b : levels_of s (untimed_book b) = untimed_level <$> levels_of s b.
Proof. by destruct s. Qed.

Lemma untimed_set s b ls n :
  untimed_book (set_levels s b ls n) =
  set_levels s (untimed_book b) (untimed_level <$> ls) n.
Proof. by destruct s. Qed.

Lemma untimed_locate b id : locate (untimed_book b) id = locate b id.
Proof. unfold locate. simpl. by rewrite !untimed_find. Qed.

Lemma untimed_cancel b id :
  cancelOrder (untimed_book b) id = prod_map untimed_book (fun x => x) (cancelOrder b id).
Proof.
  unfold cancelOrder. rewrite untimed_locate. destruct (locate b id) as [[[s i] j]|]; [|done].
  simpl. by rewrite untimed_levels, untimed_erase, untimed_set.
Qed.

Lemma untimed_get b id : getOrderById (untimed_book b) id = untimed <$> getOrderById b id.
Proof.
  unfold getOrderById. rewrite untimed_locate. destruct (locate b id) as [[[s i] j]|]; [|done].
  simpl. by rewrite untimed_levels, untimed_order_at.
Qed.

Lemma untimed_fill b id q :
  applyFill (untimed_book b) id q = prod_map untimed_book (fun x => x) (applyFill b id q).
Proof.
  unfold applyFill. destruct (q =? 0); [done|]. rewrite untimed_locate.
  destruct (locate b id) as [[[s i] j]|]; [|done]. rewrite untimed_levels, untimed_order_at.
  destruct (order_at (levels_of s b) i j) as [o|]; [|done]. cbn [fmap option_fmap option_map].
  change (remaining_quantity (untimed o)) with (remaining_quantity o).
  destruct (_ <? q); [done|]. destruct (_ =? 0); simpl.
  - by rewrite untimed_erase, untimed_set.
  - change (set_remaining (untimed o) ?r) with (untimed (set_remaining o r)).
    by rewrite untimed_update, untimed_set.
Qed.

Lemma untimed_add b o :
  addOrder (untimed_book b) (untimed o) = prod_map untimed_book (fun x => x) (addOrder b o).
Proof.
  unfold addOrder. change (quantity (untimed o)) with (quantity o).
  change (remaining_quantity (untimed o)) with (remaining_quantity o).
  destruct (_ || _); [done|]. change (pool_available_ (untimed_book b)) with (pool_available_ b).
  destruct (pool_available_ b <=? 0); [done|]. cbv zeta. cbn [prod_map fst snd].
  change (side (untimed o)) with (side o). change (price (untimed o)) with (price o).
  by rewrite untimed_levels, untimed_findLevel, untimed_push, untimed_set.
Qed.

(** ** The operations respect the equivalence *)

#[export] Instance cancelOrder_proper : Proper ((≡) ==> (=) ==> same_answer) cancelOrder.
Proof.
  intros b b' Hb id _ <-. apply same_answer_intro. rewrite <- !untimed_cancel. by rewrite Hb.
Qed.

#[export] Instance applyFill_proper : Proper ((≡) ==> (=) ==> (=) ==> same_answer) applyFill.
Proof.
  intros b b' Hb id _ <- q _ <-. apply same_answer_intro. rewrite <- !untimed_fill. by rewrite Hb.
Qed.

Lemma addOrder_equiv b b' o o' :
  b ≡ b' -> untimed o = untimed o' -> same_answer (addOrder b o) (addOrder b' o').
Proof.
  intros Hb Ho. apply same_answer_intro. rewrite <- !untimed_add. by rewrite Hb, Ho.
Qed.

Lemma getOrderById_equiv b b' id :
  b ≡ b' -> untimed <$> getOrderById b id = untimed <$> getOrderById b' id.
Proof. intros Hb. rewrite <- !untimed_get. by rewrite Hb. Qed.

Lemma getOrderById_None_equiv b b' id :
  b ≡ b' -> getOrderById b id = None -> getOrderById b' id = None.
Proof.
  intros Hb Hn. pose proof (getOrderById_equiv b b' id Hb) as H. rewrite Hn in H.
  by destruct (getOrderById b' id).
Qed.

#[export] Instance pool_available_proper : Proper ((≡) ==> (=)) pool_available_.
Proof. intros b b' Hb. exact (f_equal pool_available_ Hb). Qed.

Lemma with_next_trade_id_equiv b n : with_next_trade_id b n ≡ b.
Proof. done. Qed.
