(* ===== verification/ReplayFills.v ===== *)
(** * ReplayFills: the trades of a matching run, applied one by one

    Recovery does not match: it applies each journaled fill to the resting order it names.
    On a book without exhausted orders the fills of [matchOrder], applied in order, lead to
    the book that the matching loop left. *)

From Stdlib Require Import ZArith Lia Bool Sorted.
From stdpp Require Import base tactics decidable numbers option list sorting.
From S2P Require Import Prelude.
From S2P Require Import Double.
From S2P Require Import Order.
From S2P Require Import OrderBook.
From S2P Require Import BookLevels.
From S2P Require Import BookMatch.
From S2P Require Import BookInv.
From S2P Require Import BookSpec.
From S2P Require Import BookFacts.
From S2P Require Import BookIds.
From S2P Require Import Untimed.

Local Open Scope Z_scope.

(** ** Fills *)

(** The resting order of a trade with an incoming order of side [s]. *)
Definition resting_id (s : OrderSide) (t : Trade) : Z :=
  match s with BUY => sell_order_id t | SELL => buy_order_id t end.

Fixpoint fill_all (s : OrderSide) (b : OrderBook) (ts : list Trade) : option OrderBook :=
  match ts with
  | [] => Some b
  | t :: ts =>
      match applyFill b (resting_id s t) (trade_quantity t) with
      | (b, true) => fill_all s b ts
      | (_, false) => None
      end
  end.

#[export] Instance fill_all_proper s : Proper ((≡) ==> (=) ==> (≡)) (fill_all s).
Proof.
  intros b b' Hb ts _ <-. revert b b' Hb. induction ts as [|t ts IH]; intros b b' Hb; simpl.
  { by constructor. }
  pose proof (applyFill_proper _ _ Hb (resting_id s t) _ eq_refl (trade_quantity t) _ eq_refl) as [H1 H2].
  destruct (applyFill b _ _) as [b1 []], (applyFill b' _ _) as [b2 []]; simpl in *; try done.
  by apply IH.
Qed.

Lemma fill_all_app s b ts1 ts2 :
  fill_all s b (ts1 ++ ts2) = (b ← fill_all s b ts1; fill_all s b ts2).
Proof.
  revert b. induction ts1 as [|t ts1 IH]; intros b; simpl; [done|].
  destruct (applyFill _ _ _) as [b1 []]; [apply IH|done].
Qed.

(** ** Exhausted orders *)

(** No order with nothing left to trade. *)
Definition live_levels (ls : list PriceLevel) : Prop :=
  Forall (fun o => 0 < remaining_quantity o) (flat ls).

Definition live_book (b : OrderBook) : Prop := live_levels (bids_ b) /\ live_levels (asks_ b).

Lemma live_book_side s b : live_book b <-> live_levels (levels_of s b) /\ live_levels (levels_of (opposite s) b).
Proof. unfold live_book. destruct s; simpl; tauto. Qed.

Lemma pop_filled_live os : Forall (fun o => 0 < remaining_quantity o) os -> pop_filled os = (os, 0).
Proof.
  destruct 1 as [|o os Ho Hos]; [done|]. simpl.
  destruct (Z.eqb_spec (remaining_quantity o) 0); [lia|done].
Qed.

(** ** One turn *)

(** The first order of the first level of its side is found there. *)
Lemma locate_front s b l ls r os :
  unique_ids b -> levels_of s b = l :: ls -> orders l = r :: os ->
  locate b (order_id r) = Some (s, 0%nat, 0%nat).
Proof.
  intros Hu Hls Hos.
  assert (Hfind : find_order (order_id r) (l :: ls) = Some (0%nat, 0%nat)).
  { simpl. rewrite Hos. simpl. by rewrite decide_True. }
  unfold locate. destruct s; simpl in Hls; rewrite Hls in *; [by rewrite Hfind|].
  assert (find_order (order_id r) (bids_ b) = None) as ->; [|by rewrite Hfind].
  apply find_order_None, not_in_ids. intros Hin. apply (unique_ids_side BUY) in Hu.
  apply NoDup_app in Hu as (_ & Hd & _). apply (Hd (order_id r)); [exact Hin|].
  unfold side_ids. simpl. rewrite Hls, flat_cons, Hos, ids_app. simpl. by left.
Qed.

Lemma make_trade_fields inc r tid lp q now t :
  make_trade inc r tid lp q now = Ok t ->
  resting_id (side inc) t = order_id r /\ trade_quantity t = q /\ q <> 0 /\ trade_price t = lp.
Proof.
  unfold make_trade, resting_id. destruct (side inc); intros Ht;
    apply Trade_new_inv in Ht as (-> & _ & _ & Hq & _); done.
Qed.

Lemma set_match_book b inc st ls n st' :
  ms_levels st' = ls -> ms_freed st' = ms_freed st + n ->
  set_levels (opposite (side inc)) (match_book b inc st) ls n ≡ match_book b inc st'.
Proof.
  intros <- Hf. unfold match_book, equiv, book_equiv. rewrite Hf.
  destruct (side inc); unfold untimed_book; simpl; by rewrite Z.add_assoc.
Qed.

(** A turn makes one trade, and applying its fill to the book before gives the book after. *)
Lemma turn_fill clock b inc st st' :
  side (ms_incoming st) = side inc ->
  levels_wf (opposite (side inc)) (ms_levels st) -> live_levels (ms_levels st) ->
  unique_ids (match_book b inc st) -> match_iter clock st = Continue st' ->
  live_levels (ms_levels st') /\
  exists t, ms_trades st' = ms_trades st ++ [t] /\
    resting_id (side inc) t ∈ ids (flat (ms_levels st)) /\
    fill_all (side inc) (match_book b inc st) [t] ≡ Some (match_book b inc st').
Proof.
  intros Hside Hwf Hlive Hu Hit. pose proof (match_iter_case clock st) as Hcase.
  rewrite Hit in Hcase.
  assert (Hpop : forall l ls, ms_levels st = l :: ls -> pop_filled (orders l) = (orders l, 0)).
  { intros l ls Hls. apply pop_filled_live. unfold live_levels in Hlive.
    rewrite Hls, flat_cons in Hlive. by apply Forall_app in Hlive as [? _]. }
  inversion Hcase as [|l ls n Hls Hrem Hb Hp|l ls r os n t Hls Hrem Hb Hp Ht q|]; subst st'.
  { rewrite (Hpop _ _ Hls) in Hp. injection Hp as Hempty _. exfalso.
    rewrite Hls in Hwf. apply levels_wf_cons in Hwf as [(Hne & _) _]. done. }
  rewrite (Hpop _ _ Hls) in Hp. injection Hp as Hos <-.
  unfold live_levels in *. rewrite Hls, flat_cons, Hos in Hlive. simpl in Hlive.
  apply Forall_cons in Hlive as [Hr Hlive]. apply Forall_app in Hlive as [Hlos Hlls].
  pose proof (trade_qty_bounds (ms_incoming st) r) as Hqb.
  unfold after_trade. cbn [ms_levels ms_trades]. split.
  { rewrite flat_shrink, Forall_app. split; [|done]. simpl.
    destruct (Z.eqb_spec (remaining_quantity r - q) 0); [done|]. constructor; [|done].
    unfold q in *. simpl. unfold trade_qty in *. lia. }
  exists t. split; [done|]. apply make_trade_fields in Ht as (Hid & Hq & Hq0 & _).
  rewrite Hside in Hid. split.
  { rewrite Hid, Hls, flat_cons, Hos. by apply elem_of_cons; left. }
  simpl fill_all. rewrite Hid, Hq. fold q in Hq0 |- *.
  destruct (match_book_sides b inc st) as (_ & Hopp & _ & _).
  pose proof (locate_front _ _ l ls r os Hu (eq_trans Hopp Hls) Hos) as Hloc.
  unfold applyFill. rewrite (proj2 (Z.eqb_neq _ _) Hq0), Hloc, Hopp, Hls.
  assert (order_at (l :: ls) 0 0 = Some r) as -> by (unfold order_at; simpl; by rewrite Hos).
  rewrite (proj2 (Z.ltb_ge _ _)) by (unfold q; lia). cbn [remaining_quantity take_qty set_remaining].
  destruct (Z.eqb_spec (remaining_quantity r - q) 0) as [Hz|Hz]; constructor; apply set_match_book;
    cbn [ms_levels ms_freed]; try lia.
  - unfold erase_order. simpl. rewrite Hos. by destruct os.
  - unfold update_order, take_qty. simpl. by rewrite Hos.
Qed.

(** ** The whole run *)

Lemma match_book_unique b inc st st' :
  sublist (ids (flat (ms_levels st'))) (ids (flat (ms_levels st))) ->
  unique_ids (match_book b inc st) -> unique_ids (match_book b inc st').
Proof.
  intros Hs Hu. destruct (match_book_sides b inc st) as (H1 & H2 & _).
  destruct (match_book_sides b inc st') as (H1' & H2' & _).
  rewrite (unique_ids_side (side inc)) in *. unfold side_ids in *. rewrite H1', H2'. rewrite H1, H2 in Hu.
  eapply sublist_NoDup; [exact Hu|]. by apply sublist_app.
Qed.

Lemma loop_fills clock b inc fuel st st' :
  side (ms_incoming st) = side inc ->
  levels_wf (opposite (side inc)) (ms_levels st) -> live_levels (ms_levels st) ->
  unique_ids (match_book b inc st) -> match_loop fuel clock st = Finished st' ->
  live_levels (ms_levels st') /\
  exists ts, ms_trades st' = ms_trades st ++ ts /\
    Forall (fun t => resting_id (side inc) t ∈ ids (flat (ms_levels st))) ts /\
    fill_all (side inc) (match_book b inc st) ts ≡ Some (match_book b inc st').
Proof.
  revert st. induction fuel as [|fuel IH]; intros st Hside Hwf Hlive Hu Hl; cbn [match_loop] in Hl.
  { injection Hl as <-. split; [done|]. exists []. rewrite app_nil_r. split; [done|]. split; by constructor. }
  pose proof (match_iter_case clock st) as Hcase.
  destruct (match_iter clock st) as [st1|st1|st1 e] eqn:Hit; [| |done].
  - pose proof (turn_fill clock b inc st st1 Hside Hwf Hlive Hu Hit) as (Hlive1 & t & Ht & Hrid & Hfill).
    pose proof (turn_sublist clock st st1 (or_introl Hit)) as Hsub.
    pose proof (turn_levels_wf clock _ st st1 Hwf (or_introl Hit)) as Hwf1.
    destruct (IH st1) as (Hlive' & ts & Hts & Hrids & Hfills); [|done|done|by eapply match_book_unique|done|].
    { inversion Hcase; subst; done. }
    split; [done|]. exists (t :: ts). rewrite Hts, Ht, <- app_assoc. split; [done|]. split.
    { constructor; [done|]. eapply Forall_impl; [exact Hrids|]. simpl. intros t' Ht'. by eapply elem_of_sublist. }
    change (t :: ts) with ([t] ++ ts). rewrite fill_all_app.
    destruct (fill_all _ _ [t]) as [b1|]; [|by inversion Hfill]. inversion Hfill as [? ? Hb1|]; subst.
    cbn [mbind option_bind]. by rewrite Hb1.
  - inversion Hcase; subst. injection Hl as <-. split; [done|]. exists []. rewrite app_nil_r.
    split; [done|]. split; by constructor.
Qed.

(** ** matchOrder *)

Lemma match_loop_freed clock fuel st st' :
  0 <= ms_freed st -> match_loop fuel clock st = Finished st' -> 0 <= ms_freed st'.
Proof.
  apply (match_loop_finished clock (fun st => 0 <= ms_freed st)). intros st1 st2 H0 Hit.
  pose proof (match_iter_case clock st1) as Hcase. rewrite Hit in Hcase.
  inversion Hcase as [|l ls n Hls Hrem Hb Hp|l ls r os n t Hls Hrem Hb Hp Ht q|]; subst; simpl;
    apply pop_filled_spec in Hp as (zs & _ & _ & Hn & _); [lia|].
  match goal with |- context [if ?c then 1 else 0] => destruct c end; lia.
Qed.

Lemma live_push ls idx o : 0 < remaining_quantity o -> live_levels ls -> live_levels (push_order ls idx o).
Proof. unfold live_levels. intros Ho Hls. rewrite push_order_perm. by constructor. Qed.

Lemma live_add b o : live_book b -> 0 < remaining_quantity o -> live_book (addOrder b o).1.
Proof.
  intros Hb Ho. unfold addOrder. destruct (_ || _); [done|]. destruct (_ <=? 0); [done|].
  apply (live_book_side (side o)) in Hb as [H1 H2]. apply (live_book_side (side o)).
  cbn [fst]. autorewrite with trading. split; [by apply live_push|done].
Qed.

Lemma live_cancel b id : live_book b -> live_book (cancelOrder b id).1.
Proof.
  intros Hb. unfold cancelOrder. destruct (locate b id) as [[[s i] j]|] eqn:Hl; [|done].
  destruct (locate_zip _ _ _ _ _ Hl) as (ls1 & lp & os1 & o & os2 & ls2 & Hls & _ & _ & _ & _ & He & _).
  pose proof (proj1 (live_book_side s b) Hb) as [H1 H2]. apply (live_book_side s). cbn [fst].
  autorewrite with trading. split; [|done]. rewrite He. unfold live_levels in *. rewrite Hls in H1.
  rewrite flat_app, flat_cons in H1. rewrite flat_app, flat_shrink. cbn [orders] in H1.
  rewrite !Forall_app, Forall_cons in *. tauto.
Qed.

Lemma addOrder_stp b o : stp_policy_ (addOrder b o).1 = stp_policy_ b.
Proof. unfold addOrder. destruct (_ || _); [done|]. destruct (_ <=? 0); [done|]. by destruct (side o). Qed.

Lemma addOrder_next b o : next_trade_id_ (addOrder b o).1 = next_trade_id_ b.
Proof. unfold addOrder. destruct (_ || _); [done|]. destruct (_ <=? 0); [done|]. by destruct (side o). Qed.

Lemma cancelOrder_same_counters b id :
  stp_policy_ (cancelOrder b id).1 = stp_policy_ b /\ next_trade_id_ (cancelOrder b id).1 = next_trade_id_ b /\
  pool_capacity_ (cancelOrder b id).1 = pool_capacity_ b.
Proof. unfold cancelOrder. destruct (locate b id) as [[[[] i] j]|]; done. Qed.

(** A run of [matchOrder] that nothing interrupts: [b1] is the book when the loop ends. *)
Record matched (clock : Z -> Z) (b : OrderBook) (inc : Order) (ts : list Trade) (b1 : OrderBook)
    (r : Z) : Prop := {
  matched_result : mo_result (matchOrder clock b inc) = Ok ts;
  matched_incoming : mo_incoming (matchOrder clock b inc) = set_remaining inc r;
  matched_book : mo_book (matchOrder clock b inc) =
    if rests (set_remaining inc r) then (addOrder b1 (set_remaining inc r)).1 else b1;
  matched_fills : fill_all (side inc) b ts ≡ Some b1;
  matched_opposite : Forall (fun t => resting_id (side inc) t ∈ side_ids (opposite (side inc)) b) ts;
  matched_fewer : fewer_ids b b1;
  matched_pool : pool_available_ b <= pool_available_ b1;
  matched_live : live_book b1;
  matched_stp : stp_policy_ b1 = stp_policy_ b;
  matched_next : next_trade_id_ b <= next_trade_id_ b1;
  matched_remaining : 0 <= r <= remaining_quantity inc;
  matched_quantities :
    Forall (fun t => 0 < trade_quantity t <= remaining_quantity inc - r) ts
}.

(** A nonnegative summand is at most the sum. *)
Lemma sum_by_member {A} (f : A -> Z) l :
  Forall (fun x => 0 < f x) l -> Forall (fun x => 0 < f x <= sum_by f l) l.
Proof.
  induction 1 as [|x l Hx HF IH]; [constructor|]. simpl.
  assert (0 <= sum_by f l) by (apply sum_by_nonneg; eapply Forall_impl; [exact HF|]; simpl; lia).
  constructor; [lia|]. eapply Forall_impl; [exact IH|]. simpl. lia.
Qed.

(** A FOK order that cannot be filled does nothing. *)
Lemma matched_refused clock b inc :
  incoming_wf inc -> live_book b -> bool_decide (type inc = FOK) && negb (canFullyFill b inc) = true ->
  matched clock b inc [] b (remaining_quantity inc).
Proof.
  intros (_ & _ & Hrq) Hlive Hfok.
  assert (matchOrder clock b inc = Build_MatchOutcome b inc (Ok [])) as Hm
    by (unfold matchOrder; by rewrite Hfok).
  apply andb_true_iff in Hfok as [Ht _]. apply bool_decide_eq_true in Ht.
  assert (rests inc = false) as Hrests by (unfold rests; rewrite Ht; by rewrite andb_false_r).
  split; rewrite ?Hm, ?set_remaining_id, ?Hrests; (done || lia).
Qed.

Lemma match_start_equiv b inc : match_book b inc (match_start b inc) ≡ b.
Proof.
  unfold match_book, match_start, equiv, book_equiv, untimed_book. destruct (side inc); simpl; by rewrite Z.add_0_r.
Qed.

(** Where the loop ends without an exception. *)
Lemma match_phase_finishes clock b inc :
  book_wf b -> incoming_wf inc -> no_throw inc (next_trade_id_ b) (candidates b inc) ->
  exists st r, match_loop (S (match_measure (match_start b inc))) clock (match_start b inc) = Finished st /\
    ms_incoming st = set_remaining inc r /\ 0 <= r <= remaining_quantity inc /\
    next_trade_id_ b <= ms_next_trade_id st.
Proof.
  intros Hwf Hinc Hno. destruct (match_phase_greedy clock b inc Hwf Hinc Hno) as (st & Hl & Hg).
  pose proof (greedy_remaining (remaining_quantity inc) (candidates b inc)) as Hrem.
  destruct (greedy _ (candidates b inc)) as [[fs rest] r]. destruct Hg as (Hr & _ & _ & Hnext & _).
  simpl in Hrem. destruct Hinc as (_ & _ & Hrq).
  pose proof (candidates_nonneg b inc Hwf) as Hnn. pose proof (sum_by_nonneg _ _ Hnn).
  exists st, r. split_and!; [done|done|..|lia]; rewrite Hrem by (lia || done); lia.
Qed.

Lemma matchOrder_fills clock b inc :
  book_wf b -> incoming_wf inc -> unique_ids b -> live_book b -> stp_policy_ b = NONE ->
  order_id inc ∉ book_ids b -> 1 <= next_trade_id_ b ->
  next_trade_id_ b + pool_capacity_ b <= UINT64_MAX ->
  exists ts b1 r, matched clock b inc ts b1 r.
Proof.
  intros Hwf Hinc Hu Hlive Hstp Hid H1 Hmax.
  destruct (bool_decide (type inc = FOK) && negb (canFullyFill b inc)) eqn:Hfok; [eauto using matched_refused|].
  assert (matchOrder clock b inc = match_phase clock b inc) as Hm
    by (unfold matchOrder; rewrite Hfok, stp_phase_skip; [done|by left]).
  destruct (match_phase_finishes clock b inc Hwf Hinc) as (st & r & Hl & Hr & Hrr & Hnext); [by apply fresh_no_throw|].
  pose proof (proj1 (book_wf_side (opposite (side inc)) b) Hwf) as (Hside & _).
  pose proof (proj1 (live_book_side (opposite (side inc)) b) Hlive) as [Hlo Hls].
  rewrite opposite_involutive in Hls.
  assert (unique_ids (match_book b inc (match_start b inc))) as Hu0
    by (apply (match_book_fewer b inc (match_start b inc)); [done|exact Hu]).
  destruct (loop_fills clock b inc _ (match_start b inc) st eq_refl Hside Hlo Hu0 Hl) as (Hlst & ts & Hts & Hrids & Hfill).
  destruct (match_book_sides b inc st) as (Hs1 & Hs2 & Hs3 & Hs4).
  pose proof (match_loop_sublist clock (S (match_measure (match_start b inc))) (match_start b inc)) as Hsub.
  rewrite Hl in Hsub.
  assert (matchOrder clock b inc = Build_MatchOutcome
    (if rests (set_remaining inc r) then (addOrder (match_book b inc st) (set_remaining inc r)).1 else match_book b inc st)
    (set_remaining inc r) (Ok ts)) as Hout by (rewrite Hm; unfold match_phase; rewrite Hl; by rewrite Hr, Hts).
  destruct (matchOrder_sums clock b inc ts Hwf Hinc) as [Hsum HF]; [by rewrite Hout|]. rewrite Hout in Hsum.
  exists ts, (match_book b inc st), r. split; rewrite ?Hout; try done.
  - etransitivity; [|exact Hfill]. apply fill_all_proper; [symmetry; apply match_start_equiv|done].
  - by apply match_book_fewer.
  - rewrite Hs3. apply match_loop_freed in Hl; [lia|simpl; lia].
  - apply (live_book_side (opposite (side inc))). rewrite opposite_involutive, Hs1, Hs2. done.
  - unfold match_book. by destruct (side inc).
  - simpl in Hsum. replace (remaining_quantity inc - r) with (sum_by trade_quantity ts) by lia.
    apply sum_by_member. eapply Forall_impl; [exact HF|]. by intros t (? & _).
Qed.

(** The resting orders of the fills are orders of the book. *)
Lemma fill_all_ids s b ts b1 :
  fill_all s b ts = Some b1 -> Forall (fun t => resting_id s t ∈ book_ids b) ts.
Proof.
  revert b. induction ts as [|t ts IH]; intros b Hf; [constructor|]. simpl in Hf.
  pose proof (applyFill_fewer b (resting_id s t) (trade_quantity t)) as [_ Hsub].
  destruct (applyFill b _ _) as [b' []] eqn:Ha; [|done]. simpl in Hsub. constructor.
  - destruct (decide (resting_id s t ∈ book_ids b)) as [|Hn]; [done|]. exfalso.
    apply getOrderById_None in Hn. unfold applyFill in Ha. destruct (_ =? 0); [done|].
    unfold getOrderById in Hn. destruct (locate b _) as [[[s' i] j]|]; [|done]. simpl in Hn.
    by rewrite Hn in Ha.
  - eapply Forall_impl; [by apply IH|]. simpl. auto.
Qed.
