(* ===== verification/Resumed.v ===== *)
(** * Resumed: an engine that comes out of a replay can go on

    What the invariant of a running engine ([engine_inv]) asks of a book does not depend on the
    timestamps of its orders, so a book that was rebuilt up to them still satisfies it; and the
    orders that a replay leaves in the book all have priorities that it has seen, below the number
    it seeds the engine's counter with. *)

From Stdlib Require Import ZArith Lia Bool Sorted.
From stdpp Require Import base tactics decidable numbers option relations list sorting.
From S2P Require Import Prelude.
From S2P Require Import Double.
From S2P Require Import Order.
From S2P Require Import OrderBook.
From S2P Require Import BookLevels.
From S2P Require Import BookMatch.
From S2P Require Import BookInv.
From S2P Require Import BookIds.
From S2P Require Import BookQueues.
From S2P Require Import BookProps.
From S2P Require Import Events.
From S2P Require Import MatchingEngine.
From S2P Require Import EngineProps.
From S2P Require Import Bytes.
From S2P Require Import Journal.
From S2P Require Import Recovery.
From S2P Require Import RecoveryProps.
From S2P Require Import Untimed.

Local Open Scope Z_scope.

(** ** The invariant does not see the time *)

Lemma untimed_flat ls : flat (untimed_level <$> ls) = untimed <$> flat ls.
Proof.
  induction ls as [|l ls IH]; [done|]. cbn [fmap list_fmap]. fold (untimed_level <$> ls).
  rewrite !flat_cons, IH, fmap_app. done.
Qed.

Lemma untimed_observed {A} (f : Order -> A) (os : list Order) :
  (forall o, f (untimed o) = f o) -> f <$> (untimed <$> os) = f <$> os.
Proof. intros Hf. rewrite <- list_fmap_compose. apply list_fmap_ext. intros i o _. apply Hf. Qed.

Lemma untimed_all {A} (f : Order -> A) P b :
  (forall o, f (untimed o) = f o) -> book_all f P (untimed_book b) <-> book_all f P b.
Proof.
  intros Hf. assert (forall ls, levels_all f P (untimed_level <$> ls) <-> levels_all f P ls) as Hls.
  { intros ls. unfold levels_all. rewrite Forall_fmap. apply Forall_iff. intros l.
    unfold compose. cbn [orders untimed_level]. by rewrite untimed_observed. }
  unfold book_all. cbn [bids_ asks_ untimed_book]. by rewrite !Hls.
Qed.

Lemma untimed_ids b : book_ids (untimed_book b) = book_ids b.
Proof.
  unfold book_ids, side_ids, ids. cbn [levels_of bids_ asks_ untimed_book].
  by rewrite !untimed_flat, !untimed_observed.
Qed.

Lemma untimed_resting s lp o : resting_wf s lp (untimed o) <-> resting_wf s lp o.
Proof. by destruct o. Qed.

Lemma untimed_levels_wf s ls : levels_wf s (untimed_level <$> ls) <-> levels_wf s ls.
Proof.
  unfold levels_wf. rewrite Forall_fmap.
  assert (forall l, level_wf s (untimed_level l) <-> level_wf s l) as Hl.
  { intros [lp os]. unfold level_wf. cbn [orders lprice untimed_level]. rewrite Forall_fmap.
    split; intros (H1 & H2 & H3); (split; [by destruct os|]); (split; [done|]);
      (eapply Forall_impl; [exact H3|]); intros o; apply untimed_resting. }
  assert (Forall (level_wf s ∘ untimed_level) ls <-> Forall (level_wf s) ls) as Hf by (apply Forall_iff; exact Hl).
  assert (StronglySorted (level_before s) (untimed_level <$> ls) <-> StronglySorted (level_before s) ls) as Hs;
    [|tauto]. clear Hf. induction ls as [|l ls IH]; [split; constructor|].
  cbn [fmap list_fmap]. fold (untimed_level <$> ls). split; intros [Hs HF]%StronglySorted_inv; constructor;
    [by apply IH|rewrite Forall_fmap in HF; exact HF|by apply IH|rewrite Forall_fmap; exact HF].
Qed.

Lemma untimed_wf b : book_wf (untimed_book b) <-> book_wf b.
Proof.
  unfold book_wf, order_slots. cbn [bids_ asks_ pool_capacity_ pool_available_ untimed_book].
  by rewrite !untimed_levels_wf, !untimed_flat, !length_fmap.
Qed.

Lemma untimed_uncrossed b : uncrossed (untimed_book b) <-> uncrossed b.
Proof.
  unfold uncrossed. cbn [bids_ asks_ untimed_book]. rewrite Forall_fmap. apply Forall_iff. intros lb.
  unfold compose. by rewrite Forall_fmap.
Qed.

#[export] Instance book_wf_proper : Proper ((≡) ==> iff) book_wf.
Proof. intros b b' Hb. by rewrite <- (untimed_wf b), <- (untimed_wf b'), Hb. Qed.

#[export] Instance uncrossed_proper : Proper ((≡) ==> iff) uncrossed.
Proof. intros b b' Hb. by rewrite <- (untimed_uncrossed b), <- (untimed_uncrossed b'), Hb. Qed.

#[export] Instance unique_ids_proper : Proper ((≡) ==> iff) unique_ids.
Proof. intros b b' Hb. unfold unique_ids. by rewrite <- (untimed_ids b), <- (untimed_ids b'), Hb. Qed.

#[export] Instance queues_proper n : Proper ((≡) ==> iff) (queues_by_priority n).
Proof.
  intros b b' Hb. unfold queues_by_priority.
  by rewrite <- (untimed_all priority_seq _ b), <- (untimed_all priority_seq _ b'), Hb.
Qed.

(** ** The priorities that a replay has seen *)

Definition below (n : Z) (b : OrderBook) : Prop := book_all priority_seq (Forall (fun p => p < n)) b.

(** Every order in the book came from a record, whose priority the replay has noted. *)
Definition seen (rc : Recovery) (b : OrderBook) : Prop :=
  book_all priority_seq (Forall (fun p => new_orders_replayed_ rc <> 0 /\ p <= max_priority_seq_seen_ rc)) b.

Lemma Forall_sub {A} (P : A -> Prop) (q q' : list A) : sublist q' q -> Forall P q -> Forall P q'.
Proof. intros Hs. rewrite !Forall_forall. intros H x Hx. apply H. by eapply elem_of_sublist. Qed.

Lemma restored_order_priority f o : restored_order f = Ok o -> priority_seq o = nf_priority_seq f.
Proof.
  unfold restored_order. destruct (Order_new _ _ _ _ _ _ _ _) as [o'|ex]; [|done]. by intros [= <-].
Qed.

Lemma book_all_impl {A} (f : Order -> A) (P Q : list A -> Prop) b :
  (forall q, P q -> Q q) -> book_all f P b -> book_all f Q b.
Proof. intros H [H1 H2]. split; (eapply Forall_impl; [eassumption|]); intros l; apply H. Qed.

Lemma processRecord_seen rc e r rc' e' :
  processRecord rc e r = (rc', e', Ok true) -> 0 <= new_orders_replayed_ rc < UINT64_MAX ->
  seen rc (book_ e) -> seen rc' (book_ e').
Proof.
  intros Hp Hn Hseen. pose proof (processRecord_true _ _ _ _ _ Hp) as (_ & _ & _ & _ & Hnew).
  unfold processRecord, new_priority in *. destruct (rec_command r =? NEW_ORDER).
  - destruct Hnew as (Hcount & Hmax & Hup). rewrite u64_small in Hcount by (unfold_int; lia).
    unfold replay_new_order in Hp. repeat case_match; simplify_eq.
    match goal with H : restored_order _ = Ok _ |- _ => apply restored_order_priority in H as Hprio end.
    match goal with H : restoreOrder _ _ _ = _ |- _ => unfold restoreOrder in H; revert H end.
    repeat case_match; intros; simplify_eq. cbn [book_ with_book].
    match goal with H : addOrder ?b ?o = (?b', true) |- seen _ ?b' =>
      replace b' with (addOrder b o).1 by (by rewrite H) end.
    unfold seen. rewrite Hcount, Hmax. set (p0 := nf_priority_seq _) in *.
    apply (addOrder_all priority_seq (Forall (fun p => new_orders_replayed_ rc + 1 <> 0 /\ p <= p0))
      (Forall (fun p => new_orders_replayed_ rc + 1 <> 0 /\ p <= p0)) p0); [done| |by constructor|done|].
    + intros q Hq. apply Forall_app. split; [done|]. apply Forall_singleton. lia.
    + eapply book_all_impl; [|exact Hseen]. intros q Hq. eapply Forall_impl; [exact Hq|].
      intros p [H0' Hle]. specialize (Hup H0'). simpl. lia.
  - assert (forall b', book_all priority_seq (Forall (fun p => new_orders_replayed_ rc <> 0 /\
      p <= max_priority_seq_seen_ rc)) b' -> seen rc' b') as Hkeep.
    { intros b' Hb'. destruct Hnew as [Hcount Hmax]. unfold seen.
      rewrite Hcount, Hmax, Z.add_0_r, u64_small by (unfold_int; lia). exact Hb'. }
    destruct (rec_command r =? CANCEL_ORDER); [|destruct (rec_command r =? FILL); [|done]].
    + unfold replay_cancel, restoreCancel in Hp. destruct (negb _); [done|].
      pose proof (cancelOrder_all priority_seq _ (Forall_sub _) (book_ e) (readU64BE (drop 8 (rec_payload r))) Hseen) as Hb.
      destruct (cancelOrder _ _) as [b []]; simplify_eq. by apply Hkeep.
    + unfold replay_fill, engine_applyFill in Hp. destruct (negb _); [done|].
      pose proof (applyFill_all priority_seq (fun _ _ => eq_refl) _ (Forall_sub _) (book_ e)
        (readU64BE (drop 8 (rec_payload r))) (readU32BE (drop 32 (rec_payload r))) Hseen) as Hb.
      destruct (applyFill _ _ _) as [b []]; simplify_eq. by apply Hkeep.
Qed.

Lemma process_all_seen rc e rs rc' e' :
  process_all rc e rs = (rc', e', Ok true) -> 0 <= new_orders_replayed_ rc ->
  new_orders_replayed_ rc + Z.of_nat (length rs) <= UINT64_MAX ->
  seen rc (book_ e) -> seen rc' (book_ e').
Proof.
  revert rc e. induction rs as [|r rs IH]; intros rc e Hall H0 Hmax Hseen; [by injection Hall as <- <-|].
  cbn [process_all length] in *. destruct (validateSequence rc _) as [rc1 []] eqn:Hv; [|done]. cbn [negb] in Hall.
  apply validateSequence_true in Hv as [-> _].
  destruct (processRecord _ e r) as [[rc2 e2] [[]|]] eqn:Hp; [|done|done].
  pose proof (processRecord_true _ _ _ _ _ Hp) as (_ & _ & _ & _ & Hnew).
  apply processRecord_seen in Hp as Hs2; [|simpl; unfold_int; lia|exact Hseen].
  cbn [with_sequence new_orders_replayed_] in Hnew.
  apply (IH rc2 e2 Hall); [| |exact Hs2];
    destruct (new_priority r); destruct Hnew as [-> _]; rewrite u64_small; unfold_int; lia.
Qed.

(** The number that the engine's counter is seeded with is above all of them. *)
Lemma seen_below rc b :
  seen rc b -> below (if new_orders_replayed_ rc =? 0 then 0 else max_priority_seq_seen_ rc + 1) b.
Proof.
  intros Hs. eapply book_all_impl; [|exact Hs]. intros q Hq. eapply Forall_impl; [exact Hq|].
  intros p [Hn Hp]. simpl. rewrite (proj2 (Z.eqb_neq _ _) Hn). lia.
Qed.

(** ** The engine after the replay *)

(** A replay of the records of an engine's run that ends with a book equivalent to the engine's and
    a counter above every priority it has seen. *)
Lemma resumed_inv e e' :
  engine_inv e -> book_ e ≡ book_ e' -> below (priority_counter_ e') (book_ e') ->
  in_u64 (priority_counter_ e') -> engine_inv e'.
Proof.
  intros (Hw & Hu & Hids & Hq & _) Hb Hbelow Hn. split_and!.
  - by rewrite <- Hb.
  - by rewrite <- Hb.
  - by rewrite <- Hb.
  - rewrite Hb in Hq. destruct Hq as [Hq1 Hq2], Hbelow as [H1 H2]. unfold levels_all in *.
    rewrite Forall_forall in *. split; apply Forall_forall; intros l Hl.
    + split; [exact (proj1 (Hq1 l Hl))|exact (H1 l Hl)].
    + split; [exact (proj1 (Hq2 l Hl))|exact (H2 l Hl)].
  - exact Hn.
Qed.
