(* ===== verification/Rebuild.v ===== *)
(** * Rebuild: replaying the journal of a run rebuilds its book

    The simulation between a running engine and an engine that replays the records of the
    events the first one published. *)

From Stdlib Require Import ZArith Lia Bool Sorted.
From stdpp Require Import base tactics decidable numbers option relations list sorting.
From S2P Require Import Prelude.
From S2P Require Import Double.
From S2P Require Import Order.
From S2P Require Import OrderBook.
From S2P Require Import BookLevels.
From S2P Require Import BookMatch.
From S2P Require Import BookInv.
From S2P Require Import BookSpec.
From S2P Require Import BookFacts.
From S2P Require Import BookIds.
From S2P Require Import BookQueues.
From S2P Require Import BookProps.
From S2P Require Import Events.
From S2P Require Import MatchingEngine.
From S2P Require Import EngineProps.
From S2P Require Import Bytes.
From S2P Require Import JournalRing.
From S2P Require Import Journal.
From S2P Require Import Recovery.
From S2P Require Import RecoveryProps.
From S2P Require Import Untimed.
From S2P Require Import ReplayFills.
From S2P Require Import Resumed.

Local Open Scope Z_scope.

(** ** The recovery state between records *)

(** [n] is the next record sequence; the priorities replayed are below [p]. *)
Definition rc_at (rc : Recovery) (n p : Z) : Prop :=
  0 <= n /\ (first_record_ rc = false -> last_sequence_ rc + 1 = n) /\
  0 <= new_orders_replayed_ rc <= n /\
  (new_orders_replayed_ rc <> 0 -> 0 <= max_priority_seq_seen_ rc < p).

Lemma rc_at_mono rc n p p' : p <= p' -> rc_at rc n p -> rc_at rc n p'.
Proof.
  intros Hp (H1 & H2 & H3 & H4). split; [done|]. split; [done|]. split; [done|].
  intros H. specialize (H4 H). lia.
Qed.

Lemma rc_at_sequence rc n p :
  rc_at rc n p -> n <= UINT64_MAX -> validateSequence rc n = (with_sequence rc n, true).
Proof.
  intros (H1 & H2 & _) Hn. unfold validateSequence. destruct (first_record_ rc); [done|].
  specialize (H2 eq_refl). destruct (Z.eqb_spec (last_sequence_ rc) UINT64_MAX); [lia|].
  rewrite u64_small by (unfold_int; lia). rewrite H2, Z.eqb_refl. done.
Qed.

Definition event_records (evs : list MarketEvent) : list Rec := omap event_record evs.

Lemma process_all_app rc e rs1 rs2 :
  process_all rc e (rs1 ++ rs2) =
  match process_all rc e rs1 with
  | (rc, e, Ok true) => process_all rc e rs2
  | out => out
  end.
Proof.
  revert rc e. induction rs1 as [|r rs1 IH]; intros rc e; simpl; [done|].
  destruct (validateSequence rc _) as [rc1 []]; [|done]. simpl.
  destruct (processRecord rc1 e r) as [[rc2 e2] [[]|]]; [apply IH|done|done].
Qed.

(** Processing the record of one event, the one that is due. *)
Lemma process_one rc e ev r rc' e' n p :
  rc_at rc n p -> n <= UINT64_MAX -> sequence ev = n -> event_record ev = Some r ->
  processRecord (with_sequence rc n) e r = (rc', e', Ok true) ->
  process_all rc e [r] = (rc', e', Ok true).
Proof.
  intros Hrc Hn Hs Hr Hp. simpl.
  assert (rec_sequence r = n) as ->.
  { unfold event_record in Hr. destruct (event_payload ev) as [[[cmd size] pl]|]; [|done].
    by injection Hr as <-. }
  rewrite (rc_at_sequence rc n p) by done. simpl. by rewrite Hp.
Qed.

(** The records of the events that [emit] numbers from [n], processed by an engine. *)
Definition replays (rc : Recovery) (e : MatchingEngine) (n p : Z) (fs : list (Z -> MarketEvent))
    (b : OrderBook) (p' : Z) : Prop :=
  exists rc', process_all rc e (event_records (emit (Some n) fs).2) = (rc', with_book e b, Ok true) /\
    rc_at rc' (n + Z.of_nat (length fs)) p'.

Lemma with_book_same e : with_book e (book_ e) = e.
Proof. by destruct e. Qed.

Lemma replays_nil rc e n p : rc_at rc n p -> replays rc e n p [] (book_ e) p.
Proof.
  intros Hrc. exists rc. simpl. rewrite with_book_same, Z.add_0_r. done.
Qed.

Lemma emit_app n fs1 fs2 :
  0 <= n -> n + Z.of_nat (length fs1) <= UINT64_MAX ->
  (emit (Some n) (fs1 ++ fs2)).2 =
  (emit (Some n) fs1).2 ++ (emit (Some (n + Z.of_nat (length fs1))) fs2).2.
Proof.
  revert n. induction fs1 as [|f fs1 IH]; intros n H0 Hn; cbn [emit app nextSequence length] in *.
  { by rewrite Z.add_0_r. }
  rewrite u64_small by (unfold_int; lia).
  specialize (IH (n + 1) ltac:(lia) ltac:(lia)).
  replace (n + 1 + Z.of_nat (length fs1)) with (n + Z.of_nat (S (length fs1))) in IH by lia.
  destruct (emit _ (fs1 ++ fs2)) as [c1 evs1], (emit (Some (n + 1)) fs1) as [c2 evs2]. simpl in *.
  by rewrite IH.
Qed.

Lemma replays_app rc e n p fs1 b1 p1 fs2 b2 p2 :
  0 <= n -> n + Z.of_nat (length fs1) <= UINT64_MAX ->
  replays rc e n p fs1 b1 p1 ->
  (forall rc1, rc_at rc1 (n + Z.of_nat (length fs1)) p1 ->
     replays rc1 (with_book e b1) (n + Z.of_nat (length fs1)) p1 fs2 b2 p2) ->
  replays rc e n p (fs1 ++ fs2) b2 p2.
Proof.
  intros H0 Hn (rc1 & Hp1 & Hat1) H2. destruct (H2 rc1 Hat1) as (rc2 & Hp2 & Hat2).
  exists rc2. rewrite emit_app by done. unfold event_records in *. rewrite omap_app, process_all_app, Hp1, Hp2.
  split; [done|]. by rewrite length_app, Nat2Z.inj_add, Z.add_assoc.
Qed.

(** ** One record *)

Lemma processRecord_fill rc e te b :
  in_u64 (te_restingOrderId te) -> in_u32 (te_tradeQuantity te) ->
  applyFill (book_ e) (te_restingOrderId te) (te_tradeQuantity te) = (b, true) ->
  processRecord rc e (Build_Rec (te_sequence te) FILL (trade_payload te)) =
    (count_record rc 0, with_book e b, Ok true).
Proof.
  intros Hid Hq Hfill. unfold processRecord. cbn [rec_command rec_payload].
  change (FILL =? NEW_ORDER) with false. change (FILL =? CANCEL_ORDER) with false.
  change (FILL =? FILL) with true. cbv iota. unfold replay_fill.
  assert ((length (trade_payload te) =? 45)%nat = true) as -> by reflexivity. cbn [negb].
  destruct (trade_fields te Hid Hq) as [-> ->]. unfold engine_applyFill. by rewrite Hfill.
Qed.

Lemma processRecord_cancel rc e ce b :
  in_u64 (oc_orderId ce) -> cancelOrder (book_ e) (oc_orderId ce) = (b, true) ->
  processRecord rc e (Build_Rec (oc_sequence ce) CANCEL_ORDER (cancelled_payload ce)) =
    (count_record rc 0, with_book e b, Ok true).
Proof.
  intros Hid Hcancel. unfold processRecord. cbn [rec_command rec_payload].
  change (CANCEL_ORDER =? NEW_ORDER) with false. change (CANCEL_ORDER =? CANCEL_ORDER) with true.
  cbv iota. unfold replay_cancel.
  assert ((length (cancelled_payload ce) =? 16)%nat = true) as -> by reflexivity. cbn [negb].
  rewrite cancelled_fields by done. unfold restoreCancel. by rewrite Hcancel.
Qed.

(** The order an acceptance describes. *)
Definition accepted_order (ae : OrderAcceptedEvent) (p : double) : Order :=
  Build_Order (oa_orderId ae) (oa_traderId ae) (oa_symbolId ae) (if oa_isBuy ae then BUY else SELL)
    LIMIT p (oa_quantity ae) (oa_remainingQuantity ae) 0 0 (oa_prioritySeq ae).

(** What recovery demands of an acceptance before it looks at its own state. *)
Definition acceptance_ok (ae : OrderAcceptedEvent) (p : double) : Prop :=
  event_wf (OrderAccepted ae) /\ oa_orderType ae = LIMIT /\
  0 < oa_remainingQuantity ae <= oa_quantity ae /\ oa_orderId ae <> 0 /\ oa_traderId ae <> 0 /\
  ticksToDouble (oa_priceTicks ae) = p /\ valid_price p = true.

Lemma processRecord_accepted ae p :
  acceptance_ok ae p ->
  exists o, untimed o = accepted_order ae p /\ forall rc e,
    getOrderById (book_ e) (oa_orderId ae) = None ->
    0 < pool_available_ (book_ e) ->
    (new_orders_replayed_ rc <> 0 -> max_priority_seq_seen_ rc < oa_prioritySeq ae) ->
    processRecord rc e (Build_Rec (oa_sequence ae) NEW_ORDER (accepted_payload ae)) =
      (count_record (with_max_priority rc (oa_prioritySeq ae)) 1,
       with_book e (addOrder (book_ e) o).1, Ok true).
Proof.
  intros (Hwf & Ht & Hr & Hid & Htr & Hprice & Hvalid).
  set (o0 := Build_Order (oa_orderId ae) (oa_traderId ae) (oa_symbolId ae)
    (if oa_isBuy ae then BUY else SELL) LIMIT p (oa_quantity ae) (oa_quantity ae)
    (to_i64 (oa_timestamp ae)) (to_i64 (oa_timestamp ae)) (oa_prioritySeq ae)).
  exists (set_remaining o0 (oa_remainingQuantity ae)). split; [done|]. intros rc e Hnone Hpool Hprio.
  unfold processRecord. cbn [rec_command rec_payload].
  change (NEW_ORDER =? NEW_ORDER) with true. cbv iota. unfold replay_new_order.
  assert ((length (accepted_payload ae) =? 50)%nat = true) as -> by reflexivity. cbn [negb].
  rewrite accepted_fields by done. set (f := Build_NewOrderFields _ _ _ _ _ _ _ _ _ _).
  assert (new_order_valid f = true) as ->.
  { unfold new_order_valid, f. cbn. rewrite Ht. destruct Hwf as (_ & _ & _ & _ & _ & _ & Hq & _).
    rewrite (proj2 (Z.eqb_neq (oa_quantity ae) 0)), (proj2 (Z.eqb_neq (oa_remainingQuantity ae) 0)),
      (proj2 (Z.ltb_ge (oa_quantity ae) _)) by lia. by destruct (oa_isBuy ae). }
  assert (validatePrioritySequence rc (nf_priority_seq f) = (with_max_priority rc (oa_prioritySeq ae), true)) as ->.
  { unfold validatePrioritySequence, f. cbn [nf_priority_seq].
    destruct (Z.eqb_spec (new_orders_replayed_ rc) 0) as [|Hn]; [done|]. specialize (Hprio Hn).
    by rewrite (proj2 (Z.leb_gt _ _)). }
  cbn [negb]. assert (restored_order f = Ok o0) as ->.
  { unfold restored_order, f, Order_new. cbn. rewrite Hprice, dle_zero_valid, Hvalid.
    rewrite (proj2 (Z.eqb_neq (oa_quantity ae) 0)), (proj2 (Z.eqb_neq (oa_orderId ae) 0)),
      (proj2 (Z.eqb_neq (oa_traderId ae) 0)) by lia. by destruct (oa_isBuy ae). }
  unfold restoreOrder. cbn [type quantity price order_id o0 nf_remaining f].
  rewrite bool_decide_true by done. cbn [negb].
  rewrite (proj2 (Z.eqb_neq (oa_remainingQuantity ae) 0)), (proj2 (Z.ltb_ge _ _)) by lia. cbn [orb].
  assert (negb (isfinite p) || dle p d_zero = false) as ->.
  { apply valid_price_inv in Hvalid as (m & ex & ->). reflexivity. }
  rewrite Hnone. unfold addOrder at 1. cbn [set_remaining quantity remaining_quantity o0].
  rewrite (proj2 (Z.eqb_neq (oa_quantity ae) 0)), (proj2 (Z.eqb_neq (oa_remainingQuantity ae) 0)) by lia.
  cbn [orb]. rewrite (proj2 (Z.leb_gt _ _)) by lia. cbn [fst]. unfold addOrder.
  cbn [set_remaining quantity remaining_quantity o0].
  rewrite (proj2 (Z.eqb_neq (oa_quantity ae) 0)), (proj2 (Z.eqb_neq (oa_remainingQuantity ae) 0)) by lia.
  cbn [orb]. by rewrite (proj2 (Z.leb_gt _ _)) by lia.
Qed.

(** ** One event, a list of fills *)

(** The event [emit] makes of [f] at sequence [n], when it is journaled as [r]. *)
Lemma replays_one rc e n p f r rc' b p' :
  rc_at rc n p -> n < UINT64_MAX -> event_record (f n) = Some r -> rec_sequence r = n ->
  processRecord (with_sequence rc n) e r = (rc', with_book e b, Ok true) ->
  rc_at rc' (n + 1) p' -> replays rc e n p [f] b p'.
Proof.
  intros Hrc Hn Hr Hs Hp Hat. exists rc'. split; [|exact Hat].
  unfold event_records. cbn [emit nextSequence snd omap list_omap]. rewrite Hr.
  cbn [process_all]. rewrite Hs, (rc_at_sequence rc n p) by (done || lia). cbn [negb]. by rewrite Hp.
Qed.

Lemma rc_at_count rc n p : rc_at rc n p -> n < UINT64_MAX -> rc_at (count_record (with_sequence rc n) 0) (n + 1) p.
Proof.
  intros (H1 & H2 & H3 & H4) Hn. unfold rc_at, count_record, with_sequence. simpl.
  rewrite Z.add_0_r, u64_small by (unfold_int; lia).
  split; [lia|]. split; [lia|]. split; [lia|]. done.
Qed.

Lemma rc_at_accept rc n p prio p' :
  rc_at rc n p -> n < UINT64_MAX -> 0 <= prio < p' ->
  rc_at (count_record (with_max_priority (with_sequence rc n) prio) 1) (n + 1) p'.
Proof.
  intros (H1 & H2 & H3 & H4) Hn Hp. unfold rc_at, count_record, with_sequence. simpl.
  rewrite u64_small by (unfold_int; lia). split; [lia|]. split; [lia|]. split; [lia|]. done.
Qed.

Section Replay.
Context (ticks_overflow : double -> Z).

Lemma trade_event_record ts sym s t n :
  exists te, event_record (trade_event ticks_overflow ts sym s t n) =
      Some (Build_Rec (te_sequence te) FILL (trade_payload te)) /\ te_sequence te = n /\
    te_restingOrderId te = resting_id s t /\ te_tradeQuantity te = trade_quantity t.
Proof. unfold trade_event. destruct s; eexists; (split; [reflexivity|]); done. Qed.

Lemma replays_fills rc e n p ts sym s trades b :
  rc_at rc n p -> n + Z.of_nat (length trades) <= UINT64_MAX ->
  Forall (fun t => in_u64 (resting_id s t) /\ in_u32 (trade_quantity t)) trades ->
  fill_all s (book_ e) trades = Some b ->
  replays rc e n p (trade_event ticks_overflow ts sym s <$> trades) b p.
Proof.
  revert rc e n. induction trades as [|t trades IH]; intros rc e n Hrc Hn Hts Hfill.
  { injection Hfill as <-. by apply replays_nil. }
  apply Forall_cons in Hts as [[Hid Hq] Hts]. cbn [length fmap list_fmap] in *.
  simpl in Hfill. destruct (applyFill _ _ _) as [b1 []] eqn:Hb1; [|done].
  change (?x :: ?l) with ([x] ++ l). pose proof Hrc as (H0 & _).
  apply (replays_app _ _ _ _ _ b1 p); [done|cbn [length]; lia| |].
  - destruct (trade_event_record ts sym s t n) as (te & Hr & Hs & Hti & Htq).
    rewrite <- Hti in Hid, Hb1. rewrite <- Htq in Hq, Hb1.
    eapply replays_one; [exact Hrc|lia|exact Hr|exact Hs|by apply processRecord_fill|].
    apply rc_at_count; [done|lia].
  - intros rc1 Hrc1. cbn [length] in *. apply IH; [done|lia|done|done].
Qed.

Lemma replays_cancelled rc e n p ts id sym trader qty b :
  rc_at rc n p -> n < UINT64_MAX -> in_u64 id -> cancelOrder (book_ e) id = (b, true) ->
  replays rc e n p [cancelled_event ts id sym trader qty] b p.
Proof.
  intros Hrc Hn Hid Hc. unfold cancelled_event.
  eapply replays_one; [exact Hrc|done|reflexivity|done| |by apply rc_at_count].
  by apply (processRecord_cancel _ _ (Build_OrderCancelledEvent ts n id (u32 sym) (u32 trader) qty)).
Qed.

(** The price of an order that rests goes through ticks and back unchanged. *)
Definition price_exact (p : double) : Prop :=
  valid_price p = true /\ in_i64 (doubleToTicks ticks_overflow p) /\
  ticksToDouble (doubleToTicks ticks_overflow p) = p.

(** Ids that the journal's fields hold. *)
Definition name_ok (name : Z * Z * Z) : Prop :=
  let '(id, trader, symbol) := name in
  0 < id <= UINT64_MAX /\ 0 < trader <= UINT32_MAX /\ in_u32 symbol.

Definition order_name (o : Order) : Z * Z * Z := (order_id o, trader_id o, symbol_id o).

Lemma replays_accepted e n p ts o :
  0 <= n < UINT64_MAX -> in_u64 ts -> name_ok (order_name o) -> type o = LIMIT ->
  price_exact (price o) -> in_u32 (quantity o) -> 0 < remaining_quantity o <= quantity o ->
  p <= priority_seq o <= UINT64_MAX -> 0 <= p -> getOrderById (book_ e) (order_id o) = None ->
  0 < pool_available_ (book_ e) ->
  exists o', untimed o' = untimed o /\ forall rc, rc_at rc n p ->
    replays rc e n p
      [accepted_event ticks_overflow ts (order_id o) (symbol_id o) (trader_id o) (side o) (price o)
         (quantity o) (remaining_quantity o) (type o) (priority_seq o)]
      (addOrder (book_ e) o').1 (priority_seq o + 1).
Proof.
  intros Hn Hts (Hid & Htr & Hsym) Ht (Hv & Hi64 & Hticks) Hq Hr Hp Hp0 Hnone Hpool.
  set (ae := Build_OrderAcceptedEvent ts n (order_id o) (u32 (symbol_id o)) (u32 (trader_id o))
    (bool_decide (side o = BUY)) (doubleToTicks ticks_overflow (price o)) (quantity o)
    (remaining_quantity o) (type o) (priority_seq o)).
  assert (u32 (symbol_id o) = symbol_id o) as Hsym' by (by apply u32_small).
  assert (u32 (trader_id o) = trader_id o) as Htr' by (apply u32_small; unfold_int; lia).
  destruct (processRecord_accepted ae (price o)) as (o' & Ho' & Hrec).
  { unfold acceptance_ok, ae. cbn. rewrite Hsym', Htr'. unfold_int.
    repeat (split; [try done; lia|]). done. }
  exists o'. split.
  - rewrite Ho'. unfold accepted_order, ae, untimed, setTimestamp. cbn. rewrite Hsym', Htr', Ht.
    by destruct (side o).
  - intros rc Hrc. pose proof Hrc as (_ & _ & _ & Hmax).
    eapply replays_one; [exact Hrc|lia|reflexivity|done|apply Hrec; [done|done|]|].
    + intros Hne. specialize (Hmax Hne). simpl in *. lia.
    + apply rc_at_accept with (p := p); [done|lia|]. cbn. lia.
Qed.

(** ** One matching run *)

Definition names_ok (b : OrderBook) : Prop := book_all order_name (Forall name_ok) b.

Lemma order_name_remaining o r : order_name (set_remaining o r) = order_name o.
Proof. reflexivity. Qed.

Lemma names_sub (q q' : list (Z * Z * Z)) : sublist q' q -> Forall name_ok q -> Forall name_ok q'.
Proof. intros Hs. rewrite !Forall_forall. intros H x Hx. apply H. by eapply elem_of_sublist. Qed.

Lemma names_ok_member b s o : names_ok b -> o ∈ flat (levels_of s b) -> name_ok (order_name o).
Proof.
  intros Hn Ho. apply (book_all_side order_name _ s) in Hn as [Hn _].
  unfold levels_all in Hn. induction Hn as [|l ls Hl Hn IH]; [by apply not_elem_of_nil in Ho|].
  rewrite flat_cons, elem_of_app in Ho. destruct Ho as [Ho|]; [|auto].
  rewrite Forall_forall in Hl. apply Hl. apply list_elem_of_fmap. eauto.
Qed.

Lemma names_ok_id b id : names_ok b -> id ∈ book_ids b -> in_u64 id.
Proof.
  intros Hn Hid. assert (exists s o, o ∈ flat (levels_of s b) /\ order_id o = id) as (s & o & Ho & <-).
  { apply (elem_of_book_ids BUY) in Hid as [Hid|Hid]; apply list_elem_of_fmap in Hid as (o & -> & Ho);
      eauto. }
  destruct (names_ok_member b s o Hn Ho) as (? & _). unfold_int. lia.
Qed.

Lemma names_ok_match clock b inc :
  names_ok b -> name_ok (order_name inc) -> names_ok (mo_book (matchOrder clock b inc)).
Proof.
  intros Hb Hinc. apply (matchOrder_all order_name order_name_remaining (Forall name_ok) names_sub
    (Forall name_ok) (order_name inc)); [done| |constructor|done|done].
  intros q Hq. apply Forall_app. by rewrite Forall_singleton.
Qed.

(** The events of a matching run: its trades, and the acceptance of what rests. *)
Definition run_events (ts sym : Z) (trades : list Trade) (o : Order) : list (Z -> MarketEvent) :=
  (trade_event ticks_overflow ts sym (side o) <$> trades) ++
  (if rests o
   then [accepted_event ticks_overflow ts (order_id o) (symbol_id o) (trader_id o) (side o) (price o)
           (quantity o) (remaining_quantity o) (type o) (priority_seq o)]
   else []).

(** The conditions on an incoming order and the book it meets. *)
Record journaled_match (b : OrderBook) (inc : Order) : Prop := {
  jm_book : book_wf b;
  jm_incoming : incoming_wf inc;
  jm_unique : unique_ids b;
  jm_live : live_book b;
  jm_stp : stp_policy_ b = NONE;
  jm_fresh : order_id inc ∉ book_ids b;
  jm_next : 1 <= next_trade_id_ b;
  jm_trades : next_trade_id_ b + pool_capacity_ b <= UINT64_MAX;
  jm_names : names_ok b;
  jm_name : name_ok (order_name inc);
  jm_price : type inc = LIMIT -> price_exact (price inc);
  jm_pool : 0 < pool_available_ b
}.

(** What a run leaves for the next one. *)
Record journaled_book (b : OrderBook) : Prop := {
  jb_live : live_book b;
  jb_stp : stp_policy_ b = NONE;
  jb_next : 1 <= next_trade_id_ b;
  jb_names : names_ok b
}.

Lemma replays_match clock e n p ts b inc trades :
  journaled_match b inc -> b ≡ book_ e -> 0 <= n -> 0 <= p ->
  p <= priority_seq inc <= UINT64_MAX -> in_u64 ts ->
  mo_result (matchOrder clock b inc) = Ok trades ->
  let out := matchOrder clock b inc in
  let fs := run_events ts (symbol_id inc) trades (mo_incoming out) in
  n + Z.of_nat (length fs) <= UINT64_MAX ->
  journaled_book (mo_book out) /\
  exists b', mo_book out ≡ b' /\
    forall rc, rc_at rc n p -> replays rc e n p fs b' (priority_seq inc + 1).
Proof.
  intros [Hwf Hinc Hu Hlive Hstp Hfresh Hnext Htr Hnames Hname Hprice Hpool] Hb H0 Hp Hprio Hts Hres out fs Hn.
  destruct (matchOrder_fills clock b inc) as (trades' & b1 & r & Hm); [done..|].
  destruct Hm as [Hres' Hi Hbook Hfill _ Hfewer Hpool' Hlive1 Hstp1 Hnext1 Hr Hq].
  rewrite Hres' in Hres. injection Hres as ->.
  pose proof (names_ok_match clock b inc Hnames Hname) as Hnames'.
  assert (fs = run_events ts (symbol_id inc) trades (set_remaining inc r)) as Hfs
    by (unfold fs, out; by rewrite Hi). unfold run_events in Hfs. change (side (set_remaining inc r)) with (side inc) in Hfs.
  clearbody fs. unfold out in *. clear out.
  rewrite Hbook in Hnames'. rewrite Hbook. split.
  { destruct (rests (set_remaining inc r)) eqn:Hrests.
    - apply rests_inv in Hrests as [Hpos _].
      split; [by apply live_add|rewrite addOrder_stp; congruence|rewrite addOrder_next; lia|done].
    - split; [done|congruence|lia|done]. }
  assert (Forall (fun t => in_u64 (resting_id (side inc) t) /\ in_u32 (trade_quantity t)) trades) as Hts'.
  { destruct (fill_all (side inc) b trades) as [b2|] eqn:Hf; [|by inversion Hfill].
    apply fill_all_ids in Hf. destruct Hinc as (_ & Hqty & Hrq). rewrite Forall_forall in *.
    intros t Ht. split; [by eapply names_ok_id, Hf|]. specialize (Hq t Ht). unfold_int. lia. }
  pose proof (fill_all_proper (side inc) _ _ Hb trades _ eq_refl) as Hfe.
  rewrite Hfill in Hfe. destruct (fill_all (side inc) (book_ e) trades) as [b1'|] eqn:Hf'; [|by inversion Hfe].
  inversion Hfe as [x y Hb1 Hx Hy|]. subst x y.
  destruct (rests (set_remaining inc r)) eqn:Hrests; subst fs.
  - pose proof Hrests as [Hpos Ht]%rests_inv. simpl in Hpos, Ht.
    rewrite length_app, length_fmap in Hn. cbn [length] in Hn.
    destruct Hinc as (Hty & Hqty & Hrq).
    destruct (replays_accepted (with_book e b1') (n + Z.of_nat (length trades)) p ts (set_remaining inc r))
      as (o' & Ho' & Hacc); try done; try (simpl; lia).
    { simpl. auto. }
    { apply (getOrderById_None_equiv b1); [done|]. apply getOrderById_None.
      intros Hin. apply Hfresh. by apply Hfewer. }
    { simpl. rewrite <- Hb1. lia. }
    exists (addOrder b1' o').1. split; [by apply addOrder_equiv|]. intros rc Hrc.
    eapply replays_app; [done|rewrite length_fmap; lia| |].
    + apply replays_fills; [exact Hrc|lia|exact Hts'|exact Hf'].
    + intros rc1 Hrc1. rewrite length_fmap in *. exact (Hacc rc1 Hrc1).
  - exists b1'. split; [done|]. intros rc Hrc. rewrite app_nil_r in *. rewrite length_fmap in Hn.
    destruct (replays_fills rc e n p ts (symbol_id inc) (side inc) trades b1') as (rc' & Hp' & Hat);
      [done|lia|done|done|].
    exists rc'. split; [exact Hp'|]. eapply rc_at_mono; [|exact Hat]. lia.
Qed.

(** ** Cancellation and replacement *)

Lemma cancelOrder_found b id old :
  getOrderById b id = Some old -> cancelOrder b id = ((cancelOrder b id).1, true).
Proof. unfold getOrderById, cancelOrder. by destruct (locate b id) as [[[s i] j]|]. Qed.

Lemma cancelOrder_frees b id old :
  getOrderById b id = Some old -> pool_available_ (cancelOrder b id).1 = pool_available_ b + 1.
Proof. unfold getOrderById, cancelOrder. destruct (locate b id) as [[[[] i] j]|]; done. Qed.

Lemma cancelOrder_gone b id old :
  unique_ids b -> getOrderById b id = Some old -> id ∉ book_ids (cancelOrder b id).1.
Proof.
  intros Hu. unfold getOrderById, cancelOrder. destruct (locate b id) as [[[s i] j]|] eqn:Hl; [|done].
  intros _. by apply erased_id_gone.
Qed.

(** A replacement that is not an amendment in place is a cancellation and a new order. *)
Lemma replaceOrder_reenters clock now b id p qty prio old :
  getOrderById b id = Some old -> (0 <? qty) && (negb (isfinite p) || dle p d_zero) = false ->
  qty = 0 \/ deq p (price old) && (qty <? quantity old) = false ->
  let filled := u32 (quantity old - remaining_quantity old) in
  let o := reentry_order old id p qty filled prio now in
  let b' := (cancelOrder b id).1 in
  replaceOrder clock now b id p qty prio =
    if (0 <? qty) && (qty <? filled) then (b, Ok replace_failed)
    else if (qty =? 0) || (remaining_quantity o =? 0) then (b', Ok (Build_ReplaceResult true [] 0))
    else
      let out := matchOrder clock b' o in
      (mo_book out, ts ← mo_result out;
       Ok (Build_ReplaceResult true ts (remaining_quantity (mo_incoming out)))).
Proof.
  intros Hget Hp Hkind. cbv zeta. unfold replaceOrder. rewrite Hp. unfold getOrderById in Hget.
  unfold cancelOrder. destruct (locate b id) as [[[s i] j]|] eqn:Hl; [|done]. cbn [mbind option_bind fst] in *.
  rewrite Hget. unfold replaceInLevel. cbv zeta. destruct ((0 <? qty) && (qty <? _)); [done|].
  destruct (Z.eqb_spec qty 0) as [|Hq]; [done|]. destruct Hkind as [|Hkind]; [done|]. rewrite Hkind.
  cbn [orb]. by destruct (_ =? 0).
Qed.

(** ** The simulation *)

(** The conditions under which an operation can be replayed: ids that the journal's fields
    hold, prices of whole ticks, room in the pool, and no replacement that keeps its priority
    (see [amendment_breaks_recovery]). *)
Definition op_journaled (e : MatchingEngine) (op : engine_op) : Prop :=
  match op with
  | OpProcess _ ts _ o =>
      in_u64 ts /\ incoming_wf o /\ order_id o ∉ book_ids (book_ e) /\ name_ok (order_name o) /\
      (type o = LIMIT -> price_exact (price o)) /\ 0 < pool_available_ (book_ e)
  | OpCancel ts _ _ => in_u64 ts
  | OpReplace _ _ ts _ id p qty =>
      in_u64 ts /\ in_u32 qty /\ (0 < qty -> valid_price p = true -> price_exact p) /\
      forall old, getOrderById (book_ e) id = Some old ->
        deq p (price old) && (qty <=? quantity old) = false \/
        (qty = 0 /\ deq p (price old) && (qty =? quantity old) = false)
  | OpHalt | OpBeginRecovery | OpMarkReady | OpSetJournal _ => True
  | _ => False
  end /\
  (forall n, sequence_counter_ e = Some n ->
     n + Z.of_nat (length (engine_step ticks_overflow e op).2) <= UINT64_MAX) /\
  next_trade_id_ (book_ e) + pool_capacity_ (book_ e) <= UINT64_MAX.

(** [e] runs, [e'] replays what [e] published. *)
Record sim (e e' : MatchingEngine) (rc : Recovery) : Prop := {
  sim_inv : engine_inv e;
  sim_journaled : journaled_book (book_ e);
  sim_publisher : publisher_ e = true;
  sim_counter : exists n, sequence_counter_ e = Some n /\ rc_at rc n (priority_counter_ e);
  sim_book : book_ e ≡ book_ e'
}.

Lemma publish_all e n fs :
  publisher_ e = true -> sequence_counter_ e = Some n -> 0 <= n ->
  n + Z.of_nat (length fs) <= UINT64_MAX ->
  publish_events e fs = (with_counter e (Some (n + Z.of_nat (length fs))), (emit (Some n) fs).2).
Proof.
  intros Hp Hc H0 Hn. unfold publish_events. rewrite Hp, Hc, emit_Some by (unfold_int; lia).
  rewrite u64_small by (unfold_int; lia). done.
Qed.

Lemma length_emit c fs : length (emit c fs).2 = length fs.
Proof.
  revert c. induction fs as [|f fs IH]; intros c; [done|]. cbn [emit].
  destruct (nextSequence c) as [c1 n]. specialize (IH c1). destruct (emit c1 fs). simpl in *. by rewrite IH.
Qed.

Lemma length_publish e n fs :
  publisher_ e = true -> sequence_counter_ e = Some n -> length (publish_events e fs).2 = length fs.
Proof.
  intros Hp Hc. unfold publish_events. rewrite Hp. pose proof (length_emit (sequence_counter_ e) fs) as H.
  by destruct (emit _ fs).
Qed.

(** An operation that publishes nothing and keeps the book. *)
Lemma sim_quiet e e' rc e1 :
  sim e e' rc -> engine_inv e1 -> book_ e1 = book_ e -> publisher_ e1 = publisher_ e ->
  sequence_counter_ e1 = sequence_counter_ e -> priority_counter_ e <= priority_counter_ e1 ->
  exists rc1 b', process_all rc e' (event_records []) = (rc1, with_book e' b', Ok true) /\
    sim e1 (with_book e' b') rc1.
Proof.
  intros [Hinv Hj Hp (n & Hn & Hrc) Hb] Hinv1 Hb1 Hp1 Hc1 Hprio.
  exists rc, (book_ e'). rewrite with_book_same. split; [done|]. split; [done|by rewrite Hb1|congruence| |congruence].
  exists n. split; [congruence|]. by eapply rc_at_mono.
Qed.

(** The end of an operation: [e2] publishes [fs], whose replay leads to its book. *)
Lemma sim_publish e e' rc n e2 fs p :
  sim e e' rc -> sequence_counter_ e = Some n -> rc_at rc n (priority_counter_ e) ->
  publisher_ e2 = true -> sequence_counter_ e2 = Some n -> p <= priority_counter_ e2 ->
  engine_inv (publish_events e2 fs).1 -> n + Z.of_nat (length (publish_events e2 fs).2) <= UINT64_MAX ->
  (n + Z.of_nat (length fs) <= UINT64_MAX -> journaled_book (book_ e2) /\
   exists b', book_ e2 ≡ b' /\ replays rc e' n (priority_counter_ e) fs b' p) ->
  exists rc1 b', process_all rc e' (event_records (publish_events e2 fs).2) = (rc1, with_book e' b', Ok true) /\
    sim (publish_events e2 fs).1 (with_book e' b') rc1.
Proof.
  intros Hs Hc [H0 _] Hp2 Hc2 Hprio Hinv Hn Hre. rewrite (length_publish e2 n fs Hp2 Hc2) in Hn.
  rewrite (publish_all e2 n fs Hp2 Hc2 H0 Hn) in *. destruct (Hre Hn) as (Hj & b' & Hbb & rc1 & Hrun & Hat).
  exists rc1, b'. split; [exact Hrun|]. split; [done|done|done| |done].
  eexists. split; [reflexivity|]. by eapply rc_at_mono.
Qed.

Lemma sim_process clock ts jh o e e' rc :
  sim e e' rc -> op_journaled e (OpProcess clock ts jh o) ->
  exists rc1 b', process_all rc e' (event_records (engine_step ticks_overflow e (OpProcess clock ts jh o)).2)
      = (rc1, with_book e' b', Ok true) /\
    sim (engine_step ticks_overflow e (OpProcess clock ts jh o)).1 (with_book e' b') rc1.
Proof.
  intros Hs ((Hts & Ho & Hfresh & Hname & Hprice & Hpool) & Hseq & Htid).
  pose proof Hs as [Hinv [Hlive Hstp Hnext Hnames] Hpub (n & Hn & Hrc) Hbook].
  pose proof (processOrder_inv ticks_overflow clock ts jh e o Hinv Ho Hfresh) as Hinv1.
  specialize (Hseq n Hn). revert Hinv1 Hseq. cbn [engine_step]. unfold processOrder.
  destruct (negb (isHealthy e jh)); [intros; by apply (sim_quiet e)|].
  destruct (tryNextPriority e) as [e1 [prio|]] eqn:Ht.
  2: { intros. unfold tryNextPriority in Ht. destruct (_ =? _); [|done]. by apply (sim_quiet e). }
  apply tryNextPriority_Some in Ht as (Hprio & -> & Hmax).
  pose proof Hinv as (Hwf & _ & Hids & _ & Hpc). set (inc := set_priority o prio).
  assert (journaled_match (book_ e) inc) as Hjm by (by split).
  destruct (matchOrder_fills clock (book_ e) inc) as (trades & b1 & r & Hm); [by destruct Hjm..|].
  pose proof (matched_result _ _ _ _ _ _ Hm) as Hres. pose proof (matched_incoming _ _ _ _ _ _ Hm) as Hin.
  cbn [book_ with_priority]. rewrite Hres.
  assert ((trade_event ticks_overflow ts (symbol_id (mo_incoming (matchOrder clock (book_ e) inc)))
             (side (mo_incoming (matchOrder clock (book_ e) inc))) <$> trades) ++
     (if (0 <? remaining_quantity (mo_incoming (matchOrder clock (book_ e) inc))) &&
         negb (immediate (type (mo_incoming (matchOrder clock (book_ e) inc))))
      then [accepted_event ticks_overflow ts (order_id (mo_incoming (matchOrder clock (book_ e) inc)))
              (symbol_id (mo_incoming (matchOrder clock (book_ e) inc)))
              (trader_id (mo_incoming (matchOrder clock (book_ e) inc)))
              (side (mo_incoming (matchOrder clock (book_ e) inc)))
              (price (mo_incoming (matchOrder clock (book_ e) inc)))
              (quantity (mo_incoming (matchOrder clock (book_ e) inc)))
              (remaining_quantity (mo_incoming (matchOrder clock (book_ e) inc)))
              (type (mo_incoming (matchOrder clock (book_ e) inc)))
              (priority_seq (mo_incoming (matchOrder clock (book_ e) inc)))]
      else []) = run_events ts (symbol_id inc) trades (mo_incoming (matchOrder clock (book_ e) inc))) as ->
    by (unfold run_events; rewrite rests_immediate; by rewrite Hin).
  set (fs := run_events _ _ _ _). set (e2 := with_book _ _). intros Hinv3 Hseq.
  pose proof (sim_publish e e' rc n e2 fs (prio + 1) Hs Hn Hrc Hpub Hn) as Hsim.
  destruct (publish_events e2 fs) as [e3 evs]. pose proof (proj1 Hrc) as H0.
  apply Hsim; [simpl; lia|done|done|]. intros Hlen.
  destruct (replays_match clock e' n (priority_counter_ e) ts (book_ e) inc trades Hjm Hbook)
    as (Hjb & b' & Hbb & Hre); [done|unfold_int; lia|simpl; unfold_int; lia|done|done|done|]. eauto.
Qed.


Lemma journaled_cancel b id : journaled_book b -> journaled_book (cancelOrder b id).1.
Proof.
  intros [Hlive Hstp Hnext Hnames]. destruct (cancelOrder_same_counters b id) as (H1 & H2 & _).
  split; [by apply live_cancel|congruence|lia|].
  by apply (cancelOrder_all order_name (Forall name_ok) names_sub).
Qed.

(** The cancellation of a resting order, replayed. *)
Lemma replays_cancel rc e' n p ts b id old :
  rc_at rc n p -> n < UINT64_MAX -> b ≡ book_ e' -> names_ok b -> getOrderById b id = Some old ->
  exists b', b' ≡ (cancelOrder b id).1 /\
    replays rc e' n p [cancelled_event ts id (symbol_id old) (trader_id old) (remaining_quantity old)] b' p.
Proof.
  intros Hrc Hn Hb Hnames Hget. pose proof (cancelOrder_found b id old Hget) as Hc.
  pose proof (cancelOrder_proper _ _ Hb id _ eq_refl) as [H1 H2]. rewrite Hc in H2. simpl in H2.
  destruct (cancelOrder (book_ e') id) as [b' found] eqn:Hc'. simpl in H1, H2. subst found.
  exists b'. split; [by symmetry|]. apply replays_cancelled; [done|done| |exact Hc'].
  apply (names_ok_id b); [done|]. destruct (decide (id ∈ book_ids b)) as [|Hni]; [done|].
  apply getOrderById_None in Hni. congruence.
Qed.

(** What a cancellation contributes to [sim_publish]. *)
Lemma replays_removal rc e e' n ts id old :
  rc_at rc n (priority_counter_ e) -> n < UINT64_MAX -> journaled_book (book_ e) -> book_ e ≡ book_ e' ->
  getOrderById (book_ e) id = Some old ->
  journaled_book (cancelOrder (book_ e) id).1 /\
  exists b', (cancelOrder (book_ e) id).1 ≡ b' /\
    replays rc e' n (priority_counter_ e)
      [cancelled_event ts id (symbol_id old) (trader_id old) (remaining_quantity old)] b' (priority_counter_ e).
Proof.
  intros Hrc Hn Hj Hbook Hget. split; [by apply journaled_cancel|].
  destruct (replays_cancel rc e' n (priority_counter_ e) ts (book_ e) id old Hrc) as (b' & Hbb & Hre);
    [done|done|by destruct Hj|done|]. exists b'. by split.
Qed.

Lemma sim_cancel ts jh id e e' rc :
  sim e e' rc -> op_journaled e (OpCancel ts jh id) ->
  exists rc1 b', process_all rc e' (event_records (engine_step ticks_overflow e (OpCancel ts jh id)).2)
      = (rc1, with_book e' b', Ok true) /\
    sim (engine_step ticks_overflow e (OpCancel ts jh id)).1 (with_book e' b') rc1.
Proof.
  intros Hs (Hts & Hseq & _). pose proof Hs as [Hinv Hj Hpub (n & Hn & Hrc) Hbook].
  pose proof (cancel_inv ticks_overflow ts jh e id Hinv) as Hinv1. specialize (Hseq n Hn).
  revert Hinv1 Hseq. cbn [engine_step]. unfold engine_cancel.
  destruct (negb (isHealthy e jh)); [intros; by apply (sim_quiet e)|].
  destruct (getOrderById (book_ e) id) as [old|] eqn:Hget; [|intros; by apply (sim_quiet e)].
  rewrite (cancelOrder_found _ _ _ Hget). cbn [negb].
  set (e2 := with_book _ _). set (fs := [cancelled_event _ _ _ _ _]). intros Hinv3 Hseq.
  pose proof (sim_publish e e' rc n e2 fs (priority_counter_ e) Hs Hn Hrc Hpub Hn) as Hsim.
  destruct (publish_events e2 fs) as [e3 evs]. apply Hsim; [simpl; lia|done|done|]. intros Hlen.
  apply (replays_removal rc e e' n ts id old); auto. simpl in Hlen. lia.
Qed.

(** A resting order is well formed and its ids fit. *)
Lemma resting_facts b id old :
  book_wf b -> names_ok b -> getOrderById b id = Some old ->
  order_id old = id /\ order_wf old /\ name_ok (order_name old).
Proof.
  intros Hwf Hnames Hget. apply getOrderById_inv in Hget as (Hid & s & Hs).
  apply (book_wf_side s) in Hwf as (Hside & _).
  destruct (levels_wf_flat s _ old Hside Hs) as [(_ & _ & Hv & Hq & Hr) _].
  split; [done|]. split; [|by eapply names_ok_member]. done.
Qed.

(** The conditions on a replacement make its re-entering order a journaled one. *)
Lemma reentry_journaled b id old p qty filled prio now :
  book_wf b -> unique_ids b -> journaled_book b -> getOrderById b id = Some old ->
  next_trade_id_ b + pool_capacity_ b <= UINT64_MAX -> in_u32 qty -> 0 < qty ->
  valid_price p = true -> price_exact p -> filled = u32 (quantity old - remaining_quantity old) ->
  filled <= qty ->
  journaled_match (cancelOrder b id).1 (reentry_order old id p qty filled prio now).
Proof.
  intros Hwf Hu Hj Hget Htid Hq Hq0 Hvp Hpe -> Hle.
  destruct (resting_facts b id old Hwf) as (Hid & Howf & Hname); [by destruct Hj|done|].
  destruct (replaced_quantity old qty Howf Hq Hle) as (Hf & Hrem & Hb).
  pose proof (journaled_cancel b id Hj) as [Hlive Hstp Hnext Hnames].
  destruct (cancelOrder_same_counters b id) as (_ & Ht & Hc).
  pose proof (cancelOrder_frees b id old Hget) as Hpool.
  split; try done.
  - by apply cancelOrder_keeps.
  - split; [by right|]. split; [done|]. simpl. rewrite Hrem. lia.
  - by apply cancelOrder_fewer.
  - simpl. by eapply cancelOrder_gone.
  - rewrite Ht, Hc. done.
  - unfold order_name. simpl. rewrite <- Hid. done.
  - rewrite Hpool. destruct Hwf as (_ & _ & _ & Hav). lia.
Qed.

Lemma op_journaled_replace_ok e clock now ts jh id p qty :
  op_journaled e (OpReplace clock now ts jh id p qty) -> op_ok e (OpReplace clock now ts jh id p qty).
Proof.
  intros ((_ & Hq & _ & Hkind) & _). split; [done|]. intros old Hget.
  destruct (Hkind old Hget) as [H|[_ H]]; [|done]. destruct (deq p (price old)); [|done]. simpl in *.
  bool_to_prop. apply Z.eqb_neq. lia.
Qed.

(** The events of a successful replacement that re-enters the book. *)
Lemma replace_events ts id old p qty prio filled now trades r :
  0 < qty ->
  (trade_event ticks_overflow ts (symbol_id old) (side old) <$> trades) ++
  (if (0 <? qty) && (0 <? r) && negb (immediate (type old))
   then [accepted_event ticks_overflow ts id (symbol_id old) (trader_id old) (side old) p qty r
           (type old) prio]
   else []) =
  run_events ts (symbol_id old) trades (set_remaining (reentry_order old id p qty filled prio now) r).
Proof.
  intros Hq. unfold run_events. rewrite rests_immediate. cbn [remaining_quantity set_remaining type reentry_order].
  by rewrite (proj2 (Z.ltb_lt 0 qty)).
Qed.

(** What a re-entry contributes. *)
Lemma replays_reentry clock rc e e' n ts id old o trades :
  rc_at rc n (priority_counter_ e) -> journaled_book (book_ e) -> book_ e ≡ book_ e' -> in_u64 ts ->
  in_u64 (priority_counter_ e) -> getOrderById (book_ e) id = Some old ->
  journaled_match (cancelOrder (book_ e) id).1 o ->
  priority_counter_ e <= priority_seq o <= UINT64_MAX ->
  mo_result (matchOrder clock (cancelOrder (book_ e) id).1 o) = Ok trades ->
  let out := matchOrder clock (cancelOrder (book_ e) id).1 o in
  let fs := cancelled_event ts id (symbol_id old) (trader_id old) (remaining_quantity old) ::
              run_events ts (symbol_id o) trades (mo_incoming out) in
  n + Z.of_nat (length fs) <= UINT64_MAX ->
  journaled_book (mo_book out) /\
  exists b', mo_book out ≡ b' /\ replays rc e' n (priority_counter_ e) fs b' (priority_seq o + 1).
Proof.
  intros Hrc Hj Hbook Hts Hpc Hget Hjm Hprio Hres out fs. subst fs. cbn [length]. intros Hlen.
  pose proof (proj1 Hrc) as H0.
  destruct (replays_cancel rc e' n (priority_counter_ e) ts (book_ e) id old Hrc) as (bc & Hbc & Hre);
    [lia|done|by destruct Hj|done|].
  destruct (replays_match clock (with_book e' bc) (n + 1) (priority_counter_ e) ts
    (cancelOrder (book_ e) id).1 o trades Hjm) as (Hjb & b' & Hbb & Hrun);
    [by symmetry|lia|unfold_int; lia|done|done|done|subst out; cbv zeta; lia|].
  split; [exact Hjb|]. exists b'. split; [exact Hbb|].
  by apply (replays_app rc e' n (priority_counter_ e) [_] bc (priority_counter_ e) _ b' (priority_seq o + 1));
    [|simpl; lia| |].
Qed.

(** A replacement that does not amend in place. *)
Lemma no_amendment old p qty :
  deq p (price old) && (qty <=? quantity old) = false \/ (qty = 0 /\ deq p (price old) && (qty =? quantity old) = false) ->
  qty = 0 \/ deq p (price old) && (qty <? quantity old) = false.
Proof.
  intros [H|[H _]]; [right|by left]. destruct (deq p (price old)); [|done]. simpl in *.
  bool_to_prop. apply Z.ltb_ge. lia.
Qed.

Lemma reenters_cases qty filled rem :
  in_u32 qty -> (qty =? 0) || (rem =? 0) = false -> (0 <? qty) && (qty <? filled) = false ->
  qty <> 0 /\ rem <> 0 /\ 0 < qty /\ filled <= qty.
Proof.
  intros Hq Hgone Hfilled. apply orb_false_iff in Hgone as [Hq0 Hrem0]. apply Z.eqb_neq in Hq0, Hrem0.
  assert (0 < qty) as Hpos by (unfold_int; lia).
  rewrite (proj2 (Z.ltb_lt 0 qty) Hpos) in Hfilled. simpl in Hfilled. apply Z.ltb_ge in Hfilled. auto.
Qed.

Lemma sim_replace clock now ts jh id p qty e e' rc :
  sim e e' rc -> op_journaled e (OpReplace clock now ts jh id p qty) ->
  exists rc1 b',
    process_all rc e' (event_records (engine_step ticks_overflow e (OpReplace clock now ts jh id p qty)).2)
      = (rc1, with_book e' b', Ok true) /\
    sim (engine_step ticks_overflow e (OpReplace clock now ts jh id p qty)).1 (with_book e' b') rc1.
Proof.
  intros Hs Hop. pose proof (op_journaled_replace_ok _ _ _ _ _ _ _ _ Hop) as Hok.
  destruct Hop as ((Hts & Hq & Hexact & Hkind) & Hseq & Htid).
  pose proof Hs as [Hinv Hj Hpub (n & Hn & Hrc) Hbook]. pose proof Hinv as (Hwf & _ & Hu & _ & Hpc).
  pose proof (replace_inv ticks_overflow clock now ts jh e id p qty Hinv Hok) as Hinv1.
  specialize (Hseq n Hn). revert Hinv1 Hseq. cbn [engine_step]. unfold engine_replace.
  destruct (negb (isHealthy e jh)); [intros; by apply (sim_quiet e)|].
  destruct (getOrderById (book_ e) id) as [old|] eqn:Hget; [|intros; by apply (sim_quiet e)].
  destruct ((0 <? qty) && (negb (isfinite p) || dle p d_zero)) eqn:Hguard; [intros; by apply (sim_quiet e)|].
  specialize (Hkind old eq_refl).
  destruct (replacement_priority e old p qty) as [e1 [prio|]] eqn:Hrp.
  2: { intros. by apply (sim_quiet e). }
  pose proof (replacement_priority_frame _ _ _ _ _ _ Hrp) as (Hb1 & Hp1 & Hc1).
  destruct (replacement_priority_Some _ _ _ _ _ _ Hrp Hpc Hq) as (_ & Hle & Hpc1 & Hfresh).
  { by apply Hok. }
  pose proof (no_amendment old p qty Hkind) as Hkind'.
  rewrite Hb1, (replaceOrder_reenters clock now _ id p qty prio old Hget Hguard Hkind').
  set (filled := u32 _). set (o := reentry_order _ _ _ _ _ _ _).
  destruct ((0 <? qty) && (qty <? filled)) eqn:Hfilled.
  { cbn [success replace_failed negb fst snd]. intros Hinv3 _. by apply (sim_quiet e). }
  pose proof Hn as Hn0. rewrite <- Hp1 in Hpub. rewrite <- Hc1 in Hn. pose proof Hrc as [H0 _].
  destruct ((qty =? 0) || (remaining_quantity o =? 0)) eqn:Hgone.
  - (* nothing re-enters *)
    cbn [negb success trades final_remaining_quantity fmap list_fmap app]. rewrite andb_false_r. cbn [andb].
    set (e2 := with_book _ _). set (fs := [cancelled_event _ _ _ _ _]). intros Hinv3 Hseq.
    pose proof (sim_publish e e' rc n e2 fs (priority_counter_ e) Hs Hn0 Hrc Hpub Hn) as Hsim.
    destruct (publish_events e2 fs) as [e3 evs]. apply Hsim; [done|done|done|]. intros Hlen.
    apply (replays_removal rc e e' n ts id old); auto. simpl in Hlen. lia.
  - (* the order re-enters *)
    destruct (reenters_cases qty filled (remaining_quantity o) Hq Hgone Hfilled) as (Hq0 & Hrem0 & Hpos & Hle').
    pose proof (valid_price_guard p qty Hpos Hguard) as Hvp.
    destruct Hkind' as [|Hkind']; [done|]. destruct (Hfresh Hkind' Hq0) as [Hprio Hnextp].
    pose proof (reentry_journaled (book_ e) id old p qty filled prio now Hwf Hu Hj Hget Htid Hq Hpos Hvp
      (Hexact Hpos Hvp) eq_refl Hle') as Hjm. fold o in Hjm.
    destruct (matchOrder_fills clock (cancelOrder (book_ e) id).1 o) as (trades & b1 & r & Hm);
      [by destruct Hjm..|].
    pose proof (matched_result _ _ _ _ _ _ Hm) as Hres. pose proof (matched_incoming _ _ _ _ _ _ Hm) as Hin.
    cbv zeta. rewrite Hres. cbn [mbind result_bind success negb OrderBook.trades final_remaining_quantity].
    rewrite (replace_events ts id old p qty prio filled now) by done. fold o.
    rewrite Hin. cbn [remaining_quantity set_remaining]. rewrite <- Hin.
    set (fs := run_events _ _ _ _). set (e2 := with_book _ _). set (ce := cancelled_event _ _ _ _ _).
    intros Hinv3 Hseq. pose proof (sim_publish e e' rc n e2 (ce :: fs) (prio + 1) Hs Hn0 Hrc Hpub Hn) as Hsim.
    destruct (publish_events e2 (ce :: fs)) as [e3 evs]. apply Hsim; [simpl; lia|done|done|].
    apply (replays_reentry clock rc e e' n ts id old o trades); auto. simpl. unfold_int. lia.
Qed.

Lemma sim_step e e' rc op :
  sim e e' rc -> op_journaled e op ->
  exists rc1 b',
    process_all rc e' (event_records (engine_step ticks_overflow e op).2) = (rc1, with_book e' b', Ok true) /\
    sim (engine_step ticks_overflow e op).1 (with_book e' b') rc1.
Proof.
  intros Hs Hop. pose proof (sim_inv _ _ _ Hs) as Hinv. destruct op; try by destruct Hop as [[] _].
  - by apply sim_process.
  - by apply sim_cancel.
  - by apply sim_replace.
  - cbn [engine_step fst snd]. unfold beginRecovery. destruct (state_ e); by apply (sim_quiet e).
  - cbn [engine_step fst snd]. unfold markReady. destruct (state_ e); by apply (sim_quiet e).
  - by apply (sim_quiet e).
  - by apply (sim_quiet e).
Qed.

(** ** Sequence numbers fit *)

Definition numbered (f : Z -> MarketEvent) : Prop := forall n, sequence (f n) = n.

Lemma emit_sequences c fs :
  (forall n, c = Some n -> in_u64 n) -> Forall numbered fs ->
  Forall (fun ev => in_u64 (sequence ev)) (emit c fs).2.
Proof.
  intros Hc Hfs. revert c Hc. induction Hfs as [|f fs Hf Hfs IH]; intros c Hc; [constructor|].
  cbn [emit]. destruct (nextSequence c) as [c1 n] eqn:Hn.
  assert (in_u64 n /\ forall m, c1 = Some m -> in_u64 m) as [Hn64 Hc1].
  { unfold nextSequence in Hn. destruct c as [m|]; injection Hn as <- <-.
    - split; [auto|]. intros m' [= <-]. apply u64_range.
    - split; [unfold_int; lia|done]. }
  specialize (IH c1 Hc1). destruct (emit c1 fs) as [c2 evs]. constructor; [|exact IH].
  by rewrite (Hf n).
Qed.

Lemma publish_sequences e fs :
  (forall n, sequence_counter_ e = Some n -> in_u64 n) -> Forall numbered fs ->
  Forall (fun ev => in_u64 (sequence ev)) (publish_events e fs).2.
Proof.
  intros Hc Hfs. unfold publish_events. destruct (publisher_ e); [|constructor].
  pose proof (emit_sequences _ fs Hc Hfs) as H. by destruct (emit _ fs).
Qed.

Lemma trades_numbered ts sym s trades fs :
  Forall numbered fs -> Forall numbered ((trade_event ticks_overflow ts sym s <$> trades) ++ fs).
Proof.
  intros Hfs. apply Forall_app. split; [|done]. apply Forall_fmap, Forall_true.
  intros t n. unfold trade_event. by destruct s.
Qed.

Ltac numbered :=
  repeat first [done | apply Forall_nil_2 | apply Forall_cons_2; [intros ?; reflexivity|]
    | apply trades_numbered | match goal with |- Forall _ (if ?c then _ else _) => destruct c end].

(** The events that the code publishes at the end of an operation. *)
Ltac published Hc :=
  match goal with |- context [publish_events ?e ?fs] =>
    let H := fresh in
    pose proof (publish_sequences e fs) as H; destruct (publish_events e fs);
    apply H; [exact Hc|numbered]
  end.

Lemma step_sequences e op :
  (forall n, sequence_counter_ e = Some n -> in_u64 n) ->
  Forall (fun ev => in_u64 (sequence ev)) (engine_step ticks_overflow e op).2.
Proof.
  intros Hc. destruct op as [clock ts jh o|ts jh id|clock now ts jh id p qty| | | | | | | | | | | |];
    try constructor; cbn [engine_step].
  - unfold processOrder. destruct (negb _); [constructor|].
    destruct (tryNextPriority e) as [e1 [prio|]] eqn:Ht; [|constructor].
    apply tryNextPriority_Some in Ht as (_ & -> & _).
    destruct (mo_result _) as [trades|ex]; [|constructor]. published Hc.
  - unfold engine_cancel. destruct (negb _); [constructor|].
    destruct (getOrderById _ id); [|constructor]. destruct (cancelOrder _ id) as [b []]; [|constructor].
    cbn [negb]. published Hc.
  - unfold engine_replace. destruct (negb _); [constructor|].
    destruct (getOrderById _ id) as [old|]; [|constructor]. destruct ((0 <? qty) && (_ || _)); [constructor|].
    destruct (replacement_priority e old p qty) as [e1 [prio|]] eqn:Hrp; [|constructor].
    apply replacement_priority_frame in Hrp as (_ & _ & Hc1). rewrite <- Hc1 in Hc.
    destruct (replaceOrder _ _ _ _ _ _ _) as [b [r|ex]]; [|constructor].
    destruct (negb (success r)); [constructor|]. published Hc.
Qed.

(** ** Runs *)

(** A run of an engine that publishes to its journal from sequence number [n0] on. *)
Definition journaling_engine (capacity n0 : Z) : MatchingEngine :=
  setSequenceCounter (setMarketDataPublisher (MatchingEngine_new capacity) true) (Some n0).

Inductive journaled_run (capacity n0 : Z) : MatchingEngine -> list MarketEvent -> Prop :=
| journaled_start : journaled_run capacity n0 (journaling_engine capacity n0) []
| journaled_op e evs op :
    journaled_run capacity n0 e evs -> op_journaled e op ->
    journaled_run capacity n0 (engine_step ticks_overflow e op).1 (evs ++ (engine_step ticks_overflow e op).2).

Definition recovering_engine (capacity : Z) : MatchingEngine := beginRecovery (MatchingEngine_new capacity).

Lemma event_records_app evs1 evs2 : event_records (evs1 ++ evs2) = event_records evs1 ++ event_records evs2.
Proof. apply omap_app. Qed.

Lemma length_event_records evs : (length (event_records evs) <= length evs)%nat.
Proof.
  induction evs as [|ev evs IH]; [done|]. unfold event_records in *. cbn [omap list_omap].
  destruct (event_record ev); simpl; lia.
Qed.

Lemma journaled_run_sim capacity n0 e evs :
  0 <= capacity -> in_u64 n0 -> journaled_run capacity n0 e evs ->
  Forall (fun ev => in_u64 (sequence ev)) evs /\
  exists rc b, process_all Recovery_new (recovering_engine capacity) (event_records evs) =
      (rc, with_book (recovering_engine capacity) b, Ok true) /\
    sim e (with_book (recovering_engine capacity) b) rc /\ seen rc b.
Proof.
  intros Hcap Hn0. induction 1 as [|e evs op Hrun IH Hop].
  - split; [constructor|]. exists Recovery_new, (OrderBook_new capacity). split; [done|].
    split; [|by split; constructor]. split; try done.
    + by apply (engine_inv_same (MatchingEngine_new capacity)), engine_new_inv.
    + split; [split; constructor|done|done|split; constructor].
    + exists n0. split; [done|]. unfold_int. split_and!; try done; simpl; lia.
  - destruct IH as (Hseqs & rc & b & Hp & Hs & Hseen).
    assert (forall n, sequence_counter_ e = Some n -> in_u64 n) as Hc.
    { intros n Hn. destruct Hs as [_ _ _ (m & Hm & (H0 & _)) _]. rewrite Hm in Hn. injection Hn as ->.
      destruct Hop as (_ & Hseq & _). specialize (Hseq n Hm). unfold_int. lia. }
    pose proof (step_sequences e op Hc) as Hseq.
    destruct (sim_step _ _ _ op Hs Hop) as (rc1 & b1 & Hp1 & Hs1).
    split; [by apply Forall_app|]. exists rc1, b1. rewrite event_records_app, process_all_app, Hp.
    split; [exact Hp1|]. split; [exact Hs1|].
    destruct Hs as [_ _ _ (n & Hn & (H0 & _ & Hcount & _)) _]. destruct Hop as (_ & Hroom & _).
    specialize (Hroom n Hn). pose proof (length_event_records (engine_step ticks_overflow e op).2) as Hle.
    apply (process_all_seen _ _ _ _ _ Hp1); [lia|lia|exact Hseen].
Qed.

Lemma encode_records evs : omap encode evs = rec_bytes <$> event_records evs.
Proof.
  induction evs as [|e evs IH]; [done|]. cbn [omap list_omap event_records]. rewrite encode_rec_bytes.
  destruct (event_record e); cbn [fmap option_fmap option_map]; [cbn [list_fmap]; by f_equal|exact IH].
Qed.

Lemma event_records_wf evs :
  Forall (fun ev => in_u64 (sequence ev)) evs -> Forall rec_wf (event_records evs).
Proof.
  induction 1 as [|e evs He Hevs IH]; [constructor|]. unfold event_records. cbn [omap list_omap].
  destruct (event_record e) as [r|] eqn:Hr; [|exact IH]. constructor; [|exact IH].
  by eapply event_record_wf.
Qed.

(** The end of a replay that went through every record. *)
Lemma finish_ready rc e :
  state_ e = RECOVERING -> priority_counter_ e = 0 ->
  (new_orders_replayed_ rc <> 0 -> 0 <= max_priority_seq_seen_ rc) ->
  (new_orders_replayed_ rc <> 0 -> max_priority_seq_seen_ rc <> UINT64_MAX) ->
  exists e', replay_finish rc e = (e', true) /\ book_ e' = book_ e /\ state_ e' = READY /\
    priority_counter_ e' = if new_orders_replayed_ rc =? 0 then 0 else max_priority_seq_seen_ rc + 1.
Proof.
  intros Hst Hpc H0 Hmax. unfold replay_finish, getNextPrioritySequence.
  destruct (Z.eqb_spec (new_orders_replayed_ rc) 0) as [Hn|Hn].
  - unfold seedPrioritySequence, markReady. rewrite Hpc. simpl. rewrite Hst. by eexists.
  - specialize (H0 Hn). specialize (Hmax Hn). rewrite (proj2 (Z.eqb_neq _ _) Hmax).
    unfold seedPrioritySequence. rewrite Hpc.
    destruct (Z.ltb_spec (max_priority_seq_seen_ rc + 1) 0); [lia|].
    destruct (Z.eqb_spec (max_priority_seq_seen_ rc + 1) 0); [lia|]. unfold markReady. simpl. rewrite Hst. by eexists.
Qed.

(** C5: recovery rebuilds the book, for the runs that a journal can express. Let an engine on a
    fresh book publish to a journal from sequence number [n0] on, and let its operations be those of
    [op_journaled]: well-formed orders to be matched with fresh ids, ids other than 0, trader ids
    that fit the 32 bits of the journal's field, and limit prices of whole ticks; cancellations; replacements that re-enter
    the book (none that keeps its place: [amendment_breaks_recovery]) at prices of whole ticks;
    no self-trade policy and no restoring of orders, cancellations or fills; a free slot of the pool for every
    order; trade ids and sequence numbers that do not wrap around. Then replaying the file of the
    events it published succeeds and leaves a READY engine whose book holds the same orders, with
    the same ids, quantities, prices and priorities, in the same places ([≡]: the orders'
    timestamps and the book's trade counter and self-trade policy are not rebuilt). That engine
    can go on: it satisfies the invariant of a running engine, its priority counter being above
    every order's, though not above the old engine's counter, which had also numbered the orders
    that never rested. *)
Theorem recovery_rebuilds_book capacity n0 e evs :
  0 <= capacity -> in_u64 n0 -> journaled_run capacity n0 e evs ->
  exists rc e',
    replay (MatchingEngine_new capacity) (Some (journal_header ++ concat (omap encode evs))) =
      Some (rc, e', Ok true) /\
    book_ e' ≡ book_ e /\ state_ e' = READY /\ engine_inv e' /\ priority_counter_ e' <= priority_counter_ e.
Proof.
  intros Hcap Hn0 Hrun. destruct (journaled_run_sim capacity n0 e evs Hcap Hn0 Hrun)
    as (Hseqs & rc & b & Hp & [Hinv _ _ (n & _ & Hrc) Hbook] & Hseen).
  unfold replay. rewrite (proj2 (readHeader_Some _ _) eq_refl), encode_records.
  fold (recovering_engine capacity). set (bytes := concat _).
  assert (replay_loop (S (length bytes)) Recovery_new (recovering_engine capacity) bytes =
    Some (rc, with_book (recovering_engine capacity) b, Ok true)) as ->.
  { rewrite <- (app_nil_r bytes) at 2. unfold bytes at 2. rewrite replay_loop_records;
      [|by apply event_records_wf|by left|pose proof (concat_rec_bytes_length (event_records evs)); unfold bytes; lia].
    by rewrite Hp. }
  pose proof Hinv as (_ & _ & _ & _ & Hpc). destruct Hrc as (_ & _ & _ & Hmax).
  destruct (finish_ready rc (with_book (recovering_engine capacity) b)) as (e' & Hf & Hb & Hst & Hpr);
    [done|done|lia|unfold_int; lia|].
  rewrite Hf. do 2 eexists. split; [reflexivity|]. cbn [book_ with_book] in Hb, Hbook.
  assert (priority_counter_ e' <= priority_counter_ e /\ in_u64 (priority_counter_ e')) as [Hle Hu64].
  { rewrite Hpr. destruct (Z.eqb_spec (new_orders_replayed_ rc) 0) as [H0|H0]; [unfold_int; lia|].
    specialize (Hmax H0). unfold_int. lia. }
  split; [rewrite Hb; by symmetry|]. split; [done|]. split; [|exact Hle].
  apply (resumed_inv e e' Hinv); [by rewrite Hb| |exact Hu64].
  rewrite Hb, Hpr. apply (seen_below rc b Hseen).
Qed.
End Replay.

(** ** A sample run *)

Fixpoint ops_journaled (e : MatchingEngine) (ops : list engine_op) : Prop :=
  match ops with
  | [] => True
  | op :: ops =>
      op_journaled sample_overflow e op /\ ops_journaled (engine_step sample_overflow e op).1 ops
  end.

Lemma run_journaled capacity n0 e evs ops :
  journaled_run sample_overflow capacity n0 e evs -> ops_journaled e ops ->
  journaled_run sample_overflow capacity n0 (engine_run sample_overflow e ops).1
    (evs ++ (engine_run sample_overflow e ops).2).
Proof.
  revert e evs. induction ops as [|op ops IH]; intros e evs He Hok; simpl; [by rewrite app_nil_r|].
  destruct Hok as [Hop Hops].
  pose proof (journaled_op sample_overflow capacity n0 e evs op He Hop) as Hs.
  destruct (engine_step sample_overflow e op) as [e1 evs1] eqn:Hstep. cbn [fst snd] in *.
  specialize (IH e1 _ Hs Hops). destruct (engine_run sample_overflow e1 ops) as [e2 evs2].
  cbn [fst snd] in *. by rewrite app_assoc.
Qed.

Lemma run_from_start capacity n0 ops :
  ops_journaled (journaling_engine capacity n0) ops ->
  journaled_run sample_overflow capacity n0
    (engine_run sample_overflow (journaling_engine capacity n0) ops).1
    (engine_run sample_overflow (journaling_engine capacity n0) ops).2.
Proof. apply (run_journaled _ _ _ []). constructor. Qed.

(** Four orders rest; a fifth trades with two of them and rests; one is cancelled, one is
    moved to another price. *)
Definition sample_history : list engine_op :=
  sample_ops ++
  [OpProcess sample_clock 2000 true (sample_buy LIMIT 100 15); OpCancel 3000 true 4;
   OpReplace sample_clock 60 4000 true 3 (d_of_Z 102) 12].

Definition sample_history_end : MatchingEngine * list MarketEvent :=
  engine_run sample_overflow (journaling_engine 16 1) sample_history.

Ltac counters_ok :=
  split; [let H := fresh in intros ? H; vm_compute in H; injection H as <-|]; vm_compute; discriminate.

Ltac process_ok :=
  split; [|counters_ok];
  split; [by split|]; split; [incoming_ok|]; split; [fresh_id_ok|];
  split; [vm_compute; repeat split; (discriminate || reflexivity)|];
  split; [intros _; split; [vm_compute; reflexivity|split; [vm_compute; split; discriminate|vm_compute; reflexivity]]
         |vm_compute; reflexivity].

Lemma sample_history_run :
  journaled_run sample_overflow 16 1 sample_history_end.1 sample_history_end.2.
Proof.
  apply run_from_start.
  split; [process_ok|]. split; [process_ok|]. split; [process_ok|]. split; [process_ok|].
  split; [process_ok|]. split; [split; [by split|counters_ok]|].
  split; [|exact I]. split; [|counters_ok]. split; [by split|]. split; [by split|].
  split; [intros _ _; split; [reflexivity|split; [vm_compute; split; discriminate|vm_compute; reflexivity]]|].
  intros old Hold. left. vm_compute in Hold. injection Hold as <-. vm_compute. reflexivity.
Qed.

Lemma recovery_rebuilds_book_witness :
  length sample_history_end.2 = 10%nat /\
  exists rc e',
    replay (MatchingEngine_new 16) (Some (journal_header ++ concat (omap encode sample_history_end.2))) =
      Some (rc, e', Ok true) /\
    book_ e' ≡ book_ sample_history_end.1 /\ state_ e' = READY /\ engine_inv e' /\
    priority_counter_ e' <= priority_counter_ sample_history_end.1.
Proof.
  split; [vm_compute; reflexivity|].
  apply (recovery_rebuilds_book sample_overflow 16 1 sample_history_end.1 sample_history_end.2);
    [lia|by split|exact sample_history_run].
Defined.

(** ** Where recovery fails *)

(** Reducing an order in place announces the order again under its old priority number. The
    journal of that run is well formed, but its replay refuses the repeated priority and halts
    the engine. *)
Theorem amendment_breaks_recovery :
  let e := journaling_engine 16 1 in
  let '(e1, evs) := engine_run sample_overflow e
    [OpProcess sample_clock 1000 true (sample_order 1 2 SELL LIMIT 100 7);
     OpProcess sample_clock 1001 true (sample_order 2 3 SELL LIMIT 100 4);
     OpReplace sample_clock 60 1002 true 1 (d_of_Z 100) 5] in
  getOrderCount (book_ e1) = 2%nat /\
  match replay (MatchingEngine_new 16) (Some (journal_header ++ concat (omap encode evs))) with
  | Some (_, e', answer) => answer = Ok false /\ state_ e' = HALTED
  | None => False
  end.
Proof. vm_compute. auto. Qed.

(** A price below half a tick is journaled as 0; replaying its record throws out of [replay],
    and the engine is neither READY nor HALTED. *)
Theorem tiny_price_breaks_recovery :
  let e := journaling_engine 16 1 in
  let '(e1, evs) := engine_run sample_overflow e
    [OpProcess sample_clock 1000 true
       (Build_Order 1 2 1 SELL LIMIT (d_frac 1 10000000) 7 7 0 0 0)] in
  getOrderCount (book_ e1) = 1%nat /\
  match replay (MatchingEngine_new 16) (Some (journal_header ++ concat (omap encode evs))) with
  | Some (_, e', Throw _) => state_ e' = RECOVERING
  | _ => False
  end.
Proof. vm_compute. auto. Qed.
