(* ===== verification/ShardedJournal.v ===== *)
(** * ShardedJournal: a journal and a sequence counter per shard

    The class [ShardedJournalManager] of include/ShardedJournalManager.h and
    src/ShardedJournalManager.cpp. The file system is a function from paths to contents; creating
    the directory is assumed to succeed. *)

From Stdlib Require Import ZArith Lia Bool String Ascii.
From stdpp Require Import base tactics decidable numbers option relations strings pretty list sorting.
From S2P Require Import Prelude.
From S2P Require Import Double.
From S2P Require Import Order.
From S2P Require Import OrderBook.
From S2P Require Import Events.
From S2P Require Import MatchingEngine.
From S2P Require Import EngineProps.
From S2P Require Import Bytes.
From S2P Require Import Fifo.
From S2P Require Import JournalRing.
From S2P Require Import Journal.
From S2P Require Import JournalProps.
From S2P Require Import Recovery.
From S2P Require Import RecoveryProps.
From S2P Require Import Rebuild.

Local Open Scope Z_scope.

(** [std::to_string] of a [size_t] is its decimal notation. *)
Definition shardJournalPath (base_path : string) (shard_id : nat) : string :=
  base_path +:+ "/journal-" +:+ pretty (N.of_nat shard_id) +:+ ".bin".

Record ShardedJournalManager (R : Type) : Type := Build_ShardedJournalManager {
  base_path_ : string;
  shard_count_ : nat;
  journals_ : list (Journal R);
  sequence_counters_ : list Z
}.
Arguments Build_ShardedJournalManager {R}.
Arguments base_path_ {R}.
Arguments shard_count_ {R}.
Arguments journals_ {R}.
Arguments sequence_counters_ {R}.

Section Manager.
Context {R : Type}.
Implicit Types (m : ShardedJournalManager R) (e : MatchingEngine).

(** The loop of the constructor: the journals of [n] shards from [i] on; [os] are the answers of the
    system to each, [ring] what the constructor of a ring answers. *)
Fixpoint open_journals (os : nat -> OpenAnswers) (ring : result R)
    (files : string -> list Z) (base_path : string) (i n : nat) : result (list (Journal R)) :=
  match n with
  | O => Ok []
  | S n =>
      j ← (Journal_open (os i) ring 16384 (files (shardJournalPath base_path i))).2;
      js ← open_journals os ring files base_path (S i) n;
      Ok (j :: js)
  end.

Definition ShardedJournalManager_new (os : nat -> OpenAnswers) (ring : result R)
    (files : string -> list Z) (base_path : string) (num_shards : nat) : result (ShardedJournalManager R) :=
  if (num_shards =? 0)%nat then Throw (InvalidArgument "ShardedJournalManager: num_shards must be > 0")
  else
    js ← open_journals os ring files base_path 0 num_shards;
    Ok (Build_ShardedJournalManager base_path num_shards js (replicate num_shards 0)).

Definition getJournal m (shard_id : nat) : option (Journal R) :=
  if (shard_count_ m <=? shard_id)%nat then None else journals_ m !! shard_id.

Definition getSequenceCounter m (shard_id : nat) : option Z :=
  if (shard_count_ m <=? shard_id)%nat then None else sequence_counters_ m !! shard_id.

Definition store_counter m (shard_id : nat) (n : Z) : ShardedJournalManager R :=
  Build_ShardedJournalManager (base_path_ m) (shard_count_ m) (journals_ m)
    (<[shard_id := n]> (sequence_counters_ m)).

(** [recoverShard]; [bytes] is the content of the shard's file. The engine then counts with the
    shard's counter. *)
Definition recoverShard m (bytes : option (list Z)) (shard_id : nat) e
    : option (ShardedJournalManager R * MatchingEngine * result bool) :=
  if (shard_count_ m <=? shard_id)%nat then Some (m, e, Ok false)
  else
    match replay e bytes with
    | None => None
    | Some (rc, e, Throw ex) => Some (m, e, Throw ex)
    | Some (rc, e, Ok false) => Some (m, e, Ok false)
    | Some (rc, e, Ok true) =>
        let next := u64 (last_sequence_ rc + 1) in
        Some (store_counter m shard_id next, seedSequence (setSequenceCounter e (Some next)) next, Ok true)
    end.

(** [syncAll]: the [sync] of every journal; [answers] are those of the system. *)
Fixpoint sync_journals (js : list (Journal R)) (answers : list (bool * bool)) : list (Journal R) :=
  match js with
  | [] => []
  | j :: js =>
      let '(flushed, synced) := default (true, true) (head answers) in
      (journal_sync j flushed synced).1 :: sync_journals js (tail answers)
  end.

Definition syncAll m (answers : list (bool * bool)) : ShardedJournalManager R :=
  Build_ShardedJournalManager (base_path_ m) (shard_count_ m) (sync_journals (journals_ m) answers)
    (sequence_counters_ m).
End Manager.

(** ** Paths *)

Lemma string_length_app s t : String.length (s +:+ t) = (String.length s + String.length t)%nat.
Proof. induction s as [|a s IH]; simpl; [done|]. by rewrite IH. Qed.

Lemma string_app_inj_l (s1 s2 t : string) : s1 +:+ t = s2 +:+ t -> s1 = s2.
Proof.
  intros Heq. assert (String.length s1 = String.length s2) as Hlen.
  { apply (f_equal String.length) in Heq. rewrite !string_length_app in Heq. lia. }
  revert s2 Heq Hlen. induction s1 as [|a s1 IH]; intros [|b s2] Heq Hlen; simpl in *; try done.
  injection Heq as -> Heq. f_equal. apply IH; [done|lia].
Qed.

(** Two shards never share a file. *)
Lemma shardJournalPath_inj base k k' : shardJournalPath base k = shardJournalPath base k' -> k = k'.
Proof.
  intros H%(inj (String.append _))%(inj (String.append _))%string_app_inj_l%(inj pretty). lia.
Qed.

(** ** The numbering of published events *)

(** [k] numbers from [n] on, wrapping around. *)
Definition numbers (n : Z) (k : nat) : list Z := (fun i => u64 (n + Z.of_nat i)) <$> seq 0 k.

Lemma numbers_app n j k : numbers n j ++ numbers (u64 (n + Z.of_nat j)) k = numbers n (j + k).
Proof.
  unfold numbers. rewrite seq_app, fmap_app. f_equal. rewrite Nat.add_0_l.
  replace (seq j k) with (seq (j + 0) k) by (f_equal; lia). rewrite <- fmap_add_seq, <- list_fmap_compose.
  apply list_fmap_ext. intros i x _. unfold compose. rewrite u64_add_l. f_equal. lia.
Qed.

Lemma numbers_seqZ n k : 0 <= n -> n + Z.of_nat k <= UINT64_MAX + 1 -> numbers n k = seqZ n (Z.of_nat k).
Proof.
  intros Hn Hk. unfold numbers, seqZ. rewrite Nat2Z.id. apply list_fmap_ext. intros i x Hx.
  apply lookup_seq in Hx. rewrite u64_small by (unfold_int; lia). lia.
Qed.

Definition counts (e : MatchingEngine) (n : Z) : Prop :=
  publisher_ e = true /\ sequence_counter_ e = Some n /\ in_u64 n.

Lemma publish_numbers e fs n :
  counts e n -> Forall numbered fs ->
  let '(e', evs) := publish_events e fs in
  counts e' (u64 (n + Z.of_nat (length evs))) /\ sequence <$> evs = numbers n (length evs).
Proof.
  intros (Hp & Hc & Hn) Hfs. destruct (publish_events e fs) as [e' evs] eqn:He.
  assert (publisher_ e' = true) as Hp'.
  { unfold publish_events in He. rewrite Hp in He. destruct (emit _ fs). by injection He as <- _. }
  apply publish_events_Some with (n := n) in He as [Hc' ->]; [|done..].
  rewrite length_imap. split; [split_and!; [done|done|apply u64_range]|].
  apply list_eq. intros i. unfold numbers. rewrite !list_lookup_fmap, list_lookup_imap.
  destruct (fs !! i) as [f|] eqn:Hf; simpl.
  - rewrite lookup_seq_lt by (by eapply lookup_lt_Some). simpl. f_equal.
    rewrite Forall_lookup in Hfs. by apply (Hfs i).
  - rewrite lookup_seq_ge; [done|]. by apply lookup_ge_None_1.
Qed.

Lemma no_events_numbers e n :
  counts e n -> counts e (u64 (n + Z.of_nat (@length MarketEvent []))) /\ sequence <$> [] = numbers n (@length MarketEvent []).
Proof. intros (Hp & Hc & Hn). simpl. by rewrite Z.add_0_r, u64_small. Qed.

Ltac all_numbered :=
  repeat first [done | apply Forall_nil_2 | apply Forall_cons_2; [intros ?; reflexivity|]
    | apply trades_numbered | match goal with |- Forall _ (if ?c then _ else _) => destruct c end].

Definition trading_op (op : engine_op) : bool :=
  match op with OpProcess _ _ _ _ | OpCancel _ _ _ | OpReplace _ _ _ _ _ _ _ => true | _ => false end.

Section Numbering.
Context (ticks_overflow : double -> Z).

Lemma step_numbers e op n :
  counts e n -> trading_op op = true ->
  let '(e', evs) := engine_step ticks_overflow e op in
  counts e' (u64 (n + Z.of_nat (length evs))) /\ sequence <$> evs = numbers n (length evs).
Proof.
  intros Hc Hop. assert (forall b e1, publisher_ e1 = publisher_ e -> sequence_counter_ e1 = sequence_counter_ e ->
    counts (with_book e1 b) n) as Hbook by (unfold counts; simpl; intros _ e1 -> ->; exact Hc).
  assert (forall e1, publisher_ e1 = publisher_ e -> sequence_counter_ e1 = sequence_counter_ e ->
    counts e1 (u64 (n + Z.of_nat (@length MarketEvent []))) /\ sequence <$> [] = numbers n (@length MarketEvent [])) as Hnone
    by (intros e1 Hp1 Hc1; apply no_events_numbers; unfold counts; by rewrite Hp1, Hc1).
  destruct op as [clock ts jh o|ts jh id|clock now ts jh id p qty| | | | | | | | | | | |]; try done; cbn [engine_step].
  - unfold processOrder. destruct (negb _); [by apply Hnone|].
    destruct (tryNextPriority e) as [e1 [prio|]] eqn:Ht; [|by apply Hnone].
    apply tryNextPriority_Some in Ht as (_ & -> & _).
    destruct (mo_result _) as [trades|ex]; [|by apply Hnone].
    match goal with |- context [publish_events ?e1 ?fs] => pose proof (publish_numbers e1 fs n) as H end.
    destruct (publish_events _ _). apply H; [by apply Hbook|all_numbered].
  - unfold engine_cancel. destruct (negb _); [by apply Hnone|].
    destruct (getOrderById _ id); [|by apply Hnone].
    destruct (cancelOrder _ id) as [b []]; cbn [negb]; [|by apply Hnone].
    match goal with |- context [publish_events ?e1 ?fs] => pose proof (publish_numbers e1 fs n) as H end.
    destruct (publish_events _ _). apply H; [by apply Hbook|all_numbered].
  - unfold engine_replace. destruct (negb _); [by apply Hnone|].
    destruct (getOrderById _ id) as [old|]; [|by apply Hnone]. destruct ((0 <? qty) && (_ || _)); [by apply Hnone|].
    destruct (replacement_priority e old p qty) as [e1 [prio|]] eqn:Hrp; [|by apply Hnone].
    apply replacement_priority_frame in Hrp as (_ & Hp1 & Hc1).
    destruct (replaceOrder _ _ _ _ _ _ _) as [b [r|ex]]; [|by apply Hnone].
    destruct (negb (success r)); [by apply Hnone|].
    match goal with |- context [publish_events ?e1 ?fs] => pose proof (publish_numbers e1 fs n) as H end.
    destruct (publish_events _ _). apply H; [by apply Hbook|all_numbered].
Qed.

Lemma run_numbers e ops n :
  counts e n -> forallb trading_op ops = true ->
  sequence <$> (engine_run ticks_overflow e ops).2 = numbers n (length (engine_run ticks_overflow e ops).2).
Proof.
  revert e n. induction ops as [|op ops IH]; intros e n Hc Hops; [done|]. simpl in *.
  apply andb_true_iff in Hops as [Hop Hops]. pose proof (step_numbers e op n Hc Hop) as Hs.
  destruct (engine_step ticks_overflow e op) as [e1 evs1]. destruct Hs as [Hc1 Hn1].
  specialize (IH e1 _ Hc1 Hops). destruct (engine_run ticks_overflow e1 ops) as [e2 evs2]. simpl in *.
  by rewrite fmap_app, Hn1, IH, numbers_app, length_app.
Qed.
End Numbering.

(** ** Recovery of a shard, then more trading *)

Lemma process_all_last rc e rs rc' e' :
  process_all rc e rs = (rc', e', Ok true) ->
  last_sequence_ rc' = default (last_sequence_ rc) (rec_sequence <$> last rs).
Proof.
  revert rc e. induction rs as [|r rs IH]; intros rc e Hall; [by injection Hall as <- <-|].
  cbn [process_all] in Hall. destruct (validateSequence rc (rec_sequence r)) as [rc1 []] eqn:Hv; [|done].
  cbn [negb] in Hall. apply validateSequence_true in Hv as [-> _].
  destruct (processRecord _ e r) as [[rc2 e2] [[]|]] eqn:Hp; [|done|done].
  apply processRecord_true in Hp as (_ & _ & Hl2 & _). rewrite (IH _ _ Hall), Hl2, last_cons.
  by destruct (last rs).
Qed.

Lemma replay_finish_publisher rc e e' : replay_finish rc e = (e', true) -> publisher_ e' = publisher_ e.
Proof.
  unfold replay_finish, seedPrioritySequence, markReady. intros H.
  repeat case_match; simplify_eq/=; done.
Qed.

Lemma restoreOrder_publisher e o r : publisher_ (restoreOrder e o r).1 = publisher_ e.
Proof. unfold restoreOrder. repeat case_match; done. Qed.

Lemma processRecord_publisher rc e r : publisher_ (processRecord rc e r).1.2 = publisher_ e.
Proof.
  unfold processRecord. destruct (_ =? NEW_ORDER); [|destruct (_ =? CANCEL_ORDER); [|destruct (_ =? FILL); [|done]]].
  - unfold replay_new_order. destruct (negb (_ =? _)%nat); [done|]. cbv zeta.
    destruct (negb (new_order_valid _)); [done|].
    destruct (validatePrioritySequence rc _) as [rc1 []]; [|done].
    cbn [negb]. destruct (restored_order _) as [o|]; [|done].
    pose proof (restoreOrder_publisher e o (nf_remaining (new_order_fields (rec_payload r)))) as H.
    by destruct (restoreOrder e o _) as [e1 []].
  - unfold replay_cancel. destruct (negb (_ =? _)%nat); [done|]. unfold restoreCancel.
    by destruct (cancelOrder _ _) as [b []].
  - unfold replay_fill. destruct (negb (_ =? _)%nat); [done|]. unfold engine_applyFill.
    by destruct (applyFill _ _ _) as [b []].
Qed.

Lemma process_all_publisher rc e rs : publisher_ (process_all rc e rs).1.2 = publisher_ e.
Proof.
  revert rc e. induction rs as [|r rs IH]; intros rc e; [done|]. cbn [process_all].
  destruct (validateSequence rc (rec_sequence r)) as [rc1 []]; [|done]. cbn [negb].
  pose proof (processRecord_publisher rc1 e r) as Hp.
  destruct (processRecord rc1 e r) as [[rc2 e2] [[]|]]; cbn in Hp; rewrite <- Hp; done.
Qed.

Section Continues.
Context {R : Type} (ticks_overflow : double -> Z).

(** C18: a recovered shard goes on where its journal stops. When [recoverShard] succeeds, the
    file is the header, records and at most a torn tail, and the engine publishes from the number
    after the last record on: the records of the file and the events of any further trading,
    taken together, carry consecutive sequence numbers, which is what the next recovery demands
    of the file. *)
Theorem recovered_shard_continues (m m' : ShardedJournalManager R) bytes k e e' ops :
  Forall is_byte bytes -> Z.of_nat (length bytes) <= UINT64_MAX ->
  recoverShard m (Some bytes) k e = Some (m', e', Ok true) ->
  publisher_ e = true -> forallb trading_op ops = true ->
  let evs := (engine_run ticks_overflow e' ops).2 in
  exists rs tail s,
    bytes = journal_header ++ concat (rec_bytes <$> rs) ++ tail /\ torn tail /\
    (rs <> [] -> s + Z.of_nat (length rs) + Z.of_nat (length evs) <= UINT64_MAX ->
     (rec_sequence <$> rs) ++ (sequence <$> evs) = seqZ s (Z.of_nat (length rs) + Z.of_nat (length evs))).
Proof.
  intros Hb Hmax Hrec Hpub Hops evs. unfold recoverShard in Hrec.
  destruct (_ <=? _)%nat; [done|].
  destruct (replay e (Some bytes)) as [[[rc e1] [[]|]]|] eqn:Hre; try done. injection Hrec as _ <-.
  apply replay_parsed in Hre as (rs & tail & rc1 & e2 & -> & Hrs & Ht & Hall & -> & Hfin); [|done].
  pose proof (concat_rec_bytes_length rs) as Hlen.
  pose proof Hall as Hord. apply process_all_ordered in Hord as (_ & _ & (s & Hs & _) & _); [|done|done|done|].
  2: { rewrite !length_app in Hmax. simpl. lia. }
  exists rs, tail, s. split; [done|]. split; [done|]. intros Hne Hfit.
  set (next := u64 (last_sequence_ (note_tail tail rc1) + 1)) in *.
  assert (counts (seedSequence (setSequenceCounter e1 (Some next)) next) next) as Hc.
  { split_and!; [|done|apply u64_range]. cbn. rewrite (replay_finish_publisher _ _ _ Hfin).
    pose proof (process_all_publisher Recovery_new (beginRecovery e) rs) as Hp. rewrite Hall in Hp. cbn in Hp.
    rewrite Hp. unfold beginRecovery. by destruct (state_ e). }
  subst evs. pose proof (run_numbers ticks_overflow _ ops next Hc Hops) as Hn.
  destruct (engine_run ticks_overflow _ ops) as [e3 evs]. cbn [snd] in *. rewrite Hn, Hs.
  assert (next = s + Z.of_nat (length rs)) as Hnext.
  { subst next. replace (last_sequence_ (note_tail tail rc1)) with (last_sequence_ rc1)
      by (unfold note_tail; by repeat case_match).
    rewrite (process_all_last _ _ _ _ _ Hall).
    assert (rec_sequence <$> last rs = Some (s + Z.of_nat (length rs) - 1)) as ->.
    { rewrite <- fmap_last, Hs, last_lookup, length_seqZ. apply lookup_seqZ.
      destruct rs; [done|]. simpl. lia. }
    simpl. rewrite u64_small; [lia|]. destruct rs as [|r rs]; [done|]. unfold_int.
    assert (0 <= s); [|simpl in *; lia].
    apply Forall_cons in Hrs as [(Hr0 & _) _]. cbn [fmap list_fmap length] in Hs.
    rewrite seqZ_cons in Hs by lia. injection Hs as <- _. unfold_int. lia. }
  rewrite Hnext, numbers_seqZ by (unfold_int; rewrite <- ?Hnext; pose proof (u64_range (last_sequence_ (note_tail tail rc1) + 1)); unfold_int; lia).
  rewrite seqZ_app by lia. done.
Qed.
End Continues.

(** ** A sample shard: recovery, then a cancel of the order it restored *)

Definition sample_manager : ShardedJournalManager unit := Build_ShardedJournalManager "data" 1 [] [0].

Definition sample_engine_recovered : MatchingEngine :=
  setMarketDataPublisher (MatchingEngine_new 16) true.

Definition sample_recovered : ShardedJournalManager unit * MatchingEngine * result bool :=
  default (sample_manager, sample_engine_recovered, Ok false)
    (recoverShard sample_manager (Some sample_file) 0 sample_engine_recovered).

Lemma sample_recovered_ok :
  recoverShard sample_manager (Some sample_file) 0 sample_engine_recovered =
    Some (sample_recovered.1.1, sample_recovered.1.2, Ok true).
Proof. vm_compute. reflexivity. Qed.

Definition sample_cancel_op : list engine_op := [OpCancel 5 true 7].

(** The file ends at record 42; the cancel is published as number 43. *)
Example sample_recovered_publishes :
  sequence <$> (engine_run (fun _ => 0) sample_recovered.1.2 sample_cancel_op).2 = [43] /\
  sequence_counters_ sample_recovered.1.1 = [43].
Proof. vm_compute. auto. Qed.

Lemma recovered_shard_continues_witness :
  exists rs tail s,
    sample_file = journal_header ++ concat (rec_bytes <$> rs) ++ tail /\ torn tail /\
    (rs <> [] -> s + Z.of_nat (length rs) + 1 <= UINT64_MAX ->
     (rec_sequence <$> rs) ++ [43] = seqZ s (Z.of_nat (length rs) + 1)).
Proof.
  assert (sequence <$> (engine_run (fun _ => 0) sample_recovered.1.2 sample_cancel_op).2 = [43]) as He
    by (vm_compute; reflexivity).
  assert (Forall is_byte sample_file) as Hb by (pose proof sample_file_bytes as H; apply Forall_app in H; tauto).
  pose proof (recovered_shard_continues (fun _ => 0) sample_manager sample_recovered.1.1 sample_file 0
    sample_engine_recovered sample_recovered.1.2 sample_cancel_op Hb ltac:(vm_compute; congruence)
    sample_recovered_ok eq_refl eq_refl) as H.
  cbv zeta in H. rewrite <- (length_fmap sequence), He in H. exact H.
Defined.

(** ** A torn tail is not removed

    [Recovery] ignores a torn tail, and [Journal] then appends to the same file, behind it. *)

Definition reopened (bytes : list Z) (e : MarketEvent) : option (list Z) :=
  match (Journal_open no_failures (Ok tt) 16384 bytes).2, encode e with
  | Ok j, Some data => Some (file (writeSerialized j data None true).1)
  | _, _ => None
  end.

(** The next recovery takes the torn bytes and the first new ones for a record, and halts: the
    crash that cost one record makes the shard refuse to start the second time. *)
Theorem torn_tail_poisons_next_recovery :
  exists bytes,
    (fun out => out.2) <$> replay (MatchingEngine_new 16) (Some (sample_file ++ sample_partial)) = Some (Ok true) /\
    reopened (sample_file ++ sample_partial) sample_cancelled = Some bytes /\
    (fun out => (state_ out.1.2, out.2)) <$> replay (MatchingEngine_new 16) (Some bytes) = Some (HALTED, Ok false).
Proof.
  eexists. split; [vm_compute; reflexivity|]. split; [vm_compute; reflexivity|]. vm_compute. reflexivity.
Qed.
