(* ===== verification/TradeLog.v ===== *)
(** * TradeLog: the binary records of the trade log

    [TradeLogger::BinaryTrade] of include/TradeLogger.h, packed, as its bytes lie in the memory
    of a little-endian machine, where [worker_] writes them from. A [double] lies there as its
    IEEE 754 binary64 encoding. The source has no reader; [parse_log] is the reader the layout
    calls for. *)

From Stdlib Require Import ZArith Lia Bool.
From Stdlib Require Import SpecFloat.
From stdpp Require Import base tactics decidable numbers option list.
From S2P Require Import Prelude.
From S2P Require Import Double.
From S2P Require Import Rounding.
From S2P Require Import Order.
From S2P Require Import Bytes.

Local Open Scope Z_scope.

(** ** Little-endian integers *)

Fixpoint putLE (n : nat) (v : Z) : list Z :=
  match n with O => [] | S n => v mod 256 :: putLE n (v / 256) end.

Definition readLE (p : list Z) : Z := foldr (fun b r => b + 256 * r) 0 p.

Lemma length_putLE n v : length (putLE n v) = n.
Proof. revert v. induction n; intros v; simpl; auto. Qed.

Lemma putLE_bytes n v : Forall is_byte (putLE n v).
Proof.
  revert v. induction n as [|n IH]; intros v; constructor; [|done]. apply Z.mod_pos_bound. lia.
Qed.

Lemma readLE_put n v : readLE (putLE n v) = v mod 2 ^ (8 * Z.of_nat n).
Proof.
  revert v. induction n as [|n IH]; intros v; [by rewrite Z.mod_1_r|].
  cbn [putLE readLE foldr]. fold (readLE (putLE n (v / 256))). rewrite IH.
  replace (8 * Z.of_nat (S n)) with (8 + 8 * Z.of_nat n) by lia. rewrite Z.pow_add_r by lia.
  change (2 ^ 8) with 256. rewrite Z.rem_mul_r; [lia|lia|apply Z.pow_pos_nonneg; lia].
Qed.

Lemma readLE_small n v : 0 <= v < 2 ^ (8 * Z.of_nat n) -> readLE (putLE n v) = v.
Proof. intros Hv. rewrite readLE_put. by apply Z.mod_small. Qed.

(** ** The encoding of a double *)

Definition two52 : Z := 4503599627370496.
Definition sign_bit (s : bool) : Z := if s then 9223372036854775808 else 0.

(** The bits of a double; NaN is the quiet one. *)
Definition bits_of_double (x : double) : Z :=
  match x with
  | S754_zero s => sign_bit s
  | S754_infinity s => sign_bit s + 2047 * two52
  | S754_nan => 2047 * two52 + 2251799813685248
  | S754_finite s m e =>
      sign_bit s + (if Z.pos m <? two52 then Z.pos m else (e + 1075) * two52 + (Z.pos m - two52))
  end.

Definition double_of_bits (b : Z) : double :=
  let s := 9223372036854775808 <=? b in
  let rest := b mod 9223372036854775808 in
  let exponent := rest / two52 in
  let fraction := rest mod two52 in
  if exponent =? 2047 then (if fraction =? 0 then S754_infinity s else S754_nan)
  else if exponent =? 0 then
    match fraction with Z.pos m => S754_finite s m (-1074) | _ => S754_zero s end
  else match fraction + two52 with Z.pos m => S754_finite s m (exponent - 1075) | _ => S754_zero s end.

(** The binary64 numbers: every value of a C++ [double] is one. *)
Definition is_double (x : double) : bool := valid_binary 53 1024 x.

(** A canonical mantissa is either normal, or subnormal with the least exponent. *)
Lemma finite_double s m e :
  is_double (S754_finite s m e) = true ->
  (two52 <= Z.pos m < 2 * two52 /\ -1074 <= e <= 971) \/ (Z.pos m < two52 /\ e = -1074).
Proof.
  unfold is_double, valid_binary, bounded, canonical_mantissa, fexp, emin. intros H.
  apply andb_true_iff in H as [Hc He]. apply Z.eqb_eq in Hc. apply Z.leb_le in He.
  pose proof (digits2_bounds m) as [Hlo Hhi]. set (d := Z.pos (digits2_pos m)) in *.
  assert (0 < d) by (unfold d; lia).
  destruct (Z.max_spec (d + e - 53) (3 - 1024 - 53)) as [[Hlt Hm]|[Hge Hm]]; rewrite Hm in Hc.
  - assert (d <= 52 \/ d = 53) as [Hd|Hd] by lia; [right|lia].
    split; [|lia]. eapply Z.lt_le_trans; [exact Hhi|]. change two52 with (2 ^ 52).
    apply Z.pow_le_mono_r; lia.
  - assert (d = 53) as Hd by lia. rewrite Hd in *. left. change (2 ^ (53 - 1)) with two52 in Hlo.
    change (2 ^ 53) with (2 * two52) in Hhi. lia.
Qed.

Lemma bits_of_double_range x : is_double x = true -> in_u64 (bits_of_double x).
Proof.
  intros Hx. unfold_int. destruct x as [[]|[]| |s m e]; cbn [bits_of_double sign_bit]; unfold two52; try lia.
  apply finite_double in Hx. unfold two52 in *.
  destruct (Z.ltb_spec (Z.pos m) 4503599627370496); destruct s; cbn [sign_bit]; lia.
Qed.

(** Splitting [s * 2^63 + r] with [r < 2^63]. *)
Lemma split_sign s r :
  0 <= r < 9223372036854775808 ->
  (9223372036854775808 <=? sign_bit s + r) = s /\ (sign_bit s + r) mod 9223372036854775808 = r.
Proof.
  intros Hr. split.
  - destruct s; cbn [sign_bit]; [apply Z.leb_le|apply Z.leb_gt]; lia.
  - destruct s; cbn [sign_bit]; [|by rewrite Z.mod_small by lia].
    rewrite <- (Z_mod_plus_full _ (-1)), Z.mod_small by lia. lia.
Qed.

Lemma split_fields q f : 0 <= f < two52 -> (q * two52 + f) / two52 = q /\ (q * two52 + f) mod two52 = f.
Proof.
  intros Hf. assert (0 < two52) by done. split.
  - rewrite Z.add_comm, Z_div_plus by lia. rewrite Z.div_small by lia. lia.
  - rewrite Z.add_comm, Z_mod_plus_full. by apply Z.mod_small.
Qed.

Lemma double_of_fields s q f :
  0 <= q <= 2047 -> 0 <= f < two52 ->
  double_of_bits (sign_bit s + (q * two52 + f)) =
    if q =? 2047 then (if f =? 0 then S754_infinity s else S754_nan)
    else if q =? 0 then match f with Z.pos m => S754_finite s m (-1074) | _ => S754_zero s end
    else match f + two52 with Z.pos m => S754_finite s m (q - 1075) | _ => S754_zero s end.
Proof.
  intros Hq Hf. unfold double_of_bits.
  destruct (split_sign s (q * two52 + f)) as [-> ->]; [unfold two52 in *; lia|].
  by destruct (split_fields q f Hf) as [-> ->].
Qed.

Lemma double_bits_roundtrip x : is_double x = true -> double_of_bits (bits_of_double x) = x.
Proof.
  intros Hx. destruct x as [s|s| |s m e]; cbn [bits_of_double].
  - replace (sign_bit s) with (sign_bit s + (0 * two52 + 0)) by lia. by rewrite double_of_fields by done.
  - replace (2047 * two52) with (2047 * two52 + 0) by lia. by rewrite double_of_fields by done.
  - reflexivity.
  - apply finite_double in Hx. destruct (Z.ltb_spec (Z.pos m) two52) as [Hlt|Hge].
    + destruct Hx as [[Hx _]|[_ ->]]; [lia|].
      replace (Z.pos m) with (0 * two52 + Z.pos m) by lia. by rewrite double_of_fields by lia.
    + destruct Hx as [[Hm He]|[Hx _]]; [|lia].
      rewrite double_of_fields by lia. rewrite (proj2 (Z.eqb_neq _ _)), (proj2 (Z.eqb_neq _ _)) by lia.
      replace (Z.pos m - two52 + two52) with (Z.pos m) by lia. f_equal. lia.
Qed.

(** ** BinaryTrade *)

Definition binary_trade (t : Trade) : list Z :=
  putLE 8 (trade_id t) ++ putLE 8 (buy_order_id t) ++ putLE 8 (sell_order_id t) ++
  putLE 8 (buy_trader_id t) ++ putLE 8 (sell_trader_id t) ++ putLE 8 (bits_of_double (trade_price t)) ++
  putLE 4 (trade_quantity t) ++ putLE 8 (u64 (trade_timestamp t)).

Definition kBinaryTradeSize : nat := 60.

(** The fields of a [Trade] fit their C++ types. *)
Definition trade_typed (t : Trade) : Prop :=
  in_u64 (trade_id t) /\ in_u64 (buy_order_id t) /\ in_u64 (sell_order_id t) /\
  in_u64 (buy_trader_id t) /\ in_u64 (sell_trader_id t) /\ is_double (trade_price t) = true /\
  in_u32 (trade_quantity t) /\ in_i64 (trade_timestamp t).

Lemma length_binary_trade t : length (binary_trade t) = kBinaryTradeSize.
Proof. unfold binary_trade. by rewrite !length_app, !length_putLE. Qed.

Definition parse_trade (p : list Z) : Trade :=
  Build_Trade (readLE (take 8 p)) (readLE (take 8 (drop 8 p))) (readLE (take 8 (drop 16 p)))
    (readLE (take 8 (drop 24 p))) (readLE (take 8 (drop 32 p)))
    (double_of_bits (readLE (take 8 (drop 40 p)))) (readLE (take 4 (drop 48 p)))
    (to_i64 (readLE (take 8 (drop 52 p)))).

Lemma parse_binary_trade t : trade_typed t -> parse_trade (binary_trade t) = t.
Proof.
  intros (H1 & H2 & H3 & H4 & H5 & H6 & H7 & H8). destruct t as [a b c d e x q ts]. simpl in *.
  assert (forall v, in_u64 v -> readLE (putLE 8 v) = v) as H64
    by (intros v Hv; apply readLE_small; unfold_int; change (2 ^ (8 * Z.of_nat 8)) with 18446744073709551616; lia).
  assert (forall v, in_u32 v -> readLE (putLE 4 v) = v) as H32
    by (intros v Hv; apply readLE_small; unfold_int; change (2 ^ (8 * Z.of_nat 4)) with 4294967296; lia).
  unfold parse_trade, binary_trade. cbn [trade_id buy_order_id sell_order_id buy_trader_id sell_trader_id
    trade_price trade_quantity trade_timestamp]. f_equal.
  1-5: etransitivity; [|by apply H64]; reflexivity.
  - etransitivity; [|by apply double_bits_roundtrip].
    f_equal. etransitivity; [|apply H64; by apply bits_of_double_range]. reflexivity.
  - etransitivity; [|by apply H32]. reflexivity.
  - etransitivity; [|by apply to_i64_u64]. f_equal.
    etransitivity; [|apply H64; apply u64_range]. reflexivity.
Qed.

(** Reads records from the front; bytes that do not make a whole record are left over. *)
Fixpoint parse_log (fuel : nat) (p : list Z) : list Trade * list Z :=
  match fuel with
  | O => ([], p)
  | S fuel =>
      if (length p <? kBinaryTradeSize)%nat then ([], p)
      else
        let '(ts, rest) := parse_log fuel (drop kBinaryTradeSize p) in
        (parse_trade (take kBinaryTradeSize p) :: ts, rest)
  end.

Lemma parse_log_records ts tail fuel :
  Forall trade_typed ts -> (length tail < kBinaryTradeSize)%nat -> (length ts < fuel)%nat ->
  parse_log fuel (concat (binary_trade <$> ts) ++ tail) = (ts, tail).
Proof.
  intros Hts Htail. revert fuel. induction Hts as [|t ts Ht Hts IH]; intros [|fuel] Hf; cbn [length] in Hf; try lia.
  - simpl. by rewrite (proj2 (Nat.ltb_lt _ _)).
  - cbn [fmap list_fmap concat]. rewrite <- app_assoc.
    pose proof (length_binary_trade t) as Hl. cbn [parse_log].
    rewrite length_app, Hl, (proj2 (Nat.ltb_ge _ _)) by lia.
    rewrite drop_app_length', take_app_length' by done.
    fold (binary_trade <$> ts). rewrite IH by lia. by rewrite parse_binary_trade.
Qed.
