(* ===== verification/TradeLogger.v ===== *)
(** * TradeLogger: the queue of trades and the thread that writes them

    The class [TradeLogger] of include/TradeLogger.h and src/TradeLogger.cpp. A critical section
    of [mtx_] is one step; between two of them the threads interleave: callers of [log], the
    worker, the caller of [stop]. The worker writes through a buffered [std::ofstream]: bytes
    that a write took may still be in the buffer, and only [stop] flushes it. *)

From Stdlib Require Import ZArith Lia Bool String.
From stdpp Require Import base tactics decidable numbers option relations list.
From S2P Require Import Prelude.
From S2P Require Import Double.
From S2P Require Import Order.
From S2P Require Import Bytes.
From S2P Require Import TradeLog.

Local Open Scope nat_scope.

(** ** The stream

    What the class uses of [std::ofstream]: the bytes that have reached the file, those in the
    buffer, and [good()]. Of the bytes it holds, in order, any number may reach the file with
    each attempt, and an attempt may fail; a stream that is not good does nothing. The exception
    mask is never set, so nothing throws. *)

Record ofstream : Type := Build_ofstream {
  os_file : list Z;
  os_buffer : list Z;
  os_good : bool
}.

(** [n] bytes of those held reach the file. *)
Definition stream_pass (n : nat) (held : list Z) (good : bool) (s : ofstream) : ofstream :=
  Build_ofstream (os_file s ++ take n held) (drop n held) good.

(** [write(data)]: the bytes passed on, and whether the attempt succeeded. *)
Definition stream_write (passed : nat) (good : bool) (s : ofstream) (data : list Z) : ofstream :=
  if os_good s then stream_pass passed (os_buffer s ++ data) good s else s.

(** [flush()]: [None] when everything reaches the file, otherwise what did before it failed. *)
Definition stream_flush (answer : option nat) (s : ofstream) : ofstream :=
  if os_good s then
    match answer with
    | None => stream_pass (length (os_buffer s)) (os_buffer s) true s
    | Some n => stream_pass n (os_buffer s) false s
    end
  else s.

(** The bytes put into a stream, whether or not they have reached the file. *)
Definition os_bytes (s : ofstream) : list Z := os_file s ++ os_buffer s.

Lemma stream_pass_bytes n held good s : os_bytes (stream_pass n held good s) = os_file s ++ held.
Proof. unfold os_bytes, stream_pass. simpl. by rewrite <- app_assoc, take_drop. Qed.

Lemma stream_write_bytes n good s data :
  os_good s = true -> os_bytes (stream_write n good s data) = os_bytes s ++ data /\
  os_good (stream_write n good s data) = good.
Proof.
  intros Hg. unfold stream_write. rewrite Hg, stream_pass_bytes. unfold os_bytes. by rewrite <- app_assoc.
Qed.

Lemma stream_flush_bytes answer s :
  os_bytes (stream_flush answer s) = os_bytes s /\
  (os_good (stream_flush answer s) = true -> os_buffer (stream_flush answer s) = []).
Proof.
  unfold stream_flush. destruct (os_good s) eqn:Hg; [|split; [done|congruence]].
  destruct answer as [n|]; rewrite stream_pass_bytes; (split; [done|]); [done|]. intros _. apply drop_all.
Qed.

(** A file only grows. *)
Lemma stream_grows bytes s n good data answer :
  bytes `prefix_of` os_file s ->
  bytes `prefix_of` os_file (stream_write n good s data) /\ bytes `prefix_of` os_file (stream_flush answer s).
Proof.
  intros H. unfold stream_write, stream_flush. destruct (os_good s); [|done].
  destruct answer; simpl; split; by apply prefix_app_r.
Qed.

(** ** The logger *)

(** Where the worker is in [workerLoop]: about to lock and test the wait condition; asleep in
    [cv_.wait]; unlocked, with the trade it popped; about to lock again after a write, which
    succeeded or not; out of the loop. *)
Inductive worker_phase : Type :=
| WTest
| WParked
| WWrite (trade : Trade)
| WRelock (good : bool)
| WDone.

Record TradeLogger : Type := Build_TradeLogger {
  file_ : ofstream;
  log_queue : list Trade;
  max_queue_size_ : nat;
  stop_ : bool;
  error_ : bool;
  worker_ : worker_phase
}.

Definition TradeLogger_new (opened : bool) (bytes : list Z) (max_queue_size : nat) : result TradeLogger :=
  if max_queue_size =? 0 then Throw (InvalidArgument "TradeLogger: max_queue_size must be > 0")
  else if negb opened then Throw (RuntimeError "TradeLogger: cannot open file")
  else Ok (Build_TradeLogger (Build_ofstream bytes [] true) [] max_queue_size false false WTest).

Definition with_queue (l : TradeLogger) (q : list Trade) (w : worker_phase) : TradeLogger :=
  Build_TradeLogger (file_ l) q (max_queue_size_ l) (stop_ l) (error_ l) w.

Definition log_file (l : TradeLogger) : list Z := os_file (file_ l).


Definition with_worker (l : TradeLogger) (w : worker_phase) : TradeLogger := with_queue l (log_queue l) w.

(** [notify_one]. *)
Definition wake (w : worker_phase) : worker_phase := match w with WParked => WTest | w => w end.

(** ** log: the test of [error_], then the critical section *)

Definition log_check (l : TradeLogger) : bool := negb (error_ l).

Definition log_enter (l : TradeLogger) (trade : Trade) : TradeLogger * bool :=
  if stop_ l then (l, false)
  else if max_queue_size_ l <=? length (log_queue l) then (l, false)
  else
    let was_empty := match log_queue l with [] => true | _ => false end in
    (with_queue l (log_queue l ++ [trade]) (if was_empty then wake (worker_ l) else worker_ l), true).

(** ** workerLoop *)

(** The tests after the inner loop. *)
Definition after_loop (l : TradeLogger) : TradeLogger :=
  let is_empty := match log_queue l with [] => true | _ => false end in
  if error_ l && is_empty then with_worker l WDone
  else if stop_ l && is_empty then with_worker l WDone
  else with_worker l WTest.

(** The condition of the inner loop, and the pop. *)
Definition inner_loop (l : TradeLogger) : TradeLogger :=
  match log_queue l with
  | trade :: q => if negb (error_ l) then with_queue l q (WWrite trade) else after_loop l
  | [] => after_loop l
  end.

(** A turn of the worker; [passed] and [good] are what the stream answers to a write. *)
Definition worker_turn (passed : nat) (good : bool) (l : TradeLogger) : option TradeLogger :=
  match worker_ l with
  | WTest =>
      Some (match log_queue l with
            | [] => if stop_ l then inner_loop l else with_worker l WParked
            | _ => inner_loop l
            end)
  | WParked => None
  | WWrite trade =>
      let stream := stream_write passed good (file_ l) (binary_trade trade) in
      Some (Build_TradeLogger stream (log_queue l) (max_queue_size_ l) (stop_ l)
              (if os_good stream then error_ l else true) (WRelock (os_good stream)))
  | WRelock good => Some (if good then inner_loop l else after_loop l)
  | WDone => None
  end.

(** ** stop *)

(** Where the first caller of [stop] is: [stopped_] taken, [stop_] set, the worker notified, the
    worker joined, the stream flushed. A later caller only joins. *)
Inductive stop_phase : Type := SNone | SFlag | SNotify | SJoin | SFlush | SDone.

Definition set_stop (l : TradeLogger) : TradeLogger :=
  Build_TradeLogger (file_ l) (log_queue l) (max_queue_size_ l) true (error_ l) (worker_ l).

(** The flush after the join. It does not look at the stream afterwards, and [error_] is set by an
    exception only, of which there is none. *)
Definition stop_flush (answer : option nat) (l : TradeLogger) : TradeLogger :=
  Build_TradeLogger (stream_flush answer (file_ l)) (log_queue l) (max_queue_size_ l) (stop_ l) (error_ l)
    (worker_ l).

(** ** The threads together

    [ts_pending] are the calls of [log] past the first test; histories: the trades accepted,
    and those whose write the stream answered good. *)
Record TSystem : Type := Build_TSystem {
  ts_logger : TradeLogger;
  ts_stop : stop_phase;
  ts_pending : list Trade;
  ts_accepted : list Trade;
  ts_written : list Trade
}.

(** What a turn adds to the history of written trades. *)
Definition turn_written (l l' : TradeLogger) : list Trade :=
  match worker_ l, worker_ l' with WWrite trade, WRelock true => [trade] | _, _ => [] end.

Inductive tstep : TSystem -> TSystem -> Prop :=
| t_check l st pend acc wr trade :
    log_check l = true ->
    tstep (Build_TSystem l st pend acc wr) (Build_TSystem l st (pend ++ [trade]) acc wr)
| t_enter l st pend1 trade pend2 acc wr :
    tstep (Build_TSystem l st (pend1 ++ trade :: pend2) acc wr)
      (Build_TSystem (log_enter l trade).1 st (pend1 ++ pend2)
         (if (log_enter l trade).2 then acc ++ [trade] else acc) wr)
| t_worker l st pend acc wr passed good l' :
    worker_turn passed good l = Some l' ->
    tstep (Build_TSystem l st pend acc wr) (Build_TSystem l' st pend acc (wr ++ turn_written l l'))
| t_spurious l st pend acc wr :
    tstep (Build_TSystem l st pend acc wr) (Build_TSystem (with_worker l (wake (worker_ l))) st pend acc wr)
| t_stop l pend acc wr :
    tstep (Build_TSystem l SNone pend acc wr) (Build_TSystem l SFlag pend acc wr)
| t_set_stop l pend acc wr :
    tstep (Build_TSystem l SFlag pend acc wr) (Build_TSystem (set_stop l) SNotify pend acc wr)
| t_notify l pend acc wr :
    tstep (Build_TSystem l SNotify pend acc wr)
      (Build_TSystem (with_worker l (wake (worker_ l))) SJoin pend acc wr)
| t_join l pend acc wr :
    worker_ l = WDone ->
    tstep (Build_TSystem l SJoin pend acc wr) (Build_TSystem l SFlush pend acc wr)
| t_flush l pend acc wr answer :
    tstep (Build_TSystem l SFlush pend acc wr) (Build_TSystem (stop_flush answer l) SDone pend acc wr).

(** ** The invariant *)

Definition in_hand (w : worker_phase) : list Trade := match w with WWrite t => [t] | _ => [] end.

(** The bytes put into the stream, and where each accepted trade is. *)
Definition log_account (f0 : list Z) (l : TradeLogger) (acc wr : list Trade) : Prop :=
  if error_ l
  then exists lost, acc = wr ++ lost :: log_queue l /\ in_hand (worker_ l) = [] /\
         os_bytes (file_ l) = f0 ++ concat (binary_trade <$> wr) ++ binary_trade lost
  else acc = wr ++ in_hand (worker_ l) ++ log_queue l /\
       os_bytes (file_ l) = f0 ++ concat (binary_trade <$> wr).

(** The caller of [stop] is past its join. *)
Definition joined (st : stop_phase) : bool := match st with SFlush | SDone => true | _ => false end.

Record tinv (f0 : list Z) (s : TSystem) : Prop := {
  tinv_account : log_account f0 (ts_logger s) (ts_accepted s) (ts_written s);
  tinv_old : f0 `prefix_of` log_file (ts_logger s);
  tinv_good : error_ (ts_logger s) = false -> ts_stop s <> SDone -> os_good (file_ (ts_logger s)) = true;
  tinv_flushed : ts_stop s = SDone -> os_good (file_ (ts_logger s)) = true -> os_buffer (file_ (ts_logger s)) = [];
  tinv_bound : length (log_queue (ts_logger s)) <= max_queue_size_ (ts_logger s);
  tinv_relock : forall good, worker_ (ts_logger s) = WRelock good -> good = negb (error_ (ts_logger s));
  tinv_parked : worker_ (ts_logger s) = WParked ->
    log_queue (ts_logger s) = [] /\ (stop_ (ts_logger s) = true -> ts_stop s = SNotify);
  tinv_stop : stop_ (ts_logger s) = match ts_stop s with SNone | SFlag => false | _ => true end;
  tinv_out : worker_ (ts_logger s) = WDone -> error_ (ts_logger s) = false ->
    log_queue (ts_logger s) = [] /\ stop_ (ts_logger s) = true;
  tinv_done : joined (ts_stop s) = true -> worker_ (ts_logger s) = WDone
}.

(** The tests after the inner loop keep the account; so does the pop. *)
Lemma after_loop_spec l :
  (log_queue l = [] \/ error_ l = true) ->
  after_loop l = with_worker l (worker_ (after_loop l)) /\
  ((worker_ (after_loop l) = WTest /\ (error_ l = false -> stop_ l = false)) \/
   (worker_ (after_loop l) = WDone /\ log_queue l = [] /\ (error_ l = false -> stop_ l = true))).
Proof.
  intros Hq. unfold after_loop. destruct l as [f q mx st er w]; simpl in *.
  destruct q as [|t q]; destruct er, st; simpl; split; auto; destruct Hq; try done; auto.
Qed.

Lemma inner_loop_inv f0 l st pend acc wr :
  tinv f0 (Build_TSystem l st pend acc wr) -> in_hand (worker_ l) = [] -> worker_ l <> WDone ->
  worker_ l <> WParked -> tinv f0 (Build_TSystem (inner_loop l) st pend acc wr).
Proof.
  intros [Ha Hf0 Hg Hfl Hb Hr Hp Hs Ho Hd] Hh Hnd Hnp. cbn in *. unfold inner_loop.
  assert (forall w, in_hand w = [] -> log_account f0 (with_worker l w) acc wr) as Hacc.
  { intros w Hw. unfold log_account in *. simpl. rewrite Hh in Ha. rewrite Hw. exact Ha. }
  assert (log_queue l = [] \/ error_ l = true -> tinv f0 (Build_TSystem (after_loop l) st pend acc wr)) as Hafter.
  { intros Hq. destruct (after_loop_spec l Hq) as [Heq [[Hw Hc]|(Hw & Hq' & Hc)]]; rewrite Heq, Hw; constructor; cbn; auto; try done.
    intros Hsd. by specialize (Hd Hsd). }
  destruct (log_queue l) as [|t q] eqn:Hq; [auto|]. destruct (error_ l) eqn:He; cbn [negb]; [auto|].
  constructor; cbn; try done; try (by rewrite He).
  - unfold log_account in *. cbn. rewrite He, Hh in *. rewrite Hq in Ha. exact Ha.
  - simpl in Hb. lia.
  - intros Hsd. by specialize (Hd Hsd).
Qed.

(** The worker writes the trade in its hand. *)
Lemma write_inv f0 l st pend acc wr t passed good l' :
  tinv f0 (Build_TSystem l st pend acc wr) -> worker_ l = WWrite t -> worker_turn passed good l = Some l' ->
  tinv f0 (Build_TSystem l' st pend acc (wr ++ turn_written l l')).
Proof.
  intros [Ha Hf0 Hg Hfl Hb Hr Hp Hs Ho Hd] Hw Ht. cbn in *.
  assert (st <> SDone) as Hst by (intros ->; specialize (Hd eq_refl); congruence).
  assert (joined st = false) as Hj by (destruct (joined st); [by specialize (Hd eq_refl); rewrite Hw in Hd|done]).
  assert (error_ l = false) as He.
  { unfold log_account in Ha. destruct (error_ l); [|done]. destruct Ha as (? & _ & Ha & _). by rewrite Hw in Ha. }
  unfold worker_turn in Ht. rewrite Hw in Ht. cbv zeta in Ht.
  destruct (stream_write_bytes passed good (file_ l) (binary_trade t) (Hg He Hst)) as [Hbytes Hgood].
  destruct (stream_grows f0 (file_ l) passed good (binary_trade t) None Hf0) as [Hf1 _].
  set (f := stream_write _ _ _ _) in *. clearbody f.
  rewrite Hgood in Ht. injection Ht as <-. unfold turn_written. rewrite Hw. cbn [worker_].
  unfold log_account in Ha. rewrite He, Hw in Ha. destruct Ha as [Hacc Hput]. rewrite Hput in Hbytes.
  constructor; cbn; rewrite ?He; try done.
  - unfold log_account. cbn. destruct good; cbn in *.
    + rewrite fmap_app, concat_app, Hbytes, Hacc, <- !app_assoc. split; [done|].
      change (concat (binary_trade <$> [t])) with (binary_trade t ++ []). by rewrite app_nil_r.
    + exists t. by rewrite app_nil_r, Hacc, Hbytes, <- app_assoc.
  - rewrite Hgood. by destruct good.
  - intros g [= <-]. by destruct good.
  - by rewrite Hj.
Qed.

Lemma tinv_worker f0 l st pend acc wr passed good l' :
  tinv f0 (Build_TSystem l st pend acc wr) -> worker_turn passed good l = Some l' ->
  tinv f0 (Build_TSystem l' st pend acc (wr ++ turn_written l l')).
Proof.
  intros Hinv Ht. destruct (worker_ l) as [| |t|g|] eqn:Hw; [| |by eapply write_inv| |].
  all: unfold turn_written; rewrite Hw, app_nil_r; unfold worker_turn in Ht; rewrite Hw in Ht; simplify_eq.
  - destruct (log_queue l) as [|t q] eqn:Hq; [destruct (stop_ l) eqn:Hst|].
    1,3: apply inner_loop_inv; rewrite ?Hw; done.
    destruct Hinv as [Ha Hf0 Hg Hfl Hb Hr Hp Hs Ho Hd]. constructor; cbn in *; rewrite ?Hq, ?Hst; try done.
    + unfold log_account in *. cbn. by rewrite Hw, Hq in *.
    + simpl. lia.
    + congruence.
    + intros Hsd. specialize (Hd Hsd). congruence.
  - pose proof (tinv_relock _ _ Hinv) as Hr. cbn in Hr. specialize (Hr g Hw). destruct g.
    + apply inner_loop_inv; rewrite ?Hw; done.
    + assert (error_ l = true) as He by (by destruct (error_ l)).
      assert (inner_loop l = after_loop l) as <-
        by (unfold inner_loop; destruct (log_queue l); [done|by rewrite He]).
      apply inner_loop_inv; rewrite ?Hw; done.
Qed.

Lemma tinv_wake f0 l st pend acc wr :
  tinv f0 (Build_TSystem l st pend acc wr) ->
  tinv f0 (Build_TSystem (with_worker l (wake (worker_ l))) st pend acc wr).
Proof.
  intros Hinv. destruct l as [f q mx stp er w]. destruct w; try exact Hinv.
  destruct Hinv as [Ha Hf0 Hg Hfl Hb Hr Hp Hs Ho Hd]. constructor; cbn in *; try done.
  intros Hsd. by specialize (Hd Hsd).
Qed.

Lemma tinv_enter f0 l st pend pend' acc wr t :
  tinv f0 (Build_TSystem l st pend acc wr) ->
  tinv f0 (Build_TSystem (log_enter l t).1 st pend'
    (if (log_enter l t).2 then acc ++ [t] else acc) wr).
Proof.
  intros [Ha Hf0 Hg Hfl Hb Hr Hp Hs Ho Hd]. unfold log_enter. cbn in *.
  destruct (stop_ l) eqn:Hst; [by constructor; cbn; rewrite ?Hst|].
  destruct (Nat.leb_spec (max_queue_size_ l) (length (log_queue l))); [by constructor; cbn; rewrite ?Hst|].
  set (w := if match log_queue l with [] => true | _ => false end then wake (worker_ l) else worker_ l).
  assert (w <> WParked /\ in_hand w = in_hand (worker_ l) /\ (forall good, w = WRelock good -> worker_ l = WRelock good) /\
    (w = WDone -> worker_ l = WDone) /\ (worker_ l = WDone -> w = WDone)) as (Hw1 & Hw2 & Hw3 & Hw4 & Hw5).
  { unfold w. destruct (log_queue l) eqn:Hq.
    - by destruct (worker_ l).
    - split_and!; try done. intros Hpk. by destruct (Hp Hpk). }
  constructor; cbn; try done; auto.
  - unfold log_account in *. cbn. destruct (error_ l).
    + destruct Ha as (lost & -> & Hh & Hf). exists lost. split_and!; [by rewrite <- app_assoc|congruence|done].
    + destruct Ha as [-> Hf]. split; [|done]. by rewrite Hw2, <- !app_assoc.
  - rewrite length_app. simpl. lia.
  - by rewrite Hst.
  - intros Hwd He. destruct (Ho (Hw4 Hwd) He) as [_ Hx]. congruence.
Qed.

(** The flush moves bytes from the buffer to the file. *)
Lemma tinv_flush f0 l pend acc wr answer :
  tinv f0 (Build_TSystem l SFlush pend acc wr) -> tinv f0 (Build_TSystem (stop_flush answer l) SDone pend acc wr).
Proof.
  intros [Ha Hf0 Hg Hfl Hb Hr Hp Hs Ho Hd]. destruct (stream_flush_bytes answer (file_ l)) as [Hbytes Hempty].
  destruct (stream_grows f0 (file_ l) 0 true [] answer Hf0) as [_ Hf1].
  constructor; cbn in *; try done; auto.
  - unfold log_account in *. cbn. by rewrite Hbytes.
  - intros Hw. by specialize (Hp Hw) as [_ Hx]; rewrite Hs in Hx; specialize (Hx eq_refl).
Qed.

Lemma tinv_step f0 s s' : tinv f0 s -> tstep s s' -> tinv f0 s'.
Proof.
  intros Hinv Hstep. destruct Hstep as [l st pend acc wr t Hc|l st p1 t p2 acc wr|l st pend acc wr passed good l' Ht
    |l st pend acc wr|l pend acc wr|l pend acc wr|l pend acc wr|l pend acc wr Hw|l pend acc wr answer].
  - destruct Hinv. by constructor.
  - by eapply tinv_enter.
  - by eapply tinv_worker.
  - by apply tinv_wake.
  - destruct Hinv as [Ha Hf0 Hg Hfl Hb Hr Hp Hs Ho Hd]. constructor; cbn in *; try done; [by auto|].
    intros Hw. destruct (Hp Hw) as [? _]. split; [done|]. by rewrite Hs.
  - destruct Hinv as [Ha Hf0 Hg Hfl Hb Hr Hp Hs Ho Hd]. constructor; cbn in *; try done; [by auto| |].
    + intros Hw. by destruct (Hp Hw).
    + intros Hw He. by destruct (Ho Hw He).
  - assert (stop_ l = true) as Hst by (by destruct Hinv as [_ _ _ _ _ _ _ Hs _ _]).
    apply tinv_wake in Hinv as [Ha Hf0 Hg Hfl Hb Hr Hp Hs Ho Hd]. constructor; cbn in *; try done; [by auto|].
    intros Hw. by destruct (worker_ l).
  - destruct Hinv as [Ha Hf0 Hg Hfl Hb Hr Hp Hs Ho Hd]. constructor; cbn in *; try done; [by auto|].
    intros Hw'. congruence.
  - by apply tinv_flush.
Qed.

Definition ts_fresh (l : TradeLogger) : TSystem := Build_TSystem l SNone [] [] [].

Lemma tinv_reachable bytes max l s :
  TradeLogger_new true bytes max = Ok l -> rtc tstep (ts_fresh l) s -> tinv bytes s.
Proof.
  intros Hnew Hsteps. assert (tinv bytes (ts_fresh l)) as H0.
  { unfold TradeLogger_new in Hnew. destruct (max =? 0); [done|]. injection Hnew as <-.
    constructor; cbn; try done. lia. }
  revert H0. induction Hsteps as [|s1 s2 s3 Hst _ IH]; intros H0; [done|]. apply IH. by eapply tinv_step.
Qed.

(** ** The worker alone, every write succeeding *)

(** One turn for each number in [passed], which is what the stream passes on if it is asked. *)
Fixpoint worker_turns (passed : list nat) (l : TradeLogger) : TradeLogger :=
  match passed with
  | [] => l
  | n :: passed => match worker_turn n true l with Some l => worker_turns passed l | None => l end
  end.

Definition worker_work (l : TradeLogger) : nat :=
  match worker_ l with
  | WTest | WRelock _ => 1 + 2 * length (log_queue l)
  | WWrite _ => 2 + 2 * length (log_queue l)
  | WParked | WDone => 0
  end.

(** A worker told to stop, on a stream that works. *)
Record winding_down (l : TradeLogger) : Prop := {
  wd_error : error_ l = false;
  wd_stop : stop_ l = true;
  wd_stream : os_good (file_ l) = true;
  wd_awake : worker_ l <> WParked;
  wd_relock : forall good, worker_ l = WRelock good -> good = true
}.

Lemma worker_turn_work l n :
  winding_down l -> worker_ l <> WDone ->
  exists l', worker_turn n true l = Some l' /\ winding_down l' /\ worker_work l' < worker_work l.
Proof.
  destruct l as [f q mx st er w]. intros [He Hs Hg Hnp Hr] Hnd. cbn in *. subst er st.
  destruct w as [| |t|good|]; try done; unfold worker_turn, worker_work, inner_loop, after_loop; cbn [worker_ log_queue file_ stop_ error_ max_queue_size_].
  - destruct q as [|t q]; eexists; (split; [done|]); cbn; (split; [by constructor|lia]).
  - destruct (stream_write_bytes n true f (binary_trade t) Hg) as [_ Hw]. set (f' := stream_write _ _ _ _) in *.
    clearbody f'. rewrite Hw. eexists. split; [done|]. split; [|cbn; lia]. constructor; cbn; try done. by intros ? [= <-].
  - rewrite (Hr good eq_refl). destruct q as [|t q]; eexists; (split; [done|]); cbn; (split; [by constructor|lia]).
Qed.

Lemma worker_turns_done passed l :
  winding_down l -> worker_work l <= length passed -> worker_ (worker_turns passed l) = WDone.
Proof.
  revert l. induction passed as [|n passed IH]; intros l Hl Hn; simpl in Hn.
  - pose proof (wd_awake l Hl). unfold worker_work in Hn. simpl. destruct (worker_ l); simpl in Hn; try done; lia.
  - destruct (worker_ l) eqn:Hw; try (by simpl; unfold worker_turn; rewrite Hw).
    all: simpl; destruct (worker_turn_work l n Hl) as (l' & -> & Hl' & Hlt); [by rewrite Hw|apply IH; [done|lia]].
Qed.

(** ** Properties *)

(** What has been accepted holds everything put into the stream: all of the written trades, and
    after an error the one whose write failed. *)
Lemma put_prefix f0 l acc wr :
  log_account f0 l acc wr ->
  wr `prefix_of` acc /\ os_bytes (file_ l) `prefix_of` f0 ++ concat (binary_trade <$> acc).
Proof.
  unfold log_account. destruct (error_ l).
  - intros (lost & -> & _ & ->). split; [by eexists|]. rewrite fmap_app, concat_app.
    apply prefix_app, prefix_app. cbn. by eexists.
  - intros [-> ->]. split; [by eexists|]. rewrite fmap_app, concat_app. apply prefix_app. by eexists.
Qed.

(** C36: the trade log is an honest prefix. Whatever the interleaving of the callers of [log], the
    worker and [stop], however the stream buffers and wherever a write or the flush fails, the
    file is its old contents followed by a part, from the beginning and possibly ending inside a
    record, of the records of the accepted trades in the order of acceptance. Without an
    error, file and buffer together hold exactly the trades written, whole, and every other
    accepted trade is in the worker's hand or in the queue; after one they hold the record whose
    write failed as well, and nothing follows it. The queue never exceeds its bound. *)
Theorem trade_log_prefix bytes max l s :
  TradeLogger_new true bytes max = Ok l -> rtc tstep (ts_fresh l) s ->
  length (log_queue (ts_logger s)) <= max /\
  bytes `prefix_of` log_file (ts_logger s) /\
  log_file (ts_logger s) `prefix_of` bytes ++ concat (binary_trade <$> ts_accepted s) /\
  ts_written s `prefix_of` ts_accepted s /\
  if error_ (ts_logger s) then
    exists lost, ts_written s ++ [lost] `prefix_of` ts_accepted s /\
      os_bytes (file_ (ts_logger s)) = bytes ++ concat (binary_trade <$> ts_written s ++ [lost])
  else
    ts_accepted s = ts_written s ++ in_hand (worker_ (ts_logger s)) ++ log_queue (ts_logger s) /\
    os_bytes (file_ (ts_logger s)) = bytes ++ concat (binary_trade <$> ts_written s).
Proof.
  intros Hnew Hsteps. assert (max_queue_size_ (ts_logger s) = max) as Hmax.
  { assert (max_queue_size_ (ts_logger (ts_fresh l)) = max) as H0
      by (unfold TradeLogger_new in Hnew; destruct (max =? 0); [done|]; by injection Hnew as <-).
    revert H0. clear Hnew. induction Hsteps as [|s1 s2 s3 Hst _ IH]; intros H0; [done|]. apply IH.
    destruct Hst as [| | ? ? ? ? ? passed good l' Ht| | | | | |]; cbn in *; try done.
    - unfold log_enter. destruct (stop_ _); [done|]. by destruct (_ <=? _).
    - unfold worker_turn, inner_loop, after_loop in Ht. repeat case_match; simplify_eq/=; done. }
  pose proof (tinv_reachable bytes max l s Hnew Hsteps) as [Ha Hf0 _ _ Hb _ _ _ _ _].
  destruct (put_prefix _ _ _ _ Ha) as [Hwr Hput].
  split; [by rewrite <- Hmax|]. split; [done|]. split; [etrans; [by eexists|exact Hput]|]. split; [done|].
  unfold log_account in Ha. destruct (error_ (ts_logger s)); [|done].
  destruct Ha as (lost & Hacc & _ & Hf). exists lost. rewrite Hacc, Hf.
  split; [exists (log_queue (ts_logger s)); by rewrite <- app_assoc|].
  rewrite fmap_app, concat_app. change (concat (binary_trade <$> [lost])) with (binary_trade lost ++ []). by rewrite app_nil_r.
Qed.

(** C37: stopping a healthy trade log writes everything that its last flush can write. When [stop]
    has returned on a new log and no write failed, the bytes given to the stream read back as
    exactly the accepted trades, and so does the file if that flush succeeded ([stop] does not say,
    see [stop_hides_flush_failure]). And [stop] gets that far: once it has notified the worker, the
    worker alone, its writes succeeding, leaves its loop after at most two turns for each trade
    left and two more. *)
Theorem trade_log_complete max l s :
  TradeLogger_new true [] max = Ok l -> rtc tstep (ts_fresh l) s ->
  error_ (ts_logger s) = false ->
  (ts_stop s = SDone -> Forall trade_typed (ts_accepted s) ->
     parse_log (S (length (ts_accepted s))) (os_bytes (file_ (ts_logger s))) = (ts_accepted s, []) /\
     (os_good (file_ (ts_logger s)) = true ->
        parse_log (S (length (ts_accepted s))) (log_file (ts_logger s)) = (ts_accepted s, []))) /\
  (ts_stop s = SJoin -> forall passed, 2 + 2 * length (log_queue (ts_logger s)) <= length passed ->
     worker_ (worker_turns passed (ts_logger s)) = WDone).
Proof.
  intros Hnew Hsteps He. pose proof (tinv_reachable [] max l s Hnew Hsteps) as [Ha _ Hg Hfl _ Hr Hp Hs Ho Hd].
  split.
  - intros Hsd Htyped. rewrite Hsd in Hd. specialize (Hd eq_refl). destruct (Ho Hd He) as [Hq _].
    unfold log_account in Ha. rewrite He, Hq, Hd in Ha. cbn in Ha. destruct Ha as [Hacc Hf].
    rewrite app_nil_r in Hacc.
    assert (parse_log (S (length (ts_accepted s))) (os_bytes (file_ (ts_logger s))) = (ts_accepted s, [])) as Hparse.
    { rewrite Hf, <- Hacc, <- (app_nil_r (concat _)).
      apply parse_log_records; [done|unfold kBinaryTradeSize; simpl; lia|lia]. }
    split; [exact Hparse|]. intros Hgood. unfold log_file. rewrite <- Hparse. unfold os_bytes.
    by rewrite (Hfl Hsd Hgood), app_nil_r.
  - intros Hj passed Hn. apply worker_turns_done.
    + constructor; [done|by rewrite Hs, Hj|apply Hg; [done|by rewrite Hj]| |].
      * intros Hw. destruct (Hp Hw) as [_ Hx]. rewrite Hs, Hj in Hx. by specialize (Hx eq_refl).
      * intros good Hw. rewrite (Hr good Hw), He. done.
    + unfold worker_work. destruct (worker_ (ts_logger s)); lia.
Qed.

(** ** Where the code and its documentation differ

    After a failed write with a trade still queued the worker spins: its next turn changes
    nothing, whatever the stream would do, so a caller of [stop] waits for it for ever. *)
Lemma error_spin l passed good :
  error_ l = true -> log_queue l <> [] -> worker_ l = WTest -> worker_turn passed good l = Some l.
Proof.
  intros He Hq Hw. unfold worker_turn. rewrite Hw. destruct l as [f q mx st er w]. cbn in *. subst er w.
  destruct q as [|t q]; [done|]. unfold inner_loop, after_loop. cbn. by destruct st.
Qed.

Definition sample_trade (n : Z) : Trade := Build_Trade n 7 8 1 2 (d_frac 1005 10) 5 1700000000.

Definition sample_logger : TradeLogger := Build_TradeLogger (Build_ofstream [] [] true) [] 4 false false WTest.

(** A worker step in which the stream answers [passed] and [good]. *)
Ltac log_worker passed good := eapply rtc_l; [eapply (t_worker _ _ _ _ _ passed good); reflexivity|].

(** A trade logged while nobody else is in [log]. *)
Ltac log_trade n :=
  eapply rtc_l; [apply (t_check _ _ _ _ _ (sample_trade n)); done|];
  eapply rtc_l; [apply (t_enter _ _ [] (sample_trade n) [])|].

Ltac log_stop :=
  eapply rtc_l; [apply t_stop|]; eapply rtc_l; [apply t_set_stop|]; eapply rtc_l; [apply t_notify|].

(** A run in which the first of two trades fails to be written. *)
Lemma failing_run :
  exists s, rtc tstep (ts_fresh sample_logger) s /\
    ts_stop s = SJoin /\ error_ (ts_logger s) = true /\ log_queue (ts_logger s) = [sample_trade 2] /\
    worker_ (ts_logger s) = WTest.
Proof.
  eexists. split; [|split; [|split; [|split]]].
  - log_trade 1%Z. log_trade 2%Z. log_worker 0 true. log_worker 3 false. log_worker 0 true. log_stop. apply rtc_refl.
  - done.
  - done.
  - done.
  - done.
Qed.

(** From there [stop] never returns: no step of any thread brings it past its join. *)
Theorem stop_hangs_after_write_error :
  exists s, rtc tstep (ts_fresh sample_logger) s /\ ts_stop s = SJoin /\
    forall s', rtc tstep s s' -> ts_stop s' = SJoin.
Proof.
  destruct failing_run as (s & Hs & Hj & He & Hq & Hw). exists s. split; [done|]. split; [done|].
  assert (forall s', rtc tstep s s' -> ts_stop s' = SJoin /\ error_ (ts_logger s') = true /\
    log_queue (ts_logger s') <> [] /\ worker_ (ts_logger s') = WTest) as Hall; [|intros s' H; by apply Hall].
  assert (log_queue (ts_logger s) <> []) as Hne by (by rewrite Hq). clear Hs Hq.
  intros s' Hsteps. induction Hsteps as [|s1 s2 s3 Hst _ IH]; [done|].
  apply IH; clear IH s3; destruct Hst as [| | ? ? ? ? ? passed good l' Ht| | | | | ? ? ? ? Hd|]; cbn in *; try done;
    try (by rewrite Hw); try congruence.
  all: try (unfold log_enter; destruct (stop_ _); [done|]; destruct (_ <=? _); [done|]; cbn; rewrite ?Hw;
    first [done | by destruct (log_queue _) | by intros ?%app_eq_nil]).
  all: try (rewrite error_spin in Ht by done; by injection Ht as <-).
Qed.

(** A run that logs a trade, which stays in the buffer, and stops with a flush that answers [answer]. *)
Lemma stopping_run answer :
  exists s, rtc tstep (ts_fresh sample_logger) s /\
    ts_stop s = SDone /\ error_ (ts_logger s) = false /\ ts_accepted s = [sample_trade 1] /\
    file_ (ts_logger s) = stream_flush answer (Build_ofstream [] (binary_trade (sample_trade 1)) true).
Proof.
  eexists. split; [|split; [|split; [|split]]].
  - log_worker 0 true. log_trade 1%Z. log_worker 0 true. log_worker 0 true. log_worker 0 true. log_worker 0 true.
    log_stop. log_worker 0 true. eapply rtc_l; [apply t_join; reflexivity|].
    eapply rtc_l; [apply (t_flush _ _ _ _ answer)|]. apply rtc_refl.
  - done.
  - done.
  - done.
  - done.
Qed.

(** When the flush of [stop] fails, [stop] returns, [hasError()] answers false, and a trade that
    [log] accepted is not in the file. *)
Theorem stop_hides_flush_failure :
  exists s, rtc tstep (ts_fresh sample_logger) s /\
    ts_stop s = SDone /\ error_ (ts_logger s) = false /\ ts_accepted s = [sample_trade 1] /\
    log_file (ts_logger s) = [].
Proof.
  destruct (stopping_run (Some 0)) as (s & Hs & Hd & He & Hacc & Hf). exists s. split_and!; try done.
  unfold log_file. by rewrite Hf.
Qed.

(** A write that fails takes the buffer with it: a trade whose own write was answered good is not
    in the file either. *)
Theorem write_error_loses_earlier_trades :
  exists s, rtc tstep (ts_fresh sample_logger) s /\
    ts_written s = [sample_trade 1] /\ error_ (ts_logger s) = true /\ log_file (ts_logger s) = [].
Proof.
  eexists. split; [|split; [|split]].
  - log_trade 1%Z. log_trade 2%Z. log_worker 0 true. log_worker 0 true. log_worker 0 true. log_worker 0 false.
    apply rtc_refl.
  - done.
  - done.
  - done.
Qed.

(** ** Witnesses *)

Lemma sample_trade_typed : trade_typed (sample_trade 1).
Proof. unfold trade_typed. unfold_int. split_and!; (by vm_compute) || (simpl; lia). Qed.

Lemma trade_log_prefix_witness :
  exists s, rtc tstep (ts_fresh sample_logger) s /\
    error_ (ts_logger s) = true /\ length (log_queue (ts_logger s)) <= 4 /\
    log_file (ts_logger s) `prefix_of` concat (binary_trade <$> ts_accepted s).
Proof.
  destruct failing_run as (s & Hs & _ & He & _). exists s. split; [exact Hs|]. split; [exact He|].
  destruct (trade_log_prefix [] 4 _ s eq_refl Hs) as (Hb & _ & Hp & _). by split.
Defined.

Lemma trade_log_complete_witness :
  exists s, rtc tstep (ts_fresh sample_logger) s /\
    parse_log 2 (log_file (ts_logger s)) = ([sample_trade 1], []).
Proof.
  destruct (stopping_run None) as (s & Hs & Hd & He & Hacc & Hf). exists s. split; [exact Hs|].
  destruct (trade_log_complete 4 _ s eq_refl Hs He) as [Hparse _].
  destruct (Hparse Hd) as [_ Hfile].
  - rewrite Hacc. constructor; [apply sample_trade_typed|constructor].
  - rewrite Hacc in Hfile. apply Hfile. by rewrite Hf.
Defined.
