(* ===== verification/Typed.v ===== *)
(** * Typed: everything the engine says fits the types it is said in

    The model's integers are unbounded and its doubles arbitrary; the code's are [uint64_t],
    [uint32_t], [int64_t] and binary64. Here the values that the engine hands to the journal
    (events) and to the trade log (trades) are shown to be in the ranges of their C++ types, for
    every run whose inputs are: the conditions [event_wf] and [trade_typed] under which the record
    formats round-trip. *)

From Stdlib Require Import ZArith Lia Bool Floats.SpecFloat.
From stdpp Require Import base tactics decidable numbers option list sorting.
From S2P Require Import Prelude.
From S2P Require Import Double.
From S2P Require Import Order.
From S2P Require Import OrderBook.
From S2P Require Import BookLevels.
From S2P Require Import BookMatch.
From S2P Require Import BookInv.
From S2P Require Import BookSpec.
From S2P Require Import BookFacts.
From S2P Require Import BookIds.
From S2P Require Import BookQueues.
From S2P Require Import BookProps.
From S2P Require Import Events.
From S2P Require Import MatchingEngine.
From S2P Require Import EngineProps.
From S2P Require Import Recovery.
From S2P Require Import RecoveryProps.
From S2P Require Import TradeLog.

Local Open Scope Z_scope.

(** ** Orders and books *)

(** What stays of an order while it rests. *)
Definition order_key (o : Order) : Z * Z * double * Z := (order_id o, trader_id o, price o, priority_seq o).

Definition key_typed (k : Z * Z * double * Z) : Prop :=
  let '(id, trader, p, prio) := k in in_u64 id /\ in_u64 trader /\ is_double p = true /\ in_u64 prio.

Definition book_typed (b : OrderBook) : Prop :=
  book_all order_key (Forall key_typed) b /\ in_u64 (next_trade_id_ b).

Lemma keys_sub (q q' : list (Z * Z * double * Z)) : sublist q' q -> Forall key_typed q -> Forall key_typed q'.
Proof. intros Hs. rewrite !Forall_forall. intros H x Hx. apply H. by eapply elem_of_sublist. Qed.

Lemma keys_back q k : key_typed k -> Forall key_typed q -> Forall key_typed (q ++ [k]).
Proof. intros. apply Forall_app. by rewrite Forall_singleton. Qed.

Lemma book_typed_found b id old : book_typed b -> getOrderById b id = Some old -> key_typed (order_key old).
Proof.
  intros [Hb _] Hget. unfold getOrderById in Hget.
  destruct (locate b id) as [[[s i] j]|] eqn:Hl; [|done].
  destruct (locate_zip _ _ _ _ _ Hl) as (ls1 & lp & os1 & o & os2 & ls2 & Hls & _ & _ & _ & Hat & _).
  cbn [mbind option_bind] in Hget. rewrite Hat in Hget. injection Hget as <-.
  pose proof (proj1 (proj1 (book_all_side order_key _ s b) Hb)) as Hs. rewrite Hls in Hs.
  apply levels_all_middle in Hs as (_ & H & _). cbn [orders] in H.
  rewrite fmap_app, Forall_app, fmap_cons, Forall_cons in H. tauto.
Qed.

(** ** One matching run *)

Lemma make_trade_typed inc r tid lp q now t :
  make_trade inc r tid lp q now = Ok t -> key_typed (order_key inc) -> key_typed (order_key r) ->
  is_double lp = true -> in_u64 tid -> in_u32 q -> in_i64 now -> trade_typed t.
Proof.
  intros Ht (Hi & Hit & _) (Hr & Hrt & _) Hp Hd Hq Hn. unfold make_trade in Ht.
  destruct (side inc); apply Trade_new_inv in Ht as [-> _]; unfold trade_typed; cbn; auto 10.
Qed.

Lemma conserved_bounds b inc st :
  incoming_wf inc -> conserved b inc st ->
  0 <= remaining_quantity (ms_incoming st) <= remaining_quantity inc /\
  order_key (ms_incoming st) = order_key inc.
Proof. intros _ ((_ & (r & -> & Hr) & _) & _ & _). by split. Qed.

Section Typed.
Context (ticks_overflow : double -> Z).
Hypothesis overflow_typed : forall p, in_i64 (ticks_overflow p).

Section Matching.
Context (clock : Z -> Z).
Hypothesis clock_typed : forall t, in_i64 (clock t).

Definition loop_typed (b : OrderBook) (inc : Order) (st : MatchState) : Prop :=
  conserved b inc st /\ levels_all order_key (Forall key_typed) (ms_levels st) /\
  in_u64 (ms_next_trade_id st) /\ Forall trade_typed (ms_trades st).

Lemma loop_typed_turn b inc st st' :
  incoming_wf inc -> key_typed (order_key inc) ->
  loop_typed b inc st -> match_iter clock st = Continue st' -> loop_typed b inc st'.
Proof.
  intros Hinc Hk (Hc & Hl & Hn & Ht) Hit. split; [by eapply conserved_turn|].
  split; [eapply (turn_all order_key (fun _ _ => eq_refl) _ keys_sub); eauto|].
  destruct (conserved_bounds _ _ _ Hinc Hc) as [Hr Hkey]. destruct Hc as ((Hwf & _) & _).
  pose proof (match_iter_case clock st) as Hcase. rewrite Hit in Hcase.
  inversion Hcase as [|l ls n Hls Hpos Hb Hp|l ls r os n t Hls Hpos Hb Hp Hmk q|]; subst st'; simpl; [done|].
  split; [apply u64_range|]. apply Forall_app. split; [done|]. apply Forall_singleton.
  rewrite Hls in Hl, Hwf. apply Forall_cons in Hl as [Hl _].
  pose proof (level_popped _ _ _ _ _ Hwf Hp) as HF. apply Forall_cons in HF as [(Hprice & _ & _ & _ & Hrr) _].
  apply pop_filled_sublist in Hp. apply (P_sublist order_key _ keys_sub _ _ Hp) in Hl.
  rewrite fmap_cons, Forall_cons in Hl. destruct Hl as [Hl _].
  assert (in_u32 (trade_qty (ms_incoming st) r)) as Hq.
  { destruct Hinc as (_ & Hq & Hrem). unfold trade_qty. unfold_int. lia. }
  apply (make_trade_typed _ _ _ _ _ _ _ Hmk); auto; [by rewrite Hkey|].
  destruct Hl as (_ & _ & Hd & _). by rewrite <- Hprice.
Qed.

Lemma match_phase_typed b inc ts :
  book_wf b -> incoming_wf inc -> book_typed b -> key_typed (order_key inc) ->
  mo_result (match_phase clock b inc) = Ok ts ->
  Forall trade_typed ts /\ 0 <= remaining_quantity (mo_incoming (match_phase clock b inc)) <= remaining_quantity inc.
Proof.
  intros Hwf Hinc [Hb Hn] Hk. unfold match_phase.
  pose proof (match_start_inv _ b inc Hwf Hinc eq_refl) as Hstart.
  destruct (match_loop _ clock (match_start b inc)) as [st|st e] eqn:Hl; simpl; [|done].
  intros [= <-]. apply (match_loop_finished clock (loop_typed b inc)) in Hl as (Hc & _ & _ & ?);
    [split; [done|by apply (conserved_bounds b)]| |].
  - intros. by eapply loop_typed_turn.
  - split; [split_and!; [done|simpl; lia|constructor]|]. split_and!; [|done|by constructor].
    by apply (book_all_side order_key _ (opposite (side inc))) in Hb as [? _].
Qed.

Lemma stp_phase_next b inc : next_trade_id_ (stp_phase b inc).1 = next_trade_id_ b.
Proof.
  unfold stp_phase. destruct (_ && _); [|done].
  destruct (stp_policy_ b); [done|done| |]; destruct (stp_levels _ _ _ _); by destruct (side inc).
Qed.

Lemma matchOrder_next b inc : in_u64 (next_trade_id_ b) -> in_u64 (next_trade_id_ (mo_book (matchOrder clock b inc))).
Proof.
  intros Hn. unfold matchOrder. destruct (_ && _); [done|].
  pose proof (stp_phase_next b inc) as Hs. destruct (stp_phase b inc) as [b' [|]]; simpl in *; [congruence|].
  rewrite <- Hs in Hn. unfold match_phase.
  pose proof (match_loop_inv clock (fun st => in_u64 (ms_next_trade_id st))) as Hinv.
  specialize (Hinv ltac:(intros st st' H Hit; pose proof (match_iter_case clock st) as Hc; rewrite Hit in Hc;
    inversion Hc; subst; [done|apply u64_range])).
  specialize (Hinv ltac:(intros st st' e H Hit; pose proof (match_iter_case clock st) as Hc; rewrite Hit in Hc;
    inversion Hc; subst; apply u64_range)).
  specialize (Hinv (S (match_measure (match_start b' inc))) (match_start b' inc) Hn).
  destruct (match_loop _ clock _) as [st|st e]; simpl; [|by destruct (side inc)].
  destruct (rests _); [|by destruct (side inc)].
  destruct (addOrder_opposite (match_book b' inc st) (ms_incoming st)) as (_ & -> & _). by destruct (side inc).
Qed.

Lemma matchOrder_typed b inc :
  book_wf b -> incoming_wf inc -> book_typed b -> key_typed (order_key inc) ->
  book_typed (mo_book (matchOrder clock b inc)) /\
  forall ts, mo_result (matchOrder clock b inc) = Ok ts ->
    Forall trade_typed ts /\
    0 <= remaining_quantity (mo_incoming (matchOrder clock b inc)) <= remaining_quantity inc.
Proof.
  intros Hwf Hinc Hb Hk. split.
  - split; [|apply matchOrder_next, Hb].
    apply (matchOrder_all order_key (fun _ _ => eq_refl) (Forall key_typed) keys_sub (Forall key_typed)
      (order_key inc)); [done| |by constructor|done|apply Hb]. intros q. by apply keys_back.
  - intros ts. destruct Hinc as (Hty & Hq & Hrem). unfold matchOrder.
    destruct (_ && _); [intros [= <-]; simpl; split; [constructor|lia]|].
    pose proof (stp_phase_next b inc) as Hs. destruct (stp_phase_keeps b inc Hwf) as [Hwf' _].
    pose proof (stp_phase_all order_key _ keys_sub b inc (proj1 Hb)) as Hall.
    destruct (stp_phase b inc) as [b' [|]]; [intros [= <-]; simpl; split; [constructor|lia]|].
    simpl in *. apply match_phase_typed; [done|exact (conj Hty (conj Hq Hrem))| |done].
    split; [done|]. rewrite Hs. apply Hb.
Qed.

(** ** Replacement *)

Lemma replaceOrder_typed now b id p qty prio :
  book_wf b -> in_u32 qty -> book_typed b -> in_u64 id -> is_double p = true -> in_u64 prio ->
  book_typed (replaceOrder clock now b id p qty prio).1 /\
  forall r, (replaceOrder clock now b id p qty prio).2 = Ok r ->
    Forall trade_typed (trades r) /\ in_u32 (final_remaining_quantity r).
Proof.
  intros Hwf Hq Hb Hid Hp Hprio. unfold replaceOrder.
  assert (in_u32 0) as H0 by (unfold_int; lia).
  assert (forall b' ok n, book_typed b' -> in_u32 n ->
    book_typed (b', Ok (Build_ReplaceResult ok [] n)).1 /\
    forall r, (b', Ok (Build_ReplaceResult ok [] n)).2 = Ok r ->
      Forall trade_typed (trades r) /\ in_u32 (final_remaining_quantity r)) as Hquiet.
  { intros b' ok n Hb' Hn. split; [done|]. intros r [= <-]. by split. }
  destruct ((0 <? qty) && (negb (isfinite p) || dle p d_zero)) eqn:Hguard; [by apply Hquiet|].
  destruct (locate b id) as [[[s i] j]|] eqn:Hl; [|by apply Hquiet].
  destruct (order_at _ i j) as [old|] eqn:Hat; [|by apply Hquiet].
  pose proof (located_wf b s i j old Hwf Hat) as Ho.
  unfold replaceInLevel. cbv zeta.
  destruct ((0 <? qty) && (qty <? u32 (quantity old - remaining_quantity old))) eqn:Hfilled; [by apply Hquiet|].
  assert (book_typed (set_levels s b (erase_order (levels_of s b) i j) 1)) as Her.
  { split; [by apply (erase_all order_key _ keys_sub b id), Hb|by destruct s, Hb]. }
  destruct (Z.eqb_spec qty 0) as [|Hne]; [by apply Hquiet|].
  assert (0 < qty) as Hpos by (unfold_int; lia).
  rewrite (proj2 (Z.ltb_lt 0 qty) Hpos) in Hfilled. simpl in Hfilled. apply Z.ltb_ge in Hfilled.
  destruct (deq p (price old) && (qty <? quantity old)).
  - apply Hquiet; [|apply u32_range]. split; [|by destruct s, Hb].
    by apply (update_all order_key _ b id s i j old); [| | |apply Hb].
  - destruct (_ =? 0); [by apply Hquiet|]. cbn [fst snd].
    pose proof (reentry_wf old id p qty prio now Ho Hq Hpos (valid_price_guard _ _ Hpos Hguard) Hfilled) as Ho'.
    assert (key_typed (order_key old)) as Hold.
    { apply (book_typed_found b id); [done|]. unfold getOrderById. by rewrite Hl. }
    set (o' := reentry_order _ _ _ _ _ _ _) in *.
    destruct (matchOrder_typed _ o' (proj1 (erase_keeps b id s i j Hl) Hwf) Ho' Her) as [Hb' Hts].
    { destruct Hold as (_ & Htr & _ & _). exact (conj Hid (conj Htr (conj Hp Hprio))). }
    split; [done|]. intros r. destruct (mo_result _) as [ts|ex]; [|done]. intros [= <-].
    destruct (Hts ts eq_refl) as [Hts1 Hrem]. split; [done|]. cbn [final_remaining_quantity].
    destruct Ho' as (_ & Hq' & Hr'). unfold_int. lia.
Qed.
End Matching.

(** ** Events *)

Lemma doubleToTicks_i64 p : in_i64 (doubleToTicks ticks_overflow p).
Proof.
  unfold doubleToTicks, d_to_int64. cbv zeta. destruct (d_trunc _) as [z|]; [|apply overflow_typed].
  destruct ((INT64_MIN <=? z) && (z <=? INT64_MAX)) eqn:Hz; [|apply overflow_typed].
  bool_to_prop. unfold_int. lia.
Qed.

(** An event but for its number. *)
Definition numbered_wf (f : Z -> MarketEvent) : Prop := forall seq, in_u64 seq -> event_wf (f seq).

Lemma trade_event_typed ts sym s t :
  in_u64 ts -> trade_typed t -> numbered_wf (trade_event ticks_overflow ts sym s t).
Proof.
  intros Hts (_ & H1 & H2 & _ & _ & _ & Hq & _) seq Hseq. unfold trade_event.
  destruct s; repeat split; try apply Hts; try apply Hseq; try apply H1; try apply H2; try apply Hq;
    try apply u32_range; apply doubleToTicks_i64.
Qed.

Lemma accepted_event_typed ts id sym trader s p qty rem t prio :
  in_u64 ts -> in_u64 id -> in_u32 qty -> in_u32 rem -> in_u64 prio ->
  numbered_wf (accepted_event ticks_overflow ts id sym trader s p qty rem t prio).
Proof.
  intros Hts Hid Hq Hr Hp seq Hseq. unfold accepted_event, event_wf. cbn.
  repeat (split; [first [assumption|apply u32_range|apply doubleToTicks_i64]|]). assumption.
Qed.

Definition counter_typed (c : option Z) : Prop := forall n, c = Some n -> in_u64 n.

Lemma emit_typed c fs c' evs :
  counter_typed c -> Forall numbered_wf fs -> emit c fs = (c', evs) ->
  counter_typed c' /\ Forall event_wf evs.
Proof.
  intros Hc Hfs. revert c c' evs Hc. induction Hfs as [|f fs Hf Hfs IH]; intros c c' evs Hc He; simpl in He.
  { injection He as <- <-. by split. }
  assert (counter_typed (nextSequence c).1 /\ in_u64 (nextSequence c).2) as [Hc1 Hn].
  { destruct c as [n|]; simpl; (split; [|]); [intros m [= <-]; apply u64_range|by apply Hc|done|unfold_int; lia]. }
  destruct (nextSequence c) as [c1 n]. destruct (emit c1 fs) as [c2 evs'] eqn:He'. injection He as <- <-.
  destruct (IH _ _ _ Hc1 He') as [? ?]. split; [done|]. constructor; [by apply Hf|done].
Qed.

Lemma publish_typed e fs e' evs :
  counter_typed (sequence_counter_ e) -> Forall numbered_wf fs -> publish_events e fs = (e', evs) ->
  counter_typed (sequence_counter_ e') /\ Forall event_wf evs.
Proof.
  intros Hc Hfs. unfold publish_events. destruct (publisher_ e); [|by intros [= <- <-]].
  destruct (emit _ fs) as [c evs'] eqn:He. intros [= <- <-]. by eapply emit_typed.
Qed.

(** ** The engine *)

Record engine_typed (e : MatchingEngine) : Prop := {
  et_wf : book_wf (book_ e);
  et_book : book_typed (book_ e);
  et_priority : in_u64 (priority_counter_ e);
  et_counter : counter_typed (sequence_counter_ e)
}.

(** The caller's values fit their types, and an order to be matched is as the constructor of
    [Order] makes it ([incoming_wf]). *)
Definition op_typed (op : engine_op) : Prop :=
  match op with
  | OpProcess clock ts _ o =>
      (forall t, in_i64 (clock t)) /\ in_u64 ts /\ key_typed (order_key o) /\ incoming_wf o
  | OpCancel ts _ id => in_u64 ts /\ in_u64 id
  | OpReplace clock _ ts _ id p qty =>
      (forall t, in_i64 (clock t)) /\ in_u64 ts /\ in_u64 id /\ is_double p = true /\ in_u32 qty
  | OpRestoreOrder o remaining => key_typed (order_key o) /\ in_u32 (quantity o) /\ in_u32 remaining
  | OpApplyFill _ qty => in_u32 qty
  | OpSeedPriority n => in_u64 n
  | OpSeedSequence n => in_u64 n
  | OpSetSequenceCounter c => counter_typed c
  | _ => True
  end.

(** The trades an operation returns. *)
Definition engine_trades (e : MatchingEngine) (op : engine_op) : list Trade :=
  match op with
  | OpProcess clock ts jh o =>
      match (processOrder ticks_overflow clock ts jh e o).2 with Ok ts => ts | Throw _ => [] end
  | OpReplace clock now ts jh id p qty =>
      match (engine_replace ticks_overflow clock now ts jh e id p qty).2 with
      | Ok r => trades r
      | Throw _ => []
      end
  | _ => []
  end.

Definition step_typed (r : MatchingEngine * list MarketEvent) (ts : list Trade) : Prop :=
  book_typed (book_ r.1) /\ counter_typed (sequence_counter_ r.1) /\ Forall event_wf r.2 /\
  Forall trade_typed ts.

Lemma step_typed_intro e evs ts b c :
  book_ e = b -> sequence_counter_ e = c -> book_typed b -> counter_typed c -> Forall event_wf evs ->
  Forall trade_typed ts -> step_typed (e, evs) ts.
Proof. by intros <- <- ????. Qed.

Lemma step_quiet e e' :
  engine_typed e -> book_ e' = book_ e -> sequence_counter_ e' = sequence_counter_ e -> step_typed (e', []) [].
Proof. intros [_ Hb _ Hc] H1 H2. by eapply step_typed_intro. Qed.

Lemma tryNextPriority_frame e e' n :
  tryNextPriority e = (e', n) -> book_ e' = book_ e /\ sequence_counter_ e' = sequence_counter_ e.
Proof. unfold tryNextPriority. destruct (_ =? _); by intros [= <- <-]. Qed.

Lemma process_typed clock ts jh e o :
  engine_typed e -> op_typed (OpProcess clock ts jh o) ->
  step_typed (engine_step ticks_overflow e (OpProcess clock ts jh o)) (engine_trades e (OpProcess clock ts jh o)).
Proof.
  intros He (Hclock & Hts & Hk & Ho). pose proof He as [Hw Hb Hn Hc]. simpl. unfold processOrder.
  destruct (negb _); [by eapply step_quiet|].
  destruct (tryNextPriority e) as [e1 [n|]] eqn:Ht; cbn [fst snd];
    [|by apply (step_quiet e)].
  pose proof (tryNextPriority_frame _ _ _ Ht) as [Hb1 Hc1].
  apply tryNextPriority_Some in Ht as (-> & _ & _). rewrite Hb1.
  set (inc := set_priority o (priority_counter_ e)).
  assert (key_typed (order_key inc)) as Hk' by (destruct Hk as (H1 & H2 & H3 & _); exact (conj H1 (conj H2 (conj H3 Hn)))).
  destruct (matchOrder_typed clock Hclock (book_ e) inc Hw Ho Hb Hk') as [Hb' Hts'].
  destruct (matchOrder_incoming clock (book_ e) inc) as [r Hi].
  destruct (mo_result _) as [tr|ex]; cbn [fst snd].
  - destruct (Hts' tr eq_refl) as [Htr Hrem]. destruct (publish_events _ _) as [e2 evs] eqn:Hp. cbn [fst snd].
    pose proof (publish_events_frame _ _ _ _ Hp) as (Hb2 & _).
    apply publish_typed in Hp as [Hc2 Hevs]; [|by cbn; rewrite Hc1|].
    { by eapply step_typed_intro. }
    apply Forall_app. split.
    + apply Forall_fmap. eapply Forall_impl; [exact Htr|]. intros t. by apply trade_event_typed.
    + destruct (_ && _); [|constructor]. apply Forall_singleton.
      destruct Ho as (_ & Hq & Hr). rewrite Hi in *. apply accepted_event_typed; cbn in *; try done.
      * by destruct Hk.
      * unfold_int. lia.
  - by eapply step_typed_intro.
Qed.

Lemma cancelOrder_typed b id : book_typed b -> book_typed (cancelOrder b id).1.
Proof.
  intros [Hb Hn]. split; [by apply (cancelOrder_all order_key _ keys_sub)|].
  unfold cancelOrder. by destruct (locate _ id) as [[[[] i] j]|].
Qed.

Lemma cancel_typed ts jh e id :
  engine_typed e -> op_typed (OpCancel ts jh id) ->
  step_typed (engine_step ticks_overflow e (OpCancel ts jh id)) (engine_trades e (OpCancel ts jh id)).
Proof.
  intros He [Hts Hid]. pose proof He as [_ Hb _ Hc]. simpl. unfold engine_cancel.
  destruct (negb _); [by eapply step_quiet|].
  destruct (getOrderById _ id) as [old|] eqn:Hget; [|by eapply step_quiet].
  pose proof (cancelOrder_typed (book_ e) id Hb) as Hb'.
  destruct (cancelOrder (book_ e) id) as [b found]. cbn [fst] in Hb'. destruct found; cbn [negb].
  - destruct (publish_events _ _) as [e2 evs] eqn:Hp. pose proof (publish_events_frame _ _ _ _ Hp) as (Hb2 & _).
    apply publish_typed in Hp as [Hc2 Hevs]; [|done|].
    + by eapply step_typed_intro.
    + apply Forall_singleton. intros seq Hseq. by split_and!; apply Hts || apply Hseq || apply Hid.
  - by eapply step_typed_intro.
Qed.

Lemma applyFill_typed b id qty : book_typed b -> book_typed (applyFill b id qty).1.
Proof.
  intros [Hb Hn]. split; [by apply (applyFill_all order_key (fun _ _ => eq_refl) _ keys_sub)|].
  unfold applyFill. destruct (_ =? 0); [done|]. destruct (locate _ id) as [[[[] i] j]|]; [| |done];
    (destruct (order_at _ _ _); [|done]); (destruct (_ <? _); [done|]); by destruct (_ =? 0).
Qed.

Lemma replacement_priority_typed e old p qty e' prio :
  replacement_priority e old p qty = (e', prio) -> in_u64 (priority_counter_ e) -> in_u64 (priority_seq old) ->
  book_ e' = book_ e /\ sequence_counter_ e' = sequence_counter_ e /\ forall n, prio = Some n -> in_u64 n.
Proof.
  intros H Hc Ho. unfold replacement_priority in H. destruct (_ && _).
  - destruct (tryNextPriority_frame _ _ _ H) as [-> ->]. split_and!; [done|done|]. intros n ->.
    by apply tryNextPriority_Some in H as (-> & _ & _).
  - injection H as <- <-. split_and!; [done|done|]. by intros n [= <-].
Qed.

Lemma replace_typed clock now ts jh e id p qty :
  engine_typed e -> op_typed (OpReplace clock now ts jh id p qty) ->
  step_typed (engine_step ticks_overflow e (OpReplace clock now ts jh id p qty))
    (engine_trades e (OpReplace clock now ts jh id p qty)).
Proof.
  intros He (Hclock & Hts & Hid & Hp & Hq). pose proof He as [Hw Hb Hn Hc].
  simpl. unfold engine_replace. destruct (negb _); [by eapply step_quiet|].
  destruct (getOrderById _ id) as [old|] eqn:Hget; [|by eapply step_quiet].
  destruct ((0 <? qty) && _); [by eapply step_quiet|].
  pose proof (book_typed_found _ _ _ Hb Hget) as (_ & _ & _ & Hold).
  destruct (replacement_priority e old p qty) as [e1 prio] eqn:Hr.
  destruct (replacement_priority_typed _ _ _ _ _ _ Hr Hn Hold) as (Hb1 & Hc1 & Hprio).
  destruct prio as [prio|]; [|by apply (step_quiet e)]. specialize (Hprio prio eq_refl). rewrite Hb1.
  destruct (replaceOrder_typed clock Hclock now (book_ e) id p qty prio Hw Hq Hb Hid Hp Hprio) as [Hb' Hres].
  destruct (replaceOrder _ _ _ _ _ _ _) as [b res]. cbn [fst snd] in *.
  destruct res as [r|ex]; [|by eapply step_typed_intro]. destruct (Hres r eq_refl) as [Htr Hrem].
  destruct (negb (success r)); [by eapply step_typed_intro|].
  destruct (publish_events _ _) as [e2 evs] eqn:Hpub.
  pose proof (publish_events_frame _ _ _ _ Hpub) as (Hb2 & _).
  apply publish_typed in Hpub as [Hc2 Hevs]; [|by cbn; rewrite Hc1|].
  { by eapply step_typed_intro. }
  apply Forall_cons. split; [intros seq Hseq; by split_and!; apply Hts || apply Hseq || apply Hid|].
  apply Forall_app. split.
  - apply Forall_fmap. eapply Forall_impl; [exact Htr|]. intros t. by apply trade_event_typed.
  - destruct (_ && _); [|constructor]. apply Forall_singleton. by apply accepted_event_typed.
Qed.

(** The rest of the type of an engine: its book is well formed, its priorities fit 64 bits. *)
Lemma restoreOrder_wf e o remaining :
  book_wf (book_ e) -> in_u32 (quantity o) -> in_u32 remaining -> book_wf (book_ (restoreOrder e o remaining).1).
Proof.
  intros Hw Hq Hr. unfold restoreOrder. destruct (negb (bool_decide _)); [done|].
  destruct ((remaining =? 0) || (quantity o <? remaining)) eqn:Hbad; [done|].
  destruct (negb (isfinite _) || _) eqn:Hprice; [done|]. destruct (getOrderById _ _); [done|].
  pose proof (addOrder_wf (book_ e) (set_remaining o remaining) Hw) as Hadd.
  destruct (addOrder _ _) as [b added]. apply Hadd. split; [by apply (valid_price_guard (price o) 1)|].
  bool_to_prop. simpl. unfold_int. lia.
Qed.

Lemma replacement_priority_u64 e old p qty :
  in_u64 (priority_counter_ e) -> in_u64 (priority_counter_ (replacement_priority e old p qty).1).
Proof.
  intros Hn. unfold replacement_priority. destruct (_ && _); [|done]. unfold tryNextPriority.
  destruct (Z.eqb_spec (priority_counter_ e) UINT64_MAX); [done|]. simpl. unfold_int. lia.
Qed.

Lemma publish_keeps_typed e fs :
  book_ (publish_events e fs).1 = book_ e /\ priority_counter_ (publish_events e fs).1 = priority_counter_ e.
Proof.
  destruct (publish_events e fs) as [e' evs] eqn:H. apply publish_events_frame in H. tauto.
Qed.

(** Past the publication of an operation's events. *)
Ltac published :=
  match goal with |- context [publish_events ?e ?fs] =>
    destruct (publish_keeps_typed e fs) as [H1 H2]; destruct (publish_events e fs); cbn in *; rewrite H1, H2
  end.

Lemma engine_step_wf e op :
  book_wf (book_ e) -> in_u64 (priority_counter_ e) -> op_typed op ->
  book_wf (book_ (engine_step ticks_overflow e op).1) /\
  in_u64 (priority_counter_ (engine_step ticks_overflow e op).1).
Proof.
  intros Hw Hn Hop. destruct op; cbn [engine_step fst]; try by split.
  - destruct Hop as (_ & _ & _ & Ho). unfold processOrder. destruct (negb _); [by split|].
    destruct (tryNextPriority e) as [e1 [n|]] eqn:Ht; [|by split].
    apply tryNextPriority_Some in Ht as (-> & -> & Hmax). cbn [book_ with_priority].
    pose proof (proj1 (matchOrder_keeps clock (book_ e) (set_priority o (priority_counter_ e)) Hw Ho)) as Hw'.
    destruct (mo_result _) as [tr|ex].
    + published. unfold_int. split; [done|lia].
    + cbn. unfold_int. split; [done|lia].
  - unfold engine_cancel. destruct (negb _); [by split|]. destruct (getOrderById _ id); [|by split].
    pose proof (proj1 (cancelOrder_keeps (book_ e) id) Hw) as Hw'. destruct (cancelOrder (book_ e) id) as [b []]; [|by split].
    cbn [negb]. by published.
  - destruct Hop as (_ & _ & _ & _ & Hq). unfold engine_replace. destruct (negb _); [by split|].
    destruct (getOrderById _ id) as [old|]; [|by split]. destruct ((0 <? qty) && _); [by split|].
    pose proof (replacement_priority_u64 e old p qty Hn) as Hn1.
    destruct (replacement_priority e old p qty) as [e1 prio] eqn:Hr. cbn [fst] in Hn1.
    apply replacement_priority_frame in Hr as (Hr & _). destruct prio as [prio|]; [|by split].
    pose proof (proj1 (replaceOrder_keeps clock now (book_ e) id p qty prio Hq Hw)) as Hw'. rewrite Hr.
    destruct (replaceOrder _ _ _ _ _ _ _) as [b [r|ex]]; [|by split]. destruct (negb (success r)); [by split|].
    by published.
  - destruct Hop as (_ & Hq & Hr). split; [by apply restoreOrder_wf|]. unfold restoreOrder. by repeat case_match.
  - unfold restoreCancel. pose proof (proj1 (cancelOrder_keeps (book_ e) id) Hw). by destruct (cancelOrder (book_ e) id).
  - unfold engine_applyFill. assert (0 <= qty) as H0 by (cbn in Hop; unfold_int; lia).
    pose proof (proj1 (applyFill_keeps (book_ e) id qty H0) Hw). by destruct (applyFill (book_ e) id qty).
  - unfold beginRecovery. by destruct (state_ e).
  - unfold markReady. by destruct (state_ e).
  - unfold seedPrioritySequence. by repeat case_match.
  - unfold seedSequence. by destruct (sequence_counter_ e).
Qed.

(** Every operation keeps the engine typed and says typed things. *)
Lemma engine_step_typed e op :
  engine_typed e -> op_typed op ->
  engine_typed (engine_step ticks_overflow e op).1 /\ Forall event_wf (engine_step ticks_overflow e op).2 /\
  Forall trade_typed (engine_trades e op).
Proof.
  intros He Hop. destruct (engine_step_wf e op (et_wf _ He) (et_priority _ He) Hop) as [Hw Hn].
  assert (step_typed (engine_step ticks_overflow e op) (engine_trades e op)) as (? & ? & ? & ?);
    [|by split_and!].
  destruct op; try (by apply (step_quiet e)).
  - by apply process_typed.
  - by apply cancel_typed.
  - by apply replace_typed.
  - pose proof (et_book _ He) as [Hb Hnx]. destruct Hop as (Hk & _). simpl. unfold restoreOrder.
    destruct (negb (bool_decide _)); [by apply (step_quiet e)|]. destruct (_ || _); [by apply (step_quiet e)|].
    destruct (_ || _); [by apply (step_quiet e)|]. destruct (getOrderById _ _); [by apply (step_quiet e)|].
    destruct (addOrder (book_ e) (set_remaining o remaining)) as [b added] eqn:Hadd.
    eapply step_typed_intro; [done..| |apply He|done|done]. cbn [fst].
    replace b with (addOrder (book_ e) (set_remaining o remaining)).1 by by rewrite Hadd. split.
    + apply (addOrder_all order_key (Forall key_typed) (Forall key_typed) (order_key o)); [done| |by constructor|done|done].
      intros q. by apply keys_back.
    + destruct (addOrder_opposite (book_ e) (set_remaining o remaining)) as (_ & Hnext & _).
      cbn [book_ with_book]. by rewrite Hnext.
  - pose proof (et_book _ He) as Hb. simpl. unfold restoreCancel.
    destruct (cancelOrder (book_ e) id) as [b found] eqn:Hcan. eapply step_typed_intro; [done..| |apply He|done|done].
    replace b with (cancelOrder (book_ e) id).1 by by rewrite Hcan. by apply cancelOrder_typed.
  - pose proof (et_book _ He) as Hb. simpl. unfold engine_applyFill.
    destruct (applyFill (book_ e) id qty) as [b found] eqn:Hcan. eapply step_typed_intro; [done..| |apply He|done|done].
    replace b with (applyFill (book_ e) id qty).1 by by rewrite Hcan. by apply applyFill_typed.
  - simpl. eapply step_typed_intro; [done..| |apply He|done|done]. apply (et_book _ He).
  - simpl. unfold beginRecovery. destruct (state_ e); by apply (step_quiet e).
  - simpl. unfold markReady. destruct (state_ e); by apply (step_quiet e).
  - simpl. unfold seedPrioritySequence. repeat case_match; by apply (step_quiet e).
  - simpl. unfold seedSequence. destruct (sequence_counter_ e) eqn:Hc; [|by apply (step_quiet e)].
    eapply step_typed_intro; [done..|apply He| |done|done]. by intros n' [= <-].
  - eapply step_typed_intro; [done..|apply He|done|done|done].
Qed.

(** The states of an engine since it was made, with everything it published and returned: any
    operations in any order, recovery's among them. *)
Inductive typed_history (capacity : Z) : MatchingEngine -> list MarketEvent -> list Trade -> Prop :=
| history_new : typed_history capacity (MatchingEngine_new capacity) [] []
| history_step e evs ts op :
    typed_history capacity e evs ts -> op_typed op ->
    typed_history capacity (engine_step ticks_overflow e op).1
      (evs ++ (engine_step ticks_overflow e op).2) (ts ++ engine_trades e op).

(** C21: the engine's outputs are typed. In every run, of any operations of the engine in any
    order, those of recovery included, whose inputs fit their C++ types (clock readings, ids,
    prices, quantities and counters; an order to be matched as the constructor of [Order] makes it:
    a MARKET order or a positive finite price, the remainder at most the quantity), all orders of
    the book and all counters fit theirs, and so do all the fields of every event published (ids
    and sequence numbers in 64 bits, quantities, symbols and traders in 32, prices of any double in
    signed 64-bit ticks, whatever an overflowing conversion gives) and of every trade returned: the
    conditions under which the journal's records and the trade log's are read back to what was
    written. *)
Theorem engine_speaks_typed capacity e evs ts :
  0 <= capacity -> typed_history capacity e evs ts ->
  engine_typed e /\ Forall event_wf evs /\ Forall trade_typed ts.
Proof.
  intros Hcap. induction 1 as [|e evs ts op H (He & Hevs & Hts) Hop].
  - split; [|split; constructor]. split; [by apply OrderBook_new_wf| | |done].
    + split; [by split; constructor|simpl; unfold_int; lia].
    + simpl. unfold_int. lia.
  - destruct (engine_step_typed e op He Hop) as (? & ? & ?).
    split; [done|]. split; by apply Forall_app.
Qed.
End Typed.

Lemma sample_overflow_typed p : in_i64 (sample_overflow p).
Proof. unfold sample_overflow. unfold_int. lia. Qed.

Definition sample_steady (tid : Z) : Z := 1700000000.

(** The run of a list of operations, with the trades. *)
Fixpoint trades_run (e : MatchingEngine) (ops : list engine_op) : list Trade :=
  match ops with
  | [] => []
  | op :: ops => engine_trades sample_overflow e op ++ trades_run (engine_step sample_overflow e op).1 ops
  end.

Lemma history_run capacity e evs ts ops :
  typed_history sample_overflow capacity e evs ts -> Forall op_typed ops ->
  typed_history sample_overflow capacity (engine_run sample_overflow e ops).1
    (evs ++ (engine_run sample_overflow e ops).2) (ts ++ trades_run e ops).
Proof.
  intros He Hops. revert e evs ts He. induction Hops as [|op ops Hop Hops IH]; intros e evs ts He; cbn [engine_run trades_run].
  { by rewrite !app_nil_r. }
  pose proof (history_step _ capacity e evs ts op He Hop) as Hs.
  destruct (engine_step sample_overflow e op) as [e1 evs1] eqn:Hstep. cbn [fst snd] in *.
  specialize (IH e1 _ _ Hs). rewrite <- !app_assoc in IH. by destruct (engine_run sample_overflow e1 ops) as [e2 evs2].
Qed.

Definition sample_inputs : list engine_op :=
  [OpSetPublisher true; OpSetSequenceCounter (Some 1);
   OpRestoreOrder (sample_order 5 3 SELL LIMIT 99 6) 2;
   OpProcess sample_steady 1000 true (sample_order 7 1 BUY LIMIT 98 10);
   OpProcess sample_steady 1001 true (sample_order 8 1 SELL LIMIT 100 10);
   OpProcess sample_steady 1002 true (sample_order 9 2 BUY LIMIT 100 4)].

Ltac input_ok :=
  first
    [exact I
    |intros n [= <-]; unfold_int; lia
    |split; [vm_compute; intuition discriminate|by vm_compute]
    |split; [unfold sample_steady; intros t; unfold_int; lia|]; split; [unfold_int; lia|];
     split; [vm_compute; intuition discriminate|incoming_ok]].

Lemma sample_inputs_ok : Forall op_typed sample_inputs.
Proof. unfold sample_inputs. repeat (constructor; [input_ok|]). constructor. Qed.

(** An order is restored, two come to rest, the last trades with both sellers. *)
Lemma engine_speaks_typed_witness :
  let '(e, evs) := engine_run sample_overflow (MatchingEngine_new 16) sample_inputs in
  length evs = 4%nat /\ length (trades_run (MatchingEngine_new 16) sample_inputs) = 2%nat /\
  engine_typed e /\ Forall event_wf evs /\ Forall trade_typed (trades_run (MatchingEngine_new 16) sample_inputs).
Proof.
  pose proof (history_run 16 _ [] [] sample_inputs (history_new sample_overflow 16) sample_inputs_ok) as H.
  pose proof (engine_speaks_typed sample_overflow sample_overflow_typed 16 _ _ _ ltac:(lia) H) as Ht.
  cbn [app] in Ht. assert (length (engine_run sample_overflow (MatchingEngine_new 16) sample_inputs).2 = 4%nat) as Hl
    by (vm_compute; reflexivity).
  destruct (engine_run sample_overflow (MatchingEngine_new 16) sample_inputs) as [e evs].
  split; [exact Hl|]. split; [vm_compute; reflexivity|exact Ht].
Defined.
