(* ===== verification/JournaledEngine.v ===== *)
(** * JournaledEngine: an engine, its journal and a crash

    The parts that a journaled shard is made of, put together: a [MatchingEngine] whose publisher
    hands every event to [Journal::onEvent] (src/MatchingEngine.cpp, src/MarketDataPublisher.cpp,
    src/Journal.cpp), the writer thread of that journal, and [Recovery::replay] of the file as it
    is found after a crash at any moment.

    The engine's thread computes an operation and publishes its events one after the other; what
    it computed cannot be seen by the writer, so the operation is one step and every [onEvent]
    after it steps of its own (those of JournalProps.v), between which the writer runs. *)

From Stdlib Require Import ZArith Lia Bool.
From stdpp Require Import base tactics decidable numbers option relations list.
From S2P Require Import Prelude.
From S2P Require Import Double.
From S2P Require Import Order.
From S2P Require Import OrderBook.
From S2P Require Import BookProps.
From S2P Require Import Events.
From S2P Require Import MatchingEngine.
From S2P Require Import EngineProps.
From S2P Require Import Bytes.
From S2P Require Import Fifo.
From S2P Require Import JournalRing.
From S2P Require Import Journal.
From S2P Require Import JournalProps.
From S2P Require Import Recovery.
From S2P Require Import RecoveryProps.
From S2P Require Import Untimed.
From S2P Require Import Rebuild.

Local Open Scope Z_scope.

(** ** Replaying part of a journal *)

Lemma process_all_prefix rc e rs1 rs2 rc' e' :
  process_all rc e (rs1 ++ rs2) = (rc', e', Ok true) ->
  exists rc1 e1, process_all rc e rs1 = (rc1, e1, Ok true) /\ process_all rc1 e1 rs2 = (rc', e', Ok true).
Proof.
  rewrite process_all_app. destruct (process_all rc e rs1) as [[rc1 e1] [[]|]]; [eauto|done|done].
Qed.

(** The highest priority seen is that of the last NEW_ORDER record. *)
Lemma process_all_max rc e rs rc' e' :
  process_all rc e rs = (rc', e', Ok true) ->
  max_priority_seq_seen_ rc' = default (max_priority_seq_seen_ rc) (last (priorities rs)).
Proof.
  revert rc e. induction rs as [|r rs IH]; intros rc e Hall; [by injection Hall as <- _|].
  cbn [process_all] in Hall. destruct (validateSequence rc _) as [rc1 []] eqn:Hv; [|done]. cbn [negb] in Hall.
  apply validateSequence_true in Hv as [-> _].
  destruct (processRecord _ e r) as [[rc2 e2] [[]|]] eqn:Hp; [|done|done].
  apply processRecord_true in Hp as (_ & _ & _ & _ & Hp). rewrite (IH rc2 e2 Hall).
  unfold priorities. cbn [omap list_omap]. fold (priorities rs).
  destruct (new_priority r) as [p|]; destruct Hp as [_ Hp]; [destruct Hp as [-> _]|by rewrite Hp].
  rewrite last_cons. by destruct (last (priorities rs)).
Qed.

Lemma priorities_range rs : Forall in_u64 (priorities rs).
Proof.
  apply Forall_forall. intros p Hp. unfold priorities in Hp. apply list_elem_of_omap in Hp as (r & _ & Hr).
  unfold new_priority in Hr. destruct (_ =? _); [|done]. injection Hr as <-. apply readU64BE_range.
Qed.

(** A file that ends inside a record, or nowhere. *)
Lemma torn_prefix r partial more : rec_wf r -> rec_bytes r = partial ++ more -> more <> [] -> torn partial.
Proof.
  intros Hr Heq Hmore. unfold torn. rewrite (readRecord_torn r partial more Hr Heq Hmore).
  destruct (_ <? _)%nat; auto.
Qed.

(** Any part of a journal from its beginning: whole records and at most part of one more. *)
Lemma prefix_records rs found :
  Forall rec_wf rs -> found `prefix_of` concat (rec_bytes <$> rs) ->
  exists k tail, (k <= length rs)%nat /\ torn tail /\ found = concat (rec_bytes <$> take k rs) ++ tail /\
    forall w, (w <= length rs)%nat -> concat (rec_bytes <$> take w rs) `prefix_of` found -> (w <= k)%nat.
Proof.
  intros HF. revert found. induction HF as [|r rs Hr HF IH]; intros found [more Hmore].
  { cbn in Hmore. symmetry in Hmore. apply app_nil in Hmore as [-> _]. exists 0%nat, [].
    split; [done|]. split; [by left|]. split; [done|]. intros w Hw _. exact Hw. }
  cbn [fmap list_fmap concat] in Hmore.
  symmetry in Hmore. apply app_eq_inv in Hmore as [(mid & -> & Hmid)|(mid & Hmid & _)].
  - destruct (IH mid) as (k & tail & Hk & Htorn & -> & Hmax); [by exists more|].
    exists (S k), tail. split; [simpl; lia|]. split; [done|]. split; [by cbn [take fmap list_fmap concat]; rewrite <- app_assoc|].
    intros [|w] Hw Hpre; [lia|]. cbn [take fmap list_fmap concat] in Hpre. apply prefix_app_inv in Hpre.
    simpl in Hw. specialize (Hmax w ltac:(lia) Hpre). lia.
  - destruct mid as [|x mid].
    + rewrite app_nil_r in Hmid. subst found.
      destruct (IH []) as (k & tail & Hk & Htorn & Heq & Hmax); [apply prefix_nil|].
      exists (S k), tail. split; [simpl; lia|]. split; [done|]. split; [cbn [take fmap list_fmap concat]; by rewrite <- app_assoc, <- Heq, app_nil_r|].
      intros [|w] Hw Hpre; [lia|]. cbn [take fmap list_fmap concat] in Hpre. simpl in Hw.
      rewrite <- (app_nil_r (rec_bytes r)) in Hpre at 2. apply prefix_app_inv in Hpre.
      specialize (Hmax w ltac:(lia) Hpre). lia.
    + exists 0%nat, found. split; [simpl; lia|]. split; [by eapply torn_prefix|]. split; [done|].
      intros [|w] Hw Hpre; [lia|]. exfalso. cbn [take fmap list_fmap concat] in Hpre. apply prefix_length in Hpre.
      rewrite Hmid, !length_app in Hpre. simpl in Hpre. lia.
Qed.

(** What recovery makes of the records [rs]. *)
Definition recovered_book (capacity : Z) (rs : list Rec) : OrderBook :=
  book_ (process_all Recovery_new (recovering_engine capacity) rs).1.2.

Section Prefix.
Context (ticks_overflow : double -> Z).

(** Any number of whole records of a run, and part of one more, replay. *)
Lemma prefix_replays capacity n0 e evs k tail :
  0 <= capacity -> in_u64 n0 -> journaled_run ticks_overflow capacity n0 e evs ->
  Z.of_nat (length (event_records evs)) <= UINT64_MAX -> torn tail ->
  exists rc e',
    replay (MatchingEngine_new capacity)
      (Some (journal_header ++ concat (rec_bytes <$> take k (event_records evs)) ++ tail)) =
      Some (rc, e', Ok true) /\
    state_ e' = READY /\ book_ e' = recovered_book capacity (take k (event_records evs)).
Proof.
  intros Hcap Hn0 Hrun Hlen Htorn.
  destruct (journaled_run_sim ticks_overflow capacity n0 e evs Hcap Hn0 Hrun)
    as (Hseqs & rc & b & Hp & [Hinv _ _ (n & _ & Hrc) _] & _).
  set (rs := event_records evs) in *. pose proof (event_records_wf evs Hseqs) as Hwf. fold rs in Hwf.
  pose proof (process_all_ordered _ _ _ _ _ Hp) as (_ & _ & _ & _ & _ & Hcount & Hhigh); [done|done|done|simpl; lia|].
  rewrite <- (take_drop k rs) in Hp. apply process_all_prefix in Hp as (rc1 & e1 & Hp1 & _).
  assert (length (take k rs) <= length rs)%nat as Hk by (rewrite length_take; lia).
  pose proof (process_all_ordered _ _ _ _ _ Hp1) as (Hst1 & Hpc1 & _ & _ & _ & Hcount1 & _);
    [by apply Forall_take|done|done|simpl; lia|]. simpl in Hcount, Hcount1.
  assert (new_orders_replayed_ rc1 <> 0 -> 0 <= max_priority_seq_seen_ rc1 < UINT64_MAX) as Hmax.
  { intros Hne. rewrite (process_all_max _ _ _ _ _ Hp1).
    destruct (last (priorities (take k rs))) as [p|] eqn:Hl; [|apply last_None in Hl; rewrite Hl in Hcount1; simpl in Hcount1; lia].
    apply last_Some_elem_of in Hl. simpl. assert (p ∈ priorities rs) as Hin.
    { rewrite <- (take_drop k rs). unfold priorities in *. rewrite omap_app. apply elem_of_app. by left. }
    pose proof (priorities_range rs) as Hr. rewrite Forall_forall in Hr, Hhigh. specialize (Hr p Hin).
    specialize (Hhigh p Hin). unfold_int. destruct Hrc as (_ & _ & _ & Hm). destruct Hinv as (_ & _ & _ & _ & Hpc).
    assert (new_orders_replayed_ rc <> 0) as Hne2 by (rewrite Hcount; destruct (priorities rs); [by apply not_elem_of_nil in Hin|simpl; lia]).
    specialize (Hm Hne2). unfold_int. lia. }
  set (rc2 := note_tail tail rc1).
  destruct (finish_ready rc2 e1) as (e' & Hf & Hb & Hst & _); [by rewrite Hst1|by rewrite Hpc1| | |].
  1,2: assert (new_orders_replayed_ rc2 = new_orders_replayed_ rc1 /\
      max_priority_seq_seen_ rc2 = max_priority_seq_seen_ rc1) as [-> ->]
      by (unfold rc2, note_tail; by destruct (readRecord tail)); intros Hne; specialize (Hmax Hne); lia.
  exists rc2, e'. unfold replay. rewrite (proj2 (readHeader_Some _ _) eq_refl). fold (recovering_engine capacity).
  rewrite replay_loop_records; [|by apply Forall_take|done|rewrite length_app; pose proof (concat_rec_bytes_length (take k rs)); lia].
  unfold recovered_book. rewrite Hp1. fold rc2. rewrite Hf. done.
Qed.
End Prefix.

(** ** The system *)

Section System.
Context {R : Type} `{BoundedFifo R (list Z)}.
Context (ring_takes : forall data : list Z, record_ok data -> fifo_ok data).
Context (ticks_overflow : double -> Z).
Implicit Types (j : Journal R).

(** [ds_pending]: published, [onEvent] not yet called. [ds_events]: published so far. [ds_closed]:
    the destructor of the journal has begun. *)
Record DSystem : Type := Build_DSystem {
  ds_engine : MatchingEngine;
  ds_journal : JSystem (R := R);
  ds_pending : list MarketEvent;
  ds_events : list MarketEvent;
  ds_closed : bool
}.

(** An operation asks for the journal's health when it begins. *)
Definition op_sees (healthy : bool) (op : engine_op) : Prop :=
  match op with
  | OpProcess _ _ jh _ | OpCancel _ jh _ | OpReplace _ _ _ jh _ _ _ => jh = healthy
  | _ => True
  end.

(** Steps of the writer and of other callers of the journal. *)
Inductive background : JSystem (R := R) -> JSystem (R := R) -> Prop :=
| bg_writer j ph acc written synced j' :
    writer_turn j written synced = Some j' ->
    background (Build_JSystem j ph acc) (Build_JSystem j' ph acc)
| bg_policy j ph acc policy n :
    background (Build_JSystem j ph acc) (Build_JSystem (setSyncPolicy j policy n) ph acc)
| bg_sync j ph acc flushed synced :
    background (Build_JSystem j ph acc) (Build_JSystem (journal_sync j flushed synced).1 ph acc).

Inductive dstep : DSystem -> DSystem -> Prop :=
| d_op e j acc evs op :
    op_sees (healthy_ j) op -> op_journaled ticks_overflow e op ->
    dstep (Build_DSystem e (Build_JSystem j Idle acc) [] evs false)
      (Build_DSystem (engine_step ticks_overflow e op).1 (Build_JSystem j Idle acc)
         (engine_step ticks_overflow e op).2 (evs ++ (engine_step ticks_overflow e op).2) false)
| d_skip e j acc ev pending evs :
    event_payload ev = None ->
    dstep (Build_DSystem e (Build_JSystem j Idle acc) (ev :: pending) evs false)
      (Build_DSystem e (Build_JSystem j Idle acc) pending evs false)
| d_check e j acc ev pending evs data :
    encode ev = Some data ->
    dstep (Build_DSystem e (Build_JSystem j Idle acc) (ev :: pending) evs false)
      (Build_DSystem e (Build_JSystem (enqueue_check j data).1
         (if (enqueue_check j data).2 then Checked data else Idle) acc) pending evs false)
| d_push e j acc data pending evs :
    dstep (Build_DSystem e (Build_JSystem j (Checked data) acc) pending evs false)
      (Build_DSystem e (Build_JSystem (enqueue_push j data).1
         (if (enqueue_push j data).2 then Pushed else Idle)
         (if (enqueue_push j data).2 then acc ++ [data] else acc)) pending evs false)
| d_count e j acc pending evs :
    dstep (Build_DSystem e (Build_JSystem j Pushed acc) pending evs false)
      (Build_DSystem e (Build_JSystem (enqueue_count j) Idle acc) pending evs false)
| d_background e js js' pending evs closed :
    background js js' ->
    dstep (Build_DSystem e js pending evs closed) (Build_DSystem e js' pending evs closed)
| d_stop e j acc evs closed :
    dstep (Build_DSystem e (Build_JSystem j Idle acc) [] evs closed)
      (Build_DSystem e (Build_JSystem (request_stop j) Idle acc) [] evs true)
| d_close e j acc evs :
    writer_alive j = false ->
    dstep (Build_DSystem e (Build_JSystem j Idle acc) [] evs true)
      (Build_DSystem e (Build_JSystem (close_file j) Idle acc) [] evs true).

(** A new engine with a journal on a new file. *)
Definition ds_fresh (pool n0 : Z) (j : Journal R) : DSystem :=
  Build_DSystem (journaling_engine pool n0) (Build_JSystem j Idle []) [] [] false.

(** The engine's thread is between two operations. *)
Definition settled (s : DSystem) : Prop := ds_pending s = [] /\ js_phase (ds_journal s) = Idle.

(** ** The invariant *)

Definition in_check (ph : phase) : list (list Z) := match ph with Checked d => [d] | _ => [] end.

(** The records of the published events: in the ring or the file, in the producer's hands, lost
    (then the journal is unhealthy), not yet handed over. *)
Definition accounted (s : DSystem) : Prop :=
  exists lost,
    omap encode (ds_events s) =
      js_accepted (ds_journal s) ++ in_check (js_phase (ds_journal s)) ++ lost ++ omap encode (ds_pending s) /\
    (lost <> [] -> healthy_ (js_journal (ds_journal s)) = false /\ in_check (js_phase (ds_journal s)) = []).

Record dinv (pool n0 : Z) (s : DSystem) : Prop := {
  dinv_journal : jinv journal_header (ds_journal s);
  dinv_run : journaled_run ticks_overflow pool n0 (ds_engine s) (ds_events s);
  dinv_accounted : accounted s;
  dinv_closed : ds_closed s = true -> settled s;
  dinv_running : ds_closed s = false -> running_ (js_journal (ds_journal s)) = false ->
    healthy_ (js_journal (ds_journal s)) = false
}.

Lemma writer_turn_flags j written synced j' :
  writer_turn j written synced = Some j' ->
  (healthy_ j' = healthy_ j /\ running_ j' = running_ j) \/ healthy_ j' = false.
Proof.
  unfold writer_turn, writeSerialized. intros Ht.
  repeat case_match; simplify_eq/=; auto.
Qed.

Lemma background_jstep js js' : background js js' -> jstep js js'.
Proof. destruct 1; [by eapply j_writer|apply j_policy|apply j_sync]. Qed.

(** Once unhealthy, for ever. *)
Lemma background_keeps js js' :
  background js js' ->
  js_phase js' = js_phase js /\ js_accepted js' = js_accepted js /\
  (healthy_ (js_journal js) = false -> healthy_ (js_journal js') = false) /\
  ((running_ (js_journal js) = false -> healthy_ (js_journal js) = false) ->
   running_ (js_journal js') = false -> healthy_ (js_journal js') = false).
Proof.
  destruct 1 as [j ph acc written synced j' Ht|j ph acc policy n|j ph acc flushed synced]; simpl.
  - apply writer_turn_flags in Ht as [[-> ->]| ->]; auto.
  - auto.
  - unfold journal_sync. destruct flushed, (fd_open j), synced; simpl; auto.
Qed.

Lemma dstep_journal s s' : dstep s s' -> ds_journal s' = ds_journal s \/ jstep (ds_journal s) (ds_journal s').
Proof.
  destruct 1; simpl; (by left) || right.
  - by eapply j_check.
  - apply j_push.
  - apply j_count.
  - by apply background_jstep.
  - apply j_stop.
  - by apply j_close.
Qed.

Lemma enqueue_check_ok j ev data : encode ev = Some data -> enqueue_check j data = (j, healthy_ j && running_ j).
Proof.
  intros [_ Hr]%encode_valid. unfold enqueue_check, record_ok in *.
  destruct (Z.eqb_spec (Z.of_nat (length data)) 0); [lia|].
  by rewrite (proj2 (Z.ltb_ge _ _)) by lia.
Qed.

Lemma enqueue_push_flags j data :
  if (enqueue_push j data).2
  then healthy_ (enqueue_push j data).1 = healthy_ j /\ running_ (enqueue_push j data).1 = running_ j
  else healthy_ (enqueue_push j data).1 = false.
Proof. unfold enqueue_push. by destruct (fifo_push (ring_ j) data) as [r []]. Qed.

Lemma accounted_check e j acc ev pending evs data :
  encode ev = Some data -> (running_ j = false -> healthy_ j = false) ->
  accounted (Build_DSystem e (Build_JSystem j Idle acc) (ev :: pending) evs false) ->
  accounted (Build_DSystem e (Build_JSystem (enqueue_check j data).1
    (if (enqueue_check j data).2 then Checked data else Idle) acc) pending evs false).
Proof.
  intros Henc Hr (lost & Heq & Hlost). rewrite (enqueue_check_ok j ev data Henc). unfold accounted in *. simpl in *.
  rewrite Heq, Henc. destruct (healthy_ j) eqn:Hh; simpl.
  - assert (lost = []) as -> by (destruct lost; [done|by destruct Hlost]).
    destruct (running_ j); [|by specialize (Hr eq_refl)]. by exists [].
  - exists (lost ++ [data]). split; [by rewrite <- !app_assoc|done].
Qed.

Lemma accounted_push e j acc data pending evs :
  accounted (Build_DSystem e (Build_JSystem j (Checked data) acc) pending evs false) ->
  accounted (Build_DSystem e (Build_JSystem (enqueue_push j data).1
    (if (enqueue_push j data).2 then Pushed else Idle)
    (if (enqueue_push j data).2 then acc ++ [data] else acc)) pending evs false).
Proof.
  intros (lost & Heq & Hlost). unfold accounted in *. simpl in *. pose proof (enqueue_push_flags j data) as Hf.
  assert (lost = []) as -> by (destruct lost; [done|by destruct Hlost]). rewrite Heq.
  destruct (enqueue_push j data).2; simpl.
  - exists []. by rewrite <- app_assoc.
  - by exists [data].
Qed.

Lemma accounted_background e js js' pending evs closed :
  background js js' -> accounted (Build_DSystem e js pending evs closed) ->
  accounted (Build_DSystem e js' pending evs closed).
Proof.
  intros (Hp & Ha & Hh & _)%background_keeps (lost & Heq & Hlost). exists lost. cbn in *.
  rewrite Ha, Hp. split; [done|]. intros Hne. destruct (Hlost Hne). auto.
Qed.

Lemma dinv_step pool n0 s s' : dinv pool n0 s -> dstep s s' -> dinv pool n0 s'.
Proof.
  intros [Hj Hrun Hacc Hcl Hr] Hstep.
  assert (jinv journal_header (ds_journal s')) as Hj'.
  { destruct (dstep_journal _ _ Hstep) as [->|Hjs]; [done|]. by eapply jinv_step. }
  destruct Hstep as [e j acc evs op Hsee Hop|e j acc ev pending evs Hnone|e j acc ev pending evs data Henc
    |e j acc data pending evs|e j acc pending evs|e js js' pending evs closed Hbg|e j acc evs closed|e j acc evs Hdead];
    cbn in *; (split; [exact Hj'|cbn..]); try done.
  - by apply journaled_op.
  - destruct Hacc as (lost & Heq & Hlost). exists lost. cbn in *. by rewrite omap_app, Heq, !app_nil_r, <- app_assoc.
  - destruct Hacc as (lost & Heq & Hlost). exists lost. cbn in *. split; [|done]. rewrite Heq.
    unfold encode. by rewrite Hnone.
  - eapply accounted_check; eauto.
  - by rewrite (enqueue_check_ok j ev data Henc).
  - by apply accounted_push.
  - intros _. pose proof (enqueue_push_flags j data) as Hf. destruct (enqueue_push j data).2; [|done].
    destruct Hf as [-> ->]. auto.
  - by eapply accounted_background.
  - intros Hc. apply background_keeps in Hbg as (Hp & _). destruct (Hcl Hc) as [H1 H2]. split; cbn in *; congruence.
  - intros Hc. apply background_keeps in Hbg as (_ & _ & _ & Hk). auto.
Qed.

Lemma dinv_fresh pool n0 os r qcap j :
  fifo_wf r -> fifo_contents r = [] -> (Journal_open os (Ok r) qcap []).2 = Ok j -> dinv pool n0 (ds_fresh pool n0 j).
Proof.
  intros Hr Hc Ho. split; cbn; try done.
  - by apply (journal_open_inv os r [] qcap).
  - constructor.
  - by exists [].
  - intros _. destruct (Journal_open os (Ok r) qcap []) as [f res] eqn:Hopen. cbn in Ho. subst res.
    by apply Journal_open_Ok in Hopen as (_ & -> & _).
Qed.

Lemma dinv_steps pool n0 s s' : dinv pool n0 s -> rtc dstep s s' -> dinv pool n0 s'.
Proof. intros Hinv Hs. induction Hs; [done|]. eauto using dinv_step. Qed.

(** ** What steps leave alone *)

Lemma dstep_grows s s' :
  dstep s s' ->
  ds_events s `prefix_of` ds_events s' /\ js_accepted (ds_journal s) `prefix_of` js_accepted (ds_journal s') /\
  (healthy_ (js_journal (ds_journal s)) = false -> healthy_ (js_journal (ds_journal s')) = false).
Proof.
  intros Hstep. split; [destruct Hstep; cbn; try done; by eexists|]. split.
  - destruct (dstep_journal _ _ Hstep) as [->|Hjs]; [done|by apply jstep_accepted].
  - destruct Hstep; cbn; try done.
    + by rewrite (enqueue_check_ok _ ev data) by done.
    + pose proof (enqueue_push_flags j data) as Hf. destruct (enqueue_push j data).2; [|done]. by destruct Hf as [-> _].
    + by apply background_keeps in H0 as (_ & _ & Hh & _).
Qed.

Lemma dsteps_grow s s' :
  rtc dstep s s' ->
  ds_events s `prefix_of` ds_events s' /\ js_accepted (ds_journal s) `prefix_of` js_accepted (ds_journal s') /\
  (healthy_ (js_journal (ds_journal s)) = false -> healthy_ (js_journal (ds_journal s')) = false).
Proof.
  induction 1 as [|s1 s2 s3 Hst _ (H1 & H2 & H3)]; [done|]. apply dstep_grows in Hst as (H4 & H5 & H6).
  split; [by etrans|]. split; [by etrans|]. auto.
Qed.

(** ** The file *)

Definition records (s : DSystem) : list Rec := event_records (ds_events s).

Lemma records_wf pool n0 s :
  0 <= pool -> in_u64 n0 -> dinv pool n0 s -> Forall rec_wf (records s).
Proof.
  intros Hp Hn Hinv. apply event_records_wf.
  by destruct (journaled_run_sim ticks_overflow pool n0 _ _ Hp Hn (dinv_run _ _ _ Hinv)) as [Hs _].
Qed.

(** What the ring took is a prefix of the records. *)
Lemma accepted_records pool n0 s :
  dinv pool n0 s ->
  js_accepted (ds_journal s) = rec_bytes <$> take (length (js_accepted (ds_journal s))) (records s) /\
  (length (js_accepted (ds_journal s)) <= length (records s))%nat.
Proof.
  intros Hinv. destruct (dinv_accounted _ _ _ Hinv) as (lost & Heq & _). rewrite encode_records in Heq.
  fold (records s) in Heq. split.
  - rewrite fmap_take, Heq. by rewrite take_app_length.
  - apply (f_equal length) in Heq. rewrite length_fmap, length_app in Heq. lia.
Qed.

(** Nothing is lost between two operations of a healthy journal's engine. *)
Lemma settled_records pool n0 s :
  dinv pool n0 s -> settled s -> healthy_ (js_journal (ds_journal s)) = true ->
  js_accepted (ds_journal s) = rec_bytes <$> records s.
Proof.
  intros Hinv [Hpend Hidle] Hh. destruct (dinv_accounted _ _ _ Hinv) as (lost & Heq & Hlost).
  rewrite encode_records, Hpend, Hidle in Heq. cbn in Heq.
  assert (lost = []) as -> by (destruct lost; [done|destruct Hlost; [done|congruence]]).
  by rewrite !app_nil_r in Heq.
Qed.

(** At any moment the file is a part, from the beginning, of the journal of all records: what the
    writer counts as written, and what a failed write left. *)
Lemma file_records pool n0 s :
  0 <= pool -> in_u64 n0 -> dinv pool n0 s ->
  file (js_journal (ds_journal s)) `prefix_of` journal_header ++ concat (rec_bytes <$> records s) /\
  exists w partial,
    written_inv journal_header (js_journal (ds_journal s)) (js_accepted (ds_journal s)) w partial /\
    (w <= length (records s))%nat /\
    journal_header ++ concat (rec_bytes <$> take w (records s)) `prefix_of` file (js_journal (ds_journal s)).
Proof.
  intros Hp Hn Hinv. destruct (accepted_records _ _ _ Hinv) as [Hacc Hlen].
  destruct (dinv_journal _ _ _ Hinv) as (_ & _ & _ & _ & _ & w & partial & Hw).
  pose proof Hw as (Hwl & _ & Hfile & Hrest).
  set (acc := js_accepted (ds_journal s)) in *.
  assert (take w acc = rec_bytes <$> take w (records s)) as Htake.
  { rewrite Hacc, <- fmap_take, take_take, Nat.min_l by lia. done. }
  assert (take w acc ++ drop w acc `prefix_of` rec_bytes <$> records s) as [more Hmore].
  { rewrite take_drop, Hacc, fmap_take. apply prefix_take. }
  split.
  - rewrite Hfile. apply prefix_app. rewrite Hmore, !concat_app, <- app_assoc. apply prefix_app.
    assert (partial = [] \/ exists d, acc !! w = Some d /\ partial `prefix_of` d) as [-> |(d & Hd & Hpre)].
    { destruct (writer_alive _); [left; by destruct Hrest|].
      destruct Hrest as [_ [[-> _]|(_ & d & Hd & Hpre & _)]]; [by left|right; eauto]. }
    + apply prefix_nil.
    + rewrite (drop_S _ d) by done. cbn [concat]. rewrite <- app_assoc. by apply prefix_app_r.
  - exists w, partial. split; [done|]. split; [lia|]. rewrite Hfile, <- Htake. apply prefix_app, prefix_app_r. done.
Qed.

(** An event handed to a healthy journal whose ring has room: what [journal_onEvent] does. *)
Lemma dsteps_event e j acc ev pending evs data :
  encode ev = Some data -> healthy_ j && running_ j = true -> (enqueue_push j data).2 = true ->
  rtc dstep (Build_DSystem e (Build_JSystem j Idle acc) (ev :: pending) evs false)
    (Build_DSystem e (Build_JSystem (journal_onEvent j ev) Idle (acc ++ [data])) pending evs false).
Proof.
  intros Henc Hgo Hpush.
  assert (journal_onEvent j ev = enqueue_count (enqueue_push j data).1) as ->.
  { unfold journal_onEvent, enqueueSerialized. rewrite Henc, (enqueue_check_ok j ev data), Hgo by done. cbn [negb].
    unfold encode in Henc. destruct (event_payload ev) as [p|]; [|done].
    destruct (enqueue_push j data) as [j1 taken]. simpl in Hpush. by subst. }
  eapply rtc_l; [by apply d_check|]. rewrite (enqueue_check_ok j ev data Henc), Hgo. cbn [fst snd].
  eapply rtc_l; [apply d_push|]. rewrite Hpush. apply rtc_once, d_count.
Qed.

(** ** Properties *)

Context (r : R) (ring_wf : fifo_wf r) (ring_empty : fifo_contents r = []).
Context (pool n0 qcap : Z) (Hpool : 0 <= pool) (Hn0 : in_u64 n0).
Context (os : OpenAnswers) (j : Journal R) (Hopen : (Journal_open os (Ok r) qcap []).2 = Ok j).

Lemma dinv_reachable s : rtc dstep (ds_fresh pool n0 j) s -> dinv pool n0 s.
Proof. intros Hs. eapply dinv_steps; [by eapply dinv_fresh|done]. Qed.

Lemma records_prefix s s' : rtc dstep s s' -> records s `prefix_of` records s'.
Proof.
  intros (Hp & _ & _)%dsteps_grow. destruct Hp as [more Hmore]. unfold records. rewrite Hmore.
  unfold event_records. rewrite omap_app. by eexists.
Qed.

(** The book recovered from all records of a state is the engine's. *)
Lemma recovered_all s : dinv pool n0 s -> recovered_book pool (records s) ≡ book_ (ds_engine s).
Proof.
  intros Hinv. destruct (journaled_run_sim ticks_overflow pool n0 _ _ Hpool Hn0 (dinv_run _ _ _ Hinv))
    as (_ & rc & b & Hp & [_ _ _ _ Hb] & _). unfold recovered_book, records. rewrite Hp. simpl. by symmetry.
Qed.

(** What a [flush] that answers true has seen written. *)
Lemma flushed_records s0 s1 :
  rtc dstep (ds_fresh pool n0 j) s0 -> rtc dstep s0 s1 -> Z.of_nat (length (records s1)) <= UINT64_MAX ->
  settled s0 -> flush_answer (flush_target (js_journal (ds_journal s0))) (js_journal (ds_journal s1)) = true ->
  exists w, (length (records s0) <= w)%nat /\ (w <= length (records s1))%nat /\
    journal_header ++ concat (rec_bytes <$> take w (records s1)) `prefix_of` file (js_journal (ds_journal s1)).
Proof.
  intros Hs0 Hss Hlen Hset Hflush. pose proof (dinv_reachable s0 Hs0) as Hinv0.
  pose proof (dinv_steps pool n0 s0 s1 Hinv0 Hss) as Hinv1.
  destruct (file_records pool n0 s1 Hpool Hn0 Hinv1) as (_ & w & partial & Hw & Hwl & Hpre).
  destruct (dsteps_grow s0 s1 Hss) as (_ & Hacc & Hheal).
  assert (healthy_ (js_journal (ds_journal s0)) = true) as Hh0.
  { destruct (healthy_ (js_journal (ds_journal s0))); [done|]. unfold flush_answer in Hflush.
    by rewrite Hheal in Hflush. }
  destruct (accepted_records _ _ _ Hinv1) as [_ Hal].
  destruct (flush_written [] _ (ds_journal s1) w partial (dinv_journal _ _ _ Hinv0) Hacc
    ltac:(lia) Hw Hflush) as [Hc _].
  exists w. split; [|done]. unfold counted in Hc. destruct Hset as [Hpend Hidle]. rewrite Hidle in Hc.
  rewrite (settled_records pool n0 s0 Hinv0) in Hc by done. rewrite length_fmap in Hc. lia.
Qed.

(** What replays of a part of the file that has the header. *)
Lemma crash_with_header s found :
  rtc dstep (ds_fresh pool n0 j) s -> Z.of_nat (length (records s)) <= UINT64_MAX ->
  found `prefix_of` file (js_journal (ds_journal s)) -> journal_header `prefix_of` found ->
  exists k rc e',
    replay (MatchingEngine_new pool) (Some found) = Some (rc, e', Ok true) /\
    state_ e' = READY /\ (k <= length (records s))%nat /\
    (forall s0, rtc dstep (ds_fresh pool n0 j) s0 -> rtc dstep s0 s -> length (records s0) = k ->
       book_ e' ≡ book_ (ds_engine s0)) /\
    (forall s0 s1, rtc dstep (ds_fresh pool n0 j) s0 -> rtc dstep s0 s1 -> rtc dstep s1 s -> settled s0 ->
       flush_answer (flush_target (js_journal (ds_journal s0))) (js_journal (ds_journal s1)) = true ->
       file (js_journal (ds_journal s1)) `prefix_of` found ->
       (length (records s0) <= k)%nat).
Proof.
  intros Hs Hlen Hfound [body ->]. pose proof (dinv_reachable s Hs) as Hinv.
  destruct (file_records pool n0 s Hpool Hn0 Hinv) as [Hfile _].
  pose proof (transitivity Hfound Hfile) as Hbody. apply prefix_app_inv in Hbody.
  destruct (prefix_records _ _ (records_wf _ _ _ Hpool Hn0 Hinv) Hbody) as (k & tail & Hk & Htorn & -> & Hmax).
  destruct (prefix_replays ticks_overflow pool n0 _ _ k tail Hpool Hn0 (dinv_run _ _ _ Hinv) Hlen Htorn)
    as (rc & e' & Hre & Hst & Hb).
  exists k, rc, e'. split; [exact Hre|]. split; [done|]. split; [lia|]. split.
  - intros s0 Hs0 Hss Hk0. pose proof (dinv_reachable s0 Hs0) as Hinv0.
    rewrite Hb, <- (recovered_all s0 Hinv0). fold (records s).
    destruct (records_prefix s0 s Hss) as [more Hmore]. rewrite Hmore, <- Hk0, take_app_length. done.
  - intros s0 s1 Hs0 Hs01 Hs1s Hset Hflush Hdisk.
    destruct (flushed_records s0 s1 Hs0 Hs01) as (w & Hw & Hwl & Hwf); [|done|done|].
    { etrans; [|exact Hlen]. destruct (records_prefix s1 s Hs1s) as [more ->]. rewrite length_app. lia. }
    etrans; [exact Hw|]. destruct (records_prefix s1 s Hs1s) as [more Hmore]. apply Hmax.
    + rewrite Hmore, length_app. lia.
    + rewrite Hmore in Hdisk |- *. rewrite take_app_le by done. apply (prefix_app_inv journal_header).
      etrans; [exact Hwf|exact Hdisk].
Qed.

(** A file without the whole header. *)
Lemma headless_halts found :
  ~ journal_header `prefix_of` found ->
  exists rc e', replay (MatchingEngine_new pool) (Some found) = Some (rc, e', Ok false) /\ state_ e' = HALTED.
Proof.
  intros Hno. unfold replay. destruct (readHeader found) as [body|] eqn:Hh; [|eauto].
  apply readHeader_Some in Hh as ->. destruct Hno. by eexists.
Qed.

(** C6: a crash costs only the operations that no [flush] has confirmed, for the runs that a
    journal can express (the operations of [op_journaled], as in [recovery_rebuilds_book]; without
    them replay can halt, [amendment_breaks_recovery]), up to 2^64 - 1 records. At every moment of
    every interleaving of the engine's thread, the journal's writer and the callers of [sync], on
    a new file, with writes failing anywhere, let [found] be what is left of the file: all of it
    when the process dies, any part from the beginning when the machine does. If [found] has the
    whole header, it replays: the new engine is READY and its book is the book after the first
    [k] journaled events; whenever the engine had published exactly those events, that was its
    book ([≡]: up to the timestamps of its orders, the trade counter and the self-trade policy); and
    [k] covers every operation that had returned before a [flush] that answered true over a file
    that [found] still contains, as it does when [sync] has put it on the disk or the process alone
    died. If part of the header is missing, replay answers false and halts the new engine, and
    there was no such [flush]: nothing that was confirmed is lost. *)
Theorem crash_recovers s found :
  rtc dstep (ds_fresh pool n0 j) s -> Z.of_nat (length (records s)) <= UINT64_MAX ->
  found `prefix_of` file (js_journal (ds_journal s)) ->
  (journal_header `prefix_of` found ->
   exists k rc e',
    replay (MatchingEngine_new pool) (Some found) = Some (rc, e', Ok true) /\
    state_ e' = READY /\ (k <= length (records s))%nat /\
    (forall s0, rtc dstep (ds_fresh pool n0 j) s0 -> rtc dstep s0 s -> length (records s0) = k ->
       book_ e' ≡ book_ (ds_engine s0)) /\
    (forall s0 s1, rtc dstep (ds_fresh pool n0 j) s0 -> rtc dstep s0 s1 -> rtc dstep s1 s -> settled s0 ->
       flush_answer (flush_target (js_journal (ds_journal s0))) (js_journal (ds_journal s1)) = true ->
       file (js_journal (ds_journal s1)) `prefix_of` found ->
       (length (records s0) <= k)%nat)) /\
  (~ journal_header `prefix_of` found ->
   (exists rc e', replay (MatchingEngine_new pool) (Some found) = Some (rc, e', Ok false) /\ state_ e' = HALTED) /\
   forall s1, rtc dstep (ds_fresh pool n0 j) s1 -> rtc dstep s1 s ->
     ~ file (js_journal (ds_journal s1)) `prefix_of` found).
Proof.
  intros Hs Hlen Hfound. split; [by apply crash_with_header|]. intros Hno. split; [by apply headless_halts|].
  intros s1 Hs1 _ Hin. apply Hno. etrans; [|exact Hin].
  destruct (file_records pool n0 s1 Hpool Hn0 (dinv_reachable s1 Hs1)) as (_ & w & partial & _ & _ & Hpre).
  etrans; [|exact Hpre]. by eexists.
Qed.

(** C10: a clean shutdown costs nothing, for the runs that a journal can express (the operations
    of [op_journaled], as in [recovery_rebuilds_book]; [amendment_breaks_recovery] is a run that is
    not one), on a new file and up to 2^64 - 1 records. When the engine's last operation has
    returned and its journal is healthy, with its writer running, the destructor of the journal
    leaves, once its writer has drained the ring, every write succeeding, a file that replays to a
    READY engine with the engine's book ([≡]: up to the timestamps of its orders, the trade counter
    and the self-trade policy). *)
Theorem shutdown_recovers s :
  rtc dstep (ds_fresh pool n0 j) s -> Z.of_nat (length (records s)) <= UINT64_MAX ->
  settled s -> healthy_ (js_journal (ds_journal s)) = true -> writer_alive (js_journal (ds_journal s)) = true ->
  let stopping := request_stop (js_journal (ds_journal s)) in
  let stopped := writer_turns (S (length (fifo_contents (ring_ stopping)))) stopping in
  writer_alive stopped = false /\
  exists rc e',
    replay (MatchingEngine_new pool) (Some (file stopped)) = Some (rc, e', Ok true) /\
    state_ e' = READY /\ book_ e' ≡ book_ (ds_engine s).
Proof.
  intros Hs Hlen Hset Hh Halive stopping stopped. pose proof (dinv_reachable s Hs) as Hinv.
  destruct (stop_drained journal_header (ds_journal s) (dinv_journal _ _ _ Hinv) Halive) as (Hd & _ & Hf).
  split; [exact Hd|]. fold stopping in Hf. fold stopped in Hf. rewrite Hf, (settled_records pool n0 s Hinv Hset Hh).
  assert (torn []) as Hnil by (by left).
  destruct (prefix_replays ticks_overflow pool n0 _ _ (length (records s)) [] Hpool Hn0 (dinv_run _ _ _ Hinv) Hlen Hnil)
    as (rc & e' & Hre & Hst & Hb).
  fold (records s) in Hre, Hb. rewrite firstn_all, app_nil_r in Hre. rewrite firstn_all in Hb.
  exists rc, e'. split; [exact Hre|]. split; [done|]. rewrite Hb. by apply recovered_all.
Qed.
End System.

(** ** A sample run: an order rests, its record is queued and then written *)

Definition sample_start : DSystem :=
  ds_fresh 16 1 sample_journal.

Definition sample_op : engine_op := OpProcess sample_clock 1000 true (sample_order 1 2 SELL LIMIT 100 7).

Definition sample_wired : MatchingEngine :=
  (engine_step sample_overflow (journaling_engine 16 1) (OpSetJournal true)).1.

Definition sample_resting : MatchingEngine := (engine_step sample_overflow sample_wired sample_op).1.

Definition sample_event : MarketEvent :=
  default sample_accepted (head (engine_step sample_overflow sample_wired sample_op).2).

Definition sample_returned : DSystem :=
  Build_DSystem sample_resting
    (Build_JSystem (journal_onEvent sample_journal sample_event) Idle [default [] (encode sample_event)])
    [] [sample_event] false.

Definition sample_on_disk : DSystem :=
  Build_DSystem sample_resting
    (Build_JSystem
       (default sample_journal (writer_turn (journal_onEvent sample_journal sample_event) None true)) Idle
       [default [] (encode sample_event)])
    [] [sample_event] false.

Lemma sample_returned_reachable : rtc (dstep sample_overflow) sample_start sample_returned.
Proof.
  eapply rtc_l; [apply (d_op sample_overflow _ _ [] [] (OpSetJournal true)); [exact I|]|].
  { split; [exact I|counters_ok]. }
  assert ((engine_step sample_overflow (journaling_engine 16 1) (OpSetJournal true)).2 = []) as -> by (vm_compute; reflexivity).
  fold sample_wired. eapply rtc_l; [apply (d_op sample_overflow _ _ [] [] sample_op); [vm_compute; reflexivity|]|].
  { unfold sample_op. process_ok. }
  assert ((engine_step sample_overflow sample_wired sample_op).2 = [sample_event]) as -> by (vm_compute; reflexivity).
  apply (dsteps_event sample_overflow sample_resting sample_journal [] sample_event); vm_compute; reflexivity.
Qed.

Lemma sample_on_disk_step : dstep sample_overflow sample_returned sample_on_disk.
Proof. apply d_background, (bg_writer _ _ _ None true). vm_compute. reflexivity. Qed.

Lemma crash_recovers_witness :
  settled sample_returned /\
  flush_answer (flush_target (js_journal (ds_journal sample_returned))) (js_journal (ds_journal sample_on_disk)) = true /\
  exists k rc e',
    replay (MatchingEngine_new 16) (Some (file (js_journal (ds_journal sample_on_disk)))) = Some (rc, e', Ok true) /\
    state_ e' = READY /\ k = 1%nat /\ book_ e' ≡ book_ sample_resting.
Proof.
  split; [by split|]. split; [vm_compute; reflexivity|]. destruct sample_ring_ok as [Hw Hc].
  pose proof sample_returned_reachable as H0.
  assert (rtc (dstep sample_overflow) sample_returned sample_on_disk) as H1 by (apply rtc_once, sample_on_disk_step).
  assert (rtc (dstep sample_overflow) sample_start sample_on_disk) as Hs by (by etrans).
  destruct (crash_recovers journal_ring_takes sample_overflow sample_ring Hw Hc 16 1 2 ltac:(lia) ltac:(by split)
    no_failures sample_journal eq_refl sample_on_disk (file (js_journal (ds_journal sample_on_disk))) Hs
    ltac:(vm_compute; discriminate) ltac:(reflexivity)) as [Hfull _].
  destruct (Hfull ltac:(eexists; vm_compute; reflexivity))
    as (k & rc & e' & Hre & Hst & Hk & Hbook & Hflush).
  assert (k = 1%nat) as ->.
  { specialize (Hflush sample_returned sample_on_disk H0 H1 ltac:(reflexivity) ltac:(by split)
      ltac:(vm_compute; reflexivity) ltac:(reflexivity)). vm_compute in Hk, Hflush. lia. }
  exists 1%nat, rc, e'. split; [exact Hre|]. split; [exact Hst|]. split; [reflexivity|].
  apply (Hbook sample_returned H0 H1). vm_compute. reflexivity.
Defined.

Lemma shutdown_recovers_witness :
  let stopped := writer_turns 2 (request_stop (js_journal (ds_journal sample_returned))) in
  writer_alive stopped = false /\
  exists rc e',
    replay (MatchingEngine_new 16) (Some (file stopped)) = Some (rc, e', Ok true) /\
    state_ e' = READY /\ book_ e' ≡ book_ sample_resting.
Proof.
  destruct sample_ring_ok as [Hw Hc].
  apply (shutdown_recovers journal_ring_takes sample_overflow sample_ring Hw Hc 16 1 2 ltac:(lia) ltac:(by split)
    no_failures sample_journal eq_refl sample_returned sample_returned_reachable ltac:(vm_compute; discriminate));
    [by split|vm_compute; reflexivity|vm_compute; reflexivity].
Defined.

(** ** The records of one operation are not one *)

(** A replacement publishes a cancellation and an acceptance. A crash between the two records
    leaves a journal that replays, to a book without the order. *)
Theorem torn_replace_loses_order :
  let '(e1, evs) := engine_run sample_overflow sample_wired
    [sample_op; OpReplace sample_clock 60 1002 true 1 (d_of_Z 102) 5] in
  getOrderCount (book_ e1) = 1%nat /\ length evs = 3%nat /\
  match replay (MatchingEngine_new 16) (Some (journal_header ++ concat (omap encode (take 2 evs)))) with
  | Some (_, e', answer) => answer = Ok true /\ state_ e' = READY /\ getOrderCount (book_ e') = 0%nat
  | None => False
  end.
Proof. vm_compute. auto. Qed.
