(* ===== verification/Console.v ===== *)
(** * Console: what the program prints

    [Order::to_string] (include/Order.h), [Trade::to_string] (include/Trade.h),
    [OrderBook::printBook] (src/OrderBook.cpp) and the demonstration program [main]
    (src/main.cpp). Standard output is a string.

    Of the C++ library: [std::to_string] of a [double] is [printf]'s "%f", and an [ostream]'s
    [<<] of one is "%g"; both take the decimal nearest to the exact value of the double, ties to
    even. An integer is printed by stdpp's [pretty]. *)

From Stdlib Require Import ZArith Lia Bool Ascii.
From Stdlib Require Import SpecFloat.
From stdpp Require Import base tactics decidable numbers option strings pretty list.
From S2P Require Import Prelude.
From S2P Require Import Double.
From S2P Require Import Order.
From S2P Require Import OrderBook.
From S2P Require Import BookLevels.
From S2P Require Import BookInv.
From S2P Require Import BookProps.
From S2P Require Import MatchingEngine.

Local Open Scope Z_scope.

(** ** Numbers *)

Definition newline : string := String "010"%char "".

(** [n / d] to the nearest integer, ties to even. *)
Definition rounded_div (n d : Z) : Z :=
  let q := n / d in
  match 2 * (n mod d) ?= d with
  | Lt => q
  | Gt => q + 1
  | Eq => if Z.even q then q else q + 1
  end.

(** The exact value [m * 2^e] as a fraction. *)
Definition d_ratio (m : positive) (e : Z) : Z * Z :=
  if 0 <=? e then (Z.pos m * 2 ^ e, 1) else (Z.pos m, 2 ^ (- e)).

(** [m * 2^e * 10^k], rounded. *)
Definition scaled (m : positive) (e k : Z) : Z :=
  let '(n, d) := d_ratio m e in rounded_div (n * 10 ^ Z.max k 0) (d * 10 ^ Z.max (- k) 0).

Definition digit (z : Z) : ascii := pretty_N_char (Z.to_N (z mod 10)).

(** The last [w] decimal digits. *)
Fixpoint digits (w : nat) (z : Z) : string :=
  match w with O => "" | S w => digits w (z / 10) +:+ String (digit z) "" end.

(** [z / 10^w] with [w] decimals. *)
Definition decimal (w : nat) (z : Z) : string :=
  pretty (z / 10 ^ Z.of_nat w) +:+ match w with O => "" | _ => "." +:+ digits w z end.

Definition sign (s : bool) : string := if s then "-" else "".

(** [std::to_string(double)]. *)
Definition to_string_double (p : double) : string :=
  match p with
  | S754_nan => "nan"
  | S754_infinity s => sign s +:+ "inf"
  | S754_zero s => sign s +:+ decimal 6 0
  | S754_finite s m e => sign s +:+ decimal 6 (scaled m e 6)
  end.

(** Decimals that end in zeros are dropped. *)
Fixpoint trim (w : nat) (z : Z) : string :=
  match w with
  | O => decimal 0 z
  | S w' => if z mod 10 =? 0 then trim w' (z / 10) else decimal w z
  end.

Definition num_digits (z : Z) : Z := Z.of_nat (String.length (pretty z)).

(** The decimal exponent: [10^x <= m * 2^e < 10^(x+1)]. *)
Definition exponent10 (m : positive) (e : Z) : Z :=
  let '(n, d) := d_ratio m e in
  if d <=? n then num_digits (n / d) - 1 else - num_digits ((d - 1) / n).

(** [std::ostream << double] at the default precision of 6 significant digits. *)
Definition ostream_double (p : double) : string :=
  match p with
  | S754_nan => "nan"
  | S754_infinity s => sign s +:+ "inf"
  | S754_zero s => sign s +:+ "0"
  | S754_finite s m e =>
      let x := exponent10 m e in
      let z := scaled m e (5 - x) in
      let '(x, z) := if z =? 10 ^ 6 then (x + 1, 10 ^ 5) else (x, z) in
      sign s +:+
      if (-4 <=? x) && (x <? 6) then trim (Z.to_nat (5 - x)) z
      else trim 5 z +:+ "e" +:+ (if x <? 0 then "-" else "+") +:+
           (if Z.abs x <? 10 then "0" else "") +:+ pretty (Z.abs x)
  end.

Example print_100_5 :
  to_string_double (d_frac 1005 10) = "100.500000" /\ ostream_double (d_frac 1005 10) = "100.5".
Proof. vm_compute. auto. Qed.

Example print_tiny :
  to_string_double (d_frac 5 10000000) = "0.000000" /\ ostream_double (d_frac 5 10000000) = "5e-07".
Proof. vm_compute. auto. Qed.

Example print_large :
  to_string_double (d_frac 12345675 10) = "1234567.500000" /\
  ostream_double (d_frac 12345675 10) = "1.23457e+06" /\ ostream_double (d_frac 9999996 10) = "1e+06" /\
  ostream_double (d_frac 1 10000) = "0.0001".
Proof. vm_compute. auto. Qed.

(** ** Orders, trades and the book *)

Definition side_str (s : OrderSide) : string := match s with BUY => "BUY" | SELL => "SELL" end.

Definition Order_to_string (o : Order) : string :=
  "Order[" +:+ pretty (order_id o) +:+ "] " +:+ side_str (side o) +:+ " " +:+
  pretty (remaining_quantity o) +:+ "@" +:+ to_string_double (price o).

Definition Trade_to_string (t : Trade) : string :=
  "Trade[" +:+ pretty (trade_id t) +:+ "] " +:+ pretty (trade_quantity t) +:+ " @ " +:+
  to_string_double (trade_price t) +:+ " (Buy:" +:+ pretty (buy_order_id t) +:+ ", Sell:" +:+
  pretty (sell_order_id t) +:+ ")".

Definition order_line (o : Order) : string := "  " +:+ Order_to_string o +:+ newline.

Definition trade_line (t : Trade) : string := "  " +:+ Trade_to_string t +:+ newline.

Definition lines {A : Type} (line : A -> string) (l : list A) : string :=
  foldr (fun x s => line x +:+ s) "" l.

Definition print_levels (ls : list PriceLevel) : string :=
  lines (fun l => lines (fun o => if 0 <? remaining_quantity o then order_line o else "") (orders l)) ls.

Definition printBook (b : OrderBook) : string :=
  newline +:+ "=== ORDER BOOK ===" +:+ newline +:+
  "BIDS (Buy Orders):" +:+ newline +:+ print_levels (bids_ b) +:+
  "ASKS (Sell Orders):" +:+ newline +:+ print_levels (asks_ b) +:+
  "==================" +:+ newline +:+ newline.

(** ** The queries of [MatchingEngine] *)

Definition engine_getBestBid (e : MatchingEngine) : double := getBestBid (book_ e).
Definition engine_getBestAsk (e : MatchingEngine) : double := getBestAsk (book_ e).
Definition engine_getOrderCount (e : MatchingEngine) : nat := getOrderCount (book_ e).
Definition engine_getOrderById (e : MatchingEngine) (id : Z) : option Order := getOrderById (book_ e) id.
Definition engine_getSTPPolicy (e : MatchingEngine) : STPPolicy := getSTPPolicy (book_ e).
Definition engine_printBook (e : MatchingEngine) : string := printBook (book_ e).

(** ** Programs on one engine that print

    The state is the engine and what has been printed; an exception ends the program. *)

Record World : Type := Build_World { engine : MatchingEngine; stdout : string }.

Definition program (A : Type) : Type := World -> World * result A.

#[export] Instance program_ret : MRet program := fun A a w => (w, Ok a).
#[export] Instance program_bind : MBind program := fun A B f m w =>
  match m w with
  | (w, Ok a) => f a w
  | (w, Throw ex) => (w, Throw ex)
  end.

Definition lift {A : Type} (r : result A) : program A := fun w => (w, r).

Definition cout (s : string) : program () :=
  fun w => (Build_World (engine w) (stdout w +:+ s), Ok ()).

(** Reads the engine. *)
Definition query {A : Type} (f : MatchingEngine -> A) : program A := fun w => (w, Ok (f (engine w))).

Section Main.
Context (ticks_overflow : double -> Z).
(** The readings of the clocks, by call: when an order is made, for the trades of a call to
    [processOrder], and when its events are stamped. *)
Context (now : nat -> Z) (clock : nat -> Z -> Z) (ts : nat -> Z).

(** The demonstration attaches no journal, so its health is never asked for. *)
Definition process (call : nat) (o : Order) : program (list Trade) := fun w =>
  let '(e, _, _, res) := processOrder ticks_overflow (clock call) (ts call) true (engine w) o in
  (Build_World e (stdout w), res).

Definition cancel (call : nat) (id : Z) : program bool := fun w =>
  let '(e, _, found) := engine_cancel (ts call) true (engine w) id in
  (Build_World e (stdout w), Ok found).

Definition print_book : program () := b ← query engine_printBook; cout b.

Definition print_trades (trades : list Trade) : program () := cout (lines trade_line trades).

Definition main : program Z :=
  cout ("=== Low Latency Trading Engine - Basic Test ===" +:+ newline +:+ newline);;
  (* 1. a buy order *)
  buy1 ← lift (Order_new 1 1001 BUY LIMIT (d_frac 1005 10) 100 0 (now 0));
  trades ← process 0 buy1;
  cout ("After adding BUY 100 @ 100.50:" +:+ newline);;
  print_book;;
  cout ("Trades: " +:+ pretty (length trades) +:+ newline +:+ newline);;
  (* 2. a sell order, filled *)
  sell1 ← lift (Order_new 2 2001 SELL LIMIT (d_frac 1005 10) 50 0 (now 1));
  trades ← process 1 sell1;
  cout ("After adding SELL 50 @ 100.50:" +:+ newline);;
  print_book;;
  cout ("Trades executed:" +:+ newline);;
  print_trades trades;;
  cout newline;;
  (* 3. a larger sell order *)
  sell2 ← lift (Order_new 3 2002 SELL LIMIT (d_frac 1005 10) 60 0 (now 2));
  trades ← process 2 sell2;
  cout ("After adding SELL 60 @ 100.50:" +:+ newline);;
  print_book;;
  cout ("Trades executed:" +:+ newline);;
  print_trades trades;;
  cout newline;;
  (* 4. the best prices *)
  bid ← query engine_getBestBid;
  cout ("Best Bid: " +:+ ostream_double bid +:+ newline);;
  ask ← query engine_getBestAsk;
  cout ("Best Ask: " +:+ ostream_double ask +:+ newline);;
  count ← query engine_getOrderCount;
  cout ("Total orders in book: " +:+ pretty count +:+ newline +:+ newline);;
  (* 5. a cancellation *)
  cancelled ← cancel 3 3;
  cout ("Cancel order 3: " +:+ (if cancelled : bool then "Success" else "Failed") +:+ newline);;
  print_book;;
  (* 6. a market order *)
  sell3 ← lift (Order_new 4 2003 SELL LIMIT (d_of_Z 101) 30 0 (now 3));
  _ ← process 4 sell3;
  buyMarket ← lift (Order_new 5 1005 BUY MARKET d_zero 20 0 (now 4));
  trades ← process 5 buyMarket;
  cout ("Market BUY 20:" +:+ newline);;
  print_trades trades;;
  print_book;;
  mret 0.

(** [MatchingEngine engine;]: a book with the default pool of 2000000 orders. *)
Definition main_start : World := Build_World (MatchingEngine_new 2000000) "".
End Main.

(* Lines of a text. *)
Definition text (ls : list string) : string := lines (fun l => l +:+ newline) ls.

(** What a line of [printBook] says of an order: the price in millionths, as printed. *)
Definition printed_price (p : double) : Z :=
  match p with S754_finite false m e => scaled m e 6 | _ => 0 end.

Definition shown_entry (o : Order) : Z * OrderSide * Z * Z :=
  (order_id o, side o, remaining_quantity o, printed_price (price o)).

Definition shown (ls : list PriceLevel) : list Order := filter (fun o => 0 < remaining_quantity o) (flat ls).

Definition displayed (ls : list PriceLevel) : list (Z * OrderSide * Z * Z) := shown_entry <$> shown ls.

(** ** Text that ends at a separator *)

Fixpoint avoids (c : ascii) (s : string) : bool :=
  match s with "" => true | String d s => negb (Ascii.eqb c d) && avoids c s end.

Lemma avoids_app c s1 s2 : avoids c (s1 +:+ s2) = avoids c s1 && avoids c s2.
Proof. induction s1 as [|d s1 IH]; [done|]. unfold String.append. cbn. fold String.append. by rewrite IH, andb_assoc. Qed.

Lemma string_app_cons c s t : String c s +:+ t = String c (s +:+ t).
Proof. reflexivity. Qed.

Lemma string_app_assoc (s1 s2 s3 : string) : (s1 +:+ s2) +:+ s3 = s1 +:+ s2 +:+ s3.
Proof. induction s1 as [|c s1 IH]; [done|]. by rewrite !string_app_cons, IH. Qed.

Lemma string_app_nil s : s +:+ "" = s.
Proof. induction s as [|c s IH]; [done|]. by rewrite string_app_cons, IH. Qed.

(** The text before the first separator is known. *)
Lemma split_at c s1 s2 t1 t2 :
  avoids c s1 = true -> avoids c s2 = true -> s1 +:+ String c t1 = s2 +:+ String c t2 -> s1 = s2 /\ t1 = t2.
Proof.
  revert s2. induction s1 as [|d s1 IH]; intros [|d2 s2] H1 H2 Heq; cbn in H1, H2; rewrite ?string_app_cons in Heq.
  - by injection Heq as <-.
  - injection Heq as <- _. by rewrite Ascii.eqb_refl in H2.
  - injection Heq as -> _. by rewrite Ascii.eqb_refl in H1.
  - injection Heq as <- Heq. bool_to_prop. by destruct (IH s2) as [-> ->].
Qed.

(** ** Numbers as text *)

(** A character no integer is printed with. *)
Definition separator (c : ascii) : Prop := avoids c "0123456789-" = true.

Lemma separator_digit c n : separator c -> Ascii.eqb c (pretty_N_char n) = false.
Proof.
  unfold separator. cbn. intros H. bool_to_prop. unfold pretty_N_char. by repeat case_match.
Qed.

Lemma avoids_pretty_go c x s : separator c -> avoids c s = true -> avoids c (pretty_N_go x s) = true.
Proof.
  intros Hc. revert s. induction (N.lt_wf_0 x) as [x _ IH]; intros s Hs.
  assert (x = 0 \/ 0 < x)%N as [->|Hx] by lia; [by rewrite pretty_N_go_0|].
  rewrite pretty_N_go_step by done. apply IH; [by apply N.div_lt|].
  cbn. by rewrite separator_digit, Hs.
Qed.

Lemma avoids_pretty c (z : Z) : separator c -> avoids c (pretty z) = true.
Proof.
  intros Hc. assert (forall n : N, avoids c (pretty n) = true) as HN.
  { intros n. unfold pretty, pretty_N. destruct (decide (n = 0%N)); [|by apply avoids_pretty_go].
    pose proof Hc as H. unfold separator in H. cbn in H |- *. bool_to_prop. by rewrite H. }
  destruct z as [|p|p]; [apply (HN 0%N)|apply (HN (Npos p))|].
  change (pretty (Z.neg p)) with ("-" +:+ pretty (Npos p)). rewrite avoids_app, HN, andb_true_r.
  unfold separator in Hc. cbn in Hc |- *. bool_to_prop. by rewrite andb_true_r; apply negb_true_iff.
Qed.

Lemma avoids_digits c w z : separator c -> avoids c (digits w z) = true.
Proof.
  intros Hc. revert z. induction w as [|w IH]; intros z; [done|]. cbn [digits].
  rewrite avoids_app, IH. cbn. unfold digit. by rewrite separator_digit.
Qed.

Lemma avoids_to_string_double c p :
  separator c -> avoids c ".infa" = true -> avoids c (to_string_double p) = true.
Proof.
  intros Hc Hl. assert (forall s, avoids c (sign s) = true) as Hsign.
  { intros []; [|done]. unfold separator in Hc. cbn in Hc |- *. bool_to_prop. by rewrite andb_true_r; apply negb_true_iff. }
  assert (forall z, avoids c (decimal 6 z) = true) as Hdec.
  { intros z. unfold decimal. rewrite !avoids_app, avoids_pretty, avoids_digits by done. cbn in Hl |- *.
    bool_to_prop. by rewrite !andb_true_r; apply negb_true_iff. }
  destruct p as [s|s| |s m e]; cbn [to_string_double]; rewrite ?avoids_app, ?Hsign, ?Hdec; try done;
    cbn in Hl |- *; bool_to_prop; repeat (apply andb_true_iff; split); done || by apply negb_true_iff.
Qed.

Lemma string_snoc_inj s1 s2 c1 c2 : s1 +:+ String c1 "" = s2 +:+ String c2 "" -> s1 = s2 /\ c1 = c2.
Proof.
  revert s2. induction s1 as [|d s1 IH]; intros [|d2 s2]; rewrite ?string_app_cons; intros Heq.
  - by injection Heq.
  - injection Heq as _ Heq. by destruct s2.
  - injection Heq as _ Heq. by destruct s1.
  - injection Heq as <- Heq. by destruct (IH s2 Heq) as [-> ->].
Qed.

Lemma digits_inj w z1 z2 :
  digits w z1 = digits w z2 -> z1 mod 10 ^ Z.of_nat w = z2 mod 10 ^ Z.of_nat w.
Proof.
  revert z1 z2. induction w as [|w IH]; intros z1 z2; [by rewrite !Z.mod_1_r|].
  cbn [digits]. intros [Hd%IH Hc]%string_snoc_inj. unfold digit in Hc.
  apply pretty_N_char_inj in Hc; [|pose proof (Z.mod_pos_bound z1 10); pose proof (Z.mod_pos_bound z2 10); lia..].
  rewrite Nat2Z.inj_succ, Z.pow_succ_r by lia. rewrite !Z.rem_mul_r by lia.
  pose proof (Z.mod_pos_bound z1 10); pose proof (Z.mod_pos_bound z2 10).
  assert (z1 mod 10 = z2 mod 10) as -> by lia. by rewrite Hd.
Qed.

Lemma decimal_inj w z1 z2 : decimal (S w) z1 = decimal (S w) z2 -> z1 = z2.
Proof.
  unfold decimal. intros [Hq%(inj pretty) Hr%digits_inj]%split_at; [|by apply avoids_pretty..].
  rewrite (Z.div_mod z1 (10 ^ Z.of_nat (S w))), (Z.div_mod z2 (10 ^ Z.of_nat (S w))) by lia. by rewrite Hq, Hr.
Qed.

Lemma to_string_double_valid p : valid_price p = true -> to_string_double p = decimal 6 (printed_price p).
Proof. intros (m & e & ->)%valid_price_inv. reflexivity. Qed.

(** The decimal printed for a price is within half a unit of its last place. *)
Lemma printed_price_nearest m e :
  let '(n, d) := d_ratio m e in
  0 < d /\ 2 * Z.abs (printed_price (S754_finite false m e) * d - n * 10 ^ 6) <= d.
Proof.
  cbn [printed_price]. unfold scaled. destruct (d_ratio m e) as [n d] eqn:Hr.
  assert (0 < d) as Hd.
  { unfold d_ratio in Hr. destruct (0 <=? e) eqn:He; injection Hr as _ <-; [lia|]. bool_to_prop.
    apply Z.pow_pos_nonneg; lia. }
  change (Z.max 6 0) with 6. change (10 ^ Z.max (- (6)) 0) with 1. rewrite Z.mul_1_r. split; [done|].
  unfold rounded_div. pose proof (Z.div_mod (n * 10 ^ 6) d) as Hdm. pose proof (Z.mod_pos_bound (n * 10 ^ 6) d).
  set (q := n * 10 ^ 6 / d) in *. set (x := n * 10 ^ 6) in *.
  destruct (Z.compare_spec (2 * (x mod d)) d); [destruct (Z.even q)|..]; lia.
Qed.

(** ** The printed book *)

Lemma order_line_inj o1 o2 t1 t2 :
  valid_price (price o1) = true -> valid_price (price o2) = true ->
  order_line o1 +:+ t1 = order_line o2 +:+ t2 -> shown_entry o1 = shown_entry o2 /\ t1 = t2.
Proof.
  intros H1 H2. unfold order_line, Order_to_string, newline. rewrite !string_app_assoc.
  intros Heq%(inj (String.append _))%(inj (String.append _)).
  apply split_at in Heq as [Hid%(inj pretty) Heq]; [|by apply avoids_pretty..].
  apply (inj (String.append " ")) in Heq.
  assert (side o1 = side o2) as Hside by (by destruct (side o1), (side o2)).
  rewrite Hside in Heq. apply (inj (String.append _)), (inj (String.append " ")) in Heq.
  apply split_at in Heq as [Hrem%(inj pretty) Heq]; [|by apply avoids_pretty..].
  apply split_at in Heq as [Hprice Heq]; [|by apply avoids_to_string_double..].
  rewrite !to_string_double_valid in Hprice by done. apply decimal_inj in Hprice.
  unfold shown_entry. by rewrite Hid, Hside, Hrem, Hprice.
Qed.

Lemma order_line_entry o1 o2 :
  valid_price (price o1) = true -> valid_price (price o2) = true ->
  shown_entry o1 = shown_entry o2 -> order_line o1 = order_line o2.
Proof.
  intros H1 H2 [= Hid Hside Hrem Hprice]. unfold order_line, Order_to_string.
  by rewrite !to_string_double_valid, Hid, Hside, Hrem, Hprice.
Qed.

Lemma lines_cons {A} (line : A -> string) x l : lines line (x :: l) = line x +:+ lines line l.
Proof. reflexivity. Qed.

Lemma lines_app {A} (line : A -> string) l1 l2 : lines line (l1 ++ l2) = lines line l1 +:+ lines line l2.
Proof. induction l1 as [|x l1 IH]; [done|]. by rewrite <- app_comm_cons, !lines_cons, IH, string_app_assoc. Qed.

Lemma print_levels_shown ls : print_levels ls = lines order_line (shown ls).
Proof.
  induction ls as [|l ls IH]; [done|]. unfold print_levels in *.
  rewrite lines_cons, IH. unfold shown. rewrite flat_cons, filter_app, lines_app. f_equal. clear.
  induction (orders l) as [|o os IH]; [done|]. rewrite lines_cons, IH, filter_cons.
  destruct (Z.ltb_spec 0 (remaining_quantity o)); case_decide; (done || lia).
Qed.

(** Text that does not begin like a line of an order. *)
Definition not_a_line (t : string) : Prop := match t with String " " _ | "" => False | _ => True end.

Lemma lines_inj l1 l2 t1 t2 :
  Forall (fun o => valid_price (price o) = true) l1 -> Forall (fun o => valid_price (price o) = true) l2 ->
  not_a_line t1 -> not_a_line t2 ->
  lines order_line l1 +:+ t1 = lines order_line l2 +:+ t2 -> shown_entry <$> l1 = shown_entry <$> l2 /\ t1 = t2.
Proof.
  intros HF1. revert l2. induction HF1 as [|o1 l1 Ho1 _ IH]; intros l2 HF2 Ht1 Ht2 Heq;
    destruct HF2 as [|o2 l2 Ho2 HF2]; [done|..].
  - change (lines order_line [] +:+ t1) with t1 in Heq. by rewrite Heq in Ht1.
  - change (lines order_line [] +:+ t2) with t2 in Heq. by rewrite <- Heq in Ht2.
  - rewrite !lines_cons, !string_app_assoc in Heq.
    apply order_line_inj in Heq as [He Heq]; [|done..]. destruct (IH l2 HF2 Ht1 Ht2 Heq) as [Hl ->].
    split; [|done]. cbn. by rewrite He, Hl.
Qed.

Lemma lines_entries l1 l2 :
  Forall (fun o => valid_price (price o) = true) l1 -> Forall (fun o => valid_price (price o) = true) l2 ->
  shown_entry <$> l1 = shown_entry <$> l2 -> lines order_line l1 = lines order_line l2.
Proof.
  intros HF1. revert l2. induction HF1 as [|o1 l1 Ho1 _ IH]; intros l2 HF2 Heq;
    destruct HF2 as [|o2 l2 Ho2 HF2]; try done.
  cbn in Heq. injection Heq as Hid Hside Hrem Hp Heq. rewrite !lines_cons.
  rewrite (order_line_entry o1 o2); [|done..|by unfold shown_entry; rewrite Hid, Hside, Hrem, Hp].
  by rewrite (IH l2 HF2 Heq).
Qed.

Lemma shown_valid s ls : levels_wf s ls -> Forall (fun o => valid_price (price o) = true) (shown ls).
Proof.
  intros Hwf. apply Forall_forall. intros o [_ Ho]%list_elem_of_filter.
  by destruct (levels_wf_flat s ls o Hwf Ho) as [_ Hv].
Qed.

(** C40: a printout of the book says exactly what it displays. Two well-formed books print the
    same text if and only if they display the same orders in the same places: the same ids,
    sides and remaining quantities, in priority order, with prices equal to the millionth.
    What is displayed are the orders with something left. *)
Theorem printBook_displays b1 b2 :
  book_wf b1 -> book_wf b2 ->
  printBook b1 = printBook b2 <->
  displayed (bids_ b1) = displayed (bids_ b2) /\ displayed (asks_ b1) = displayed (asks_ b2).
Proof.
  intros (Hb1 & Ha1 & _) (Hb2 & Ha2 & _).
  apply shown_valid in Hb1, Ha1, Hb2, Ha2. unfold printBook, displayed. rewrite !print_levels_shown. split.
  - intros Heq. do 5 apply (inj (String.append _)) in Heq.
    apply lines_inj in Heq as [Hbids Heq]; [|done..]. split; [done|].
    do 2 apply (inj (String.append _)) in Heq. by apply lines_inj in Heq as [Hasks _].
  - intros [Hbids Hasks]. by rewrite (lines_entries _ _ Hb1 Hb2 Hbids), (lines_entries _ _ Ha1 Ha2 Hasks).
Qed.

(** ** The demonstration *)

(** The demonstration program returns 0 whatever the clocks read, and this is what it
    prints. *)
Theorem main_output ticks_overflow now clock ts :
  let '(w, res) := main ticks_overflow now clock ts main_start in
  res = Ok 0 /\
  stdout w = text
    ["=== Low Latency Trading Engine - Basic Test ==="; "";
     "After adding BUY 100 @ 100.50:"; "";
     "=== ORDER BOOK ==="; "BIDS (Buy Orders):"; "  Order[1] BUY 100@100.500000"; "ASKS (Sell Orders):";
     "=================="; ""; "Trades: 0"; "";
     "After adding SELL 50 @ 100.50:"; "";
     "=== ORDER BOOK ==="; "BIDS (Buy Orders):"; "  Order[1] BUY 50@100.500000"; "ASKS (Sell Orders):";
     "=================="; ""; "Trades executed:"; "  Trade[1] 50 @ 100.500000 (Buy:1, Sell:2)"; "";
     "After adding SELL 60 @ 100.50:"; "";
     "=== ORDER BOOK ==="; "BIDS (Buy Orders):"; "ASKS (Sell Orders):"; "  Order[3] SELL 10@100.500000";
     "=================="; ""; "Trades executed:"; "  Trade[2] 50 @ 100.500000 (Buy:1, Sell:3)"; "";
     "Best Bid: 0"; "Best Ask: 100.5"; "Total orders in book: 1"; "";
     "Cancel order 3: Success"; "";
     "=== ORDER BOOK ==="; "BIDS (Buy Orders):"; "ASKS (Sell Orders):"; "=================="; "";
     "Market BUY 20:"; "  Trade[3] 20 @ 101.000000 (Buy:5, Sell:4)"; "";
     "=== ORDER BOOK ==="; "BIDS (Buy Orders):"; "ASKS (Sell Orders):"; "  Order[4] SELL 10@101.000000";
     "=================="; ""].
Proof. vm_compute. auto. Qed.

(** ** A sample: an order amended down to what it has already traded *)

(** The order stays in its level with nothing left. *)
Definition sample_spent : OrderBook :=
  (replaceOrder sample_clock 5 (applyFill sample_book 1 3).1 1 (d_of_Z 100) 3 9).1.

Definition sample_without : OrderBook := (cancelOrder sample_book 1).1.

Lemma printBook_displays_witness :
  getOrderCount sample_spent = 4%nat /\ getOrderCount sample_without = 3%nat /\
  printBook sample_spent = printBook sample_without.
Proof.
  split; [vm_compute; reflexivity|]. split; [vm_compute; reflexivity|].
  apply (printBook_displays sample_spent sample_without); [..|vm_compute; auto];
    eapply (reachable_inv sample_clock 16); [lia| |lia|].
  - apply reachable_replace; [|by split]. apply reachable_fill; [exact sample_book_reachable|done].
  - apply reachable_cancel, sample_book_reachable.
Defined.
