(* ===== verification/RiskBook.v ===== *)
(** * RiskBook: the risk engine beside the book

    No code of the library calls a [RiskEngine]: include/RiskEngine.h (LIFECYCLE, live path) says how a
    shard is to drive one, [validate] before an order is matched, [onFill] for each trade on a resting
    order, [onOrderResting] for a remainder that reaches the book, [onOrderCancelled] for a
    cancellation. The client of this file ([live_submit], [live_cancel_order]) does what that comment
    says; it is not a translation of code. The calls it makes are: those of RiskEngine.v and
    OrderBook.v. What the theorems show is that these two agree when they are used so. *)

From Stdlib Require Import ZArith Lia Bool.
From stdpp Require Import base tactics decidable numbers option relations gmap list sorting.
From S2P Require Import Prelude.
From S2P Require Import Double.
From S2P Require Import Maps.
From S2P Require Import Order.
From S2P Require Import OrderBook.
From S2P Require Import BookLevels.
From S2P Require Import BookMatch.
From S2P Require Import BookInv.
From S2P Require Import BookSpec.
From S2P Require Import BookFacts.
From S2P Require Import BookIds.
From S2P Require Import BookProps.
From S2P Require Import RiskEngine.
From S2P Require Import RiskProps.
From S2P Require Import Untimed.
From S2P Require Import ReplayFills.

Local Open Scope Z_scope.

(** ** A client that follows the documented lifecycle *)

(** [onFill(resting_id, qty)] for each trade; whether all were answered true. *)
Fixpoint notify_fills (s : OrderSide) (r : RiskEngine) (ts : list Trade) : RiskEngine * bool :=
  match ts with
  | [] => (r, true)
  | t :: ts =>
      let '(r, ok) := onFill r (resting_id s t) (trade_quantity t) in
      let '(r, oks) := notify_fills s r ts in (r, ok && oks)
  end.

(** An order through the gate and the book. *)
Definition live_submit (clock : Z -> Z) (r : RiskEngine) (b : OrderBook) (o : Order)
    : RiskEngine * OrderBook * bool :=
  match validate r o with
  | RISK_NONE =>
      let out := matchOrder clock b o in
      match mo_result out with
      | Ok ts =>
          let '(r, filled) := notify_fills (side o) r ts in
          if rests (mo_incoming out) then
            let '(r, rested) := onOrderResting r (mo_incoming out) (remaining_quantity (mo_incoming out)) in
            (r, mo_book out, filled && rested)
          else (r, mo_book out, filled)
      | Throw _ => (r, mo_book out, false)
      end
  | _ => (r, b, true)
  end.

Definition live_cancel_order (r : RiskEngine) (b : OrderBook) (id : Z) : RiskEngine * OrderBook * bool :=
  match getOrderById b id with
  | None => (r, b, true)
  | Some o =>
      let '(r, released) := onOrderCancelled r id (remaining_quantity o) in
      (r, (cancelOrder b id).1, released)
  end.

(** ** The reservations a book calls for *)

Definition all_orders (b : OrderBook) : list Order := flat (bids_ b) ++ flat (asks_ b).

Definition info_of (o : Order) : OrderRiskInfo :=
  Build_OrderRiskInfo (trader_id o) (symbol_id o) (side o) (remaining_quantity o).

Definition entry_of (o : Order) : Z * OrderRiskInfo := (order_id o, info_of o).

Definition reservations (b : OrderBook) : gmap Z OrderRiskInfo := list_to_map (entry_of <$> all_orders b).

Lemma all_orders_side s b : all_orders b ≡ₚ flat (levels_of s b) ++ flat (levels_of (opposite s) b).
Proof. unfold all_orders. destruct s; [done|]. apply Permutation_app_comm. Qed.

Lemma all_orders_ids b : order_id <$> all_orders b = book_ids b.
Proof. unfold all_orders, book_ids, side_ids, ids. by rewrite fmap_app. Qed.

Lemma entries_ids os : (entry_of <$> os).*1 = order_id <$> os.
Proof. rewrite <- list_fmap_compose. done. Qed.

Lemma reservations_perm b os :
  unique_ids b -> all_orders b ≡ₚ os -> reservations b = list_to_map (entry_of <$> os).
Proof.
  intros Hu Hp. apply list_to_map_proper; [by rewrite entries_ids, all_orders_ids|by rewrite Hp].
Qed.

Lemma reservations_lookup b id : unique_ids b -> reservations b !! id = info_of <$> getOrderById b id.
Proof.
  intros Hu. destruct (getOrderById b id) as [o|] eqn:Hg; simpl.
  - apply getOrderById_inv in Hg as [<- (s & Ho)].
    apply elem_of_list_to_map; [by rewrite entries_ids, all_orders_ids|].
    change (order_id o, info_of o) with (entry_of o). apply list_elem_of_fmap_2.
    rewrite (all_orders_side s). apply elem_of_app. by left.
  - apply getOrderById_None in Hg. apply not_elem_of_list_to_map. by rewrite entries_ids, all_orders_ids.
Qed.

Lemma tracks_reservations r b : unique_ids b -> order_risk_ r = reservations b -> tracks r b.
Proof.
  intros Hu Hr id. rewrite Hr, reservations_lookup by done.
  destruct (getOrderById b id) as [o|]; simpl; [|done]. by exists o.
Qed.

Lemma reservations_untimed b b' : b ≡ b' -> reservations b = reservations b'.
Proof.
  intros Hb. assert (forall b, reservations (untimed_book b) = reservations b) as Hun.
  { intros b0. unfold reservations, all_orders, untimed_book. cbn [bids_ asks_]. f_equal.
    assert (forall ls, entry_of <$> flat (untimed_level <$> ls) = entry_of <$> flat ls) as Hls.
    { induction ls as [|l ls IH]; [done|]. cbn [fmap list_fmap]. rewrite !flat_cons, !fmap_app. f_equal; [|exact IH].
      cbn [orders untimed_level]. rewrite <- list_fmap_compose. done. }
    by rewrite !fmap_app, !Hls. }
  by rewrite <- (Hun b), <- (Hun b'), Hb.
Qed.

(** ** What the operations of the book do to them *)

(** An order of the book and all the others. *)
Lemma located_rest b id s i j o :
  unique_ids b -> locate b id = Some (s, i, j) -> order_at (levels_of s b) i j = Some o ->
  order_id o = id /\ exists rest,
    all_orders b ≡ₚ o :: rest /\ id ∉ (order_id <$> rest) /\
    all_orders (set_levels s b (erase_order (levels_of s b) i j) 1) ≡ₚ rest /\
    forall o', all_orders (set_levels s b (update_order (levels_of s b) i j o') 0) ≡ₚ o' :: rest.
Proof.
  intros Hu Hl Hat. destruct (locate_zip _ _ _ _ _ Hl)
    as (ls1 & lp & os1 & o1 & os2 & ls2 & Hls & _ & _ & Hid & Hat1 & Her & Hup & _).
  rewrite Hat in Hat1. injection Hat1 as <-. split; [done|].
  set (rest := flat ls1 ++ (os1 ++ os2) ++ flat ls2 ++ flat (levels_of (opposite s) b)). exists rest.
  assert (all_orders b ≡ₚ o :: rest) as Hp.
  { rewrite (all_orders_side s), Hls. autorewrite with trading. cbn [orders]. unfold rest. solve_Permutation. }
  split; [exact Hp|]. split.
  - unfold unique_ids in Hu. rewrite <- all_orders_ids, Hp in Hu. cbn in Hu.
    apply NoDup_cons in Hu as [Hn _]. by rewrite <- Hid.
  - split; [|intros o']; rewrite (all_orders_side s); autorewrite with trading; [rewrite Her|rewrite Hup];
      autorewrite with trading; unfold rest; solve_Permutation.
Qed.

Lemma cancel_reservations b id o :
  unique_ids b -> getOrderById b id = Some o ->
  reservations (cancelOrder b id).1 = delete id (reservations b).
Proof.
  intros Hu Hg. pose proof (cancelOrder_fewer b id) as [Hu' _]. specialize (Hu' Hu).
  unfold getOrderById, cancelOrder in *. destruct (locate b id) as [[[s i] j]|] eqn:Hl; [|done]. cbn in Hg, Hu' |- *.
  destruct (located_rest b id s i j o Hu Hl Hg) as (Hid & rest & Hp & Hn & Hp' & _).
  rewrite (reservations_perm _ _ Hu' Hp'), (reservations_perm _ _ Hu Hp).
  cbn [fmap list_fmap list_to_map foldr entry_of fst snd uncurry]. rewrite Hid. symmetry.
  apply delete_insert_id, not_elem_of_list_to_map. by rewrite entries_ids.
Qed.

Lemma fill_reservations b id q b' :
  unique_ids b -> 0 <= q -> applyFill b id q = (b', true) ->
  exists o, getOrderById b id = Some o /\ 0 < q <= remaining_quantity o /\ unique_ids b' /\
    reservations b' = store_reservation (reservations b) id (info_of o) (remaining_quantity o - q).
Proof.
  intros Hu Hq Hf. pose proof (applyFill_fewer b id q) as [Hu' _]. rewrite Hf in Hu'. specialize (Hu' Hu).
  cbn [fst] in Hu'. unfold applyFill in Hf. unfold getOrderById.
  destruct (Z.eqb_spec q 0); [done|]. destruct (locate b id) as [[[s i] j]|] eqn:Hl; [|done]. cbn [mbind option_bind].
  destruct (order_at (levels_of s b) i j) as [o|] eqn:Hat; [|done].
  destruct (Z.ltb_spec (remaining_quantity o) q); [done|]. exists o. split; [done|]. split; [lia|]. split; [done|].
  destruct (located_rest b id s i j o Hu Hl Hat) as (Hid & rest & Hp & Hn & Her & Hup).
  assert (list_to_map (entry_of <$> rest) !! id = (None : option OrderRiskInfo)) as Hnone
    by (apply not_elem_of_list_to_map; by rewrite entries_ids).
  rewrite (reservations_perm _ _ Hu Hp). unfold store_reservation.
  cbn [fmap list_fmap list_to_map foldr entry_of fst snd uncurry]. rewrite Hid.
  destruct (Z.eqb_spec (remaining_quantity o - q) 0); injection Hf as <-.
  - rewrite (reservations_perm _ _ Hu' Her). symmetry. by apply delete_insert_id.
  - rewrite (reservations_perm _ _ Hu' (Hup _)). cbn [fmap list_fmap list_to_map foldr entry_of fst snd uncurry].
    by rewrite insert_insert_eq; simpl; rewrite Hid.
Qed.

Lemma add_reservations b o :
  unique_ids b -> order_id o ∉ book_ids b -> quantity o <> 0 -> remaining_quantity o <> 0 -> 0 < pool_available_ b ->
  reservations (addOrder b o).1 = <[order_id o := info_of o]> (reservations b).
Proof.
  intros Hu Hn Hq Hr Hpool. destruct (addOrder_one_more b o) as [Hu' _]. specialize (Hu' Hn Hu).
  unfold addOrder in *. rewrite (proj2 (Z.eqb_neq _ _) Hq), (proj2 (Z.eqb_neq _ _) Hr) in *.
  destruct (Z.leb_spec (pool_available_ b) 0); [lia|]. cbn [orb fst] in *.
  assert (all_orders (set_levels (side o) b (push_order (levels_of (side o) b)
    (findLevel (side o) b (price o)) o) (-1)) ≡ₚ o :: all_orders b) as Hp.
  { rewrite !(all_orders_side (side o)). autorewrite with trading. by rewrite push_order_perm. }
  by rewrite (reservations_perm _ _ Hu' Hp).
Qed.

(** ** What the risk engine does on them *)

Record risk_ok (r : RiskEngine) : Prop := {
  risk_ok_inv : risk_inv r;
  risk_ok_limits : within_limits r;
  risk_ok_live : state_corrupt_ r = false
}.

Lemma exposure_limit s k r : risk_ok r -> exposure s k r <= max_position_ r.
Proof. intros [_ [_ Hk] _]. destruct (Hk k). destruct s; simpl; lia. Qed.

Lemma reserved_le_working r id info :
  risk_inv r -> order_risk_ r !! id = Some info ->
  reserved_qty info <= working (ri_side info) (state_of r (info_key info)).
Proof.
  intros (Hinfo & Hsum & _) Hid. rewrite Hsum.
  pose proof (map_sum_ge (reserved_for (info_key info) (ri_side info)) (order_risk_ r) id info Hid) as Hge.
  rewrite reserved_for_self in Hge. apply Hge. intros id' info' H'. apply reserved_for_nonneg. eauto.
Qed.

(** A reservation has the counters it is part of. *)
Lemma reserved_state r id info :
  risk_inv r -> order_risk_ r !! id = Some info ->
  positions_ r !! info_key info = Some (state_of r (info_key info)).
Proof.
  intros Hinv Hid. pose proof (reserved_le_working r id info Hinv Hid) as Hle.
  destruct Hinv as (Hinfo & _). specialize (Hinfo id info Hid). unfold info_wf in Hinfo.
  unfold state_of in *. destruct (positions_ r !! info_key info); [done|].
  destruct (ri_side info); simpl in Hle; lia.
Qed.

(** A side's other counters: a fill of a resting order frees room on the other side. *)
Definition frees (s : OrderSide) (r r' : RiskEngine) : Prop :=
  max_position_ r' = max_position_ r /\
  forall k, exposure s k r' <= exposure s k r /\ working s (state_of r' k) = working s (state_of r k).

Lemma frees_refl s r : frees s r r.
Proof. by split. Qed.

Lemma frees_trans s r1 r2 r3 : frees s r1 r2 -> frees s r2 r3 -> frees s r1 r3.
Proof.
  intros [H1 H2] [H3 H4]. split; [congruence|]. intros k. destruct (H2 k), (H4 k). split; [lia|congruence].
Qed.

Lemma fill_state_fits s st q :
  0 <= q <= working s st -> (match s with BUY => position st + q <= INT64_MAX | SELL => INT64_MIN <= position st - q end) ->
  is_Some (fill_state s st q).
Proof.
  intros Hq Hfit. unfold fill_state, canAddSigned, canSubSigned. destruct s; simpl in *;
    rewrite (proj2 (Z.ltb_ge _ q)) by lia;
    repeat match goal with |- context [if ?c then _ else _] => destruct c eqn:?; [bool_to_prop; lia|] end; by eexists.
Qed.

Lemma onFill_accepts r id info q :
  risk_ok r -> order_risk_ r !! id = Some info -> 0 < q <= reserved_qty info ->
  exists r', onFill r id q = (r', true) /\ risk_ok r' /\
    order_risk_ r' = store_reservation (order_risk_ r) id info (reserved_qty info - q) /\
    frees (opposite (ri_side info)) r r'.
Proof.
  intros [Hinv Hlim Hlive] Hid Hq. pose proof (reserved_le_working r id info Hinv Hid) as Hle.
  pose proof (reserved_state r id info Hinv Hid) as Hst.
  assert (in_u32 q) as Hu32 by (destruct Hinv as (Hinfo & _); specialize (Hinfo id info Hid); unfold info_wf in Hinfo; unfold_int; lia).
  assert (exists r', onFill r id q = (r', true)) as [r' Hf].
  { unfold onFill, risk_applyFill. rewrite Hlive, (proj2 (Z.eqb_neq q 0)) by lia. cbn [orb]. rewrite Hid.
    rewrite (proj2 (Z.ltb_ge _ _)) by lia. rewrite Hst.
    destruct (fill_state_fits (ri_side info) (state_of r (info_key info)) q) as [st' ->]; [lia| |eauto].
    destruct Hlim as [Hmax Hk]. destruct (Hk (info_key info)). destruct (ri_side info); simpl in Hle; unfold_int; lia. }
  exists r'. pose proof (fill_within r id q Hinv Hu32 Hlim) as Hlim'. rewrite Hf in Hlim'. simpl in Hlim'.
  pose proof (risk_applyFill_inv r id q r' Hinv Hu32 Hf) as Hinv'.
  apply risk_applyFill_true in Hf as Hf'; [|done|done].
  destruct Hf' as (_ & info' & st' & Hid' & _ & _ & _ & Hw & Ho & Hp & Hr'). rewrite Hid in Hid'. injection Hid' as <-.
  split; [exact Hf|]. subst r'. split; [by split|]. split; [done|]. split; [done|]. intros k.
  unfold exposure. rewrite !state_of_store. case_bool_decide as Hk; [subst k|by destruct (ri_side info)].
  clear - Hw Ho Hp Hq. destruct (ri_side info); simpl in *; lia.
Qed.

Lemma onOrderCancelled_accepts r id info :
  risk_ok r -> order_risk_ r !! id = Some info ->
  exists r', onOrderCancelled r id (reserved_qty info) = (r', true) /\ risk_ok r' /\
    order_risk_ r' = delete id (order_risk_ r).
Proof.
  intros [Hinv Hlim Hlive] Hid. pose proof (reserved_le_working r id info Hinv Hid) as Hle.
  pose proof (reserved_state r id info Hinv Hid) as Hst.
  assert (info_wf info) as Hw by (by apply (proj1 Hinv id)). unfold info_wf in Hw.
  assert (exists r', onOrderCancelled r id (reserved_qty info) = (r', true)) as [r' Hf].
  { unfold onOrderCancelled, applyCancelled. rewrite Hlive, (proj2 (Z.eqb_neq _ 0)) by lia. cbn [orb]. rewrite Hid.
    rewrite Z.ltb_irrefl, Hst. rewrite (proj2 (Z.ltb_ge _ _)) by lia. eauto. }
  exists r'. pose proof (cancelled_within r id (reserved_qty info) ltac:(lia) Hlim) as Hlim'. rewrite Hf in Hlim'.
  assert (risk_inv r') as Hinv' by (eapply applyCancelled_inv; [done| |exact Hf]; unfold_int; lia).
  apply applyCancelled_true in Hf as Hf'. destruct Hf' as (_ & info' & Hid' & _ & _ & Hr').
  rewrite Hid in Hid'. injection Hid' as <-. split; [exact Hf|]. subst r'. split; [by split|].
  simpl. unfold store_reservation. by rewrite Z.sub_diag.
Qed.

(** A remainder within the limits that [validate] and [applyResting] look at. *)
Lemma onOrderResting_accepts r o rem :
  risk_ok r -> type o = LIMIT -> order_risk_ r !! order_id o = None -> 0 < rem <= quantity o -> in_u32 (quantity o) ->
  exposure (side o) (key_of o) r + rem <= max_position_ r ->
  working (side o) (state_of r (key_of o)) + rem <= max_position_ r ->
  exists r', onOrderResting r o rem = (r', true) /\ risk_ok r' /\
    order_risk_ r' = <[order_id o := Build_OrderRiskInfo (trader_id o) (symbol_id o) (side o) rem]> (order_risk_ r).
Proof.
  intros [Hinv Hlim Hlive] Ht Hid Hrem Hq Hexp Hw. pose proof Hlim as [Hmax _].
  assert (exists r', onOrderResting r o rem = (r', true)) as [r' Hf].
  { unfold onOrderResting, applyResting. rewrite Hlive, (proj2 (Z.eqb_neq rem 0)) by lia.
    rewrite (proj2 (Z.ltb_ge _ _)) by lia. cbn [orb]. rewrite bool_decide_true by done. cbn [negb]. rewrite Hid.
    unfold canAddUnsigned. rewrite (proj2 (Z.ltb_ge _ _)) by (unfold_int; lia).
    rewrite (proj2 (Z.ltb_ge _ _)) by lia. cbn [andb]. eauto. }
  exists r'. pose proof (resting_within r o rem Hlim ltac:(lia)) as Hlim'. rewrite Hf in Hlim'. cbn [fst] in Hlim'.
  assert (risk_inv r') as Hinv' by (eapply applyResting_inv; [done| |exact Hf]; unfold_int; lia).
  apply applyResting_true in Hf as Hf'. destruct Hf' as (_ & _ & _ & _ & _ & _ & _ & Hr').
  split; [exact Hf|]. split; [|by subst r']. split; [done| |by subst r']. apply Hlim'.
  destruct (side o); simpl in *; lia.
Qed.

(** ** The fills of a run of matchOrder *)

Lemma store_reservation_side m id info q id' info' :
  m !! id = Some info -> store_reservation m id info q !! id' = Some info' ->
  exists old, m !! id' = Some old /\ ri_side info' = ri_side old.
Proof.
  intros Hid. unfold store_reservation. destruct (q =? 0).
  - intros [_ H]%lookup_delete_Some. eauto.
  - intros [[<- <-]|[_ H]]%lookup_insert_Some; eauto.
Qed.

Definition resting_opposite (s : OrderSide) (r : RiskEngine) (t : Trade) : Prop :=
  forall info, order_risk_ r !! resting_id s t = Some info -> ri_side info = opposite s.

Lemma notify_fills_tracks s r b ts b1 :
  risk_ok r -> unique_ids b -> order_risk_ r = reservations b -> fill_all s b ts = Some b1 ->
  Forall (fun t => 0 <= trade_quantity t) ts -> Forall (resting_opposite s r) ts ->
  exists r', notify_fills s r ts = (r', true) /\ risk_ok r' /\ order_risk_ r' = reservations b1 /\
    unique_ids b1 /\ frees s r r'.
Proof.
  revert r b. induction ts as [|t ts IH]; intros r b Hr Hu Htr Hf HF Hopp; simpl in Hf.
  { injection Hf as <-. exists r. by split_and!; try apply frees_refl. }
  apply Forall_cons in HF as [Hq HF], Hopp as [Ht Hopp].
  destruct (applyFill b (resting_id s t) (trade_quantity t)) as [b2 []] eqn:Ha; [|done].
  apply fill_reservations in Ha as (o & Hg & Hqo & Hu2 & Hres); [|done|done].
  assert (order_risk_ r !! resting_id s t = Some (info_of o)) as Hid
    by (by rewrite Htr, reservations_lookup, Hg).
  destruct (onFill_accepts r _ _ (trade_quantity t) Hr Hid Hqo) as (r2 & Hon & Hr2 & Htr2 & Hfree).
  rewrite (Ht _ Hid), opposite_involutive in Hfree.
  destruct (IH r2 b2 Hr2 Hu2) as (r' & Hn & Hr' & Htr' & Hu' & Hfree'); [by rewrite Htr2, Htr, Hres|done|done| |].
  { eapply Forall_impl; [exact Hopp|]. intros t' Ht' info Hinfo. rewrite Htr2 in Hinfo.
    apply store_reservation_side in Hinfo as (old & Hold & ->); [|done]. by apply Ht'. }
  exists r'. cbn [notify_fills]. rewrite Hon, Hn. split_and!; try done. by eapply frees_trans.
Qed.

(** ** The lifecycle as a whole *)

Inductive live_request : Type :=
| LiveSubmit (clock : Z -> Z) (o : Order)
| LiveCancel (id : Z).

Definition live_step (r : RiskEngine) (b : OrderBook) (req : live_request) : RiskEngine * OrderBook * bool :=
  match req with
  | LiveSubmit clock o => live_submit clock r b o
  | LiveCancel id => live_cancel_order r b id
  end.

(** A new order: a fresh id, room in the pool and in the numbering of trades. *)
Definition live_request_ok (b : OrderBook) (req : live_request) : Prop :=
  match req with
  | LiveSubmit _ o =>
      incoming_wf o /\ order_id o ∉ book_ids b /\ 0 < pool_available_ b /\
      next_trade_id_ b + pool_capacity_ b <= UINT64_MAX
  | LiveCancel _ => True
  end.

(** An order that [validate] accepts, with a remainder that comes to rest and that the working
    quantity of its side alone, nothing of the position offset, does not leave room for. *)
Definition over_reserved (r : RiskEngine) (b : OrderBook) (req : live_request) : Prop :=
  match req with
  | LiveSubmit clock o =>
      let inc := mo_incoming (matchOrder clock b o) in
      validate r o = RISK_NONE /\ rests inc = true /\
      max_position_ r < working (side o) (state_of r (key_of o)) + remaining_quantity inc
  | LiveCancel _ => False
  end.

(** A shard's risk engine and book, configured before the first order, as long as no notification
    has been refused. *)
Inductive lifecycle (capacity : Z) : RiskEngine -> OrderBook -> Prop :=
| lifecycle_start r :
    gated r -> order_risk_ r = ∅ -> state_corrupt_ r = false -> lifecycle capacity r (OrderBook_new capacity)
| lifecycle_step r b req :
    lifecycle capacity r b -> live_request_ok b req -> (live_step r b req).2 = true ->
    lifecycle capacity (live_step r b req).1.1 (live_step r b req).1.2.

Record live_inv (r : RiskEngine) (b : OrderBook) : Prop := {
  live_inv_risk : risk_ok r;
  live_inv_tracks : order_risk_ r = reservations b;
  live_inv_ids : unique_ids b;
  live_inv_wf : book_wf b;
  live_inv_live : live_book b;
  live_inv_stp : stp_policy_ b = NONE;
  live_inv_next : 1 <= next_trade_id_ b
}.

Lemma validate_none_live r o : validate r o = RISK_NONE -> state_corrupt_ r = false.
Proof. unfold validate. by destruct (state_corrupt_ r). Qed.

(** The orders a run trades with rest on the other side. *)
Lemma matched_resting_opposite clock b inc ts b1 q r :
  book_wf b -> unique_ids b -> order_risk_ r = reservations b -> matched clock b inc ts b1 q ->
  Forall (resting_opposite (side inc) r) ts.
Proof.
  intros Hwf Hu Htr Hm. eapply Forall_impl; [exact (matched_opposite _ _ _ _ _ _ Hm)|].
  intros t Ht info Hinfo. rewrite Htr, reservations_lookup in Hinfo by done.
  destruct (getOrderById b (resting_id (side inc) t)) as [o|] eqn:Hg; [|done]. injection Hinfo as <-.
  apply list_elem_of_fmap in Ht as (o' & Hid & Ho'). pose proof (getOrderById_unique b _ o' Hu Ho') as Hg'.
  rewrite <- Hid, Hg in Hg'. injection Hg' as ->.
  pose proof (proj1 (book_wf_side (opposite (side inc)) b) Hwf) as (Hside & _).
  destruct (levels_wf_flat _ _ _ Hside Ho') as [(_ & Hs & _) _]. exact Hs.
Qed.

Lemma fill_all_matched clock b inc ts b1 q :
  matched clock b inc ts b1 q ->
  exists b2, fill_all (side inc) b ts = Some b2 /\ reservations b2 = reservations b1.
Proof.
  intros Hm. pose proof (matched_fills _ _ _ _ _ _ Hm) as Hf.
  destruct (fill_all (side inc) b ts) as [b2|]; [|by inversion Hf]. inversion Hf; subst.
  exists b2. split; [done|]. by apply reservations_untimed.
Qed.

(** A reservation that the limit of its side has no room for is refused. *)
Lemma onOrderResting_refuses r o rem :
  max_position_ r < working (side o) (state_of r (key_of o)) + rem -> (onOrderResting r o rem).2 = false.
Proof.
  intros Hover. destruct (onOrderResting r o rem) as [r' []] eqn:H; [|done].
  apply applyResting_true in H as (_ & _ & _ & _ & _ & _ & Hfits & _). specialize (Hfits eq_refl). lia.
Qed.

(** After the fills of an order have been reported: what remains is reserved, if it rests. *)
Lemma live_matched clock r r1 b o ts b1 q :
  live_inv r b -> incoming_wf o -> order_id o ∉ book_ids b -> 0 < pool_available_ b ->
  risk_ok r1 -> order_risk_ r1 = reservations b1 -> matched clock b o ts b1 q ->
  if rests (set_remaining o q) then
    exposure (side o) (key_of o) r1 + q <= max_position_ r1 ->
    working (side o) (state_of r1 (key_of o)) + q <= max_position_ r1 ->
    exists r2, onOrderResting r1 (set_remaining o q) q = (r2, true) /\
      live_inv r2 (mo_book (matchOrder clock b o))
  else live_inv r1 (mo_book (matchOrder clock b o)).
Proof.
  intros [Hr Htr Hu Hwf Hlive Hstp Hnext] Ho Hfresh Hpool Hr1 Htr1 Hm. pose proof Ho as (_ & Hqty & Hrem).
  pose proof (proj1 (matched_fewer _ _ _ _ _ _ Hm) Hu) as Hu1.
  assert (order_id o ∉ book_ids b1) as Hfresh1 by (intros Hin; apply Hfresh; by apply (matched_fewer _ _ _ _ _ _ Hm)).
  destruct (matchOrder_keeps clock b o Hwf Ho) as [Hwf' _].
  pose proof (matched_book _ _ _ _ _ _ Hm) as Hbook. pose proof (matched_live _ _ _ _ _ _ Hm) as Hl1.
  pose proof (matched_stp _ _ _ _ _ _ Hm) as Hs1. pose proof (matched_next _ _ _ _ _ _ Hm) as Hn1.
  pose proof (matched_remaining _ _ _ _ _ _ Hm) as Hq. pose proof (matched_pool _ _ _ _ _ _ Hm) as Hp1.
  destruct (rests (set_remaining o q)) eqn:Hrests; rewrite Hbook in *; [|split; try done; [congruence|lia]].
  apply rests_inv in Hrests as [Hpos Htype]. cbn [remaining_quantity set_remaining] in Hpos. intros Hexp Hroom.
  destruct (onOrderResting_accepts r1 (set_remaining o q) q Hr1 Htype) as (r2 & Hon & Hr2 & Htr2); try (simpl; lia); try done.
  { cbn [order_id set_remaining]. rewrite Htr1, reservations_lookup by done. by rewrite (proj2 (getOrderById_None b1 _)). }
  exists r2. split; [exact Hon|]. split; try done.
  - rewrite add_reservations by (try done; simpl; lia). by rewrite Htr2, Htr1.
  - by apply addOrder_one_more.
  - by apply live_add.
  - rewrite addOrder_stp. congruence.
  - rewrite addOrder_next. lia.
Qed.

(** An order through gate and book: its notifications are accepted, and the two agree afterwards,
    unless its remainder is over-reserved. *)
Lemma live_submit_inv clock r b o :
  live_inv r b -> live_request_ok b (LiveSubmit clock o) ->
  (over_reserved r b (LiveSubmit clock o) /\ (live_submit clock r b o).2 = false) \/
  (~ over_reserved r b (LiveSubmit clock o) /\ (live_submit clock r b o).2 = true /\
   live_inv (live_submit clock r b o).1.1 (live_submit clock r b o).1.2).
Proof.
  intros Hinv (Ho & Hfresh & Hpool & Hids).
  pose proof Hinv as [Hr Htr Hu Hwf Hlive Hstp Hnext]. unfold live_submit, over_reserved.
  destruct (validate r o) eqn:Hv; try (right; split; [by intros [? _]|by split]). pose proof Ho as (_ & Hqty & Hrem).
  pose proof (validate_exposure r o (risk_ok_inv r Hr) (risk_ok_limits r Hr) Hqty Hv) as Hexp.
  destruct (matchOrder_fills clock b o) as (ts & b1 & q & Hm); [done..|].
  rewrite (matched_result _ _ _ _ _ _ Hm), (matched_incoming _ _ _ _ _ _ Hm). cbv zeta.
  pose proof (matched_remaining _ _ _ _ _ _ Hm) as Hq.
  destruct (fill_all_matched _ _ _ _ _ _ Hm) as (b2 & Hf & Hres).
  destruct (notify_fills_tracks (side o) r b ts b2 Hr Hu Htr Hf) as (r1 & Hn & Hr1 & Htr1 & _ & Hmax & Hfree).
  { eapply Forall_impl; [exact (matched_quantities _ _ _ _ _ _ Hm)|]. simpl. lia. }
  { by eapply matched_resting_opposite. }
  rewrite Hn. rewrite Hres in Htr1. destruct (Hfree (key_of o)) as [He Hw].
  pose proof (live_matched clock r r1 b o ts b1 q Hinv Ho Hfresh Hpool Hr1 Htr1 Hm) as Hafter.
  destruct (rests (set_remaining o q)); [|right; split; [by intros (_ & ? & _)|by split]].
  rewrite Hmax, Hw in Hafter. cbn [remaining_quantity set_remaining].
  destruct (Z.lt_ge_cases (max_position_ r) (working (side o) (state_of r (key_of o)) + q)) as [Hover|Hfits].
  - left. split; [done|]. pose proof (onOrderResting_refuses r1 (set_remaining o q) q) as Hno.
    change (key_of (set_remaining o q)) with (key_of o) in Hno. cbn [side set_remaining] in Hno.
    rewrite Hmax, Hw in Hno. specialize (Hno Hover).
    destruct (onOrderResting r1 (set_remaining o q) q) as [r2 ok]. simpl in Hno. by subst ok.
  - right. destruct Hafter as (r2 & Hon & Hinv2); [lia|lia|].
    rewrite Hon. split; [intros (_ & _ & ?); lia|]. by split.
Qed.

Lemma live_cancel_inv r b id :
  live_inv r b ->
  live_inv (live_cancel_order r b id).1.1 (live_cancel_order r b id).1.2 /\ (live_cancel_order r b id).2 = true.
Proof.
  intros Hinv. pose proof Hinv as [Hr Htr Hu Hwf Hlive Hstp Hnext]. unfold live_cancel_order.
  destruct (getOrderById b id) as [o|] eqn:Hg; [|by split].
  assert (order_risk_ r !! id = Some (info_of o)) as Hid by (by rewrite Htr, reservations_lookup, Hg).
  destruct (onOrderCancelled_accepts r id (info_of o) Hr Hid) as (r' & Hon & Hr' & Htr').
  cbn [reserved_qty info_of] in Hon. rewrite Hon. split; [|done]. cbn [fst snd].
  destruct (cancelOrder_same_counters b id) as (Hs & Hn & _). split; try done.
  - by rewrite Htr', Htr, (cancel_reservations b id o).
  - by apply cancelOrder_fewer.
  - by apply cancelOrder_keeps.
  - by apply live_cancel.
  - congruence.
  - lia.
Qed.

Lemma live_step_inv r b req :
  live_inv r b -> live_request_ok b req ->
  (over_reserved r b req /\ (live_step r b req).2 = false) \/
  (~ over_reserved r b req /\ (live_step r b req).2 = true /\
   live_inv (live_step r b req).1.1 (live_step r b req).1.2).
Proof.
  intros Hinv Hok. destruct req; [by apply live_submit_inv|]. right. split; [by intros []|].
  destruct (live_cancel_inv r b id Hinv) as [? ?]. by split.
Qed.

Lemma live_start_inv capacity r :
  0 <= capacity -> gated r -> order_risk_ r = ∅ -> state_corrupt_ r = false -> live_inv r (OrderBook_new capacity).
Proof.
  intros Hc Hg He Hlive. destruct (gated_inv r Hg) as [Hinv Hlim]. split; try done.
  - constructor.
  - by apply OrderBook_new_wf.
  - by split; constructor.
Qed.

Lemma lifecycle_inv capacity r b : 0 <= capacity -> lifecycle capacity r b -> live_inv r b.
Proof.
  intros Hc. induction 1 as [r Hg He Hlive|r b req _ IH Hok Hans]; [by apply live_start_inv|].
  destruct (live_step_inv r b req IH Hok) as [[_ H]|(_ & _ & H)]; [congruence|done].
Qed.

(** C14: used as its header documents, the risk engine agrees with the book. Let a client validate
    each order, hand it to [matchOrder], report each fill of a resting order with [onFill] and the
    remainder that rests with [onOrderResting], and report cancellations with [onOrderCancelled],
    from an empty book without self-trade prevention and a risk engine configured before the first
    order, the orders being well formed with fresh ids, the pool having a slot for every order and
    trade ids not wrapping around. As long as no call was refused, [checkInvariant] answers true and no
    position passes the limit. And refusals are known exactly: no fill and no cancellation is ever
    refused, and an order's remainder is refused by [onOrderResting] just when the working
    quantity of its side and the remainder together pass the limit, which [validate], netting
    them against the position, may have let through ([validated_but_not_reserved]). *)
Theorem lifecycle_consistent capacity r b :
  0 <= capacity -> lifecycle capacity r b ->
  checkInvariant r b = true /\
  (forall req, live_request_ok b req -> (live_step r b req).2 = false <-> over_reserved r b req) /\
  forall trader symbol, Z.abs (getPosition r trader symbol) <= max_position_ r.
Proof.
  intros Hc Hl. pose proof (lifecycle_inv capacity r b Hc Hl) as Hinv. pose proof Hinv as [[Hr Hlim Hlive] Htr Hu _ _ _ _].
  split; [|split].
  - apply consistent_check; [done..|]. by apply tracks_reservations.
  - intros req Hok. destruct (live_step_inv r b req Hinv Hok) as [[? ->]|(? & -> & _)]; split; done.
  - intros trader symbol. destruct Hlim as [_ Hk]. destruct (Hk (trader, symbol)) as [H1 H2].
    destruct Hr as (_ & _ & Hst & _). destruct (Hst (trader, symbol)) as (_ & Hb & Hs).
    unfold getPosition. unfold_int. lia.
Qed.

(** ** A sample shard *)

Definition sample_gate : RiskEngine := risk_step RiskEngine_new (RiskSetReference 1 (d_of_Z 100)).

Definition sample_requests : list live_request :=
  (LiveSubmit sample_clock <$> sample_orders) ++
  [LiveSubmit sample_clock (sample_buy LIMIT 100 15); LiveCancel 4].

Definition live_run (r : RiskEngine) (b : OrderBook) (reqs : list live_request) : RiskEngine * OrderBook :=
  foldl (fun rb req => (live_step rb.1 rb.2 req).1) (r, b) reqs.

Definition sample_shard : RiskEngine * OrderBook := live_run sample_gate (OrderBook_new 16) sample_requests.

Lemma sample_gate_start : lifecycle 16 sample_gate (OrderBook_new 16).
Proof.
  apply lifecycle_start; [|vm_compute; reflexivity..].
  apply (gated_config RiskEngine_new (RiskSetReference 1 (d_of_Z 100))); [constructor|done|done].
Qed.

(** A run each of whose requests is allowed where it is made, and answered true. *)
Fixpoint requests_ok (r : RiskEngine) (b : OrderBook) (reqs : list live_request) : Prop :=
  match reqs with
  | [] => True
  | req :: reqs =>
      live_request_ok b req /\ (live_step r b req).2 = true /\
      requests_ok (live_step r b req).1.1 (live_step r b req).1.2 reqs
  end.

Lemma live_run_lifecycle capacity r b reqs :
  lifecycle capacity r b -> requests_ok r b reqs -> lifecycle capacity (live_run r b reqs).1 (live_run r b reqs).2.
Proof.
  revert r b. induction reqs as [|req reqs IH]; intros r b Hl Hok; [done|]. destruct Hok as (Hreq & Hans & Hok).
  unfold live_run. cbn [foldl fst snd].
  pose proof (lifecycle_step capacity r b req Hl Hreq Hans) as Hl1.
  destruct (live_step r b req) as [[r1 b1] ok]. cbn [fst snd] in *. by apply IH.
Qed.

Ltac submit_ok :=
  split; [split; [incoming_ok|split; [apply (bool_decide_eq_true_1 _); vm_compute; reflexivity|
    split; [vm_compute; reflexivity|vm_compute; discriminate]]]|split; [vm_compute; reflexivity|]].

Lemma sample_shard_lifecycle : lifecycle 16 sample_shard.1 sample_shard.2.
Proof.
  apply live_run_lifecycle; [exact sample_gate_start|]. unfold sample_requests, sample_orders. cbn [fmap list_fmap app].
  do 5 submit_ok. split; [exact I|]. split; [vm_compute; reflexivity|exact I].
Qed.

Lemma lifecycle_consistent_witness :
  getOrderCount sample_shard.2 = 2%nat /\ getPosition sample_shard.1 2 1 = -7 /\
  checkInvariant sample_shard.1 sample_shard.2 = true /\
  (live_step sample_shard.1 sample_shard.2 (LiveCancel 3)).2 <> false.
Proof.
  split; [vm_compute; reflexivity|]. split; [vm_compute; reflexivity|].
  destruct (lifecycle_consistent 16 sample_shard.1 sample_shard.2 ltac:(lia) sample_shard_lifecycle) as (Hc & Hreq & _).
  split; [exact Hc|]. intros Hf. by apply (Hreq (LiveCancel 3) I) in Hf.
Defined.

(** ** Where the lifecycle falls short *)

(** The buyer's own executions are never counted: no call reports what an incoming order trades
    on entry. With a limit of 10, a trader buys 30 and its position is still 0. *)
Theorem taker_position_uncounted :
  let r := setMaxPosition sample_gate 10 in
  let '(r, b) := live_run r (OrderBook_new 16)
    ((fun i => LiveSubmit sample_clock (sample_order i (10 + i) SELL LIMIT 100 10)) <$> [1; 2; 3]) in
  let buys := (fun i => LiveSubmit sample_clock (sample_order i 5 BUY LIMIT 100 10)) <$> [4; 5; 6] in
  let '(r', b') := live_run r b buys in
  getOrderCount b = 3%nat /\ getOrderCount b' = 0%nat /\
  getPosition r' 11 1 = -10 /\ getPosition r' 12 1 = -10 /\ getPosition r' 13 1 = -10 /\ getPosition r' 5 1 = 0.
Proof. vm_compute. auto 10. Qed.

(** [validate] nets working orders against the position, the reservation does not: a trader who
    is short by the limit may buy twice the limit according to [validate], but the second order
    rests in the book without a reservation. *)
Theorem validated_but_not_reserved :
  let r := setMaxPosition sample_gate 10 in
  let '(r, b) := live_run r (OrderBook_new 16)
    [LiveSubmit sample_clock (sample_order 1 5 SELL LIMIT 100 10);
     LiveSubmit sample_clock (sample_order 2 6 BUY LIMIT 100 10);
     LiveSubmit sample_clock (sample_order 3 5 BUY LIMIT 99 10)] in
  let o := sample_order 4 5 BUY LIMIT 99 10 in
  checkInvariant r b = true /\ validate r o = RISK_NONE /\
  let '(r', b', answered) := live_submit sample_clock r b o in
  answered = false /\ getOrderCount b' = 2%nat /\ checkInvariant r' b' = false.
Proof. vm_compute. auto. Qed.

(** An order that self-trade prevention takes out of the book is in no trade and no cancellation:
    its reservation stays. *)
Theorem stp_removal_keeps_reservation :
  let '(r, b) := live_run sample_gate (setSTPPolicy (OrderBook_new 16) CANCEL_OLDEST)
    [LiveSubmit sample_clock (sample_order 1 5 SELL LIMIT 100 10);
     LiveSubmit sample_clock (sample_order 2 5 BUY LIMIT 100 10)] in
  getOrderById b 1 = None /\ is_Some (order_risk_ r !! 1) /\ checkInvariant r b = false.
Proof. vm_compute. eauto. Qed.
