(* ===== verification/TickPrices.v ===== *)
(** * TickPrices: prices of whole ticks

    A price is a [double] in the engine, a number of millionths in events and journal
    ([MatchingEngine::doubleToTicks]), a [double] again in [Recovery], and a decimal on the
    console. For every price of whole ticks up to 2^46 (70 million) the four agree: the rounding
    errors of the three operations between them never reach half a tick. *)

From Stdlib Require Import ZArith Lia Bool.
From Stdlib Require Import SpecFloat.
From stdpp Require Import base tactics numbers strings.
From S2P Require Import Prelude.
From S2P Require Import Double.
From S2P Require Import Rounding.
From S2P Require Import MatchingEngine.
From S2P Require Import Recovery.
From S2P Require Import Rebuild.
From S2P Require Import Console.

Local Open Scope Z_scope.

(** ** The constants *)

Lemma million_normal : normal (d_of_Z 1000000) (1000000 * 2 ^ 33) (-33).
Proof. exists (1000000 * 2 ^ 33)%positive. split; [vm_compute; reflexivity|]. split; [reflexivity|]. lia. Qed.

Lemma half_normal : normal (d_frac 1 2) (2 ^ 52) (-53).
Proof. exists (2 ^ 52)%positive. split; [vm_compute; reflexivity|]. split; [reflexivity|]. lia. Qed.

(** ** From ticks to a double *)

(** One unit of the last place of the scale. *)
Definition tick_unit : Z := 2 ^ 2000.

Lemma tick_unit_pos : 0 < tick_unit.
Proof. by apply Z.pow_pos_nonneg. Qed.

Lemma ticksToDouble_close t :
  0 < t <= 2 ^ 46 ->
  exists M E, normal (ticksToDouble t) M E /\ -72 <= E <= -17 /\
    2 ^ 52 * Z.abs (units M E * 1000000 - t * tick_unit) <= t * tick_unit.
Proof.
  intros Ht. destruct (d_of_Z_normal t) as (k & Hk & Hn); [lia|].
  destruct (ddiv_close _ _ _ _ _ _ Hn million_normal) as (M & E & HM & HE & Hc); [lia..|].
  exists M, E. split; [exact HM|]. split; [lia|]. unfold close in Hc.
  assert (units (t * 2 ^ k) (- k - -33) = t * tick_unit * 2 ^ 33) as Hu.
  { unfold units, tick_unit. rewrite <- Z.mul_assoc, <- Z.pow_add_r, <- Z.mul_assoc, <- Z.pow_add_r by lia.
    do 2 f_equal. lia. }
  rewrite Hu in Hc. lia.
Qed.

(** ** And back *)

Lemma trunc_units (M : positive) E t :
  -2000 <= E -> 0 <= t -> t * tick_unit <= units (Z.pos M) E < (t + 1) * tick_unit ->
  d_trunc (S754_finite false M E) = Some t.
Proof.
  intros HE Ht. unfold units, tick_unit, d_trunc. intros Hv. destruct (Z.leb_spec 0 E) as [H0|H0]; f_equal.
  - rewrite Z.shiftl_mul_pow2 by lia. rewrite Z.pow_add_r, Z.mul_assoc in Hv by lia.
    assert (0 < 2 ^ 2000) as Hp by (by apply Z.pow_pos_nonneg). set (p := 2 ^ 2000) in *. clearbody p.
    destruct Hv as [H1 H2]. apply Z.mul_le_mono_pos_r in H1; [|done]. apply Z.mul_lt_mono_pos_r in H2; [|done]. lia.
  - rewrite Z.shiftr_div_pow2 by lia.
    replace 2000 with (- E + (E + 2000)) in Hv at 1 4 by lia. rewrite !Z.pow_add_r, !Z.mul_assoc in Hv by lia.
    assert (0 < 2 ^ (E + 2000)) as Hp by (apply Z.pow_pos_nonneg; lia).
    assert (0 < 2 ^ (- E)) as Hq by (apply Z.pow_pos_nonneg; lia).
    symmetry. apply (Z.div_unique_pos _ _ _ (Z.pos M - 2 ^ (- E) * t)); [|lia].
    set (p := 2 ^ (E + 2000)) in *. set (q := 2 ^ (- E)) in *. clearbody p q.
    destruct Hv as [H1 H2]. apply Z.mul_le_mono_pos_r in H1; [|done]. apply Z.mul_lt_mono_pos_r in H2; [|done]. lia.
Qed.

Section Ticks.
Context (ticks_overflow : double -> Z).

Lemma doubleToTicks_ticks t :
  0 < t <= 2 ^ 46 -> doubleToTicks ticks_overflow (ticksToDouble t) = t.
Proof.
  intros Ht. destruct (ticksToDouble_close t Ht) as (M & E & HM & HE & Hc).
  destruct (dmul_close _ _ _ _ _ _ HM million_normal) as (M1 & E1 & HM1 & HE1 & Hc1); [lia..|].
  destruct (dadd_close _ _ _ _ _ _ HM1 half_normal) as (M2 & E2 & HM2 & HE2 & Hc2); [lia..|exists 100; lia|].
  unfold close in Hc1, Hc2. rewrite !Z.mul_1_r in Hc1, Hc2.
  assert (units (M * (1000000 * 2 ^ 33)) (E + -33) = units M E * 1000000) as Hu1.
  { unfold units. replace (E + 2000) with (33 + (E + -33 + 2000)) by lia. rewrite (Z.pow_add_r 2 33) by lia. ring. }
  assert (2 * units (2 ^ 52) (-53) = tick_unit) as Hu2 by (vm_compute; reflexivity).
  rewrite Hu1 in Hc1. unfold doubleToTicks, d_to_int64. destruct HM2 as (M2' & -> & -> & _).
  rewrite (trunc_units M2' E2 t); [|lia|lia|].
  - rewrite (proj2 (Z.leb_le _ _)), (proj2 (Z.leb_le _ _)) by (unfold_int; lia). done.
  - pose proof tick_unit_pos as Hp. assert (t * tick_unit <= 2 ^ 46 * tick_unit) as Hx by nia.
    replace ((t + 1) * tick_unit) with (t * tick_unit + tick_unit) by ring.
    set (x := t * tick_unit) in *. set (h := units (2 ^ 52) (-53)) in *. clearbody x h.
    set (u := tick_unit) in *. clearbody u. lia.
Qed.

Lemma ticksToDouble_valid t : 0 < t <= 2 ^ 46 -> valid_price (ticksToDouble t) = true.
Proof. intros (M & E & (M' & -> & _) & _)%ticksToDouble_close. reflexivity. Qed.

Lemma ticksToDouble_exact t : 0 < t <= 2 ^ 46 -> price_exact ticks_overflow (ticksToDouble t).
Proof.
  intros Ht. unfold price_exact. rewrite doubleToTicks_ticks by done. split; [by apply ticksToDouble_valid|].
  split; [unfold_int; lia|done].
Qed.

Lemma ticksToDouble_lt t t' : 0 < t -> t < t' -> t' <= 2 ^ 46 -> dlt (ticksToDouble t) (ticksToDouble t') = true.
Proof.
  intros H0 Hlt Hmax. destruct (ticksToDouble_close t) as (M & E & HM & HE & Hc); [lia|].
  destruct (ticksToDouble_close t') as (M' & E' & HM' & HE' & Hc'); [lia|].
  apply (normal_dlt _ _ _ _ _ _ HM HM'); [lia..|]. pose proof tick_unit_pos as Hp.
  assert (t * tick_unit + tick_unit <= t' * tick_unit) as Hstep by nia.
  assert (t' * tick_unit <= 2 ^ 46 * tick_unit) as Hx by nia.
  set (x := t * tick_unit) in *. set (x' := t' * tick_unit) in *. set (u := tick_unit) in *. clearbody x x' u. lia.
Qed.

(** The text of a price of whole ticks is its ticks with a decimal point. *)
Lemma ticksToDouble_printed t : 0 < t <= 2 ^ 46 -> printed_price (ticksToDouble t) = t.
Proof.
  intros Ht. destruct (ticksToDouble_close t Ht) as (M & E & (M' & Hx & -> & _) & HE & Hc). rewrite Hx.
  pose proof (printed_price_nearest M' E) as Hn. unfold d_ratio in Hn.
  rewrite (proj2 (Z.leb_gt _ _)) in Hn by lia. destruct Hn as [Hd Hn].
  unfold units, tick_unit in Hc. replace (2 ^ 2000) with (2 ^ (- E) * 2 ^ (E + 2000)) in Hc
    by (rewrite <- Z.pow_add_r by lia; f_equal; lia).
  assert (0 < 2 ^ (E + 2000)) as Hp by (apply Z.pow_pos_nonneg; lia).
  set (p := 2 ^ (E + 2000)) in *. set (d := 2 ^ (- E)) in *. set (q := printed_price _) in *. clearbody p d q.
  replace (Z.pos M' * p * 1000000 - t * (d * p)) with ((Z.pos M' * 1000000 - t * d) * p) in Hc by ring.
  rewrite Z.abs_mul, (Z.abs_eq p), !Z.mul_assoc in Hc by lia. apply Z.mul_le_mono_pos_r in Hc; [|done].
  assert (t * d <= 2 ^ 46 * d) as Htd by nia. assert (Z.abs ((q - t) * d) < d) as Hq by lia.
  rewrite Z.abs_mul, (Z.abs_eq d) in Hq by lia. nia.
Qed.

(** C20: a price of whole ticks means the same everywhere. Up to 2^46 ticks (a price of 70 million):
    the double that recovery makes of a tick number becomes the same number again in the engine's
    events, so it satisfies what recovery asks of prices (price_exact); the order of the
    doubles is the order of the ticks; and the console prints exactly the ticks, with six
    decimals. *)
Theorem whole_ticks_faithful t :
  0 < t <= 2 ^ 46 ->
  doubleToTicks ticks_overflow (ticksToDouble t) = t /\
  price_exact ticks_overflow (ticksToDouble t) /\
  (forall t', t < t' <= 2 ^ 46 -> dlt (ticksToDouble t) (ticksToDouble t') = true) /\
  to_string_double (ticksToDouble t) = decimal 6 t.
Proof.
  intros Ht. split; [by apply doubleToTicks_ticks|]. split; [by apply ticksToDouble_exact|]. split.
  - intros t' Ht'. apply ticksToDouble_lt; lia.
  - by rewrite to_string_double_valid, ticksToDouble_printed by (try done; by apply ticksToDouble_valid).
Qed.
End Ticks.

Lemma whole_ticks_faithful_witness :
  doubleToTicks (fun _ => 0) (ticksToDouble 100500000) = 100500000 /\
  to_string_double (ticksToDouble 100500000) = "100.500000".
Proof.
  destruct (whole_ticks_faithful (fun _ => 0) 100500000 ltac:(lia)) as (H1 & _ & _ & H2).
  split; [exact H1|]. rewrite H2. vm_compute. reflexivity.
Defined.

(** Where it ends: a price of a fraction of a tick is rounded, half a tick up. *)
Example fraction_of_a_tick :
  doubleToTicks (fun _ => 0) (d_frac 15 10000000) = 2 /\ doubleToTicks (fun _ => 0) (d_frac 14 10000000) = 1 /\
  deq (ticksToDouble 2) (d_frac 15 10000000) = false.
Proof. vm_compute. auto. Qed.
